(* ===== verification/_CoqProject ===== *)
-Q . S2P
Prelude.v
IntText.v
BinaryIO.v
PartInfo.v
ActiveDataPartSet.v
ReadBuffer.v
ReadBufferFromFile.v
WriteBuffer.v
IOHelpers.v
BitIO.v
Codec.v
Elements.v
CodecDelta.v
CodecGCD.v
CodecDoubleDelta.v
CodecGorilla.v
CodecT64.v
LZ4Decompress.v
CodecFPC.v
CodecLZ4.v
CodecZSTD.v
CodecFactory.v
CodecValidation.v
HashingBuffer.v
CompressedWriteBuffer.v
CompressedReadBuffer.v
CompressedFile.v
CompressedStream.v
Marks.v
PartStream.v
PartReader.v
IndexGranularity.v
GranularityPtr.v
Granules.v
WidePart.v
WideWriter.v
WideRead.v
PartRoundtrip.v
PartChecksums.v
PartCheck.v
ChecksumsFormat.v
RWLock.v
CachePolicy.v
LRUCache.v
SLRUCache.v
CacheBase.v
