(* ===== verification/Prelude.v ===== *)
(** * Verification of core components of ClickHouse

    ** The program and the parts modelled here

    ClickHouse stores tables as sets of immutable parts.  The library follows
    a part from its name to its bytes, and adds the two concurrent components
    that guard the access to tables and the reuse of what was read:

    - the name of a part ([PartInfo.v]) says which range of blocks it covers;
      numbers in names and texts go through [IntText.v] and [BinaryIO.v];
    - the set of active parts ([ActiveDataPartSet.v]) keeps the maximal parts;
    - the columns of a part are compressed by chains of codecs that a table
      declares: the codecs ([Codec.v], [CodecDelta.v], [CodecGCD.v],
      [CodecDoubleDelta.v], [CodecGorilla.v], [CodecT64.v], [CodecFPC.v],
      [CodecZSTD.v] and [CodecLZ4.v] with its decoder [LZ4Decompress.v]) over bit streams
      ([BitIO.v]) and arrays ([Elements.v]), the factory that builds them from
      declarations and from method bytes ([CodecFactory.v]), and the validation
      of declarations ([CodecValidation.v]);
    - the bytes go through chains of buffers: buffers of files ([ReadBuffer.v],
      [ReadBufferFromFile.v], [WriteBuffer.v]), buffers that hash what passes
      ([HashingBuffer.v]), and buffers that compress and decompress blocks
      ([CompressedWriteBuffer.v], [CompressedReadBuffer.v], [CompressedFile.v]);
    - a wide part has two such files for each stream of a column, the data and the
      marks, which say where the granules begin ([Marks.v], [PartStream.v]); the
      writer cuts blocks of rows into granules ([IndexGranularity.v],
      [GranularityPtr.v], [Granules.v], [WidePart.v]), and readers go from a mark
      on ([PartReader.v]);
    - the checksums of the files are collected by the writer, stored in
      checksums.txt and compared with the files when a part is checked
      ([PartChecksums.v], [PartCheck.v], [ChecksumsFormat.v] over [IOHelpers.v]);
    - the readers-writer lock of tables ([RWLock.v]);
    - the caches of marks, blocks and the like: two eviction policies behind one
      interface ([CachePolicy.v], [LRUCache.v], [SLRUCache.v]) and the
      thread-safe cache over either ([CacheBase.v]).

    Paths below are relative to the directory src of the repository, unless they
    start with base/.

    ** Conventions

    The sources are translated by hand into functions.  A machine integer is a
    [Z], its wrap-around written out with [uwrap] and [swrap]; memory is a list
    of bytes; code that may throw returns a [result], and code that mutates an
    object takes and returns its state.  An access outside of the memory the code
    was given is the outcome [OUT_OF_BOUNDS_ACCESS], so that memory safety is a
    property of results.  An operation on a buffer that throws also returns the
    buffer it leaves, where the code goes on with it ([outcome]).  Assertions of
    debug builds are left out, except where a definition names them:
    [ASSERTION_FAILED] in [ActiveDataPartSet.v] and [PartReader.v], and the
    assertions of [RWLock.v].  The machine is little-endian with 64-bit addresses.
    Definitions have the names of the source; where one function of the source
    is several definitions, the comment of each says which part it is.

    ** Files

    - [Prelude.v]: machine integers, lists, bytes, exceptions.
    - [IntText.v]: integers as decimal text.  [Decimal] is the specification,
      [Itoa] base/base/itoa.cpp with its tables and multiplications by
      reciprocals, [ReadInt] readIntText of IO/ReadHelpers.h and its overflow
      checks.  The writer prints the decimal digits at every width up to 256
      bits; the reader accepts exactly the numbers in range.
    - [BinaryIO.v]: [VarInt] is IO/VarInt.h, [Binary] the fixed-width and string
      encodings of IO/ReadHelpers.h and IO/WriteHelpers.h; round trips, and the
      safety of the reader without bounds checks.
    - [PartInfo.v]: MergeTreePartInfo of Storages/MergeTree: parsing and printing
      of names in both formats, containment and disjointness, serialisation,
      detached names, coverage of block ranges.  Round trips, soundness of the
      parser, and that containment is an order.
    - [ActiveDataPartSet.v]: Storages/MergeTree/ActiveDataPartSet.{h,cpp}, every
      method.  A contract for [addImpl] and its proof, exactness of the
      queries, and the invariant of every reachable set: sorted, pairwise
      disjoint, correctly named.
    - [BitIO.v]: BitReader and BitWriter of IO/BitHelpers.h; what is written is
      read back, at any widths.
    - [Codec.v]: ICompressionCodec, the frame of a block, NONE and Multiple.  Two
      classes state what a codec promises: [LosslessCodec], that the codec made
      from the method byte restores the data, and [SafeDecoder], that
      decompression of arbitrary bytes stays within its buffers.
    - [Elements.v]: unaligned loads and stores of base/base/unaligned.h.
    - The codec files: each codec of Compression/CompressionCodec*.cpp with its
      builder, proved lossless within the size it reserves, and an instance of
      both classes.
    - [LZ4Decompress.v]: Compression/LZ4_decompress_faster.{h,cpp}: the decoder in
      five variants that copy 8, 16 or 32 bytes at once, with their tables, on
      x86-64 with SSSE3.  Each of them decodes every block of the LZ4 format to
      the data the format defines, and ends on arbitrary bytes without leaving
      its buffers.  [CodecLZ4.v] is CompressionCodecLZ4.cpp around it.
    - [CodecZSTD.v]: CompressionCodecZSTD.{h,cpp} around the ZSTD library.
    - [CodecFactory.v]: CompressionFactory.{h,cpp}: registration, lookup by name
      and by method byte.  A column compressed by any declared chain without
      encryption is read back through the method bytes of its data, and corrupted
      data is never read or written out of bounds by a single codec, that is, any
      but Multiple and the encryption codecs.
    - [CodecValidation.v]: CompressionFactoryAdditions.cpp: which declarations are
      accepted, and that the description stored for a declaration builds the same
      codec.
    - [ReadBuffer.v]: IO/BufferBase.h and IO/ReadBuffer.{h,cpp}; the class
      [ReaderSpec] is what a derived class owes, and all reads are proved against
      it to be those of the bytes to come.  [ReadBufferFromFile.v] is
      IO/ReadBufferFromFileDescriptor.{h,cpp} over system calls that may be
      interrupted, short or failing.  [WriteBuffer.v]: IO/WriteBuffer.{h,cpp} and
      IO/WriteBufferFromFileDescriptor.cpp with the class [WriterSpec]; what a
      failed write leaves.  [IOHelpers.v]: values of IO/VarInt.h and
      IO/ReadHelpers.{h,cpp} read from buffers as from memory.
    - [HashingBuffer.v]: IO/HashingWriteBuffer.{h,cpp} and IO/HashingReadBuffer.h;
      the hash depends on the data only, not on the pieces it comes in.
    - [CompressedWriteBuffer.v], [CompressedReadBuffer.v], [CompressedFile.v]:
      the classes of these names of Compression (the last is
      CompressedReadBufferFromFile.cpp), instances of the two classes over any
      buffer below.  [CompressedStream.v] composes them with files and codecs:
      what is written is read back, in sequence and from any block; and where the
      readers go wrong on marks out of their blocks.
    - [Marks.v]: Formats/MarkInCompressedFile.{h,cpp}, the packed array of marks.
    - [IndexGranularity.v]: MergeTreeIndexGranularity*.cpp of Storages/MergeTree,
      both representations against one class of laws, and that [optimize]
      changes no answer; [GranularityPtr.v] is the pointer to either of them.
    - [PartStream.v]: the streams of MergeTreeDataPartWriterOnDisk.{h,cpp}: chains
      of a file, a hashing, a compressing and a hashing buffer; where marks point.
      [Granules.v] and [WidePart.v]: MergeTreeDataPartWriterWide.cpp.
      [WideWriter.v] has the invariant of the writer over blocks, and
      [WideRead.v] what is read from its files with [PartReader.v]
      (MergeTreeMarksLoader.cpp, MergeTreeReaderStream.cpp).  [PartRoundtrip.v]
      states the round trip for any serialization of columns, for the numbers of
      SerializationNumber.cpp, and for the granularity that
      MergeTreeDataPartWide.cpp loads from marks.
    - [PartChecksums.v]: MergeTreeDataPartChecksum.{h,cpp} and checkDataPart.cpp.
      [PartCheck.v]: the check accepts what the writer wrote, and what it shows of
      the files it accepts.  [ChecksumsFormat.v]: the round trip of checksums.txt.
    - [RWLock.v]: Common/RWLock.{h,cpp}: each critical section of getLock and
      unlock, and a step relation of the threads that call them, with timeouts
      and failed allocations.  In every reachable state a writer is alone and the
      assertions of the code hold; no wake-up is lost; phases of readers and
      writers alternate.
    - [CachePolicy.v]: ICachePolicy as a class of operations, with the class of
      laws a policy owes to the cache.
    - [LRUCache.v], [SLRUCache.v]: the two policies, proved to satisfy the laws;
      the order of eviction of the first, the scan resistance of the second, whose
      protected share is computed in double precision ([round53]).
    - [CacheBase.v]: Common/CacheBase.h over the laws: a step relation of threads
      in the critical sections of getOrSet and the other methods.  The cache is a
      map that only forgets, and loads of one key do not overlap unless the cache
      is cleared.

    ** Parameters

    Code outside of the sources is a parameter with its documented behaviour as a
    hypothesis: the calendar functions of old part names ([PartInfo.v], section
    OldFormat); boost's gcd and libdivide's division ([CodecGCD.v]); the compressors
    of the LZ4 library, that yield blocks of the format within the documented
    bound, the processor, the random samples of timings and the bytes around the
    buffers ([CodecLZ4.v]); the ZSTD library, that restores what it compressed
    within the documented bound ([CodecZSTD.v]); the creators of the encryption
    codecs, of which nothing is supposed ([CodecFactory.v]); the contents of fresh
    memory ([fresh]) and of a working buffer that was overwritten ([clobber]); the
    hashes [CityHash128] and [CityHash128WithSeed], of which nothing is supposed;
    the system calls of a descriptor, a list of how many bytes each transfers,
    that it is interrupted, or that it fails ([ReadBufferFromFile.v]); the
    serialization of a column, that writes the encodings of its rows to its
    streams ([WidePart.v], class [RowWise]);
    the hash of codecs and the streams of a type ([CodecValidation.v]); the keys,
    values and weights of a cache.  The static variable of Gorilla, initialised by
    its first call, is the argument [statics].  Each theorem with such a parameter
    has a witness that instantiates it.

    ** Bounds and fuel

    - [digits_fuel] in [IntText.v] has fuel log2 n + 1; [digits_fuel_enough]
      shows that more changes nothing.
    - [write_loop] in [BinaryIO.v] has fuel 10, the number of groups of 7 bits in
      64 bits.
    - [flush_loop] in [BitIO.v] has fuel 32, more than the bytes of its counter.
    - [encode_loop] and [decode_loop] in [CodecFPC.v] have the number of bytes as
      fuel and use up at least one per chunk; running out would be an error, which
      the theorems exclude.
    - In [LZ4Decompress.v] the loop over tokens has one more than the bytes of the
      input as fuel and reads a token per iteration, the loop over the bytes of a
      length has the bytes left, and [wildCopy] the bytes to copy and one.
    - [grant_loop] in [RWLock.v] has the number of reader groups as fuel, and
      passes over one group per step.
    - The loops of read buffers have the bytes asked for and the pieces left as fuel,
      those of system calls the bytes and the calls left, the loop of the hash
      the length of the data, readBig the bytes asked for, and the loops over
      granules the rows of the block; all theorems on them are total.  The
      loops to the end of a file have their fuel as an argument, which the theorems
      suppose to exceed the length of the data.
    - The loops of the caches recurse on the size of the queue, as in the source.
    - Compressed data is below 2^32 bytes, the type of the sizes, and in a chain
      below 1 GiB, which the code checks.  Weights and limits of caches are below
      2^62 and the threads of a cache fewer than 2^63, so that sums do not wrap.
      Files are below 2^63 bytes and parts have less than 2^56 marks.

    ** Not modelled

    Query processing (Parsers, Analyzer, Planner, Interpreters, Functions,
    Columns) is vectorised evaluation over templates of all types and syntax trees
    of hundreds of nodes; other storages, merges and mutations, the server,
    clients, disks, backups and dictionaries are mostly input and output or
    external services; Coordination replicates through a library.  Of parts,
    compact parts, projections, primary and skip indices, statistics, permutations
    of blocks, columns of Nested that share offsets and minimal checksums are left
    out.  Within the modelled files, metrics, logging, throttling, prefetch,
    debugging getters and validations, hashes of codecs, the asynchronous mode of
    hardware codecs, the timings behind the choice of an LZ4 variant and its
    statistics for development are left out, as are user quotas, that both cache
    policies ignore, and the data of a key that its equality does not compare. *)
From stdpp Require Export base tactics option list numbers list_numbers strings gmap sorting.
From Stdlib Require Export ZArith Lia Ascii.

Global Open Scope Z_scope.

#[global] Arguments Z.pow : simpl never.
#[global] Arguments Z.of_nat : simpl never.
#[global] Arguments Z.to_nat : simpl never.
#[global] Arguments Z.div : simpl never.
#[global] Arguments Z.modulo : simpl never.

(** * Machine integers *)

(** Value of [z] stored in an unsigned object of [w] bits. *)
Definition uwrap (w z : Z) : Z := z mod 2 ^ w.

(** Value of [z] stored in a two's complement object of [w] bits. *)
Definition swrap (w z : Z) : Z :=
  let u := z mod 2 ^ w in if u <? 2 ^ (w - 1) then u else u - 2 ^ w.

Definition in_unsigned (w z : Z) : Prop := 0 <= z < 2 ^ w.
Definition in_signed (w z : Z) : Prop := - 2 ^ (w - 1) <= z < 2 ^ (w - 1).

Lemma uwrap_small w z : in_unsigned w z -> uwrap w z = z.
Proof. intros H. apply Z.mod_small, H. Qed.

Lemma uwrap_range w z : 0 <= w -> in_unsigned w (uwrap w z).
Proof. intros Hw. apply Z.mod_pos_bound. lia. Qed.

Lemma pow2_double w : 0 < w -> 2 ^ w = 2 * 2 ^ (w - 1).
Proof. intros Hw. rewrite <- Z.pow_succ_r by lia. f_equal. lia. Qed.

Lemma swrap_small w z : 0 < w -> in_signed w z -> swrap w z = z.
Proof.
  unfold in_signed, swrap. intros Hw H.
  pose proof (pow2_double w Hw).
  destruct (Z.ltb_spec (z mod 2 ^ w) (2 ^ (w - 1))); destruct (decide (0 <= z)).
  - apply Z.mod_small. lia.
  - rewrite <- (Z.mod_unique z (2 ^ w) (-1) (z + 2 ^ w)) in *; lia.
  - rewrite Z.mod_small in *; lia.
  - rewrite <- (Z.mod_unique z (2 ^ w) (-1) (z + 2 ^ w)) in *; lia.
Qed.

Lemma swrap_range w z : 0 < w -> in_signed w (swrap w z).
Proof.
  unfold in_signed, swrap. intros Hw. pose proof (pow2_double w Hw).
  pose proof (Z.mod_pos_bound z (2 ^ w)).
  destruct (Z.ltb_spec (z mod 2 ^ w) (2 ^ (w - 1))); lia.
Qed.

Lemma swrap_mod w z : 0 < w -> swrap w z mod 2 ^ w = z mod 2 ^ w.
Proof.
  unfold swrap. intros Hw.
  destruct (z mod 2 ^ w <? 2 ^ (w - 1)); [apply Z.mod_mod; lia|].
  rewrite <- (Z.mod_mod z (2 ^ w)) at 2 by lia.
  replace (z mod 2 ^ w - 2 ^ w) with (z mod 2 ^ w + (-1) * 2 ^ w) by lia.
  apply Z_mod_plus_full.
Qed.

(** Wrapping only adds a multiple of [2 ^ w]. *)
Lemma uwrap_multiple w z : 0 <= w -> exists k, uwrap w z = z + k * 2 ^ w.
Proof. intros Hw. exists (- (z / 2 ^ w)). unfold uwrap. rewrite Z.mod_eq by lia. lia. Qed.

Lemma swrap_multiple w z : 0 < w -> exists k, swrap w z = z + k * 2 ^ w.
Proof.
  intros Hw. unfold swrap. destruct (uwrap_multiple w z ltac:(lia)) as [k Hk]. unfold uwrap in Hk.
  destruct (z mod 2 ^ w <? 2 ^ (w - 1)); [exists k|exists (k - 1)]; lia.
Qed.

Lemma uwrap_add_multiple w z k : 0 <= w -> uwrap w (z + k * 2 ^ w) = uwrap w z.
Proof. intros Hw. unfold uwrap. apply Z_mod_plus_full. Qed.

Lemma uwrap_swrap w z : 0 < w -> uwrap w (swrap w z) = uwrap w z.
Proof. apply swrap_mod. Qed.

Lemma swrap_uwrap w z : 0 < w -> swrap w (uwrap w z) = swrap w z.
Proof. intros Hw. unfold swrap, uwrap. rewrite Z.mod_mod by lia. done. Qed.

Lemma land_low_mask z k : 0 <= k -> Z.land z (2 ^ k - 1) = z mod 2 ^ k.
Proof. intros Hk. rewrite Z.sub_1_r, <- Z.ones_equiv. by apply Z.land_ones. Qed.

(** Disjoint bits: bitwise or is addition. *)
Lemma lor_shiftl_add a b k : 0 <= k -> 0 <= a < 2 ^ k -> Z.lor a (Z.shiftl b k) = a + b * 2 ^ k.
Proof.
  intros Hk Ha.
  assert (Hd : Z.land a (Z.shiftl b k) = 0).
  { apply Z.bits_inj'. intros i Hi. rewrite Z.land_spec, Z.bits_0, Z.shiftl_spec by lia.
    destruct (decide (i < k)).
    - rewrite (Z.testbit_neg_r b) by lia. apply andb_false_r.
    - rewrite <- (Z.mod_small a (2 ^ k)), Z.mod_pow2_bits_high by lia. done. }
  rewrite <- Z.lxor_lor, <- Z.add_nocarry_lxor, Z.shiftl_mul_pow2 by done. done.
Qed.

(** Complement of the low [n] bits. *)
Lemma lxor_low_mask n a : 0 <= n -> 0 <= a < 2 ^ n -> Z.lxor a (2 ^ n - 1) = 2 ^ n - 1 - a.
Proof.
  intros Hn Ha. replace (2 ^ n - 1 - a) with (Z.lnot a mod 2 ^ n).
  - rewrite <- (land_low_mask (Z.lnot a)) by done. rewrite <- (Z.mod_small a (2 ^ n)) at 1 by lia.
    rewrite Z.sub_1_r, <- Z.ones_equiv. apply Z.bits_inj'. intros i Hi.
    rewrite Z.lxor_spec, Z.land_spec, Z.lnot_spec by lia.
    destruct (decide (i < n)).
    + rewrite Z.ones_spec_low, Z.mod_pow2_bits_low by lia. by destruct (Z.testbit a i).
    + rewrite Z.ones_spec_high, Z.mod_pow2_bits_high by lia. by rewrite andb_false_r.
  - unfold Z.lnot. replace (Z.pred (- a)) with ((2 ^ n - 1 - a) + (-1) * 2 ^ n) by lia.
    rewrite Z_mod_plus_full. apply Z.mod_small. lia.
Qed.

Lemma lxor_range n a b : 0 <= n -> in_unsigned n a -> in_unsigned n b -> in_unsigned n (Z.lxor a b).
Proof.
  unfold in_unsigned. intros Hn Ha Hb.
  assert (E : Z.lxor a b = Z.lxor a b mod 2 ^ n).
  { apply Z.bits_inj'. intros i Hi. destruct (decide (i < n)).
    - by rewrite Z.mod_pow2_bits_low by lia.
    - rewrite Z.mod_pow2_bits_high, Z.lxor_spec by lia.
      rewrite <- (Z.mod_small a (2 ^ n)), <- (Z.mod_small b (2 ^ n)), !Z.mod_pow2_bits_high by lia. done. }
  rewrite E. apply Z.mod_pos_bound. lia.
Qed.

(** A decidable fact about every integer of a finite range, by evaluation. *)
Lemma check_range (P : Z -> Prop) `{!forall i, Decision (P i)} lo n :
  forallb (fun i => bool_decide (P i)) (seqZ lo n) = true ->
  forall i, lo <= i < lo + n -> P i.
Proof.
  rewrite forallb_forall. intros Hall i Hi.
  eapply bool_decide_eq_true_1, Hall, list_elem_of_In, elem_of_seqZ, Hi.
Qed.

Ltac by_range P lo n i :=
  let H := fresh "Hrange" in
  assert (H : P i) by (apply (check_range P lo n); [vm_compute; reflexivity|lia]);
  cbv beta in H.

(** [x in T] for the integer types of the source. *)
Record IntType := { width : Z; is_signed : bool }.

Definition UInt8 := {| width := 8; is_signed := false |}.
Definition UInt16 := {| width := 16; is_signed := false |}.
Definition UInt32 := {| width := 32; is_signed := false |}.
Definition UInt64 := {| width := 64; is_signed := false |}.
Definition Int8 := {| width := 8; is_signed := true |}.
Definition Int16 := {| width := 16; is_signed := true |}.
Definition Int32 := {| width := 32; is_signed := true |}.
Definition Int64 := {| width := 64; is_signed := true |}.
Definition UInt128 := {| width := 128; is_signed := false |}.
Definition UInt256 := {| width := 256; is_signed := false |}.
Definition Int128 := {| width := 128; is_signed := true |}.
Definition Int256 := {| width := 256; is_signed := true |}.

Definition int_min (T : IntType) : Z := if is_signed T then - 2 ^ (width T - 1) else 0.
Definition int_max (T : IntType) : Z :=
  if is_signed T then 2 ^ (width T - 1) - 1 else 2 ^ width T - 1.

(** Boolean test that a mathematical integer is representable in [T]. *)
Definition fits (T : IntType) (z : Z) : bool := (int_min T <=? z) && (z <=? int_max T).

(** Conversion to [T], as [static_cast<T>] does it. *)
Definition cast (T : IntType) (z : Z) : Z :=
  if is_signed T then swrap (width T) z else uwrap (width T) z.

Lemma fits_spec T z : fits T z = true <-> int_min T <= z <= int_max T.
Proof. unfold fits. rewrite andb_true_iff, !Z.leb_le. done. Qed.

Lemma cast_fits T z : 0 < width T -> fits T z = true -> cast T z = z.
Proof.
  rewrite fits_spec. unfold cast, int_min, int_max. intros Hw H.
  destruct (is_signed T); [apply swrap_small|apply uwrap_small];
    unfold in_signed, in_unsigned; lia.
Qed.

Lemma fits_cast T z : 0 < width T -> fits T (cast T z) = true.
Proof.
  rewrite fits_spec. unfold cast, int_min, int_max. intros Hw.
  destruct (is_signed T).
  - pose proof (swrap_range (width T) z Hw). unfold in_signed in *. lia.
  - pose proof (uwrap_range (width T) z ltac:(lia)). unfold in_unsigned in *. lia.
Qed.

(** * Lists *)

Lemma elem_of_rev {A} (x : A) l : x ∈ rev l <-> x ∈ l.
Proof. by rewrite !list_elem_of_In, <- in_rev. Qed.

Lemma StronglySorted_app_inv {A} (R : A -> A -> Prop) l r :
  StronglySorted R (l ++ r) ->
  StronglySorted R l /\ StronglySorted R r /\ forall x y, x ∈ l -> y ∈ r -> R x y.
Proof.
  induction l as [|a l IH]; simpl.
  - intros H. split_and!; [constructor|done|]. intros x y []%elem_of_nil.
  - intros [H1 H2]%StronglySorted_inv. destruct (IH H1) as (Hl & Hr & Hlr).
    apply Forall_app in H2 as [Ha Har]. split_and!; [by constructor|done|].
    intros x y [-> | Hx]%elem_of_cons Hy; [|by apply Hlr].
    rewrite Forall_forall in Har. by apply Har.
Qed.

Lemma StronglySorted_app_intro {A} (R : A -> A -> Prop) l r :
  StronglySorted R l -> StronglySorted R r -> (forall x y, x ∈ l -> y ∈ r -> R x y) ->
  StronglySorted R (l ++ r).
Proof.
  intros Hl Hr Hlr. induction Hl as [|a l Hl IH Ha]; simpl; [done|]. constructor.
  - apply IH. intros x y Hx. apply Hlr. by constructor.
  - apply Forall_app. split; [done|]. apply Forall_forall. intros y Hy. apply Hlr; [constructor|done].
Qed.

Lemma StronglySorted_rev {A} (R : A -> A -> Prop) l :
  StronglySorted R (rev l) <-> StronglySorted (fun x y => R y x) l.
Proof.
  induction l as [|a l IH]; simpl; [split; constructor|]. split.
  - intros (H1 & _ & H2)%StronglySorted_app_inv. constructor; [by apply IH|].
    apply Forall_forall. intros y Hy. apply H2; [by apply elem_of_rev|constructor].
  - intros [H1 H2]%StronglySorted_inv. apply StronglySorted_app_intro; [by apply IH|repeat constructor|].
    intros x y Hx [-> | []%elem_of_nil]%elem_of_cons. rewrite elem_of_rev in Hx.
    rewrite Forall_forall in H2. by apply H2.
Qed.

(** The number of elements a predicate holds of. *)
Definition count_if {A} (p : A -> bool) (xs : list A) : nat := length (List.filter p xs).
#[global] Arguments count_if : simpl never.

Lemma count_if_cons {A} (p : A -> bool) x xs : count_if p (x :: xs) = ((if p x then 1 else 0) + count_if p xs)%nat.
Proof. unfold count_if. cbn. by destruct (p x). Qed.

Lemma count_if_app {A} (p : A -> bool) xs ys : count_if p (xs ++ ys) = (count_if p xs + count_if p ys)%nat.
Proof. unfold count_if. by rewrite List.filter_app, length_app. Qed.

Lemma count_if_middle {A} (p : A -> bool) xs x ys :
  count_if p (xs ++ x :: ys) = ((if p x then 1 else 0) + count_if p (xs ++ ys))%nat.
Proof. rewrite !count_if_app, count_if_cons. lia. Qed.

Lemma count_if_pos {A} (p : A -> bool) xs : (0 < count_if p xs)%nat <-> exists x, x ∈ xs /\ p x = true.
Proof.
  unfold count_if. split.
  - destruct (List.filter p xs) as [|x ?] eqn:E; [cbn; lia|]. intros _. exists x.
    assert (List.In x (List.filter p xs)) as [Hin Hp]%filter_In by (rewrite E; by left).
    by rewrite list_elem_of_In.
  - intros (x & Hin%list_elem_of_In & Hp). assert (List.In x (List.filter p xs)) as Hf by by apply filter_In.
    destruct (List.filter p xs); [done | cbn; lia].
Qed.

Lemma count_if_all {A} (p : A -> bool) xs : (forall x, x ∈ xs -> p x = true) -> count_if p xs = length xs.
Proof.
  induction xs as [|x xs IH]; [done|]. intros Hp. rewrite count_if_cons, Hp by left. cbn. f_equal.
  apply IH. intros y Hy. apply Hp. by right.
Qed.

Lemma middle_subseteq {A} (xs : list A) x ys : xs ++ ys ⊆ xs ++ x :: ys.
Proof. intros z. rewrite !elem_of_app, elem_of_cons. tauto. Qed.

(** Lengths of lists: [simpl_len] computes them. *)
Lemma length_rev' {A} (l : list A) : length (rev l) = length l.
Proof. apply length_rev. Qed.

Create Rewrite HintDb lens.
#[export] Hint Rewrite @length_app @length_take @length_drop @length_replicate @length_rev' @length_fmap
  @length_zip_with : lens.

Ltac simpl_len := cbn [length] in *; autorewrite with lens in *; cbn [length] in *.

(** * Bytes and characters *)

Abbreviation bytes := (list Z).

(** The elements are bytes. *)
Definition is_bytes (bs : bytes) : Prop := Forall (fun b => 0 <= b < 256) bs.

Lemma is_bytes_app a b : is_bytes (a ++ b) <-> is_bytes a /\ is_bytes b.
Proof. apply Forall_app. Qed.

Lemma is_bytes_take n a : is_bytes a -> is_bytes (take n a).
Proof. apply Forall_take. Qed.

Lemma is_bytes_drop n a : is_bytes a -> is_bytes (drop n a).
Proof. apply Forall_drop. Qed.

Lemma is_bytes_zeros n : is_bytes (replicate n 0).
Proof. apply Forall_replicate. lia. Qed.

Create HintDb bytesdb.
#[export] Hint Resolve is_bytes_take is_bytes_drop is_bytes_zeros : bytesdb.

(** The code of a character literal. *)
Definition chr (c : ascii) : Z := Z.of_N (N_of_ascii c).

(** The bytes of a string literal. *)
Fixpoint bytes_of (s : string) : bytes :=
  match s with
  | EmptyString => []
  | String c s => chr c :: bytes_of s
  end.

Definition is_digit (c : Z) : bool := (chr "0" <=? c) && (c <=? chr "9").

(** * Exceptions *)

(** Error codes of the exceptions the modelled code throws. *)
Inductive ErrorCode :=
| ATTEMPT_TO_READ_AFTER_EOF
| CANNOT_PARSE_NUMBER
| BAD_DATA_PART_NAME
| INVALID_PARTITION_VALUE
| UNKNOWN_FORMAT_VERSION
| TOO_LARGE_STRING_SIZE
| CANNOT_READ_ALL_DATA
| CANNOT_PARSE_INPUT_ASSERTION_FAILED
| LOGICAL_ERROR
| CANNOT_WRITE_AFTER_END_OF_BUFFER
| CANNOT_COMPRESS
| CANNOT_DECOMPRESS
| CORRUPTED_DATA
| INCORRECT_DATA
| UNKNOWN_CODEC
| ILLEGAL_CODEC_PARAMETER
| ILLEGAL_SYNTAX_FOR_CODEC_TYPE
| BAD_GET
| UNEXPECTED_AST_STRUCTURE
| DATA_TYPE_CANNOT_HAVE_ARGUMENTS
| BAD_ARGUMENTS
| CHECKSUM_DOESNT_MATCH
| TOO_LARGE_SIZE_COMPRESSED
| SEEK_POSITION_OUT_OF_BOUND
| ARGUMENT_OUT_OF_BOUND
| CANNOT_SEEK_THROUGH_FILE
| CANNOT_READ_FROM_FILE_DESCRIPTOR
| CANNOT_WRITE_TO_FILE_DESCRIPTOR
| CANNOT_WRITE_AFTER_BUFFER_CANCELED
| BAD_SIZE_OF_FILE_IN_DATA_PART
| UNEXPECTED_FILE_IN_DATA_PART
| NO_FILE_IN_DATA_PART
| UNKNOWN_FORMAT
| FORMAT_VERSION_TOO_OLD
(** Not an error code: the exception [WriteBuffer::CurrentBufferExhausted]. *)
| CURRENT_BUFFER_EXHAUSTED
(** Not an error code: a failed [assert], which stops a debug build. *)
| ASSERTION_FAILED
(** Not an error code of the program: an access outside of the memory the code
    was given.  Memory safety is the absence of this outcome. *)
| OUT_OF_BOUNDS_ACCESS
(** Not an error code of the program: a loop of the model used up its fuel. *)
| OUT_OF_FUEL.

#[export] Instance ErrorCode_eq_dec : EqDecision ErrorCode.
Proof. solve_decision. Defined.

(** Outcome of code that may throw. *)
Inductive result (A : Type) :=
| Ok (a : A)
| Throw (e : ErrorCode).
Arguments Ok {_} _.
Arguments Throw {_} _.

Lemma Ok_inj {A} (a b : A) : Ok a = Ok b -> a = b.
Proof. congruence. Qed.

Definition rbind {A B} (r : result A) (k : A -> result B) : result B :=
  match r with Ok a => k a | Throw e => Throw e end.

Declare Scope result_scope.
Delimit Scope result_scope with result.
Notation "'let!' x ':=' r 'in' k" := (rbind r (fun x => k))
  (at level 10, x pattern, r at level 200, k at level 200) : result_scope.
Global Open Scope result_scope.

Lemma rbind_Ok {A B} (r : result A) (k : A -> result B) b :
  rbind r k = Ok b <-> exists a, r = Ok a /\ k a = Ok b.
Proof. destruct r; simpl; split; [eauto|intros (? & [=] & ?); by subst|done|by intros (? & ? & ?)]. Qed.

(** * Searching *)

(** The search of [std::lower_bound] and [std::upper_bound] over the indices from
    [first] on: the first one with the property, which no index before it and all after
    it have. *)
Fixpoint partition_point (fuel : nat) (has : nat -> result bool) (first len : nat) : result nat :=
  if (len =? 0)%nat then Ok first
  else match fuel with
  | O => Throw OUT_OF_FUEL
  | S fuel =>
      let half := (len / 2)%nat in
      let! b := has (first + half)%nat in
      if b : bool then partition_point fuel has first half
      else partition_point fuel has (first + half + 1) (len - (half + 1))
  end.

Lemma partition_point_spec fuel has (p : nat -> bool) first len :
  (len < fuel)%nat -> (forall i, (first <= i < first + len)%nat -> has i = Ok (p i)) ->
  (forall i j, (first <= i <= j)%nat -> (j < first + len)%nat -> p i = true -> p j = true) ->
  exists r, partition_point fuel has first len = Ok r /\ (first <= r <= first + len)%nat /\
    (forall i, (first <= i < r)%nat -> p i = false) /\ (forall i, (r <= i < first + len)%nat -> p i = true).
Proof.
  revert first len. induction fuel as [|fuel IH]; intros first len Hf Hp Hm; [lia|]. cbn [partition_point].
  destruct (Nat.eqb_spec len 0) as [->|Hne]; [exists first; split_and!; [done|lia|lia|intros; lia|intros; lia]|].
  set (half := (len / 2)%nat). assert (Hh : (half < len)%nat) by (unfold half; apply Nat.div_lt; lia).
  rewrite Hp by lia. cbn [rbind]. destruct (p (first + half)%nat) eqn:E.
  - destruct (IH first half) as (r & -> & Hr & H1 & H2); [lia|intros; apply Hp; lia|intros; eapply Hm; [| |done]; lia|].
    exists r. split_and!; [done|lia|lia|done|]. intros i Hi. destruct (decide (i < first + half)%nat); [apply H2; lia|].
    apply (Hm (first + half)%nat i); [lia|lia|done].
  - destruct (IH (first + half + 1)%nat (len - (half + 1))%nat) as (r & -> & Hr & H1 & H2);
      [lia|intros; apply Hp; lia|intros; eapply Hm; [| |done]; lia|].
    exists r. split_and!; [done|lia|lia| |intros; apply H2; lia]. intros i Hi.
    destruct (decide (first + half + 1 <= i)%nat); [apply H1; lia|]. destruct (p i) eqn:Ei; [|done].
    rewrite (Hm i (first + half)%nat) in E; [done|lia|lia|done].
Qed.
