(* ===== verification/IntText.v ===== *)
(** Integers as decimal text: the writer of base/base/itoa.cpp, with its
    fixed-point digit extraction into a character buffer, and the reader
    [readIntTextImpl] of src/IO/ReadHelpers.h. *)
From S2P Require Import Prelude.

(** * Reference: decimal notation *)

Module Decimal.

(** Canonical decimal digits of a natural number, most significant first. *)
Fixpoint digits_fuel (fuel : nat) (n : Z) : bytes :=
  match fuel with
  | O => []
  | S fuel => if n <? 10 then [chr "0" + n] else digits_fuel fuel (n / 10) ++ [chr "0" + n mod 10]
  end.

Definition decimal (n : Z) : bytes := digits_fuel (Z.to_nat (Z.log2 n + 1)) n.

(** Canonical text of an integer. *)
Definition decimal_signed (i : Z) : bytes :=
  if i <? 0 then chr "-" :: decimal (- i) else decimal i.

(** Value of a digit string that follows the number [acc]. *)
Fixpoint value_from (acc : Z) (ds : bytes) : Z :=
  match ds with
  | [] => acc
  | d :: ds => value_from (acc * 10 + (d - chr "0")) ds
  end.

(** The two digits of [r], and [2 * j] digits of [r] with leading zeros. *)
Definition two_digits (r : Z) : bytes := [chr "0" + r / 10; chr "0" + r mod 10].

Fixpoint padded (j : nat) (r : Z) : bytes :=
  match j with
  | O => []
  | S j => two_digits (r / 100 ^ Z.of_nat j) ++ padded j (r mod 100 ^ Z.of_nat j)
  end.

Lemma digits_fuel_enough fuel fuel' n :
  0 <= n -> (Z.to_nat (Z.log2 n + 1) <= fuel)%nat -> (Z.to_nat (Z.log2 n + 1) <= fuel')%nat ->
  digits_fuel fuel n = digits_fuel fuel' n.
Proof.
  revert fuel' n. induction fuel as [|fuel IH]; intros fuel' n Hn H H'.
  - pose proof (Z.log2_nonneg n). lia.
  - destruct fuel' as [|fuel']; [pose proof (Z.log2_nonneg n); lia|]. simpl.
    destruct (Z.ltb_spec n 10); [done|]. f_equal.
    assert (Z.log2 (n / 10) < Z.log2 n) as Hlog.
    { apply Z.log2_lt_pow2; [apply Z.div_str_pos; lia|].
      pose proof (Z.log2_spec n ltac:(lia)) as [_ Hs].
      rewrite Z.pow_succ_r in Hs by apply Z.log2_nonneg.
      apply Z.div_lt_upper_bound; lia. }
    apply IH; [apply Z.div_pos; lia|lia|lia].
Qed.

Lemma decimal_small n : 0 <= n < 10 -> decimal n = [chr "0" + n].
Proof.
  intros H. unfold decimal.
  rewrite (digits_fuel_enough _ (S (Z.to_nat (Z.log2 n + 1)))) by lia.
  simpl. destruct (Z.ltb_spec n 10); [done|lia].
Qed.

Lemma decimal_step n : 10 <= n -> decimal n = decimal (n / 10) ++ [chr "0" + n mod 10].
Proof.
  intros H. unfold decimal at 1.
  assert (Hq : 0 < n / 10) by (apply Z.div_str_pos; lia).
  assert (Z.log2 (n / 10) <= Z.log2 n) by (apply Z.log2_le_mono, Z.div_le_upper_bound; lia).
  rewrite (digits_fuel_enough _ (S (Z.to_nat (Z.log2 n + 1)))) by lia.
  simpl. destruct (Z.ltb_spec n 10); [lia|]. f_equal.
  apply digits_fuel_enough; lia.
Qed.

Lemma decimal_two n : 10 <= n < 100 -> decimal n = two_digits n.
Proof.
  intros H. rewrite decimal_step by lia. rewrite decimal_small; [done|].
  split; [apply Z.div_pos; lia|apply Z.div_lt_upper_bound; lia].
Qed.

(** Appending two digits appends two decimal places. *)
Lemma decimal_hundred q r :
  1 <= q -> 0 <= r < 100 -> decimal (q * 100 + r) = decimal q ++ two_digits r.
Proof.
  intros Hq Hr. unfold two_digits.
  rewrite decimal_step by lia.
  replace ((q * 100 + r) / 10) with (q * 10 + r / 10).
  2:{ replace (q * 100 + r) with (r + (q * 10) * 10) by lia. rewrite Z.div_add by lia. lia. }
  replace ((q * 100 + r) mod 10) with (r mod 10).
  2:{ replace (q * 100 + r) with (r + (q * 10) * 10) by lia. rewrite Z.mod_add by lia. done. }
  assert (0 <= r / 10 < 10).
  { split; [apply Z.div_pos; lia|apply Z.div_lt_upper_bound; lia]. }
  rewrite decimal_step by lia.
  replace ((q * 10 + r / 10) / 10) with q.
  2:{ rewrite Z.add_comm, Z.div_add by lia. rewrite Z.div_small by lia. lia. }
  replace ((q * 10 + r / 10) mod 10) with (r / 10).
  2:{ rewrite Z.add_comm, Z.mod_add by lia. rewrite Z.mod_small by lia. done. }
  rewrite <- app_assoc. done.
Qed.

Lemma decimal_padded j q r :
  1 <= q -> 0 <= r < 100 ^ Z.of_nat j ->
  decimal (q * 100 ^ Z.of_nat j + r) = decimal q ++ padded j r.
Proof.
  revert q r. induction j as [|j IH]; intros q r Hq Hr; cbn [padded].
  - rewrite app_nil_r. change (100 ^ Z.of_nat 0) with 1 in *. f_equal. lia.
  - assert (Hp : 0 < 100 ^ Z.of_nat j) by lia.
    rewrite Nat2Z.inj_succ, Z.pow_succ_r in * by lia.
    pose proof (Z.mod_pos_bound r (100 ^ Z.of_nat j) Hp).
    assert (0 <= r / 100 ^ Z.of_nat j < 100).
    { split; [apply Z.div_pos; lia|apply Z.div_lt_upper_bound; lia]. }
    rewrite app_assoc, <- decimal_hundred by lia.
    rewrite <- IH by lia. f_equal.
    rewrite (Z.div_mod r (100 ^ Z.of_nat j)) at 1 by lia. lia.
Qed.

End Decimal.

(** * The writer: base/base/itoa.cpp *)

Module Itoa.
Import Decimal.

(** The output buffer: the character at every address. *)
Definition mem := Z -> Z.

Definition poke (m : mem) (a v : Z) : mem := fun x => if x =? a then v else m x.

(** [*reinterpret_cast<pair *>(b) = dd] *)
Definition write_pair (m : mem) (b : Z) (dd : Z * Z) : mem := poke (poke m b dd.1) (b + 1) dd.2.

Definition outOneDigit (m : mem) (p value : Z) : mem * Z := (poke m p (chr "0" + value), p + 1).

(** [digits], the table of the two-character texts of 0 to 99. *)
Definition digits : bytes :=
  bytes_of "00010203040506070809101112131415161718192021222324252627282930313233343536373839404142434445464748495051525354555657585960616263646566676869707172737475767778798081828384858687888990919293949596979899".

Definition table (t : bytes) (i : Z) : Z := default 0 (t !! Z.to_nat i).

Definition outTwoDigits (m : mem) (p value : Z) : mem * Z :=
  (write_pair m p (table digits (value * 2), table digits (value * 2 + 1)), p + 2).

(** Constructors of [jeaiii::pair]. *)
Definition pair_of_char (c : Z) : Z * Z := (c, 0).
Definition pair_of_int (n : Z) : Z * Z :=
  (table (bytes_of "0123456789") (n / 10), table (bytes_of "0123456789") (n mod 10)).

(** [jeaiii::digits.dd] and [jeaiii::digits.fd] *)
Definition dd_table : list (Z * Z) := pair_of_int <$> seqZ 0 100.
Definition fd_table : list (Z * Z) :=
  (pair_of_char <$> bytes_of "0123456789") ++ (pair_of_int <$> seqZ 10 90).

Definition dd (i : Z) : Z * Z := default (0, 0) (dd_table !! Z.to_nat i).
Definition fd (i : Z) : Z * Z := default (0, 0) (fd_table !! Z.to_nat i).

Definition mask24 : Z := Z.shiftl 1 24 - 1.
Definition mask32 : Z := Z.shiftl 1 32 - 1.
Definition mask57 : Z := Z.shiftl 1 57 - 1.

(** Up to 4 digits; [mw] is the width of the product [UInt32(...) * n] and
    [back] the amount of [b -= ...]. *)
Definition block4 (mw : Z) (m : mem) (b n back : Z) : mem * Z :=
  let f0 := uwrap mw (167773 * n) in
  let m := write_pair m b (fd (Z.shiftr f0 24)) in
  let b := b - back in
  let f2 := uwrap 64 (Z.land f0 mask24 * 100) in
  let m := write_pair m (b + 2) (dd (Z.shiftr f2 24)) in
  (m, b + 4).

(** 5 or 6 digits. *)
Definition block6 (m : mem) (b n back : Z) : mem * Z :=
  let f0 := uwrap 64 (429497 * n) in
  let m := write_pair m b (fd (Z.shiftr f0 32)) in
  let b := b - back in
  let f2 := uwrap 64 (Z.land f0 mask32 * 100) in
  let m := write_pair m (b + 2) (dd (Z.shiftr f2 32)) in
  let f4 := uwrap 64 (Z.land f2 mask32 * 100) in
  let m := write_pair m (b + 4) (dd (Z.shiftr f4 32)) in
  (m, b + 6).

(** 7 or 8 digits. *)
Definition block8 (m : mem) (b n back : Z) : mem * Z :=
  let f0 := Z.shiftr (uwrap 64 (281474977 * n)) 16 in
  let m := write_pair m b (fd (Z.shiftr f0 32)) in
  let b := b - back in
  let f2 := uwrap 64 (Z.land f0 mask32 * 100) in
  let m := write_pair m (b + 2) (dd (Z.shiftr f2 32)) in
  let f4 := uwrap 64 (Z.land f2 mask32 * 100) in
  let m := write_pair m (b + 4) (dd (Z.shiftr f4 32)) in
  let f6 := uwrap 64 (Z.land f4 mask32 * 100) in
  let m := write_pair m (b + 6) (dd (Z.shiftr f6 32)) in
  (m, b + 8).

(** 9 or 10 digits. *)
Definition block10 (m : mem) (b n back : Z) : mem * Z :=
  let f0 := uwrap 64 (1441151881 * n) in
  let m := write_pair m b (fd (Z.shiftr f0 57)) in
  let b := b - back in
  let f2 := uwrap 64 (Z.land f0 mask57 * 100) in
  let m := write_pair m (b + 2) (dd (Z.shiftr f2 57)) in
  let f4 := uwrap 64 (Z.land f2 mask57 * 100) in
  let m := write_pair m (b + 4) (dd (Z.shiftr f4 57)) in
  let f6 := uwrap 64 (Z.land f4 mask57 * 100) in
  let m := write_pair m (b + 6) (dd (Z.shiftr f6 57)) in
  let f8 := uwrap 64 (Z.land f6 mask57 * 100) in
  let m := write_pair m (b + 8) (dd (Z.shiftr f8 57)) in
  (m, b + 10).

(** "do 8 digits": exactly 8 digits, with leading zeros. *)
Definition eight_digits (m : mem) (b z : Z) : mem * Z :=
  let f0 := uwrap 64 (Z.shiftr (uwrap 64 (281474977 * z)) 16 + 1) in
  let m := write_pair m b (dd (Z.shiftr f0 32)) in
  let f2 := uwrap 64 (Z.land f0 mask32 * 100) in
  let m := write_pair m (b + 2) (dd (Z.shiftr f2 32)) in
  let f4 := uwrap 64 (Z.land f2 mask32 * 100) in
  let m := write_pair m (b + 4) (dd (Z.shiftr f4 32)) in
  let f6 := uwrap 64 (Z.land f4 mask32 * 100) in
  let m := write_pair m (b + 6) (dd (Z.shiftr f6 32)) in
  (m, b + 8).

(** The part of [to_text_from_integer] after the sign: [q] is [sizeof(U)] in
    bits, [n] the magnitude. *)
Definition to_text_unsigned (q : Z) (m : mem) (b n : Z) : mem * Z :=
  if n <? 100 then
    if n <? 10 then outOneDigit m b n else outTwoDigits m b n
  else if n <? 1000000 then
    if (q =? 8) || (n <? 10000) then
      block4 (Z.max 32 q) m b n (if q =? 8 then 1 else Z.b2z (n <? 1000))
    else
      block6 m b n (if q =? 16 then 1 else Z.b2z (n <? 100000))
  else if (q =? 32) || (n <? Z.shiftl 1 32) then
    if n <? 100000000 then
      block8 m b n (Z.b2z (n <? 10000000))
    else
      block10 m b n (Z.b2z (n <? 1000000000))
  else
    let z := n mod 100000000 in
    let u := n / 100000000 in
    let '(m, b) :=
      if u <? 100 then
        (write_pair m b (dd u), b + 2)
      else if u <? 1000000 then
        if u <? 10000 then block4 64 m b u (Z.b2z (u <? 1000))
        else block6 m b u (Z.b2z (u <? 100000))
      else if u <? 100000000 then
        block8 m b u (Z.b2z (u <? 10000000))
      else if u <? Z.shiftl 1 32 then
        block10 m b u (Z.b2z (u <? 1000000000))
      else
        let y := u mod 100000000 in
        let u := u / 100000000 in
        let '(m, b) :=
          if u <? 100 then (write_pair m b (dd u), b + 2)
          else block4 64 m b u (Z.b2z (u <? 1000)) in
        eight_digits m b y in
    eight_digits m b z.

(** [jeaiii::to_text_from_integer], for the built-in types [T]. *)
Definition to_text_from_integer (T : IntType) (m : mem) (b i : Z) : mem * Z :=
  let U := width T in
  let '(m, b, n) :=
    if i <? 0 then (poke m b (chr "-"), b + 1, uwrap U (0 - uwrap U i))
    else (m, b, uwrap U i) in
  to_text_unsigned U m b n.

(** [two_values[pos] = remainder % 100] while the remainder is not zero; ten
    rounds are enough for a remainder below [100 ^ 9]. *)
Fixpoint split_blocks (fuel : nat) (two_values : list Z) (pos : nat) (u64_remainder : Z) : list Z :=
  match fuel with
  | O => two_values
  | S fuel =>
      if u64_remainder =? 0 then two_values
      else split_blocks fuel (<[pos := uwrap 8 (u64_remainder mod 100)]> two_values) (S pos)
             (u64_remainder / 100)
  end.

Definition max_multiple_of_hundred_that_fits_in_64_bits : Z := 1000000000000000000.
Definition max_multiple_of_hundred_blocks : nat := 9.

(** The loop [while (x > largest)] of the wide writers. *)
Fixpoint peel_blocks (fuel : nat) (largest x : Z) (two_values : list Z) (current_block : nat)
  : Z * list Z * nat :=
  match fuel with
  | O => (x, two_values, current_block)
  | S fuel =>
      if x <=? largest then (x, two_values, current_block)
      else
        let u64_remainder := uwrap 64 (x mod max_multiple_of_hundred_that_fits_in_64_bits) in
        let x := x / max_multiple_of_hundred_that_fits_in_64_bits in
        peel_blocks fuel largest x (split_blocks 10 two_values current_block u64_remainder)
          (current_block + max_multiple_of_hundred_blocks)
  end.

(** The final [for] loop: blocks [i - 1], ..., [0] of [two_values]. *)
Fixpoint out_blocks (i : nat) (two_values : list Z) (m : mem) (p : Z) : mem * Z :=
  match i with
  | O => (m, p)
  | S i =>
      let m := (outTwoDigits m p (default 0 (two_values !! i))).1 in
      out_blocks i two_values m (p + 2)
  end.

(** [writeUIntText(UInt128)] *)
Definition writeUIntText128 (m : mem) (p x : Z) : mem * Z :=
  if Z.shiftr x 64 =? 0 then to_text_from_integer UInt64 m p (uwrap 64 x)
  else
    let '(x, two_values, current_block) := peel_blocks 3 (2 ^ 64 - 1) x (replicate 20 0) 0 in
    let '(m, p) := to_text_from_integer UInt64 m p (uwrap 64 x) in
    out_blocks current_block two_values m p.

(** [writeUIntText(UInt256)] *)
Definition writeUIntText256 (m : mem) (p x : Z) : mem * Z :=
  if Z.shiftr x 128 =? 0 then writeUIntText128 m p (uwrap 128 x)
  else
    let '(x, two_values, current_pos) := peel_blocks 4 (2 ^ 128 - 1) x (replicate 39 0) 0 in
    let '(m, p) := writeUIntText128 m p (uwrap 128 x) in
    out_blocks current_pos two_values m p.

Definition writeLeadingMinus (m : mem) (pos : Z) : mem * Z := (poke m pos (chr "-"), pos + 1).

(** [memcpy] of a literal. *)
Fixpoint copy_text (m : mem) (pos : Z) (s : bytes) : mem :=
  match s with
  | [] => m
  | c :: s => copy_text (poke m pos c) (pos + 1) s
  end.

(** [writeSIntText<Int128>] and [writeSIntText<Int256>] *)
Definition writeSIntText128 (m : mem) (pos x : Z) : mem * Z :=
  if x =? - 2 ^ 127 then
    let res := bytes_of "-170141183460469231731687303715884105728" in
    (copy_text m pos res, pos + Z.of_nat (length res))
  else
    let '(x, m, pos) :=
      if x <? 0 then let '(m, pos) := writeLeadingMinus m pos in (swrap 128 (- x), m, pos)
      else (x, m, pos) in
    writeUIntText128 m pos (uwrap 128 x).

Definition writeSIntText256 (m : mem) (pos x : Z) : mem * Z :=
  if x =? - 2 ^ 255 then
    let res :=
      bytes_of "-57896044618658097711785492504343953926634992332820282019728792003956564819968" in
    (copy_text m pos res, pos + Z.of_nat (length res))
  else
    let '(x, m, pos) :=
      if x <? 0 then let '(m, pos) := writeLeadingMinus m pos in (swrap 256 (- x), m, pos)
      else (x, m, pos) in
    writeUIntText256 m pos (uwrap 256 x).

(** The overloads of [itoa]. *)
Definition itoa (T : IntType) (i : Z) (m : mem) (p : Z) : mem * Z :=
  if width T =? 128 then
    if is_signed T then writeSIntText128 m p i else writeUIntText128 m p i
  else if width T =? 256 then
    if is_signed T then writeSIntText256 m p i else writeUIntText256 m p i
  else to_text_from_integer T m p i.

(** The characters from address [p] to [e]. *)
Definition text (m : mem) (p e : Z) : bytes := m <$> seqZ p (e - p).

(** [writeIntText]: the characters the writer appends to the stream. *)
Definition writeIntText (T : IntType) (x : Z) : bytes :=
  let '(m, e) := itoa T x (fun _ => 0) 0 in text m 0 e.

(** ** What a writer leaves in the buffer *)

(** Starting at address [b] of [m], the writer left the text [s], returned
    the address after it, and touched nothing before [b]. *)
Record emits (r : mem * Z) (m : mem) (b : Z) (s : bytes) : Prop := {
  emits_end : r.2 = b + Z.of_nat (length s);
  emits_before : forall a, a < b -> r.1 a = m a;
  emits_text : forall i c, s !! i = Some c -> r.1 (b + Z.of_nat i) = c }.

Lemma emits_app m0 b0 m b r s s' :
  emits (m, b) m0 b0 s -> emits r m b s' -> emits r m0 b0 (s ++ s').
Proof.
  intros [He Hb Ht] [He' Hb' Ht']. simpl in *. split.
  - rewrite length_app. lia.
  - intros a Ha. rewrite Hb' by lia. auto.
  - intros i c [Hi|[Hle Hi]]%lookup_app_Some.
    + rewrite Hb' by (apply lookup_lt_Some in Hi; lia). auto.
    + specialize (Ht' _ _ Hi). subst b.
      replace (b0 + Z.of_nat i) with (b0 + Z.of_nat (length s) + Z.of_nat (i - length s)) by lia.
      done.
Qed.

Lemma emits_one m b c : emits (poke m b c, b + 1) m b [c].
Proof.
  split; simpl; [done| |].
  - intros a Ha. unfold poke. destruct (Z.eqb_spec a b); [lia|done].
  - intros i c' [-> ->]%list_lookup_singleton_Some. unfold poke.
    destruct (Z.eqb_spec (b + Z.of_nat 0) b); [done|lia].
Qed.

Lemma emits_pair m b c c' : emits (write_pair m b (c, c'), b + 2) m b [c; c'].
Proof.
  unfold write_pair. simpl.
  replace (b + 2) with (b + 1 + 1) by lia.
  apply (emits_app _ _ (poke m b c) (b + 1) _ [c]); apply emits_one.
Qed.

(** The second character of the pair may be overwritten. *)
Lemma emits_pair_first m b c c' : emits (write_pair m b (c, c'), b + 1) m b [c].
Proof.
  unfold write_pair. simpl. destruct (emits_one m b c) as [_ Hb Ht]. split; simpl in *; [done| |].
  - intros a Ha. unfold poke at 1. destruct (Z.eqb_spec a (b + 1)); [lia|]. auto.
  - intros i d Hi. pose proof Hi as [-> ->]%list_lookup_singleton_Some.
    unfold poke at 1. destruct (Z.eqb_spec (b + Z.of_nat 0) (b + 1)); [lia|]. by apply (Ht 0%nat).
Qed.

Lemma text_emits m p r s : emits r m p s -> text r.1 p r.2 = s.
Proof.
  intros [He _ Ht]. unfold text. rewrite He.
  replace (p + Z.of_nat (length s) - p) with (Z.of_nat (length s)) by lia.
  apply list_eq. intros i. rewrite list_lookup_fmap.
  destruct (s !! i) as [c|] eqn:Hi.
  - pose proof (lookup_lt_Some _ _ _ Hi).
    rewrite lookup_seqZ_lt by lia. simpl. f_equal. by apply Ht.
  - rewrite lookup_seqZ_ge; [done|]. apply lookup_ge_None in Hi. lia.
Qed.

(** ** Fixed-point digit extraction *)

(** [f] approximates [r / 100 ^ j] with [k] fractional bits, from above and
    closely enough for its digits to be those of [r]. *)
Definition frac (k : Z) (j : nat) (f r : Z) : Prop :=
  exists err, 0 <= err < 2 ^ k /\ f * 100 ^ Z.of_nat j = r * 2 ^ k + err /\ 0 <= r.

Lemma frac_intro k j f r :
  0 <= r -> 0 <= f * 100 ^ Z.of_nat j - r * 2 ^ k < 2 ^ k -> frac k j f r.
Proof. intros Hr Herr. exists (f * 100 ^ Z.of_nat j - r * 2 ^ k). lia. Qed.

Lemma frac_nonneg k j f r : 0 <= k -> frac k j f r -> 0 <= f.
Proof. intros Hk (err & Herr & He & Hr). assert (0 < 2 ^ k) by lia. nia. Qed.

Lemma frac_head k j f r : 0 <= k -> frac k j f r -> Z.shiftr f k = r / 100 ^ Z.of_nat j.
Proof.
  intros Hk Hf. pose proof (frac_nonneg _ _ _ _ Hk Hf).
  destruct Hf as (err & Herr & He & Hr).
  rewrite Z.shiftr_div_pow2 by done.
  set (P := 2 ^ k) in *. set (D := 100 ^ Z.of_nat j) in *.
  assert (0 < P) by (subst P; lia). assert (0 < D) by (subst D; lia).
  assert (HfP : f / P = (f * D) / (P * D)) by (rewrite Z.div_mul_cancel_r by lia; done).
  rewrite HfP, He, <- Z.div_div by lia. f_equal.
  rewrite Z.div_add_l, Z.div_small by lia. lia.
Qed.

Lemma frac_tail k j f r :
  0 <= k -> 2 ^ k * 100 <= 2 ^ 64 -> frac k (S j) f r ->
  frac k j (uwrap 64 (Z.land f (2 ^ k - 1) * 100)) (r mod 100 ^ Z.of_nat (S j)).
Proof.
  intros Hk H64 Hf. pose proof (frac_head _ _ _ _ Hk Hf) as Hq.
  pose proof (frac_nonneg _ _ _ _ Hk Hf). destruct Hf as (err & Herr & He & Hr).
  rewrite land_low_mask by done.
  rewrite Z.shiftr_div_pow2 in Hq by done.
  pose proof (Z.mod_pos_bound f (2 ^ k) ltac:(lia)).
  rewrite uwrap_small by (unfold in_unsigned; lia).
  exists err. split; [done|].
  rewrite Nat2Z.inj_succ, Z.pow_succ_r in * by lia.
  set (D := 100 ^ Z.of_nat j) in *. assert (0 < D) by (subst D; lia).
  split; [|apply Z.mod_pos_bound; lia].
  rewrite !Z.mod_eq, Hq by lia. nia.
Qed.

Lemma dd_digits i : 0 <= i < 100 -> let '(c, c') := dd i in [c; c'] = two_digits i.
Proof.
  intros Hi.
  by_range (fun i => [(dd i).1; (dd i).2] = two_digits i) 0 100 i. by destruct (dd i).
Qed.

(** Emission of the [j] pairs that follow [f]. *)
Fixpoint pairs (k : Z) (j : nat) (m : mem) (b f : Z) : mem * Z :=
  match j with
  | O => (m, b)
  | S j =>
      let f' := uwrap 64 (Z.land f (2 ^ k - 1) * 100) in
      pairs k j (write_pair m b (dd (Z.shiftr f' k))) (b + 2) f'
  end.

Lemma pairs_emits k j m b f r :
  0 <= k -> 2 ^ k * 100 <= 2 ^ 64 -> frac k j f r ->
  emits (pairs k j m b f) m b (padded j (r mod 100 ^ Z.of_nat j)).
Proof.
  intros Hk H64. revert m b f r. induction j as [|j IH]; intros m b f r Hf.
  - split; simpl; [lia|done|]. intros i c Hi. by rewrite lookup_nil in Hi.
  - pose proof (frac_tail _ _ _ _ Hk H64 Hf) as Hf'. cbn [pairs padded].
    set (f' := uwrap 64 _) in *. set (r' := r mod _) in *.
    pose proof (frac_head _ _ _ _ Hk Hf') as Hq.
    assert (Hb : 0 <= r' / 100 ^ Z.of_nat j < 100).
    { pose proof (Z.mod_pos_bound r (100 ^ Z.of_nat (S j)) ltac:(lia)).
      fold r' in H. rewrite Nat2Z.inj_succ, Z.pow_succ_r in H by lia.
      split; [apply Z.div_pos; lia|apply Z.div_lt_upper_bound; lia]. }
    eapply emits_app; [|by apply IH].
    rewrite Hq. pose proof (dd_digits _ Hb) as Hd. destruct (dd _) as [c c'].
    rewrite <- Hd. apply emits_pair.
Qed.

(** The leading pair: one or two digits. *)
Lemma lead_emits m b h :
  1 <= h < 100 ->
  emits (write_pair m b (fd h), b - Z.b2z (h <? 10) + 2) m b (decimal h).
Proof.
  intros Hh.
  destruct (Z.ltb_spec h 10); simpl Z.b2z.
  - by_range (fun i => (fd i).1 = chr "0" + i) 1 9 h. destruct (fd h) as [c c'].
    rewrite decimal_small by lia. simpl in Hrange. rewrite <- Hrange.
    replace (b - 1 + 2) with (b + 1) by lia. apply emits_pair_first.
  - by_range (fun i => [(fd i).1; (fd i).2] = two_digits i) 10 90 h. destruct (fd h) as [c c'].
    rewrite decimal_two by lia. simpl in Hrange. rewrite <- Hrange, Z.sub_0_r. apply emits_pair.
Qed.

(** A leading pair followed by [j] pairs writes all the digits of [n]. *)
Lemma lead_pairs_emits k j m b n f back :
  0 <= k -> 2 ^ k * 100 <= 2 ^ 64 -> frac k j f n ->
  100 ^ Z.of_nat j <= n < 100 ^ Z.of_nat (S j) ->
  back = Z.b2z (n <? 10 * 100 ^ Z.of_nat j) ->
  emits (pairs k j (write_pair m b (fd (Z.shiftr f k))) (b - back + 2) f) m b (decimal n).
Proof.
  intros Hk H64 Hf Hn ->. rewrite (frac_head _ _ _ _ Hk Hf).
  rewrite Nat2Z.inj_succ, Z.pow_succ_r in Hn by lia.
  set (D := 100 ^ Z.of_nat j) in *. assert (0 < D) by (subst D; lia).
  assert (Hh : 1 <= n / D < 100).
  { split; [apply Z.div_le_lower_bound; lia|apply Z.div_lt_upper_bound; lia]. }
  replace (n <? 10 * D) with (n / D <? 10).
  2:{ pose proof (Z.div_mod n D ltac:(lia)). pose proof (Z.mod_pos_bound n D ltac:(lia)).
      apply eq_bool_prop_intro. rewrite !Is_true_true, !Z.ltb_lt. nia. }
  replace (decimal n) with (decimal (n / D) ++ padded j (n mod D)).
  - eapply emits_app; [by apply lead_emits|by apply pairs_emits].
  - subst D. rewrite <- decimal_padded; [f_equal|lia|apply Z.mod_pos_bound; lia].
    rewrite (Z.div_mod n (100 ^ Z.of_nat j)) at 3 by lia. lia.
Qed.

Lemma block4_emits mw m b n :
  32 <= mw -> 100 <= n < 10000 -> emits (block4 mw m b n (Z.b2z (n <? 1000))) m b (decimal n).
Proof.
  intros Hmw Hn. unfold block4.
  assert (2 ^ 32 <= 2 ^ mw) by (apply Z.pow_le_mono_r; lia).
  rewrite (uwrap_small mw) by (unfold in_unsigned; lia).
  assert (Hf : frac 24 1 (167773 * n) n) by (exists (84 * n); lia).
  eapply (lead_pairs_emits 24 1 m b n _ _) in Hf; [|lia..|reflexivity].
  cbn [pairs] in Hf. by replace (b - _ + 4) with (b - Z.b2z (n <? 1000) + 2 + 2) by lia.
Qed.

Lemma block6_emits m b n :
  10000 <= n < 1000000 -> emits (block6 m b n (Z.b2z (n <? 100000))) m b (decimal n).
Proof.
  intros Hn. unfold block6. rewrite (uwrap_small 64 (429497 * n)) by (unfold in_unsigned; lia).
  assert (Hf : frac 32 2 (429497 * n) n) by (exists (2704 * n); lia).
  eapply (lead_pairs_emits 32 2 m b n _ _) in Hf; [|lia..|reflexivity].
  cbn [pairs] in Hf. rewrite <- !Z.add_assoc in Hf. exact Hf.
Qed.

Lemma block8_emits m b n :
  1000000 <= n < 100000000 -> emits (block8 m b n (Z.b2z (n <? 10000000))) m b (decimal n).
Proof.
  intros Hn. unfold block8.
  rewrite (uwrap_small 64 (281474977 * n)) by (unfold in_unsigned; lia).
  assert (Hf : frac 32 3 (Z.shiftr (281474977 * n) 16) n).
  { rewrite Z.shiftr_div_pow2 by lia. change (2 ^ 16) with 65536.
    apply frac_intro; [lia|].
    change (100 ^ Z.of_nat 3) with 1000000. change (2 ^ 32) with 4294967296.
    Z.to_euclidean_division_equations. lia. }
  eapply (lead_pairs_emits 32 3 m b n _ _) in Hf; [|lia..|reflexivity].
  cbn [pairs] in Hf. rewrite <- !Z.add_assoc in Hf. exact Hf.
Qed.

Lemma block10_emits m b n :
  100000000 <= n < 2 ^ 32 -> emits (block10 m b n (Z.b2z (n <? 1000000000))) m b (decimal n).
Proof.
  intros Hn. unfold block10.
  rewrite (uwrap_small 64 (1441151881 * n)) by (unfold in_unsigned; lia).
  assert (Hf : frac 57 4 (1441151881 * n) n) by (exists (24144128 * n); lia).
  eapply (lead_pairs_emits 57 4 m b n _ _) in Hf; [|lia..|reflexivity].
  cbn [pairs] in Hf. rewrite <- !Z.add_assoc in Hf. exact Hf.
Qed.

Lemma eight_digits_emits m b z :
  0 <= z < 100000000 -> emits (eight_digits m b z) m b (padded 4 z).
Proof.
  intros Hz. unfold eight_digits.
  rewrite (uwrap_small 64 (281474977 * z)) by (unfold in_unsigned; lia).
  assert (Hf : frac 32 3 (Z.shiftr (281474977 * z) 16 + 1) z).
  { rewrite Z.shiftr_div_pow2 by lia. change (2 ^ 16) with 65536.
    apply frac_intro; [lia|].
    change (100 ^ Z.of_nat 3) with 1000000. change (2 ^ 32) with 4294967296.
    Z.to_euclidean_division_equations. lia. }
  rewrite (uwrap_small 64 (Z.shiftr _ _ + 1)).
  2:{ rewrite Z.shiftr_div_pow2 by lia. change (2 ^ 16) with 65536. unfold in_unsigned.
      Z.to_euclidean_division_equations. lia. }
  set (f0 := Z.shiftr _ _ + 1) in *.
  rewrite (frac_head 32 3 f0 z ltac:(lia) Hf).
  assert (Hq : 0 <= z / 100 ^ Z.of_nat 3 < 100).
  { change (100 ^ Z.of_nat 3) with 1000000. Z.to_euclidean_division_equations. lia. }
  pose proof (dd_digits _ Hq) as Hd. destruct (dd (z / _)) as [c c'].
  change (padded 4 z) with (two_digits (z / 100 ^ Z.of_nat 3) ++ padded 3 (z mod 100 ^ Z.of_nat 3)).
  rewrite <- Hd. eapply emits_app; [apply emits_pair|].
  pose proof (pairs_emits 32 3 (write_pair m b (c, c')) (b + 2) f0 z ltac:(lia) ltac:(lia) Hf) as H.
  cbn [pairs] in H. rewrite <- !Z.add_assoc in H. exact H.
Qed.

Lemma outTwoDigits_emits m p v : 0 <= v < 100 -> emits (outTwoDigits m p v) m p (two_digits v).
Proof.
  intros Hv.
  by_range (fun v => [table digits (v * 2); table digits (v * 2 + 1)] = two_digits v) 0 100 v.
  rewrite <- Hrange.
  apply emits_pair.
Qed.

Lemma dd_emits m b u : 10 <= u < 100 -> emits (write_pair m b (dd u), b + 2) m b (decimal u).
Proof.
  intros Hu. rewrite decimal_two by lia.
  pose proof (dd_digits u ltac:(lia)) as Hd. destruct (dd u). rewrite <- Hd. apply emits_pair.
Qed.

(** Digits of the part above the last eight, then those eight. *)
Lemma eight_after m b n r :
  100000000 <= n ->
  emits r m b (decimal (n / 100000000)) ->
  emits (let '(m, b) := r in eight_digits m b (n mod 100000000)) m b (decimal n).
Proof.
  intros Hn Hr. destruct r as [m' b'].
  replace (decimal n) with (decimal (n / 100000000) ++ padded 4 (n mod 100000000)).
  - eapply emits_app; [exact Hr|]. apply eight_digits_emits, Z.mod_pos_bound. lia.
  - change 100000000 with (100 ^ Z.of_nat 4). rewrite <- decimal_padded.
    + f_equal. rewrite (Z.div_mod n (100 ^ Z.of_nat 4)) at 3 by lia. lia.
    + apply Z.div_le_lower_bound; lia.
    + apply Z.mod_pos_bound. lia.
Qed.

Lemma to_text_unsigned_emits q m b n :
  q = 8 \/ q = 16 \/ q = 32 \/ q = 64 -> 0 <= n < 2 ^ q ->
  emits (to_text_unsigned q m b n) m b (decimal n).
Proof.
  intros Hq Hn. unfold to_text_unsigned. change (Z.shiftl 1 32) with (2 ^ 32).
  destruct (Z.ltb_spec n 100).
  { destruct (Z.ltb_spec n 10).
    - rewrite decimal_small by lia. apply emits_one.
    - rewrite decimal_two by lia. apply outTwoDigits_emits. lia. }
  destruct (Z.ltb_spec n 1000000).
  { destruct ((q =? 8) || (n <? 10000)) eqn:E.
    - replace (if q =? 8 then 1 else Z.b2z (n <? 1000)) with (Z.b2z (n <? 1000)).
      + apply block4_emits; [lia|]. destruct Hq as [->|Hq]; lia.
      + destruct (Z.eqb_spec q 8); [|done]. subst q. by rewrite (proj2 (Z.ltb_lt n 1000)) by lia.
    - replace (if q =? 16 then 1 else Z.b2z (n <? 100000)) with (Z.b2z (n <? 100000)).
      + apply block6_emits. lia.
      + destruct (Z.eqb_spec q 16); [|done]. subst q. by rewrite (proj2 (Z.ltb_lt n 100000)) by lia. }
  destruct ((q =? 32) || (n <? 2 ^ 32)) eqn:E.
  { assert (n < 2 ^ 32) by (destruct (Z.eqb_spec q 32); [subst; lia|lia]).
    destruct (Z.ltb_spec n 100000000); [apply block8_emits|apply block10_emits]; lia. }
  assert (2 ^ 32 <= n < 2 ^ 64) by (destruct Hq as [-> | [-> | [-> | ->]]]; lia).
  apply eight_after; [lia|]. set (u := n / 100000000).
  assert (Hu : 42 <= u < 184467440738) by (subst u; Z.to_euclidean_division_equations; lia).
  clearbody u.
  destruct (Z.ltb_spec u 100); [apply dd_emits; lia|].
  destruct (Z.ltb_spec u 1000000).
  { destruct (Z.ltb_spec u 10000); [apply block4_emits|apply block6_emits]; lia. }
  destruct (Z.ltb_spec u 100000000); [apply block8_emits; lia|].
  destruct (Z.ltb_spec u (2 ^ 32)); [apply block10_emits; lia|].
  apply eight_after; [lia|]. set (v := u / 100000000).
  assert (42 <= v < 1845) by (subst v; Z.to_euclidean_division_equations; lia).
  destruct (Z.ltb_spec v 100); [apply dd_emits|apply block4_emits]; lia.
Qed.

Definition builtin (T : IntType) : Prop :=
  width T = 8 \/ width T = 16 \/ width T = 32 \/ width T = 64.

Lemma to_text_from_integer_emits T m b i :
  builtin T -> fits T i = true -> emits (to_text_from_integer T m b i) m b (decimal_signed i).
Proof.
  intros HT Hi%fits_spec. unfold to_text_from_integer, decimal_signed.
  assert (Hw : 0 < width T) by (unfold builtin in HT; lia).
  pose proof (pow2_double _ Hw). unfold int_min, int_max in Hi.
  destruct (Z.ltb_spec i 0).
  - replace (uwrap (width T) (0 - uwrap (width T) i)) with (- i).
    2:{ unfold uwrap. rewrite Zminus_mod_idemp_r. rewrite Z.mod_small; [lia|].
        destruct (is_signed T); lia. }
    eapply (emits_app _ _ _ _ _ [_]); [apply emits_one|].
    apply to_text_unsigned_emits; [done|]. destruct (is_signed T); lia.
  - rewrite uwrap_small by (unfold in_unsigned; destruct (is_signed T); lia).
    apply to_text_unsigned_emits; [done|]. destruct (is_signed T); lia.
Qed.

(** ** The 128 and 256 bit writers *)

(** Number held by an array of base-100 blocks, least significant first. *)
Fixpoint blocks_value (tv : list Z) : Z :=
  match tv with
  | [] => 0
  | t :: tv => t + 100 * blocks_value tv
  end.

Abbreviation small_blocks := (Forall (fun t => 0 <= t < 100)).

Lemma blocks_value_insert tv pos v :
  tv !! pos = Some 0 -> blocks_value (<[pos := v]> tv) = blocks_value tv + v * 100 ^ Z.of_nat pos.
Proof.
  revert pos. induction tv as [|t tv IH]; intros [|pos] H; simpl in *; simplify_eq; [lia|].
  rewrite IH by done. rewrite Nat2Z.inj_succ, Z.pow_succ_r by lia. lia.
Qed.

Lemma blocks_value_digit tv j t :
  small_blocks tv -> tv !! j = Some t -> (blocks_value tv / 100 ^ Z.of_nat j) mod 100 = t.
Proof.
  intros Hs. revert j. induction Hs as [|t' tv Ht Hs IH]; intros [|j] Hj; simpl in *; simplify_eq.
  - change (100 ^ Z.of_nat 0) with 1. rewrite Z.div_1_r, (Z.mul_comm 100), Z.mod_add by lia.
    apply Z.mod_small. lia.
  - rewrite Nat2Z.inj_succ, Z.pow_succ_r, <- Z.div_div by lia.
    rewrite (Z.mul_comm 100), Z.div_add, (Z.div_small t'), Z.add_0_l by lia. by apply IH.
Qed.

Lemma blocks_value_replicate n : blocks_value (replicate n 0) = 0.
Proof. induction n as [|n IH]; simpl; lia. Qed.

Definition zero_from (pos : nat) (tv : list Z) : Prop :=
  forall i t, tv !! i = Some t -> (pos <= i)%nat -> t = 0.

Lemma zero_from_at pos tv : zero_from pos tv -> (pos < length tv)%nat -> tv !! pos = Some 0.
Proof. intros Hz [t Ht]%lookup_lt_is_Some_2. rewrite Ht. f_equal. by apply (Hz pos). Qed.

Lemma split_blocks_spec d fuel tv pos r :
  (d < fuel)%nat -> 0 <= r < 100 ^ Z.of_nat d -> (pos + d <= length tv)%nat ->
  small_blocks tv -> zero_from pos tv ->
  let tv' := split_blocks fuel tv pos r in
  blocks_value tv' = blocks_value tv + r * 100 ^ Z.of_nat pos /\
  length tv' = length tv /\ small_blocks tv' /\ zero_from (pos + d) tv'.
Proof.
  revert fuel tv pos r. induction d as [|d IH]; intros [|fuel] tv pos r Hf Hr Hl Hs Hz;
    simpl; try lia.
  { change (100 ^ Z.of_nat 0) with 1 in Hr. replace r with 0 by lia. simpl.
    rewrite Nat.add_0_r. repeat split; try done. lia. }
  destruct (Z.eqb_spec r 0) as [->|Hr0].
  { repeat split; try done; [lia|]. intros i t Hi Hle. apply (Hz i); [done|lia]. }
  pose proof (Z.mod_pos_bound r 100 ltac:(lia)).
  rewrite (uwrap_small 8) by (unfold in_unsigned; lia).
  rewrite Nat2Z.inj_succ, Z.pow_succ_r in Hr by lia.
  edestruct (IH fuel (<[pos := r mod 100]> tv) (S pos) (r / 100)) as (Hv & Hlen & Hs' & Hz').
  - lia.
  - split; [apply Z.div_pos; lia|apply Z.div_lt_upper_bound; lia].
  - rewrite length_insert. lia.
  - by apply Forall_insert.
  - intros i t Hi Hle. rewrite list_lookup_insert_ne in Hi by lia. apply (Hz i); [done|lia].
  - rewrite Hv, Hlen, length_insert. split; [|split; [done|split; [done|]]].
    + rewrite blocks_value_insert by (apply zero_from_at; [done|lia]).
      rewrite Nat2Z.inj_succ, Z.pow_succ_r by lia.
      rewrite (Z.div_mod r 100) at 3 by lia. lia.
    + by replace (pos + S d)%nat with (S pos + d)%nat by lia.
Qed.

(** [rounds] divisions by [100 ^ 9] bring [x] below [largest]. *)
Lemma peel_blocks_spec rounds fuel largest x tv cur :
  (rounds < fuel)%nat -> 0 < x < (largest + 1) * (100 ^ 9) ^ Z.of_nat rounds ->
  100 ^ 9 <= largest -> (cur + 9 * rounds <= length tv)%nat ->
  small_blocks tv -> zero_from cur tv -> blocks_value tv < 100 ^ Z.of_nat cur ->
  let '(x', tv', cur') := peel_blocks fuel largest x tv cur in
  x' * 100 ^ Z.of_nat cur' + blocks_value tv' = x * 100 ^ Z.of_nat cur + blocks_value tv /\
  0 < x' <= largest /\ (cur' <= length tv')%nat /\ small_blocks tv' /\
  blocks_value tv' < 100 ^ Z.of_nat cur'.
Proof.
  revert fuel x tv cur. induction rounds as [|rounds IH]; intros [|fuel] x tv cur Hf Hx Hlarge Hl Hs Hz Hv;
    simpl peel_blocks; try lia.
  { destruct (Z.leb_spec x largest); [|lia]. repeat split; try done; lia. }
  destruct (Z.leb_spec x largest); [repeat split; try done; lia|].
  unfold max_multiple_of_hundred_that_fits_in_64_bits.
  change 1000000000000000000 with (100 ^ 9).
  pose proof (Z.mod_pos_bound x (100 ^ 9) ltac:(lia)) as Hm.
  rewrite (uwrap_small 64) by (unfold in_unsigned; lia).
  destruct (split_blocks_spec 9 10 tv cur (x mod 100 ^ 9)) as (Hv' & Hlen & Hs' & Hz');
    [lia|exact Hm|lia|done|done|].
  set (tv' := split_blocks _ _ _ _) in *.
  rewrite Nat2Z.inj_succ, Z.pow_succ_r in Hx by lia.
  specialize (IH fuel (x / 100 ^ 9) tv' (cur + max_multiple_of_hundred_blocks)%nat).
  unfold max_multiple_of_hundred_blocks in *.
  assert (Hpow : 100 ^ Z.of_nat (cur + 9) = 100 ^ Z.of_nat cur * 100 ^ 9).
  { rewrite Nat2Z.inj_add, Z.pow_add_r by lia. done. }
  destruct (peel_blocks fuel largest _ _ _) as [[x' tv''] cur'].
  destruct IH as (IHv & IH2).
  - lia.
  - split; [apply Z.div_str_pos; lia|apply Z.div_lt_upper_bound; lia].
  - done.
  - lia.
  - done.
  - done.
  - rewrite Hv', Hpow. nia.
  - split; [|done]. rewrite IHv, Hv', Hpow. rewrite (Z.div_mod x (100 ^ 9)) at 3 by lia. lia.
Qed.

Lemma out_blocks_emits i tv m p :
  (i <= length tv)%nat -> small_blocks tv ->
  emits (out_blocks i tv m p) m p (padded i (blocks_value tv mod 100 ^ Z.of_nat i)).
Proof.
  revert m p. induction i as [|i IH]; intros m p Hi Hs; cbn [out_blocks padded].
  - split; simpl; [lia|done|]. intros k c Hk. by rewrite lookup_nil in Hk.
  - destruct (lookup_lt_is_Some_2 tv i ltac:(lia)) as [t Ht]. rewrite Ht. simpl default.
    pose proof (Forall_lookup_1 _ _ _ _ Hs Ht) as Htr.
    rewrite Nat2Z.inj_succ, Z.pow_succ_r by lia. set (D := 100 ^ Z.of_nat i).
    assert (0 < D) by (subst D; lia).
    set (B := blocks_value tv).
    assert (HB : B mod (100 * D) = B mod D + (B / D) mod 100 * D).
    { rewrite (Z.mul_comm 100 D), Z.rem_mul_r by lia. lia. }
    rewrite HB, Z.div_add, Z.mod_add, Z.mod_mod by lia.
    rewrite (Z.div_small (B mod D)), Z.add_0_l by (apply Z.mod_pos_bound; lia).
    subst B D. rewrite (blocks_value_digit tv i t) by done.
    eapply emits_app; [apply outTwoDigits_emits, Htr|apply IH; [lia|done]].
Qed.

Lemma decimal_blocks x n tv :
  0 < x -> small_blocks tv -> blocks_value tv < 100 ^ Z.of_nat n ->
  decimal (x * 100 ^ Z.of_nat n + blocks_value tv) =
  decimal x ++ padded n (blocks_value tv mod 100 ^ Z.of_nat n).
Proof.
  intros Hx Hs Hv.
  assert (0 <= blocks_value tv) by (clear -Hs; induction Hs; simpl; lia).
  rewrite Z.mod_small by lia. apply decimal_padded; lia.
Qed.

Lemma to_text_u64_emits m p x :
  0 <= x < 2 ^ 64 -> emits (to_text_from_integer UInt64 m p (uwrap 64 x)) m p (decimal x).
Proof.
  intros Hx. rewrite uwrap_small by done.
  replace (decimal x) with (decimal_signed x).
  - apply to_text_from_integer_emits; [unfold builtin; simpl; lia|]. apply fits_spec. cbn. lia.
  - unfold decimal_signed. destruct (Z.ltb_spec x 0); [lia|done].
Qed.

(** The wide writers share their shape: a narrower writer for the leading
    part, then the peeled blocks. *)
Lemma wide_emits (write : mem -> Z -> Z -> mem * Z) rounds fuel largest len m p x :
  (forall m p x, 0 <= x <= largest -> emits (write m p x) m p (decimal x)) ->
  (rounds < fuel)%nat -> 0 < x < (largest + 1) * (100 ^ 9) ^ Z.of_nat rounds ->
  100 ^ 9 <= largest -> (9 * rounds <= len)%nat ->
  emits (let '(x, two_values, cur) := peel_blocks fuel largest x (replicate len 0) 0 in
         let '(m, p) := write m p x in out_blocks cur two_values m p) m p (decimal x).
Proof.
  intros Hw Hf Hx Hl Hlen.
  pose proof (peel_blocks_spec rounds fuel largest x (replicate len 0) 0) as Hp.
  destruct (peel_blocks _ _ _ _ _) as [[x' tv] cur].
  destruct Hp as (Hval & Hx' & Hcur & Hs & Hv); try done.
  - by rewrite length_replicate.
  - by apply Forall_replicate.
  - by intros i t [-> _]%lookup_replicate.
  - rewrite blocks_value_replicate. lia.
  - rewrite blocks_value_replicate in Hval. change (100 ^ Z.of_nat 0) with 1 in Hval.
    replace x with (x' * 100 ^ Z.of_nat cur + blocks_value tv) by lia.
    rewrite decimal_blocks by (done || lia).
    pose proof (Hw m p x' ltac:(lia)) as H1. destruct (write m p x') as [m1 p1].
    eapply emits_app; [exact H1|by apply out_blocks_emits].
Qed.

Lemma writeUIntText128_emits m p x :
  0 <= x < 2 ^ 128 -> emits (writeUIntText128 m p x) m p (decimal x).
Proof.
  intros Hx. unfold writeUIntText128. rewrite Z.shiftr_div_pow2 by lia.
  destruct (Z.eqb_spec (x / 2 ^ 64) 0) as [Hz|Hz].
  - apply to_text_u64_emits. apply Z.div_small_iff in Hz; lia.
  - assert (0 < x) by (destruct (decide (x = 0)); [by subst|lia]).
    apply (wide_emits (fun m p x => to_text_from_integer UInt64 m p (uwrap 64 x)) 2); [|lia..].
    intros. apply to_text_u64_emits. lia.
Qed.

Lemma writeUIntText256_emits m p x :
  0 <= x < 2 ^ 256 -> emits (writeUIntText256 m p x) m p (decimal x).
Proof.
  intros Hx. unfold writeUIntText256. rewrite Z.shiftr_div_pow2 by lia.
  destruct (Z.eqb_spec (x / 2 ^ 128) 0) as [Hz|Hz].
  - apply Z.div_small_iff in Hz; [|lia].
    rewrite uwrap_small by (unfold in_unsigned; lia). apply writeUIntText128_emits. lia.
  - assert (0 < x) by (destruct (decide (x = 0)); [by subst|lia]).
    apply (wide_emits (fun m p x => writeUIntText128 m p (uwrap 128 x)) 3); [|lia..].
    intros m' p' x' Hx'. rewrite uwrap_small by (unfold in_unsigned; lia).
    apply writeUIntText128_emits. lia.
Qed.

Lemma copy_text_emits m p s : emits (copy_text m p s, p + Z.of_nat (length s)) m p s.
Proof.
  revert m p. induction s as [|c s IH]; intros m p; simpl.
  - split; simpl; [lia|done|]. intros k d Hk. by rewrite lookup_nil in Hk.
  - replace (p + Z.of_nat (S (length s))) with (p + 1 + Z.of_nat (length s)) by lia.
    eapply (emits_app _ _ _ _ _ [c]); [apply emits_one|apply IH].
Qed.

Lemma writeSIntText128_emits m p x :
  fits Int128 x = true -> emits (writeSIntText128 m p x) m p (decimal_signed x).
Proof.
  rewrite fits_spec. change (int_min Int128) with (- 2 ^ 127).
  change (int_max Int128) with (2 ^ 127 - 1). intros Hx. unfold writeSIntText128, decimal_signed.
  destruct (Z.eqb_spec x (- 2 ^ 127)) as [-> | Hne]; [apply copy_text_emits|].
  destruct (Z.ltb_spec x 0); simpl.
  - rewrite swrap_small by (unfold in_signed; lia).
    rewrite uwrap_small by (unfold in_unsigned; lia).
    eapply (emits_app _ _ _ _ _ [_]); [apply emits_one|apply writeUIntText128_emits; lia].
  - rewrite uwrap_small by (unfold in_unsigned; lia). apply writeUIntText128_emits. lia.
Qed.

Lemma writeSIntText256_emits m p x :
  fits Int256 x = true -> emits (writeSIntText256 m p x) m p (decimal_signed x).
Proof.
  rewrite fits_spec. change (int_min Int256) with (- 2 ^ 255).
  change (int_max Int256) with (2 ^ 255 - 1). intros Hx. unfold writeSIntText256, decimal_signed.
  destruct (Z.eqb_spec x (- 2 ^ 255)) as [-> | Hne]; [apply copy_text_emits|].
  destruct (Z.ltb_spec x 0); simpl.
  - rewrite swrap_small by (unfold in_signed; lia).
    rewrite uwrap_small by (unfold in_unsigned; lia).
    eapply (emits_app _ _ _ _ _ [_]); [apply emits_one|apply writeUIntText256_emits; lia].
  - rewrite uwrap_small by (unfold in_unsigned; lia). apply writeUIntText256_emits. lia.
Qed.

(** The types [itoa] is overloaded for. *)
Definition itoa_type (T : IntType) : Prop :=
  T ∈ [UInt8; UInt16; UInt32; UInt64; UInt128; UInt256; Int8; Int16; Int32; Int64; Int128; Int256].

Lemma itoa_emits T i m p :
  itoa_type T -> fits T i = true -> emits (itoa T i m p) m p (decimal_signed i).
Proof.
  unfold itoa_type. rewrite !elem_of_cons, elem_of_nil.
  assert (Hpos : forall n, 0 <= n -> decimal_signed n = decimal n).
  { intros n Hn. unfold decimal_signed. destruct (Z.ltb_spec n 0); [lia|done]. }
  intros HT Hi. unfold itoa. destruct_or!; subst T; try done; simpl;
    first [apply to_text_from_integer_emits; [unfold builtin; simpl; lia|done]
          |by apply writeSIntText128_emits|by apply writeSIntText256_emits|idtac];
    apply fits_spec in Hi; cbn in Hi; rewrite Hpos by lia;
    [apply writeUIntText128_emits|apply writeUIntText256_emits]; lia.
Qed.

Lemma writeIntText_decimal T x :
  itoa_type T -> fits T x = true -> writeIntText T x = decimal_signed x.
Proof.
  intros HT Hx. unfold writeIntText.
  pose proof (text_emits _ _ _ _ (itoa_emits T x (fun _ => 0) 0 HT Hx)) as H.
  by destruct (itoa T x _ _).
Qed.

(** C30: [itoa] writes the decimal representation of its argument, for every
    integer type and every value: the buffer holds the canonical decimal text
    between the given pointer and the returned one, and no character before
    the given pointer changes. *)
Theorem itoa_writes_decimal (T : IntType) (i : Z) (m : mem) (p : Z) :
  itoa_type T -> fits T i = true ->
  let '(m', e) := itoa T i m p in
  text m' p e = decimal_signed i /\ forall a, a < p -> m' a = m a.
Proof.
  intros HT Hi. pose proof (itoa_emits T i m p HT Hi) as He.
  pose proof (text_emits _ _ _ _ He). destruct (itoa T i m p). split; [done|]. apply He.
Qed.

Lemma itoa_writes_decimal_witness :
  let '(m', e) := itoa Int64 (-9223372036854775808) (fun _ => 0) 5 in
  text m' 5 e = bytes_of "-9223372036854775808" /\ forall a, a < 5 -> m' a = 0.
Proof.
  pose proof (itoa_writes_decimal Int64 (-9223372036854775808) (fun _ => 0) 5) as H.
  apply H; [do 9 apply list_elem_of_further; apply list_elem_of_here|reflexivity].
Defined.

End Itoa.

(** * The reader: src/IO/ReadHelpers.h *)

Module ReadInt.
Import Decimal.

(** [std::numeric_limits<T>::max_digits10], which is zero for the integer types. *)
Definition max_digits10 (T : IntType) : Z := 0.

Definition is_big_int (T : IntType) : bool := 128 <=? width T.

(** [common::mulOverflow<T>] and the like: [None] when the exact result does
    not fit. *)
Definition checked (T : IntType) (z : Z) : option Z := if fits T z then Some z else None.

(** State of the loop of [readIntTextImpl]. *)
Record reading := {
  negative : bool;
  has_sign : bool;
  has_number : bool;
  res : Z }.

Definition with_digit (st : reading) (r : Z) : reading :=
  {| negative := negative st; has_sign := has_sign st; has_number := true; res := r |}.

(** One digit [d]; [pos] characters were read before it. [None]: overflow. *)
Definition push_digit (T : IntType) (check_overflow : bool) (pos : Z) (st : reading) (d : Z)
  : option reading :=
  let U := {| width := width T; is_signed := false |} in
  if check_overflow && negb (is_big_int T) && (max_digits10 T <=? pos + 1) then
    if negative st then
      let signed_res := cast T (cast U (- res st)) in
      signed_res ← checked T (signed_res * 10);
      signed_res ← checked T (signed_res - d);
      Some (with_digit st (cast U (- cast U signed_res)))
    else
      let signed_res := cast T (res st) in
      signed_res ← checked T (signed_res * 10);
      signed_res ← checked T (signed_res + d);
      Some (with_digit st (cast U signed_res))
  else Some (with_digit st (cast U (cast U (res st * 10) + d))).

(** The loop: the final state and the unread characters. *)
Fixpoint read_loop (T : IntType) (check_overflow : bool) (pos : Z) (st : reading) (buf : bytes)
  : option (reading * bytes) :=
  match buf with
  | [] => Some (st, [])
  | c :: rest =>
      if c =? chr "+" then
        if has_number st then Some (st, buf)
        else if has_sign st then None
        else read_loop T check_overflow (pos + 1)
               {| negative := negative st; has_sign := true; has_number := false; res := res st |} rest
      else if c =? chr "-" then
        if has_number st then Some (st, buf)
        else if has_sign st then None
        else if is_signed T then
          read_loop T check_overflow (pos + 1)
            {| negative := true; has_sign := true; has_number := false; res := res st |} rest
        else None
      else if is_digit c then
        st ← push_digit T check_overflow pos st (c - chr "0");
        read_loop T check_overflow (pos + 1) st rest
      else Some (st, buf)
  end.

(** [readIntTextImpl<T, bool, check_overflow>]: [None] when it returns false. *)
Definition readIntTextImpl (T : IntType) (check_overflow : bool) (buf : bytes) : option (Z * bytes) :=
  match buf with
  | [] => None
  | _ =>
      '(st, rest) ← read_loop T check_overflow 0
                       {| negative := false; has_sign := false; has_number := false; res := 0 |} buf;
      if has_sign st && negb (has_number st) then None
      else if is_signed T && negative st then
        if check_overflow then x ← checked T (res st * -1); Some (x, rest)
        else Some (cast T (- res st), rest)
      else Some (cast T (res st), rest)
  end.

(** [tryReadIntText], whose default is to check for overflow. *)
Definition tryReadIntText (T : IntType) (buf : bytes) : option (Z * bytes) :=
  readIntTextImpl T true buf.

(** ** Correctness *)

Abbreviation all_digits := (Forall (fun c => is_digit c = true)).

Definition stops (rest : bytes) : Prop :=
  match rest with [] => True | c :: _ => is_digit c = false end.

Lemma is_digit_range c : is_digit c = true -> 0 <= c - chr "0" <= 9 /\ c <> chr "+" /\ c <> chr "-".
Proof.
  unfold is_digit. rewrite andb_true_iff, !Z.leb_le.
  change (chr "0") with 48. change (chr "9") with 57. change (chr "+") with 43.
  change (chr "-") with 45. lia.
Qed.

Lemma value_from_ge acc ds : 0 <= acc -> all_digits ds -> acc <= value_from acc ds.
Proof.
  intros Ha Hds. revert acc Ha. induction Hds as [|d ds Hd Hds IH]; intros acc Ha; simpl; [lia|].
  apply is_digit_range in Hd. specialize (IH (acc * 10 + (d - chr "0"))). lia.
Qed.

Definition signed_value (neg : bool) (v : Z) : Z := if neg then - v else v.

Lemma int_bounds T : 0 < width T -> int_min T <= 0 <= int_max T /\ int_max T < 2 ^ width T /\
  - int_min T < 2 ^ width T /\ (is_signed T = false -> int_min T = 0).
Proof.
  intros Hw. unfold int_min, int_max. pose proof (pow2_double _ Hw).
  destruct (is_signed T); split_and!; try done; try lia.
  all: intros; assert (0 < 2 ^ (width T - 1)) by lia; lia.
Qed.

Lemma push_digit_ok T pos st d :
  0 < width T -> is_big_int T = false -> 0 <= pos -> 0 <= d <= 9 -> 0 <= res st ->
  (negative st = true -> is_signed T = true) ->
  fits T (signed_value (negative st) (res st)) = true ->
  push_digit T true pos st d =
    if fits T (signed_value (negative st) (res st * 10 + d))
    then Some (with_digit st (res st * 10 + d)) else None.
Proof.
  intros Hw Hbig Hpos Hd Hres Hneg Hfit. unfold push_digit, max_digits10.
  rewrite Hbig, (proj2 (Z.leb_le 0 (pos + 1))) by lia. simpl.
  pose proof (int_bounds T Hw) as (Hz & Hmax & Hmin & Huns).
  set (U := {| width := width T; is_signed := false |}).
  assert (HU : forall z, 0 <= z < 2 ^ width T -> cast U z = z).
  { intros z Hz'. by apply (uwrap_small (width T)). }
  destruct (negative st); unfold signed_value in *.
  - replace (cast T (cast U (- res st))) with (- res st).
    2:{ rewrite <- (cast_fits T (- res st)) at 1 by done. unfold cast. rewrite (Hneg eq_refl).
        by rewrite <- swrap_uwrap at 1. }
    apply fits_spec in Hfit. unfold checked.
    replace (- res st * 10 - d) with (- (res st * 10 + d)) by lia.
    destruct (fits T (- (res st * 10 + d))) eqn:E.
    + apply fits_spec in E. rewrite (proj2 (fits_spec T (- res st * 10))) by lia. simpl.
      replace (- res st * 10 - d) with (- (res st * 10 + d)) by lia.
      rewrite (proj2 (fits_spec T (- (res st * 10 + d)))) by lia. simpl. do 2 f_equal.
      unfold cast at 1. simpl. unfold cast, uwrap. simpl.
      rewrite <- (Z.sub_0_l (- (res st * 10 + d) mod _)), Zminus_mod_idemp_r.
      rewrite Z.mod_small; lia.
    + destruct (fits T (- res st * 10)); simpl; [|done].
      replace (- res st * 10 - d) with (- (res st * 10 + d)) by lia. by rewrite E.
  - rewrite (cast_fits T) by done. apply fits_spec in Hfit. unfold checked.
    destruct (fits T (res st * 10 + d)) eqn:E.
    + apply fits_spec in E. rewrite (proj2 (fits_spec T (res st * 10))) by lia. simpl.
      rewrite (proj2 (fits_spec T (res st * 10 + d))) by lia. simpl. do 2 f_equal. apply HU. lia.
    + destruct (fits T (res st * 10)); simpl; [|done]. by rewrite E.
Qed.

Lemma read_loop_stops T check pos st rest :
  has_number st = true -> stops rest -> read_loop T check pos st rest = Some (st, rest).
Proof.
  intros Hn Hr. destruct rest as [|c rest]; simpl in *; [done|]. rewrite Hn, Hr.
  by destruct (c =? chr "+"), (c =? chr "-").
Qed.

Lemma read_loop_digit T check pos st d rest :
  is_digit d = true ->
  read_loop T check pos st (d :: rest) =
    st ← push_digit T check pos st (d - chr "0"); read_loop T check (pos + 1) st rest.
Proof.
  intros Hd. pose proof (is_digit_range d Hd) as (_ & Hp & Hm). simpl.
  by rewrite (proj2 (Z.eqb_neq _ _) Hp), (proj2 (Z.eqb_neq _ _) Hm), Hd.
Qed.

Lemma fits_smaller T neg v v' :
  0 < width T -> 0 <= v <= v' -> fits T (signed_value neg v') = true ->
  fits T (signed_value neg v) = true.
Proof.
  rewrite !fits_spec. intros Hw Hv. pose proof (int_bounds T Hw).
  destruct neg; unfold signed_value; lia.
Qed.

Lemma read_loop_digits T pos st ds rest :
  0 < width T -> is_big_int T = false -> 0 <= pos -> 0 <= res st ->
  (negative st = true -> is_signed T = true) ->
  fits T (signed_value (negative st) (res st)) = true ->
  all_digits ds -> ds <> [] -> stops rest ->
  read_loop T true pos st (ds ++ rest) =
    if fits T (signed_value (negative st) (value_from (res st) ds))
    then Some (with_digit st (value_from (res st) ds), rest) else None.
Proof.
  intros Hw Hbig Hpos Hres Hneg Hfit Hds Hne Hrest. revert st pos Hpos Hres Hneg Hfit.
  induction Hds as [|d ds Hd Hds IH]; [done|]. intros st pos Hpos Hres Hneg Hfit.
  rewrite <- app_comm_cons, read_loop_digit by done. simpl value_from.
  pose proof (is_digit_range d Hd) as (Hr & _). set (v := d - chr "0") in *.
  rewrite push_digit_ok by done.
  destruct (fits T (signed_value (negative st) (res st * 10 + v))) eqn:E; simpl.
  - destruct (decide (ds = [])) as [-> | Hds'].
    + simpl. rewrite E. by apply read_loop_stops.
    + rewrite IH by (done || lia || (simpl; lia) || done). done.
  - destruct (fits T (signed_value _ (value_from _ ds))) eqn:E'; [|done].
    rewrite (fits_smaller T (negative st) (res st * 10 + v) (value_from (res st * 10 + v) ds)) in E;
      try done. pose proof (value_from_ge (res st * 10 + v) ds ltac:(lia) Hds). lia.
Qed.

(** The sign a text may start with. *)
Inductive sign := NoSign | Plus | Minus.

Definition sign_text (s : sign) : bytes :=
  match s with NoSign => [] | Plus => [chr "+"] | Minus => [chr "-"] end.

Definition is_minus (s : sign) : bool := match s with Minus => true | _ => false end.

Lemma readIntTextImpl_spec T s ds rest :
  0 < width T -> is_big_int T = false -> (s = Minus -> is_signed T = true) ->
  all_digits ds -> ds <> [] -> stops rest ->
  tryReadIntText T (sign_text s ++ ds ++ rest) =
    if fits T (signed_value (is_minus s) (value_from 0 ds))
    then Some (signed_value (is_minus s) (value_from 0 ds), rest) else None.
Proof.
  intros Hw Hbig Hs Hds Hne Hrest.
  assert (H0 : fits T 0 = true) by (apply fits_spec; pose proof (int_bounds T Hw); lia).
  unfold tryReadIntText, readIntTextImpl.
  assert (Hmin : is_minus s = true -> is_signed T = true) by (destruct s; simpl; [done|done|auto]).
  assert (Hloop : read_loop T true 0 {| negative := false; has_sign := false; has_number := false; res := 0 |}
            (sign_text s ++ ds ++ rest) =
          if fits T (signed_value (is_minus s) (value_from 0 ds))
          then Some ({| negative := is_minus s; has_sign := match s with NoSign => false | _ => true end;
                        has_number := true; res := value_from 0 ds |}, rest) else None).
  { destruct s; simpl; [|..|rewrite (Hs eq_refl)];
      rewrite read_loop_digits by (done || lia); by simpl. }
  destruct (sign_text s ++ ds ++ rest) as [|c0 l] eqn:El.
  { destruct ds; [done|]. destruct s; simplify_eq. }
  rewrite Hloop. destruct (fits T (signed_value (is_minus s) (value_from 0 ds))) eqn:E; [|done].
  simpl. rewrite andb_false_r.
  destruct (is_minus s) eqn:Em.
  - rewrite (Hmin eq_refl). unfold checked, signed_value in *. simpl.
    replace (value_from 0 ds * -1) with (- value_from 0 ds) by lia. by rewrite E.
  - rewrite andb_false_r. unfold signed_value in *. by rewrite cast_fits.
Qed.

(** Decimal texts are digit strings with the expected value. *)
Lemma value_from_app acc ds ds' : value_from acc (ds ++ ds') = value_from (value_from acc ds) ds'.
Proof. revert acc. induction ds as [|d ds IH]; intros acc; simpl; [done|]. apply IH. Qed.

Lemma decimal_spec n : 0 <= n -> all_digits (decimal n) /\ decimal n <> [] /\ value_from 0 (decimal n) = n.
Proof.
  induction (Z.lt_wf 0 n) as [n _ IH]. intros Hn.
  destruct (decide (n < 10)).
  - rewrite decimal_small by lia. split_and!; [|done|simpl; lia].
    constructor; [|constructor]. unfold is_digit. rewrite andb_true_iff, !Z.leb_le.
    change (chr "0") with 48. change (chr "9") with 57. lia.
  - rewrite decimal_step by lia.
    pose proof (Z.mod_pos_bound n 10 ltac:(lia)).
    destruct (IH (n / 10)) as (Hd & Hne & Hv);
      [split; [apply Z.div_pos; lia|apply Z.div_lt; lia]|apply Z.div_pos; lia|].
    split_and!.
    + apply Forall_app. split; [done|]. constructor; [|constructor].
      unfold is_digit. rewrite andb_true_iff, !Z.leb_le.
      change (chr "0") with 48. change (chr "9") with 57. lia.
    + by destruct (decimal (n / 10)).
    + rewrite value_from_app, Hv. simpl. rewrite (Z.div_mod n 10) at 3 by lia. lia.
Qed.

Definition reading_type (T : IntType) : Prop :=
  T ∈ [UInt8; UInt16; UInt32; UInt64; Int8; Int16; Int32; Int64].

Lemma reading_type_width T : reading_type T -> 0 < width T /\ is_big_int T = false /\ Itoa.itoa_type T.
Proof.
  unfold reading_type, Itoa.itoa_type. rewrite !elem_of_cons, elem_of_nil.
  intros HT. destruct_or!; subst T; try done; split_and!; try done; tauto.
Qed.

Lemma read_write_int T x rest :
  reading_type T -> fits T x = true -> stops rest ->
  tryReadIntText T (Itoa.writeIntText T x ++ rest) = Some (x, rest).
Proof.
  intros (Hw & Hbig & Hi)%reading_type_width Hx Hrest.
  rewrite Itoa.writeIntText_decimal by done. unfold decimal_signed.
  pose proof (int_bounds T Hw) as (_ & _ & _ & Huns). pose proof Hx as Hx'%fits_spec.
  destruct (Z.ltb_spec x 0).
  - destruct (decimal_spec (- x)) as (Hd & Hne & Hv); [lia|].
    change (chr "-" :: decimal (- x)) with (sign_text Minus ++ decimal (- x)).
    rewrite <- app_assoc, readIntTextImpl_spec; [|try done..].
    + rewrite Hv. simpl. rewrite Z.opp_involutive, Hx. done.
    + intros _. destruct (is_signed T); [done|]. specialize (Huns eq_refl). lia.
  - destruct (decimal_spec x) as (Hd & Hne & Hv); [lia|].
    change (decimal x) with (sign_text NoSign ++ decimal x).
    rewrite <- app_assoc, readIntTextImpl_spec by done. rewrite Hv. simpl. by rewrite Hx.
Qed.

(** A minus sign is not accepted for an unsigned type. *)
Lemma unsigned_minus T ds rest : is_signed T = false -> tryReadIntText T (sign_text Minus ++ ds ++ rest) = None.
Proof. intros Hs. unfold tryReadIntText, readIntTextImpl. simpl. by rewrite Hs. Qed.

(** C31: for the eight built-in types, of 8 to 64 bits, reading digits after an optional
    sign with overflow checks is exact: the reader returns the mathematical value of the
    text when it fits the type, and rejects the text otherwise, also a minus sign for an
    unsigned type; so no value of these types ever wraps around. The reader does not
    check the types of 128 and 256 bits. *)
Theorem readIntText_exact (T : IntType) (s : sign) (ds rest : bytes) :
  reading_type T -> all_digits ds -> ds <> [] -> stops rest ->
  tryReadIntText T (sign_text s ++ ds ++ rest) =
    if (is_signed T || negb (is_minus s)) && fits T (signed_value (is_minus s) (value_from 0 ds))
    then Some (signed_value (is_minus s) (value_from 0 ds), rest) else None.
Proof.
  intros (Hw & Hbig & _)%reading_type_width Hds Hne Hr. destruct (is_signed T) eqn:Es.
  - by apply readIntTextImpl_spec.
  - destruct s; [by apply readIntTextImpl_spec..|]. by apply unsigned_minus.
Qed.

Lemma readIntText_exact_witness :
  tryReadIntText Int8 (bytes_of "-128_x") = Some (-128, bytes_of "_x") /\
  tryReadIntText Int8 (bytes_of "-129_x") = None /\
  tryReadIntText UInt8 (bytes_of "-0_x") = None.
Proof.
  split_and!.
  - apply (readIntText_exact Int8 Minus (bytes_of "128") (bytes_of "_x"));
      [do 4 apply list_elem_of_further; apply list_elem_of_here|repeat constructor|done|done].
  - apply (readIntText_exact Int8 Minus (bytes_of "129") (bytes_of "_x"));
      [do 4 apply list_elem_of_further; apply list_elem_of_here|repeat constructor|done|done].
  - apply (readIntText_exact UInt8 Minus (bytes_of "0") (bytes_of "_x"));
      [apply list_elem_of_here|repeat constructor|done|done].
Defined.

(** A number of 128 bits wraps around. *)
Example big_integer_wraps :
  tryReadIntText {| width := 128; is_signed := false |} (bytes_of "340282366920938463463374607431768211457") = Some (1, []).
Proof. vm_compute. reflexivity. Qed.

(** The reader inverts the writer: reading what [writeIntText] wrote gives
    the number back and leaves the rest of the input, for every built-in type. *)
Theorem readIntText_writeIntText (T : IntType) (x : Z) (rest : bytes) :
  reading_type T -> fits T x = true -> stops rest ->
  tryReadIntText T (Itoa.writeIntText T x ++ rest) = Some (x, rest).
Proof. apply read_write_int. Qed.

Lemma readIntText_writeIntText_witness :
  tryReadIntText UInt32 (Itoa.writeIntText UInt32 4294967295 ++ bytes_of "_7") =
    Some (4294967295, bytes_of "_7").
Proof.
  apply (readIntText_writeIntText UInt32 4294967295 (bytes_of "_7"));
    [do 2 apply list_elem_of_further; apply list_elem_of_here|reflexivity|reflexivity].
Defined.

End ReadInt.
