(* ===== verification/BinaryIO.v ===== *)
(** Binary input and output: variable-length integers (src/IO/VarInt.h), plain
    values and strings in native little-endian format, and boolean texts
    (src/IO/ReadHelpers.h, src/IO/WriteHelpers.h, src/IO/ReadHelpers.cpp).  A
    read buffer is the list of its unread bytes. *)
From S2P Require Import Prelude.

Module VarInt.

(** [writeVarUInt]: seven bits per byte, least significant first.  Ten rounds
    are enough for 64 bits. *)
Fixpoint write_loop (fuel : nat) (x : Z) : bytes :=
  match fuel with
  | O => []
  | S fuel =>
      if 0x7F <? x then
        uwrap 8 (Z.lor 0x80 (Z.land x 0x7F)) :: write_loop fuel (Z.shiftr x 7)
      else [uwrap 8 x]
  end.

Definition writeVarUInt (x : Z) : bytes := write_loop 10 x.

(** [static_cast<UInt64>((x << 1) ^ (x >> 63))] *)
Definition zigzag (x : Z) : Z := uwrap 64 (Z.lxor (swrap 64 (Z.shiftl x 1)) (Z.shiftr x 63)).

Definition writeVarInt (x : Z) : bytes := writeVarUInt (zigzag x).

(** The loop of [varint_impl::readVarUInt]; [n] rounds are left, the next byte
    is number [i].  Without [check_eof] the source reads past the end of the
    buffer, which is undefined: the model then has no result. *)
Fixpoint varint_loop (check_eof : bool) (n : nat) (i : Z) (x : Z) (istr : bytes)
  : option (result (Z * bytes)) :=
  match n with
  | O => Some (Ok (x, istr))
  | S n =>
      match istr with
      | [] => if check_eof then Some (Throw ATTEMPT_TO_READ_AFTER_EOF) else None
      | byte :: istr =>
          let x := Z.lor x (uwrap 64 (Z.shiftl (Z.land byte 0x7F) (7 * i))) in
          if Z.land byte 0x80 =? 0 then Some (Ok (x, istr))
          else varint_loop check_eof n (i + 1) x istr
      end
  end.

(** [readVarUInt(UInt64 &, ReadBuffer &)]; [avail] bytes are in the current
    buffer. *)
Definition readVarUInt_buffer (avail : Z) (istr : bytes) : option (result (Z * bytes)) :=
  if 10 <=? avail then varint_loop false 10 0 0 istr else varint_loop true 10 0 0 istr.

(** [readVarUInt(UInt64 &, const char *, size_t)] *)
Fixpoint readVarUInt_loop (n : nat) (i : Z) (x : Z) (istr : bytes) : result (Z * bytes) :=
  match n with
  | O => Ok (x, istr)
  | S n =>
      match istr with
      | [] => Throw ATTEMPT_TO_READ_AFTER_EOF
      | byte :: istr =>
          let x := Z.lor x (uwrap 64 (Z.shiftl (Z.land byte 0x7F) (7 * i))) in
          if Z.land byte 0x80 =? 0 then Ok (x, istr) else readVarUInt_loop n (i + 1) x istr
      end
  end.

Definition readVarUInt (istr : bytes) : result (Z * bytes) := readVarUInt_loop 10 0 0 istr.

(** [(static_cast<UInt64>(x) >> 1) ^ -(x & 1)] *)
Definition unzigzag (x : Z) : Z :=
  swrap 64 (Z.lxor (Z.shiftr (uwrap 64 x) 1) (uwrap 64 (- Z.land x 1))).

Definition readVarInt (istr : bytes) : result (Z * bytes) :=
  let! (x, istr) := readVarUInt istr in Ok (unzigzag (swrap 64 x), istr).

(** The narrowing overloads. *)
Definition readVarUInt_as (T : IntType) (istr : bytes) : result (Z * bytes) :=
  let! (tmp, istr) := readVarUInt istr in Ok (cast T tmp, istr).

Definition readVarInt_as (T : IntType) (istr : bytes) : result (Z * bytes) :=
  let! (tmp, istr) := readVarInt istr in Ok (cast T tmp, istr).

Definition getLengthOfVarUInt (x : Z) : Z :=
  if x <? Z.shiftl 1 7 then 1
  else if x <? Z.shiftl 1 14 then 2
  else if x <? Z.shiftl 1 21 then 3
  else if x <? Z.shiftl 1 28 then 4
  else if x <? Z.shiftl 1 35 then 5
  else if x <? Z.shiftl 1 42 then 6
  else if x <? Z.shiftl 1 49 then 7
  else if x <? Z.shiftl 1 56 then 8
  else if x <? Z.shiftl 1 63 then 9
  else 10.

Definition getLengthOfVarInt (x : Z) : Z := getLengthOfVarUInt (zigzag x).

(** ** Lemmas *)

Lemma land_7F x : 0 <= x -> Z.land x 0x7F = x mod 128.
Proof. intros. change 0x7F with (2 ^ 7 - 1). by rewrite land_low_mask. Qed.

(** A continuation byte carries the low seven bits and the high bit. *)
Lemma continuation_byte x : 0 <= x -> uwrap 8 (Z.lor 0x80 (Z.land x 0x7F)) = 128 + x mod 128.
Proof.
  intros Hx. rewrite land_7F by done. pose proof (Z.mod_pos_bound x 128 ltac:(lia)).
  rewrite Z.lor_comm. change (Z.lor (x mod 128) 0x80) with (Z.lor (x mod 128) (Z.shiftl 1 7)).
  rewrite lor_shiftl_add by lia. rewrite uwrap_small; unfold in_unsigned; lia.
Qed.

Lemma byte_parts b : 0 <= b < 256 -> Z.land b 0x7F = b mod 128 /\ (Z.land b 0x80 =? 0) = (b <? 128).
Proof.
  intros Hb.
  by_range (fun b => Z.land b 0x7F = b mod 128 /\ (Z.land b 0x80 =? 0) = (b <? 128)) 0 256 b. done.
Qed.

Lemma read_write_loop fuel n i acc x rest :
  (fuel <= n)%nat -> 0 <= i -> 0 <= acc < 2 ^ (7 * i) ->
  0 <= x < 2 ^ (7 * Z.of_nat fuel) -> (0 < fuel)%nat -> x * 2 ^ (7 * i) < 2 ^ 64 ->
  readVarUInt_loop n i acc (write_loop fuel x ++ rest) = Ok (acc + x * 2 ^ (7 * i), rest).
Proof.
  revert n i acc x. induction fuel as [|fuel IH]; intros n i acc x Hn Hi Hacc Hx Hf H64; [lia|].
  destruct n as [|n]; [lia|]. simpl write_loop.
  pose proof (Z.mod_pos_bound x 128 ltac:(lia)) as Hm.
  pose proof (Z.div_mod x 128 ltac:(lia)) as Hdm.
  assert (H7 : 0 < 2 ^ (7 * i)) by lia.
  destruct (Z.ltb_spec 127 x).
  - rewrite continuation_byte by lia. simpl.
    destruct (byte_parts (128 + x mod 128)) as [-> ->]; [lia|].
    replace ((128 + x mod 128) mod 128) with (x mod 128).
    2:{ rewrite <- Z.add_mod_idemp_l by lia. change (128 mod 128) with 0. rewrite Z.add_0_l.
        by rewrite Z.mod_mod by lia. }
    destruct (Z.ltb_spec (128 + x mod 128) 128); [lia|].
    rewrite uwrap_small.
    2:{ unfold in_unsigned. rewrite Z.shiftl_mul_pow2 by lia. nia. }
    rewrite lor_shiftl_add by lia. rewrite Z.shiftr_div_pow2 by lia. change (2 ^ 7) with 128.
    assert (Hp : 2 ^ (7 * (i + 1)) = 2 ^ (7 * i) * 128).
    { rewrite Z.mul_add_distr_l, Z.pow_add_r by lia. done. }
    assert (Hp' : 2 ^ (7 * Z.of_nat (S fuel)) = 2 ^ (7 * Z.of_nat fuel) * 128).
    { rewrite Nat2Z.inj_succ, <- Z.add_1_r, Z.mul_add_distr_l, Z.pow_add_r by lia. done. }
    assert (Hq : 1 <= x / 128 < 2 ^ (7 * Z.of_nat fuel)).
    { split; [apply Z.div_le_lower_bound; lia|apply Z.div_lt_upper_bound; lia]. }
    rewrite IH; [|lia|lia|nia|lia| |nia].
    + do 2 f_equal. rewrite Hp. nia.
    + destruct fuel; [change (2 ^ (7 * Z.of_nat 0)) with 1 in Hq; lia|lia].
  - rewrite uwrap_small by (unfold in_unsigned; lia). simpl.
    destruct (byte_parts x) as [-> ->]; [lia|]. rewrite Z.mod_small by lia.
    destruct (Z.ltb_spec x 128); [|lia].
    rewrite uwrap_small by (unfold in_unsigned; rewrite Z.shiftl_mul_pow2; lia).
    rewrite lor_shiftl_add by lia. done.
Qed.

Lemma read_write_VarUInt x rest :
  0 <= x < 2 ^ 64 -> readVarUInt (writeVarUInt x ++ rest) = Ok (x, rest).
Proof.
  intros Hx. unfold readVarUInt, writeVarUInt.
  rewrite read_write_loop; try lia. do 2 f_equal. lia.
Qed.

Lemma uwrap_lxor_m1 w a : uwrap w (Z.lxor a (-1)) = uwrap w (- a - 1).
Proof. rewrite Z.lxor_m1_r. unfold Z.lnot. f_equal; lia. Qed.

Lemma zigzag_value x : in_signed 64 x -> zigzag x = if x <? 0 then -2 * x - 1 else 2 * x.
Proof.
  unfold in_signed. intros Hx. unfold zigzag. rewrite Z.shiftl_mul_pow2, Z.shiftr_div_pow2 by lia.
  destruct (Z.ltb_spec x 0).
  - replace (x / 2 ^ 63) with (-1) by (apply (Z.div_unique_pos _ _ _ (x + 2 ^ 63)); lia).
    rewrite uwrap_lxor_m1. destruct (swrap_multiple 64 (x * 2 ^ 1)) as [k ->]; [lia|].
    replace (- (x * 2 ^ 1 + k * 2 ^ 64) - 1) with (-2 * x - 1 + (- k) * 2 ^ 64) by lia.
    rewrite uwrap_add_multiple, uwrap_small by (unfold in_unsigned; lia). done.
  - rewrite (Z.div_small x), Z.lxor_0_r, uwrap_swrap by lia. rewrite uwrap_small; unfold in_unsigned; lia.
Qed.

Lemma unzigzag_zigzag x : in_signed 64 x -> unzigzag (swrap 64 (zigzag x)) = x.
Proof.
  intros Hx. pose proof Hx as Hx'. unfold in_signed in Hx'.
  assert (Hz : in_unsigned 64 (zigzag x)) by (apply uwrap_range; lia).
  unfold unzigzag. rewrite uwrap_swrap, uwrap_small by (done || lia).
  replace (Z.land (swrap 64 (zigzag x)) 1) with (Z.land (zigzag x) 1).
  2:{ change 1 with (2 ^ 1 - 1). rewrite !land_low_mask by lia.
      rewrite <- (Z.mod_mod_divide (zigzag x) (2 ^ 64) (2 ^ 1)) by (exists (2 ^ 63); lia).
      rewrite <- (Z.mod_mod_divide (swrap 64 (zigzag x)) (2 ^ 64) (2 ^ 1)) by (exists (2 ^ 63); lia).
      by rewrite swrap_mod by lia. }
  rewrite (Z.land_ones _ 1) by lia. rewrite zigzag_value by done.
  rewrite Z.shiftr_div_pow2 by lia. change (2 ^ 1) with 2.
  destruct (Z.ltb_spec x 0).
  - replace (-2 * x - 1) with (1 + (- x - 1) * 2) by lia.
    rewrite Z.mod_add, Z.div_add by lia. change (1 mod 2) with 1. change (1 / 2) with 0.
    change (uwrap 64 (- (1))) with (2 ^ 64 - 1). rewrite lxor_low_mask by lia.
    rewrite <- swrap_uwrap by lia. replace (2 ^ 64 - 1 - (0 + (- x - 1))) with (x + 1 * 2 ^ 64) by lia.
    unfold uwrap. rewrite Z.mod_add by lia. fold (uwrap 64 x).
    rewrite swrap_uwrap, swrap_small by (done || lia). done.
  - rewrite Z.mul_comm, Z.mod_mul, Z.div_mul by lia. change (uwrap 64 (- 0)) with 0.
    rewrite Z.lxor_0_r, swrap_small by (done || lia). done.
Qed.

Lemma write_loop_length fuel x :
  0 <= x < 2 ^ (7 * Z.of_nat fuel) -> (0 < fuel)%nat ->
  length (write_loop fuel x) = S (Z.to_nat (Z.log2 x / 7)).
Proof.
  revert x. induction fuel as [|fuel IH]; intros x Hx Hf; [lia|]. simpl write_loop.
  destruct (Z.ltb_spec 127 x).
  - assert (Hp' : 2 ^ (7 * Z.of_nat (S fuel)) = 2 ^ (7 * Z.of_nat fuel) * 128).
    { rewrite Nat2Z.inj_succ, <- Z.add_1_r, Z.mul_add_distr_l, Z.pow_add_r by lia. done. }
    rewrite Z.shiftr_div_pow2 by lia. change (2 ^ 7) with 128.
    assert (Hq : 1 <= x / 128 < 2 ^ (7 * Z.of_nat fuel)).
    { split; [apply Z.div_le_lower_bound; lia|apply Z.div_lt_upper_bound; lia]. }
    simpl length. rewrite IH; [|lia|destruct fuel; [change (2 ^ (7 * Z.of_nat 0)) with 1 in Hq; lia|lia]].
    f_equal. change 128 with (2 ^ 7). rewrite <- Z.shiftr_div_pow2, Z.log2_shiftr by lia.
    assert (7 <= Z.log2 x) by (apply Z.log2_le_pow2; lia).
    rewrite Z.max_r by lia. replace (Z.log2 x) with ((Z.log2 x - 7) + 1 * 7) at 2 by lia.
    rewrite Z.div_add by lia. assert (0 <= (Z.log2 x - 7) / 7) by (apply Z.div_pos; lia). lia.
  - assert (Hl : 0 <= Z.log2 x < 7).
    { split; [apply Z.log2_nonneg|]. destruct (decide (x = 0)); [by subst|apply Z.log2_lt_pow2; lia]. }
    rewrite Z.div_small by lia. done.
Qed.

Lemma getLengthOfVarUInt_log2 x : 0 <= x < 2 ^ 64 -> getLengthOfVarUInt x = Z.log2 x / 7 + 1.
Proof.
  intros Hx. destruct (decide (x = 0)) as [-> | Hne]; [done|].
  pose proof (Z.log2_spec x ltac:(lia)) as [Hlo Hhi].
  assert (Hl : 0 <= Z.log2 x < 64) by (split; [apply Z.log2_nonneg|apply Z.log2_lt_pow2; lia]).
  by_range (fun l => Forall (fun x => getLengthOfVarUInt x = l / 7 + 1) [2 ^ l; 2 ^ Z.succ l - 1]) 0 64
    (Z.log2 x).
  apply Forall_cons_1 in Hrange as [Hr1 Hrange]. apply Forall_cons_1 in Hrange as [Hr2 _].
  assert (Hmono : forall a b, a <= b -> getLengthOfVarUInt a <= getLengthOfVarUInt b).
  { clear. intros a b Hab. unfold getLengthOfVarUInt.
    repeat match goal with |- context [?x <? ?y] => destruct (Z.ltb_spec x y) end; lia. }
  pose proof (Hmono _ _ Hlo). pose proof (Hmono x (2 ^ Z.succ (Z.log2 x) - 1) ltac:(lia)). lia.
Qed.

Lemma read_loop_buffer check n i x istr :
  (check = false -> (n <= length istr)%nat) ->
  varint_loop check n i x istr = Some (readVarUInt_loop n i x istr).
Proof.
  revert i x istr. induction n as [|n IH]; intros i x istr Hl; [done|]. simpl.
  destruct istr as [|byte istr].
  - destruct check; [done|]. specialize (Hl eq_refl). simpl in Hl. lia.
  - destruct (_ =? 0); [done|]. apply IH. intros Hc. specialize (Hl Hc). simpl in Hl. lia.
Qed.

(** C32: variable-length encoding round trip: every 64-bit unsigned integer is
    read back from its encoding, the bytes after it stay unread, and the
    encoding has the length [getLengthOfVarUInt] announces. *)
Theorem readVarUInt_writeVarUInt (x : Z) (rest : bytes) :
  0 <= x < 2 ^ 64 ->
  readVarUInt (writeVarUInt x ++ rest) = Ok (x, rest) /\
  Z.of_nat (length (writeVarUInt x)) = getLengthOfVarUInt x.
Proof.
  intros Hx. split; [by apply read_write_VarUInt|].
  unfold writeVarUInt. rewrite write_loop_length, getLengthOfVarUInt_log2 by lia.
  assert (0 <= Z.log2 x / 7) by (apply Z.div_pos; [apply Z.log2_nonneg|lia]). lia.
Qed.

Lemma readVarUInt_writeVarUInt_witness :
  readVarUInt (writeVarUInt 18446744073709551615 ++ [7]) = Ok (18446744073709551615, [7]) /\
  Z.of_nat (length (writeVarUInt 18446744073709551615)) = 10.
Proof. apply (readVarUInt_writeVarUInt 18446744073709551615 [7]). lia. Defined.

(** Zigzag encoding round trip: every signed 64-bit integer is read back
    from its encoding. *)
Theorem readVarInt_writeVarInt (x : Z) (rest : bytes) :
  in_signed 64 x -> readVarInt (writeVarInt x ++ rest) = Ok (x, rest).
Proof.
  intros Hx. unfold readVarInt, writeVarInt.
  rewrite read_write_VarUInt by (apply uwrap_range; lia). simpl. by rewrite unzigzag_zigzag.
Qed.

Lemma readVarInt_writeVarInt_witness :
  readVarInt (writeVarInt (-9223372036854775808) ++ []) = Ok (-9223372036854775808, []).
Proof. apply (readVarInt_writeVarInt (-9223372036854775808) []). unfold in_signed. lia. Defined.

(** The buffered reader skips the end-of-file checks when ten bytes are
    available; it never reads past the end and always agrees with the checked
    reader, errors included. *)
Theorem readVarUInt_buffer_safe (avail : Z) (istr : bytes) :
  0 <= avail <= Z.of_nat (length istr) ->
  readVarUInt_buffer avail istr = Some (readVarUInt istr).
Proof.
  intros Ha. unfold readVarUInt_buffer, readVarUInt.
  destruct (Z.leb_spec 10 avail); apply read_loop_buffer; [lia|done].
Qed.

Lemma readVarUInt_buffer_safe_witness :
  readVarUInt_buffer 10 (replicate 10 0x81) = Some (readVarUInt (replicate 10 0x81)) /\
  readVarUInt_buffer 2 [0x81; 0x80] = Some (Throw ATTEMPT_TO_READ_AFTER_EOF).
Proof. split; apply readVarUInt_buffer_safe; simpl; lia. Defined.

End VarInt.

(** * Plain values, strings and booleans *)

Module Binary.
Import VarInt.

(** The bytes of an object in memory, little-endian. *)
Fixpoint le_bytes (n : nat) (z : Z) : bytes :=
  match n with
  | O => []
  | S n => z mod 256 :: le_bytes n (z / 256)
  end.

Fixpoint le_value (bs : bytes) : Z :=
  match bs with
  | [] => 0
  | b :: bs => b + 256 * le_value bs
  end.

Definition sizeof (T : IntType) : nat := Z.to_nat (width T / 8).

Definition writePODBinary (T : IntType) (x : Z) : bytes := le_bytes (sizeof T) (uwrap (width T) x).

(** [ReadBuffer::readStrict(char *, size_t)] *)
Definition readStrict (n : nat) (buf : bytes) : result (bytes * bytes) :=
  if (length buf <? n)%nat then Throw CANNOT_READ_ALL_DATA else Ok (take n buf, drop n buf).

Definition readPODBinary (T : IntType) (buf : bytes) : result (Z * bytes) :=
  let! (bs, buf) := readStrict (sizeof T) buf in Ok (cast T (le_value bs), buf).

Definition writeIntBinary (T : IntType) (x : Z) : bytes := writePODBinary T x.
Definition readIntBinary (T : IntType) (buf : bytes) : result (Z * bytes) := readPODBinary T buf.

Definition DEFAULT_MAX_STRING_SIZE : Z := 2 ^ 30.

Definition writeStringBinary (s : bytes) : bytes := writeVarUInt (Z.of_nat (length s)) ++ s.

Definition readStringBinary (buf : bytes) : result (bytes * bytes) :=
  let! (size, buf) := readVarUInt buf in
  if DEFAULT_MAX_STRING_SIZE <? size then Throw TOO_LARGE_STRING_SIZE
  else readStrict (Z.to_nat size) buf.

Definition isLowerAlphaASCII (c : Z) : bool := (chr "a" <=? c) && (c <=? chr "z").
Definition isUpperAlphaASCII (c : Z) : bool := (chr "A" <=? c) && (c <=? chr "Z").
Definition isAlphaASCII (c : Z) : bool := isLowerAlphaASCII c || isUpperAlphaASCII c.
Definition isNumericASCII (c : Z) : bool := (chr "0" <=? c) && (c <=? chr "9").
Definition isAlphaNumericASCII (c : Z) : bool := isAlphaASCII c || isNumericASCII c.
Definition alternateCaseIfAlphaASCII (c : Z) : Z := Z.lxor c 0x20.
Definition equalsCaseInsensitive (a b : Z) : bool :=
  (a =? b) || (isAlphaASCII a && (alternateCaseIfAlphaASCII a =? b)).

Definition readChar (buf : bytes) : result (Z * bytes) :=
  match buf with [] => Throw ATTEMPT_TO_READ_AFTER_EOF | c :: buf => Ok (c, buf) end.

(** [checkChar]: the buffer after the character, when it is there. *)
Definition checkChar (c : Z) (buf : bytes) : option bytes :=
  match buf with
  | [] => None
  | a :: rest => if a =? c then Some rest else None
  end.

(** [checkStringCaseInsensitive], and the assertion that throws on a mismatch. *)
Fixpoint checkStringCaseInsensitive (s : bytes) (buf : bytes) : bool * bytes :=
  match s with
  | [] => (true, buf)
  | a :: s =>
      match buf with
      | [] => (false, buf)
      | c :: rest => if equalsCaseInsensitive a c then checkStringCaseInsensitive s rest else (false, buf)
      end
  end.

Definition assertStringCaseInsensitive (s : bytes) (buf : bytes) : result bytes :=
  let '(ok, buf) := checkStringCaseInsensitive s buf in
  if ok then Ok buf else Throw CANNOT_PARSE_INPUT_ASSERTION_FAILED.

Definition writeBoolText (x : bool) : bytes := [if x then chr "1" else chr "0"].

Definition readBoolText (buf : bytes) : result (bool * bytes) :=
  let! (tmp, buf) := readChar buf in
  let x := negb (tmp =? chr "0") in
  match buf with
  | [] => Ok (x, buf)
  | _ =>
      if isAlphaASCII tmp then
        if (tmp =? chr "t") || (tmp =? chr "T") then
          let! buf := assertStringCaseInsensitive (bytes_of "rue") buf in Ok (true, buf)
        else if (tmp =? chr "f") || (tmp =? chr "F") then
          let! buf := assertStringCaseInsensitive (bytes_of "alse") buf in Ok (false, buf)
        else Ok (x, buf)
      else Ok (x, buf)
  end.

(** ** Round trips *)

Lemma length_le_bytes n z : length (le_bytes n z) = n.
Proof. revert z. induction n as [|n IH]; intros z; simpl; auto. Qed.

Lemma le_value_bytes n z : 0 <= z < 2 ^ (8 * Z.of_nat n) -> le_value (le_bytes n z) = z.
Proof.
  revert z. induction n as [|n IH]; intros z Hz; simpl.
  - change (2 ^ (8 * Z.of_nat 0)) with 1 in Hz. lia.
  - rewrite Nat2Z.inj_succ, <- Z.add_1_r, Z.mul_add_distr_l, Z.pow_add_r in Hz by lia.
    rewrite IH; [pose proof (Z.div_mod z 256); lia|].
    split; [apply Z.div_pos; lia|apply Z.div_lt_upper_bound; lia].
Qed.

Lemma le_bytes_range n z : Forall (fun b => 0 <= b < 256) (le_bytes n z).
Proof.
  revert z. induction n as [|n IH]; intros z; simpl; constructor; [|done].
  apply Z.mod_pos_bound. lia.
Qed.

Lemma le_bytes_value bs : Forall (fun b => 0 <= b < 256) bs -> le_bytes (length bs) (le_value bs) = bs.
Proof.
  intros Hbs. induction Hbs as [|b bs Hb Hbs IH]; simpl; [done|].
  rewrite (Z.mul_comm 256), Z.mod_add, Z.div_add by lia.
  rewrite Z.mod_small, Z.div_small, Z.add_0_l by lia. by rewrite IH.
Qed.

Lemma le_value_range bs : Forall (fun b => 0 <= b < 256) bs -> 0 <= le_value bs < 2 ^ (8 * Z.of_nat (length bs)).
Proof.
  intros Hbs. induction Hbs as [|b bs Hb Hbs IH]; simpl; [done|].
  rewrite Nat2Z.inj_succ, <- Z.add_1_r, Z.mul_add_distr_l, Z.pow_add_r by lia. lia.
Qed.

Lemma readStrict_app bs rest : readStrict (length bs) (bs ++ rest) = Ok (bs, rest).
Proof.
  unfold readStrict. rewrite length_app.
  destruct (Nat.ltb_spec (length bs + length rest) (length bs)); [lia|].
  by rewrite take_app_length, drop_app_length.
Qed.

Definition byte_type (T : IntType) : Prop := 0 < width T /\ width T mod 8 = 0.

Lemma readPOD_writePOD T x rest :
  byte_type T -> fits T x = true -> readPODBinary T (writePODBinary T x ++ rest) = Ok (x, rest).
Proof.
  intros [Hw H8] Hx. unfold readPODBinary, writePODBinary.
  set (bs := le_bytes _ _). assert (Hl : length bs = sizeof T) by apply length_le_bytes.
  rewrite <- Hl, readStrict_app. simpl. do 2 f_equal. subst bs.
  rewrite le_value_bytes.
  - transitivity (cast T x); [|by apply cast_fits]. unfold cast.
    destruct (is_signed T); [by apply swrap_uwrap|]. unfold uwrap. apply Z.mod_mod. lia.
  - unfold sizeof. rewrite Z2Nat.id by (apply Z.div_pos; lia).
    replace (8 * (width T / 8)) with (width T) by (rewrite (Z.div_mod (width T) 8) at 1; lia).
    apply uwrap_range. lia.
Qed.

Lemma readString_writeString s rest :
  Z.of_nat (length s) <= DEFAULT_MAX_STRING_SIZE ->
  readStringBinary (writeStringBinary s ++ rest) = Ok (s, rest).
Proof.
  intros Hs. unfold readStringBinary, writeStringBinary. unfold DEFAULT_MAX_STRING_SIZE in *.
  rewrite <- app_assoc, read_write_VarUInt by lia. simpl.
  destruct (Z.ltb_spec (2 ^ 30) (Z.of_nat (length s))); [lia|].
  rewrite Nat2Z.id. apply readStrict_app.
Qed.

Lemma readBool_writeBool b rest : readBoolText (writeBoolText b ++ rest) = Ok (b, rest).
Proof. destruct b, rest; reflexivity. Qed.

End Binary.
