(* ===== verification/PartInfo.v ===== *)
(** Data part names (src/Storages/MergeTree/MergeTreePartInfo.{h,cpp}): the
    identity of a part, its order and containment relation, its textual and
    binary formats, and the names of detached parts. *)
From S2P Require Import Prelude IntText BinaryIO.
Import Itoa ReadInt Binary.

(** * Data *)

(** [MergeTreePartInfo::Kind] *)
Inductive Kind := Regular.

Definition getKind (partition_id : bytes) : Kind := Regular.

(** [MergeTreePartInfo] *)
Record MergeTreePartInfo := {
  kind : Kind;
  partition_id : bytes;
  min_block : Z;
  max_block : Z;
  level : Z;
  mutation : Z;
  use_legacy_max_level : bool }.

#[export] Instance Kind_eq_dec : EqDecision Kind.
Proof. solve_decision. Defined.
#[export] Instance MergeTreePartInfo_eq_dec : EqDecision MergeTreePartInfo.
Proof. solve_decision. Defined.

(** The constructor from the fields of a part. *)
Definition make_part (partition_id : bytes) (min_block max_block level mutation : Z)
  : MergeTreePartInfo :=
  {| kind := getKind partition_id; partition_id := partition_id; min_block := min_block;
     max_block := max_block; level := level; mutation := mutation;
     use_legacy_max_level := false |}.

Definition MAX_LEVEL : Z := 999999999.
Definition MAX_BLOCK_NUMBER : Z := 999999999.
Definition LEGACY_MAX_LEVEL : Z := 2 ^ 32 - 1.

(** * Comparison *)

(** [std::string] comparison: by unsigned character, then by length. *)
Fixpoint bytes_compare (a b : bytes) : comparison :=
  match a, b with
  | [], [] => Eq
  | [], _ => Lt
  | _, [] => Gt
  | x :: a, y :: b => match x ?= y with Eq => bytes_compare a b | c => c end
  end.

Definition then_compare (c d : comparison) : comparison := match c with Eq => d | _ => c end.

(** [operator<=>]: lexicographic on [toTuple]. *)
Definition compare_parts (p q : MergeTreePartInfo) : comparison :=
  then_compare (bytes_compare (partition_id p) (partition_id q))
    (then_compare (min_block p ?= min_block q)
      (then_compare (max_block p ?= max_block q)
        (then_compare (level p ?= level q) (mutation p ?= mutation q)))).

Definition part_lt (p q : MergeTreePartInfo) : bool :=
  match compare_parts p q with Lt => true | _ => false end.

(** [operator==] *)
Definition part_eq (p q : MergeTreePartInfo) : bool :=
  match compare_parts p q with Eq => true | _ => false end.

(** * Relations between parts *)

Definition getDataVersion (p : MergeTreePartInfo) : Z :=
  if mutation p =? 0 then min_block p else mutation p.

Definition same_partition (p q : MergeTreePartInfo) : bool :=
  bool_decide (partition_id p = partition_id q).

(** [p.contains(rhs)] *)
Definition contains (p rhs : MergeTreePartInfo) : bool :=
  let strictly_contains_block_range :=
    ((min_block p =? min_block rhs) && (max_block p =? max_block rhs))
    || (level rhs <? level p)
    || (level p =? MAX_LEVEL)
    || (level p =? LEGACY_MAX_LEVEL) in
  same_partition p rhs
  && (min_block p <=? min_block rhs)
  && (max_block rhs <=? max_block p)
  && (level rhs <=? level p)
  && (mutation rhs <=? mutation p)
  && strictly_contains_block_range.

Definition isMutationChildOf (p parent_candidate : MergeTreePartInfo) : bool :=
  same_partition p parent_candidate
  && (min_block p =? min_block parent_candidate)
  && (max_block p =? max_block parent_candidate)
  && (level p =? level parent_candidate)
  && (mutation parent_candidate <=? mutation p).

Definition getMutationVersion (p : MergeTreePartInfo) : Z := mutation p.

Definition isDisjoint (p rhs : MergeTreePartInfo) : bool :=
  negb (same_partition p rhs)
  || (max_block rhs <? min_block p)
  || (max_block p <? min_block rhs).

Definition isFakeDropRangePart (p : MergeTreePartInfo) : bool :=
  (level p =? MAX_LEVEL) || (level p =? LEGACY_MAX_LEVEL).

Definition getBlocksCount (p : MergeTreePartInfo) : Z :=
  uwrap 64 (swrap 64 (max_block p - min_block p + 1)).

(** * Part names *)

Definition MERGE_TREE_DATA_OLD_FORMAT_VERSION : Z := 0.
Definition MERGE_TREE_DATA_MIN_FORMAT_VERSION_WITH_CUSTOM_PARTITIONING : Z := 1.

Definition underscore : Z := chr "_".

(** The fields after the partition: block numbers, level, mutation. *)
Definition write_numbers (p : MergeTreePartInfo) : bytes :=
  writeIntText Int64 (min_block p) ++ underscore ::
  writeIntText Int64 (max_block p) ++ underscore ::
  (if use_legacy_max_level p then writeIntText UInt32 LEGACY_MAX_LEVEL
   else writeIntText UInt32 (level p)) ++
  (if mutation p =? 0 then [] else underscore :: writeIntText Int64 (mutation p)).

Definition getPartNameV1 (p : MergeTreePartInfo) : bytes :=
  partition_id p ++ underscore :: write_numbers p.

Definition getPartNameForLogs (p : MergeTreePartInfo) : bytes := getPartNameV1 p.

Definition describe (p : MergeTreePartInfo) : bytes := getPartNameV1 p.

Definition getPartNameAndCheckFormat (p : MergeTreePartInfo) (format_version : Z) : result bytes :=
  if format_version =? MERGE_TREE_DATA_MIN_FORMAT_VERSION_WITH_CUSTOM_PARTITIONING
  then Ok (getPartNameV1 p)
  else Throw BAD_DATA_PART_NAME.

(** The read loop for the partition of the new format: up to the first
    underscore, which is consumed. *)
Fixpoint read_partition (buf : bytes) : bytes * bytes :=
  match buf with
  | [] => ([], [])
  | c :: buf => if c =? underscore then ([], buf)
                else let '(id, rest) := read_partition buf in (c :: id, rest)
  end.

(** The partition prefix of a name. *)
Definition parse_partition (format_version : Z) (buf : bytes) : option (bytes * bytes) :=
  if format_version <? MERGE_TREE_DATA_MIN_FORMAT_VERSION_WITH_CUSTOM_PARTITIONING then
    '(min_yyyymmdd, buf) ← tryReadIntText UInt32 buf;
    buf ← checkChar underscore buf;
    '(max_yyyymmdd, buf) ← tryReadIntText UInt32 buf;
    buf ← checkChar underscore buf;
    Some (writeIntText UInt32 (min_yyyymmdd / 100), buf)
  else Some (read_partition buf).

(** The optional mutation version at the end of a name. *)
Definition parse_mutation (buf : bytes) : option Z :=
  match buf with
  | [] => Some 0
  | _ =>
      buf ← checkChar underscore buf;
      '(mutation, buf) ← tryReadIntText UInt32 buf;
      match buf with [] => Some mutation | _ => None end
  end.

(** The part of [tryParsePartName] after the partition: the numbers, up to the
    end of the name. *)
Definition parse_numbers (partition_id : bytes) (buf : bytes) : option MergeTreePartInfo :=
  '(min_block_num, buf) ← tryReadIntText Int64 buf;
  buf ← checkChar underscore buf;
  '(max_block_num, buf) ← tryReadIntText Int64 buf;
  buf ← checkChar underscore buf;
  '(level, buf) ← tryReadIntText UInt32 buf;
  if max_block_num <? min_block_num then None
  else
    mutation ← parse_mutation buf;
    let legacy := level =? LEGACY_MAX_LEVEL in
    Some {| kind := getKind partition_id; partition_id := partition_id;
            min_block := min_block_num; max_block := max_block_num;
            level := if legacy then MAX_LEVEL else level;
            mutation := mutation; use_legacy_max_level := legacy |}.

Definition tryParsePartName (part_name : bytes) (format_version : Z) : option MergeTreePartInfo :=
  '(partition_id, buf) ← parse_partition format_version part_name;
  match partition_id with
  | [] => None
  | _ => parse_numbers partition_id buf
  end.

Definition fromPartName (part_name : bytes) (format_version : Z) : result MergeTreePartInfo :=
  match tryParsePartName part_name format_version with
  | Some p => Ok p
  | None => Throw BAD_DATA_PART_NAME
  end.

(** [contains] on names *)
Definition contains_names (outer_part_name inner_part_name : bytes) (format_version : Z)
  : result bool :=
  let! outer := fromPartName outer_part_name format_version in
  let! inner := fromPartName inner_part_name format_version in
  Ok (contains outer inner).

(** [validatePartitionID]; the argument is the value of the literal, [None]
    when the AST is not a string literal. *)
Definition validatePartitionID (partition_id_ast : option bytes) (format_version : Z) : result unit :=
  match partition_id_ast with
  | None => Throw INVALID_PARTITION_VALUE
  | Some [] => Throw INVALID_PARTITION_VALUE
  | Some partition_id =>
      if format_version <? MERGE_TREE_DATA_MIN_FORMAT_VERSION_WITH_CUSTOM_PARTITIONING then
        if negb (length partition_id =? 6)%nat || negb (forallb isNumericASCII partition_id)
        then Throw INVALID_PARTITION_VALUE else Ok tt
      else
        if negb (forallb (fun c => (c =? chr "-") || isAlphaNumericASCII c) partition_id)
        then Throw INVALID_PARTITION_VALUE else Ok tt
  end.

(** Names of the old format; [date_lut] is the server's calendar. *)
Section OldFormat.
Context (toNumYYYYMMDD YYYYMMDDToDayNum toNumYYYYMM : Z -> Z).

Definition getPartNameV0 (p : MergeTreePartInfo) (left_date right_date : Z) : bytes :=
  let left_date_id := uwrap 32 (toNumYYYYMMDD left_date) in
  let right_date_id := uwrap 32 (toNumYYYYMMDD right_date) in
  writeIntText UInt32 left_date_id ++ underscore ::
  writeIntText UInt32 right_date_id ++ underscore :: write_numbers p.

Definition parseMinMaxDatesFromPartName (part_name : bytes) : result (Z * Z) :=
  match '(min_yyyymmdd, buf) ← tryReadIntText UInt32 part_name;
        buf ← checkChar underscore buf;
        '(max_yyyymmdd, _) ← tryReadIntText UInt32 buf;
        Some (min_yyyymmdd, max_yyyymmdd) with
  | None => Throw BAD_DATA_PART_NAME
  | Some (min_yyyymmdd, max_yyyymmdd) =>
      let min_date := YYYYMMDDToDayNum min_yyyymmdd in
      let max_date := YYYYMMDDToDayNum max_yyyymmdd in
      if negb (toNumYYYYMM min_date =? toNumYYYYMM max_date) then Throw BAD_DATA_PART_NAME
      else Ok (min_date, max_date)
  end.
End OldFormat.

(** * Binary format *)

Definition DBMS_MERGE_TREE_PART_INFO_VERSION : Z := 1.

Definition serialize (p : MergeTreePartInfo) : bytes :=
  writeIntBinary UInt64 DBMS_MERGE_TREE_PART_INFO_VERSION ++
  writeStringBinary (partition_id p) ++
  writeIntBinary Int64 (min_block p) ++
  writeIntBinary Int64 (max_block p) ++
  writeIntBinary UInt32 (level p) ++
  writeIntBinary Int64 (mutation p) ++
  writeBoolText (use_legacy_max_level p).

(** [deserialize] overwrites the fields of [self] it reads. *)
Definition deserialize (self : MergeTreePartInfo) (buf : bytes) : result (MergeTreePartInfo * bytes) :=
  let! (version, buf) := readIntBinary UInt64 buf in
  if negb (version =? DBMS_MERGE_TREE_PART_INFO_VERSION) then Throw UNKNOWN_FORMAT_VERSION
  else
    let! (id, buf) := readStringBinary buf in
    let! (mn, buf) := readIntBinary Int64 buf in
    let! (mx, buf) := readIntBinary Int64 buf in
    let! (lv, buf) := readIntBinary UInt32 buf in
    let! (mu, buf) := readIntBinary Int64 buf in
    let! (legacy, buf) := readBoolText buf in
    Ok ({| kind := kind self; partition_id := id; min_block := mn; max_block := mx; level := lv;
           mutation := mu; use_legacy_max_level := legacy |}, buf).

(** * Coverage of a block range *)

(** The loop over the sorted candidates. *)
Fixpoint covered_loop (current_right_block : Z) (candidates : list MergeTreePartInfo) : option Z :=
  match candidates with
  | [] => Some current_right_block
  | candidate :: candidates =>
      if negb (swrap 64 (current_right_block + 1) =? min_block candidate) then None
      else covered_loop (max_block candidate) candidates
  end.

Definition part_le (p q : MergeTreePartInfo) : Prop := part_lt q p = false.
#[export] Instance part_le_dec : RelDecision part_le.
Proof. intros p q. unfold part_le. apply _. Defined.

Definition areAllBlockNumbersCovered (blocks_range : MergeTreePartInfo)
    (candidates : list MergeTreePartInfo) : bool :=
  match merge_sort part_le candidates with
  | [] => false
  | (first :: _) as candidates =>
      if negb (min_block first =? min_block blocks_range) then false
      else
        match covered_loop (swrap 64 (min_block first - 1)) candidates with
        | None => false
        | Some current_right_block => current_right_block =? max_block blocks_range
        end
  end.

(** * Detached parts *)

Record DetachedPartInfo := {
  part : MergeTreePartInfo;
  dir_name : bytes;
  prefix : bytes;
  valid_name : bool }.

Definition DETACH_REASONS : list bytes :=
  bytes_of <$> ["broken"; "unexpected"; "noquorum"; "ignored"; "broken-on-start"; "clone";
    "attaching"; "deleting"; "tmp-fetch"; "covered-by-broken"; "merge-not-byte-identical";
    "mutate-not-byte-identical"; "broken-from-backup"]%string.

(** A default-constructed part. *)
Definition default_part : MergeTreePartInfo := make_part [] 0 0 0 0.

(** [dir_name.starts_with(known_prefix) && ... == '_']: the rest of the name. *)
Definition strip_prefix (known_prefix dir_name : bytes) : option bytes :=
  if bool_decide (take (length known_prefix) dir_name = known_prefix) then
    match drop (length known_prefix) dir_name with
    | c :: part_name => if c =? underscore then Some part_name else None
    | [] => None
    end
  else None.

(** The result for one way of splitting the name; [addParsedPartInfo] copies
    the part. *)
Definition detached_of (dir_name prefix : bytes) (part_opt : option MergeTreePartInfo)
  : DetachedPartInfo :=
  match part_opt with
  | Some p => {| part := p; dir_name := dir_name; prefix := prefix; valid_name := true |}
  | None => {| part := default_part; dir_name := dir_name; prefix := prefix; valid_name := false |}
  end.

(** The loop over [DETACH_REASONS]. *)
Fixpoint try_reasons (reasons : list bytes) (dir_name : bytes) (format_version : Z)
  : option DetachedPartInfo :=
  match reasons with
  | [] => None
  | known_prefix :: reasons =>
      match strip_prefix known_prefix dir_name with
      | Some part_name =>
          Some (detached_of dir_name known_prefix (tryParsePartName part_name format_version))
      | None => try_reasons reasons dir_name format_version
      end
  end.

(** Split at the first separator. *)
Fixpoint split_first (dir_name : bytes) : option (bytes * bytes) :=
  match dir_name with
  | [] => None
  | c :: rest =>
      if c =? underscore then Some ([], rest)
      else '(a, b) ← split_first rest; Some (c :: a, b)
  end.

Definition parseDetachedPartName (dir_name : bytes) (format_version : Z) : DetachedPartInfo :=
  match try_reasons DETACH_REASONS dir_name format_version with
  | Some info => info
  | None =>
      match tryParsePartName dir_name format_version with
      | Some p => detached_of dir_name [] (Some p)
      | None =>
          match split_first dir_name with
          | None => detached_of dir_name dir_name None
          | Some (before, part_name) =>
              match tryParsePartName part_name format_version with
              | Some p => detached_of dir_name before (Some p)
              | None => detached_of dir_name dir_name None
              end
          end
      end
  end.

(** * Order of parts *)

Lemma bytes_compare_eq a b : bytes_compare a b = Eq <-> a = b.
Proof.
  revert b. induction a as [|x a IH]; intros [|y b]; simpl; [done|done|done|].
  destruct (Z.compare_spec x y); [|split; [done|intros [=]; lia]..].
  rewrite IH. split; [by intros ->; subst|by intros [=]].
Qed.

Lemma bytes_compare_antisym a b : bytes_compare b a = CompOpp (bytes_compare a b).
Proof.
  revert b. induction a as [|x a IH]; intros [|y b]; simpl; [done..|].
  rewrite Z.compare_antisym. destruct (x ?= y); simpl; [apply IH|done|done].
Qed.

Lemma bytes_compare_lt_trans a b c :
  bytes_compare a b = Lt -> bytes_compare b c = Lt -> bytes_compare a c = Lt.
Proof.
  revert b c. induction a as [|x a IH]; intros [|y b] [|z c]; simpl; try done.
  destruct (Z.compare_spec x y), (Z.compare_spec y z), (Z.compare_spec x z);
    try done; try lia; subst; eauto; try lia.
Qed.

(** Position of a part in the order of a set: partition, then block range. *)
Lemma compare_parts_eq p q : compare_parts p q = Eq <->
  partition_id p = partition_id q /\ min_block p = min_block q /\ max_block p = max_block q /\
  level p = level q /\ mutation p = mutation q.
Proof.
  unfold compare_parts, then_compare. rewrite <- bytes_compare_eq.
  destruct (bytes_compare _ _); [|split; [done|by intros []]..].
  repeat match goal with |- context [?x ?= ?y] => destruct (Z.compare_spec x y) end;
    (split; [intros; done || (split_and!; done)|intros; done || lia]).
Qed.

Lemma compare_parts_lt p q : compare_parts p q = Lt <->
  bytes_compare (partition_id p) (partition_id q) = Lt \/
  partition_id p = partition_id q /\
    (min_block p < min_block q \/ min_block p = min_block q /\
      (max_block p < max_block q \/ max_block p = max_block q /\
        (level p < level q \/ level p = level q /\ mutation p < mutation q))).
Proof.
  unfold compare_parts, then_compare. rewrite <- bytes_compare_eq.
  destruct (bytes_compare _ _); [|split; [by left|done]|split; [done|by intros [|[]]]].
  repeat match goal with |- context [?x ?= ?y] => destruct (Z.compare_spec x y) end;
    (split; [done || (intros _; right; split; [done|lia])|intros [?|[_ ?]]; done || lia]).
Qed.

Lemma compare_parts_antisym p q : compare_parts q p = CompOpp (compare_parts p q).
Proof.
  unfold compare_parts, then_compare. rewrite bytes_compare_antisym.
  destruct (bytes_compare _ _); simpl; [|done..].
  rewrite (Z.compare_antisym (min_block p)). destruct (min_block p ?= _); simpl; [|done..].
  rewrite (Z.compare_antisym (max_block p)). destruct (max_block p ?= _); simpl; [|done..].
  rewrite (Z.compare_antisym (level p)). destruct (level p ?= _); simpl; [|done..].
  apply Z.compare_antisym.
Qed.

Lemma part_lt_true p q : part_lt p q = true <-> compare_parts p q = Lt.
Proof. unfold part_lt. by destruct (compare_parts p q). Qed.

Lemma part_lt_irrefl p : part_lt p p = false.
Proof.
  destruct (part_lt p p) eqn:E; [|done]. apply part_lt_true, compare_parts_lt in E.
  destruct E as [E|E]; [|lia]. assert (bytes_compare (partition_id p) (partition_id p) = Eq) as H
    by by apply bytes_compare_eq. congruence.
Qed.

Lemma part_lt_trans p q r : part_lt p q = true -> part_lt q r = true -> part_lt p r = true.
Proof.
  rewrite !part_lt_true, !compare_parts_lt. intros [H1|[E1 H1]] [H2|[E2 H2]].
  - left. by eapply bytes_compare_lt_trans.
  - left. by rewrite <- E2.
  - left. by rewrite E1.
  - right. split; [congruence|lia].
Qed.

(** Exactly one of [p < q], [p == q], [q < p]. *)
Lemma part_trichotomy p q :
  part_lt p q = false -> part_lt q p = false -> part_eq p q = true.
Proof.
  unfold part_lt, part_eq. rewrite (compare_parts_antisym p q).
  by destruct (compare_parts p q).
Qed.

Lemma part_eq_true p q : part_eq p q = true <-> compare_parts p q = Eq.
Proof. unfold part_eq. by destruct (compare_parts p q). Qed.

(** * Containment *)

Lemma same_partition_true p q : same_partition p q = true <-> partition_id p = partition_id q.
Proof. unfold same_partition. by rewrite bool_decide_eq_true. Qed.

Lemma contains_true p q : contains p q = true <->
  partition_id p = partition_id q /\ min_block p <= min_block q /\ max_block q <= max_block p /\
  level q <= level p /\ mutation q <= mutation p /\
  (min_block p = min_block q /\ max_block p = max_block q \/ level q < level p \/
   level p = MAX_LEVEL \/ level p = LEGACY_MAX_LEVEL).
Proof.
  unfold contains.
  rewrite !andb_true_iff, !orb_true_iff, !andb_true_iff, same_partition_true, !Z.eqb_eq, !Z.leb_le, Z.ltb_lt.
  tauto.
Qed.

Lemma isDisjoint_false p q : isDisjoint p q = false <->
  partition_id p = partition_id q /\ min_block p <= max_block q /\ min_block q <= max_block p.
Proof.
  unfold isDisjoint.
  rewrite !orb_false_iff, negb_false_iff, same_partition_true, !Z.ltb_ge. tauto.
Qed.

Lemma isDisjoint_true p q : isDisjoint p q = true <->
  partition_id p <> partition_id q \/ max_block q < min_block p \/ max_block p < min_block q.
Proof.
  unfold isDisjoint.
  rewrite !orb_true_iff, negb_true_iff, <- not_true_iff_false, same_partition_true, !Z.ltb_lt. tauto.
Qed.

Lemma isDisjoint_sym p q : isDisjoint p q = isDisjoint q p.
Proof. apply eq_bool_prop_intro. rewrite !Is_true_true, !isDisjoint_true. intuition congruence. Qed.

Lemma contains_refl p : contains p p = true.
Proof. apply contains_true. repeat split; auto; lia. Qed.

Lemma contains_trans p q r : contains p q = true -> contains q r = true -> contains p r = true.
Proof. rewrite !contains_true. intros. split; [intuition congruence|]. lia. Qed.

Lemma contains_antisym p q : contains p q = true -> contains q p = true -> part_eq p q = true.
Proof. rewrite !contains_true, part_eq_true, compare_parts_eq. intros. split; [tauto|]. lia. Qed.

Lemma contains_not_disjoint p q :
  min_block q <= max_block q -> contains p q = true -> isDisjoint p q = false.
Proof. rewrite contains_true, isDisjoint_false. intros. split; [tauto|]. lia. Qed.

(** * Parsing what was printed *)

(** Parts with a printable and parsable name. *)
Record wf_part (p : MergeTreePartInfo) : Prop := {
  wf_partition_nonempty : partition_id p <> [];
  wf_partition_chars : underscore ∉ partition_id p;
  wf_min : fits Int64 (min_block p) = true;
  wf_max : fits Int64 (max_block p) = true;
  wf_range : min_block p <= max_block p;
  wf_level : fits UInt32 (level p) = true;
  wf_not_legacy : level p <> LEGACY_MAX_LEVEL;
  wf_mutation : fits UInt32 (mutation p) = true;
  wf_legacy : use_legacy_max_level p = true -> level p = MAX_LEVEL }.

Lemma stops_underscore rest : stops (underscore :: rest).
Proof. done. Qed.

Lemma reading_Int64 : reading_type Int64.
Proof. do 7 apply list_elem_of_further. apply list_elem_of_here. Qed.
Lemma reading_UInt32 : reading_type UInt32.
Proof. do 2 apply list_elem_of_further. apply list_elem_of_here. Qed.

Lemma read_field T x rest :
  reading_type T -> fits T x = true ->
  tryReadIntText T (writeIntText T x ++ underscore :: rest) = Some (x, underscore :: rest).
Proof. intros HT Hx. by apply read_write_int. Qed.

Lemma read_last T x : reading_type T -> fits T x = true -> tryReadIntText T (writeIntText T x) = Some (x, []).
Proof. intros HT Hx. rewrite <- (app_nil_r (writeIntText T x)). by apply read_write_int. Qed.

(** The mutation is printed as a signed and read as an unsigned number. *)
Lemma writeInt_same x : fits UInt32 x = true -> writeIntText Int64 x = writeIntText UInt32 x.
Proof.
  intros Hx. assert (Hx' : fits Int64 x = true).
  { rewrite fits_spec in *. cbn in *. lia. }
  rewrite !writeIntText_decimal; [done|apply reading_type_width, reading_UInt32|done
    |apply reading_type_width, reading_Int64|done].
Qed.

Lemma writeIntText_nonempty T x : itoa_type T -> fits T x = true -> writeIntText T x <> [].
Proof.
  intros HT Hx. rewrite writeIntText_decimal by done. unfold Decimal.decimal_signed.
  destruct (Z.ltb_spec x 0); [done|]. by destruct (decimal_spec x ltac:(lia)) as (_ & ? & _).
Qed.

Lemma checkChar_here c buf : checkChar c (c :: buf) = Some buf.
Proof. simpl. by rewrite Z.eqb_refl. Qed.

Lemma parse_write_numbers p : wf_part p -> parse_numbers (partition_id p) (write_numbers p) = Some p.
Proof.
  intros [Hne Hch Hmin Hmax Hr Hlv Hnl Hmu Hleg]. unfold parse_numbers, write_numbers.
  rewrite (read_field Int64) by (done || apply reading_Int64). cbn -[checkChar].
  rewrite checkChar_here. cbn -[checkChar].
  rewrite (read_field Int64) by (done || apply reading_Int64). cbn -[checkChar].
  rewrite checkChar_here. cbn -[checkChar].
  set (lv := if use_legacy_max_level p then LEGACY_MAX_LEVEL else level p).
  assert (Hlv' : fits UInt32 lv = true) by (subst lv; by destruct (use_legacy_max_level p)).
  replace (if use_legacy_max_level p then _ else _) with (writeIntText UInt32 lv)
    by (subst lv; by destruct (use_legacy_max_level p)).
  assert (Hl : (lv =? LEGACY_MAX_LEVEL) = use_legacy_max_level p).
  { subst lv. destruct (use_legacy_max_level p); [apply Z.eqb_refl|by apply Z.eqb_neq]. }
  assert (Hres : {| kind := getKind (partition_id p); partition_id := partition_id p;
            min_block := min_block p; max_block := max_block p;
            level := if lv =? LEGACY_MAX_LEVEL then MAX_LEVEL else lv;
            mutation := mutation p; use_legacy_max_level := lv =? LEGACY_MAX_LEVEL |} = p).
  { rewrite Hl. subst lv. destruct p as [[] ? ? ? ? ? []]; simpl in *; [|done].
    by rewrite Hleg. }
  destruct (Z.eqb_spec (mutation p) 0) as [Hm|Hm].
  - rewrite app_nil_r, read_last by (done || apply reading_UInt32). simpl.
    destruct (Z.ltb_spec (max_block p) (min_block p)); [lia|]. simpl. by rewrite <- Hres, <- Hm.
  - rewrite (read_field UInt32) by (done || apply reading_UInt32). cbn -[checkChar].
    destruct (Z.ltb_spec (max_block p) (min_block p)); [lia|].
    unfold parse_mutation. rewrite checkChar_here. cbn -[checkChar].
    rewrite writeInt_same, read_last by (done || apply reading_UInt32). simpl. by rewrite <- Hres.
Qed.

Lemma read_partition_app id rest :
  underscore ∉ id -> read_partition (id ++ underscore :: rest) = (id, rest).
Proof.
  intros Hid. induction id as [|c id IH]; [done|]. simpl.
  apply not_elem_of_cons in Hid as [Hc Hid].
  destruct (Z.eqb_spec c underscore); [congruence|]. by rewrite IH.
Qed.

Lemma parse_print_name p : wf_part p ->
  tryParsePartName (getPartNameV1 p) MERGE_TREE_DATA_MIN_FORMAT_VERSION_WITH_CUSTOM_PARTITIONING = Some p.
Proof.
  intros Hp. unfold tryParsePartName, getPartNameV1, parse_partition. simpl.
  rewrite read_partition_app by apply Hp. simpl.
  destruct (partition_id p) eqn:E; [by destruct (wf_partition_nonempty p Hp)|].
  rewrite <- E. by apply parse_write_numbers.
Qed.

(** * What the parser accepts *)

Lemma tryReadIntText_fits T buf x rest :
  0 < width T -> tryReadIntText T buf = Some (x, rest) -> fits T x = true.
Proof.
  intros Hw. unfold tryReadIntText, readIntTextImpl.
  destruct buf as [|c buf]; [done|]. destruct (read_loop _ _ _ _ _) as [[st r]|]; simpl; [|done].
  destruct (has_sign st && negb (has_number st)); [done|].
  destruct (is_signed T && negative st).
  - unfold checked. destruct (fits T (res st * -1)) eqn:E; simpl; [|done]. by intros [= <- <-].
  - intros [= <- <-]. by apply fits_cast.
Qed.

Lemma read_partition_chars buf : underscore ∉ (read_partition buf).1.
Proof.
  induction buf as [|c buf IH]; simpl; [apply not_elem_of_nil|].
  destruct (Z.eqb_spec c underscore); [apply not_elem_of_nil|].
  destruct (read_partition buf). simpl in *. apply not_elem_of_cons. split; [congruence|done].
Qed.

Lemma decimal_no_underscore n : 0 <= n -> underscore ∉ Decimal.decimal n.
Proof.
  intros Hn. destruct (decimal_spec n Hn) as (Hd & _). rewrite Forall_forall in Hd.
  intros Hin%Hd. done.
Qed.

Lemma parse_partition_chars fv buf id rest :
  parse_partition fv buf = Some (id, rest) -> underscore ∉ id.
Proof.
  unfold parse_partition. destruct (_ <? _); simpl.
  - destruct (tryReadIntText UInt32 buf) as [[mn buf1]|] eqn:E1; simpl; [|done].
    apply tryReadIntText_fits in E1; [|done].
    destruct (checkChar _ buf1) as [buf2|]; simpl; [|done].
    destruct (tryReadIntText UInt32 buf2) as [[mx buf3]|]; simpl; [|done].
    destruct (checkChar _ buf3) as [buf4|]; simpl; [|done].
    intros [= <- <-]. rewrite fits_spec in E1. cbn in E1.
    assert (0 <= mn / 100 <= 4294967295) by (Z.to_euclidean_division_equations; lia).
    rewrite writeIntText_decimal; [|apply reading_type_width, reading_UInt32|apply fits_spec; cbn; lia].
    unfold Decimal.decimal_signed. destruct (Z.ltb_spec (mn / 100) 0); [lia|].
    by apply decimal_no_underscore.
  - pose proof (read_partition_chars buf). intros [= E]. by rewrite E in H.
Qed.

Lemma parse_mutation_fits buf mu : parse_mutation buf = Some mu -> fits UInt32 mu = true.
Proof.
  unfold parse_mutation. destruct buf as [|c buf]; [by intros [= <-]|].
  destruct (checkChar _ _) as [buf6|]; simpl; [|done].
  destruct (tryReadIntText UInt32 buf6) as [[mu' buf7]|] eqn:E4; simpl; [|done].
  apply tryReadIntText_fits in E4; [|done]. destruct buf7; [by intros [= <-]|done].
Qed.

Lemma parse_numbers_wf id buf p :
  id <> [] -> underscore ∉ id -> parse_numbers id buf = Some p -> wf_part p /\ partition_id p = id.
Proof.
  intros Hne Hch. unfold parse_numbers.
  destruct (tryReadIntText Int64 buf) as [[mn buf1]|] eqn:E1; simpl; [|done].
  destruct (checkChar _ buf1) as [buf2|]; simpl; [|done].
  destruct (tryReadIntText Int64 buf2) as [[mx buf3]|] eqn:E2; simpl; [|done].
  destruct (checkChar _ buf3) as [buf4|]; simpl; [|done].
  destruct (tryReadIntText UInt32 buf4) as [[lv buf5]|] eqn:E3; simpl; [|done].
  apply tryReadIntText_fits in E1, E2, E3; [|done..].
  destruct (Z.ltb_spec mx mn); [done|].
  destruct (parse_mutation buf5) as [mu|] eqn:Em; simpl; [|done]. intros [= <-].
  apply parse_mutation_fits in Em.
  split; [|done]. split; simpl; try done.
  - by destruct (lv =? LEGACY_MAX_LEVEL).
  - destruct (Z.eqb_spec lv LEGACY_MAX_LEVEL); [done|done].
  - intros ->. done.
Qed.

Lemma tryParsePartName_wf s fv p : tryParsePartName s fv = Some p -> wf_part p.
Proof.
  unfold tryParsePartName. destruct (parse_partition fv s) as [[id buf]|] eqn:E; simpl; [|done].
  apply parse_partition_chars in E. destruct id; [done|].
  intros Hp. by apply parse_numbers_wf in Hp as [Hp _].
Qed.

(** C33: name round trip: parsing the printed name of a part gives the part
    back, provided its partition id is a non-empty text without underscores,
    its block range is not empty, its level is not the legacy maximum and its
    mutation version fits 32 bits. *)
Theorem tryParsePartName_getPartNameV1 (p : MergeTreePartInfo) :
  wf_part p ->
  tryParsePartName (getPartNameV1 p) MERGE_TREE_DATA_MIN_FORMAT_VERSION_WITH_CUSTOM_PARTITIONING = Some p.
Proof. apply parse_print_name. Qed.

Lemma tryParsePartName_getPartNameV1_witness :
  getPartNameV1 (make_part (bytes_of "202501") 3 8 2 9) = bytes_of "202501_3_8_2_9" /\
  tryParsePartName (getPartNameV1 (make_part (bytes_of "202501") 3 8 2 9)) 1 =
    Some (make_part (bytes_of "202501") 3 8 2 9).
Proof.
  split; [vm_compute; reflexivity|]. apply tryParsePartName_getPartNameV1. split; try done.
  refine (bool_decide_eq_true_1 _ _). reflexivity.
Defined.

(** C34: every part the parser returns, in either format, is well formed: it has
    a non-empty partition id without underscores, block numbers, level and
    mutation in range, a non-empty block range, and never the legacy maximal
    level; so its printed name parses to the same part. *)
Theorem tryParsePartName_sound (s : bytes) (format_version : Z) (p : MergeTreePartInfo) :
  tryParsePartName s format_version = Some p ->
  wf_part p /\ tryParsePartName (getPartNameV1 p) 1 = Some p.
Proof.
  intros Hp%tryParsePartName_wf. split; [done|]. by apply parse_print_name.
Qed.

Lemma tryParsePartName_sound_witness :
  exists p, tryParsePartName (bytes_of "20170601_20170630_0_2_4294967295") 0 = Some p /\
    wf_part p /\ tryParsePartName (getPartNameV1 p) 1 = Some p.
Proof.
  eexists. split; [vm_compute; reflexivity|].
  apply (tryParsePartName_sound (bytes_of "20170601_20170630_0_2_4294967295") 0).
  vm_compute. reflexivity.
Defined.

(** Containment is a partial order on parts, up to [operator==], and a part
    contained in another one is never disjoint from it. *)
Theorem contains_order :
  (forall p, contains p p = true) /\
  (forall p q r, contains p q = true -> contains q r = true -> contains p r = true) /\
  (forall p q, contains p q = true -> contains q p = true -> part_eq p q = true) /\
  (forall p q, min_block q <= max_block q -> contains p q = true -> isDisjoint p q = false).
Proof.
  split_and!; [apply contains_refl|apply contains_trans|apply contains_antisym
    |apply contains_not_disjoint].
Qed.

(** C35: a partition id accepted by [validatePartitionID] for the new format
    can be used in part names: any part of such a partition round-trips through its
    name, if its blocks fit 64 bits, and its level and mutation 32 bits (the level
    not being the legacy maximum, which the parser replaces). *)
Theorem validatePartitionID_names (id : bytes) (mn mx lv mu : Z) :
  validatePartitionID (Some id) MERGE_TREE_DATA_MIN_FORMAT_VERSION_WITH_CUSTOM_PARTITIONING = Ok tt ->
  fits Int64 mn = true -> fits Int64 mx = true -> mn <= mx ->
  fits UInt32 lv = true -> lv <> LEGACY_MAX_LEVEL -> fits UInt32 mu = true ->
  fromPartName (getPartNameV1 (make_part id mn mx lv mu))
    MERGE_TREE_DATA_MIN_FORMAT_VERSION_WITH_CUSTOM_PARTITIONING = Ok (make_part id mn mx lv mu).
Proof.
  intros Hid Hmn Hmx Hr Hlv Hnl Hmu. unfold fromPartName. rewrite parse_print_name; [done|].
  destruct id as [|c id]; [done|]. split; simpl; try done.
  unfold validatePartitionID in Hid. rewrite Z.ltb_irrefl in Hid.
  destruct (forallb _ (c :: id)) eqn:E; [|done].
  rewrite forallb_forall in E. intros Hin%list_elem_of_In%E. done.
Qed.

Lemma validatePartitionID_names_witness :
  fromPartName (getPartNameV1 (make_part (bytes_of "2025-01") 0 7 1 0)) 1 =
    Ok (make_part (bytes_of "2025-01") 0 7 1 0).
Proof. by apply (validatePartitionID_names (bytes_of "2025-01") 0 7 1 0). Defined.

Lemma byte_type_ok : byte_type UInt64 /\ byte_type Int64 /\ byte_type UInt32.
Proof. split_and!; split; reflexivity. Qed.

(** Binary round trip: deserializing a serialized part restores it, into
    any object, and leaves the following bytes unread. *)
Theorem deserialize_serialize (p self : MergeTreePartInfo) (rest : bytes) :
  Z.of_nat (length (partition_id p)) <= DEFAULT_MAX_STRING_SIZE ->
  fits Int64 (min_block p) = true -> fits Int64 (max_block p) = true ->
  fits UInt32 (level p) = true -> fits Int64 (mutation p) = true ->
  deserialize self (serialize p ++ rest) = Ok (p, rest).
Proof.
  intros Hs Hmn Hmx Hlv Hmu. destruct byte_type_ok as (H64 & Hi64 & H32).
  unfold serialize, deserialize, writeIntBinary, readIntBinary. rewrite <- !app_assoc.
  rewrite (readPOD_writePOD UInt64) by (exact H64 || reflexivity). cbn [rbind]. rewrite Z.eqb_refl. cbn [negb].
  rewrite readString_writeString by done. cbn [rbind].
  rewrite (readPOD_writePOD Int64) by done. cbn [rbind].
  rewrite (readPOD_writePOD Int64) by done. cbn [rbind].
  rewrite (readPOD_writePOD UInt32) by done. cbn [rbind].
  rewrite (readPOD_writePOD Int64) by done. cbn [rbind].
  rewrite readBool_writeBool. simpl. by destruct p as [[] ? ? ? ? ? ?], self as [[] ? ? ? ? ? ?].
Qed.

Lemma deserialize_serialize_witness :
  deserialize default_part (serialize (make_part (bytes_of "all") 1 (-1) 7 (-2)) ++ [5]) =
    Ok (make_part (bytes_of "all") 1 (-1) 7 (-2), [5]).
Proof. by apply (deserialize_serialize (make_part (bytes_of "all") 1 (-1) 7 (-2)) default_part [5]). Defined.

(** * Coverage *)

(** The candidates tile the blocks from [b] to [e]: each starts right after the
    previous one. *)
Inductive tiles : Z -> list MergeTreePartInfo -> Z -> Prop :=
| tiles_nil b : tiles b [] (b - 1)
| tiles_cons c cs e : tiles (max_block c + 1) cs e -> tiles (min_block c) (c :: cs) e.

Definition small_block (b : Z) : Prop := - 2 ^ 62 <= b <= 2 ^ 62.

Lemma covered_loop_tiles r cs e :
  small_block r -> Forall (fun c => small_block (min_block c) /\ small_block (max_block c)) cs ->
  covered_loop r cs = Some e <-> tiles (r + 1) cs e.
Proof.
  unfold small_block. intros Hr Hcs. revert r Hr. induction Hcs as [|c cs Hc Hcs IH]; intros r Hr; simpl.
  - split; [intros [= <-]|intros H; inversion H; f_equal; lia].
    replace r with (r + 1 - 1) at 2 by lia. constructor.
  - rewrite swrap_small by (unfold in_signed; lia).
    destruct (Z.eqb_spec (r + 1) (min_block c)) as [E|E]; simpl.
    + rewrite IH by lia. split; [intros H; rewrite E; by constructor|intros H; by inversion H].
    + split; [done|]. intros H. inversion H. congruence.
Qed.

Lemma tiles_covers b cs e :
  tiles b cs e -> Forall (fun c => min_block c <= max_block c) cs ->
  b - 1 <= e /\ forall x, b <= x <= e <-> exists c, c ∈ cs /\ min_block c <= x <= max_block c.
Proof.
  intros Ht. induction Ht as [b|c cs e Ht IH]; intros Hcs.
  - split; [lia|]. intros x. split; [lia|]. intros (c & Hc & _). by apply elem_of_nil in Hc.
  - apply Forall_cons in Hcs as [Hc Hcs]. destruct (IH Hcs) as [Hle Hx]. split; [lia|].
    intros x. setoid_rewrite elem_of_cons. split.
    + intros Hin. destruct (decide (x <= max_block c)); [exists c; auto with lia|].
      destruct (proj1 (Hx x)) as (d & ? & ?); [lia|]. exists d. auto.
    + intros (d & [-> | Hd] & Hin); [lia|]. assert (max_block c + 1 <= x <= e) by (apply Hx; eauto). lia.
Qed.

#[export] Instance part_le_total : Total part_le.
Proof.
  intros p q. unfold part_le. destruct (part_lt p q) eqn:E; [|by right].
  left. destruct (part_lt q p) eqn:E'; [|done].
  pose proof (part_lt_trans _ _ _ E E'). by rewrite part_lt_irrefl in H.
Qed.

#[export] Instance part_le_trans : Transitive part_le.
Proof.
  unfold part_le. intros p q r Hqp Hrq. destruct (part_lt r p) eqn:E; [|done].
  destruct (part_lt p q) eqn:Epq.
  - by rewrite (part_lt_trans r p q) in Hrq.
  - pose proof (part_trichotomy p q Epq Hqp) as (E1 & E2 & E3 & E4 & E5)%part_eq_true%compare_parts_eq.
    apply part_lt_true, compare_parts_lt in E. rewrite E1, E2, E3, E4, E5 in E.
    apply compare_parts_lt, part_lt_true in E. congruence.
Qed.

Lemma part_le_min p q : partition_id p = partition_id q -> part_le p q -> min_block p <= min_block q.
Proof.
  unfold part_le. intros Hid Hle. destruct (decide (min_block p <= min_block q)); [done|].
  assert (part_lt q p = true); [|congruence].
  apply part_lt_true, compare_parts_lt. right. split; [done|lia].
Qed.

Definition blocks_disjoint (c d : MergeTreePartInfo) : Prop :=
  max_block c < min_block d \/ max_block d < min_block c.

Fixpoint pairwise_disjoint (cs : list MergeTreePartInfo) : Prop :=
  match cs with
  | [] => True
  | c :: cs => Forall (blocks_disjoint c) cs /\ pairwise_disjoint cs
  end.

#[export] Instance pairwise_disjoint_proper : Proper ((≡ₚ) ==> iff) pairwise_disjoint.
Proof.
  assert (Himp : forall cs cs', cs ≡ₚ cs' -> pairwise_disjoint cs -> pairwise_disjoint cs').
  { induction 1 as [|c cs cs' Hp IH|c d cs|]; simpl; [done| |.. |by auto].
    - intros [Hc Hcs]. split; [by rewrite <- Hp|auto].
    - rewrite !Forall_cons. unfold blocks_disjoint at 1 4. intuition lia. }
  intros cs cs' Hp. split; apply Himp; [done|by symmetry].
Qed.

(** [cs] covers exactly the blocks from [b] to [e]. *)
Definition covers_exactly (b e : Z) (cs : list MergeTreePartInfo) : Prop :=
  forall x, b <= x <= e <-> exists c, c ∈ cs /\ min_block c <= x <= max_block c.

Definition nonempty_range (c : MergeTreePartInfo) : Prop := min_block c <= max_block c.

Lemma tiles_pairwise b cs e :
  tiles b cs e -> Forall nonempty_range cs ->
  pairwise_disjoint cs /\ Forall (fun c => b <= min_block c) cs.
Proof.
  intros Ht. induction Ht as [b|c cs e Ht IH]; intros Hcs; simpl; [done|].
  apply Forall_cons in Hcs as [Hc Hcs]. destruct (IH Hcs) as [Hp Hb]. unfold nonempty_range in *.
  split_and!; [|done|constructor; [lia|]]; (eapply Forall_impl; [exact Hb|]); simpl;
    unfold blocks_disjoint; intros; lia.
Qed.

Lemma covers_tiles b e cs :
  StronglySorted part_le cs -> (forall c d, c ∈ cs -> d ∈ cs -> partition_id c = partition_id d) ->
  Forall nonempty_range cs -> pairwise_disjoint cs -> b <= e -> covers_exactly b e cs ->
  tiles b cs e.
Proof.
  intros Hs. revert b. induction Hs as [|c cs Hs IH Hc]; intros b Hid Hne Hd Hbe Hcov.
  { destruct (proj1 (Hcov b)) as (c & Hc & _); [lia|]. by apply elem_of_nil in Hc. }
  apply Forall_cons in Hne as [Hnc Hne]. destruct Hd as [Hcd Hd]. unfold nonempty_range in Hnc.
  rewrite Forall_forall in Hc, Hcd.
  assert (Hin : forall d, d ∈ c :: cs -> nonempty_range d -> b <= min_block d <= e).
  { intros d Hd' Hnd. apply Hcov. exists d. split; [done|]. unfold nonempty_range in Hnd. lia. }
  assert (Hb : b = min_block c).
  { pose proof (Hin c (list_elem_of_here _ _) Hnc).
    destruct (proj1 (Hcov b)) as (d & [-> | Hd']%elem_of_cons & Hx); [lia|lia|].
    assert (min_block c <= min_block d); [|lia].
    apply part_le_min; [apply Hid; [constructor|by constructor]|by apply Hc]. }
  subst b.
  assert (Hlast : min_block c <= max_block c <= e).
  { apply Hcov. exists c. split; [constructor|lia]. }
  constructor.
  assert (Hafter : forall d, d ∈ cs -> nonempty_range d -> max_block c < min_block d).
  { intros d Hd' Hnd. pose proof (Hcd d Hd') as [?|?]; [done|].
    assert (min_block c <= min_block d).
    { apply part_le_min; [apply Hid; [constructor|by constructor]|by apply Hc]. }
    unfold nonempty_range in Hnd. lia. }
  rewrite Forall_forall in Hne.
  destruct (decide (max_block c + 1 <= e)) as [Hle|Hle].
  - apply IH; try done.
    + intros d d' ? ?. apply Hid; by constructor.
    + by rewrite Forall_forall.
    + intros x. split.
      * intros Hx. destruct (proj1 (Hcov x)) as (d & [-> | Hd']%elem_of_cons & Hxd); [lia|lia|eauto].
      * intros (d & Hd' & Hxd). pose proof (Hafter d Hd' (Hne d Hd')).
        assert (min_block c <= x <= e); [|lia]. apply Hcov. exists d. split; [by constructor|done].
  - destruct cs as [|d cs].
    + replace e with (max_block c + 1 - 1) by lia. constructor.
    + assert (Hd0 : d ∈ d :: cs) by constructor.
      pose proof (Hafter d Hd0 (Hne d Hd0)).
      assert (d ∈ c :: d :: cs) by (constructor; constructor).
      pose proof (Hin d H0 (Hne d Hd0)). lia.
Qed.

Lemma covered_loop_first first ss e :
  Forall (fun c => small_block (min_block c) /\ small_block (max_block c)) (first :: ss) ->
  covered_loop (min_block first - 1) (first :: ss) = Some e <-> tiles (min_block first) (first :: ss) e.
Proof.
  rewrite Forall_cons. intros [[Hmin Hmax] Hss]. simpl. unfold small_block in Hmin.
  rewrite swrap_small by (unfold in_signed; lia).
  rewrite (proj2 (Z.eqb_eq (min_block first - 1 + 1) (min_block first))) by lia. simpl.
  rewrite covered_loop_tiles by done. split; [by constructor|intros H; by inversion H].
Qed.

(** C36: [areAllBlockNumbersCovered] decides exact coverage: for candidate
    parts of one partition with non-empty block ranges, of block numbers between
    -2^62 and 2^62, it returns true exactly when their block ranges are pairwise
    disjoint and their union is the whole block range asked about. *)
Theorem areAllBlockNumbersCovered_exact (r : MergeTreePartInfo) (cs : list MergeTreePartInfo) :
  min_block r <= max_block r ->
  (forall c d, c ∈ cs -> d ∈ cs -> partition_id c = partition_id d) ->
  Forall nonempty_range cs ->
  Forall (fun c => small_block (min_block c) /\ small_block (max_block c)) cs ->
  areAllBlockNumbersCovered r cs = true <->
  pairwise_disjoint cs /\ covers_exactly (min_block r) (max_block r) cs.
Proof.
  intros Hr Hid Hne Hsm. unfold areAllBlockNumbersCovered.
  pose proof (merge_sort_Permutation part_le cs) as Hp.
  pose proof (StronglySorted_merge_sort part_le cs) as Hs.
  set (ss := merge_sort part_le cs) in *.
  assert (Hcov : covers_exactly (min_block r) (max_block r) cs <->
                 covers_exactly (min_block r) (max_block r) ss).
  { unfold covers_exactly. by setoid_rewrite Hp. }
  rewrite <- Hp in Hne, Hsm. rewrite Hcov, <- Hp. clear Hcov.
  assert (Hid' : forall c d, c ∈ ss -> d ∈ ss -> partition_id c = partition_id d).
  { intros c d. rewrite Hp. apply Hid. }
  clearbody ss. clear cs Hp Hid.
  destruct ss as [|first ss'] eqn:Ess.
  { split; [done|]. intros [_ Hc]. destruct (proj1 (Hc (min_block r))) as (c & Hc' & _); [lia|].
    by apply elem_of_nil in Hc'. }
  rewrite <- Ess in *. assert (Hfirst : small_block (min_block first)).
  { rewrite Forall_forall in Hsm. apply (Hsm first). rewrite Ess. constructor. }
  rewrite (swrap_small 64) by (unfold in_signed, small_block in *; lia).
  assert (Hloop : forall e, covered_loop (min_block first - 1) ss = Some e <-> tiles (min_block first) ss e).
  { intros e. rewrite Ess in Hsm |- *. by apply covered_loop_first. }
  split.
  - destruct (Z.eqb_spec (min_block first) (min_block r)) as [Em|]; simpl; [|done].
    destruct (covered_loop _ ss) as [e|]; [|done]. intros ->%Z.eqb_eq.
    pose proof (proj1 (Hloop _) eq_refl) as E. rewrite Em in E. split.
    + by destruct (tiles_pairwise _ _ _ E Hne).
    + destruct (tiles_covers _ _ _ E) as [_ Hx]; [exact Hne|exact Hx].
  - intros [Hd Hc]. assert (Ht : tiles (min_block r) ss (max_block r)) by by apply covers_tiles.
    assert (Em : min_block first = min_block r) by (rewrite Ess in Ht; by inversion Ht).
    rewrite Em, Z.eqb_refl. simpl. rewrite <- Em in Ht. apply Hloop in Ht. rewrite <- Em, Ht.
    apply Z.eqb_refl.
Qed.

Lemma areAllBlockNumbersCovered_exact_witness :
  let all := bytes_of "all" in
  pairwise_disjoint [make_part all 4 6 1 0; make_part all 1 3 2 0] /\
  covers_exactly 1 6 [make_part all 4 6 1 0; make_part all 1 3 2 0].
Proof.
  apply (areAllBlockNumbersCovered_exact (make_part (bytes_of "all") 1 6 0 0)); [simpl; lia| | | |].
  - intros c d [-> | [-> | []%elem_of_nil]%elem_of_cons]%elem_of_cons
               [-> | [-> | []%elem_of_nil]%elem_of_cons]%elem_of_cons; reflexivity.
  - repeat constructor; unfold nonempty_range; simpl; lia.
  - repeat constructor; simpl; lia.
  - vm_compute. reflexivity.
Defined.

(** * Detached names *)

Lemma strip_prefix_first r' r s :
  underscore ∉ r' -> underscore ∉ r ->
  strip_prefix r' (r ++ underscore :: s) = if bool_decide (r' = r) then Some s else None.
Proof.
  unfold strip_prefix. revert r. induction r' as [|c r' IH]; intros [|d r] H' H; simpl.
  - done.
  - apply not_elem_of_cons in H as [Hd _]. destruct (Z.eqb_spec d underscore); [congruence|done].
  - apply not_elem_of_cons in H' as [Hc _]. by rewrite !bool_decide_eq_false_2 by congruence.
  - apply not_elem_of_cons in H' as [_ H']. apply not_elem_of_cons in H as [_ H].
    specialize (IH r H' H). destruct (decide (c = d)) as [-> | Hcd].
    + rewrite (bool_decide_ext (d :: r' = d :: r) (r' = r)) by (split; congruence).
      rewrite <- IH. rewrite (bool_decide_ext (d :: take _ _ = d :: r') (take (length r') (r ++ underscore :: s) = r'))
        by (split; congruence). done.
    + by rewrite !bool_decide_eq_false_2 by congruence.
Qed.

Lemma try_reasons_first reasons r s fv :
  Forall (fun r => underscore ∉ r) reasons -> underscore ∉ r ->
  try_reasons reasons (r ++ underscore :: s) fv =
    if bool_decide (r ∈ reasons)
    then Some (detached_of (r ++ underscore :: s) r (tryParsePartName s fv)) else None.
Proof.
  intros Hr Hu. induction Hr as [|r' reasons Hr' Hr IH]; simpl; [done|].
  rewrite strip_prefix_first by done. destruct (decide (r' = r)) as [-> | Hne].
  - rewrite bool_decide_eq_true_2 by done. by rewrite bool_decide_eq_true_2 by constructor.
  - rewrite bool_decide_eq_false_2 by done. rewrite IH.
    rewrite (bool_decide_ext (r ∈ r' :: reasons) (r ∈ reasons)); [done|].
    rewrite elem_of_cons. split; [intros [->|?]; done|by right].
Qed.

Lemma DETACH_REASONS_chars : Forall (fun r => underscore ∉ r) DETACH_REASONS.
Proof. refine (bool_decide_eq_true_1 _ _). vm_compute. reflexivity. Qed.

(** Names of detached parts: a part detached for a known reason is
    recognised with that reason as prefix, and the name of a part whose
    partition id is not such a reason is recognised with an empty prefix. *)
Theorem parseDetachedPartName_names (p : MergeTreePartInfo) :
  wf_part p ->
  (forall reason, reason ∈ DETACH_REASONS ->
    parseDetachedPartName (reason ++ underscore :: getPartNameV1 p) 1 =
      {| part := p; dir_name := reason ++ underscore :: getPartNameV1 p; prefix := reason;
         valid_name := true |}) /\
  (partition_id p ∉ DETACH_REASONS ->
    parseDetachedPartName (getPartNameV1 p) 1 =
      {| part := p; dir_name := getPartNameV1 p; prefix := []; valid_name := true |}).
Proof.
  intros Hp. pose proof DETACH_REASONS_chars as Hall. unfold parseDetachedPartName. split.
  - intros reason Hin. rewrite try_reasons_first; [|done|rewrite Forall_forall in Hall; by apply Hall].
    rewrite bool_decide_eq_true_2 by done. by rewrite parse_print_name.
  - intros Hin. unfold getPartNameV1 at 1. rewrite try_reasons_first by (done || apply Hp).
    rewrite bool_decide_eq_false_2 by done. by rewrite parse_print_name.
Qed.

Lemma parseDetachedPartName_names_witness :
  parseDetachedPartName (bytes_of "broken-on-start" ++ underscore :: bytes_of "all_1_1_0") 1 =
    {| part := make_part (bytes_of "all") 1 1 0 0; dir_name := bytes_of "broken-on-start_all_1_1_0";
       prefix := bytes_of "broken-on-start"; valid_name := true |}.
Proof.
  apply (parseDetachedPartName_names (make_part (bytes_of "all") 1 1 0 0)).
  - split; try done. refine (bool_decide_eq_true_1 _ _). reflexivity.
  - do 4 apply list_elem_of_further. apply list_elem_of_here.
Defined.
