(* ===== verification/ActiveDataPartSet.v ===== *)
(** The set of active part names (src/Storages/MergeTree/ActiveDataPartSet.{h,cpp}):
    a map from parts to their names, ordered by partition and block range, in
    which no two parts overlap. *)
From S2P Require Import Prelude IntText BinaryIO PartInfo.

(** * State and operations *)

(** [std::map<MergeTreePartInfo, String>]: entries in key order. *)
Abbreviation entry := (MergeTreePartInfo * bytes)%type.
Abbreviation PartInfoToName := (list (MergeTreePartInfo * bytes)).

(** [ActiveDataPartSet] *)
Record ActiveDataPartSet := {
  format_version : Z;
  part_info_to_name : PartInfoToName }.

Definition with_parts (s : ActiveDataPartSet) (m : PartInfoToName) : ActiveDataPartSet :=
  {| format_version := format_version s; part_info_to_name := m |}.

Definition empty_set (format_version : Z) : ActiveDataPartSet :=
  {| format_version := format_version; part_info_to_name := [] |}.

(** An iterator is a position in the map: the entries before it, last one
    first, and the entries from it on. *)
Fixpoint seek (p : MergeTreePartInfo) (prevs nexts : PartInfoToName) : PartInfoToName * PartInfoToName :=
  match nexts with
  | e :: rest => if part_lt e.1 p then seek p (e :: prevs) rest else (prevs, nexts)
  | [] => (prevs, [])
  end.

(** [part_info_to_name.lower_bound(part_info)] *)
Definition lower_bound (p : MergeTreePartInfo) (m : PartInfoToName) : PartInfoToName * PartInfoToName :=
  seek p [] m.

(** [part_info_to_name.emplace(part_info, name)]: no effect if the key is there. *)
Fixpoint map_emplace (p : MergeTreePartInfo) (name : bytes) (m : PartInfoToName) : PartInfoToName :=
  match m with
  | [] => [(p, name)]
  | e :: rest =>
      if part_lt e.1 p then e :: map_emplace p name rest
      else if part_lt p e.1 then (p, name) :: m
      else m
  end.

(** [part_info_to_name.erase(part_info)] *)
Definition map_erase (p : MergeTreePartInfo) (m : PartInfoToName) : PartInfoToName :=
  List.filter (fun e => negb (part_eq e.1 p)) m.

Definition getContainingPartImpl (p : MergeTreePartInfo) (m : PartInfoToName) : option entry :=
  let '(prevs, nexts) := lower_bound p m in
  let previous :=
    match prevs with
    | e :: _ => if contains e.1 p then Some e else None
    | [] => None
    end in
  match nexts with
  | e :: _ => if contains e.1 p then Some e else previous
  | [] => previous
  end.

(** [AddPartOutcome] *)
Inductive AddPartOutcome := Added | HasCovering | HasIntersectingPart.

#[export] Instance AddPartOutcome_eq_dec : EqDecision AddPartOutcome.
Proof. solve_decision. Defined.

(** The loop to the left: the entries still before the iterator and the names
    pushed; [inr] when it met an intersecting part. *)
Fixpoint go_left (p : MergeTreePartInfo) (prevs : PartInfoToName) (replaced : list bytes)
  : (PartInfoToName * list bytes) + (PartInfoToName * list bytes) :=
  match prevs with
  | [] => inl ([], replaced)
  | e :: rest =>
      if negb (contains p e.1) then
        if negb (isDisjoint p e.1) then inr (prevs, replaced) else inl (prevs, replaced)
      else go_left p rest (replaced ++ [e.2])
  end.

(** The loop to the right. *)
Fixpoint go_right (p : MergeTreePartInfo) (nexts : PartInfoToName) (replaced : list bytes)
  : PartInfoToName * list bytes :=
  match nexts with
  | e :: rest => if contains p e.1 then go_right p rest (replaced ++ [e.2]) else (nexts, replaced)
  | [] => ([], replaced)
  end.

(** [addImpl]; [replaced] is the vector behind [out_replaced_parts].  The
    result is the outcome with the map and the vector as it leaves them. *)
Definition addImpl (p : MergeTreePartInfo) (name : bytes) (m : PartInfoToName) (replaced : list bytes)
  : AddPartOutcome * PartInfoToName * list bytes :=
  match getContainingPartImpl p m with
  | Some _ => (HasCovering, m, replaced)
  | None =>
      let '(prevs, nexts) := lower_bound p m in
      match go_left p prevs [] with
      | inr (prevs, replaced) => (HasIntersectingPart, rev prevs ++ nexts, replaced)
      | inl (prevs, replaced) =>
          let '(nexts, replaced) := go_right p nexts (rev replaced) in
          match nexts with
          | e :: _ =>
              if negb (isDisjoint p e.1) then (HasIntersectingPart, rev prevs ++ nexts, replaced)
              else (Added, map_emplace p name (rev prevs ++ nexts), replaced)
          | [] => (Added, map_emplace p name (rev prevs ++ nexts), replaced)
          end
      end
  end.

(** [add(part_info, name, out_replaced_parts)]: the set, the result, and the
    replaced names; the set may have changed when it throws. *)
Definition add (p : MergeTreePartInfo) (name : bytes) (s : ActiveDataPartSet) (replaced : list bytes)
  : ActiveDataPartSet * result bool * list bytes :=
  let '(outcome, m, replaced) := addImpl p name (part_info_to_name s) replaced in
  (with_parts s m,
   match outcome with
   | HasIntersectingPart => Throw LOGICAL_ERROR
   | Added => Ok true
   | HasCovering => Ok false
   end, replaced).

(** [add(name, out_replaced_parts)] *)
Definition add_name (name : bytes) (s : ActiveDataPartSet) (replaced : list bytes)
  : ActiveDataPartSet * result bool * list bytes :=
  match fromPartName name (format_version s) with
  | Throw e => (s, Throw e, replaced)
  | Ok p => add p name s replaced
  end.

(** [add(part_info, out_replaced_parts)] *)
Definition add_part (p : MergeTreePartInfo) (s : ActiveDataPartSet) (replaced : list bytes)
  : ActiveDataPartSet * result bool * list bytes :=
  match getPartNameAndCheckFormat p (format_version s) with
  | Throw e => (s, Throw e, replaced)
  | Ok name => add p name s replaced
  end.

Definition tryAddPart (p : MergeTreePartInfo) (s : ActiveDataPartSet)
  : ActiveDataPartSet * result AddPartOutcome :=
  match getPartNameAndCheckFormat p (format_version s) with
  | Throw e => (s, Throw e)
  | Ok name => let '(outcome, m, _) := addImpl p name (part_info_to_name s) [] in
               (with_parts s m, Ok outcome)
  end.

(** The constructor from a list of names. *)
Fixpoint add_names (names : list bytes) (s : ActiveDataPartSet) : result ActiveDataPartSet :=
  match names with
  | [] => Ok s
  | name :: names =>
      let '(s, r, _) := add_name name s [] in
      let! _ := r in add_names names s
  end.

Definition make_set (format_version : Z) (names : list bytes) : result ActiveDataPartSet :=
  add_names names (empty_set format_version).

(** [checkIntersectingParts]: the first loop goes left over covered parts. *)
Fixpoint check_left (p : MergeTreePartInfo) (prevs nexts : PartInfoToName)
  : result (PartInfoToName * PartInfoToName) :=
  match prevs with
  | [] => Ok ([], nexts)
  | e :: rest =>
      if negb (contains p e.1) then
        if negb (isDisjoint p e.1) then Throw LOGICAL_ERROR else Ok (prevs, nexts)
      else check_left p rest (e :: nexts)
  end.

(** The second one goes right over covered parts, and asserts that none is the part. *)
Fixpoint check_right (p : MergeTreePartInfo) (nexts : PartInfoToName) : result unit :=
  match nexts with
  | [] => Ok tt
  | e :: rest =>
      if contains p e.1 then if part_eq p e.1 then Throw ASSERTION_FAILED else check_right p rest
      else if negb (isDisjoint p e.1) then Throw LOGICAL_ERROR else Ok tt
  end.

Definition checkIntersectingParts (p : MergeTreePartInfo) (s : ActiveDataPartSet) : result unit :=
  let '(prevs, nexts) := lower_bound p (part_info_to_name s) in
  let! (_, nexts) := check_left p prevs nexts in
  check_right p nexts.

Definition checkIntersectingParts_name (name : bytes) (s : ActiveDataPartSet) : result unit :=
  let! p := fromPartName name (format_version s) in checkIntersectingParts p s.

Definition getContainingPart (p : MergeTreePartInfo) (s : ActiveDataPartSet) : bytes :=
  match getContainingPartImpl p (part_info_to_name s) with Some e => e.2 | None => [] end.

Definition getContainingPart_name (name : bytes) (s : ActiveDataPartSet) : result bytes :=
  let! p := fromPartName name (format_version s) in Ok (getContainingPart p s).

(** The loops of [getPartsCoveredByImpl]: the covered entries next to the
    starting point, or [None] when the neighbour contains the part. *)
Fixpoint covered_run (p : MergeTreePartInfo) (es : PartInfoToName) : option PartInfoToName :=
  match es with
  | [] => Some []
  | e :: rest =>
      if negb (contains p e.1) then if contains e.1 p then None else Some []
      else es ← covered_run p rest; Some (e :: es)
  end.

Definition getPartsCoveredByImpl (p : MergeTreePartInfo) (m : PartInfoToName) : PartInfoToName :=
  let '(prevs, nexts) := lower_bound p m in
  match covered_run p prevs with
  | None => []
  | Some before =>
      match covered_run p nexts with
      | None => []
      | Some after => rev before ++ after
      end
  end.

Definition getPartsCoveredBy (p : MergeTreePartInfo) (s : ActiveDataPartSet) : list bytes :=
  (getPartsCoveredByImpl p (part_info_to_name s)).*2.

Definition getPartInfosCoveredBy (p : MergeTreePartInfo) (s : ActiveDataPartSet)
  : list MergeTreePartInfo :=
  (getPartsCoveredByImpl p (part_info_to_name s)).*1.

(** [remove(part_info)] *)
Definition remove (p : MergeTreePartInfo) (s : ActiveDataPartSet) : ActiveDataPartSet * bool :=
  let m := map_erase p (part_info_to_name s) in
  (with_parts s m, (length m <? length (part_info_to_name s))%nat).

(** [remove(part_name)] *)
Definition remove_name (part_name : bytes) (s : ActiveDataPartSet) : ActiveDataPartSet * result bool :=
  match fromPartName part_name (format_version s) with
  | Throw e => (s, Throw e)
  | Ok p => let '(s, b) := remove p s in (s, Ok b)
  end.

(** The loop [for (part : parts_covered_by) result &= remove(part)]. *)
Fixpoint remove_names (names : list bytes) (s : ActiveDataPartSet) (acc : bool)
  : ActiveDataPartSet * result bool :=
  match names with
  | [] => (s, Ok acc)
  | name :: names =>
      match remove_name name s with
      | (s, Throw e) => (s, Throw e)
      | (s, Ok b) => remove_names names s (acc && b)
      end
  end.

Definition removePartAndCoveredParts (part_name : bytes) (s : ActiveDataPartSet)
  : ActiveDataPartSet * result bool :=
  match fromPartName part_name (format_version s) with
  | Throw e => (s, Throw e)
  | Ok p =>
      let parts_covered_by := getPartsCoveredBy p s in
      match remove_name part_name s with
      | (s, Throw e) => (s, Throw e)
      | (s, Ok b) => remove_names parts_covered_by s (true && b)
      end
  end.

Definition removePartsCoveredBy (part_name : bytes) (s : ActiveDataPartSet)
  : ActiveDataPartSet * result bool :=
  match fromPartName part_name (format_version s) with
  | Throw e => (s, Throw e)
  | Ok p =>
      remove_names (List.filter (fun part => negb (bool_decide (part = part_name))) (getPartsCoveredBy p s))
        s true
  end.

(** The loop of [getPartsWithLimit]. *)
Fixpoint parts_with_limit (limit : Z) (m : PartInfoToName) (res : list bytes) : list bytes :=
  match m with
  | [] => res
  | kv :: m =>
      let res := res ++ [kv.2] in
      if limit <=? Z.of_nat (length res) then res else parts_with_limit limit m res
  end.

Definition getPartsWithLimit (limit : Z) (s : ActiveDataPartSet) : list bytes :=
  parts_with_limit limit (part_info_to_name s) [].

Definition getParts (s : ActiveDataPartSet) : list bytes := (part_info_to_name s).*2.
Definition getPartInfos (s : ActiveDataPartSet) : list MergeTreePartInfo := (part_info_to_name s).*1.
Definition set_size (s : ActiveDataPartSet) : Z := Z.of_nat (length (part_info_to_name s)).
Definition clear (s : ActiveDataPartSet) : ActiveDataPartSet := with_parts s [].

(** * Invariant *)

(** [q] lies strictly after [p]: in a later partition, or after its blocks. *)
Definition before (p q : MergeTreePartInfo) : Prop :=
  bytes_compare (partition_id p) (partition_id q) = Lt \/
  partition_id p = partition_id q /\ max_block p < min_block q.

(** The map is strictly ordered and its parts do not overlap. *)
Record parts_inv (m : PartInfoToName) : Prop := {
  inv_sorted : StronglySorted before m.*1;
  inv_ranges : Forall nonempty_range m.*1 }.

Lemma bytes_compare_refl a : bytes_compare a a = Eq.
Proof. by apply bytes_compare_eq. Qed.

(** Partition order of [p <= q]. *)
Definition starts_before (p q : MergeTreePartInfo) : Prop :=
  bytes_compare (partition_id p) (partition_id q) = Lt \/
  partition_id p = partition_id q /\ min_block p <= min_block q.

Lemma not_lt_position p q : part_lt q p = false -> starts_before p q.
Proof.
  intros H. unfold starts_before. destruct (bytes_compare (partition_id p) (partition_id q)) eqn:E.
  - apply bytes_compare_eq in E. right. split; [done|].
    destruct (decide (min_block p <= min_block q)); [done|].
    assert (part_lt q p = true); [|congruence].
    apply part_lt_true, compare_parts_lt. right. split; [done|lia].
  - by left.
  - assert (part_lt q p = true); [|congruence]. apply part_lt_true, compare_parts_lt. left.
    by rewrite bytes_compare_antisym, E.
Qed.

Lemma lt_position p q : part_lt p q = true -> starts_before p q.
Proof. rewrite part_lt_true, compare_parts_lt. intros [?|[? ?]]; [by left|right]. split; [done|lia]. Qed.

Lemma bytes_compare_cycle a b : bytes_compare a b = Lt -> bytes_compare b a = Lt -> False.
Proof. intros H H'. rewrite bytes_compare_antisym, H in H'. done. Qed.

Lemma before_lt p q : nonempty_range p -> before p q -> part_lt p q = true.
Proof.
  unfold nonempty_range. intros Hp [H|[H H']]; apply part_lt_true, compare_parts_lt; [by left|].
  right. split; [done|lia].
Qed.

Lemma before_trans p q r : nonempty_range q -> before p q -> before q r -> before p r.
Proof.
  unfold before, nonempty_range. intros Hq [H1|[E1 H1]] [H2|[E2 H2]].
  - left. by eapply bytes_compare_lt_trans.
  - left. by rewrite <- E2.
  - left. by rewrite E1.
  - right. split; [congruence|lia].
Qed.

Lemma before_disjoint p q : before p q -> isDisjoint p q = true /\ isDisjoint q p = true.
Proof.
  intros H. rewrite (isDisjoint_sym q p). split; apply isDisjoint_true;
    (destruct H as [H|[_ H]]; [left; intros E; by rewrite E, bytes_compare_refl in H|lia]).
Qed.

(** Ordered and disjoint parts are separated. *)
Lemma lt_disjoint_before p q :
  nonempty_range p -> nonempty_range q -> part_lt p q = true -> isDisjoint q p = true -> before p q.
Proof.
  unfold before, nonempty_range. intros Hp Hq Hlt%lt_position Hd%isDisjoint_true.
  destruct Hlt as [?|[E ?]]; [by left|right]. split; [done|].
  destruct Hd as [?|Hd]; [congruence|lia].
Qed.

Lemma ge_disjoint_before p q :
  nonempty_range p -> nonempty_range q -> part_lt q p = false -> isDisjoint p q = true -> before p q.
Proof.
  unfold before, nonempty_range. intros Hp Hq Hlt%not_lt_position Hd%isDisjoint_true.
  destruct Hlt as [?|[E ?]]; [by left|right]. split; [done|].
  destruct Hd as [?|Hd]; [congruence|lia].
Qed.

Lemma disjoint_not_contains p q :
  nonempty_range q -> isDisjoint p q = true -> contains p q = false.
Proof.
  intros Hq Hd. destruct (contains p q) eqn:E; [|done].
  by rewrite (contains_not_disjoint p q Hq E) in Hd.
Qed.

(** Parts of one partition around a third one. *)
Lemma before_starts_same e x p :
  before e x -> starts_before x p -> partition_id e = partition_id p ->
  max_block e < min_block x /\ min_block x <= min_block p.
Proof.
  unfold before, starts_before. intros H1 H2 E. rewrite E in H1.
  destruct H1 as [H1|[E1 H1]], H2 as [H2|[E2 H2]]; try lia; exfalso.
  - eapply bytes_compare_cycle; eauto.
  - rewrite E2, bytes_compare_refl in H1. done.
  - rewrite E1, bytes_compare_refl in H2. done.
Qed.

Lemma starts_before_same p x e :
  starts_before p x -> before x e -> partition_id e = partition_id p ->
  min_block p <= min_block x /\ max_block x < min_block e.
Proof.
  unfold before, starts_before. intros H1 H2 E. rewrite E in H2.
  destruct H1 as [H1|[E1 H1]], H2 as [H2|[E2 H2]]; try lia; exfalso.
  - eapply bytes_compare_cycle; eauto.
  - rewrite E2, bytes_compare_refl in H1. done.
  - rewrite E1, bytes_compare_refl in H2. done.
Qed.

(** * The lower bound *)

Lemma seek_spec p prevs nexts l r :
  seek p prevs nexts = (l, r) -> rev l ++ r = rev prevs ++ nexts /\
  (Forall (fun e => part_lt e.1 p = true) prevs -> Forall (fun e => part_lt e.1 p = true) l) /\
  match r with e :: _ => part_lt e.1 p = false | [] => True end.
Proof.
  revert prevs. induction nexts as [|e nexts IH]; intros prevs; simpl.
  { intros [= <- <-]. done. }
  destruct (part_lt e.1 p) eqn:E.
  - intros (H1 & H2 & H3)%IH. simpl in H1. rewrite <- app_assoc in H1. split_and!; try done.
    intros Hp. apply H2. by constructor.
  - intros [= <- <-]. done.
Qed.

(** How [lower_bound] splits a map with the invariant. *)
Record split_at (p : MergeTreePartInfo) (m l r : PartInfoToName) : Prop := {
  split_eq : m = rev l ++ r;
  split_l : forall e, e ∈ l -> part_lt e.1 p = true;
  split_r : forall e, e ∈ r -> part_lt e.1 p = false;
  split_order : forall e f, e ∈ l -> f ∈ r -> before e.1 f.1;
  split_lsorted : StronglySorted (fun e f => before f.1 e.1) l;
  split_rsorted : StronglySorted (fun e f => before e.1 f.1) r;
  split_lrange : forall e, e ∈ l -> nonempty_range e.1;
  split_rrange : forall e, e ∈ r -> nonempty_range e.1 }.

Lemma StronglySorted_fmap_fst (m : PartInfoToName) :
  StronglySorted before m.*1 <-> StronglySorted (fun e f => before e.1 f.1) m.
Proof.
  induction m as [|e m IH]; simpl; [split; constructor|]. split.
  - intros [H1 H2]%StronglySorted_inv. constructor; [by apply IH|].
    rewrite Forall_fmap in H2. exact H2.
  - intros [H1 H2]%StronglySorted_inv. constructor; [by apply IH|]. rewrite Forall_fmap. exact H2.
Qed.


Lemma lower_bound_split p m :
  parts_inv m -> nonempty_range p ->
  exists l r, lower_bound p m = (l, r) /\ split_at p m l r.
Proof.
  intros [Hs Hr] Hp. unfold lower_bound. destruct (seek p [] m) as [l r] eqn:E.
  apply seek_spec in E as (Heq & Hl & Hhd). simpl in Heq. specialize (Hl (Forall_nil_2 _)).
  exists l, r. split; [done|].
  apply StronglySorted_fmap_fst in Hs. rewrite <- Heq in Hs.
  apply StronglySorted_app_inv in Hs as (Hsl & Hsr & Hlr).
  rewrite <- Heq, Forall_fmap in Hr. apply Forall_app in Hr as [Hrl Hrr].
  rewrite Forall_forall in Hl, Hrl, Hrr.
  assert (Hrl' : forall e, e ∈ l -> nonempty_range e.1).
  { intros e He. apply Hrl. by apply elem_of_rev. }
  split; try done.
  - intros e He. destruct r as [|f r]; [by apply elem_of_nil in He|].
    apply elem_of_cons in He as [-> | He]; [done|].
    apply StronglySorted_inv in Hsr as [_ Hf]. rewrite Forall_forall in Hf.
    destruct (part_lt e.1 p) eqn:E; [|done].
    assert (part_lt f.1 p = true); [|congruence]. eapply part_lt_trans; [|exact E].
    apply before_lt; [apply Hrr; constructor|by apply Hf].
  - intros e f He Hf. apply Hlr; [by apply elem_of_rev|done].
  - exact (proj1 (StronglySorted_rev _ _) Hsl).
Qed.

(** What is known of the neighbours of a part. *)
Lemma split_contains_left p m l r e :
  nonempty_range p -> split_at p m l r -> e ∈ l -> contains e.1 p = true ->
  exists l', l = e :: l'.
Proof.
  unfold nonempty_range. intros Hp [_ Hl _ _ Hls _ Hlr _] He Hc.
  destruct l as [|x l]; [by apply elem_of_nil in He|].
  apply elem_of_cons in He as [-> | He]; [by exists l|]. exfalso.
  apply StronglySorted_inv in Hls as [_ Hx]. rewrite Forall_forall in Hx. specialize (Hx e He).
  pose proof (lt_position _ _ (Hl x (list_elem_of_here _ _))) as Hxp.
  apply contains_true in Hc as (Eid & Hmin & Hmax & _).
  pose proof (before_starts_same _ _ _ Hx Hxp Eid). lia.
Qed.

Lemma split_contains_right p m l r e :
  nonempty_range p -> split_at p m l r -> e ∈ r -> contains e.1 p = true ->
  exists r', r = e :: r'.
Proof.
  unfold nonempty_range. intros Hp [_ _ Hr _ _ Hrs _ Hrr] He Hc.
  destruct r as [|x r]; [by apply elem_of_nil in He|].
  apply elem_of_cons in He as [-> | He]; [by exists r|]. exfalso.
  apply StronglySorted_inv in Hrs as [_ Hx]. rewrite Forall_forall in Hx. specialize (Hx e He).
  pose proof (not_lt_position _ _ (Hr x (list_elem_of_here _ _))) as Hxp.
  apply contains_true in Hc as (Eid & Hmin & Hmax & _).
  pose proof (starts_before_same _ _ _ Hxp Hx Eid).
  pose proof (Hrr x (list_elem_of_here _ _)). unfold nonempty_range in *. lia.
Qed.

Lemma split_elem p m l r e : split_at p m l r -> e ∈ m <-> e ∈ l \/ e ∈ r.
Proof. intros [-> _ _ _ _ _ _ _]. by rewrite elem_of_app, elem_of_rev. Qed.

(** The neighbours decide whether the set contains a covering part. *)
Lemma getContainingPartImpl_spec p m :
  parts_inv m -> nonempty_range p ->
  (forall e, getContainingPartImpl p m = Some e -> e ∈ m /\ contains e.1 p = true) /\
  (getContainingPartImpl p m = None -> forall e, e ∈ m -> contains e.1 p = false).
Proof.
  intros Hm Hp. destruct (lower_bound_split p m Hm Hp) as (l & r & E & Hsp).
  unfold getContainingPartImpl. rewrite E. setoid_rewrite (split_elem p m l r); [|done..].
  split.
  - intros e. destruct r as [|x r].
    + destruct l as [|y l]; [done|]. destruct (contains y.1 p) eqn:Ey; [|done].
      intros [= <-]. split; [left; constructor|done].
    + destruct (contains x.1 p) eqn:Ex.
      * intros [= <-]. split; [right; constructor|done].
      * destruct l as [|y l]; [done|]. destruct (contains y.1 p) eqn:Ey; [|done].
        intros [= <-]. split; [left; constructor|done].
  - intros Hnone e He. destruct (contains e.1 p) eqn:Ec; [exfalso|done].
    destruct He as [He|He].
    + destruct (split_contains_left p m l r e Hp Hsp He Ec) as [l' ->]. rewrite Ec in Hnone.
      destruct r as [|x r]; [done|]. by destruct (contains x.1 p).
    + destruct (split_contains_right p m l r e Hp Hsp He Ec) as [r' ->]. by rewrite Ec in Hnone.
Qed.

(** * Adding a part *)

Definition covered_by (p : MergeTreePartInfo) (e : entry) : Prop := contains p e.1 = true.

(** The loop to the left erases a run of covered parts; what it leaves lies
    before the part, unless it stopped at an intersecting part. *)
Lemma go_left_spec p l acc :
  nonempty_range p ->
  StronglySorted (fun e f : entry => before f.1 e.1) l ->
  (forall e, e ∈ l -> part_lt e.1 p = true) -> (forall e, e ∈ l -> nonempty_range e.1) ->
  exists k1 k2, l = k1 ++ k2 /\ Forall (covered_by p) k1 /\
  ((go_left p l acc = inl (k2, acc ++ k1.*2) /\ Forall (fun e => before e.1 p) k2) \/
   (exists e rest, k2 = e :: rest /\ go_left p l acc = inr (k2, acc ++ k1.*2) /\
      contains p e.1 = false /\ isDisjoint p e.1 = false)).
Proof.
  intros Hp. revert acc. induction l as [|e l IH]; intros acc Hs Hlt Hr.
  { exists [], []. simpl. rewrite app_nil_r. split_and!; [done|constructor|left; split; [done|constructor]]. }
  apply StronglySorted_inv in Hs as [Hs He]. simpl.
  destruct (contains p e.1) eqn:Ec; simpl.
  - destruct (IH (acc ++ [e.2]) Hs) as (k1 & k2 & -> & Hk1 & H).
    + intros f Hf. apply Hlt. by constructor.
    + intros f Hf. apply Hr. by constructor.
    + exists (e :: k1), k2. rewrite <- app_assoc in H. split_and!; [done|by constructor|exact H].
  - exists [], (e :: l). simpl. rewrite app_nil_r. split_and!; [done|constructor|].
    destruct (isDisjoint p e.1) eqn:Ed; simpl; [left|right; by exists e, l].
    assert (before e.1 p) as Hep.
    { apply lt_disjoint_before; auto using list_elem_of_here. }
    split; [done|]. constructor; [done|].
    rewrite Forall_forall in He |- *. intros f Hf. eapply before_trans; [|by apply He|exact Hep].
    apply Hr. constructor.
Qed.

Lemma go_right_spec p r acc :
  exists k1 k2, r = k1 ++ k2 /\ Forall (covered_by p) k1 /\
  go_right p r acc = (k2, acc ++ k1.*2) /\
  match k2 with e :: _ => contains p e.1 = false | [] => True end.
Proof.
  revert acc. induction r as [|e r IH]; intros acc; simpl.
  { exists [], []. simpl. rewrite app_nil_r. split_and!; by try constructor. }
  destruct (contains p e.1) eqn:Ec.
  - destruct (IH (acc ++ [e.2])) as (k1 & k2 & -> & Hk1 & H & Hhd).
    exists (e :: k1), k2. rewrite <- app_assoc in H. split_and!; [done|by constructor|done|done].
  - exists [], (e :: r). simpl. rewrite app_nil_r. split_and!; by try constructor.
Qed.

(** After the run of covered parts, disjointness of the next part is
    disjointness of all the following ones. *)
Lemma right_of_disjoint p r :
  nonempty_range p -> StronglySorted (fun e f : entry => before e.1 f.1) r ->
  (forall e, e ∈ r -> part_lt e.1 p = false) -> (forall e, e ∈ r -> nonempty_range e.1) ->
  match r with e :: _ => isDisjoint p e.1 = true | [] => True end ->
  Forall (fun e => before p e.1) r.
Proof.
  intros Hp Hs Hge Hr Hd. destruct r as [|e r]; [constructor|].
  apply StronglySorted_inv in Hs as [_ He].
  assert (before p e.1) as Hpe.
  { apply ge_disjoint_before; auto using list_elem_of_here. }
  constructor; [done|]. rewrite Forall_forall in He |- *. intros f Hf.
  eapply before_trans; [|exact Hpe|by apply He]. apply Hr. constructor.
Qed.

(** [emplace] at the place the loops found. *)
Lemma map_emplace_between p name l r :
  nonempty_range p -> Forall (fun e : entry => nonempty_range e.1) l ->
  Forall (fun e => before e.1 p) l -> Forall (fun e => before p e.1) r ->
  map_emplace p name (l ++ r) = l ++ (p, name) :: r.
Proof.
  intros Hp Hrl Hl Hr. induction Hl as [|e l He Hl IH]; simpl.
  - destruct Hr as [|e r He Hr]; [done|]. simpl.
    pose proof (before_lt _ _ Hp He) as Hlt. rewrite Hlt.
    destruct (part_lt e.1 p) eqn:E; [|done].
    pose proof (part_lt_trans _ _ _ Hlt E) as Hirr. by rewrite part_lt_irrefl in Hirr.
  - apply Forall_cons in Hrl as [Hre Hrl]. rewrite (before_lt _ _ Hre He), IH; done.
Qed.

Lemma filter_all {A} (f : A -> bool) (l : list A) : Forall (fun x => f x = true) l -> List.filter f l = l.
Proof. induction 1 as [|x l Hx _ IH]; simpl; [done|]. by rewrite Hx, IH. Qed.

Lemma filter_none {A} (f : A -> bool) (l : list A) : Forall (fun x => f x = false) l -> List.filter f l = [].
Proof. induction 1 as [|x l Hx _ IH]; simpl; [done|]. by rewrite Hx. Qed.

(** The invariant of a map taken apart and put together. *)
Lemma parts_inv_app l r :
  parts_inv (l ++ r) <->
  parts_inv l /\ parts_inv r /\ (forall e f, e ∈ l -> f ∈ r -> before e.1 f.1).
Proof.
  split.
  - intros [Hs Hr]. rewrite StronglySorted_fmap_fst in Hs.
    apply StronglySorted_app_inv in Hs as (H1 & H2 & H3).
    rewrite fmap_app in Hr. apply Forall_app in Hr as [Hr1 Hr2].
    split_and!; [split; [by apply StronglySorted_fmap_fst|done].. |done].
  - intros ([H1 Hr1] & [H2 Hr2] & H3). split; [|rewrite fmap_app; by apply Forall_app_2].
    rewrite StronglySorted_fmap_fst in *. by apply StronglySorted_app_intro.
Qed.

Lemma parts_inv_singleton e : nonempty_range e.1 -> parts_inv [e].
Proof. intros H. split; simpl; repeat constructor; done. Qed.

(** What [addImpl] promises, against the set of parts alone. *)
Definition add_contract (p : MergeTreePartInfo) (name : bytes) (m : PartInfoToName) (replaced : list bytes)
    (outcome : AddPartOutcome) (m' : PartInfoToName) (replaced' : list bytes) : Prop :=
  match outcome with
  | HasCovering =>
      (exists e, e ∈ m /\ contains e.1 p = true) /\ m' = m /\ replaced' = replaced
  | HasIntersectingPart =>
      (forall e, e ∈ m -> contains e.1 p = false) /\
      (exists e, e ∈ m' /\ contains p e.1 = false /\ isDisjoint p e.1 = false) /\
      (forall e, e ∈ m' -> e ∈ m) /\
      (forall e, e ∈ m -> contains p e.1 = false -> e ∈ m')
  | Added =>
      (forall e, e ∈ m -> contains e.1 p = false) /\
      (forall e, e ∈ m -> contains p e.1 = true \/ isDisjoint p e.1 = true) /\
      (exists l r, m' = l ++ (p, name) :: r /\
         List.filter (fun e : entry => negb (contains p e.1)) m = l ++ r) /\
      replaced' = (List.filter (fun e : entry => contains p e.1) m).*2
  end.

(** The map around a run of covered parts. *)
Lemma covered_run_filter p l1 k1 k2 r2 :
  Forall (covered_by p) k1 -> Forall (covered_by p) k2 ->
  Forall (fun e => contains p e.1 = false) l1 -> Forall (fun e => contains p e.1 = false) r2 ->
  List.filter (fun e : entry => contains p e.1) (l1 ++ (k1 ++ k2) ++ r2) = k1 ++ k2 /\
  List.filter (fun e : entry => negb (contains p e.1)) (l1 ++ (k1 ++ k2) ++ r2) = l1 ++ r2.
Proof.
  intros H1 H2 Hl Hr. assert (Hk : Forall (covered_by p) (k1 ++ k2)) by by apply Forall_app_2.
  rewrite !List.filter_app. split.
  - rewrite (filter_none _ l1 Hl), (filter_none _ r2 Hr), app_nil_r, <- List.filter_app.
    by rewrite (filter_all _ _ Hk).
  - rewrite (filter_all _ l1), (filter_all _ r2), <- List.filter_app, (filter_none _ (k1 ++ k2)).
    + done.
    + eapply Forall_impl; [exact Hk|]. intros e He. unfold covered_by in He. by rewrite He.
    + eapply Forall_impl; [exact Hr|]. intros e He. simpl in He. by rewrite He.
    + eapply Forall_impl; [exact Hl|]. intros e He. simpl in He. by rewrite He.
Qed.

Lemma before_not_contains_l p (l : PartInfoToName) :
  Forall (fun e : entry => nonempty_range e.1) l -> Forall (fun e => before e.1 p) l ->
  Forall (fun e => isDisjoint p e.1 = true /\ contains p e.1 = false) l.
Proof.
  rewrite !Forall_forall. intros Hr Hb e He.
  destruct (before_disjoint _ _ (Hb e He)) as [_ Hd]. split; [done|].
  apply disjoint_not_contains; [by apply Hr|done].
Qed.

Lemma before_not_contains_r p (r : PartInfoToName) :
  Forall (fun e : entry => nonempty_range e.1) r -> Forall (fun e => before p e.1) r ->
  Forall (fun e => isDisjoint p e.1 = true /\ contains p e.1 = false) r.
Proof.
  rewrite !Forall_forall. intros Hr Hb e He.
  destruct (before_disjoint _ _ (Hb e He)) as [Hd _]. split; [done|].
  apply disjoint_not_contains; [by apply Hr|done].
Qed.

(** The run of covered parts between what precedes and what follows. *)
Record found_place (p : MergeTreePartInfo) (m l k r : PartInfoToName) : Prop := {
  place_eq : m = l ++ k ++ r;
  place_covered : Forall (covered_by p) k;
  place_left : Forall (fun e => before e.1 p) l;
  place_right : Forall (fun e => before p e.1) r }.

Lemma parts_inv_middle l k r : parts_inv (l ++ k ++ r) -> parts_inv (l ++ r).
Proof.
  rewrite !parts_inv_app. intros (H1 & (H2 & H3 & H4) & H5). split_and!; [done..|].
  intros e f He Hf. apply H5; [done|]. apply elem_of_app. by right.
Qed.

Lemma parts_inv_ranges m : parts_inv m -> Forall (fun e : entry => nonempty_range e.1) m.
Proof. intros [_ H]. by rewrite Forall_fmap in H. Qed.

Lemma place_inserted p name m l k r :
  nonempty_range p -> parts_inv m -> found_place p m l k r ->
  map_emplace p name (l ++ r) = l ++ (p, name) :: r /\ parts_inv (l ++ (p, name) :: r) /\
  (forall e, e ∈ m -> contains p e.1 = true \/ isDisjoint p e.1 = true) /\
  List.filter (fun e : entry => contains p e.1) m = k /\
  List.filter (fun e : entry => negb (contains p e.1)) m = l ++ r.
Proof.
  intros Hp Hm [-> Hk Hl Hr]. pose proof (parts_inv_middle _ _ _ Hm) as Hlr.
  pose proof (parts_inv_ranges _ Hlr) as Hrange. apply Forall_app in Hrange as [Hrl Hrr].
  pose proof (before_not_contains_l p l Hrl Hl) as Hnl.
  pose proof (before_not_contains_r p r Hrr Hr) as Hnr.
  destruct (covered_run_filter p l k [] r) as [Hf1 Hf2]; [done|constructor| | |].
  { eapply Forall_impl; [exact Hnl|]. by intros ? []. }
  { eapply Forall_impl; [exact Hnr|]. by intros ? []. }
  rewrite app_nil_r in Hf1, Hf2. split_and!; try done.
  - by apply map_emplace_between.
  - apply parts_inv_app in Hlr as (H1 & H2 & H3). apply (parts_inv_app l ((p, name) :: r)).
    rewrite Forall_forall in Hl, Hr. split_and!; [done| |].
    + apply (parts_inv_app [(p, name)] r). split_and!; [by apply parts_inv_singleton|done|].
      intros e f [-> | []%elem_of_nil]%elem_of_cons Hf. by apply Hr.
    + intros e f He [-> | Hf]%elem_of_cons; [by apply Hl|by apply H3].
  - rewrite Forall_forall in Hk, Hnl, Hnr. intros e. rewrite !elem_of_app.
    intros [He|[He|He]]; [right; by apply Hnl|left; by apply Hk|right; by apply Hnr].
Qed.

(** Erasing a run of covered parts keeps the invariant and all other parts. *)
Lemma erase_run p m l k r :
  parts_inv m -> m = l ++ k ++ r -> Forall (covered_by p) k ->
  parts_inv (l ++ r) /\ (forall e, e ∈ l ++ r -> e ∈ m) /\
  (forall e, e ∈ m -> contains p e.1 = false -> e ∈ l ++ r).
Proof.
  intros Hm -> Hk. rewrite Forall_forall in Hk. split_and!.
  - by eapply parts_inv_middle.
  - intros e. rewrite !elem_of_app. tauto.
  - intros e. rewrite !elem_of_app. intros [He|[He|He]] Hc; [by left| |by right].
    apply Hk in He. unfold covered_by in He. congruence.
Qed.

Lemma addImpl_intersects p name m l k r e replaced replaced' :
  parts_inv m -> (forall e, e ∈ m -> contains e.1 p = false) ->
  m = l ++ k ++ r -> Forall (covered_by p) k ->
  e ∈ l ++ r -> contains p e.1 = false -> isDisjoint p e.1 = false ->
  parts_inv (l ++ r) /\ add_contract p name m replaced HasIntersectingPart (l ++ r) replaced'.
Proof.
  intros Hm Hnc Heq Hk He Hc Hd. destruct (erase_run p m l k r Hm Heq Hk) as (H1 & H2 & H3).
  split; [done|]. split_and!; [done|by exists e|done|done].
Qed.

Lemma addImpl_contract p name m replaced outcome m' replaced' :
  parts_inv m -> nonempty_range p ->
  addImpl p name m replaced = (outcome, m', replaced') ->
  parts_inv m' /\ add_contract p name m replaced outcome m' replaced'.
Proof.
  intros Hm Hp. destruct (getContainingPartImpl_spec p m Hm Hp) as [Hsome Hnone]. unfold addImpl.
  destruct (getContainingPartImpl p m) as [e|].
  { intros [= <- <- <-]. split; [done|]. split_and!; [|done|done]. exists e. by apply Hsome. }
  specialize (Hnone eq_refl). clear Hsome.
  destruct (lower_bound_split p m Hm Hp) as (l & r & -> & [Heq Hl Hr _ Hls Hrs Hlr Hrr]).
  destruct (go_left_spec p l [] Hp Hls Hl Hlr) as (k1 & l2 & -> & Hk1 & Hcase).
  rewrite rev_app_distr, <- app_assoc in Heq.
  assert (Hk1' : Forall (covered_by p) (rev k1)) by by apply Forall_rev.
  destruct Hcase as [[-> Hl2] | (e & rest & El2 & -> & He1 & He2)].
  2:{ intros [= <- <- <-]. eapply (addImpl_intersects p name m (rev l2) (rev k1) r e); try done.
      apply elem_of_app. left. apply elem_of_rev. rewrite El2. constructor. }
  destruct (go_right_spec p r (rev ([] ++ k1.*2))) as (k2 & r2 & -> & Hk2 & -> & Hhd).
  assert (Heq' : m = rev l2 ++ (rev k1 ++ k2) ++ r2) by by rewrite Heq, <- !app_assoc.
  assert (Hk : Forall (covered_by p) (rev k1 ++ k2)) by by apply Forall_app_2.
  assert (Hnames : rev ([] ++ k1.*2) ++ k2.*2 = (rev k1 ++ k2).*2).
  { rewrite fmap_app. simpl. f_equal. apply eq_sym, map_rev. }
  assert (Hadd : match r2 with e :: _ => isDisjoint p e.1 = true | [] => True end ->
    (Added, map_emplace p name (rev l2 ++ r2), rev ([] ++ k1.*2) ++ k2.*2) = (outcome, m', replaced') ->
    parts_inv m' /\ add_contract p name m replaced outcome m' replaced').
  { intros Hd. assert (Hplace : found_place p m (rev l2) (rev k1 ++ k2) r2).
    { split; [done|done|by apply Forall_rev|].
      apply StronglySorted_app_inv in Hrs as (_ & Hrs & _).
      apply right_of_disjoint; [done|done|..|done]; intros e He;
        [apply Hr|apply Hrr]; apply elem_of_app; by right. }
    destruct (place_inserted p name m _ _ _ Hp Hm Hplace) as (-> & Hinv & Hdis & Hf1 & Hf2).
    intros [= <- <- <-]. split; [done|]. unfold add_contract. rewrite Hf1, Hf2.
    split_and!; [done|done|by exists (rev l2), r2|done]. }
  destruct r2 as [|e r2]; [by apply Hadd|].
  destruct (isDisjoint p e.1) eqn:Ed; simpl; [by apply Hadd|].
  intros [= <- <- <-]. eapply (addImpl_intersects p name m (rev l2) (rev k1 ++ k2) (e :: r2) e); try done.
  apply elem_of_app. right. constructor.
Qed.

(** * Checking and querying *)

Lemma check_left_run p k l nexts :
  Forall (covered_by p) k -> check_left p (k ++ l) nexts = check_left p l (rev k ++ nexts).
Proof.
  intros Hk. revert nexts. induction Hk as [|e k He Hk IH]; intros nexts; simpl; [done|].
  unfold covered_by in He. rewrite He. simpl. by rewrite IH, <- app_assoc.
Qed.

(** Over covered parts it only looks for the part itself. *)
Lemma check_right_run p k r : Forall (covered_by p) k ->
  check_right p (k ++ r) = if existsb (fun e => part_eq p e.1) k then Throw ASSERTION_FAILED else check_right p r.
Proof.
  induction 1 as [|e k He _ IH]; simpl; [done|]. unfold covered_by in He. rewrite He. by destruct (part_eq p e.1).
Qed.

(** [e] overlaps [p] without being replaced by it. *)
Definition intersects (p : MergeTreePartInfo) (e : entry) : Prop :=
  contains p e.1 = false /\ isDisjoint p e.1 = false.

(** A part that is the part itself. *)
Definition same_part (p : MergeTreePartInfo) (e : entry) : Prop := part_eq p e.1 = true.

Lemma same_part_covered p e : same_part p e -> contains p e.1 = true.
Proof. unfold same_part. rewrite part_eq_true, compare_parts_eq, contains_true. intros (-> & -> & -> & -> & ->). repeat split; try lia; tauto. Qed.

Lemma same_part_overlaps p e : nonempty_range p -> same_part p e -> isDisjoint p e.1 = false.
Proof.
  intros Hp Hs. apply contains_not_disjoint; [|by apply same_part_covered]. revert Hs. unfold same_part, nonempty_range in *.
  rewrite part_eq_true, compare_parts_eq. intros (_ & <- & <- & _). done.
Qed.

Lemma no_same_part p k : existsb (fun e => part_eq p e.1) k = false -> forall e, e ∈ k -> ~ same_part p e.
Proof.
  intros Hk e He Hs. assert (existsb (fun e => part_eq p e.1) k = true); [|congruence].
  apply existsb_exists. exists e. by rewrite <- list_elem_of_In.
Qed.

Lemma some_same_part p k : existsb (fun e => part_eq p e.1) k = true -> exists e, e ∈ k /\ same_part p e.
Proof. intros (e & He & Hs)%existsb_exists. exists e. by rewrite list_elem_of_In. Qed.

Lemma checkIntersectingParts_spec p s :
  parts_inv (part_info_to_name s) -> nonempty_range p ->
  (checkIntersectingParts p s = Ok tt /\ forall e, e ∈ part_info_to_name s -> ~ intersects p e /\ ~ same_part p e) \/
  (checkIntersectingParts p s = Throw LOGICAL_ERROR /\ exists e, e ∈ part_info_to_name s /\ intersects p e) \/
  (checkIntersectingParts p s = Throw ASSERTION_FAILED /\ exists e, e ∈ part_info_to_name s /\ same_part p e).
Proof.
  intros Hm Hp. unfold checkIntersectingParts. set (m := part_info_to_name s) in *.
  destruct (lower_bound_split p m Hm Hp) as (l & r & -> & [Heq Hl Hr _ Hls Hrs Hlr Hrr]).
  destruct (go_left_spec p l [] Hp Hls Hl Hlr) as (k1 & l2 & -> & Hk1 & Hcase).
  rewrite rev_app_distr, <- app_assoc in Heq.
  assert (Hk1' : Forall (covered_by p) (rev k1)) by by apply Forall_rev.
  rewrite check_left_run by done.
  destruct Hcase as [[_ Hl2] | (e & rest & -> & _ & He1 & He2)].
  2:{ right. left. simpl. rewrite He1, He2. simpl. split; [done|]. exists e. split; [|done].
      rewrite Heq. rewrite elem_of_app, elem_of_rev. left. constructor. }
  assert (Hl2' : Forall (fun e => isDisjoint p e.1 = true /\ contains p e.1 = false) l2).
  { apply before_not_contains_l; [|done]. apply Forall_forall. intros e He. apply Hlr.
    apply elem_of_app. by right. }
  assert (check_left p l2 (rev k1 ++ r) = Ok (l2, rev k1 ++ r)) as ->.
  { destruct Hl2' as [|e l2 [He1 He2] _]; simpl; [done|]. by rewrite He1, He2. }
  cbn [rbind]. destruct (go_right_spec p r []) as (k2 & r2 & -> & Hk2 & _ & Hhd). rewrite !check_right_run by done.
  assert (Hfound : forall k, k ⊆ m -> existsb (fun e => part_eq p e.1) k = true -> exists e, e ∈ m /\ same_part p e).
  { intros k Hk (e & He & Hs)%some_same_part. exists e. split; [by apply Hk|done]. }
  destruct (existsb _ (rev k1)) eqn:E1; [right; right; split; [done|]; apply (Hfound (rev k1)); [rewrite Heq; set_solver|done]|].
  destruct (existsb _ k2) eqn:E2; [right; right; split; [done|]; apply (Hfound k2); [rewrite Heq; set_solver|done]|].
  assert (Hcov : forall e, e ∈ m -> e ∈ r2 \/ ~ intersects p e /\ ~ same_part p e).
  { rewrite Forall_forall in Hk1, Hk2, Hl2'. intros e. rewrite Heq, !elem_of_app, !elem_of_rev.
    intros [He|[He|[He|He]]]; [right..|by left]; unfold intersects.
    - destruct (Hl2' e He). split; [intros []; congruence|intros Hs%same_part_covered; congruence].
    - specialize (Hk1 e He). unfold covered_by in Hk1. split; [intros []; congruence|]. apply (no_same_part p (rev k1) E1). by rewrite elem_of_rev.
    - specialize (Hk2 e He). unfold covered_by in Hk2. split; [intros []; congruence|]. by apply (no_same_part p k2 E2). }
  destruct r2 as [|e r2]; simpl.
  { left. split; [done|]. intros e He. by destruct (Hcov e He) as [[]%elem_of_nil|]. }
  rewrite Hhd. destruct (isDisjoint p e.1) eqn:Ed; simpl.
  - left. split; [done|]. apply StronglySorted_app_inv in Hrs as (_ & Hrs & _).
    assert (Hbef : Forall (fun e => before p e.1) (e :: r2)).
    { apply right_of_disjoint; [done|done|..|done]; intros f Hf; [apply Hr|apply Hrr]; apply elem_of_app; by right. }
    rewrite Forall_forall in Hbef. intros f Hf. destruct (Hcov f Hf) as [Hf'|Hn]; [|done]. unfold intersects.
    destruct (before_disjoint _ _ (Hbef f Hf')). split; [intros []; congruence|]. intros Hs. by rewrite (same_part_overlaps p f Hp Hs) in *.
  - right. left. split; [done|]. exists e. split; [|done]. rewrite Heq, !elem_of_app. right. right. right. constructor.
Qed.

(** A run of covered parts, when what follows an uncovered part is uncovered. *)
Lemma covered_run_spec p es :
  (forall k1 x k2, es = k1 ++ x :: k2 -> contains p x.1 = false -> Forall (fun e => contains p e.1 = false) k2) ->
  match covered_run p es with
  | Some k => k = List.filter (fun e : entry => contains p e.1) es
  | None => exists e, e ∈ es /\ contains e.1 p = true /\ contains p e.1 = false
  end.
Proof.
  induction es as [|e es IH]; intros H; simpl; [done|].
  destruct (contains p e.1) eqn:Ec; simpl.
  - specialize (IH (fun k1 x k2 E => H (e :: k1) x k2 (f_equal (cons e) E))).
    destruct (covered_run p es) as [k|]; simpl; [by rewrite IH|].
    destruct IH as (f & Hf & Hc). exists f. split; [by constructor|done].
  - destruct (contains e.1 p) eqn:Ec'; [exists e; split; [constructor|done]|].
    symmetry. apply filter_none, (H [] e es); done.
Qed.

Lemma parts_inv_cases m e f :
  parts_inv m -> e ∈ m -> f ∈ m -> e = f \/ before e.1 f.1 \/ before f.1 e.1.
Proof.
  intros [Hs _] He Hf. apply StronglySorted_fmap_fst in Hs.
  induction Hs as [|x m _ IH Hx]; [by apply elem_of_nil in He|]. rewrite Forall_forall in Hx.
  apply elem_of_cons in He as [-> | He], Hf as [-> | Hf]; auto.
Qed.

(** The other parts are disjoint from a part of the set. *)
Lemma same_or_intersecting p m : parts_inv m -> nonempty_range p ->
  forall e f, e ∈ m -> f ∈ m -> same_part p e -> ~ intersects p f.
Proof.
  intros Hm Hp e f He Hf Hs [Hc Hd]. destruct (parts_inv_cases m e f Hm He Hf) as [->|Hb].
  - by rewrite (same_part_covered p f Hs) in Hc.
  - assert (isDisjoint p f.1 = true); [|congruence]. unfold same_part in Hs. rewrite part_eq_true, compare_parts_eq in Hs.
    destruct Hs as (E1 & E2 & E3 & _). rewrite isDisjoint_true, E1, E2, E3, <- isDisjoint_true.
    destruct Hb as [Hb|Hb]; by destruct (before_disjoint _ _ Hb).
Qed.

(** A part that covers another one is that part, or intersects it. *)
Lemma covering_part p e : nonempty_range p -> contains e.1 p = true -> same_part p e \/ intersects p e.
Proof.
  intros Hp Hc. destruct (contains p e.1) eqn:E; [left; by apply contains_antisym|right]. split; [done|].
  rewrite isDisjoint_sym. by apply contains_not_disjoint.
Qed.

(** No part of the map is covered when one of them strictly covers. *)
Lemma strict_cover_filter p m e :
  parts_inv m -> e ∈ m -> contains e.1 p = true -> contains p e.1 = false ->
  List.filter (fun e : entry => contains p e.1) m = [].
Proof.
  intros Hm He Hc Hn. apply filter_none, Forall_forall. intros f Hf.
  destruct (contains p f.1) eqn:Ef; [exfalso|done].
  pose proof (contains_trans _ _ _ Hc Ef) as Hef.
  pose proof (parts_inv_ranges m Hm) as Hr. rewrite Forall_forall in Hr.
  pose proof (contains_not_disjoint _ _ (Hr f Hf) Hef) as Hd.
  destruct (parts_inv_cases m e f Hm He Hf) as [-> |[Hb|Hb]]; [congruence| |];
    destruct (before_disjoint _ _ Hb); congruence.
Qed.

(** On the side of [x] away from [p], nothing is covered by [p]. *)
Lemma beyond_uncovered p x f :
  nonempty_range x -> nonempty_range f ->
  isDisjoint p x = true \/ contains x p = true ->
  (before f x /\ (isDisjoint p x = true -> before x p)) \/ (before x f /\ (isDisjoint p x = true -> before p x)) ->
  contains p f = false.
Proof.
  intros Hx Hf Hrel Hside.
  assert (Hxf : isDisjoint x f = true) by (destruct Hside as [[Hb _]|[Hb _]]; apply before_disjoint in Hb; tauto).
  destruct Hrel as [Hd|Hc].
  - apply disjoint_not_contains; [done|].
    destruct Hside as [[Hb Hb']|[Hb Hb']]; specialize (Hb' Hd).
    + by destruct (before_disjoint f p (before_trans _ _ _ Hx Hb Hb')).
    + by destruct (before_disjoint p f (before_trans _ _ _ Hx Hb' Hb)).
  - destruct (contains p f) eqn:E; [|done].
    pose proof (contains_not_disjoint _ _ Hf (contains_trans _ _ _ Hc E)). congruence.
Qed.

Lemma left_uncovered p m l r :
  nonempty_range p -> split_at p m l r ->
  (forall e, e ∈ m -> contains p e.1 = true \/ isDisjoint p e.1 = true \/ contains e.1 p = true) ->
  forall k1 x k2, l = k1 ++ x :: k2 -> contains p x.1 = false -> Forall (fun e => contains p e.1 = false) k2.
Proof.
  intros Hp Hsp Hall k1 x k2 E Hn. apply Forall_forall. intros f Hf.
  pose proof (fun e => split_elem p m l r e Hsp) as Hel. destruct Hsp as [_ Hl _ _ Hls _ Hlr _].
  assert (x ∈ l /\ f ∈ l) as [Hx Hf'] by (rewrite E, !elem_of_app, !elem_of_cons; auto).
  rewrite E in Hls. apply StronglySorted_app_inv in Hls as (_ & Hls & _).
  apply StronglySorted_inv in Hls as [_ Hxf]. rewrite Forall_forall in Hxf.
  apply (beyond_uncovered p x.1 f.1); [by apply Hlr..| |left].
  - destruct (Hall x); [apply Hel; by left|congruence|done].
  - split; [by apply Hxf|]. intros Hd. apply lt_disjoint_before; auto.
Qed.

Lemma right_uncovered p m l r :
  nonempty_range p -> split_at p m l r ->
  (forall e, e ∈ m -> contains p e.1 = true \/ isDisjoint p e.1 = true \/ contains e.1 p = true) ->
  forall k1 x k2, r = k1 ++ x :: k2 -> contains p x.1 = false -> Forall (fun e => contains p e.1 = false) k2.
Proof.
  intros Hp Hsp Hall k1 x k2 E Hn. apply Forall_forall. intros f Hf.
  pose proof (fun e => split_elem p m l r e Hsp) as Hel. destruct Hsp as [_ _ Hr _ _ Hrs _ Hrr].
  assert (x ∈ r /\ f ∈ r) as [Hx Hf'] by (rewrite E, !elem_of_app, !elem_of_cons; auto).
  rewrite E in Hrs. apply StronglySorted_app_inv in Hrs as (_ & Hrs & _).
  apply StronglySorted_inv in Hrs as [_ Hxf]. rewrite Forall_forall in Hxf.
  apply (beyond_uncovered p x.1 f.1); [by apply Hrr..| |right].
  - destruct (Hall x); [apply Hel; by right|congruence|done].
  - split; [by apply Hxf|]. intros Hd. apply ge_disjoint_before; auto.
Qed.

Lemma filter_rev' {A} (f : A -> bool) (l : list A) : List.filter f (rev l) = rev (List.filter f l).
Proof.
  induction l as [|x l IH]; simpl; [done|]. rewrite List.filter_app, IH. simpl.
  destruct (f x); simpl; [done|]. by rewrite app_nil_r.
Qed.

Lemma getPartsCoveredByImpl_spec p m :
  parts_inv m -> nonempty_range p ->
  (forall e, e ∈ m -> contains p e.1 = true \/ isDisjoint p e.1 = true \/ contains e.1 p = true) ->
  getPartsCoveredByImpl p m = List.filter (fun e : entry => contains p e.1) m.
Proof.
  intros Hm Hp Hall. unfold getPartsCoveredByImpl.
  destruct (lower_bound_split p m Hm Hp) as (l & r & -> & Hsp).
  pose proof (covered_run_spec p l (left_uncovered p m l r Hp Hsp Hall)) as Hcl.
  pose proof (covered_run_spec p r (right_uncovered p m l r Hp Hsp Hall)) as Hcr.
  pose proof (fun e => split_elem p m l r e Hsp) as Hel.
  assert (Hstrict : forall e, e ∈ m -> contains e.1 p = true /\ contains p e.1 = false ->
     [] = List.filter (fun e : entry => contains p e.1) m).
  { intros e ? []. symmetry. by eapply strict_cover_filter. }
  destruct (covered_run p l) as [kl|], (covered_run p r) as [kr|].
  - rewrite (split_eq _ _ _ _ Hsp), List.filter_app, filter_rev'. by subst.
  - destruct Hcr as (e & He & Hc). apply (Hstrict e); [apply Hel; by right|done].
  - destruct Hcl as (e & He & Hc). apply (Hstrict e); [apply Hel; by left|done].
  - destruct Hcl as (e & He & Hc). apply (Hstrict e); [apply Hel; by left|done].
Qed.

(** * Removing parts *)

Lemma part_eq_refl p : part_eq p p = true.
Proof. apply part_eq_true, compare_parts_eq. done. Qed.

Lemma part_eq_contains p e f : part_eq e f = true -> contains p f = true -> contains p e = true.
Proof.
  rewrite part_eq_true, compare_parts_eq, !contains_true. intros (-> & -> & -> & -> & ->). done.
Qed.

Lemma parts_inv_filter f m : parts_inv m -> parts_inv (List.filter f m).
Proof.
  intros [Hs Hr]. rewrite StronglySorted_fmap_fst in Hs. rewrite Forall_fmap in Hr.
  split; [rewrite StronglySorted_fmap_fst|rewrite Forall_fmap].
  - induction Hs as [|e m Hs IH He]; simpl; [constructor|].
    apply Forall_cons in Hr as [_ Hr]. destruct (f e); [constructor|]; auto.
    rewrite Forall_forall in He |- *. intros x Hx. apply He.
    apply list_elem_of_In, filter_In in Hx as [Hx _]. by apply list_elem_of_In.
  - rewrite Forall_forall in Hr |- *. intros x Hx. apply Hr.
    apply list_elem_of_In, filter_In in Hx as [Hx _]. by apply list_elem_of_In.
Qed.

(** The names of the map are those of its parts. *)
Definition names_inv (fv : Z) (m : PartInfoToName) : Prop :=
  Forall (fun e => fromPartName e.2 fv = Ok e.1) m.

(** One removal after the other. *)
Definition erase_all (es m : PartInfoToName) : PartInfoToName :=
  List.filter (fun e : entry => negb (existsb (fun f : entry => part_eq e.1 f.1) es)) m.

Lemma filter_filter {A} (f g : A -> bool) l :
  List.filter g (List.filter f l) = List.filter (fun x => f x && g x) l.
Proof. induction l as [|x l IH]; simpl; [done|]. destruct (f x); simpl; [destruct (g x)|]; by rewrite IH. Qed.

Lemma remove_names_erases es s acc :
  names_inv (format_version s) es ->
  exists b : bool, remove_names (es.*2) s acc = (with_parts s (erase_all es (part_info_to_name s)), Ok b) /\
  (acc = false -> b = false) /\
  (forall f, f ∈ es -> (forall e, e ∈ part_info_to_name s -> part_eq e.1 f.1 = false) -> b = false).
Proof.
  revert s acc. induction es as [|e es IH]; intros s acc Hn.
  { exists acc. split_and!; [|done|by intros f []%elem_of_nil]. simpl. unfold erase_all. simpl.
    rewrite (filter_all _ (part_info_to_name s)) by (apply Forall_forall; done). by destruct s. }
  apply Forall_cons in Hn as [He Hn]. rewrite fmap_cons. cbn [remove_names]. unfold remove_name, remove. rewrite He. cbv beta iota zeta.
  set (m := part_info_to_name s).
  destruct (IH (with_parts s (map_erase e.1 m)) (acc && (length (map_erase e.1 m) <? length m)%nat) Hn)
    as (b & -> & Hacc & Habs).
  exists b. split_and!.
  - f_equal. unfold with_parts, erase_all, map_erase. simpl. f_equal. rewrite filter_filter. apply filter_ext.
    intros x. by rewrite negb_orb.
  - intros ->. by apply Hacc.
  - intros f [-> | Hf]%elem_of_cons Hno.
    + apply Hacc. apply andb_false_iff. right. apply Nat.ltb_ge.
      unfold map_erase. rewrite filter_all; [done|]. apply Forall_forall. intros x Hx.
      by rewrite (Hno x Hx).
    + apply (Habs f Hf). simpl. intros x Hx. apply Hno.
      apply list_elem_of_In, filter_In in Hx as [Hx _]. by apply list_elem_of_In.
Qed.

Lemma filter_fst (f : MergeTreePartInfo -> bool) (m : PartInfoToName) :
  (List.filter (fun e : entry => f e.1) m).*1 = List.filter f m.*1.
Proof.
  induction m as [|e m IH]; [done|]. rewrite fmap_cons. cbn [List.filter].
  destruct (f e.1); rewrite ?fmap_cons, IH; done.
Qed.

Lemma part_eq_trans p q r : part_eq p q = true -> part_eq q r = true -> part_eq p r = true.
Proof. rewrite !part_eq_true, !compare_parts_eq. naive_solver congruence. Qed.

Lemma names_inv_filter fv f m : names_inv fv m -> names_inv fv (List.filter f m).
Proof.
  unfold names_inv. rewrite !Forall_forall. intros H e He. apply H.
  apply list_elem_of_In, filter_In in He as [He _]. by apply list_elem_of_In.
Qed.

(** Erasing the part and the covered parts by key leaves the uncovered ones. *)
Lemma erase_covered p m :
  erase_all (List.filter (fun e : entry => contains p e.1) m) (map_erase p m) =
  List.filter (fun e : entry => negb (contains p e.1)) m.
Proof.
  unfold erase_all, map_erase. rewrite filter_filter. apply filter_ext_in. intros e He.
  destruct (contains p e.1) eqn:Ec; simpl.
  - apply andb_false_iff. right. apply negb_false_iff, existsb_exists. exists e.
    rewrite filter_In. split; [done|]. apply part_eq_refl.
  - apply andb_true_iff. split; apply negb_true_iff.
    + destruct (part_eq e.1 p) eqn:E; [|done].
      by rewrite (part_eq_contains p _ _ E (contains_refl p)) in Ec.
    + destruct (existsb _ _) eqn:E; [|done]. apply existsb_exists in E as (f & Hf & E).
      apply filter_In in Hf as [_ Hf]. by rewrite (part_eq_contains p _ _ E Hf) in Ec.
Qed.

(** * Histories *)

(** The invariant of a set: ordered disjoint parts under their own names. *)
Record set_inv (s : ActiveDataPartSet) : Prop := {
  set_parts : parts_inv (part_info_to_name s);
  set_names : names_inv (format_version s) (part_info_to_name s) }.

(** One call of a modifying method, with the state it leaves behind: the state
    after a throw is the one the caller sees after catching. *)
Inductive set_step : ActiveDataPartSet -> ActiveDataPartSet -> Prop :=
| step_add_name name s replaced : set_step s (add_name name s replaced).1.1
| step_add p name s replaced :
    fromPartName name (format_version s) = Ok p -> set_step s (add p name s replaced).1.1
| step_add_part p s replaced : wf_part p -> set_step s (add_part p s replaced).1.1
| step_tryAddPart p s : wf_part p -> set_step s (tryAddPart p s).1
| step_remove p s : set_step s (remove p s).1
| step_remove_name name s : set_step s (remove_name name s).1
| step_removePartAndCoveredParts name s : set_step s (removePartAndCoveredParts name s).1
| step_removePartsCoveredBy name s : set_step s (removePartsCoveredBy name s).1
| step_clear s : set_step s (clear s).

Inductive set_reachable (fv : Z) : ActiveDataPartSet -> Prop :=
| reach_empty : set_reachable fv (empty_set fv)
| reach_step s s' : set_reachable fv s -> set_step s s' -> set_reachable fv s'.

Lemma fromPartName_range name fv p : fromPartName name fv = Ok p -> nonempty_range p.
Proof.
  unfold fromPartName. destruct (tryParsePartName name fv) as [q|] eqn:E; [|done].
  intros [= <-]. apply tryParsePartName_wf in E. apply E.
Qed.

(** The names of the map after [addImpl]. *)
Lemma add_contract_names p name m replaced o m' replaced' fv :
  add_contract p name m replaced o m' replaced' -> fromPartName name fv = Ok p ->
  names_inv fv m -> names_inv fv m'.
Proof.
  unfold names_inv. rewrite !Forall_forall. intros Hc Hp Hm e He. destruct o; simpl in Hc.
  - destruct Hc as (_ & _ & (l & r & -> & Hf) & _).
    rewrite elem_of_app, elem_of_cons in He.
    assert (Hcase : e = (p, name) \/ e ∈ l ++ r) by (rewrite elem_of_app; tauto).
    destruct Hcase as [-> | He']; [done|]. rewrite <- Hf in He'.
    apply list_elem_of_In, filter_In in He' as [He' _]. apply Hm. by apply list_elem_of_In.
  - destruct Hc as (_ & -> & _). by apply Hm.
  - destruct Hc as (_ & _ & Hsub & _). by apply Hm, Hsub.
Qed.

Lemma addImpl_set_inv p name s replaced o m' replaced' :
  set_inv s -> fromPartName name (format_version s) = Ok p ->
  addImpl p name (part_info_to_name s) replaced = (o, m', replaced') -> set_inv (with_parts s m').
Proof.
  intros [Hm Hn] Hp E. pose proof (fromPartName_range _ _ _ Hp) as Hr.
  destruct (addImpl_contract _ _ _ _ _ _ _ Hm Hr E) as [Hinv Hc].
  split; [done|]. by eapply add_contract_names.
Qed.

Lemma add_set_inv p name s replaced :
  set_inv s -> fromPartName name (format_version s) = Ok p -> set_inv (add p name s replaced).1.1.
Proof.
  intros Hs Hp. unfold add. destruct (addImpl _ _ _ _) as [[o m'] rep] eqn:E. simpl.
  by eapply addImpl_set_inv.
Qed.

Lemma name_of_part p fv name :
  wf_part p -> getPartNameAndCheckFormat p fv = Ok name -> fromPartName name fv = Ok p.
Proof.
  unfold getPartNameAndCheckFormat. intros Hp. case_eq (fv =? MERGE_TREE_DATA_MIN_FORMAT_VERSION_WITH_CUSTOM_PARTITIONING); [|done].
  intros ->%Z.eqb_eq [= <-]. unfold fromPartName. by rewrite parse_print_name.
Qed.

Lemma remove_set_inv p s : set_inv s -> set_inv (remove p s).1.
Proof.
  intros [Hm Hn]. split; simpl; [by apply parts_inv_filter|].
  unfold names_inv in *. rewrite Forall_forall in Hn |- *. intros e He. apply Hn.
  apply list_elem_of_In, filter_In in He as [He _]. by apply list_elem_of_In.
Qed.

Lemma remove_name_set_inv name s : set_inv s -> set_inv (remove_name name s).1.
Proof.
  intros Hs. unfold remove_name. destruct (fromPartName name (format_version s)) as [p|]; [|done].
  pose proof (remove_set_inv p s Hs) as H. by destruct (remove p s).
Qed.

Lemma remove_names_set_inv names s acc : set_inv s -> set_inv (remove_names names s acc).1.
Proof.
  revert s acc. induction names as [|name names IH]; intros s acc Hs; simpl; [done|].
  pose proof (remove_name_set_inv name s Hs) as H. destruct (remove_name name s) as [s' [b|]]; auto.
Qed.

Lemma set_step_inv s s' : set_step s s' -> set_inv s -> set_inv s'.
Proof.
  intros Hstep Hs. destruct Hstep as [name s rep|p name s rep Hp|p s rep Hp|p s Hp|p s|name s|name s|name s|s].
  - unfold add_name. destruct (fromPartName name (format_version s)) as [p|] eqn:E; [|done].
    by apply add_set_inv.
  - by apply add_set_inv.
  - unfold add_part. destruct (getPartNameAndCheckFormat p _) as [name|] eqn:E; [|done].
    apply add_set_inv; [done|]. by apply name_of_part.
  - unfold tryAddPart. destruct (getPartNameAndCheckFormat p _) as [name|] eqn:E; [|done].
    destruct (addImpl _ _ _ _) as [[o m'] rep] eqn:E'. simpl.
    eapply addImpl_set_inv; [done| |exact E']. by apply name_of_part.
  - by apply remove_set_inv.
  - by apply remove_name_set_inv.
  - unfold removePartAndCoveredParts. destruct (fromPartName name _) as [p|]; [|done].
    pose proof (remove_name_set_inv name s Hs) as H. destruct (remove_name name s) as [s' [b|]]; [|done].
    by apply remove_names_set_inv.
  - unfold removePartsCoveredBy. destruct (fromPartName name _) as [p|]; [|done].
    by apply remove_names_set_inv.
  - split; constructor; simpl; constructor.
Qed.

Lemma empty_set_inv fv : set_inv (empty_set fv).
Proof. split; constructor; simpl; constructor. Qed.

Lemma reachable_set_inv fv s : set_reachable fv s -> set_inv s.
Proof. induction 1 as [|s s' _ IH Hstep]; [apply empty_set_inv|by eapply set_step_inv]. Qed.

(** * Properties *)

Definition sample_parts : list bytes :=
  [bytes_of "all_1_1_0"; bytes_of "all_2_2_0"; bytes_of "all_3_5_1"; bytes_of "old_1_9_2"].

Definition sample_set : ActiveDataPartSet :=
  match make_set 1 sample_parts with Ok s => s | Throw _ => empty_set 1 end.

Lemma add_names_reachable fv names s s' :
  set_reachable fv s -> add_names names s = Ok s' -> set_reachable fv s'.
Proof.
  revert s. induction names as [|name names IH]; intros s Hs; simpl.
  { by intros [= <-]. }
  pose proof (reach_step fv s _ Hs (step_add_name name s [])) as Hs'.
  destruct (add_name name s []) as [[s1 [b|]] rep]; simpl in *; [|done]. by apply IH.
Qed.

Lemma sample_set_reachable : set_reachable 1 sample_set.
Proof.
  assert (E : make_set 1 sample_parts = Ok sample_set) by (vm_compute; reflexivity).
  exact (add_names_reachable 1 sample_parts (empty_set 1) sample_set (reach_empty 1) E).
Qed.

Definition sample_part (name : string) : MergeTreePartInfo :=
  match fromPartName (bytes_of name) 1 with Ok p => p | Throw _ => make_part [] 0 0 0 0 end.

(** C4: adding a part.  In a set of ordered, disjoint parts, [addImpl]
    reports a covering part exactly when some part of the set contains the new
    one, and then changes nothing; it reports an intersection only if some part
    overlaps without being covered, keeping every part that is not covered;
    otherwise the new set is the old one with all the covered parts, and only
    those, replaced by the new part, and their names are returned in order.
    The set stays ordered and disjoint in every case. *)
Theorem addImpl_meets_contract (p : MergeTreePartInfo) (name : bytes) (m : PartInfoToName)
    (replaced : list bytes) :
  parts_inv m -> nonempty_range p ->
  let '(outcome, m', replaced') := addImpl p name m replaced in
  parts_inv m' /\ add_contract p name m replaced outcome m' replaced'.
Proof.
  intros Hm Hp. destruct (addImpl p name m replaced) as [[o m'] replaced'] eqn:E.
  by apply addImpl_contract.
Qed.

Lemma addImpl_meets_contract_witness :
  let '(outcome, m', replaced') :=
    addImpl (sample_part "all_1_2_1") (bytes_of "all_1_2_1") (part_info_to_name sample_set) [] in
  outcome = Added /\ parts_inv m' /\
  add_contract (sample_part "all_1_2_1") (bytes_of "all_1_2_1") (part_info_to_name sample_set) []
    outcome m' replaced'.
Proof.
  assert (Hr : nonempty_range (sample_part "all_1_2_1")) by (vm_compute; discriminate).
  pose proof (addImpl_meets_contract (sample_part "all_1_2_1") (bytes_of "all_1_2_1")
    (part_info_to_name sample_set) [] (set_parts _ (reachable_set_inv 1 _ sample_set_reachable)) Hr) as H.
  assert (E : (addImpl (sample_part "all_1_2_1") (bytes_of "all_1_2_1") (part_info_to_name sample_set) []).1.1
    = Added) by (vm_compute; reflexivity).
  destruct (addImpl _ _ _ _) as [[o m'] r']. split; [exact E|exact H].
Defined.

(** C9: whatever calls are made on an empty set - additions that succeed, are
    covered or throw, removals, clearing - its parts stay sorted, no two of
    them overlap, and every name is the name of its part. *)
Theorem reachable_sets_disjoint (fv : Z) (s : ActiveDataPartSet) :
  set_reachable fv s ->
  StronglySorted before (getPartInfos s) /\
  (forall p q, p ∈ getPartInfos s -> q ∈ getPartInfos s -> p = q \/ isDisjoint p q = true) /\
  Forall2 (fun name p => fromPartName name (format_version s) = Ok p) (getParts s) (getPartInfos s).
Proof.
  intros [Hm Hn]%reachable_set_inv. unfold getPartInfos, getParts. split_and!; [apply Hm| |].
  - intros p q (e & -> & He)%list_elem_of_fmap (f & -> & Hf)%list_elem_of_fmap.
    destruct (parts_inv_cases _ e f Hm He Hf) as [-> |[Hb|Hb]]; [by left|right..];
      by destruct (before_disjoint _ _ Hb).
  - apply Forall2_fmap, Forall_Forall2_diag, Hn.
Qed.

Lemma reachable_sets_disjoint_witness :
  StronglySorted before (getPartInfos sample_set) /\
  (forall p q, p ∈ getPartInfos sample_set -> q ∈ getPartInfos sample_set ->
     p = q \/ isDisjoint p q = true) /\
  Forall2 (fun name p => fromPartName name (format_version sample_set) = Ok p)
    (getParts sample_set) (getPartInfos sample_set).
Proof. exact (reachable_sets_disjoint 1 sample_set sample_set_reachable). Defined.

(** Looking only at the two neighbours of a part finds the part that
    covers it, whenever the set has one; there is at most one. *)
Theorem getContainingPartImpl_exact (p : MergeTreePartInfo) (m : PartInfoToName) :
  parts_inv m -> nonempty_range p ->
  forall e, getContainingPartImpl p m = Some e <-> e ∈ m /\ contains e.1 p = true.
Proof.
  intros Hm Hp e. destruct (getContainingPartImpl_spec p m Hm Hp) as [Hsome Hnone].
  split; [apply Hsome|]. intros [He Hc].
  destruct (getContainingPartImpl p m) as [f|]; [|rewrite (Hnone eq_refl e He) in Hc; done].
  destruct (Hsome f eq_refl) as [Hf Hfc]. f_equal.
  assert (Hov : isDisjoint e.1 f.1 = false).
  { unfold nonempty_range in Hp. apply contains_true in Hc, Hfc. apply isDisjoint_false.
    destruct Hc as (-> & ? & ? & _), Hfc as (-> & ? & ? & _). split; [done|lia]. }
  destruct (parts_inv_cases m e f Hm He Hf) as [-> |[Hb|Hb]]; [done| |];
    destruct (before_disjoint _ _ Hb); congruence.
Qed.

Lemma getContainingPartImpl_exact_witness :
  exists e, getContainingPartImpl (sample_part "all_4_4_0") (part_info_to_name sample_set) = Some e /\
    e ∈ part_info_to_name sample_set /\ contains e.1 (sample_part "all_4_4_0") = true.
Proof.
  assert (Hr : nonempty_range (sample_part "all_4_4_0")) by (vm_compute; discriminate).
  pose proof (getContainingPartImpl_exact (sample_part "all_4_4_0") (part_info_to_name sample_set)
    (set_parts _ (reachable_set_inv 1 _ sample_set_reachable)) Hr) as H.
  exists (sample_part "all_3_5_1", bytes_of "all_3_5_1").
  assert (E : getContainingPartImpl (sample_part "all_4_4_0") (part_info_to_name sample_set)
    = Some (sample_part "all_3_5_1", bytes_of "all_3_5_1")) by (vm_compute; reflexivity).
  split; [exact E|]. exact (proj1 (H _) E).
Defined.

(** C37: when no part of the set overlaps a part only partially,
    [getPartsCoveredBy] returns the names of all the parts it covers, in order. *)
Theorem getPartsCoveredBy_exact (p : MergeTreePartInfo) (s : ActiveDataPartSet) :
  parts_inv (part_info_to_name s) -> nonempty_range p ->
  (forall q, q ∈ getPartInfos s -> contains p q = true \/ isDisjoint p q = true \/ contains q p = true) ->
  getPartsCoveredBy p s = (List.filter (fun e : entry => contains p e.1) (part_info_to_name s)).*2 /\
  getPartInfosCoveredBy p s = List.filter (contains p) (getPartInfos s).
Proof.
  intros Hm Hp Hall. unfold getPartsCoveredBy, getPartInfosCoveredBy.
  rewrite (getPartsCoveredByImpl_spec p _ Hm Hp).
  2:{ intros e He. apply Hall. by apply list_elem_of_fmap_2. }
  split; [done|]. apply filter_fst.
Qed.

Lemma getPartsCoveredBy_exact_witness :
  getPartsCoveredBy (sample_part "all_1_5_2") sample_set =
    [bytes_of "all_1_1_0"; bytes_of "all_2_2_0"; bytes_of "all_3_5_1"] /\
  getPartsCoveredBy (sample_part "all_1_5_2") sample_set =
    (List.filter (fun e : entry => contains (sample_part "all_1_5_2") e.1) (part_info_to_name sample_set)).*2.
Proof.
  assert (Hr : nonempty_range (sample_part "all_1_5_2")) by (vm_compute; discriminate).
  assert (Hall : Forall (fun q => contains (sample_part "all_1_5_2") q = true \/
      isDisjoint (sample_part "all_1_5_2") q = true \/ contains q (sample_part "all_1_5_2") = true)
      (getPartInfos sample_set)).
  { vm_compute. repeat (constructor; [auto|]). constructor. }
  rewrite Forall_forall in Hall. split; [vm_compute; reflexivity|].
  exact (proj1 (getPartsCoveredBy_exact (sample_part "all_1_5_2") sample_set
    (set_parts _ (reachable_set_inv 1 _ sample_set_reachable)) Hr Hall)).
Defined.

(** C40: [checkIntersectingParts] throws exactly when some part of the set overlaps the
    part without being covered by it (so also when one covers it and is another part);
    its assertion fails exactly when the part itself is in the set; and when it returns,
    [add] of the part succeeds. *)
Theorem checkIntersectingParts_exact (p : MergeTreePartInfo) (name : bytes) (s : ActiveDataPartSet) :
  parts_inv (part_info_to_name s) -> nonempty_range p ->
  (checkIntersectingParts p s = Throw LOGICAL_ERROR <->
     exists e, e ∈ part_info_to_name s /\ intersects p e) /\
  (checkIntersectingParts p s = Throw ASSERTION_FAILED <->
     exists e, e ∈ part_info_to_name s /\ part_eq p e.1 = true) /\
  (checkIntersectingParts p s = Ok tt \/ checkIntersectingParts p s = Throw LOGICAL_ERROR \/
   checkIntersectingParts p s = Throw ASSERTION_FAILED) /\
  (checkIntersectingParts p s = Ok tt -> (add p name s []).1.2 = Ok true).
Proof.
  intros Hm Hp. pose proof (same_or_intersecting p _ Hm Hp) as Hexcl.
  destruct (checkIntersectingParts_spec p s Hm Hp) as [[-> Hno]|[[-> (e & He & Hi)]|[-> (e & He & Hs)]]].
  - split_and!; [split; [done|]; intros (e & He & Hi); by destruct (Hno e He)..|by left|].
    intros _. unfold add. destruct (addImpl p name _ []) as [[o m'] rep] eqn:E.
    destruct (addImpl_contract _ _ _ _ _ _ _ Hm Hp E) as [_ Hc]. destruct o; simpl in *; [done| |].
    + destruct Hc as ((e & He & Hc) & _). destruct (Hno e He) as [Hn1 Hn2]. destruct (covering_part p e Hp Hc); contradiction.
    + destruct Hc as (_ & (e & He & Hi) & Hsub & _). by destruct (Hno e (Hsub e He)).
  - split_and!; [split; [by exists e|done]| |by right; left|done]. split; [done|]. intros (f & Hf & Hs). by destruct (Hexcl f e Hf He Hs).
  - split_and!; [|split; [by exists e|done]|by right; right|done]. split; [done|]. intros (f & Hf & Hi). by destruct (Hexcl e f He Hf Hs).
Qed.

Lemma checkIntersectingParts_exact_witness :
  (exists e, e ∈ part_info_to_name sample_set /\ intersects (sample_part "all_2_4_1") e) /\
  (exists e, e ∈ part_info_to_name sample_set /\ intersects (sample_part "all_4_4_0") e) /\
  (exists e, e ∈ part_info_to_name sample_set /\ part_eq (sample_part "all_3_5_1") e.1 = true) /\
  (add (sample_part "all_6_6_0") (bytes_of "all_6_6_0") sample_set []).1.2 = Ok true.
Proof.
  pose proof (set_parts _ (reachable_set_inv 1 _ sample_set_reachable)) as Hm. split_and!.
  - apply (proj1 (checkIntersectingParts_exact (sample_part "all_2_4_1") [] sample_set Hm ltac:(vm_compute; discriminate))). vm_compute. reflexivity.
  - apply (proj1 (checkIntersectingParts_exact (sample_part "all_4_4_0") [] sample_set Hm ltac:(vm_compute; discriminate))). vm_compute. reflexivity.
  - apply (proj1 (proj2 (checkIntersectingParts_exact (sample_part "all_3_5_1") [] sample_set Hm ltac:(vm_compute; discriminate)))). vm_compute. reflexivity.
  - apply (proj2 (proj2 (proj2 (checkIntersectingParts_exact (sample_part "all_6_6_0") (bytes_of "all_6_6_0") sample_set Hm
      ltac:(vm_compute; discriminate))))). vm_compute. reflexivity.
Defined.

(** C38: if every part of the set is covered by the part, disjoint from it or covers it,
    [removePartAndCoveredParts] leaves exactly the parts that are not covered; its
    result is always [false] then: a part that is there is among the parts it covers,
    and is removed a second time. *)
Theorem removePartAndCoveredParts_exact (part_name : bytes) (p : MergeTreePartInfo) (s : ActiveDataPartSet) :
  set_inv s -> fromPartName part_name (format_version s) = Ok p ->
  (forall e, e ∈ part_info_to_name s -> contains p e.1 = true \/ isDisjoint p e.1 = true \/ contains e.1 p = true) ->
  removePartAndCoveredParts part_name s =
    (with_parts s (List.filter (fun e : entry => negb (contains p e.1)) (part_info_to_name s)), Ok false).
Proof.
  intros [Hm Hn] Hp Hall. unfold removePartAndCoveredParts, remove_name. rewrite Hp.
  unfold getPartsCoveredBy.
  rewrite (getPartsCoveredByImpl_spec p _ Hm (fromPartName_range _ _ _ Hp) Hall).
  set (m := part_info_to_name s) in *. set (es := List.filter (fun e : entry => contains p e.1) m).
  unfold remove. cbv beta iota zeta. fold m.
  destruct (remove_names_erases es (with_parts s (map_erase p m))
    (true && (length (map_erase p m) <? length m)%nat)) as (b & -> & Hacc & Habs).
  { by apply names_inv_filter. }
  f_equal.
  - unfold with_parts. simpl. f_equal. by apply erase_covered.
  - f_equal. destruct (existsb (fun e : entry => part_eq e.1 p) m) eqn:Ex.
    + apply existsb_exists in Ex as (e & He & Heq). apply (Habs e).
      * apply list_elem_of_In, filter_In. split; [done|].
        by rewrite (part_eq_contains p e.1 p Heq (contains_refl p)).
      * simpl. intros f Hf. apply list_elem_of_In, filter_In in Hf as [_ Hf].
        apply negb_true_iff in Hf. destruct (part_eq f.1 e.1) eqn:E; [|done].
        by rewrite (part_eq_trans _ _ _ E Heq) in Hf.
    + apply Hacc. unfold map_erase. rewrite filter_all; [apply andb_false_iff; right; by apply Nat.ltb_ge|].
      apply Forall_forall. intros e He. apply negb_true_iff.
      destruct (part_eq e.1 p) eqn:E; [|done].
      assert (existsb (fun e : entry => part_eq e.1 p) m = true); [|congruence].
      apply existsb_exists. exists e. by rewrite <- list_elem_of_In.
Qed.

Lemma removePartAndCoveredParts_exact_witness :
  fst (removePartAndCoveredParts (bytes_of "all_3_5_1") sample_set) <> sample_set /\
  snd (removePartAndCoveredParts (bytes_of "all_3_5_1") sample_set) = Ok false.
Proof.
  split; [vm_compute; discriminate|].
  assert (Hall : Forall (fun e : entry => contains (sample_part "all_3_5_1") e.1 = true \/
      isDisjoint (sample_part "all_3_5_1") e.1 = true \/ contains e.1 (sample_part "all_3_5_1") = true)
      (part_info_to_name sample_set)).
  { vm_compute. repeat (constructor; [auto|]). constructor. }
  rewrite Forall_forall in Hall.
  rewrite (removePartAndCoveredParts_exact (bytes_of "all_3_5_1") (sample_part "all_3_5_1") sample_set
    (reachable_set_inv 1 _ sample_set_reachable) eq_refl Hall).
  reflexivity.
Defined.

(** Without the condition of the last property covered parts can stay: the loops stop at
    a part that overlaps and is not covered. *)
Example covered_part_stays :
  let names := [bytes_of "all_1_1_0"; bytes_of "all_2_2_3"; bytes_of "all_3_3_0"] in
  match make_set 1 names with
  | Ok s => getParts (removePartAndCoveredParts (bytes_of "all_1_5_1") s).1 = [bytes_of "all_2_2_3"; bytes_of "all_3_3_0"] /\
      contains (sample_part "all_1_5_1") (sample_part "all_3_3_0") = true
  | Throw _ => False
  end.
Proof. vm_compute. repeat split. Qed.
