(* ===== verification/ReadBuffer.v ===== *)
(** Buffered reading: [ReadBuffer] (src/IO/BufferBase.h, src/IO/ReadBuffer.{h,cpp})
    over the virtual method [nextImpl] of its derived classes.  A class states what
    [nextImpl] owes to its callers; over it, every operation of a buffer acts as the
    same operation on the list of the bytes to come, however they are cut into
    pieces. *)
From S2P Require Import Prelude IntText BinaryIO.

(** * The buffer *)

(** [working_buffer] is the memory between its two pointers and [pos] the distance
    of the cursor from the first one; [impl] is what the derived class adds. *)
Record ReadBuffer (S : Type) := {
  working_buffer : bytes;
  pos : Z;
  bytes_before : Z;
  nextimpl_working_buffer_offset : Z;
  impl : S }.
Arguments Build_ReadBuffer {_}.
Arguments working_buffer {_}.
Arguments pos {_}.
Arguments bytes_before {_}.
Arguments nextimpl_working_buffer_offset {_}.
Arguments impl {_}.

(** A derived class.  [bound] is no part of the program: it bounds how often
    [nextImpl] can return [true], and is the fuel of loops. *)
Record ReadImpl (S : Type) := {
  nextImpl : ReadBuffer S -> result (bool * ReadBuffer S);
  bound : S -> nat }.
Arguments nextImpl {_}.
Arguments bound {_}.

Section Operations.
Context {S : Type} (I : ReadImpl S).
Implicit Types b : ReadBuffer S.

Definition set_pos (p : Z) b : ReadBuffer S :=
  {| working_buffer := working_buffer b; pos := p; bytes_before := bytes_before b;
     nextimpl_working_buffer_offset := nextimpl_working_buffer_offset b; impl := impl b |}.

Definition set_working (w : bytes) (p : Z) b : ReadBuffer S :=
  {| working_buffer := w; pos := p; bytes_before := bytes_before b;
     nextimpl_working_buffer_offset := nextimpl_working_buffer_offset b; impl := impl b |}.

Definition set_bytes (n : Z) b : ReadBuffer S :=
  {| working_buffer := working_buffer b; pos := pos b; bytes_before := n;
     nextimpl_working_buffer_offset := nextimpl_working_buffer_offset b; impl := impl b |}.

Definition set_nextimpl_offset (n : Z) b : ReadBuffer S :=
  {| working_buffer := working_buffer b; pos := pos b; bytes_before := bytes_before b;
     nextimpl_working_buffer_offset := n; impl := impl b |}.

Definition set_impl (s : S) b : ReadBuffer S :=
  {| working_buffer := working_buffer b; pos := pos b; bytes_before := bytes_before b;
     nextimpl_working_buffer_offset := nextimpl_working_buffer_offset b; impl := s |}.

Definition size_working b : Z := Z.of_nat (length (working_buffer b)).

Definition offset b : Z := uwrap 64 (pos b).

Definition available b : Z := uwrap 64 (size_working b - pos b).

Definition hasPendingData b : bool := 0 <? available b.

(** [count] *)
Definition count b : Z := uwrap 64 (bytes_before b + offset b).

(** [resetWorkingBuffer] *)
Definition resetWorkingBuffer b : ReadBuffer S := set_working [] 0 b.

(** The [n] bytes at the cursor, for [memcpy]. *)
Definition bytes_at b (n : Z) : result bytes :=
  if (pos b <? 0) || (size_working b <? pos b + n) then Throw OUT_OF_BOUNDS_ACCESS
  else Ok (take (Z.to_nat n) (drop (Z.to_nat (pos b)) (working_buffer b))).

(** The two ends of [next]. *)
Definition arrived b : ReadBuffer S :=
  set_nextimpl_offset 0 (set_pos (Z.min (nextimpl_working_buffer_offset b) (size_working b)) b).

Definition exhausted b : ReadBuffer S := set_nextimpl_offset 0 (set_working [] 0 b).

Definition next b : result (bool * ReadBuffer S) :=
  let! (res, b) := nextImpl I (set_bytes (uwrap 64 (bytes_before b + offset b)) b) in
  Ok (res, if res : bool then arrived b else exhausted b).

Definition nextIfAtEnd b : result (ReadBuffer S) :=
  if negb (hasPendingData b) then let! (_, b) := next b in Ok b else Ok b.

Definition eof b : result (bool * ReadBuffer S) :=
  if hasPendingData b then Ok (false, b) else let! (res, b) := next b in Ok (negb res, b).

(** [ignore()] *)
Definition ignore_one b : result (ReadBuffer S) :=
  let! (e, b) := eof b in
  if e : bool then Throw ATTEMPT_TO_READ_AFTER_EOF else Ok (set_pos (pos b + 1) b).

(** The loop of [ignore(size_t)] and of [tryIgnore]: what is left of [n]. *)
Fixpoint ignore_loop (fuel : nat) (n : Z) b : result (Z * ReadBuffer S) :=
  if n =? 0 then Ok (n, b)
  else match fuel with
  | O => Throw OUT_OF_FUEL
  | Datatypes.S fuel =>
      let! (e, b) := eof b in
      if e : bool then Ok (n, b)
      else
        let bytes_to_ignore := Z.min (available b) n in
        ignore_loop fuel (n - bytes_to_ignore) (set_pos (pos b + bytes_to_ignore) b)
  end.

(** Each iteration takes a byte or a new piece. *)
Definition loop_fuel (n : Z) b : nat := Datatypes.S (Z.to_nat n + bound I (impl b)).

(** [ignore(size_t)] *)
Definition ignore (n : Z) b : result (ReadBuffer S) :=
  let! (n, b) := ignore_loop (loop_fuel n b) n b in
  if n =? 0 then Ok b else Throw ATTEMPT_TO_READ_AFTER_EOF.

Definition tryIgnore (n : Z) b : result (Z * ReadBuffer S) :=
  let! (rest, b) := ignore_loop (loop_fuel n b) n b in Ok (n - rest, b).

(** [ignoreAll]; every turn skips some of the data. *)
Definition ignoreAll (fuel : nat) b : result (ReadBuffer S) :=
  let! (_, b) := ignore_loop fuel (2 ^ 64 - 1) b in Ok b.

(** [peek]; [None] is [false]. *)
Definition peek b : result (option Z * ReadBuffer S) :=
  let! (e, b) := eof b in
  if e : bool then Ok (None, b)
  else let! c := bytes_at b 1 in Ok (head c, b).

(** [read(char &)] *)
Definition read_one b : result (option Z * ReadBuffer S) :=
  let! (c, b) := peek b in
  match c with
  | Some c => Ok (Some c, set_pos (pos b + 1) b)
  | None => Ok (None, b)
  end.

(** [readStrict(char &)] *)
Definition readStrict_one b : result (Z * ReadBuffer S) :=
  let! (c, b) := read_one b in
  match c with Some c => Ok (c, b) | None => Throw ATTEMPT_TO_READ_AFTER_EOF end.

(** [read(char *, size_t)]: the bytes that are copied. *)
Fixpoint read_loop (fuel : nat) (n : Z) b : result (bytes * ReadBuffer S) :=
  if n <=? 0 then Ok ([], b)
  else match fuel with
  | O => Throw OUT_OF_FUEL
  | Datatypes.S fuel =>
      let! (e, b) := eof b in
      if e : bool then Ok ([], b)
      else
        let bytes_to_copy := Z.min (available b) n in
        let! copied := bytes_at b bytes_to_copy in
        let! (rest, b) := read_loop fuel (n - bytes_to_copy) (set_pos (pos b + bytes_to_copy) b) in
        Ok (copied ++ rest, b)
  end.

Definition read (n : Z) b : result (bytes * ReadBuffer S) := read_loop (loop_fuel n b) n b.

(** [readStrict(char *, size_t)] *)
Definition readStrict (n : Z) b : result (bytes * ReadBuffer S) :=
  let! (bs, b) := read n b in
  if n =? Z.of_nat (length bs) then Ok (bs, b) else Throw CANNOT_READ_ALL_DATA.

End Operations.

(** * What a derived class owes *)

(** What [next] passes to [nextImpl]. *)
Abbreviation counted b := (set_bytes (uwrap 64 (bytes_before b + offset b)) b).

(** [inv b data]: the buffer is in order, and will deliver [data], beginning with
    what it holds after the cursor. *)
Class ReaderSpec {S} (I : ReadImpl S) (inv : ReadBuffer S -> bytes -> Prop) : Prop := {
  inv_bounds b data : inv b data -> 0 <= pos b <= size_working b /\ size_working b < 2 ^ 63;
  inv_pending b data : inv b data -> exists later,
    data = drop (Z.to_nat (pos b)) (working_buffer b) ++ later /\
    forall p, pos b <= p <= size_working b -> inv (set_pos p b) (drop (Z.to_nat p) (working_buffer b) ++ later);
  inv_end b : inv b [] -> exists b', nextImpl I (counted b) = Ok (false, b') /\ inv (exhausted b') [];
  inv_next b data : inv b data -> data <> [] -> pos b = size_working b ->
    exists b', nextImpl I (counted b) = Ok (true, b') /\ inv (arrived b') data /\
      pos (arrived b') < size_working b' }.

(** A new piece begins where its memory does, and the cursor may be moved back in it. *)
Class WholePieces {S} (I : ReadImpl S) (inv : ReadBuffer S -> bytes -> Prop) : Prop := {
  whole_piece b data b' : inv b data -> nextImpl I (counted b) = Ok (true, b') -> pos (arrived b') = 0;
  whole_back b data p : inv b data -> 0 <= p <= pos b ->
    inv (set_pos p b) (drop (Z.to_nat p) (working_buffer b) ++ drop (Z.to_nat (size_working b - pos b)) data) }.

Section Theory.
Context {S : Type} (I : ReadImpl S) (inv : ReadBuffer S -> bytes -> Prop) `{!ReaderSpec I inv}.
Implicit Types b : ReadBuffer S.

Lemma available_inv b data : inv b data -> available b = size_working b - pos b.
Proof. intros [??]%inv_bounds. unfold available. apply uwrap_small. unfold in_unsigned. lia. Qed.

Lemma pending_inv b data : inv b data -> hasPendingData b = (pos b <? size_working b).
Proof.
  intros H. unfold hasPendingData. rewrite (available_inv b data H).
  destruct (Z.ltb_spec 0 (size_working b - pos b)), (Z.ltb_spec (pos b) (size_working b)); lia || done.
Qed.

(** What is after the cursor is not more than what is to come. *)
Lemma inv_length b data : inv b data -> size_working b - pos b <= Z.of_nat (length data).
Proof.
  intros H. pose proof (inv_bounds b data H). destruct (inv_pending b data H) as (later & -> & _).
  unfold size_working in *. simpl_len. lia.
Qed.

Lemma bytes_at_inv b data n :
  inv b data -> 0 <= n <= size_working b - pos b -> bytes_at b n = Ok (take (Z.to_nat n) data).
Proof.
  intros H Hn. pose proof (inv_bounds b data H). destruct (inv_pending b data H) as (later & -> & _).
  unfold bytes_at, size_working in *. destruct (Z.ltb_spec (pos b) 0); [lia|].
  destruct (Z.ltb_spec (Z.of_nat (length (working_buffer b))) (pos b + n)); [lia|]. simpl.
  rewrite take_app_le; [done|]. simpl_len. lia.
Qed.

(** Moving the cursor forward. *)
Lemma inv_advance b data n :
  inv b data -> 0 <= n <= size_working b - pos b -> inv (set_pos (pos b + n) b) (drop (Z.to_nat n) data).
Proof.
  intros H Hn. pose proof (inv_bounds b data H). destruct (inv_pending b data H) as (later & -> & Hp).
  specialize (Hp (pos b + n) ltac:(lia)). unfold size_working in *.
  rewrite drop_app_le by (simpl_len; lia). rewrite drop_drop.
  by replace (Z.to_nat (pos b) + Z.to_nat n)%nat with (Z.to_nat (pos b + n)) by lia.
Qed.

Lemma next_spec b data :
  inv b data -> pos b = size_working b ->
  exists b', next I b = Ok (negb (bool_decide (data = [])), b') /\ inv b' data /\
    (data <> [] -> pos b' < size_working b').
Proof.
  intros H Hp. unfold next. case_bool_decide as E.
  - subst. destruct (inv_end b H) as (b' & -> & Hb). by eexists.
  - destruct (inv_next b data H E Hp) as (b' & -> & Hb & Hlt). by eexists.
Qed.

Lemma eof_spec b data :
  inv b data -> exists b', eof I b = Ok (bool_decide (data = []), b') /\ inv b' data /\
    (data <> [] -> pos b' < size_working b').
Proof.
  intros H. unfold eof. rewrite (pending_inv b data H). pose proof (inv_bounds b data H).
  pose proof (inv_length b data H) as Hl. destruct (Z.ltb_spec (pos b) (size_working b)).
  - exists b. rewrite bool_decide_eq_false_2; [done|]. intros ->. simpl in Hl. lia.
  - destruct (next_spec b data H ltac:(lia)) as (b' & -> & Hb). exists b'. simpl. by rewrite negb_involutive.
Qed.

(** One turn of the loops: a positive number of bytes, no more than [n], is taken. *)
Lemma turn_spec b data n :
  inv b data -> data <> [] -> 0 < n -> pos b < size_working b ->
  exists k, k = Z.min (available b) n /\ 0 < k <= n /\ k <= Z.of_nat (length data) /\
    bytes_at b k = Ok (take (Z.to_nat k) data) /\ inv (set_pos (pos b + k) b) (drop (Z.to_nat k) data).
Proof.
  intros H Hd Hn Hlt. exists (Z.min (available b) n). rewrite (available_inv b data H).
  pose proof (inv_length b data H). split_and!; try lia; [apply bytes_at_inv|apply inv_advance]; done || lia.
Qed.

Lemma read_loop_spec fuel n b data :
  inv b data -> (Z.to_nat n < fuel)%nat ->
  exists b', read_loop I fuel n b = Ok (take (Z.to_nat n) data, b') /\ inv b' (drop (Z.to_nat n) data).
Proof.
  revert n b data. induction fuel as [|fuel IH]; intros n b data H Hf; [lia|]. simpl.
  destruct (Z.leb_spec n 0). { exists b. by replace (Z.to_nat n) with 0%nat by lia. }
  destruct (eof_spec b data H) as (b1 & -> & H1 & Hlt). simpl. case_bool_decide as E.
  { subst. exists b1. by rewrite take_nil, drop_nil. }
  destruct (turn_spec b1 data n H1 E ltac:(lia) (Hlt E)) as (k & <- & Hk & Hkd & -> & Hb). simpl.
  destruct (IH (n - k) _ _ Hb ltac:(lia)) as (b2 & -> & H2). exists b2. simpl. rewrite drop_drop in H2.
  replace (Z.to_nat k + Z.to_nat (n - k))%nat with (Z.to_nat n) in H2 by lia. split; [|done].
  by rewrite take_take_drop, <- Z2Nat.inj_add, Zplus_minus by lia.
Qed.

Lemma read_spec n b data :
  inv b data ->
  exists b', read I n b = Ok (take (Z.to_nat n) data, b') /\ inv b' (drop (Z.to_nat n) data).
Proof. intros H. apply read_loop_spec; [done|unfold loop_fuel; lia]. Qed.

(** What the buffer holds is read without a call of [nextImpl]. *)
Lemma read_pending n b data :
  inv b data -> 0 < n <= size_working b - pos b ->
  read I n b = Ok (take (Z.to_nat n) data, set_pos (pos b + n) b).
Proof.
  intros H Hn. unfold read, loop_fuel. cbn [read_loop]. destruct (Z.leb_spec n 0); [lia|].
  unfold eof. rewrite (pending_inv b data H). destruct (Z.ltb_spec (pos b) (size_working b)); [|lia]. cbn [rbind].
  rewrite (available_inv b data H), Z.min_r, (bytes_at_inv b data n H) by lia. cbn [rbind].
  rewrite Z.sub_diag. destruct (Z.to_nat n + _)%nat; simpl; by rewrite app_nil_r.
Qed.

Lemma readStrict_spec n b data :
  inv b data -> 0 <= n <= Z.of_nat (length data) ->
  exists b', readStrict I n b = Ok (take (Z.to_nat n) data, b') /\ inv b' (drop (Z.to_nat n) data).
Proof.
  intros H Hn. unfold readStrict. destruct (read_spec n b data H) as (b' & -> & Hb). exists b'. simpl.
  destruct (Z.eqb_spec n (Z.of_nat (length (take (Z.to_nat n) data)))); [done|]. simpl_len. lia.
Qed.

Lemma readStrict_short n b data :
  inv b data -> Z.of_nat (length data) < n -> readStrict I n b = Throw CANNOT_READ_ALL_DATA.
Proof.
  intros H Hn. unfold readStrict. destruct (read_spec n b data H) as (b' & -> & Hb). simpl.
  destruct (Z.eqb_spec n (Z.of_nat (length (take (Z.to_nat n) data)))); [|done]. simpl_len. lia.
Qed.

Lemma ignore_loop_spec fuel n b data :
  inv b data -> 0 <= n -> (Nat.min (Z.to_nat n) (length data) < fuel)%nat ->
  exists b', ignore_loop I fuel n b = Ok (n - Z.min n (Z.of_nat (length data)), b') /\ inv b' (drop (Z.to_nat n) data).
Proof.
  revert n b data. induction fuel as [|fuel IH]; intros n b data H Hn Hf; [lia|]. simpl.
  destruct (Z.eqb_spec n 0) as [->|]. { exists b. split; [do 2 f_equal; lia|done]. }
  destruct (eof_spec b data H) as (b1 & -> & H1 & Hlt). simpl. case_bool_decide as E.
  { subst. exists b1. rewrite drop_nil. split; [do 2 f_equal; simpl; lia|done]. }
  destruct (turn_spec b1 data n H1 E ltac:(lia) (Hlt E)) as (k & <- & Hk & Hkd & _ & Hb).
  destruct (IH (n - k) _ _ Hb ltac:(lia) ltac:(simpl_len; lia)) as (b2 & -> & H2). exists b2. rewrite drop_drop in H2.
  replace (Z.to_nat k + Z.to_nat (n - k))%nat with (Z.to_nat n) in H2 by lia.
  split; [do 2 f_equal; simpl_len; lia|done].
Qed.

Lemma ignore_spec n b data :
  inv b data -> 0 <= n ->
  if n <=? Z.of_nat (length data) then exists b', ignore I n b = Ok b' /\ inv b' (drop (Z.to_nat n) data)
  else ignore I n b = Throw ATTEMPT_TO_READ_AFTER_EOF.
Proof.
  intros H Hn. unfold ignore. destruct (ignore_loop_spec (loop_fuel I n b) n b data H Hn) as (b' & -> & Hb).
  { unfold loop_fuel. lia. }
  simpl. destruct (Z.leb_spec n (Z.of_nat (length data))), (Z.eqb_spec (n - Z.min n (Z.of_nat (length data))) 0);
    try lia; by eauto.
Qed.

Lemma ignoreAll_spec fuel b data : inv b data -> Z.of_nat (length data) < 2 ^ 64 -> (length data < fuel)%nat ->
  exists b', ignoreAll I fuel b = Ok b' /\ inv b' [].
Proof.
  intros H Hl Hf. unfold ignoreAll. destruct (ignore_loop_spec fuel (2 ^ 64 - 1) b data H ltac:(lia) ltac:(lia)) as (b' & -> & Hb).
  exists b'. rewrite drop_ge in Hb by lia. done.
Qed.

Lemma tryIgnore_spec n b data :
  inv b data -> 0 <= n ->
  exists b', tryIgnore I n b = Ok (Z.min n (Z.of_nat (length data)), b') /\ inv b' (drop (Z.to_nat n) data).
Proof.
  intros H Hn. unfold tryIgnore. destruct (ignore_loop_spec (loop_fuel I n b) n b data H Hn) as (b' & -> & Hb).
  { unfold loop_fuel. lia. }
  exists b'. simpl. split; [do 2 f_equal; lia|done].
Qed.

Lemma peek_spec b data :
  inv b data -> exists b', peek I b = Ok (head data, b') /\ inv b' data /\ (data <> [] -> pos b' < size_working b').
Proof.
  intros H. unfold peek. destruct (eof_spec b data H) as (b' & -> & Hb & Hlt). exists b'. simpl.
  case_bool_decide as E; [by subst|]. specialize (Hlt E). rewrite (bytes_at_inv b' data 1 Hb) by lia. simpl.
  split; [by destruct data|done].
Qed.

Lemma read_one_spec b data :
  inv b data -> exists b', read_one I b = Ok (head data, b') /\ inv b' (tail data).
Proof.
  intros H. unfold read_one. destruct (peek_spec b data H) as (b' & -> & Hb & Hlt). simpl.
  destruct data as [|c data]; simpl; [by exists b'|]. eexists. split; [done|].
  apply (inv_advance b' (c :: data) 1); [done|]. specialize (Hlt ltac:(done)). lia.
Qed.

Lemma ignore_one_spec b data :
  inv b data -> data <> [] -> exists b', ignore_one I b = Ok b' /\ inv b' (tail data).
Proof.
  intros H E. unfold ignore_one. destruct (eof_spec b data H) as (b' & -> & Hb & Hlt). simpl.
  rewrite bool_decide_eq_false_2 by done. eexists. split; [done|]. specialize (Hlt E).
  pose proof (inv_advance b' data 1 Hb ltac:(lia)) as Ha. by destruct data.
Qed.

(** The bytes [acc] are just before the cursor, if the memory before the cursor has
    as many. *)
Definition just_before (acc : bytes) b : Prop :=
  Z.of_nat (length acc) <= pos b ->
  take (length acc) (drop (Z.to_nat (pos b) - length acc) (working_buffer b)) = acc.

Lemma just_before_start acc b : pos b = 0 -> just_before acc b.
Proof. intros Hp Hl. destruct acc; [done|]. simpl in Hl. lia. Qed.

Lemma just_before_eof `{!WholePieces I inv} acc b data e b' :
  inv b data -> eof I b = Ok (e, b') -> just_before acc b -> just_before acc b'.
Proof.
  intros H. unfold eof, next. destruct (hasPendingData b); [by intros [= <- <-]|].
  destruct (nextImpl I _) as [[[] b1]|] eqn:E; simpl; intros [= <- <-] _; apply just_before_start; [|done].
  by eapply whole_piece.
Qed.

Lemma just_before_app acc b data k :
  inv b data -> 0 <= k <= size_working b - pos b ->
  just_before acc b -> just_before (acc ++ take (Z.to_nat k) data) (set_pos (pos b + k) b).
Proof.
  intros H Hk Hj. pose proof (inv_bounds b data H). pose proof (bytes_at_inv b data k H Hk) as Hb.
  unfold bytes_at in Hb. destruct (_ || _); [done|]. injection Hb as Hb. rewrite <- Hb.
  intros Hl. unfold size_working in *. simpl in *. simpl_len.
  replace (length acc + _)%nat with (length acc + Z.to_nat k)%nat by lia.
  replace (Z.to_nat (pos b + k) - (length acc + Z.to_nat k))%nat with (Z.to_nat (pos b) - length acc)%nat by lia.
  rewrite <- (take_take_drop _ (length acc) (Z.to_nat k)), Hj by lia. do 2 f_equal.
  rewrite drop_drop. f_equal. lia.
Qed.

Lemma read_loop_just_before `{!WholePieces I inv} fuel n b data acc bs b' :
  inv b data -> just_before acc b -> read_loop I fuel n b = Ok (bs, b') -> just_before (acc ++ bs) b'.
Proof.
  revert n b data acc bs. induction fuel as [|fuel IH]; intros n b data acc bs H Hj Hr; simpl in Hr;
    (destruct (Z.leb_spec n 0); [injection Hr as <- <-; by rewrite app_nil_r|]); [done|].
  destruct (eof_spec b data H) as (b1 & E & H1 & Hlt). rewrite E in Hr. simpl in Hr.
  pose proof (just_before_eof acc b data _ b1 H E Hj) as Hj1. case_bool_decide as Ed.
  { injection Hr as <- <-. by rewrite app_nil_r. }
  destruct (turn_spec b1 data n H1 Ed ltac:(lia) (Hlt Ed)) as (k & Ek & Hk & Hkd & Hb & Ha).
  rewrite <- Ek, Hb in Hr. simpl in Hr. apply rbind_Ok in Hr as ([rest b2] & Hr & [= <- <-]).
  rewrite app_assoc. eapply IH; [exact Ha| |exact Hr]. apply just_before_app; [done| |done].
  rewrite (available_inv b1 data H1) in Ek. lia.
Qed.

(** If the cursor is far enough from the beginning after [n] bytes were read, they
    all came from this piece. *)
Lemma read_in_place `{!WholePieces I inv} n b data bs b' :
  inv b data -> readStrict I n b = Ok (bs, b') -> n <= pos b' ->
  take (length bs) (drop (Z.to_nat (pos b') - length bs) (working_buffer b')) = bs.
Proof.
  intros H Hr Hn. unfold readStrict in Hr. apply rbind_Ok in Hr as ([bs1 b1] & Hr & Hc).
  destruct (Z.eqb_spec n (Z.of_nat (length bs1))); [|done]. injection Hc as <- <-.
  apply (read_loop_just_before _ n b data [] bs1 b1 H) in Hr; [apply Hr; simpl; lia|by intros _].
Qed.

End Theory.

(** * A buffer is the list of the bytes to come *)

Inductive Operation :=
| OpEof | OpPeek | OpRead1 | OpReadStrict1 | OpIgnore1
| OpRead (n : Z) | OpReadStrict (n : Z) | OpIgnore (n : Z) | OpTryIgnore (n : Z).

Inductive Answer := Nothing | Flag (x : bool) | Byte (c : option Z) | Number (n : Z) | Bytes (bs : bytes).

Section Run.
Context {S : Type} (I : ReadImpl S).

Definition operate (op : Operation) (b : ReadBuffer S) : result (Answer * ReadBuffer S) :=
  match op with
  | OpEof => let! (x, b) := eof I b in Ok (Flag x, b)
  | OpPeek => let! (c, b) := peek I b in Ok (Byte c, b)
  | OpRead1 => let! (c, b) := read_one I b in Ok (Byte c, b)
  | OpReadStrict1 => let! (c, b) := readStrict_one I b in Ok (Byte (Some c), b)
  | OpIgnore1 => let! b := ignore_one I b in Ok (Nothing, b)
  | OpRead n => let! (bs, b) := read I n b in Ok (Bytes bs, b)
  | OpReadStrict n => let! (bs, b) := readStrict I n b in Ok (Bytes bs, b)
  | OpIgnore n => let! b := ignore I n b in Ok (Nothing, b)
  | OpTryIgnore n => let! (k, b) := tryIgnore I n b in Ok (Number k, b)
  end.

(** The answers of a sequence of operations, up to the first exception. *)
Fixpoint operate_all (ops : list Operation) (b : ReadBuffer S) : list (result Answer) :=
  match ops with
  | [] => []
  | op :: ops =>
      match operate op b with
      | Ok (a, b) => Ok a :: operate_all ops b
      | Throw e => [Throw e]
      end
  end.

End Run.

(** The same operations on the list. *)
Definition flat (op : Operation) (data : bytes) : result (Answer * bytes) :=
  match op, data with
  | OpEof, _ => Ok (Flag (bool_decide (data = [])), data)
  | OpPeek, _ => Ok (Byte (head data), data)
  | OpRead1, _ => Ok (Byte (head data), tail data)
  | OpReadStrict1, c :: data => Ok (Byte (Some c), data)
  | OpIgnore1, _ :: data => Ok (Nothing, data)
  | (OpReadStrict1 | OpIgnore1), [] => Throw ATTEMPT_TO_READ_AFTER_EOF
  | OpRead n, _ => Ok (Bytes (take (Z.to_nat n) data), drop (Z.to_nat n) data)
  | OpReadStrict n, _ =>
      if n <=? Z.of_nat (length data) then Ok (Bytes (take (Z.to_nat n) data), drop (Z.to_nat n) data)
      else Throw CANNOT_READ_ALL_DATA
  | OpIgnore n, _ =>
      if n <=? Z.of_nat (length data) then Ok (Nothing, drop (Z.to_nat n) data) else Throw ATTEMPT_TO_READ_AFTER_EOF
  | OpTryIgnore n, _ => Ok (Number (Z.min n (Z.of_nat (length data))), drop (Z.to_nat n) data)
  end.

Fixpoint flat_all (ops : list Operation) (data : bytes) : list (result Answer) :=
  match ops with
  | [] => []
  | op :: ops =>
      match flat op data with
      | Ok (a, data) => Ok a :: flat_all ops data
      | Throw e => [Throw e]
      end
  end.

(** Sizes are of type [size_t]. *)
Definition valid_operation (op : Operation) : Prop :=
  match op with
  | OpRead n | OpReadStrict n | OpIgnore n | OpTryIgnore n => 0 <= n
  | _ => True
  end.

Definition simulates {S A} (inv : ReadBuffer S -> bytes -> Prop)
    (r : result (A * ReadBuffer S)) (q : result (A * bytes)) : Prop :=
  match q with
  | Ok (a, data) => exists b, r = Ok (a, b) /\ inv b data
  | Throw e => r = Throw e
  end.

Section Refinement.
Context {S : Type} (I : ReadImpl S) (inv : ReadBuffer S -> bytes -> Prop) `{!ReaderSpec I inv}.

Lemma operate_flat op b data : inv b data -> valid_operation op -> simulates inv (operate I op b) (flat op data).
Proof.
  intros H Hv. destruct op as [| | | | |n|n|n|n]; unfold operate, flat; simpl in Hv.
  - destruct (eof_spec I inv b data H) as (b' & -> & Hb & _). by eexists.
  - destruct (peek_spec I inv b data H) as (b' & -> & Hb & _). by eexists.
  - destruct (read_one_spec I inv b data H) as (b' & -> & Hb). by eexists.
  - unfold readStrict_one. destruct (read_one_spec I inv b data H) as (b' & -> & Hb).
    destruct data; simpl; [done|by eexists].
  - destruct data as [|c data]; simpl.
    + unfold ignore_one. by destruct (eof_spec I inv b [] H) as (b' & -> & _).
    + destruct (ignore_one_spec I inv b (c :: data) H) as (b' & -> & Hb); [done|by eexists].
  - destruct (read_spec I inv n b data H) as (b' & -> & Hb). by eexists.
  - destruct (Z.leb_spec n (Z.of_nat (length data))); simpl.
    + destruct (readStrict_spec I inv n b data H) as (b' & -> & Hb); [lia|by eexists].
    + by rewrite (readStrict_short I inv n b data H).
  - pose proof (ignore_spec I inv n b data H Hv) as Hi. destruct (n <=? Z.of_nat (length data)); simpl.
    + destruct Hi as (b' & -> & Hb). by eexists.
    + by rewrite Hi.
  - destruct (tryIgnore_spec I inv n b data H Hv) as (b' & -> & Hb). by eexists.
Qed.

Lemma operate_all_flat ops b data :
  inv b data -> Forall valid_operation ops -> operate_all I ops b = flat_all ops data.
Proof.
  intros H Hv. revert b data H. induction Hv as [|op ops Ho Hv IH]; intros b data H; [done|]. simpl.
  pose proof (operate_flat op b data H Ho) as Hs. destruct (flat op data) as [[a data']|e]; simpl in Hs.
  - destruct Hs as (b' & -> & Hb). f_equal. by apply IH.
  - by rewrite Hs.
Qed.

End Refinement.

(** ** With [readBig] and [seek] *)

(** [readBig] reads to the memory [to]; [seek] is to a mark, a number and an offset. *)
Inductive Request :=
| Plain (op : Operation)
| OpReadBig (to : bytes) (n : Z)
| OpSeek (k : nat) (o : Z).

Section Serve.
Context {S : Type} (I : ReadImpl S) (readBig : bytes -> Z -> ReadBuffer S -> result (bytes * ReadBuffer S)).
Context (seek_to : nat -> Z -> ReadBuffer S -> result (ReadBuffer S)).

Definition serve (q : Request) (b : ReadBuffer S) : result (Answer * ReadBuffer S) :=
  match q with
  | Plain op => operate I op b
  | OpReadBig to n => let! (bs, b) := readBig to n b in Ok (Bytes bs, b)
  | OpSeek k o => let! b := seek_to k o b in Ok (Nothing, b)
  end.

Fixpoint serve_all (qs : list Request) (b : ReadBuffer S) : list (result Answer) :=
  match qs with
  | [] => []
  | q :: qs =>
      match serve q b with
      | Ok (a, b) => Ok a :: serve_all qs b
      | Throw e => [Throw e]
      end
  end.

(** The same on the list; [at_mark] is the data from a mark on. *)
Context (at_mark : nat -> Z -> bytes).

Definition flat_serve (q : Request) (data : bytes) : result (Answer * bytes) :=
  match q with
  | Plain op => flat op data
  | OpReadBig _ n => flat (OpRead n) data
  | OpSeek k o => Ok (Nothing, at_mark k o)
  end.

Fixpoint flat_serve_all (qs : list Request) (data : bytes) : list (result Answer) :=
  match qs with
  | [] => []
  | q :: qs =>
      match flat_serve q data with
      | Ok (a, data) => Ok a :: flat_serve_all qs data
      | Throw e => [Throw e]
      end
  end.

Context (inv : ReadBuffer S -> bytes -> Prop) (valid : Request -> Prop).

Lemma serve_all_flat qs b data :
  (forall q b data, inv b data -> valid q -> simulates inv (serve q b) (flat_serve q data)) ->
  inv b data -> Forall valid qs -> serve_all qs b = flat_serve_all qs data.
Proof.
  intros Hs H Hv. revert b data H. induction Hv as [|q qs Hq Hv IH]; intros b data H; [done|]. simpl.
  specialize (Hs q b data H Hq). destruct (flat_serve q data) as [[a data']|e]; simpl in Hs.
  - destruct Hs as (b' & -> & Hb). f_equal. by apply IH.
  - by rewrite Hs.
Qed.

End Serve.

(** * Safety whatever the bytes *)

(** The code throws, but not because of an access out of bounds or of a loop that
    does not end. *)
Definition failure (e : ErrorCode) : Prop := e <> OUT_OF_BOUNDS_ACCESS /\ e <> OUT_OF_FUEL.

Class SafeReader {S} (I : ReadImpl S) (ok : ReadBuffer S -> Prop) : Prop := {
  ok_bounds b : ok b -> 0 <= pos b <= size_working b /\ size_working b < 2 ^ 63;
  ok_pos b p : ok b -> 0 <= p <= size_working b -> ok (set_pos p b);
  ok_next b n : ok b ->
    match nextImpl I (set_bytes n b) with
    | Ok (true, b') => ok (arrived b') /\ (bound I (impl b') < bound I (impl b))%nat
    | Ok (false, b') => ok (exhausted b') /\ (bound I (impl b') <= bound I (impl b))%nat
    | Throw e => failure e
    end }.

Section Safety.
Context {S : Type} (I : ReadImpl S) (ok : ReadBuffer S -> Prop) `{!SafeReader I ok}.

Lemma eof_safe b : ok b ->
  match eof I b with
  | Ok (e, b') => ok b' /\ (bound I (impl b') <= bound I (impl b))%nat /\
      (e = false -> pos b < size_working b /\ b' = b \/ (bound I (impl b') < bound I (impl b))%nat)
  | Throw e => failure e
  end.
Proof.
  intros H. unfold eof. pose proof (ok_bounds b H). destruct (hasPendingData b) eqn:E.
  - split_and!; [done|lia|]. intros _. left. unfold hasPendingData, available in E. split; [|done].
    destruct (Z.ltb_spec (pos b) (size_working b)); [done|].
    replace (size_working b - pos b) with 0 in E by lia. done.
  - unfold next. pose proof (ok_next b (uwrap 64 (bytes_before b + offset b)) H) as Hn.
    destruct (nextImpl I _) as [[[] b']|e]; simpl; [|split_and!; [apply Hn..|done]|done].
    destruct Hn as [Hn Hb]. split_and!; [done|simpl; lia|]. intros _. by right.
Qed.

Lemma read_loop_safe fuel n b : ok b -> (Z.to_nat n + bound I (impl b) < fuel)%nat ->
  match read_loop I fuel n b with
  | Ok (bs, b') => ok b' /\ (bound I (impl b') <= bound I (impl b))%nat /\ Z.of_nat (length bs) <= Z.max 0 n
  | Throw e => failure e
  end.
Proof.
  revert n b. induction fuel as [|fuel IH]; intros n b H Hf; [lia|]. simpl.
  destruct (Z.leb_spec n 0). { split_and!; [done|lia|simpl; lia]. }
  pose proof (eof_safe b H) as He. destruct (eof I b) as [[e b1]|e]; simpl; [|done].
  destruct He as (H1 & Hle & He). destruct e. { split_and!; [done|lia|simpl; lia]. }
  specialize (He eq_refl). pose proof (ok_bounds b1 H1).
  assert (Ha : available b1 = size_working b1 - pos b1) by (apply uwrap_small; unfold in_unsigned; lia).
  set (k := Z.min (available b1) n). assert (0 <= k <= n /\ k <= size_working b1 - pos b1) by lia.
  unfold bytes_at. destruct (Z.ltb_spec (pos b1) 0); [lia|].
  destruct (Z.ltb_spec (size_working b1) (pos b1 + k)); [lia|]. simpl.
  pose proof (IH (n - k) (set_pos (pos b1 + k) b1)) as Hr. simpl in Hr.
  destruct (read_loop I fuel _ _) as [[bs b2]|e]; simpl.
  - destruct Hr as (? & ? & ?); [apply ok_pos; [done|lia]| |].
    { destruct He as [[Hp ->]|Hb]; lia. }
    unfold size_working in *. split_and!; [done|lia|]. simpl_len. lia.
  - apply Hr; [apply ok_pos; [done|lia]|]. destruct He as [[Hp ->]|Hb]; lia.
Qed.

Lemma read_safe n b : ok b ->
  match read I n b with
  | Ok (bs, b') => ok b' /\ (bound I (impl b') <= bound I (impl b))%nat /\ Z.of_nat (length bs) <= Z.max 0 n
  | Throw e => failure e
  end.
Proof. intros H. apply read_loop_safe; [done|unfold loop_fuel; lia]. Qed.

Lemma readStrict_safe n b : ok b ->
  match readStrict I n b with
  | Ok (bs, b') => ok b' /\ (bound I (impl b') <= bound I (impl b))%nat /\ Z.of_nat (length bs) = n
  | Throw e => failure e
  end.
Proof.
  intros H. unfold readStrict. pose proof (read_safe n b H) as Hr. destruct (read I n b) as [[bs b']|e]; simpl; [|done].
  destruct (Z.eqb_spec n (Z.of_nat (length bs))); [by destruct Hr as (? & ? & ?)|done].
Qed.

End Safety.
