(* ===== verification/ReadBufferFromFile.v ===== *)
(** Reading from a file descriptor (src/IO/ReadBufferFromFileDescriptor.{h,cpp}),
    with [read] or [pread], that may be interrupted, fail, or return less than they
    are asked for.  A class states what a seekable file owes to its readers. *)
From S2P Require Import Prelude IntText BinaryIO ReadBuffer.

(** * The operating system *)

(** What a system call does next: it is interrupted by a signal, fails, or
    transfers at most [limit] bytes. *)
Inductive Syscall := Interrupted | Failed | Transfer (limit : Z).

#[export] Instance Syscall_eq_dec : EqDecision Syscall.
Proof. solve_decision. Defined.

(** An open file, with its position for [read], and the outcomes of the next calls;
    after them, calls transfer all they are asked for. *)
Record Descriptor := { file : bytes; fd_position : Z; calls : list Syscall }.

(** The next call and the descriptor after it. *)
Definition syscall (d : Descriptor) : Syscall * Descriptor :=
  match calls d with
  | [] => (Transfer (2 ^ 63), d)
  | c :: cs => (c, {| file := file d; fd_position := fd_position d; calls := cs |})
  end.

(** The bytes of the file that are transferred. *)
Definition transfer (limit n from : Z) (d : Descriptor) : bytes :=
  take (Z.to_nat (Z.min limit n)) (drop (Z.to_nat from) (file d)).

Definition set_fd_position (p : Z) (d : Descriptor) : Descriptor :=
  {| file := file d; fd_position := p; calls := calls d |}.

(** [lseek] with [SEEK_SET] *)
Definition lseek (p : Z) (d : Descriptor) : result Descriptor :=
  if p <? 0 then Throw CANNOT_SEEK_THROUGH_FILE else Ok (set_fd_position p d).

(** * [ReadBufferFromFileDescriptor] *)

Record ReadBufferFromFileDescriptor := {
  required_alignment : Z;
  use_pread : bool;
  file_size : option Z;
  internal_buffer_size : Z;
  file_offset_of_buffer_end : Z;
  fd : Descriptor }.

Definition set_fd (offset : Z) (d : Descriptor) (s : ReadBufferFromFileDescriptor) : ReadBufferFromFileDescriptor :=
  {| required_alignment := required_alignment s; use_pread := use_pread s; file_size := file_size s;
     internal_buffer_size := internal_buffer_size s; file_offset_of_buffer_end := offset; fd := d |}.

(** The loop of [readImpl]; [got] are the bytes read so far. *)
Fixpoint readImpl_loop (fuel : nat) (pread : bool) (min_bytes max_bytes offset : Z) (d : Descriptor) (got : bytes)
  : result (bytes * Descriptor) :=
  let bytes_read := Z.of_nat (length got) in
  if min_bytes <=? bytes_read then Ok (got, d)
  else match fuel with
  | O => Throw OUT_OF_FUEL
  | S fuel =>
      let to_read := max_bytes - bytes_read in
      let from := if pread then offset + bytes_read else fd_position d in
      match syscall d with
      | (Interrupted, d) => readImpl_loop fuel pread min_bytes max_bytes offset d got
      | (Failed, _) => Throw CANNOT_READ_FROM_FILE_DESCRIPTOR
      | (Transfer limit, d) =>
          let res := transfer limit to_read from d in
          if (length res =? 0)%nat then Ok (got, d)
          else
            let d := if pread then d else set_fd_position (fd_position d + Z.of_nat (length res)) d in
            readImpl_loop fuel pread min_bytes max_bytes offset d (got ++ res)
      end
  end.

Definition readImpl (s : ReadBufferFromFileDescriptor) (min_bytes max_bytes offset : Z) : result (bytes * Descriptor) :=
  if match file_size s with Some size => size <=? offset | None => false end then Ok ([], fd s)
  else readImpl_loop (S (Z.to_nat min_bytes + length (calls (fd s)))) (use_pread s) min_bytes max_bytes offset (fd s) [].

Abbreviation FileBuffer := (ReadBuffer ReadBufferFromFileDescriptor).

Definition fd_nextImpl (b : FileBuffer) : result (bool * FileBuffer) :=
  let s := impl b in
  let! (got, d) := readImpl s 1 (internal_buffer_size s) (file_offset_of_buffer_end s) in
  let bytes_read := Z.of_nat (length got) in
  let b := set_impl (set_fd (uwrap 64 (file_offset_of_buffer_end s + bytes_read)) d s) b in
  if bytes_read =? 0 then Ok (false, b) else Ok (true, set_working got (pos b) b).

Definition FromFileDescriptor : ReadImpl ReadBufferFromFileDescriptor := {|
  nextImpl := fd_nextImpl;
  bound s := (length (file (fd s)) - Z.to_nat (file_offset_of_buffer_end s))%nat |}.

Definition fd_getPosition (b : FileBuffer) : Z :=
  swrap 64 (file_offset_of_buffer_end (impl b) - (size_working b - pos b)).

Inductive Whence := SEEK_SET | SEEK_CUR | SEEK_END.

Definition fd_seek (offset : Z) (whence : Whence) (b : FileBuffer) : result (Z * FileBuffer) :=
  let s := impl b in
  let buffer_end := file_offset_of_buffer_end s in
  let pending := size_working b - pos b in
  let! new_pos :=
    match whence with
    | SEEK_SET => Ok (uwrap 64 offset)
    | SEEK_CUR => Ok (uwrap 64 (buffer_end - pending + offset))
    | SEEK_END => Throw ARGUMENT_OUT_OF_BOUND
    end in
  if uwrap 64 (new_pos + pending) =? buffer_end then Ok (new_pos, b)
  else if (uwrap 64 (buffer_end - size_working b) <=? new_pos) && (new_pos <=? buffer_end) then
    Ok (new_pos, set_pos (size_working b - buffer_end + new_pos) b)
  else
    let seek_pos := if 1 <? required_alignment s then new_pos / required_alignment s * required_alignment s else new_pos in
    let offset_after_seek_pos := new_pos - seek_pos in
    let b := resetWorkingBuffer b in
    let! d := if use_pread s then Ok (fd s) else lseek seek_pos (fd s) in
    let b := set_impl (set_fd seek_pos d s) b in
    let! b := if 0 <? offset_after_seek_pos then ignore FromFileDescriptor offset_after_seek_pos b else Ok b in
    Ok (seek_pos, b).

Definition rewind (b : FileBuffer) : result FileBuffer :=
  let s := impl b in
  let! d := if use_pread s then Ok (fd s) else lseek 0 (fd s) in
  Ok (set_impl (set_fd 0 d s) (set_working [] 0 b)).

(** [readBigAt] *)
Definition fd_readBigAt (n offset : Z) (b : FileBuffer) : result (bytes * FileBuffer) :=
  let! (got, d) := readImpl (impl b) n n offset in
  Ok (got, set_impl (set_fd (file_offset_of_buffer_end (impl b)) d (impl b)) b).

(** * What a file owes *)

Record FileOperations (S : Type) := {
  file_impl : ReadImpl S;
  seek : Z -> ReadBuffer S -> result (ReadBuffer S);
  getPosition : ReadBuffer S -> Z }.
Arguments file_impl {_}.
Arguments seek {_}.
Arguments getPosition {_}.

(** A reader of the file [F] that can be moved to any position of it. *)
Class FileSpec {S} (ops : FileOperations S) (F : bytes) (inv : ReadBuffer S -> bytes -> Prop) : Prop := {
  file_reader :: ReaderSpec (file_impl ops) inv;
  file_pieces :: WholePieces (file_impl ops) inv;
  file_position b data : inv b data ->
    getPosition ops b = Z.of_nat (length F) - Z.of_nat (length data) /\ data = drop (length F - length data) F;
  file_seek b data p : inv b data -> 0 <= p <= Z.of_nat (length F) ->
    exists b', seek ops p b = Ok b' /\ inv b' (drop (Z.to_nat p) F) }.

Definition FileDescriptorOperations : FileOperations ReadBufferFromFileDescriptor := {|
  file_impl := FromFileDescriptor;
  seek p b := let! (_, b) := fd_seek p SEEK_SET b in Ok b;
  getPosition := fd_getPosition |}.

(** * Proofs *)

(** What the documentation of the calls says: they transfer at least a byte, except
    at the end of the file. *)
Definition valid_calls (cs : list Syscall) : Prop :=
  Forall (fun c => match c with Transfer limit => 0 < limit | _ => True end) cs.

Lemma syscall_cases d :
  (syscall d = (Transfer (2 ^ 63), d) /\ calls d = []) \/
  (exists c cs, syscall d = (c, {| file := file d; fd_position := fd_position d; calls := cs |}) /\ calls d = c :: cs).
Proof. unfold syscall. destruct (calls d) as [|c cs]; [by left|right; by exists c, cs]. Qed.

(** The result of the loop: the bytes of the file from [offset] on, as many as were
    required unless the file ends. *)
Definition read_ok (pread : bool) (min_bytes max_bytes offset : Z) (d : Descriptor) (r : result (bytes * Descriptor))
  : Prop :=
  match r with
  | Ok (got, d') =>
      (exists rest, drop (Z.to_nat offset) (file d) = got ++ rest /\ (rest <> [] -> min_bytes <= Z.of_nat (length got))) /\
      Z.of_nat (length got) <= max_bytes /\ file d' = file d /\ calls d' `suffix_of` calls d /\
      (pread = false -> fd_position d' = offset + Z.of_nat (length got))
  | Throw e => e = CANNOT_READ_FROM_FILE_DESCRIPTOR /\ Failed ∈ calls d
  end.

Lemma read_ok_weaken pread mn mx offset d d0 r :
  read_ok pread mn mx offset d r -> file d = file d0 -> calls d `suffix_of` calls d0 -> read_ok pread mn mx offset d0 r.
Proof.
  destruct r as [[got d']|e]; simpl.
  - intros (Hr & Hm & Hf & Hc & Hp) E Hs. rewrite <- E. split_and!; try done. by etrans.
  - intros [-> Hin] _ [pre Hs]. split; [done|]. rewrite Hs. apply elem_of_app. by right.
Qed.

Lemma readImpl_loop_spec fuel pread mn mx offset d got rest :
  valid_calls (calls d) -> 0 <= offset -> mn <= mx -> mx < 2 ^ 63 -> Z.of_nat (length got) <= mx ->
  drop (Z.to_nat offset) (file d) = got ++ rest ->
  (pread = false -> fd_position d = offset + Z.of_nat (length got)) ->
  (Z.to_nat (mn - Z.of_nat (length got)) + length (calls d) < fuel)%nat ->
  read_ok pread mn mx offset d (readImpl_loop fuel pread mn mx offset d got).
Proof.
  revert d got rest. induction fuel as [|fuel IH]; intros d got rest Hv Ho Hmn Hmx Hg Hd Hp Hf; [lia|].
  cbn [readImpl_loop]. destruct (Z.leb_spec mn (Z.of_nat (length got))) as [Hdone|Hmore].
  { split_and!; [by exists rest|lia|done|done|done]. }
  assert (Hfrom : drop (Z.to_nat (if pread then offset + Z.of_nat (length got) else fd_position d)) (file d) = rest).
  { replace (if pread then _ else _) with (offset + Z.of_nat (length got)) by (destruct pread; [done|by rewrite Hp]).
    rewrite Z2Nat.inj_add, Nat2Z.id, <- drop_drop, Hd by lia. apply drop_app_length. }
  assert (Hcase : forall limit d', 0 < limit -> file d' = file d -> fd_position d' = fd_position d ->
    calls d' `suffix_of` calls d -> (length (calls d') <= length (calls d))%nat ->
    read_ok pread mn mx offset d
     (let res := transfer limit (mx - Z.of_nat (length got))
        (if pread then offset + Z.of_nat (length got) else fd_position d) d' in
      if (length res =? 0)%nat then Ok (got, d')
      else readImpl_loop fuel pread mn mx offset
        (if pread then d' else set_fd_position (fd_position d' + Z.of_nat (length res)) d') (got ++ res))).
  { intros limit d' Hlim Ef Ep Hs Hl. unfold transfer. rewrite Ef, Hfrom. set (m := Z.to_nat _). cbv zeta.
    destruct (Nat.eqb_spec (length (take m rest)) 0) as [E|E].
    { split_and!; [|lia|done|done|by rewrite Ep]. exists rest. split; [done|]. intros Hne. simpl_len.
      destruct rest; [done|]. simpl in *. lia. }
    assert (Hfile : forall x, file (if pread then d' else set_fd_position x d') = file d) by (by destruct pread).
    assert (Hcalls : forall x, calls (if pread then d' else set_fd_position x d') = calls d') by (by destruct pread).
    eapply read_ok_weaken; [apply (IH _ _ (drop m rest))|by rewrite Hfile|by rewrite Hcalls].
    - rewrite Hcalls. destruct Hs as [pre Hs]. unfold valid_calls in Hv. rewrite Hs in Hv. by apply Forall_app in Hv as [_ ?].
    - done.
    - done.
    - done.
    - simpl_len. lia.
    - by rewrite Hfile, <- app_assoc, take_drop.
    - intros ->. simpl. rewrite Ep, Hp by done. simpl_len. lia.
    - rewrite Hcalls. simpl_len. lia. }
  destruct (syscall_cases d) as [[-> Hcs]|(c & cs & -> & Hcs)]; [by apply (Hcase _ d)|].
  assert (Hv' := Hv). rewrite Hcs in Hv'. apply Forall_cons in Hv' as [Hc Hv'].
  assert (Hs : cs `suffix_of` calls d) by (rewrite Hcs; by exists [c]).
  destruct c as [| |limit].
  - eapply read_ok_weaken; [apply (IH _ got rest); simpl; try done; rewrite Hcs in Hf; simpl in Hf; lia|done|done].
  - split; [done|]. rewrite Hcs. left.
  - apply (Hcase limit {| file := file d; fd_position := fd_position d; calls := cs |}); simpl; try done.
    rewrite Hcs. simpl. lia.
Qed.

(** The state of a buffer over the file [F], that will deliver [data]. *)
Record fd_state (F : bytes) (b : FileBuffer) (data : bytes) : Prop := {
  fd_file : file (fd (impl b)) = F;
  fd_small : Z.of_nat (length F) < 2 ^ 63;
  fd_calls : valid_calls (calls (fd (impl b)));
  fd_internal : 0 < internal_buffer_size (impl b) < 2 ^ 63;
  fd_aligned : 0 <= required_alignment (impl b);
  fd_size : match file_size (impl b) with Some n => n = Z.of_nat (length F) | None => True end;
  fd_kernel : use_pread (impl b) = false -> fd_position (fd (impl b)) = file_offset_of_buffer_end (impl b);
  fd_pos : 0 <= pos b <= size_working b;
  fd_end : size_working b <= file_offset_of_buffer_end (impl b) <= Z.of_nat (length F);
  fd_working : drop (Z.to_nat (file_offset_of_buffer_end (impl b) - size_working b)) F =
    working_buffer b ++ drop (Z.to_nat (file_offset_of_buffer_end (impl b))) F;
  fd_data : data = drop (Z.to_nat (file_offset_of_buffer_end (impl b) - (size_working b - pos b))) F;
  fd_offset : nextimpl_working_buffer_offset b = 0 }.

(** No call will fail. *)
Definition fd_inv (F : bytes) (b : FileBuffer) (data : bytes) : Prop :=
  fd_state F b data /\ Failed ∉ calls (fd (impl b)).

Section FileDescriptor.
Context (F : bytes).

Lemma fd_state_pending b data : fd_state F b data ->
  data = drop (Z.to_nat (pos b)) (working_buffer b) ++ drop (Z.to_nat (file_offset_of_buffer_end (impl b))) F.
Proof.
  intros H. pose proof (fd_pos F b data H). pose proof (fd_end F b data H). rewrite (fd_data F b data H).
  replace (Z.to_nat _) with (Z.to_nat (file_offset_of_buffer_end (impl b) - size_working b) + Z.to_nat (pos b))%nat by lia.
  rewrite <- drop_drop, (fd_working F b data H), drop_app_le; [done|]. unfold size_working in *. lia.
Qed.

Lemma fd_state_pos b data p : fd_state F b data -> 0 <= p <= size_working b ->
  fd_state F (set_pos p b) (drop (Z.to_nat (file_offset_of_buffer_end (impl b) - (size_working b - p))) F).
Proof. intros [] Hp. by split. Qed.

(** A call of [nextImpl] at the end of what the buffer holds. *)
Lemma fd_next_state b data n :
  fd_state F b data ->
  match fd_nextImpl (set_bytes n b) with
  | Ok (true, b') => fd_state F (arrived b') (drop (Z.to_nat (file_offset_of_buffer_end (impl b))) F) /\
      0 < size_working b' /\ nextimpl_working_buffer_offset b' = 0 /\
      file_offset_of_buffer_end (impl b) < file_offset_of_buffer_end (impl b') <= Z.of_nat (length F) /\
      calls (fd (impl b')) `suffix_of` calls (fd (impl b))
  | Ok (false, b') => fd_state F (exhausted b') [] /\ file_offset_of_buffer_end (impl b) = Z.of_nat (length F) /\
      file_offset_of_buffer_end (impl b') = file_offset_of_buffer_end (impl b) /\
      calls (fd (impl b')) `suffix_of` calls (fd (impl b))
  | Throw e => e = CANNOT_READ_FROM_FILE_DESCRIPTOR /\ Failed ∈ calls (fd (impl b))
  end.
Proof.
  intros H. unfold fd_nextImpl. cbn [impl set_bytes]. set (s := impl b). set (e := file_offset_of_buffer_end s).
  destruct H as [Hfile Hsmall Hcalls Hint Halign Hsize Hker Hpos Hend Hw Hd Ho]. fold s e in Hfile, Hcalls, Hint, Hsize, Hker, Hend.
  assert (Hr : read_ok (use_pread s) 1 (internal_buffer_size s) e (fd s) (readImpl s 1 (internal_buffer_size s) e)).
  { unfold readImpl. destruct (match file_size s with Some _ => _ | None => _ end) eqn:Es.
    - destruct (file_size s) as [z|]; [|done]. apply Z.leb_le in Es. subst z. split_and!; [|simpl; lia|done|done|].
      + exists []. rewrite Hfile, drop_ge by lia. done.
      + intros E. rewrite Hker by done. simpl. lia.
    - apply (readImpl_loop_spec _ _ _ _ _ _ [] (drop (Z.to_nat e) (file (fd s)))); simpl; try done; try lia.
      intros E. rewrite Hker by done. lia. }
  destruct (readImpl s 1 _ e) as [[got d']|err]; simpl in Hr; [|done]. cbn [rbind].
  destruct Hr as ((rest & Hgot & Hrest) & Hmax & Hfile' & Hcs & Hp'). rewrite Hfile in Hgot, Hfile'.
  assert (Hv' : valid_calls (calls d')).
  { destruct Hcs as [pre Hcs]. unfold valid_calls in Hcalls. rewrite Hcs in Hcalls. by apply Forall_app in Hcalls as [_ ?]. }
  assert (Hlen : Z.of_nat (length got) + Z.of_nat (length rest) = Z.of_nat (length F) - e).
  { apply (f_equal length) in Hgot. simpl_len. lia. }
  assert (Eend : uwrap 64 (e + Z.of_nat (length got)) = e + Z.of_nat (length got)).
  { apply uwrap_small. unfold in_unsigned. lia. }
  rewrite Eend. assert (Hrest' : drop (Z.to_nat (e + Z.of_nat (length got))) F = rest).
  { rewrite Z2Nat.inj_add, Nat2Z.id, <- drop_drop, Hgot by lia. apply drop_app_length. }
  destruct (Z.eqb_spec (Z.of_nat (length got)) 0) as [E0|E0].
  - destruct rest as [|]; [|specialize (Hrest ltac:(done)); lia]. destruct got; [|done]. simpl in *.
    split_and!; [|lia|lia|done]. unfold exhausted. split; simpl; unfold size_working; simpl; try done; try lia.
    + do 2 f_equal. lia.
    + rewrite <- Hgot. do 2 f_equal. lia.
  - split_and!; simpl; unfold size_working; simpl; try done; try lia.
    split; unfold arrived; simpl; unfold size_working; simpl; rewrite ?Ho; try done; try lia.
    + replace (_ - _) with e by lia. by rewrite Hrest'.
    + f_equal. lia.
Qed.

#[export] Instance fd_reader : ReaderSpec FromFileDescriptor (fd_inv F).
Proof.
  split.
  - intros b data [H _]. pose proof (fd_pos F b data H). pose proof (fd_end F b data H).
    pose proof (fd_small F b data H). lia.
  - intros b data [H Hf]. exists (drop (Z.to_nat (file_offset_of_buffer_end (impl b))) F).
    split; [by apply fd_state_pending|]. intros p Hp. split; [|done]. pose proof (fd_pos F b data H).
    pose proof (fd_state_pos b data p H ltac:(lia)) as Hb. by rewrite (fd_state_pending _ _ Hb) in Hb.
  - intros b [H Hf]. set (n := uwrap 64 (bytes_before b + offset b)). pose proof (fd_next_state b [] n H) as Hn. pose proof (fd_state_pending b [] H) as Hd.
    symmetry in Hd. apply app_nil in Hd as [_ Hd]. cbn [nextImpl FromFileDescriptor].
    destruct (fd_nextImpl _) as [[[] b']|e].
    + destruct Hn as (Hn & Hs & _ & Hlt & _). apply (f_equal length) in Hd.
      pose proof (fd_end F b [] H). unfold size_working in *. simpl_len. lia.
    + destruct Hn as (Hn & _ & _ & [pre Hc]). eexists. split; [done|]. split; [done|]. simpl. rewrite Hc in Hf. set_solver.
    + by destruct Hn.
  - intros b data [H Hf] Hne Hp. set (n := uwrap 64 (bytes_before b + offset b)). pose proof (fd_next_state b data n H) as Hn. cbn [nextImpl FromFileDescriptor].
    assert (Hd : data = drop (Z.to_nat (file_offset_of_buffer_end (impl b))) F).
    { rewrite (fd_data F b data H). do 2 f_equal. lia. }
    destruct (fd_nextImpl _) as [[[] b']|e].
    + destruct Hn as (Hn & Hs & Ho & _ & [pre Hc]). eexists. split; [done|]. split; [split|].
      * by rewrite Hd.
      * simpl. rewrite Hc in Hf. set_solver.
      * simpl. rewrite Ho. lia.
    + destruct Hn as (_ & He & _). rewrite He, drop_ge in Hd by lia. done.
    + by destruct Hn.
Qed.

#[export] Instance fd_whole_pieces : WholePieces FromFileDescriptor (fd_inv F).
Proof.
  split.
  - intros b data b' [H _] Hn. pose proof (fd_next_state b data (uwrap 64 (bytes_before b + offset b)) H) as Hs. cbn [nextImpl FromFileDescriptor] in Hn.
    rewrite Hn in Hs. destruct Hs as (_ & Hs & Ho & _). simpl. rewrite Ho. unfold size_working in *. lia.
  - intros b data p [H Hf] Hp. split; [|done]. pose proof (fd_pos F b data H).
    pose proof (fd_state_pos b data p H ltac:(lia)) as Hb. rewrite (fd_state_pending _ _ Hb) in Hb.
    rewrite (fd_state_pending _ _ H), drop_app_length' by (unfold size_working in *; simpl_len; lia). done.
Qed.

Lemma fd_getPosition_state b data : fd_state F b data ->
  fd_getPosition b = file_offset_of_buffer_end (impl b) - (size_working b - pos b) /\
  fd_getPosition b = Z.of_nat (length F) - Z.of_nat (length data) /\ data = drop (length F - length data) F.
Proof.
  intros H. pose proof (fd_pos F b data H). pose proof (fd_end F b data H). pose proof (fd_small F b data H).
  assert (E : fd_getPosition b = file_offset_of_buffer_end (impl b) - (size_working b - pos b)).
  { apply swrap_small; [lia|]. unfold in_signed. lia. }
  pose proof (fd_data F b data H) as Hd. assert (Hl := f_equal length Hd). simpl_len.
  split_and!; [done|rewrite E; lia|]. rewrite Hd at 1. f_equal. lia.
Qed.

(** An empty buffer at the position [p] of the file. *)
Lemma fd_state_reset b data p d : fd_state F b data -> 0 <= p <= Z.of_nat (length F) ->
  file d = F -> calls d = calls (fd (impl b)) -> (use_pread (impl b) = false -> fd_position d = p) ->
  fd_state F (set_impl (set_fd p d (impl b)) (resetWorkingBuffer b)) (drop (Z.to_nat p) F).
Proof.
  intros [] Hp Hf Hc Hk. split; simpl; unfold size_working; simpl; try done; try lia.
  - by rewrite Hc.
  - do 2 f_equal. lia.
  - do 2 f_equal. lia.
Qed.

Lemma fd_real_seek b data p sp :
  fd_inv F b data -> 0 <= sp <= p -> p <= Z.of_nat (length F) ->
  exists b', (let! d := if use_pread (impl b) then Ok (fd (impl b)) else lseek sp (fd (impl b)) in
    let b0 := set_impl (set_fd sp d (impl b)) (resetWorkingBuffer b) in
    let! b1 := if 0 <? p - sp then ignore FromFileDescriptor (p - sp) b0 else Ok b0 in Ok (sp, b1)) = Ok (sp, b') /\
    fd_inv F b' (drop (Z.to_nat p) F).
Proof.
  intros [H Hf] Hsp Hp. assert (exists d, (if use_pread (impl b) then Ok (fd (impl b)) else lseek sp (fd (impl b))) = Ok d /\
    file d = F /\ calls d = calls (fd (impl b)) /\ (use_pread (impl b) = false -> fd_position d = sp))
    as (d & -> & Hd & Hc & Hk).
  { pose proof (fd_file F b data H). unfold lseek. destruct (use_pread (impl b)); [by eexists|].
    destruct (Z.ltb_spec sp 0); [lia|]. by eexists. }
  cbn [rbind]. cbv zeta. pose proof (fd_state_reset b data sp d H ltac:(lia) Hd Hc Hk) as Hb.
  set (b0 := set_impl _ _) in *. assert (Hi : fd_inv F b0 (drop (Z.to_nat sp) F)) by (split; [done|simpl; by rewrite Hc]).
  destruct (Z.ltb_spec 0 (p - sp)).
  - pose proof (ignore_spec FromFileDescriptor (fd_inv F) (p - sp) b0 _ Hi ltac:(lia)) as Hg.
    destruct (Z.leb_spec (p - sp) (Z.of_nat (length (drop (Z.to_nat sp) F)))); [|simpl_len; lia].
    destruct Hg as (b1 & -> & Hg). eexists. split; [done|]. rewrite drop_drop in Hg.
    by replace (Z.to_nat sp + Z.to_nat (p - sp))%nat with (Z.to_nat p) in Hg by lia.
  - eexists. split; [done|]. by replace p with sp by lia.
Qed.

(** [seek] moves to any position of the file; the value it returns is this position,
    unless alignment is required. *)
Lemma fd_seek_spec b data p :
  fd_inv F b data -> 0 <= p <= Z.of_nat (length F) ->
  exists r b', fd_seek p SEEK_SET b = Ok (r, b') /\ fd_inv F b' (drop (Z.to_nat p) F) /\
    (required_alignment (impl b) <= 1 -> r = p).
Proof.
  intros Hinv Hp. pose proof Hinv as [H Hf]. pose proof (fd_aligned F b data H). pose proof (fd_pos F b data H). pose proof (fd_end F b data H).
  pose proof (fd_small F b data H). unfold fd_seek. cbv zeta. cbn [rbind].
  rewrite (uwrap_small 64 p) by (unfold in_unsigned; lia).
  rewrite (uwrap_small 64 (p + _)) by (unfold in_unsigned; lia).
  rewrite (uwrap_small 64 (_ - size_working b)) by (unfold in_unsigned; lia).
  set (e := file_offset_of_buffer_end (impl b)) in *.
  destruct (Z.eqb_spec (p + (size_working b - pos b)) e) as [E|E].
  { exists p, b. split_and!; [done| |done]. rewrite (fd_data F b data H) in Hinv.
    by replace (Z.to_nat p) with (Z.to_nat (e - (size_working b - pos b))) by lia. }
  set (sp := if 1 <? required_alignment (impl b) then _ else p).
  assert (Hsp : 0 <= sp <= p /\ (required_alignment (impl b) <= 1 -> sp = p)).
  { unfold sp. destruct (Z.ltb_spec 1 (required_alignment (impl b))); [|lia].
    pose proof (Z.mul_div_le p (required_alignment (impl b)) ltac:(lia)).
    pose proof (Z.div_pos p (required_alignment (impl b)) ltac:(lia) ltac:(lia)). nia. }
  destruct (_ && _) eqn:Ein.
  2: { destruct (fd_real_seek b data p sp Hinv) as (b' & E' & Hb); [lia|lia|].
       cbv zeta in E'. rewrite E'. exists sp, b'. split_and!; [done|done|apply Hsp]. }
  apply andb_true_iff in Ein as [?%Z.leb_le ?%Z.leb_le].
  exists p. eexists. split_and!; [done|split; [|done]|done].
  pose proof (fd_state_pos b data (size_working b - e + p) H ltac:(lia)) as Hb. fold e in Hb.
  by replace (e - (size_working b - (size_working b - e + p))) with p in Hb by lia.
Qed.

#[export] Instance fd_file_spec : FileSpec FileDescriptorOperations F (fd_inv F).
Proof.
  split; [apply fd_reader|apply fd_whole_pieces| |].
  - intros b data [H _]. by apply fd_getPosition_state.
  - intros b data p H Hp. destruct (fd_seek_spec b data p H Hp) as (r & b' & E & Hb & _). exists b'.
    simpl. by rewrite E.
Qed.

(** Calls that fail are reported, and nothing is accessed out of bounds. *)
#[export] Instance fd_safe : SafeReader FromFileDescriptor (fun b => exists data, fd_state F b data).
Proof.
  split.
  - intros b [data H]. pose proof (fd_pos F b data H). pose proof (fd_end F b data H).
    pose proof (fd_small F b data H). lia.
  - intros b p [data H] Hp. eexists. by eapply fd_state_pos.
  - intros b n [data H]. pose proof (fd_next_state b data n H) as Hn. pose proof (fd_file F b data H).
    pose proof (fd_end F b data H). cbn [nextImpl FromFileDescriptor bound].
    destruct (fd_nextImpl _) as [[[] b']|e].
    + destruct Hn as (Hn & Hs & _ & Hlt & _). split; [by eexists|]. pose proof (fd_file F _ _ Hn) as Hf'. simpl in Hf'.
      rewrite Hf', H0. unfold size_working in *. lia.
    + destruct Hn as (Hn & _ & E & _). split; [by eexists|]. pose proof (fd_file F _ _ Hn) as Hf'. simpl in Hf'.
      rewrite Hf', H0, E. lia.
    + by destruct Hn as [-> _].
Qed.

End FileDescriptor.

(** * Theorems *)

(** A freshly constructed buffer. *)
Definition open_file (F : bytes) (buf_size alignment : Z) (pread : bool) (size : option Z) (cs : list Syscall) : FileBuffer :=
  {| working_buffer := []; pos := 0; bytes_before := 0; nextimpl_working_buffer_offset := 0;
     impl := {| required_alignment := alignment; use_pread := pread; file_size := size;
       internal_buffer_size := buf_size; file_offset_of_buffer_end := 0;
       fd := {| file := F; fd_position := 0; calls := cs |} |} |}.

Lemma open_file_inv F buf_size alignment pread size cs :
  Z.of_nat (length F) < 2 ^ 63 -> 0 < buf_size < 2 ^ 63 -> 0 <= alignment -> valid_calls cs -> Failed ∉ cs ->
  match size with Some n => n = Z.of_nat (length F) | None => True end ->
  fd_inv F (open_file F buf_size alignment pread size cs) F.
Proof. intros. split; [|done]. split; simpl; unfold size_working; simpl; try done; lia. Qed.

(** C27: reading a file through a buffer, with any size of the buffer and whatever
    pieces the system calls return, gives the answers of the same operations on the
    contents of the file: bytes, ends of file and exceptions alike. *)
Theorem file_buffer_refines (F : bytes) (buf_size alignment : Z) (pread : bool) (size : option Z)
    (cs : list Syscall) (ops : list Operation) :
  Z.of_nat (length F) < 2 ^ 63 -> 0 < buf_size < 2 ^ 63 -> 0 <= alignment -> valid_calls cs -> Failed ∉ cs ->
  match size with Some n => n = Z.of_nat (length F) | None => True end -> Forall valid_operation ops ->
  operate_all FromFileDescriptor ops (open_file F buf_size alignment pread size cs) = flat_all ops F.
Proof. intros. apply (operate_all_flat _ (fd_inv F)); [by apply open_file_inv|done]. Qed.

Lemma file_buffer_refines_witness :
  operate_all FromFileDescriptor [OpRead 3; OpPeek; OpTryIgnore 2; OpReadStrict1; OpEof; OpReadStrict 1]
    (open_file [10; 20; 30; 40; 50; 60] 2 0 false None [Interrupted; Transfer 1; Interrupted]) =
  [Ok (Bytes [10; 20; 30]); Ok (Byte (Some 40)); Ok (Number 2); Ok (Byte (Some 60)); Ok (Flag true);
   Throw CANNOT_READ_ALL_DATA].
Proof.
  apply (file_buffer_refines [10; 20; 30; 40; 50; 60] 2 0 false None [Interrupted; Transfer 1; Interrupted]);
    [done|done|done|by repeat (apply Forall_cons_2; [done|])|by apply (bool_decide_unpack _)|done
    |by repeat (apply Forall_cons_2; [done|])].
Defined.

(** With an alignment, as for direct input and output, [seek] returns the aligned
    position below the one it moved to. *)
Lemma fd_seek_returns_aligned :
  match fd_seek 5 SEEK_SET (open_file [0; 1; 2; 3; 4; 5; 6; 7] 4 4 true None []) with
  | Ok (returned, b) => returned = 4 /\ fd_getPosition b = 5
  | Throw _ => False
  end.
Proof. by vm_compute. Qed.
