(* ===== verification/WriteBuffer.v ===== *)
(** Buffered writing: [WriteBuffer] (src/IO/BufferBase.h, src/IO/WriteBuffer.{h,cpp})
    over the virtual methods of its derived classes, with the state that exceptions
    leave behind, and the writer of a file descriptor
    (src/IO/WriteBufferFromFileDescriptor.cpp). *)
From S2P Require Import Prelude IntText BinaryIO ReadBuffer ReadBufferFromFile.

(** * The buffer *)

(** [pending] are the bytes from the beginning of the working buffer to the cursor;
    what the memory holds after the cursor is never read. *)
Record WriteBuffer (S : Type) := {
  pending : bytes;
  capacity : Z;
  written_before : Z;
  w_nextimpl_offset : Z;
  finalized : bool;
  canceled : bool;
  w_impl : S }.
Arguments Build_WriteBuffer {_}.
Arguments pending {_}.
Arguments capacity {_}.
Arguments written_before {_}.
Arguments w_nextimpl_offset {_}.
Arguments finalized {_}.
Arguments canceled {_}.
Arguments w_impl {_}.

(** An operation that may throw, and leaves a state behind in either case. *)
Definition outcome (St : Type) : Type := result unit * St.

Definition andthen {St} (r : outcome St) (k : St -> outcome St) : outcome St :=
  match r with (Ok _, s) => k s | (Throw e, s) => (Throw e, s) end.
Notation "r '>>' k" := (andthen r k) (at level 61, k at next level, left associativity) : result_scope.

(** A derived class. *)
Record WriteImpl (S : Type) := {
  w_nextImpl : WriteBuffer S -> outcome (WriteBuffer S);
  cancelImpl : WriteBuffer S -> WriteBuffer S }.
Arguments w_nextImpl {_}.
Arguments cancelImpl {_}.

Section Operations.
Context {S : Type} (I : WriteImpl S).
Implicit Types b : WriteBuffer S.

Definition set_pending (bs : bytes) b : WriteBuffer S :=
  {| pending := bs; capacity := capacity b; written_before := written_before b;
     w_nextimpl_offset := w_nextimpl_offset b; finalized := finalized b; canceled := canceled b; w_impl := w_impl b |}.

(** [BufferBase::set] with the offset 0 *)
Definition set_memory (size : Z) b : WriteBuffer S :=
  {| pending := []; capacity := size; written_before := written_before b;
     w_nextimpl_offset := w_nextimpl_offset b; finalized := finalized b; canceled := canceled b; w_impl := w_impl b |}.

Definition set_written (n : Z) b : WriteBuffer S :=
  {| pending := pending b; capacity := capacity b; written_before := n;
     w_nextimpl_offset := w_nextimpl_offset b; finalized := finalized b; canceled := canceled b; w_impl := w_impl b |}.

Definition set_w_offset (n : Z) b : WriteBuffer S :=
  {| pending := pending b; capacity := capacity b; written_before := written_before b;
     w_nextimpl_offset := n; finalized := finalized b; canceled := canceled b; w_impl := w_impl b |}.

Definition set_flags (f c : bool) b : WriteBuffer S :=
  {| pending := pending b; capacity := capacity b; written_before := written_before b;
     w_nextimpl_offset := w_nextimpl_offset b; finalized := f; canceled := c; w_impl := w_impl b |}.

Definition set_w_impl (s : S) b : WriteBuffer S :=
  {| pending := pending b; capacity := capacity b; written_before := written_before b;
     w_nextimpl_offset := w_nextimpl_offset b; finalized := finalized b; canceled := canceled b; w_impl := s |}.

Definition w_offset b : Z := Z.of_nat (length (pending b)).
Definition w_available b : Z := capacity b - w_offset b.
Definition w_count b : Z := uwrap 64 (written_before b + w_offset b).

(** Writing at the cursor and moving it. *)
Definition push (bs : bytes) b : WriteBuffer S := set_pending (pending b ++ bs) b.

Definition cancel b : WriteBuffer S :=
  if canceled b || finalized b then b
  else let b := cancelImpl I b in set_flags (finalized b) true b.

(** The state after a successful [nextImpl]. *)
Definition passed (bytes_in_buffer : Z) b : WriteBuffer S :=
  set_w_offset 0 (set_pending (take (Z.to_nat (w_nextimpl_offset b)) (pending b))
    (set_written (uwrap 64 (written_before b + bytes_in_buffer)) b)).

(** The state in the handlers of exceptions. *)
Definition dropped (bytes_in_buffer : Z) b : WriteBuffer S :=
  set_pending [] (set_written (uwrap 64 (written_before b + bytes_in_buffer)) b).

Definition w_next b : outcome (WriteBuffer S) :=
  if canceled b then (Ok tt, b)
  else if w_offset b =? 0 then (Ok tt, b)
  else
    let bytes_in_buffer := w_offset b in
    match w_nextImpl I b with
    | (Ok _, b) => (Ok tt, passed bytes_in_buffer b)
    | (Throw CURRENT_BUFFER_EXHAUSTED, b) => (Throw CURRENT_BUFFER_EXHAUSTED, dropped bytes_in_buffer b)
    | (Throw e, b) => (Throw e, cancel (dropped bytes_in_buffer b))
    end.

Definition w_nextIfAtEnd b : outcome (WriteBuffer S) :=
  if w_available b <=? 0 then w_next b else (Ok tt, b).

(** The loop of [write(const char *, size_t)]. *)
Fixpoint write_loop (fuel : nat) (from : bytes) b : outcome (WriteBuffer S) :=
  match from, fuel with
  | [], _ => (Ok tt, b)
  | _, O => (Throw OUT_OF_FUEL, b)
  | _, Datatypes.S fuel =>
      w_nextIfAtEnd b >> fun b =>
      let bytes_to_copy := Z.to_nat (Z.min (w_available b) (Z.of_nat (length from))) in
      write_loop fuel (drop bytes_to_copy from) (push (take bytes_to_copy from) b)
  end.

Definition write (from : bytes) b : outcome (WriteBuffer S) :=
  if finalized b then (Throw LOGICAL_ERROR, b)
  else if canceled b then (Throw CANNOT_WRITE_AFTER_BUFFER_CANCELED, b)
  else write_loop (Datatypes.S (length from)) from b.

(** [write(char)] *)
Definition write_one (x : Z) b : outcome (WriteBuffer S) :=
  if finalized b then (Throw LOGICAL_ERROR, b)
  else if canceled b then (Throw LOGICAL_ERROR, b)
  else
    w_nextIfAtEnd b >> fun b =>
    if w_available b <=? 0 then (Throw OUT_OF_BOUNDS_ACCESS, b) else (Ok tt, push [x] b).

(** [finalizeImpl] of [WriteBuffer] itself is [w_next]. *)
Definition finalize (finalizeImpl : WriteBuffer S -> outcome (WriteBuffer S)) b : outcome (WriteBuffer S) :=
  if finalized b then (Ok tt, b)
  else if canceled b then (Throw LOGICAL_ERROR, b)
  else
    match finalizeImpl b with
    | (Ok _, b) => (Ok tt, set_flags true (canceled b) b)
    | (Throw e, b) => (Throw e, cancel (set_pending [] b))
    end.

End Operations.

Lemma empty_available {S} (b : WriteBuffer S) : pending b = [] -> 0 < capacity b -> 0 < w_available b.
Proof. intros Hp Hc. unfold w_available, w_offset. rewrite Hp. simpl. lia. Qed.

Lemma offset_nonempty {S} (b : WriteBuffer S) : pending b <> [] -> (w_offset b =? 0) = false.
Proof. intros Hne. unfold w_offset. by destruct (pending b). Qed.

Lemma w_next_empty {S} (I : WriteImpl S) (b : WriteBuffer S) : pending b = [] -> w_next I b = (Ok tt, b).
Proof. intros E. unfold w_next, w_offset. rewrite E. by destruct (canceled b). Qed.

(** The count of bytes. *)
Lemma push_count {S} (b : WriteBuffer S) (data bs : bytes) :
  w_count b = uwrap 64 (Z.of_nat (length data)) -> w_count (push bs b) = uwrap 64 (Z.of_nat (length (data ++ bs))).
Proof.
  unfold w_count, w_offset, uwrap. simpl. simpl_len. rewrite !Nat2Z.inj_add, Z.add_assoc. intros H.
  by rewrite <- Z.add_mod_idemp_l, H, Z.add_mod_idemp_l.
Qed.

Lemma passed_count {S} (b b' : WriteBuffer S) :
  pending (passed (w_offset b) b') = [] -> written_before b' = written_before b -> w_count (passed (w_offset b) b') = w_count b.
Proof.
  intros Hp Hw. unfold w_count. assert (E : w_offset (passed (w_offset b) b') = 0) by (unfold w_offset at 1; by rewrite Hp).
  rewrite E, Z.add_0_r. simpl. rewrite Hw. unfold uwrap. by rewrite Z.mod_mod.
Qed.

(** * What a derived class owes *)

(** [inv b data]: the buffer is in order and accepted the bytes [data] so far. *)
Class WriterSpec {S} (I : WriteImpl S) (inv : WriteBuffer S -> bytes -> Prop) : Prop := {
  winv_bounds b data : inv b data ->
    w_offset b <= capacity b /\ 0 < capacity b /\ finalized b = false /\ canceled b = false;
  winv_push b data bs : inv b data -> is_bytes bs -> Z.of_nat (length bs) <= w_available b -> inv (push bs b) (data ++ bs);
  winv_next b data : inv b data -> pending b <> [] ->
    exists b', w_nextImpl I b = (Ok tt, b') /\ inv (passed (w_offset b) b') data /\ pending (passed (w_offset b) b') = [];
  winv_count b data : inv b data -> w_count b = uwrap 64 (Z.of_nat (length data)) }.

Section Flush.
Context {S : Type} (I : WriteImpl S) (inv : WriteBuffer S -> bytes -> Prop) `{!WriterSpec I inv}.
Implicit Types b : WriteBuffer S.

Lemma w_next_spec b data : inv b data ->
  exists b', w_next I b = (Ok tt, b') /\ inv b' data /\ pending b' = [].
Proof.
  intros H. destruct (winv_bounds b data H) as (_ & _ & _ & Hcanc). unfold w_next. rewrite Hcanc.
  destruct (Z.eqb_spec (w_offset b) 0) as [E|E]; unfold w_offset in E.
  - exists b. split_and!; [done|done|]. by destruct (pending b).
  - destruct (winv_next b data H) as (b' & -> & Hb & Ha); [|by eexists]. intros En. by rewrite En in E.
Qed.

Lemma w_available_empty b data : inv b data -> pending b = [] -> 0 < w_available b.
Proof. intros H Hp. destruct (winv_bounds b data H) as (_ & ? & _). by apply empty_available. Qed.

End Flush.

(** What writing needs of it: the buffer is flushed only when it is full. *)
Class AppenderSpec {S} (I : WriteImpl S) (inv : WriteBuffer S -> bytes -> Prop) : Prop := {
  ainv_open b data : inv b data -> finalized b = false /\ canceled b = false;
  ainv_push b data bs : inv b data -> is_bytes bs -> Z.of_nat (length bs) <= w_available b -> inv (push bs b) (data ++ bs);
  ainv_full b data : inv b data -> w_available b <= 0 ->
    exists b', w_next I b = (Ok tt, b') /\ inv b' data /\ 0 < w_available b' }.

#[export] Instance writer_appends {S} (I : WriteImpl S) inv `{!WriterSpec I inv} : AppenderSpec I inv.
Proof.
  split.
  - intros b data H. by destruct (winv_bounds b data H) as (_ & _ & ? & ?).
  - intros b data bs. apply winv_push.
  - intros b data H _. destruct (w_next_spec I inv b data H) as (b' & E & Hb & Hp). exists b'.
    split_and!; [done|done|]. by eapply w_available_empty.
Qed.

Section Theory.
Context {S : Type} (I : WriteImpl S) (inv : WriteBuffer S -> bytes -> Prop) `{!AppenderSpec I inv}.
Implicit Types b : WriteBuffer S.

Lemma w_nextIfAtEnd_spec b data : inv b data ->
  exists b', w_nextIfAtEnd I b = (Ok tt, b') /\ inv b' data /\ 0 < w_available b'.
Proof.
  intros H. unfold w_nextIfAtEnd. destruct (Z.leb_spec (w_available b) 0); [by apply ainv_full|by exists b].
Qed.

Lemma write_loop_spec fuel from b data :
  inv b data -> is_bytes from -> (length from < fuel)%nat ->
  exists b', write_loop I fuel from b = (Ok tt, b') /\ inv b' (data ++ from).
Proof.
  revert from b data. induction fuel as [|fuel IH]; intros from b data H Hb Hf; [lia|].
  destruct from as [|c from]; [exists b; by rewrite app_nil_r|]. cbn [write_loop].
  destruct (w_nextIfAtEnd_spec b data H) as (b1 & -> & H1 & Ha). cbn [andthen].
  set (n := Z.to_nat _). destruct (IH (drop n (c :: from)) (push (take n (c :: from)) b1) (data ++ take n (c :: from)))
    as (b2 & -> & H2).
  - apply ainv_push; [done|auto with bytesdb|]. simpl_len. lia.
  - auto with bytesdb.
  - simpl_len. subst n. lia.
  - exists b2. split; [done|]. by rewrite <- app_assoc, take_drop in H2.
Qed.

Lemma write_spec from b data :
  inv b data -> is_bytes from -> exists b', write I from b = (Ok tt, b') /\ inv b' (data ++ from).
Proof.
  intros H Hb. destruct (ainv_open b data H) as (Hf & Hc). unfold write. rewrite Hf, Hc.
  apply write_loop_spec; [done|done|lia].
Qed.

Lemma write_one_spec c b data :
  inv b data -> 0 <= c < 256 -> exists b', write_one I c b = (Ok tt, b') /\ inv b' (data ++ [c]).
Proof.
  intros H Hb. destruct (ainv_open b data H) as (Hf & Hc). unfold write_one. rewrite Hf, Hc.
  destruct (w_nextIfAtEnd_spec b data H) as (b1 & -> & H1 & Ha). cbn [andthen].
  destruct (Z.leb_spec (w_available b1) 0); [lia|]. eexists. split; [done|].
  apply ainv_push; [done|by apply Forall_singleton|simpl; lia].
Qed.

(** Many writes. *)
Fixpoint write_all (froms : list bytes) b : outcome (WriteBuffer S) :=
  match froms with
  | [] => (Ok tt, b)
  | from :: froms => write I from b >> write_all froms
  end.

Lemma write_all_spec froms b data :
  inv b data -> Forall is_bytes froms -> exists b', write_all froms b = (Ok tt, b') /\ inv b' (data ++ mjoin froms).
Proof.
  intros H Hf. revert b data H. induction Hf as [|from froms Hb Hf IH]; intros b data H; simpl.
  { exists b. by rewrite app_nil_r. }
  destruct (write_spec from b data H Hb) as (b1 & -> & H1). destruct (IH b1 _ H1) as (b2 & E & H2). exists b2. simpl.
  by rewrite E, app_assoc.
Qed.

End Theory.

(** * Failures *)

Section Failure.
Context {S : Type} (I : WriteImpl S).
Implicit Types b : WriteBuffer S.

(** [nextImpl] and [cancelImpl] leave the flags of the base class alone. *)
Definition keeps_flags : Prop :=
  (forall b, finalized (w_nextImpl I b).2 = finalized b /\ canceled (w_nextImpl I b).2 = canceled b) /\
  (forall b, finalized (cancelImpl I b) = finalized b).

(** Nothing more is written: the buffer refuses data, and its other methods do
    nothing. *)
Definition out_of_service b : Prop :=
  (forall from, write I from b = (Throw CANNOT_WRITE_AFTER_BUFFER_CANCELED, b)) /\ w_next I b = (Ok tt, b) /\
  cancel I b = b /\ forall finalizeImpl, finalize I finalizeImpl b = (Throw LOGICAL_ERROR, b).

Lemma canceled_out_of_service b : finalized b = false -> canceled b = true -> out_of_service b.
Proof. intros Hf Hc. unfold out_of_service, write, w_next, cancel, finalize. rewrite Hf, Hc. done. Qed.

Lemma cancel_out_of_service b : keeps_flags -> finalized b = false -> out_of_service (cancel I b).
Proof.
  intros [_ Hk] Hf. unfold cancel. rewrite Hf, orb_false_r. destruct (canceled b) eqn:Hc.
  - by apply canceled_out_of_service.
  - apply canceled_out_of_service; simpl; [by rewrite Hk|done].
Qed.

Lemma w_next_failure b e b' :
  keeps_flags -> finalized b = false -> w_next I b = (Throw e, b') -> e <> CURRENT_BUFFER_EXHAUSTED -> out_of_service b'.
Proof.
  intros Hk Hf. unfold w_next. destruct (canceled b); [done|]. destruct (w_offset b =? 0); [done|].
  pose proof (proj1 (proj1 Hk b)) as Hfb. rewrite Hf in Hfb. destruct (w_nextImpl I b) as [[[]|e1] b1]; [done|]. simpl in Hfb.
  destruct e1; intros [= <- <-] Hne; try done; by apply cancel_out_of_service.
Qed.

Lemma w_next_flags b : keeps_flags -> finalized (w_next I b).2 = finalized b.
Proof.
  intros Hk. unfold w_next. destruct (canceled b); [done|]. destruct (w_offset b =? 0); [done|].
  pose proof (proj1 (proj1 Hk b)) as Hfb. destruct (w_nextImpl I b) as [[[]|e1] b1]; simpl in *; [done|].
  assert (Hc : finalized (cancel I (dropped (w_offset b) b1)) = finalized b).
  { unfold cancel. destruct (_ || _); [done|]. simpl. by rewrite (proj2 Hk). }
  by destruct e1.
Qed.

Lemma write_loop_failure fuel from b e b' :
  keeps_flags -> finalized b = false -> write_loop I fuel from b = (Throw e, b') ->
  e <> CURRENT_BUFFER_EXHAUSTED -> e <> OUT_OF_FUEL -> out_of_service b'.
Proof.
  intros Hk. revert from b. induction fuel as [|fuel IH]; intros from b Hf Hw H1 H2;
    (destruct from as [|c from]; [done|]); cbn [write_loop] in Hw; [by injection Hw as <- _|].
  unfold w_nextIfAtEnd in Hw. destruct (w_available b <=? 0).
  - pose proof (w_next_flags b Hk) as Hfl. destruct (w_next I b) as [[[]|e1] b1] eqn:E; cbn [andthen] in Hw.
    + eapply IH; [|exact Hw|done|done]. simpl in *. congruence.
    + injection Hw as <- <-. by eapply w_next_failure.
  - eapply IH; [|exact Hw|done|done]. done.
Qed.

End Failure.

(** * [WriteBufferFromFileDescriptor] *)

(** The descriptor is at the end of its file; [write] appends. *)
Record WriteBufferFromFileDescriptor := {
  w_fd : Descriptor;
  use_adaptive_buffer_size : bool;
  adaptive_max_buffer_size : Z }.

Definition append (bs : bytes) (d : Descriptor) : Descriptor :=
  {| file := file d ++ bs; fd_position := fd_position d + Z.of_nat (length bs); calls := calls d |}.

(** The loop of [nextImpl]; [rest] are the bytes not written yet. *)
Fixpoint fd_write_loop (fuel : nat) (rest : bytes) (d : Descriptor) : outcome Descriptor :=
  match rest, fuel with
  | [], _ => (Ok tt, d)
  | _, O => (Throw OUT_OF_FUEL, d)
  | _, S fuel =>
      match syscall d with
      | (Interrupted, d) => fd_write_loop fuel rest d
      | (Failed, d) => (Throw CANNOT_WRITE_TO_FILE_DESCRIPTOR, d)
      | (Transfer limit, d) =>
          let res := Z.to_nat (Z.min limit (Z.of_nat (length rest))) in
          if (res =? 0)%nat then (Throw CANNOT_WRITE_TO_FILE_DESCRIPTOR, d)
          else fd_write_loop fuel (drop res rest) (append (take res rest) d)
      end
  end.

Abbreviation FileWriteBuffer := (WriteBuffer WriteBufferFromFileDescriptor).

Definition set_w_fd (d : Descriptor) (b : FileWriteBuffer) : FileWriteBuffer :=
  set_w_impl {| w_fd := d; use_adaptive_buffer_size := use_adaptive_buffer_size (w_impl b);
                adaptive_max_buffer_size := adaptive_max_buffer_size (w_impl b) |} b.

(** Twice the size, up to a maximum, if the buffer was full. *)
Definition grow_buffer {S} (adaptive : bool) (max_size : Z) (b : WriteBuffer S) : WriteBuffer S :=
  if (w_available b =? 0) && adaptive && (capacity b <? max_size)
  then set_memory (Z.min (uwrap 64 (capacity b * 2)) max_size) b else b.

Definition fd_w_nextImpl (b : FileWriteBuffer) : outcome FileWriteBuffer :=
  if w_offset b =? 0 then (Ok tt, b)
  else
    let (r, d) := fd_write_loop (S (length (pending b) + length (calls (w_fd (w_impl b))))) (pending b) (w_fd (w_impl b)) in
    let b := set_w_fd d b in
    match r with
    | Ok _ => (Ok tt, grow_buffer (use_adaptive_buffer_size (w_impl b)) (adaptive_max_buffer_size (w_impl b)) b)
    | Throw e => (Throw e, b)
    end.

Definition ToFileDescriptor : WriteImpl WriteBufferFromFileDescriptor := {|
  w_nextImpl := fd_w_nextImpl;
  cancelImpl b := b |}.

(** [finalizeImpl], for an open descriptor *)
Definition fd_finalizeImpl (b : FileWriteBuffer) : outcome FileWriteBuffer :=
  w_next ToFileDescriptor
    (set_w_impl {| w_fd := w_fd (w_impl b); use_adaptive_buffer_size := false;
                   adaptive_max_buffer_size := adaptive_max_buffer_size (w_impl b) |} b).

(** ** Proofs *)

(** What the loop wrote is what it was given, or a part of it if a call fails. *)
Lemma fd_write_loop_spec fuel rest d :
  valid_calls (calls d) -> (length rest + length (calls d) < fuel)%nat ->
  exists n r d', fd_write_loop fuel rest d = (r, d') /\ file d' = file d ++ take n rest /\
    calls d' `suffix_of` calls d /\
    (r = Ok tt /\ take n rest = rest \/ r = Throw CANNOT_WRITE_TO_FILE_DESCRIPTOR /\ Failed ∈ calls d).
Proof.
  revert rest d. induction fuel as [|fuel IH]; intros rest d Hv Hf; [lia|]. destruct rest as [|c rest]; cbn [fd_write_loop].
  { exists 0%nat, (Ok tt), d. rewrite app_nil_r. split_and!; [done..|by left]. }
  set (all := c :: rest) in *. assert (Hall : (0 < length all)%nat) by (subst all; simpl; lia).
  assert (Htr : forall limit d1, 0 < limit -> file d1 = file d -> calls d1 `suffix_of` calls d ->
    exists n r d', (if (Z.to_nat (Z.min limit (Z.of_nat (length all))) =? 0)%nat then (Throw CANNOT_WRITE_TO_FILE_DESCRIPTOR, d1)
      else fd_write_loop fuel (drop (Z.to_nat (Z.min limit (Z.of_nat (length all)))) all)
        (append (take (Z.to_nat (Z.min limit (Z.of_nat (length all)))) all) d1)) = (r, d') /\ file d' = file d ++ take n all /\
      calls d' `suffix_of` calls d /\
      (r = Ok tt /\ take n all = all \/ r = Throw CANNOT_WRITE_TO_FILE_DESCRIPTOR /\ Failed ∈ calls d)).
  { intros limit d1 Hl Ef Hs. set (k := Z.to_nat _). assert (0 < k)%nat by lia. destruct (Nat.eqb_spec k 0) as [|_]; [lia|].
    pose proof (suffix_length _ _ Hs). destruct (IH (drop k all) (append (take k all) d1)) as (n & r & d' & E & Hfile & Hc & Hr).
    - simpl. unfold valid_calls in *. destruct Hs as [pre Hs]. rewrite Hs in Hv. by apply Forall_app in Hv as [_ ?].
    - simpl. simpl_len. lia.
    - exists (k + n)%nat, r, d'. rewrite <- take_take_drop, app_assoc. simpl in *. rewrite Ef in Hfile.
      split_and!; [done|done|by etrans|]. destruct Hr as [[-> Hr]|[-> Hr]]; [left|right].
      + by rewrite Hr, take_drop.
      + split; [done|]. destruct Hs as [pre Hs]. rewrite Hs. apply elem_of_app. by right. }
  destruct (syscall_cases d) as [[-> _]|(c0 & cs & -> & Hcs)]; [by apply Htr|].
  assert (Hs : cs `suffix_of` calls d) by (rewrite Hcs; by exists [c0]).
  assert (Hv' := Hv). rewrite Hcs in Hv'. apply Forall_cons in Hv' as [Hc Hv'].
  destruct c0 as [| |limit]; [|by exists 0%nat; eexists _, _; rewrite app_nil_r; split_and!; [done..|];
    right; split; [done|]; rewrite Hcs; left|by apply Htr].
  destruct (IH all {| file := file d; fd_position := fd_position d; calls := cs |}) as (n & r & d' & E & Hfile & Hc' & Hr);
    [done|rewrite Hcs in Hf; simpl in *; lia|].
  exists n, r, d'. split_and!; [done|done|by etrans|]. rewrite Hcs. destruct Hr as [Hr|[-> Hr]]; [by left|right].
  split; [done|]. by right.
Qed.

(** The buffer accepted [data]; the file has all of it that is not pending. *)
Definition fdw_state (b : FileWriteBuffer) (data : bytes) : Prop :=
  w_offset b <= capacity b /\ 0 < capacity b < 2 ^ 62 /\ finalized b = false /\ canceled b = false /\
  w_nextimpl_offset b = 0 /\ valid_calls (calls (w_fd (w_impl b))) /\
  adaptive_max_buffer_size (w_impl b) < 2 ^ 62 /\ data = file (w_fd (w_impl b)) ++ pending b.

Definition fdw_inv (b : FileWriteBuffer) (data : bytes) : Prop :=
  fdw_state b data /\ Failed ∉ calls (w_fd (w_impl b)) /\
  w_count b = uwrap 64 (Z.of_nat (length data)).

Lemma grow_buffer_cases {S} adaptive max_size (b : WriteBuffer S) :
  0 < capacity b < 2 ^ 62 -> max_size < 2 ^ 62 ->
  (grow_buffer adaptive max_size b = b) \/
  (exists n, capacity b < n < 2 ^ 62 /\ grow_buffer adaptive max_size b = set_memory n b).
Proof.
  intros Hc Hm. unfold grow_buffer. destruct (w_available b =? 0), adaptive, (Z.ltb_spec (capacity b) max_size); simpl; auto.
  right. eexists. split; [|done]. rewrite uwrap_small by (unfold in_unsigned; lia). lia.
Qed.

Lemma fd_next_cases b data : fdw_state b data -> pending b <> [] ->
  exists b', calls (w_fd (w_impl b')) `suffix_of` calls (w_fd (w_impl b)) /\
    (fd_w_nextImpl b = (Ok tt, b') /\ fdw_state (passed (w_offset b) b') data /\
       pending (passed (w_offset b) b') = [] /\ written_before b' = written_before b \/
     fd_w_nextImpl b = (Throw CANNOT_WRITE_TO_FILE_DESCRIPTOR, b') /\ Failed ∈ calls (w_fd (w_impl b)) /\
       file (w_fd (w_impl b')) `prefix_of` data).
Proof.
  intros (Ho & Hc & Hf & Hcan & Hn & Hv & Hmax & ->) Hne. unfold fd_w_nextImpl.
  destruct (Z.eqb_spec (w_offset b) 0) as [E|_]; [destruct (pending b) eqn:Ep; [done|unfold w_offset in E; by rewrite Ep in E]|].
  edestruct (fd_write_loop_spec _ (pending b) (w_fd (w_impl b)) Hv (Nat.lt_succ_diag_r _)) as (n & r & d & -> & Hd & Hs & Hr).
  assert (Hv' : valid_calls (calls d)).
  { destruct Hs as [pre Hs]. unfold valid_calls in *. rewrite Hs in Hv. by apply Forall_app in Hv as [_ ?]. }
  destruct Hr as [[-> Hr]|[-> Hr]].
  - rewrite Hr in Hd.
    destruct (grow_buffer_cases (use_adaptive_buffer_size (w_impl (set_w_fd d b)))
      (adaptive_max_buffer_size (w_impl (set_w_fd d b))) (set_w_fd d b)) as [->|(m & Hm & ->)]; [done|done| |];
      (eexists; split; [|left; split; [done|]]; [done|]);
      unfold fdw_state, w_available, w_offset in *; simpl in *; rewrite Hn; simpl;
      split_and!; try done; try lia; rewrite ?app_nil_r; done.
  - eexists. split; [|right; split_and!; [done|done|]]; simpl; [done|]. rewrite Hd. apply prefix_app, prefix_take.
Qed.

Lemma fdw_state_push b data bs :
  fdw_state b data -> Z.of_nat (length bs) <= w_available b -> fdw_state (push bs b) (data ++ bs).
Proof.
  intros (? & ? & ? & ? & ? & ? & ? & ->) Hb. unfold fdw_state, w_available, w_offset in *. simpl. simpl_len.
  split_and!; try done; try lia. by rewrite app_assoc.
Qed.

#[export] Instance fd_writer : WriterSpec ToFileDescriptor fdw_inv.
Proof.
  split.
  - intros b data [(? & ? & ? & ? & _) _]. split_and!; try done; lia.
  - intros b data bs (H & Hf & Hn) _ Hb. split_and!; [by apply fdw_state_push|done|by apply push_count].
  - intros b data (H & Hf & Hn) Hne.
    destruct (fd_next_cases b data H Hne) as (b' & [pre Hs] & [(E & Hb & Ha & Hw)|(_ & Hin & _)]); [|done].
    exists b'. split_and!; [done| |done]. split_and!; [done| |by rewrite passed_count]. simpl. rewrite Hs in Hf. set_solver.
  - by intros b data (_ & _ & ?).
Qed.

Lemma fd_keeps_flags : keeps_flags ToFileDescriptor.
Proof.
  split; [|done]. intros b. simpl. unfold fd_w_nextImpl. destruct (_ =? 0); [done|].
  destruct (fd_write_loop _ _ _) as [[[]|e] d]; [|done]. simpl. unfold grow_buffer. by destruct (_ && _).
Qed.

Lemma write_loop_prefix fuel from b data e b' :
  fdw_state b data -> (length from < fuel)%nat -> write_loop ToFileDescriptor fuel from b = (Throw e, b') ->
  e = CANNOT_WRITE_TO_FILE_DESCRIPTOR /\ file (w_fd (w_impl b')) `prefix_of` data ++ from.
Proof.
  revert from b data. induction fuel as [|fuel IH]; intros from b data H Hf Hw; [lia|].
  destruct from as [|c from]; [done|]. cbn [write_loop] in Hw.
  assert (Hok : forall b1, fdw_state b1 data -> 0 < w_available b1 ->
    (let n := Z.to_nat (Z.min (w_available b1) (Z.of_nat (length (c :: from)))) in
     write_loop ToFileDescriptor fuel (drop n (c :: from)) (push (take n (c :: from)) b1)) = (Throw e, b') ->
    e = CANNOT_WRITE_TO_FILE_DESCRIPTOR /\ file (w_fd (w_impl b')) `prefix_of` data ++ c :: from).
  { intros b1 H1 Ha Hr. cbv zeta in Hr. set (n := Z.to_nat _) in Hr.
    rewrite <- (take_drop n (c :: from)), app_assoc. eapply IH; [| |exact Hr].
    - apply fdw_state_push; [done|]. simpl_len. lia.
    - simpl_len. subst n. lia. }
  unfold w_nextIfAtEnd in Hw. destruct (Z.leb_spec (w_available b) 0) as [Ha|Ha]; [|by apply Hok in Hw].
  unfold w_next in Hw. pose proof H as (Ho & Hc & Hfin & Hcan & _). rewrite Hcan in Hw.
  destruct (Z.eqb_spec (w_offset b) 0); [unfold w_available in Ha; lia|].
  destruct (fd_next_cases b data H) as (b1 & Hs & [(E & Hb & Hav & _)|(E & _ & Hp)]).
  { intros Ep. unfold w_offset in *. by rewrite Ep in *. }
  - cbn [w_nextImpl ToFileDescriptor] in Hw. rewrite E in Hw. cbn [andthen] in Hw.
    apply Hok in Hw; [done..|]. apply empty_available; [done|]. by destruct Hb as (_ & [? _] & _).
  - cbn [w_nextImpl ToFileDescriptor] in Hw. rewrite E in Hw. cbn [andthen] in Hw. injection Hw as <- <-. split; [done|].
    unfold cancel. destruct (_ || _); simpl; by apply prefix_app_r.
Qed.

(** C29: when writing to a file fails, the file holds a prefix of the data, and the
    buffer is canceled: it refuses more data, and neither [next] nor [finalize]
    makes a second attempt. *)
Theorem failed_write_is_final (b : FileWriteBuffer) (data from : bytes) (e : ErrorCode) (b' : FileWriteBuffer) :
  fdw_state b data -> write ToFileDescriptor from b = (Throw e, b') ->
  e = CANNOT_WRITE_TO_FILE_DESCRIPTOR /\ file (w_fd (w_impl b')) `prefix_of` data ++ from /\
  out_of_service ToFileDescriptor b'.
Proof.
  intros H. pose proof H as (_ & _ & Hf & Hc & _). unfold write. rewrite Hf, Hc. intros Hw.
  pose proof Hw as [-> Hp]%(write_loop_prefix _ _ _ data); [|done|lia]. split_and!; [done|done|].
  eapply write_loop_failure; [apply fd_keeps_flags|done|exact Hw|done|done].
Qed.

(** An empty file, a buffer of two bytes, and a disk that becomes full. *)
Definition failing_file : FileWriteBuffer := {|
  pending := []; capacity := 2; written_before := 0; w_nextimpl_offset := 0; finalized := false; canceled := false;
  w_impl := {| w_fd := {| file := []; fd_position := 0; calls := [Transfer 1; Interrupted; Transfer 9; Transfer 1; Failed] |};
    use_adaptive_buffer_size := false; adaptive_max_buffer_size := 2 |} |}.

Lemma failed_write_is_final_witness :
  let b' := (write ToFileDescriptor [1; 2; 3; 4; 5] failing_file).2 in
  CANNOT_WRITE_TO_FILE_DESCRIPTOR = CANNOT_WRITE_TO_FILE_DESCRIPTOR /\
  [1; 2; 3] `prefix_of` [1; 2; 3; 4; 5] /\ out_of_service ToFileDescriptor b'.
Proof.
  refine (failed_write_is_final failing_file [] [1; 2; 3; 4; 5] CANNOT_WRITE_TO_FILE_DESCRIPTOR _ _ eq_refl).
  split_and!; try done. by repeat (apply Forall_cons_2; [done|]).
Defined.
