(* ===== verification/IOHelpers.v ===== *)
(** Reading and writing values through buffers (src/IO/VarInt.h, src/IO/ReadHelpers.{h,cpp},
    src/IO/WriteHelpers.h).  The code that reads from a [ReadBuffer], with its fast paths
    for what the buffer holds, acts as the same code on the list of the bytes to come; a
    [Source] is what both have in common, so that formats are defined once. *)
From S2P Require Import Prelude IntText BinaryIO ReadBuffer WriteBuffer.
Import Binary ReadInt.

(** * Sources of values *)

(** What formats need of a source: each operation has the value, or throws. *)
Class Source (B : Type) := {
  src_readVarUInt : B -> result (Z * B);
  src_readPODBinary : IntType -> B -> result (Z * B);
  src_readStringBinary : B -> result (bytes * B);
  src_readIntText : IntType -> B -> result (Z * B);
  src_readBoolText : B -> result (bool * B);
  src_readString : B -> result (bytes * B);
  src_assertString : bytes -> B -> result (unit * B);
  src_assertChar : Z -> B -> result (unit * B) }.

(** ** Bytes in memory *)

(** [readIntText], which does not check for overflow. *)
Definition readIntText (T : IntType) (buf : bytes) : result (Z * bytes) :=
  match buf with
  | [] => Throw ATTEMPT_TO_READ_AFTER_EOF
  | _ => match readIntTextImpl T false buf with Some r => Ok r | None => Throw CANNOT_PARSE_NUMBER end
  end.

(** [checkString] *)
Fixpoint checkString (s buf : bytes) : bool * bytes :=
  match s with
  | [] => (true, buf)
  | a :: s =>
      match buf with
      | [] => (false, buf)
      | c :: rest => if c =? a then checkString s rest else (false, buf)
      end
  end.

Definition assertString (s buf : bytes) : result (unit * bytes) :=
  let '(ok, buf) := checkString s buf in if ok then Ok (tt, buf) else Throw CANNOT_PARSE_INPUT_ASSERTION_FAILED.

Definition assertChar (c : Z) (buf : bytes) : result (unit * bytes) :=
  match checkChar c buf with Some rest => Ok (tt, rest) | None => Throw CANNOT_PARSE_INPUT_ASSERTION_FAILED end.

(** [find_first_symbols<'\t', '\n'>] *)
Definition ends_field (c : Z) : bool := (c =? 9) || (c =? 10).
Fixpoint find_first (buf : bytes) : nat :=
  match buf with
  | [] => O
  | c :: buf => if ends_field c then O else S (find_first buf)
  end.

Definition readString (buf : bytes) : result (bytes * bytes) := Ok (take (find_first buf) buf, drop (find_first buf) buf).

#[export] Instance bytes_source : Source bytes := {|
  src_readVarUInt := VarInt.readVarUInt;
  src_readPODBinary := Binary.readPODBinary;
  src_readStringBinary := Binary.readStringBinary;
  src_readIntText := readIntText;
  src_readBoolText := Binary.readBoolText;
  src_readString := readString;
  src_assertString := assertString;
  src_assertChar := assertChar |}.

(** ** Buffers *)

Section ReadHelpers.
Context {S : Type} (I : ReadImpl S).
Implicit Types b : ReadBuffer S.

(** [*buf.position()] and [++buf.position()] *)
Definition at_position b : result Z :=
  let! bs := bytes_at b 1 in match bs with c :: _ => Ok c | [] => Throw OUT_OF_BOUNDS_ACCESS end.
Definition advance b : ReadBuffer S := set_pos (pos b + 1) b.

(** [varint_impl::readVarUInt<check_eof>] *)
Fixpoint rb_varint_loop (check_eof : bool) (n : nat) (i x : Z) b : result (Z * ReadBuffer S) :=
  match n with
  | O => Ok (x, b)
  | Datatypes.S n =>
      let! b := if check_eof
        then let! (e, b) := eof I b in if e : bool then Throw ATTEMPT_TO_READ_AFTER_EOF else Ok b
        else Ok b in
      let! byte := at_position b in
      let b := advance b in
      let x := Z.lor x (uwrap 64 (Z.shiftl (Z.land byte 0x7F) (7 * i))) in
      if Z.land byte 0x80 =? 0 then Ok (x, b) else rb_varint_loop check_eof n (i + 1) x b
  end.

Definition rb_readVarUInt b : result (Z * ReadBuffer S) :=
  if 10 <=? size_working b - pos b then rb_varint_loop false 10 0 0 b else rb_varint_loop true 10 0 0 b.

(** [readChar] *)
Definition rb_readChar b : result (Z * ReadBuffer S) :=
  let! (e, b) := eof I b in
  if e : bool then Throw ATTEMPT_TO_READ_AFTER_EOF else let! x := at_position b in Ok (x, advance b).

(** [readPODBinary], with the case that the value is in the buffer. *)
Definition rb_readPODBinary (T : IntType) b : result (Z * ReadBuffer S) :=
  let size := Z.of_nat (sizeof T) in
  if pos b + size <=? size_working b then
    let! bs := bytes_at b size in Ok (cast T (le_value bs), set_pos (pos b + size) b)
  else let! (bs, b) := ReadBuffer.readStrict I size b in Ok (cast T (le_value bs), b).

Definition rb_readStringBinary b : result (bytes * ReadBuffer S) :=
  let! (size, b) := rb_readVarUInt b in
  if DEFAULT_MAX_STRING_SIZE <? size then Throw TOO_LARGE_STRING_SIZE else ReadBuffer.readStrict I size b.

(** [checkString] and [checkStringCaseInsensitive] *)
Fixpoint rb_checkString (equal : Z -> Z -> bool) (s : bytes) b : result (bool * ReadBuffer S) :=
  match s with
  | [] => Ok (true, b)
  | a :: s =>
      let! (e, b) := eof I b in
      if e : bool then Ok (false, b)
      else
        let! c := at_position b in
        if equal a c then rb_checkString equal s (advance b) else Ok (false, b)
  end.

Definition rb_assertString (equal : Z -> Z -> bool) (s : bytes) b : result (unit * ReadBuffer S) :=
  let! (ok, b) := rb_checkString equal s b in
  if ok : bool then Ok (tt, b) else Throw CANNOT_PARSE_INPUT_ASSERTION_FAILED.

(** [checkChar] and [assertChar] *)
Definition rb_checkChar (c : Z) b : result (bool * ReadBuffer S) :=
  let! (a, b) := peek I b in
  match a with
  | Some a => if a =? c then let! b := ignore_one I b in Ok (true, b) else Ok (false, b)
  | None => Ok (false, b)
  end.

Definition rb_assertChar (symbol : Z) b : result (unit * ReadBuffer S) :=
  let! (ok, b) := rb_checkChar symbol b in
  if ok : bool then Ok (tt, b) else Throw CANNOT_PARSE_INPUT_ASSERTION_FAILED.

Definition rb_readBoolText b : result (bool * ReadBuffer S) :=
  let! (tmp, b) := rb_readChar b in
  let x := negb (tmp =? chr "0") in
  let! (e, b) := eof I b in
  if negb e && isAlphaASCII tmp then
    if (tmp =? chr "t") || (tmp =? chr "T") then
      let! (_, b) := rb_assertString equalsCaseInsensitive (bytes_of "rue") b in Ok (true, b)
    else if (tmp =? chr "f") || (tmp =? chr "F") then
      let! (_, b) := rb_assertString equalsCaseInsensitive (bytes_of "alse") b in Ok (false, b)
    else Ok (x, b)
  else Ok (x, b).

(** The steps of loops up to a character: each takes a byte at least. *)
Context (fuel : nat).

(** The loop of [readIntTextImpl<T, void, DO_NOT_CHECK_OVERFLOW>] *)
Fixpoint rb_int_loop (fuel : nat) (T : IntType) (st : reading) b : result (reading * ReadBuffer S) :=
  match fuel with
  | O => Throw OUT_OF_FUEL
  | Datatypes.S fuel =>
      let! (e, b) := eof I b in
      if e : bool then Ok (st, b)
      else
        let! c := at_position b in
        let U := {| width := width T; is_signed := false |} in
        if c =? chr "+" then
          if has_number st then Ok (st, b)
          else if has_sign st then Throw CANNOT_PARSE_NUMBER
          else rb_int_loop fuel T {| negative := negative st; has_sign := true; has_number := false; res := res st |} (advance b)
        else if c =? chr "-" then
          if has_number st then Ok (st, b)
          else if has_sign st then Throw CANNOT_PARSE_NUMBER
          else if is_signed T then
            rb_int_loop fuel T {| negative := true; has_sign := true; has_number := false; res := res st |} (advance b)
          else Throw CANNOT_PARSE_NUMBER
        else if is_digit c then
          rb_int_loop fuel T (with_digit st (cast U (cast U (res st * 10) + (c - chr "0")))) (advance b)
        else Ok (st, b)
  end.

Definition rb_readIntText (T : IntType) b : result (Z * ReadBuffer S) :=
  let! (e, b) := eof I b in
  if e : bool then Throw ATTEMPT_TO_READ_AFTER_EOF
  else
    let! (st, b) := rb_int_loop fuel T {| negative := false; has_sign := false; has_number := false; res := 0 |} b in
    if has_sign st && negb (has_number st) then Throw CANNOT_PARSE_NUMBER
    else if is_signed T && negative st then Ok (cast T (- res st), b)
    else Ok (cast T (res st), b).

(** [readStringUntilCharsInto<'\t', '\n'>] *)
Fixpoint rb_until_loop (fuel : nat) b : result (bytes * ReadBuffer S) :=
  match fuel with
  | O => Throw OUT_OF_FUEL
  | Datatypes.S fuel =>
      let! (e, b) := eof I b in
      if e : bool then Ok ([], b)
      else
        let! here := bytes_at b (size_working b - pos b) in
        let next_pos := pos b + Z.of_nat (find_first here) in
        let! s := bytes_at b (next_pos - pos b) in
        let b := set_pos next_pos b in
        if hasPendingData b then Ok (s, b) else let! (s', b) := rb_until_loop fuel b in Ok (s ++ s', b)
  end.

Definition rb_readString b : result (bytes * ReadBuffer S) := rb_until_loop fuel b.

#[export] Instance buffer_source : Source (ReadBuffer S) := {|
  src_readVarUInt := rb_readVarUInt;
  src_readPODBinary := rb_readPODBinary;
  src_readStringBinary := rb_readStringBinary;
  src_readIntText := rb_readIntText;
  src_readBoolText := rb_readBoolText;
  src_readString := rb_readString;
  src_assertString := rb_assertString Z.eqb;
  src_assertChar := rb_assertChar |}.

End ReadHelpers.

(** * Proofs *)

(** Both results are errors, or both have the value. *)
Inductive sim_view {S A} (inv : ReadBuffer S -> bytes -> Prop) : result (A * ReadBuffer S) -> result (A * bytes) -> Prop :=
| sim_ok a b data : inv b data -> sim_view inv (Ok (a, b)) (Ok (a, data))
| sim_throw e : sim_view inv (Throw e) (Throw e).

Lemma simulates_view {S A} (inv : ReadBuffer S -> bytes -> Prop) (r : result (A * ReadBuffer S)) q :
  simulates inv r q -> sim_view inv r q.
Proof. unfold simulates. destruct q as [[a data]|e]; [intros (b & -> & H)|intros ->]; by constructor. Qed.

Lemma simulates_ok {S A} (inv : ReadBuffer S -> bytes -> Prop) (a : A) b data : inv b data -> simulates inv (Ok (a, b)) (Ok (a, data)).
Proof. by exists b. Qed.

(** The next operation of both, in a goal on what is done with its value. *)
Ltac sim_step H := destruct (simulates_view _ _ _ H) as [?a ?b ?data ?Hinv|?e]; cbn [rbind]; [|done].

Section Simulation.
Context {S : Type} (I : ReadImpl S) (inv : ReadBuffer S -> bytes -> Prop) `{!ReaderSpec I inv}.
Implicit Types b : ReadBuffer S.

Lemma at_position_inv b c data : inv b (c :: data) -> pos b < size_working b -> at_position b = Ok c /\ inv (advance b) data.
Proof.
  intros H Hp. unfold at_position, advance. rewrite (bytes_at_inv I inv b (c :: data) 1 H) by lia. split; [done|].
  by apply (inv_advance I inv b (c :: data) 1); [|lia].
Qed.

(** [eof], and then the character. *)
Lemma eof_cases b data : inv b data ->
  (data = [] /\ exists b', eof I b = Ok (true, b') /\ inv b' []) \/
  (exists c rest b', data = c :: rest /\ eof I b = Ok (false, b') /\ inv b' data /\ at_position b' = Ok c /\ inv (advance b') rest).
Proof.
  intros H. destruct (eof_spec I inv b data H) as (b' & -> & Hb & Hlt). destruct data as [|c rest]; [left|right].
  - split; [done|]. by exists b'.
  - destruct (at_position_inv b' c rest Hb (Hlt ltac:(done))) as [E Ha]. exists c, rest, b'. by split_and!.
Qed.

Lemma varint_checked n i x b data : inv b data -> simulates inv (rb_varint_loop I true n i x b) (VarInt.readVarUInt_loop n i x data).
Proof.
  revert i x b data. induction n as [|n IH]; intros i x b data H; [by apply simulates_ok|]. cbn [rb_varint_loop VarInt.readVarUInt_loop].
  destruct (eof_cases b data H) as [(-> & b' & -> & _)|(c & rest & b' & -> & -> & _ & E & Ha)]; cbn [rbind]; [done|]. rewrite E. cbn [rbind].
  destruct (Z.land c 0x80 =? 0); [by apply simulates_ok|by apply IH].
Qed.

Lemma varint_unchecked n i x b data : inv b data -> Z.of_nat n <= size_working b - pos b ->
  simulates inv (rb_varint_loop I false n i x b) (VarInt.readVarUInt_loop n i x data).
Proof.
  revert i x b data. induction n as [|n IH]; intros i x b data H Hn; [by apply simulates_ok|]. cbn [rb_varint_loop VarInt.readVarUInt_loop rbind].
  pose proof (inv_length I inv b data H) as Hl. destruct data as [|c rest]; [simpl in Hl; lia|].
  destruct (at_position_inv b c rest H ltac:(lia)) as [-> Ha]. cbn [rbind].
  destruct (Z.land c 0x80 =? 0); [by apply simulates_ok|]. apply IH; [done|]. unfold advance, size_working in *. simpl. lia.
Qed.

Lemma rb_readVarUInt_sim b data : inv b data -> simulates inv (rb_readVarUInt I b) (VarInt.readVarUInt data).
Proof.
  intros H. unfold rb_readVarUInt, VarInt.readVarUInt. destruct (Z.leb_spec 10 (size_working b - pos b)); [by apply varint_unchecked|by apply varint_checked].
Qed.

Lemma readStrict_sim n b data : inv b data -> 0 <= n -> simulates inv (ReadBuffer.readStrict I n b) (Binary.readStrict (Z.to_nat n) data).
Proof.
  intros H Hn. unfold Binary.readStrict. destruct (Nat.ltb_spec (length data) (Z.to_nat n)).
  - apply (readStrict_short I inv n b data); [done|lia].
  - destruct (readStrict_spec I inv n b data H) as (b' & -> & Hb); [lia|]. by apply simulates_ok.
Qed.

Lemma rb_readPODBinary_sim T b data : inv b data -> simulates inv (rb_readPODBinary I T b) (Binary.readPODBinary T data).
Proof.
  intros H. unfold rb_readPODBinary, Binary.readPODBinary. destruct (Z.leb_spec (pos b + Z.of_nat (sizeof T)) (size_working b)).
  - pose proof (inv_length I inv b data H). rewrite (bytes_at_inv I inv b data) by (done || lia). cbn [rbind]. unfold Binary.readStrict.
    destruct (Nat.ltb_spec (length data) (sizeof T)); [lia|]. cbn [rbind]. rewrite Nat2Z.id. apply simulates_ok.
    pose proof (inv_advance I inv b data (Z.of_nat (sizeof T)) H ltac:(lia)) as Ha. by rewrite Nat2Z.id in Ha.
  - pose proof (readStrict_sim (Z.of_nat (sizeof T)) b data H ltac:(lia)) as Hs. rewrite Nat2Z.id in Hs. sim_step Hs. by apply simulates_ok.
Qed.

Lemma varint_nonneg n i x istr y rest : 0 <= x -> VarInt.readVarUInt_loop n i x istr = Ok (y, rest) -> 0 <= y.
Proof.
  revert i x istr. induction n as [|n IH]; intros i x istr Hx; cbn [VarInt.readVarUInt_loop]; [by intros [= <- <-]|]. destruct istr as [|c istr]; [done|].
  assert (Hl : 0 <= Z.lor x (uwrap 64 (Z.shiftl (Z.land c 0x7F) (7 * i)))) by (apply Z.lor_nonneg; split; [done|by apply uwrap_range]).
  destruct (Z.land c 0x80 =? 0); [by intros [= <- <-]|by apply IH].
Qed.

Lemma rb_readStringBinary_sim b data : inv b data -> simulates inv (rb_readStringBinary I b) (Binary.readStringBinary data).
Proof.
  intros H. unfold rb_readStringBinary, Binary.readStringBinary. pose proof (rb_readVarUInt_sim b data H) as Hs.
  assert (Hnn : forall y rest, VarInt.readVarUInt data = Ok (y, rest) -> 0 <= y) by (intros y rest; by apply varint_nonneg).
  destruct (VarInt.readVarUInt data) as [[y rest]|e]; [destruct Hs as (b' & -> & Hb)|by rewrite Hs]. cbn [rbind].
  destruct (DEFAULT_MAX_STRING_SIZE <? y); [done|]. apply readStrict_sim; [done|]. by eapply Hnn.
Qed.

Lemma rb_checkString_sim s b data : inv b data ->
  exists b', rb_checkString I Z.eqb s b = Ok ((checkString s data).1, b') /\ inv b' (checkString s data).2.
Proof.
  revert b data. induction s as [|a s IH]; intros b data H; [by exists b|]. cbn [rb_checkString checkString].
  destruct (eof_cases b data H) as [(-> & b' & -> & Hb)|(c & rest & b' & -> & -> & Hb & E & Ha)]; cbn [rbind]; [by exists b'|]. rewrite E. cbn [rbind].
  rewrite (Z.eqb_sym c a). destruct (a =? c); [by apply IH|by exists b'].
Qed.

Lemma rb_checkString_insensitive_sim s b data : inv b data ->
  exists b', rb_checkString I equalsCaseInsensitive s b = Ok ((checkStringCaseInsensitive s data).1, b') /\ inv b' (checkStringCaseInsensitive s data).2.
Proof.
  revert b data. induction s as [|a s IH]; intros b data H; [by exists b|]. cbn [rb_checkString checkStringCaseInsensitive].
  destruct (eof_cases b data H) as [(-> & b' & -> & Hb)|(c & rest & b' & -> & -> & Hb & E & Ha)]; cbn [rbind]; [by exists b'|]. rewrite E. cbn [rbind].
  destruct (equalsCaseInsensitive a c); [by apply IH|by exists b'].
Qed.

Lemma rb_assertString_sim s b data : inv b data -> simulates inv (rb_assertString I Z.eqb s b) (assertString s data).
Proof.
  intros H. unfold rb_assertString, assertString. destruct (rb_checkString_sim s b data H) as (b' & -> & Hb). cbn [rbind].
  destruct (checkString s data) as [[] rest]; [by apply simulates_ok|done].
Qed.

Lemma rb_assertChar_sim c b data : inv b data -> simulates inv (rb_assertChar I c b) (assertChar c data).
Proof.
  intros H. unfold rb_assertChar, rb_checkChar, assertChar, checkChar. destruct (peek_spec I inv b data H) as (b1 & -> & H1 & _). cbn [rbind].
  destruct data as [|a rest]; cbn [head]; [done|]. destruct (a =? c); [|done].
  destruct (ignore_one_spec I inv b1 (a :: rest) H1 ltac:(done)) as (b2 & -> & H2). by apply simulates_ok.
Qed.

Lemma rb_assertString_insensitive_sim s b data : inv b data ->
  simulates inv (rb_assertString I equalsCaseInsensitive s b) (let! rest := assertStringCaseInsensitive s data in Ok (tt, rest)).
Proof.
  intros H. unfold rb_assertString, assertStringCaseInsensitive. destruct (rb_checkString_insensitive_sim s b data H) as (b' & -> & Hb). cbn [rbind].
  destruct (checkStringCaseInsensitive s data) as [[] rest]; [by apply simulates_ok|done].
Qed.

Lemma rb_readBoolText_sim b data : inv b data -> simulates inv (rb_readBoolText I b) (Binary.readBoolText data).
Proof.
  intros H. unfold rb_readBoolText, rb_readChar, Binary.readBoolText.
  destruct (eof_cases b data H) as [(-> & b1 & -> & _)|(tmp & rest & b1 & -> & -> & _ & E & Ha)]; cbn [rbind Binary.readChar]; [done|]. rewrite E. cbn [rbind].
  destruct (eof_cases (advance b1) rest Ha) as [(-> & b2 & -> & Hb)|(c & rest' & b2 & -> & -> & Hb & _)]; cbn [rbind negb andb]; [by apply simulates_ok|].
  destruct (isAlphaASCII tmp); [|by apply simulates_ok].
  destruct ((tmp =? chr "t") || (tmp =? chr "T")).
  - pose proof (rb_assertString_insensitive_sim (bytes_of "rue") b2 _ Hb) as Hs. destruct (assertStringCaseInsensitive _ _); cbn [rbind] in *.
    + destruct Hs as (b3 & -> & Hb3). by apply simulates_ok.
    + by rewrite Hs.
  - destruct ((tmp =? chr "f") || (tmp =? chr "F")); [|by apply simulates_ok].
    pose proof (rb_assertString_insensitive_sim (bytes_of "alse") b2 _ Hb) as Hs. destruct (assertStringCaseInsensitive _ _); cbn [rbind] in *.
    + destruct Hs as (b3 & -> & Hb3). by apply simulates_ok.
    + by rewrite Hs.
Qed.

(** Without the checks, a digit is always taken. *)
Lemma push_digit_unchecked T p st d :
  push_digit T false p st d = Some (with_digit st (cast {| width := width T; is_signed := false |} (cast {| width := width T; is_signed := false |} (res st * 10) + d))).
Proof. done. Qed.

Lemma rb_int_loop_sim fuel T p st b data : inv b data -> (length data < fuel)%nat ->
  simulates inv (rb_int_loop I fuel T st b) (match ReadInt.read_loop T false p st data with Some r => Ok r | None => Throw CANNOT_PARSE_NUMBER end).
Proof.
  revert p st b data. induction fuel as [|fuel IH]; intros p st b data H Hf; [lia|]. cbn [rb_int_loop].
  destruct (eof_cases b data H) as [(-> & b1 & -> & Hb)|(c & rest & b1 & -> & -> & Hb & E & Ha)]; cbn [rbind ReadInt.read_loop]; [by apply simulates_ok|].
  rewrite E. cbn [rbind]. simpl in Hf.
  destruct (c =? chr "+"). { destruct (has_number st); [by apply simulates_ok|]. destruct (has_sign st); [done|]. apply IH; [done|lia]. }
  destruct (c =? chr "-"). { destruct (has_number st); [by apply simulates_ok|]. destruct (has_sign st); [done|]. destruct (is_signed T); [|done]. apply IH; [done|lia]. }
  destruct (is_digit c); [|by apply simulates_ok]. rewrite push_digit_unchecked. apply IH; [done|lia].
Qed.

Lemma rb_readIntText_sim fuel T b data : inv b data -> (length data < fuel)%nat -> simulates inv (rb_readIntText I fuel T b) (readIntText T data).
Proof.
  intros H Hf. unfold rb_readIntText, readIntText. destruct (eof_cases b data H) as [(-> & b1 & -> & _)|(c & rest & b1 & Ed & -> & Hb & _)]; cbn [rbind]; [done|].
  rewrite Ed. cbn [readIntTextImpl]. rewrite <- Ed. pose proof (rb_int_loop_sim fuel T 0 {| negative := false; has_sign := false; has_number := false; res := 0 |} b1 data Hb Hf) as Hs.
  destruct (ReadInt.read_loop _ _ _ _ _) as [[st rest']|]; [destruct Hs as (b2 & -> & Hb2)|by rewrite Hs]. cbn [rbind mbind option_bind].
  destruct (has_sign st && negb (has_number st)); [done|]. destruct (is_signed T && negative st); by apply simulates_ok.
Qed.

Lemma find_first_le buf : (find_first buf <= length buf)%nat.
Proof. induction buf as [|c buf IH]; simpl; [lia|]. destruct (ends_field c); lia. Qed.

Lemma find_first_app xs ys : find_first (xs ++ ys) = if (find_first xs =? length xs)%nat then (length xs + find_first ys)%nat else find_first xs.
Proof.
  induction xs as [|c xs IH]; [done|]. simpl. destruct (ends_field c); [done|]. rewrite IH. pose proof (find_first_le xs).
  destruct (Nat.eqb_spec (find_first xs) (length xs)), (Nat.eqb_spec (Datatypes.S (find_first xs)) (Datatypes.S (length xs))); lia.
Qed.

Lemma rb_until_loop_sim fuel b data : inv b data -> (length data < fuel)%nat -> simulates inv (rb_until_loop I fuel b) (readString data).
Proof.
  revert b data. induction fuel as [|fuel IH]; intros b data H Hf; [lia|]. cbn [rb_until_loop]. unfold readString.
  destruct (eof_spec I inv b data H) as (b1 & -> & Hb & Hlt). cbn [rbind]. case_bool_decide as En; [subst; by apply simulates_ok|]. specialize (Hlt En).
  pose proof (inv_length I inv b1 data Hb) as Hl. pose proof (inv_bounds b1 data Hb) as Hbd.
  rewrite (bytes_at_inv I inv b1 data) by (done || lia). cbn [rbind]. set (k := Z.to_nat (size_working b1 - pos b1)). set (here := take k data).
  assert (Hh : length here = k) by (unfold here; rewrite length_take; lia). pose proof (find_first_le here) as Hle.
  replace (pos b1 + Z.of_nat (find_first here) - pos b1) with (Z.of_nat (find_first here)) by lia.
  rewrite (bytes_at_inv I inv b1 data) by (done || lia). cbn [rbind]. rewrite Nat2Z.id.
  pose proof (inv_advance I inv b1 data (Z.of_nat (find_first here)) Hb ltac:(lia)) as Ha. rewrite Nat2Z.id in Ha.
  rewrite (pending_inv I inv _ _ Ha). cbn [set_pos pos]. change (size_working (set_pos _ b1)) with (size_working b1).
  pose proof (find_first_app here (drop k data)) as Ef. unfold here in Ef at 1. rewrite take_drop, Hh in Ef.
  destruct (Z.ltb_spec (pos b1 + Z.of_nat (find_first here)) (size_working b1)), (Nat.eqb_spec (find_first here) k); try lia; rewrite Ef; [by apply simulates_ok|].
  rewrite e in *. pose proof (IH _ _ Ha ltac:(rewrite length_drop; lia)) as Hs. unfold readString in Hs. destruct Hs as (b2 & -> & Hb2). cbn [rbind].
  exists b2. split; [|by rewrite drop_drop in Hb2]. do 2 f_equal. apply take_take_drop.
Qed.

End Simulation.

(** What formats need: the operations of a buffer are those of the bytes to come. *)
Class SimulatedSource {S} (src : Source (ReadBuffer S)) (inv : ReadBuffer S -> bytes -> Prop) : Prop := {
  sim_readVarUInt b data : inv b data -> simulates inv (src_readVarUInt b) (src_readVarUInt data);
  sim_readPODBinary T b data : inv b data -> simulates inv (src_readPODBinary T b) (src_readPODBinary T data);
  sim_readStringBinary b data : inv b data -> simulates inv (src_readStringBinary b) (src_readStringBinary data);
  sim_readIntText T b data : inv b data -> simulates inv (src_readIntText T b) (src_readIntText T data);
  sim_readBoolText b data : inv b data -> simulates inv (src_readBoolText b) (src_readBoolText data);
  sim_readString b data : inv b data -> simulates inv (src_readString b) (src_readString data);
  sim_assertString s b data : inv b data -> simulates inv (src_assertString s b) (src_assertString s data);
  sim_assertChar c b data : inv b data -> simulates inv (src_assertChar c b) (src_assertChar c data) }.

(** With less data than fuel. *)
Definition bounded {S} (fuel : nat) (inv : ReadBuffer S -> bytes -> Prop) (b : ReadBuffer S) (data : bytes) : Prop :=
  inv b data /\ (length data < fuel)%nat.

#[export] Instance bounded_reader {S} (I : ReadImpl S) (inv : ReadBuffer S -> bytes -> Prop) (fuel : nat) `{!ReaderSpec I inv} : ReaderSpec I (bounded fuel inv).
Proof.
  split.
  - intros b data [H _]. by eapply inv_bounds.
  - intros b data [H Hl]. destruct (inv_pending b data H) as (later & E & Hp). exists later. split; [done|]. intros p Hr. split; [by apply Hp|].
    rewrite E in Hl. revert Hl. rewrite !length_app, !length_drop. lia.
  - intros b [H Hl]. destruct (inv_end b H) as (b' & E & Hb). by exists b'.
  - intros b data [H Hl] Hn Hp. destruct (inv_next b data H Hn Hp) as (b' & E & Hb & Hlt). by exists b'.
Qed.

#[export] Instance buffer_simulated {S} (I : ReadImpl S) (inv : ReadBuffer S -> bytes -> Prop) (fuel : nat) `{!ReaderSpec I inv} :
  SimulatedSource (buffer_source I fuel) (bounded fuel inv).
Proof.
  split; intros; unfold src_readVarUInt, src_readPODBinary, src_readStringBinary, src_readIntText, src_readBoolText, src_readString, src_assertString, src_assertChar; simpl.
  - by apply rb_readVarUInt_sim; [apply _|].
  - by apply rb_readPODBinary_sim; [apply _|].
  - by apply rb_readStringBinary_sim; [apply _|].
  - apply rb_readIntText_sim; [apply _|done|]. by destruct H.
  - by apply rb_readBoolText_sim; [apply _|].
  - apply rb_until_loop_sim; [apply _|done|]. by destruct H.
  - by apply rb_assertString_sim; [apply _|].
  - by apply rb_assertChar_sim; [apply _|].
Qed.

(** ** What is read back *)

Lemma checkString_app s rest : checkString s (s ++ rest) = (true, rest).
Proof. induction s as [|a s IH]; simpl; [done|]. by rewrite Z.eqb_refl. Qed.

Lemma assertString_app s rest : assertString s (s ++ rest) = Ok (tt, rest).
Proof. unfold assertString. by rewrite checkString_app. Qed.

Lemma assertChar_app c rest : assertChar c (c :: rest) = Ok (tt, rest).
Proof. unfold assertChar, checkChar. by rewrite Z.eqb_refl. Qed.

Lemma readString_app s c rest : Forall (fun a => ends_field a = false) s -> ends_field c = true -> readString (s ++ c :: rest) = Ok (s, c :: rest).
Proof.
  intros Hs Hc. unfold readString. assert (E : find_first (s ++ c :: rest) = length s).
  { induction Hs as [|a s Ha _ IH]; simpl; [by rewrite Hc|]. by rewrite Ha, IH. }
  rewrite E. by rewrite take_app_length, drop_app_length.
Qed.

(** Without the checks the value is taken modulo the size of the type. *)
Lemma read_loop_unchecked p st v ds rest :
  Forall (fun c => is_digit c = true) ds -> ds <> [] \/ has_number st = true -> stops rest ->
  res st = uwrap 64 v -> has_sign st = false -> negative st = false ->
  ReadInt.read_loop UInt64 false p st (ds ++ rest) =
    Some ({| negative := false; has_sign := false; has_number := true; res := uwrap 64 (Decimal.value_from v ds) |}, rest).
Proof.
  intros Hd. revert p st v. induction Hd as [|d ds Hd _ IH]; intros p st v Hn Hr Hv Hs Hg.
  - destruct Hn as [?|Hn]; [done|]. simpl. rewrite read_loop_stops by done. destruct st. simpl in *. by subst.
  - change ((d :: ds) ++ rest) with (d :: (ds ++ rest)). rewrite read_loop_digit, push_digit_unchecked by done. cbn [mbind option_bind].
    cbn [Decimal.value_from]. apply IH; simpl; auto. rewrite Hv. unfold cast, uwrap. simpl.
    rewrite Zmult_mod_idemp_l, Zplus_mod_idemp_l. done.
Qed.

Lemma readIntText_decimal n rest : 0 <= n -> stops rest -> readIntText UInt64 (Decimal.decimal n ++ rest) = Ok (uwrap 64 n, rest).
Proof.
  intros Hn Hr. destruct (decimal_spec n Hn) as (Hd & Hne & Hv). unfold readIntText.
  assert (E : exists c tl, Decimal.decimal n ++ rest = c :: tl) by (destruct (Decimal.decimal n); [done|by eexists _, _]). destruct E as (c & tl & E).
  rewrite E. unfold readIntTextImpl. rewrite <- E.
  rewrite (read_loop_unchecked 0 _ 0) by (try done; by left). cbn [mbind option_bind has_sign has_number is_signed negative andb negb res].
  rewrite Hv. unfold cast, uwrap. simpl. by rewrite Z.mod_mod.
Qed.

(** * Writing *)

Section WriteHelpers.
Context {S : Type} (W : WriteImpl S).
Implicit Types b : WriteBuffer S.

(** [nextIfAtEnd], and a byte at the cursor *)
Definition put (c : Z) b : outcome (WriteBuffer S) :=
  w_nextIfAtEnd W b >> fun b => if w_available b <=? 0 then (Throw OUT_OF_BOUNDS_ACCESS, b) else (Ok tt, push [c] b).

Fixpoint wb_varint_loop (fuel : nat) (x : Z) b : outcome (WriteBuffer S) :=
  match fuel with
  | O => (Throw OUT_OF_FUEL, b)
  | Datatypes.S fuel =>
      if 0x7F <? x then put (uwrap 8 (Z.lor 0x80 (Z.land x 0x7F))) b >> wb_varint_loop fuel (Z.shiftr x 7)
      else put (uwrap 8 x) b
  end.

(** Ten rounds are enough for 64 bits. *)
Definition wb_writeVarUInt (x : Z) b : outcome (WriteBuffer S) := wb_varint_loop 10 x b.

Definition wb_writePODBinary (T : IntType) (x : Z) b : outcome (WriteBuffer S) := write W (writePODBinary T x) b.

Definition wb_writeStringBinary (s : bytes) b : outcome (WriteBuffer S) := wb_writeVarUInt (uwrap 64 (Z.of_nat (length s))) b >> write W s.

Context (inv : WriteBuffer S -> bytes -> Prop) `{!AppenderSpec W inv}.

Lemma put_spec c b data : inv b data -> 0 <= c < 256 -> exists b', put c b = (Ok tt, b') /\ inv b' (data ++ [c]).
Proof.
  intros H Hc. unfold put. destruct (w_nextIfAtEnd_spec W inv b data H) as (b1 & -> & H1 & Ha). cbn [andthen].
  destruct (Z.leb_spec (w_available b1) 0); [lia|]. eexists. split; [done|]. apply (ainv_push (AppenderSpec := AppenderSpec0)); [done|by apply Forall_singleton|simpl; lia].
Qed.

Lemma wb_varint_loop_spec fuel x b data : inv b data -> 0 <= x < 2 ^ (7 * Z.of_nat fuel) -> (0 < fuel)%nat ->
  exists b', wb_varint_loop fuel x b = (Ok tt, b') /\ inv b' (data ++ VarInt.write_loop fuel x).
Proof.
  revert x b data. induction fuel as [|fuel IH]; intros x b data H Hx Hf; [lia|]. cbn [wb_varint_loop VarInt.write_loop].
  assert (Hr : forall y, 0 <= uwrap 8 y < 256) by (intros y; apply (uwrap_range 8 y); lia).
  destruct (Z.ltb_spec 0x7F x); [|by apply put_spec]. destruct (put_spec (uwrap 8 (Z.lor 0x80 (Z.land x 0x7F))) b data H (Hr _)) as (b1 & -> & H1). cbn [andthen].
  assert (Hx' : 0 <= Z.shiftr x 7 < 2 ^ (7 * Z.of_nat fuel)).
  { rewrite Z.shiftr_div_pow2 by lia. split; [apply Z.div_pos; lia|]. apply Z.div_lt_upper_bound; [lia|]. rewrite <- Z.pow_add_r by lia.
    replace (7 + 7 * Z.of_nat fuel) with (7 * Z.of_nat (Datatypes.S fuel)) by lia. lia. }
  destruct fuel as [|fuel]; [simpl in Hx; lia|].
  destruct (IH _ b1 _ H1 Hx') as (b2 & E & H2); [lia|]. exists b2. split; [done|]. by rewrite <- app_assoc in H2.
Qed.

Lemma wb_writeVarUInt_spec x b data : inv b data -> 0 <= x < 2 ^ 64 ->
  exists b', wb_writeVarUInt x b = (Ok tt, b') /\ inv b' (data ++ VarInt.writeVarUInt x).
Proof. intros H Hx. apply wb_varint_loop_spec; [done| |lia]. simpl. lia. Qed.

Lemma wb_writePODBinary_spec T x b data : inv b data ->
  exists b', wb_writePODBinary T x b = (Ok tt, b') /\ inv b' (data ++ writePODBinary T x).
Proof. intros H. apply (write_spec W inv); [done|]. apply le_bytes_range. Qed.

Lemma wb_writeStringBinary_spec s b data : inv b data -> is_bytes s -> Z.of_nat (length s) < 2 ^ 64 ->
  exists b', wb_writeStringBinary s b = (Ok tt, b') /\ inv b' (data ++ writeStringBinary s).
Proof.
  intros H Hs Hl. unfold wb_writeStringBinary, writeStringBinary. rewrite uwrap_small by (unfold in_unsigned; lia).
  destruct (wb_writeVarUInt_spec (Z.of_nat (length s)) b data H ltac:(lia)) as (b1 & -> & H1). cbn [andthen].
  destruct (write_spec W inv s b1 _ H1 Hs) as (b2 & -> & H2). exists b2. by rewrite <- app_assoc in H2.
Qed.

End WriteHelpers.
