(* ===== verification/BitIO.v ===== *)
(** Bit streams (src/IO/BitHelpers.h): the 128-bit buffers of [BitReader] and
    [BitWriter], and the list of bits they stand for. *)
From S2P Require Import Prelude IntText BinaryIO.
Import Binary.

(** * The code *)

(** [maskLowBits] of src/Common/BitHelpers.h *)
Definition maskLowBits (w bits : Z) : Z :=
  if bits =? 0 then 0
  else let result := 2 ^ w - 1 in if bits <? w then Z.shiftr result (w - bits) else result.

(** [getLeadingZeroBits] and [getTrailingZeroBits] of src/Common/BitHelpers.h on
    an operand of [W] bits, after the integral promotions. *)
Definition getLeadingZeroBits (W x : Z) : Z := if x =? 0 then W else W - 1 - Z.log2 x.

Fixpoint ctz (p : positive) : Z := match p with xO p => 1 + ctz p | _ => 0 end.

Definition getTrailingZeroBits (W x : Z) : Z := match x with Z.pos p => ctz p | _ => W end.

(** [std::byteswap] of a 64-bit value *)
Definition byteswap64 (v : Z) : Z := le_value (rev (le_bytes 8 v)).

(** [BitReader]: the bytes from [source_current] on, the number of bytes before
    it, and the buffer. *)
Record BitReader := {
  source : bytes;
  consumed : Z;
  bits_buffer : Z;
  bits_count : Z }.

Definition make_reader (src : bytes) : BitReader :=
  {| source := src; consumed := 0; bits_buffer := 0; bits_count := 0 |}.

(** [fillBitBuffer] *)
Definition fillBitBuffer (r : BitReader) : result BitReader :=
  let available := Z.of_nat (length (source r)) in
  let bytes_to_read := Z.min (64 / 8) available in
  if available =? 0 then
    if bytes_to_read =? 0 then Ok r else Throw ATTEMPT_TO_READ_AFTER_EOF
  else
    let n := Z.to_nat bytes_to_read in
    let tmp_buffer := le_value (take n (source r) ++ replicate (8 - n) 0) in
    let tmp_buffer := byteswap64 tmp_buffer in
    Ok {| source := drop n (source r);
          consumed := consumed r + bytes_to_read;
          bits_buffer := Z.lor (bits_buffer r)
            (uwrap 128 (Z.shiftl tmp_buffer ((16 - 8) * 8 - bits_count r)));
          bits_count := uwrap 8 (bits_count r + uwrap 8 bytes_to_read * 8) |}.

Definition skipBufferedBits (bits : Z) (r : BitReader) : BitReader :=
  {| source := source r; consumed := consumed r;
     bits_buffer := uwrap 128 (Z.shiftl (bits_buffer r) bits);
     bits_count := uwrap 8 (bits_count r - bits) |}.

(** [getBitsFromBitBuffer] in its two modes *)
Definition peekBits (bits_to_read : Z) (r : BitReader) : Z :=
  uwrap 64 (Z.shiftr (bits_buffer r) (16 * 8 - bits_to_read)).

Definition getBitsFromBitBuffer (bits_to_read : Z) (r : BitReader) : Z * BitReader :=
  (peekBits bits_to_read r, skipBufferedBits bits_to_read r).

Definition readBits (bits_to_read : Z) (r : BitReader) : result (Z * BitReader) :=
  let! r := (if bits_count r <? bits_to_read then fillBitBuffer r else Ok r) in
  Ok (getBitsFromBitBuffer bits_to_read r).

Definition peekByte (r : BitReader) : result (Z * BitReader) :=
  let! r := (if bits_count r <? 8 then fillBitBuffer r else Ok r) in
  Ok (uwrap 8 (peekBits 8 r), r).

Definition readBit (r : BitReader) : result (Z * BitReader) :=
  let! (v, r) := readBits 1 r in Ok (uwrap 8 v, r).

Definition reader_eof (r : BitReader) : bool :=
  (bits_count r =? 0) && (length (source r) =? 0)%nat.

Definition reader_count (r : BitReader) : Z := uwrap 64 (consumed r * 8 - bits_count r).
Definition remaining (r : BitReader) : Z := uwrap 64 (Z.of_nat (length (source r)) * 8 + bits_count r).

(** [BitWriter]: the bytes from [dest_begin] to [dest_current], the room left
    up to [dest_end], and the buffer. *)
Record BitWriter := {
  written : bytes;
  room : Z;
  w_buffer : Z;
  w_count : Z }.

Definition make_writer (size : Z) : BitWriter :=
  {| written := []; room := size; w_buffer := 0; w_count := 0 |}.

Definition BIT_BUFFER_SIZE : Z := 16 * 8.

Definition doFlush (w : BitWriter) : result BitWriter :=
  let available := room w in
  let to_write := Z.min 8 (w_count w / 8) in
  if available <? to_write then Throw CANNOT_WRITE_AFTER_END_OF_BUFFER
  else
    let tmp_buffer := uwrap 64 (Z.shiftr (w_buffer w) ((16 - 8) * 8)) in
    let tmp_buffer := byteswap64 tmp_buffer in
    Ok {| written := written w ++ take (Z.to_nat to_write) (le_bytes 8 tmp_buffer);
          room := room w - to_write;
          w_buffer := uwrap 128 (Z.shiftl (w_buffer w) (to_write * 8));
          w_count := uwrap 8 (w_count w - to_write * 8) |}.

Definition writeBits (bits_to_write value : Z) (w : BitWriter) : result BitWriter :=
  let capacity := uwrap 32 (BIT_BUFFER_SIZE - w_count w) in
  let! (capacity, w) :=
    (if capacity <? bits_to_write then
       let! w := doFlush w in Ok (uwrap 32 (BIT_BUFFER_SIZE - w_count w), w)
     else Ok (capacity, w)) in
  let mask := maskLowBits 64 bits_to_write in
  let v := Z.land value mask in
  let v := uwrap 128 (Z.shiftl v (uwrap 32 (capacity - bits_to_write))) in
  Ok {| written := written w; room := room w;
        w_buffer := Z.lor (w_buffer w) v;
        w_count := uwrap 8 (w_count w + bits_to_write) |}.

(** The loop of [flush]; the count drops by 8 at least in every iteration. *)
Fixpoint flush_loop (fuel : nat) (w : BitWriter) : result BitWriter :=
  match fuel with
  | O => Ok w
  | S fuel => if w_count w =? 0 then Ok w else let! w := doFlush w in flush_loop fuel w
  end.

Definition flush (w : BitWriter) : result BitWriter :=
  flush_loop 32
    {| written := written w; room := room w; w_buffer := w_buffer w;
       w_count := uwrap 8 (Z.land (w_count w + 8 - 1) (Z.lnot (8 - 1))) |}.

Definition writer_count (w : BitWriter) : Z := uwrap 64 (Z.of_nat (length (written w)) * 8 + w_count w).

(** * Lists of bits *)

(** The low [n] bits of [v], the highest first. *)
Fixpoint to_bits (n : nat) (v : Z) : list bool :=
  match n with
  | O => []
  | S n => Z.testbit v (Z.of_nat n) :: to_bits n v
  end.

Fixpoint of_bits (bs : list bool) : Z :=
  match bs with
  | [] => 0
  | b :: bs => Z.b2z b * 2 ^ Z.of_nat (length bs) + of_bits bs
  end.

Fixpoint bytes_bits (bs : bytes) : list bool :=
  match bs with
  | [] => []
  | b :: bs => to_bits 8 b ++ bytes_bits bs
  end.

Lemma length_to_bits n v : length (to_bits n v) = n.
Proof. induction n; simpl; auto. Qed.

Lemma length_bytes_bits bs : length (bytes_bits bs) = (8 * length bs)%nat.
Proof. induction bs as [|b bs IH]; [done|]. cbn [bytes_bits]. rewrite length_app, length_to_bits, IH. simpl. lia. Qed.

#[export] Hint Rewrite length_to_bits length_bytes_bits : lens.

Lemma to_bits_ext n v v' :
  (forall i, 0 <= i < Z.of_nat n -> Z.testbit v i = Z.testbit v' i) -> to_bits n v = to_bits n v'.
Proof.
  induction n as [|n IH]; intros H; simpl; [done|]. f_equal; [apply H; lia|].
  apply IH. intros i Hi. apply H. lia.
Qed.

Lemma to_bits_app a b v : to_bits (a + b) v = to_bits a (Z.shiftr v (Z.of_nat b)) ++ to_bits b v.
Proof.
  induction a as [|a IH]; simpl; [done|]. rewrite <- IH. f_equal.
  rewrite Z.shiftr_spec by lia. f_equal. lia.
Qed.

Lemma to_bits_zero n : to_bits n 0 = replicate n false.
Proof. induction n as [|n IH]; simpl; [done|]. by rewrite IH, Z.bits_0. Qed.

Lemma of_bits_range bs : 0 <= of_bits bs < 2 ^ Z.of_nat (length bs).
Proof.
  induction bs as [|b bs IH]; simpl; [done|].
  rewrite Nat2Z.inj_succ, Z.pow_succ_r by lia. destruct b; simpl; lia.
Qed.

Lemma testbit_split v n : 0 <= n -> v mod 2 ^ (n + 1) = Z.b2z (Z.testbit v n) * 2 ^ n + v mod 2 ^ n.
Proof.
  intros Hn. rewrite Z.testbit_spec' by done.
  rewrite Z.pow_add_r, Z.pow_1_r by lia. rewrite Z.rem_mul_r by lia. lia.
Qed.

Lemma of_to_bits n v : of_bits (to_bits n v) = v mod 2 ^ Z.of_nat n.
Proof.
  induction n as [|n IH]; simpl; [by rewrite Z.mod_1_r|].
  rewrite IH, length_to_bits, Nat2Z.inj_succ, <- Z.add_1_r. symmetry. apply testbit_split. lia.
Qed.

Lemma of_bits_app a b : of_bits (a ++ b) = of_bits a * 2 ^ Z.of_nat (length b) + of_bits b.
Proof.
  induction a as [|x a IH]; simpl; [lia|]. rewrite IH, length_app, Nat2Z.inj_add, Z.pow_add_r by lia. lia.
Qed.

Lemma to_bits_mod n v : to_bits n (v mod 2 ^ Z.of_nat n) = to_bits n v.
Proof. apply to_bits_ext. intros i Hi. apply Z.mod_pow2_bits_low. lia. Qed.

Lemma to_of_bits bs : to_bits (length bs) (of_bits bs) = bs.
Proof.
  induction bs as [|b bs IH]; simpl; [done|]. pose proof (of_bits_range bs) as Hr. f_equal.
  - rewrite Z.testbit_eqb by lia. rewrite Z.div_add_l, (Z.div_small (of_bits bs)) by lia.
    by destruct b.
  - rewrite <- (to_bits_mod _ (_ + _)), Z.add_comm, Z_mod_plus_full. by rewrite to_bits_mod.
Qed.

(** A value is determined by its bits. *)
Lemma to_bits_eq n v s : 0 <= v < 2 ^ Z.of_nat n -> to_bits n v = s -> v = of_bits s.
Proof. intros Hv <-. rewrite of_to_bits. by rewrite Z.mod_small. Qed.

Lemma of_bits_zeros n : of_bits (replicate n false) = 0.
Proof. induction n as [|n IH]; simpl; [done|]. by rewrite IH. Qed.

Lemma bytes_bits_app a b : bytes_bits (a ++ b) = bytes_bits a ++ bytes_bits b.
Proof. induction a as [|x a IH]; [done|]. cbn [bytes_bits app]. by rewrite IH, app_assoc. Qed.

Lemma bytes_bits_zeros n : bytes_bits (replicate n 0) = replicate (8 * n) false.
Proof.
  induction n as [|n IH]; [done|]. cbn [replicate bytes_bits]. rewrite IH, to_bits_zero, <- replicate_add.
  f_equal. lia.
Qed.

(** Shifts and bitwise or on lists of bits. *)
Lemma to_bits_shiftl n k v :
  (k <= n)%nat -> to_bits n (Z.shiftl v (Z.of_nat k)) = to_bits (n - k) v ++ replicate k false.
Proof.
  intros Hk. replace n with ((n - k) + k)%nat at 1 by lia. rewrite to_bits_app. f_equal.
  - apply to_bits_ext. intros i Hi. rewrite Z.shiftr_spec, Z.shiftl_spec by lia. f_equal. lia.
  - rewrite <- to_bits_zero. apply to_bits_ext. intros i Hi.
    rewrite Z.shiftl_spec, Z.bits_0, Z.testbit_neg_r by lia. done.
Qed.

Lemma to_bits_lor n a b : to_bits n (Z.lor a b) = zip_with orb (to_bits n a) (to_bits n b).
Proof. induction n as [|n IH]; simpl; [done|]. by rewrite IH, Z.lor_spec. Qed.

Lemma orb_zeros_r (l : list bool) k : k = length l -> zip_with orb l (replicate k false) = l.
Proof. intros ->. induction l as [|b l IH]; simpl; [done|]. by rewrite IH, orb_false_r. Qed.

Lemma orb_zeros_l (l : list bool) k : k = length l -> zip_with orb (replicate k false) l = l.
Proof. intros ->. induction l as [|b l IH]; simpl; [done|]. by rewrite IH. Qed.

Lemma orb_pad (a b : list bool) k n :
  k = length a -> n = length b ->
  zip_with orb (a ++ replicate n false) (replicate k false ++ b) = a ++ b.
Proof.
  intros -> ->. rewrite zip_with_app by (by rewrite length_replicate).
  by rewrite orb_zeros_r, orb_zeros_l.
Qed.

Lemma take_to_bits n k v : (k <= n)%nat -> take k (to_bits n v) = to_bits k (Z.shiftr v (Z.of_nat (n - k))).
Proof.
  intros Hk. replace n with (k + (n - k))%nat at 1 by lia. rewrite to_bits_app.
  rewrite take_app_length' by (by rewrite length_to_bits). done.
Qed.

(** Little-endian values of concatenations. *)
Lemma le_value_app a b : le_value (a ++ b) = le_value a + 2 ^ (8 * Z.of_nat (length a)) * le_value b.
Proof.
  induction a as [|x a IH]; cbn [le_value app length]; [lia|].
  replace (8 * Z.of_nat (S (length a))) with (8 + 8 * Z.of_nat (length a)) by lia.
  rewrite IH, Z.pow_add_r by lia. change (2 ^ 8) with 256. lia.
Qed.

Lemma le_value_bytes_mod n z : le_value (le_bytes n z) = z mod 2 ^ (8 * Z.of_nat n).
Proof.
  revert z. induction n as [|n IH]; intros z; cbn [le_bytes le_value].
  { change (2 ^ (8 * Z.of_nat 0)) with 1. by rewrite Z.mod_1_r. }
  replace (8 * Z.of_nat (S n)) with (8 + 8 * Z.of_nat n) by lia.
  rewrite IH, Z.pow_add_r by lia. change (2 ^ 8) with 256. rewrite Z.rem_mul_r by lia. lia.
Qed.

Lemma to_bits_add_high a b u v :
  0 <= u < 2 ^ Z.of_nat b -> to_bits (a + b) (u + 2 ^ Z.of_nat b * v) = to_bits a v ++ to_bits b u.
Proof.
  intros Hu. rewrite to_bits_app, (Z.mul_comm _ v). f_equal.
  - f_equal. rewrite Z.shiftr_div_pow2, Z.div_add, Z.div_small by lia. lia.
  - rewrite <- (to_bits_mod _ (_ + _)), Z_mod_plus_full. apply to_bits_mod.
Qed.

Lemma to_bits_le_rev l : is_bytes l -> to_bits (8 * length l) (le_value (rev l)) = bytes_bits l.
Proof.
  intros Hl. induction Hl as [|b l Hb Hl IH]; [done|]. cbn [rev bytes_bits].
  rewrite le_value_app, <- IH. cbn [le_value]. rewrite Z.mul_0_r, Z.add_0_r.
  replace (8 * length (b :: l))%nat with (8 + 8 * length l)%nat by (simpl; lia).
  rewrite length_rev. replace (8 * Z.of_nat (length l)) with (Z.of_nat (8 * length l)) by lia.
  apply to_bits_add_high. replace (Z.of_nat (8 * length l)) with (8 * Z.of_nat (length (rev l))) by (rewrite length_rev; lia).
  apply le_value_range. by apply Forall_rev.
Qed.

Lemma to_bits_byteswap bs :
  is_bytes bs -> length bs = 8%nat -> to_bits 64 (byteswap64 (le_value bs)) = bytes_bits bs.
Proof.
  intros Hbs Hl. unfold byteswap64. pose proof (to_bits_le_rev bs Hbs) as H.
  rewrite Hl in H. rewrite <- Hl at 2. by rewrite le_bytes_value.
Qed.

Lemma bytes_bits_inj a b :
  is_bytes a -> is_bytes b -> length a = length b -> bytes_bits a = bytes_bits b -> a = b.
Proof.
  intros Ha Hb Hl H. revert b Hb Hl H. induction Ha as [|x a Hx Ha IH]; intros [|y b] Hb Hl H; try done.
  apply Forall_cons in Hb as [Hy Hb]. cbn [bytes_bits] in H.
  apply app_inj_1 in H as [H1 H2]; [|by rewrite !length_to_bits]. f_equal; [|apply IH; auto].
  apply (f_equal of_bits) in H1. rewrite !of_to_bits in H1. change (2 ^ Z.of_nat 8) with 256 in H1.
  by rewrite !Z.mod_small in H1.
Qed.

(** The bytes of a swapped 64-bit value are the bits of the value. *)
Lemma bytes_bits_swapped v : bytes_bits (le_bytes 8 (byteswap64 v)) = to_bits 64 v.
Proof.
  unfold byteswap64. set (l := rev (le_bytes 8 v)).
  assert (Hl : is_bytes l) by (apply Forall_rev, le_bytes_range).
  assert (Hlen : length l = 8%nat) by (unfold l; by rewrite length_rev, length_le_bytes).
  rewrite <- Hlen, le_bytes_value by done. rewrite <- to_bits_le_rev by done. rewrite Hlen.
  unfold l. rewrite rev_involutive. change (8 * 8)%nat with 64%nat.
  rewrite le_value_bytes_mod. apply (to_bits_mod 64).
Qed.

(** * The 128-bit buffer *)

(** The buffer holds the bits [s] at its high end and zeroes below. *)
Record buffer_holds (buf : Z) (s : list bool) : Prop := {
  holds_bits : to_bits 128 buf = s ++ replicate (128 - length s) false;
  holds_range : 0 <= buf < 2 ^ 128;
  holds_len : (length s <= 128)%nat }.

Lemma holds_nil : buffer_holds 0 [].
Proof. split; [by rewrite to_bits_zero|lia|simpl; lia]. Qed.

Lemma drop_to_bits k n v : drop k (to_bits (k + n) v) = to_bits n v.
Proof. rewrite to_bits_app. by rewrite drop_app_length' by (by rewrite length_to_bits). Qed.

Lemma to_bits_uwrap n v : to_bits n (uwrap (Z.of_nat n) v) = to_bits n v.
Proof. apply to_bits_mod. Qed.

Lemma holds_drop buf s n :
  buffer_holds buf s -> (n <= length s)%nat ->
  buffer_holds (uwrap 128 (Z.shiftl buf (Z.of_nat n))) (drop n s).
Proof.
  intros [Hb Hr Hl] Hn. split; [|apply uwrap_range; lia|simpl_len; lia].
  rewrite (to_bits_uwrap 128), to_bits_shiftl by lia.
  rewrite <- (drop_to_bits n). replace (n + (128 - n))%nat with 128%nat by lia.
  rewrite Hb, drop_app_le by done. rewrite <- app_assoc, <- replicate_add. f_equal. f_equal.
  simpl_len. lia.
Qed.

Lemma holds_take buf s n :
  buffer_holds buf s -> (n <= 128)%nat ->
  Z.shiftr buf (128 - Z.of_nat n) = of_bits (take n (s ++ replicate (128 - length s) false)).
Proof.
  intros [Hb Hr Hl] Hn. rewrite <- Hb, take_to_bits by done.
  rewrite of_to_bits. replace (Z.of_nat (128 - n)) with (128 - Z.of_nat n) by lia.
  symmetry. apply Z.mod_small. rewrite Z.shiftr_div_pow2 by lia. split; [apply Z.div_pos; lia|].
  apply Z.div_lt_upper_bound; [lia|]. rewrite <- Z.pow_add_r by lia.
  replace (128 - Z.of_nat n + Z.of_nat n) with 128 by lia. lia.
Qed.

(** The bits above the width of a value are zeroes. *)
Lemma to_bits_high k n v : 0 <= v < 2 ^ Z.of_nat n -> to_bits (k + n) v = replicate k false ++ to_bits n v.
Proof.
  intros Hv. rewrite to_bits_app, Z.shiftr_div_pow2, Z.div_small by lia. by rewrite to_bits_zero.
Qed.

Lemma holds_append buf s m v k :
  buffer_holds buf s -> (length s + m + k = 128)%nat -> 0 <= v < 2 ^ Z.of_nat m ->
  buffer_holds (Z.lor buf (uwrap 128 (Z.shiftl v (Z.of_nat k)))) (s ++ to_bits m v).
Proof.
  intros [Hb Hr Hl] Hlen Hv. split; [|split|simpl_len; lia].
  - rewrite to_bits_lor, (to_bits_uwrap 128), Hb, to_bits_shiftl by lia.
    replace (128 - k)%nat with (length s + m)%nat by lia. rewrite to_bits_high by done.
    rewrite <- !app_assoc. rewrite orb_pad by (simpl_len; lia). do 3 f_equal. simpl_len. lia.
  - apply Z.lor_nonneg. split; [lia|]. apply uwrap_range. lia.
  - pose proof (uwrap_range 128 (Z.shiftl v (Z.of_nat k)) ltac:(lia)) as Hu. unfold in_unsigned in Hu.
    rewrite <- (Z.mod_small buf (2 ^ 128)), <- (Z.mod_small (uwrap _ _) (2 ^ 128)) by lia.
    rewrite <- !Z.land_ones, <- Z.land_lor_distr_l, Z.land_ones by lia. apply Z.mod_pos_bound. lia.
Qed.

Lemma holds_zeros buf s n : buffer_holds buf (s ++ replicate n false) -> buffer_holds buf s.
Proof.
  intros [Hb Hr Hl]. simpl_len. split; [|done|lia].
  rewrite Hb, <- app_assoc, <- replicate_add. f_equal. f_equal. simpl_len. lia.
Qed.

(** * The reader *)

(** The reader has the bits [s] left, of which its buffer holds the first. *)
Record reader_bits (r : BitReader) (s : list bool) : Prop := {
  reader_buffer : exists b, buffer_holds (bits_buffer r) b /\ s = b ++ bytes_bits (source r) /\
                    bits_count r = Z.of_nat (length b);
  reader_source : is_bytes (source r) }.

Lemma make_reader_bits src : is_bytes src -> reader_bits (make_reader src) (bytes_bits src).
Proof. intros H. split; [|done]. exists []. split_and!; [apply holds_nil|done|done]. Qed.

Lemma fill_bits_word src n :
  is_bytes src -> n = Nat.min 8 (length src) ->
  to_bits 64 (byteswap64 (le_value (take n src ++ replicate (8 - n) 0))) =
  bytes_bits (take n src) ++ replicate (64 - 8 * n) false.
Proof.
  intros Hs Hn. rewrite to_bits_byteswap.
  - rewrite bytes_bits_app, bytes_bits_zeros. f_equal. f_equal. lia.
  - apply is_bytes_app. auto with bytesdb.
  - simpl_len. lia.
Qed.

Lemma byteswap64_range v : 0 <= byteswap64 v < 2 ^ 64.
Proof.
  unfold byteswap64. pose proof (le_value_range (rev (le_bytes 8 v))) as H.
  rewrite length_rev, length_le_bytes in H. apply H, Forall_rev, le_bytes_range.
Qed.

(** Filling keeps the stream; afterwards the buffer holds 64 bits or all. *)
Lemma fillBitBuffer_spec r s :
  reader_bits r s -> bits_count r <= 64 ->
  exists r', fillBitBuffer r = Ok r' /\ reader_bits r' s /\
    Z.min 64 (Z.of_nat (length s)) <= bits_count r' /\ bits_count r <= bits_count r'.
Proof.
  intros [(b & Hb & -> & Hc) Hs] Hle. unfold fillBitBuffer.
  destruct (Z.eqb_spec (Z.of_nat (length (source r))) 0) as [E|E].
  { rewrite E. simpl. exists r. split_and!; [done|split; [by exists b|done]| |lia].
    destruct (source r); [|done]. rewrite app_nil_r. lia. }
  set (n := Z.to_nat (Z.min (64 / 8) (Z.of_nat (length (source r))))).
  assert (Hn : n = Nat.min 8 (length (source r))) by (unfold n; change (64 / 8) with 8; lia).
  assert (Hz : Z.min (64 / 8) (Z.of_nat (length (source r))) = Z.of_nat n) by (unfold n; change (64 / 8) with 8; lia).
  rewrite Hz. eexists. split; [reflexivity|].
  assert (Hcount : uwrap 8 (bits_count r + uwrap 8 (Z.of_nat n) * 8) = Z.of_nat (length b + 8 * n)).
  { rewrite (uwrap_small 8 (Z.of_nat n)) by (unfold in_unsigned; lia).
    rewrite uwrap_small by (unfold in_unsigned; lia). lia. }
  split; [split; simpl|split; simpl].
  - exists (b ++ bytes_bits (take n (source r))). split_and!.
    + apply (holds_zeros _ _ (64 - 8 * n)). rewrite <- app_assoc, <- fill_bits_word by done.
      replace ((16 - 8) * 8 - bits_count r) with (Z.of_nat (64 - length b)) by lia.
      apply holds_append; [done|lia|apply byteswap64_range].
    + by rewrite <- app_assoc, <- bytes_bits_app, take_drop.
    + rewrite Hcount. simpl_len. lia.
  - by apply is_bytes_drop.
  - rewrite Hcount. simpl_len. lia.
  - rewrite Hcount. lia.
Qed.

Lemma skipBufferedBits_spec r s n :
  reader_bits r s -> Z.of_nat n <= bits_count r -> reader_bits (skipBufferedBits (Z.of_nat n) r) (drop n s).
Proof.
  intros [(b & Hb & -> & Hc) Hs] Hn. split; [|done]. exists (drop n b). simpl. split_and!.
  - apply holds_drop; [done|lia].
  - apply drop_app_le. lia.
  - pose proof (holds_len _ _ Hb). rewrite uwrap_small by (unfold in_unsigned; lia). simpl_len. lia.
Qed.

Lemma of_bits_take_range n s : 0 <= of_bits (take n s) < 2 ^ Z.of_nat n.
Proof.
  pose proof (of_bits_range (take n s)). simpl_len. split; [lia|].
  eapply Z.lt_le_trans; [apply H|]. apply Z.pow_le_mono_r; lia.
Qed.

Lemma peekBits_spec r s n :
  reader_bits r s -> (n <= 64)%nat -> Z.of_nat n <= bits_count r ->
  peekBits (Z.of_nat n) r = of_bits (take n s).
Proof.
  intros [(b & Hb & -> & Hc) Hs] Hn Hle. unfold peekBits. change (16 * 8) with 128.
  rewrite (holds_take _ b) by (done || lia). rewrite !take_app_le by lia. apply uwrap_small.
  pose proof (of_bits_take_range n b) as Hr. unfold in_unsigned. split; [lia|].
  eapply Z.lt_le_trans; [apply Hr|]. apply Z.pow_le_mono_r; lia.
Qed.

(** Reading [n] bits returns the next [n] bits of the stream. *)
Lemma readBits_spec r s n :
  reader_bits r s -> (n <= 64)%nat -> (n <= length s)%nat ->
  exists r', readBits (Z.of_nat n) r = Ok (of_bits (take n s), r') /\ reader_bits r' (drop n s).
Proof.
  intros Hr Hn Hs. unfold readBits.
  assert (exists r', (if bits_count r <? Z.of_nat n then fillBitBuffer r else Ok r) = Ok r' /\
    reader_bits r' s /\ Z.of_nat n <= bits_count r') as (r' & -> & Hr' & Hc).
  { destruct (Z.ltb_spec (bits_count r) (Z.of_nat n)); [|by exists r].
    destruct (fillBitBuffer_spec r s Hr) as (r' & H1 & H2 & H3 & _); [lia|].
    exists r'. split_and!; [done|done|lia]. }
  cbn [rbind]. unfold getBitsFromBitBuffer. rewrite (peekBits_spec _ s) by done.
  eexists. split; [reflexivity|]. by apply skipBufferedBits_spec.
Qed.

(** The same on a stream that starts with the bits of a value. *)
Lemma readBits_value r n v s :
  reader_bits r (to_bits n v ++ s) -> (n <= 64)%nat ->
  exists r', readBits (Z.of_nat n) r = Ok (v mod 2 ^ Z.of_nat n, r') /\ reader_bits r' s.
Proof.
  intros Hr Hn. destruct (readBits_spec r _ n Hr Hn) as (r' & H1 & H2); [simpl_len; lia|].
  rewrite take_app_length' in H1 by (by rewrite length_to_bits).
  rewrite drop_app_length' in H2 by (by rewrite length_to_bits).
  rewrite of_to_bits in H1. by exists r'.
Qed.

Lemma readBit_value r b s :
  reader_bits r (b :: s) -> exists r', readBit r = Ok (Z.b2z b, r') /\ reader_bits r' s.
Proof.
  intros Hr. unfold readBit. destruct (readBits_spec r _ 1 Hr) as (r' & H1 & H2); [lia|simpl; lia|].
  change (Z.of_nat 1) with 1 in H1. rewrite H1. cbn [rbind]. exists r'. split; [|done].
  simpl. by destruct b.
Qed.

(** Peeking a byte: the next eight bits, completed by zeroes at the end. *)
Lemma peekByte_spec r s :
  reader_bits r s ->
  exists r', peekByte r = Ok (of_bits (take 8 (s ++ replicate 8 false)), r') /\ reader_bits r' s /\
    Z.min 8 (Z.of_nat (length s)) <= bits_count r'.
Proof.
  intros Hr. unfold peekByte.
  assert (exists r', (if bits_count r <? 8 then fillBitBuffer r else Ok r) = Ok r' /\
    reader_bits r' s /\ Z.min 8 (Z.of_nat (length s)) <= bits_count r') as (r' & -> & Hr' & Hc).
  { destruct (Z.ltb_spec (bits_count r) 8); [|exists r; split_and!; [done|done|lia]].
    destruct (fillBitBuffer_spec r s Hr) as (r' & H1 & H2 & H3 & _); [lia|].
    exists r'. split_and!; [done|done|lia]. }
  cbn [rbind]. exists r'. split; [|done]. f_equal. f_equal. unfold peekBits.
  destruct Hr' as [(b & Hb & -> & Hcb) Hs]. change (16 * 8 - 8) with (128 - Z.of_nat 8).
  rewrite (holds_take _ b) by (done || lia).
  assert (E : take 8 (b ++ replicate (128 - length b) false) =
    take 8 ((b ++ bytes_bits (source r')) ++ replicate 8 false)).
  { rewrite <- app_assoc. destruct (decide (8 <= length b)%nat); [by rewrite !take_app_le by lia|].
    simpl_len. rewrite !take_app_ge by lia. f_equal.
    destruct (source r') as [|x l] eqn:Es; [|simpl_len; lia]. cbn [bytes_bits app].
    rewrite !take_replicate. f_equal. lia. }
  rewrite E. pose proof (of_bits_take_range 8 ((b ++ bytes_bits (source r')) ++ replicate 8 false)) as Hrange.
  change (2 ^ Z.of_nat 8) with (2 ^ 8) in Hrange.
  rewrite (uwrap_small 64), (uwrap_small 8) by (unfold in_unsigned; lia). done.
Qed.

Lemma reader_eof_spec r s : reader_bits r s -> reader_eof r = (length s =? 0)%nat.
Proof.
  intros [(b & Hb & -> & Hc) Hs]. unfold reader_eof. simpl_len.
  destruct (Z.eqb_spec (bits_count r) 0), (Nat.eqb_spec (length (source r)) 0),
    (Nat.eqb_spec (length b + 8 * length (source r)) 0); simpl; done || lia.
Qed.

Lemma remaining_spec r s :
  reader_bits r s -> Z.of_nat (length s) < 2 ^ 64 -> remaining r = Z.of_nat (length s).
Proof.
  intros [(b & Hb & -> & Hc) Hs] Hl. unfold remaining. simpl_len.
  rewrite uwrap_small; unfold in_unsigned; lia.
Qed.

(** * The writer *)

Lemma bytes_bits_take k l : bytes_bits (take k l) = take (8 * k) (bytes_bits l).
Proof.
  revert l. induction k as [|k IH]; intros l; [done|]. destruct l as [|x l]; [by rewrite take_nil|].
  cbn [take bytes_bits]. rewrite IH. replace (8 * S k)%nat with (8 + 8 * k)%nat by lia.
  rewrite take_app_add'; [done|]. by rewrite length_to_bits.
Qed.

(** The writer has written the bits [s], the last of them still buffered, to a
    destination of [cap] bytes. *)
Record writer_bits (cap : Z) (w : BitWriter) (s : list bool) : Prop := {
  writer_buffer : exists b, buffer_holds (w_buffer w) b /\ s = bytes_bits (written w) ++ b /\
                    w_count w = Z.of_nat (length b);
  writer_written : is_bytes (written w);
  writer_cap : Z.of_nat (length (written w)) + room w = cap }.

Lemma make_writer_bits size : writer_bits size (make_writer size) [].
Proof. split; [|constructor|done]. exists []. split_and!; [apply holds_nil|done|done]. Qed.

(** The writer throws rather than leave its destination. *)
Abbreviation refused r := (r = Throw CANNOT_WRITE_AFTER_END_OF_BUFFER).

Lemma doFlush_cases cap w s :
  writer_bits cap w s ->
  (refused (doFlush w) /\ 8 * cap < Z.of_nat (length s)) \/
  exists w', doFlush w = Ok w' /\ writer_bits cap w' s /\
    w_count w' = w_count w - 8 * Z.min 8 (w_count w / 8).
Proof.
  intros [(b & Hb & -> & Hc) Hw Hcap]. unfold doFlush. simpl_len.
  pose proof (holds_len _ _ Hb) as Hlen.
  set (n := Nat.min 8 (length b / 8)).
  assert (Hn : (8 * n <= length b)%nat).
  { unfold n. pose proof (Nat.Div0.mul_div_le (length b) 8). lia. }
  assert (Hz : Z.min 8 (w_count w / 8) = Z.of_nat n).
  { unfold n. rewrite Hc, Nat2Z.inj_min, Nat2Z.inj_div. done. }
  rewrite Hz. destruct (Z.ltb_spec (room w) (Z.of_nat n)); [left; split; [done|lia]|right].
  eexists. split; [reflexivity|].
  assert (Hcount : uwrap 8 (w_count w - Z.of_nat n * 8) = Z.of_nat (length b - 8 * n)).
  { rewrite uwrap_small; unfold in_unsigned; lia. }
  set (v := uwrap 64 (Z.shiftr (w_buffer w) ((16 - 8) * 8))).
  assert (Htop : bytes_bits (take n (le_bytes 8 (byteswap64 v))) = take (8 * n) b).
  { rewrite bytes_bits_take, bytes_bits_swapped. unfold v. rewrite (to_bits_uwrap 64).
    change (Z.shiftr (w_buffer w) ((16 - 8) * 8)) with (Z.shiftr (w_buffer w) (Z.of_nat (128 - 64))).
    rewrite <- take_to_bits, (holds_bits _ _ Hb), take_take by lia.
    replace (Nat.min (8 * n) 64) with (8 * n)%nat by (unfold n; lia). by rewrite take_app_le. }
  split; [split; cbn [written room w_buffer w_count]|cbn [w_count]; lia].
  - exists (drop (8 * n) b). split_and!.
    + replace (Z.of_nat n * 8) with (Z.of_nat (8 * n)) by lia. by apply holds_drop.
    + rewrite bytes_bits_app, Nat2Z.id, Htop, <- app_assoc, take_drop. done.
    + rewrite Hcount. simpl_len. done.
  - apply is_bytes_app. split; [done|]. apply is_bytes_take, le_bytes_range.
  - simpl_len. rewrite length_le_bytes. lia.
Qed.

Lemma ctz_spec p : (2 ^ ctz p | Z.pos p) /\ 0 <= ctz p <= Z.log2 (Z.pos p).
Proof.
  induction p as [p IH|p IH|]; cbn [ctz].
  - split; [apply Z.divide_1_l|]. pose proof (Z.log2_nonneg (Z.pos p~1)). lia.
  - destruct IH as [[q Hq] Hr]. split.
    + exists q. rewrite Z.pow_add_r by lia. change (Z.pos p~0) with (2 * Z.pos p). rewrite Hq at 1. lia.
    + change (Z.pos p~0) with (2 * Z.pos p). rewrite Z.log2_double by lia. lia.
  - split; [apply Z.divide_1_l|simpl; lia].
Qed.

(** Cutting off trailing zeroes and restoring them. *)
Lemma shift_back x t n : 0 <= t -> 0 <= n -> (2 ^ t | x) -> 0 <= x < 2 ^ (n + t) ->
  0 <= Z.shiftr x t < 2 ^ n /\ Z.shiftl (Z.shiftr x t) t = x.
Proof.
  intros Ht Hn [q ->] Hx. rewrite Z.shiftr_div_pow2, Z.shiftl_mul_pow2, Z.div_mul by lia.
  rewrite Z.pow_add_r in Hx by lia. split; [nia|done].
Qed.

Lemma maskLowBits_spec n : (n <= 64)%nat -> maskLowBits 64 (Z.of_nat n) = 2 ^ Z.of_nat n - 1.
Proof.
  intros Hn. unfold maskLowBits. destruct (Z.eqb_spec (Z.of_nat n) 0) as [->|]; [done|].
  destruct (Z.ltb_spec (Z.of_nat n) 64); [|by replace (Z.of_nat n) with 64 by lia].
  rewrite Z.shiftr_div_pow2 by lia. symmetry.
  apply (Z.div_unique _ _ _ (2 ^ (64 - Z.of_nat n) - 1)); [lia|].
  replace (2 ^ 64) with (2 ^ (64 - Z.of_nat n) * 2 ^ Z.of_nat n); [lia|].
  rewrite <- Z.pow_add_r by lia. f_equal. lia.
Qed.

(** Making room in the buffer. *)
Lemma make_room cap w s n :
  writer_bits cap w s -> (0 < n <= 64)%nat ->
  let r := (if uwrap 32 (BIT_BUFFER_SIZE - w_count w) <? Z.of_nat n
      then let! w := doFlush w in Ok (uwrap 32 (BIT_BUFFER_SIZE - w_count w), w)
      else Ok (uwrap 32 (BIT_BUFFER_SIZE - w_count w), w)) in
  (refused r /\ 8 * cap < Z.of_nat (length s)) \/
  exists w' b, r = Ok (Z.of_nat (128 - length b), w') /\
    buffer_holds (w_buffer w') b /\ s = bytes_bits (written w') ++ b /\
    w_count w' = Z.of_nat (length b) /\ (length b + n <= 128)%nat /\
    is_bytes (written w') /\ Z.of_nat (length (written w')) + room w' = cap.
Proof.
  intros Hw Hn. simpl. destruct (writer_buffer _ _ _ Hw) as (b & Hb & Eb & Hc).
  pose proof (holds_len _ _ Hb) as Hlb.
  assert (Hcapy : uwrap 32 (BIT_BUFFER_SIZE - w_count w) = Z.of_nat (128 - length b)).
  { unfold BIT_BUFFER_SIZE. rewrite uwrap_small; unfold in_unsigned; lia. }
  rewrite Hcapy. destruct (Z.ltb_spec (Z.of_nat (128 - length b)) (Z.of_nat n)).
  2:{ right. exists w, b. destruct Hw. split_and!; [done..|lia|done|done]. }
  destruct (doFlush_cases cap w s Hw)
    as [[-> ?]|(w' & -> & [(b' & Hb' & Eb' & Hc') Hwr' Hcap'] & Hcnt)]; [by left|right].
  pose proof (holds_len _ _ Hb') as Hlb'. pose proof (Z.mul_div_le (w_count w) 8).
  assert (8 <= w_count w / 8) by (apply Z.div_le_lower_bound; lia).
  exists w', b'. split_and!; try done; [|lia].
  cbn [rbind]. unfold BIT_BUFFER_SIZE. rewrite uwrap_small by (unfold in_unsigned; lia). do 2 f_equal. lia.
Qed.

(** Writing [n] bits appends the low [n] bits of the value. *)
Lemma writeBits_cases cap w s n v :
  writer_bits cap w s -> (0 < n <= 64)%nat ->
  (refused (writeBits (Z.of_nat n) v w) /\ 8 * cap < Z.of_nat (length s)) \/
  exists w', writeBits (Z.of_nat n) v w = Ok w' /\ writer_bits cap w' (s ++ to_bits n v).
Proof.
  intros Hw Hn. unfold writeBits.
  destruct (make_room cap w s n Hw Hn)
    as [[-> ?]|(w' & b & -> & Hb & Hsb & Hcb & Hroom & Hwr & Hcap)]; [by left|right].
  cbn [rbind]. eexists. split; [reflexivity|]. rewrite maskLowBits_spec by lia.
  rewrite land_low_mask by lia. split; cbn [written room w_buffer w_count]; [|done|done].
  exists (b ++ to_bits n v). split_and!.
  - replace (uwrap 32 (Z.of_nat (128 - length b) - Z.of_nat n)) with (Z.of_nat (128 - length b - n)).
    2:{ rewrite uwrap_small; unfold in_unsigned; lia. }
    rewrite <- (to_bits_mod n v). apply holds_append; [done|lia|]. apply Z.mod_pos_bound. lia.
  - by rewrite Hsb, app_assoc.
  - rewrite Hcb. simpl_len. rewrite uwrap_small; unfold in_unsigned; lia.
Qed.

(** [f] appends the bits [code], or throws for lack of room. *)
Definition writes (f : BitWriter -> result BitWriter) (code : list bool) : Prop :=
  forall cap w s, writer_bits cap w s ->
  (refused (f w) /\ 8 * cap < Z.of_nat (length s + length code)) \/
  exists w', f w = Ok w' /\ writer_bits cap w' (s ++ code).

Lemma writes_bits n v : (0 < n <= 64)%nat -> writes (writeBits (Z.of_nat n) v) (to_bits n v).
Proof.
  intros Hn cap w s Hw. destruct (writeBits_cases cap w s n v Hw Hn) as [[-> ?]|H]; [left|by right].
  split; [done|lia].
Qed.

Lemma writes_nil : writes Ok [].
Proof. intros cap w s Hw. right. exists w. by rewrite app_nil_r. Qed.

Lemma writes_bind f g c1 c2 :
  writes f c1 -> writes g c2 -> writes (fun w => let! w := f w in g w) (c1 ++ c2).
Proof.
  intros Hf Hg cap w s Hw. simpl_len. destruct (Hf cap w s Hw) as [[-> ?]|(w1 & -> & H1)]; [left; split; [done|lia]|].
  cbn [rbind]. destruct (Hg cap w1 _ H1) as [[-> ?]|(w2 & -> & H2)].
  - left. split; [done|]. simpl_len. lia.
  - right. exists w2. split; [done|]. by rewrite <- app_assoc in H2.
Qed.

Lemma flush_loop_cases cap fuel w s :
  writer_bits cap w s -> w_count w mod 8 = 0 -> w_count w < 8 * Z.of_nat fuel ->
  (refused (flush_loop fuel w) /\ 8 * cap < Z.of_nat (length s)) \/
  exists w', flush_loop fuel w = Ok w' /\ writer_bits cap w' s /\ w_count w' = 0.
Proof.
  revert w. induction fuel as [|fuel IH]; intros w Hw Hmod Hf; simpl.
  { destruct (writer_buffer _ _ _ Hw) as (b & _ & _ & Hc). lia. }
  destruct (Z.eqb_spec (w_count w) 0); [right; by exists w|].
  destruct (doFlush_cases cap w s Hw) as [[-> ?]|(w' & -> & Hw' & Hc')]; [by left|]. cbn [rbind].
  destruct (writer_buffer _ _ _ Hw) as (b & _ & _ & Hc).
  apply IH; [done| |]; rewrite Hc'; Z.to_euclidean_division_equations; lia.
Qed.

Lemma flush_align c : 0 <= c <= 128 -> uwrap 8 (Z.land (c + 8 - 1) (Z.lnot (8 - 1))) = 8 * ((c + 7) / 8).
Proof.
  intros Hc. by_range (fun c => uwrap 8 (Z.land (c + 8 - 1) (Z.lnot (8 - 1))) = 8 * ((c + 7) / 8)) 0 129 c.
  done.
Qed.

(** Flushing writes all bits, the last byte completed by zeroes. *)
Lemma flush_cases cap w s :
  writer_bits cap w s ->
  (refused (flush w) /\ 8 * cap < Z.of_nat (length s)) \/
  exists w', flush w = Ok w' /\ is_bytes (written w') /\ w_count w' = 0 /\
    Z.of_nat (length (written w')) = (Z.of_nat (length s) + 7) / 8 /\
    exists pad, bytes_bits (written w') = s ++ replicate pad false.
Proof.
  intros Hw. unfold flush. destruct Hw as [(b & Hb & Es & Hc) Hwr Hcap].
  pose proof (holds_len _ _ Hb) as Hlb. rewrite flush_align by lia.
  set (pad := (8 * Z.to_nat ((w_count w + 7) / 8) - length b)%nat).
  assert (Hpad : Z.of_nat (length b + pad) = 8 * ((w_count w + 7) / 8)).
  { unfold pad. Z.to_euclidean_division_equations; lia. }
  set (w0 := {| written := written w; room := room w; w_buffer := w_buffer w;
    w_count := 8 * ((w_count w + 7) / 8) |}).
  assert (Hw0 : writer_bits cap w0 (s ++ replicate pad false)).
  { split; [|done|done]. exists (b ++ replicate pad false). unfold w0; cbn [w_buffer written w_count].
    split_and!; [|by rewrite Es, app_assoc|simpl_len; lia].
    destruct Hb as [Hb Hr _]. split; [|done|simpl_len; Z.to_euclidean_division_equations; lia].
    rewrite Hb, <- app_assoc, <- replicate_add. do 2 f_equal. simpl_len.
    Z.to_euclidean_division_equations; lia. }
  assert (Hlen : Z.of_nat (length (s ++ replicate pad false)) = 8 * ((Z.of_nat (length s) + 7) / 8)).
  { subst s. simpl_len. rewrite Nat2Z.inj_add in *. Z.to_euclidean_division_equations; lia. }
  destruct (flush_loop_cases cap 32 w0 _ Hw0) as [[-> Hlt]|(w' & -> & Hw' & Hc')].
  - unfold w0; cbn [w_count]. rewrite Z.mul_comm. apply Z_mod_mult.
  - unfold w0; cbn [w_count]. Z.to_euclidean_division_equations; lia.
  - left. split; [done|]. rewrite Hlen in Hlt. Z.to_euclidean_division_equations; lia.
  - right. exists w'. destruct Hw' as [(b' & Hb' & Es' & Hcb') Hwr' Hcap'].
    assert (b' = []) as -> by (destruct b'; [done|]; simpl in Hcb'; lia). rewrite app_nil_r in Es'.
    split_and!; [done|done|done| |by exists pad].
    apply (f_equal length) in Es'. rewrite length_bytes_bits in Es'. lia.
Qed.

(** A whole stream, from an empty destination to the flush. *)
Lemma writes_stream f code size :
  writes f code ->
  let r := (let! w := f (make_writer size) in flush w) in
  (refused r /\ 8 * size < Z.of_nat (length code)) \/
  exists w, r = Ok w /\ is_bytes (written w) /\
    Z.of_nat (length (written w)) = (Z.of_nat (length code) + 7) / 8 /\
    exists pad, bytes_bits (written w) = code ++ replicate pad false.
Proof.
  intros Hf. simpl. destruct (Hf size _ [] (make_writer_bits size)) as [[-> ?]|(w1 & -> & H1)]; [by left|].
  cbn [rbind]. destruct (flush_cases size w1 _ H1) as [[-> ?]|(w2 & -> & H2 & _ & H3 & H4)]; [by left|right].
  by exists w2.
Qed.

(** * Properties *)

(** A sequence of writes and the same sequence of reads. *)
Fixpoint write_all (items : list (nat * Z)) (w : BitWriter) : result BitWriter :=
  match items with
  | [] => flush w
  | (n, v) :: items => let! w := writeBits (Z.of_nat n) v w in write_all items w
  end.

Fixpoint read_all (widths : list nat) (r : BitReader) : result (list Z * BitReader) :=
  match widths with
  | [] => Ok ([], r)
  | n :: widths =>
      let! (v, r) := readBits (Z.of_nat n) r in
      let! (vs, r) := read_all widths r in Ok (v :: vs, r)
  end.

Fixpoint item_bits (items : list (nat * Z)) : list bool :=
  match items with
  | [] => []
  | (n, v) :: items => to_bits n v ++ item_bits items
  end.

Lemma write_all_stream items :
  Forall (fun it => 0 < it.1 <= 64)%nat items ->
  exists f, writes f (item_bits items) /\
    forall w, write_all items w = (let! w := f w in flush w).
Proof.
  induction 1 as [|[n v] items Hn Hns (f & Hf & E)]; simpl in *.
  - exists Ok. split; [apply writes_nil|done].
  - exists (fun w => let! w := writeBits (Z.of_nat n) v w in f w). split.
    + apply writes_bind; [by apply writes_bits|done].
    + intros w. destruct (writeBits (Z.of_nat n) v w); simpl; [apply E|done].
Qed.

Lemma read_all_spec items r s :
  reader_bits r (item_bits items ++ s) -> Forall (fun it => 0 < it.1 <= 64)%nat items ->
  exists r', read_all items.*1 r = Ok ((fun it => it.2 mod 2 ^ Z.of_nat it.1) <$> items, r') /\ reader_bits r' s.
Proof.
  revert r. induction items as [|[n v] items IH]; intros r Hr Hn; [by exists r|].
  apply Forall_cons in Hn as [Hn Hns]. simpl in Hn, Hr. rewrite <- app_assoc in Hr.
  rewrite !fmap_cons. cbn [read_all fst snd].
  destruct (readBits_value r n v _ Hr) as (r' & -> & Hr'); [lia|]. cbn [rbind].
  destruct (IH r' Hr' Hns) as (r'' & -> & Hr''). cbn [rbind]. by exists r''.
Qed.

(** Values of up to 64 bits written one after the other and flushed are
    read back by a reader that asks for the same widths; the writer never
    leaves its destination and uses the least whole number of bytes. *)
Theorem bit_stream_roundtrip (items : list (nat * Z)) (size : Z) :
  Forall (fun it => 0 < it.1 <= 64)%nat items ->
  Z.of_nat (length (item_bits items)) <= 8 * size ->
  exists w, write_all items (make_writer size) = Ok w /\
    Z.of_nat (length (written w)) = (Z.of_nat (length (item_bits items)) + 7) / 8 /\
    exists r, read_all items.*1 (make_reader (written w)) =
      Ok ((fun it => it.2 mod 2 ^ Z.of_nat it.1) <$> items, r).
Proof.
  intros Hn Hs. destruct (write_all_stream items Hn) as (f & Hf & Ef).
  destruct (writes_stream f _ size Hf) as [[_ ?]|(w & Hw & Hb & Hl & pad & E)]; [lia|].
  exists w. split_and!; [by rewrite Ef|done|]. pose proof (make_reader_bits _ Hb) as Hr. rewrite E in Hr.
  destruct (read_all_spec items _ _ Hr Hn) as (r & Hread & _). by exists r.
Qed.

Lemma bit_stream_roundtrip_witness :
  exists w, write_all [(3%nat, 5); (64%nat, -1); (63%nat, 12345678901234567890); (1%nat, 1)] (make_writer 17) = Ok w /\
    Z.of_nat (length (written w)) = 17 /\
    exists r, read_all [3; 64; 63; 1]%nat (make_reader (written w)) =
      Ok ([5; 18446744073709551615; 3122306864379792082; 1], r).
Proof.
  destruct (bit_stream_roundtrip [(3%nat, 5); (64%nat, -1); (63%nat, 12345678901234567890); (1%nat, 1)] 17)
    as (w & H1 & H2 & r & H3).
  - repeat constructor; simpl; lia.
  - vm_compute. discriminate.
  - exists w. split; [exact H1|]. split; [exact H2|]. exists r. exact H3.
Defined.

(** Filling and reading return on every state. *)
Lemma fillBitBuffer_total r : exists r', fillBitBuffer r = Ok r'.
Proof.
  unfold fillBitBuffer. destruct (Z.eqb_spec (Z.of_nat (length (source r))) 0) as [E|E]; [rewrite E; simpl|]; eauto.
Qed.

Lemma readBits_total n r : exists v r', readBits n r = Ok (v, r').
Proof.
  unfold readBits. destruct (bits_count r <? n); [|simpl; eauto].
  destruct (fillBitBuffer_total r) as [r' ->]. simpl. eauto.
Qed.

Lemma readBit_total r : exists v r', readBit r = Ok (v, r').
Proof. unfold readBit. destruct (readBits_total 1 r) as (v & r' & ->). simpl. eauto. Qed.

Lemma peekByte_total r : exists v r', peekByte r = Ok (v, r').
Proof.
  unfold peekByte. destruct (bits_count r <? 8); [|simpl; eauto].
  destruct (fillBitBuffer_total r) as [r' ->]. simpl. eauto.
Qed.

(** reading never fails, not even after the last bit: the exception of
    [fillBitBuffer] cannot occur.  A reader without data returns zeroes, its
    bit counter wraps around, and it no longer reports the end of file. *)
Theorem readBits_past_end :
  (forall n r, exists v r', readBits n r = Ok (v, r')) /\
  (forall n, 0 < n <= 64 -> exists r', readBits n (make_reader []) = Ok (0, r') /\
     bits_count r' = 256 - n /\ reader_eof r' = false).
Proof.
  split; [exact readBits_total|].
  intros n Hn. unfold readBits. simpl. destruct (Z.ltb_spec 0 n); [|lia]. cbn [rbind].
    unfold getBitsFromBitBuffer, peekBits. simpl. rewrite Z.shiftr_0_l. eexists. split; [reflexivity|].
    assert (E : uwrap 8 (0 - n) = 256 - n).
    { unfold uwrap. symmetry. apply (Z.mod_unique _ _ (-1)); lia. }
    unfold skipBufferedBits, reader_eof. cbn [bits_count source]. simpl (bits_count _). rewrite E.
    split; [done|]. destruct (Z.eqb_spec (256 - n) 0); [lia|done].
Qed.
