(* ===== verification/Codec.v ===== *)
(** Compression codecs (src/Compression/ICompressionCodec.{h,cpp}): the interface,
    the frame around compressed data, the codec NONE, and the codec Multiple
    that chains codecs; with what a codec promises to its clients. *)
From S2P Require Import Prelude IntText BinaryIO.
Import Binary.

(** * Interface *)

(** [TypeIndex] of src/Core/TypeId.h *)
Module TypeIndex.
Inductive t :=
  Nothing | UInt8 | UInt16 | UInt32 | UInt64 | UInt128 | UInt256 | Int8 | Int16 | Int32 | Int64 | Int128 | Int256
| BFloat16 | Float32 | Float64 | Date | Date32 | DateTime | DateTime64 | String | FixedString | Enum8 | Enum16
| Decimal32 | Decimal64 | Decimal128 | Decimal256 | UUID | Array | Tuple | Set_ | Interval | Nullable | Function
| AggregateFunction | LowCardinality | Map | ObjectDeprecated | Object | IPv4 | IPv6 | JSONPaths | Variant | Dynamic.
End TypeIndex.

(** [WhichDataType::isFloat] *)
Definition isFloat (idx : TypeIndex.t) : bool :=
  match idx with TypeIndex.Float32 | TypeIndex.Float64 | TypeIndex.BFloat16 => true | _ => false end.

(** What the codecs ask of the type of a column ([IDataType]). *)
Record IDataType := {
  getTypeId : TypeIndex.t;
  isValueUnambiguouslyRepresentedInFixedSizeContiguousMemoryRegion : bool;
  getSizeOfValueInMemory : Z }.

(** The arguments of a codec in a declaration, by what the codecs test of them. *)
Inductive CodecArgument :=
| UInt64Literal (value : Z)
| Int64Literal (value : Z)
| BoolLiteral (value : bool)
| StringLiteral (value : string)
| OtherLiteral
| NotLiteral.

(** [Field::safeGet<UInt64>] of the value of a literal. *)
Definition safeGet_UInt64 (argument : CodecArgument) : result Z :=
  match argument with
  | UInt64Literal value => Ok value
  | Int64Literal value => Ok (uwrap 64 value)
  | BoolLiteral value => Ok (Z.b2z value)
  | _ => Throw BAD_GET
  end.

(** The syntax trees of codecs. *)
Inductive CodecAST :=
| ASTIdentifier (name : string)
| ASTFunction (name : string) (arguments : list CodecArgument)
| ASTExpressionList (children : list CodecAST)
| OtherAST.

(** [setCodecDescription] for a codec with a name: the arguments of
    [full_codec_desc]. *)
Definition setCodecDescription (codec_name : string) (arguments : list CodecArgument) : list CodecAST :=
  match arguments with
  | [] => [ASTIdentifier codec_name]
  | _ => [ASTFunction codec_name arguments]
  end.

(** What kind of codec it is. *)
Record CodecTraits := {
  isCompression : bool;
  isGenericCompression : bool;
  isEncryption : bool;
  isFloatingPointTimeSeriesCodec : bool;
  isDeltaCompression : bool;
  isExperimental : bool;
  isDeflateQpl : bool;
  isZstdQat : bool;
  isNone : bool }.

(** The defaults of [ICompressionCodec] for a codec that is not generic. *)
Definition transformation : CodecTraits := {|
  isCompression := false; isGenericCompression := false; isEncryption := false;
  isFloatingPointTimeSeriesCodec := false; isDeltaCompression := false; isExperimental := false;
  isDeflateQpl := false; isZstdQat := false; isNone := false |}.

Definition compressing (t : CodecTraits) : CodecTraits := {|
  isCompression := true; isGenericCompression := isGenericCompression t; isEncryption := isEncryption t;
  isFloatingPointTimeSeriesCodec := isFloatingPointTimeSeriesCodec t; isDeltaCompression := isDeltaCompression t;
  isExperimental := isExperimental t; isDeflateQpl := isDeflateQpl t; isZstdQat := isZstdQat t; isNone := isNone t |}.

Definition delta_like (t : CodecTraits) : CodecTraits := {|
  isCompression := isCompression t; isGenericCompression := isGenericCompression t; isEncryption := isEncryption t;
  isFloatingPointTimeSeriesCodec := isFloatingPointTimeSeriesCodec t; isDeltaCompression := true;
  isExperimental := isExperimental t; isDeflateQpl := isDeflateQpl t; isZstdQat := isZstdQat t; isNone := isNone t |}.

Definition float_series (t : CodecTraits) : CodecTraits := {|
  isCompression := isCompression t; isGenericCompression := isGenericCompression t; isEncryption := isEncryption t;
  isFloatingPointTimeSeriesCodec := true; isDeltaCompression := isDeltaCompression t;
  isExperimental := isExperimental t; isDeflateQpl := isDeflateQpl t; isZstdQat := isZstdQat t; isNone := isNone t |}.

(** [ICompressionCodec]: the virtual functions.  [doCompressData] returns the
    bytes it writes; [doDecompressData] gets the destination, which has the
    size of the decompressed data, and returns it as it leaves it. *)
Record ICompressionCodec := {
  getMethodByte : Z;
  doCompressData : bytes -> result bytes;
  doDecompressData : bytes -> bytes -> result bytes;
  getMaxCompressedDataSize : Z -> Z;
  getAdditionalSizeAtTheEndOfBuffer : Z;
  decompression_error_code : ErrorCode;
  full_codec_desc : list CodecAST;
  traits : CodecTraits }.

(** [getCodecDesc] *)
Definition getCodecDesc (c : ICompressionCodec) : CodecAST :=
  match full_codec_desc c with
  | [codec_desc] => codec_desc
  | children => ASTExpressionList children
  end.

Abbreviation size_of bs := (Z.of_nat (length bs)).

(** Writing the bytes [out] at the start of the memory [dest]. *)
Definition put (dest out : bytes) : result bytes :=
  if (length dest <? length out)%nat then Throw OUT_OF_BOUNDS_ACCESS
  else Ok (out ++ drop (length out) dest).

(** Reading [n] bytes at the position [pos]. *)
Definition slice (pos n : nat) (src : bytes) : result bytes :=
  if (length src <? pos + n)%nat then Throw OUT_OF_BOUNDS_ACCESS else Ok (take n (drop pos src)).

(** [CompressionMethodByte] *)
Inductive CompressionMethodByte :=
  NONE | LZ4 | ZSTD | Multiple | Delta | T64 | DoubleDelta | Gorilla | AES_128_GCM_SIV | AES_256_GCM_SIV
| FPC | DeflateQpl | GCD | ZSTD_QPL.

Definition method_byte (m : CompressionMethodByte) : Z :=
  match m with
  | NONE => 0x02 | LZ4 => 0x82 | ZSTD => 0x90 | Multiple => 0x91 | Delta => 0x92 | T64 => 0x93
  | DoubleDelta => 0x94 | Gorilla => 0x95 | AES_128_GCM_SIV => 0x96 | AES_256_GCM_SIV => 0x97
  | FPC => 0x98 | DeflateQpl => 0x99 | GCD => 0x9a | ZSTD_QPL => 0x9b
  end.

(** * The frame *)

Definition COMPRESSED_BLOCK_HEADER_SIZE : nat := 9.

Definition getCompressedReserveSize (c : ICompressionCodec) (uncompressed_size : Z) : Z :=
  uwrap 32 (Z.of_nat COMPRESSED_BLOCK_HEADER_SIZE + getMaxCompressedDataSize c uncompressed_size).

Definition compress (c : ICompressionCodec) (source : bytes) : result bytes :=
  let! data := doCompressData c source in
  Ok (getMethodByte c
      :: le_bytes 4 (uwrap 32 (size_of data + Z.of_nat COMPRESSED_BLOCK_HEADER_SIZE))
      ++ le_bytes 4 (uwrap 32 (size_of source)) ++ data).

Definition readCompressedBlockSize (c : ICompressionCodec) (source : bytes) : result Z :=
  let! bs := slice 1 4 source in
  let compressed_block_size := le_value bs in
  if compressed_block_size =? 0 then Throw (decompression_error_code c) else Ok compressed_block_size.

Definition readDecompressedBlockSize (error_code : ErrorCode) (source : bytes) : result Z :=
  let! bs := slice 5 4 source in
  let decompressed_block_size := le_value bs in
  if decompressed_block_size =? 0 then Throw error_code else Ok decompressed_block_size.

Definition readMethod (source : bytes) : result Z :=
  let! bs := slice 0 1 source in Ok (le_value bs).

(** [decompress]; the caller has to allocate a destination of the size the
    frame announces, which may be larger. *)
Definition decompress (c : ICompressionCodec) (source dest : bytes) : result bytes :=
  if (length source <? COMPRESSED_BLOCK_HEADER_SIZE)%nat then Throw (decompression_error_code c)
  else
    let! method := readMethod source in
    if negb (method =? getMethodByte c) then Throw (decompression_error_code c)
    else
      let! decompressed_size := readDecompressedBlockSize (decompression_error_code c) source in
      if size_of dest <? decompressed_size then Throw OUT_OF_BOUNDS_ACCESS
      else
        let! out := doDecompressData c (drop COMPRESSED_BLOCK_HEADER_SIZE source)
          (take (Z.to_nat decompressed_size) dest) in
        Ok (out ++ drop (Z.to_nat decompressed_size) dest).

(** * What a codec promises *)

Definition GiB : Z := 2 ^ 30.

(** The codec [dec], created from the method byte alone, undoes what [enc]
    does with data of at least [min_size] bytes and less than 1 GiB, the limit of
    the readers of blocks, whatever the destination holds before. *)
Class LosslessCodec (enc dec : ICompressionCodec) (min_size : Z) : Prop := {
  lossless_method : getMethodByte enc = getMethodByte dec;
  lossless_method_range : 0 <= getMethodByte enc < 256;
  lossless_bytes source data :
    is_bytes source -> 0 < size_of source < GiB -> doCompressData enc source = Ok data -> is_bytes data;
  lossless_roundtrip source data dest :
    is_bytes source -> min_size <= size_of source -> 0 < size_of source < GiB ->
    doCompressData enc source = Ok data -> length dest = length source ->
    doDecompressData dec data dest = Ok source }.

Lemma below_GiB n : n < GiB -> n < 2 ^ 32.
Proof. unfold GiB. lia. Qed.

Lemma lossless_weaken enc dec m m' : m <= m' -> LosslessCodec enc dec m -> LosslessCodec enc dec m'.
Proof.
  intros Hm [H1 H2 H3 H4]. split; [done|done|done|]. intros source data dest Hb Hmin. apply H4; [done|lia].
Qed.

(** The outcome stays within the memory it was given: no access outside of it,
    and a destination of the same size. *)
Definition memory_safe (dest : bytes) (r : result bytes) : Prop :=
  match r with Ok out => length out = length dest | Throw e => e <> OUT_OF_BOUNDS_ACCESS end.

(** Decompression of arbitrary, possibly corrupted, data is memory safe. *)
Class SafeDecoder (dec : ICompressionCodec) : Prop :=
  safe_decompress source dest :
    is_bytes source -> size_of source < 2 ^ 32 -> size_of dest < 2 ^ 32 ->
    memory_safe dest (doDecompressData dec source dest).

(** Compression of data up to [limit] bytes does not fail, and stays within the size
    the codec announces, which grows with the data and fits the readers. *)
Class FitsReserve (c : ICompressionCodec) (limit : Z) : Prop := {
  fits_method : 0 <= getMethodByte c < 256;
  fits_data source : is_bytes source -> 0 < size_of source <= limit -> exists data,
    doCompressData c source = Ok data /\ is_bytes data /\ size_of data <= getMaxCompressedDataSize c (size_of source);
  fits_size n m : 0 < n <= m -> m <= limit ->
    0 <= getMaxCompressedDataSize c n <= getMaxCompressedDataSize c m /\ getMaxCompressedDataSize c m <= GiB - 9 }.

(** * NONE *)

Definition CompressionCodecNone : ICompressionCodec := {|
  getMethodByte := method_byte NONE;
  doCompressData source := Ok source;
  doDecompressData source dest :=
    if negb (size_of source =? size_of dest) then Throw CORRUPTED_DATA
    else put dest (take (length dest) source);
  getMaxCompressedDataSize size := size;
  getAdditionalSizeAtTheEndOfBuffer := 0;
  decompression_error_code := CORRUPTED_DATA;
  full_codec_desc := setCodecDescription "NONE" [];
  traits := {| isCompression := false; isGenericCompression := false; isEncryption := false;
    isFloatingPointTimeSeriesCodec := false; isDeltaCompression := false; isExperimental := false;
    isDeflateQpl := false; isZstdQat := false; isNone := true |} |}.

(** * Multiple *)

Section Multiple.
(** The factory: the codec registered for a method byte. *)
Variable factory : Z -> result ICompressionCodec.
(** The contents of memory that was not written yet. *)
Variable fresh : nat -> bytes.

(** The loop of [doCompressData]; the result of each step has to fit into the buffer of
    the size that the codec asks for. *)
Fixpoint compress_chain (codecs : list ICompressionCodec) (uncompressed_buf : bytes) : result bytes :=
  match codecs with
  | [] => Ok uncompressed_buf
  | codec :: codecs =>
      let! compressed_buf := compress codec uncompressed_buf in
      if getCompressedReserveSize codec (size_of uncompressed_buf) <? size_of compressed_buf then Throw OUT_OF_BOUNDS_ACCESS
      else compress_chain codecs compressed_buf
  end.

Definition multiple_doCompressData (codecs : list ICompressionCodec) (source : bytes) : result bytes :=
  let! data := compress_chain codecs source in
  Ok (uwrap 8 (size_of codecs) :: map getMethodByte codecs ++ data).

(** [PODArray::resize] *)
Definition resize (buf : bytes) (n : nat) : bytes := take n (buf ++ fresh (n - length buf)).

(** The loop of [doDecompressData], over the method bytes from the last one
    ([idx = length methods]); [source_size] bytes of [compressed_buf] are data. *)
Fixpoint decompress_chain (methods : list Z) (decompressed_size source_size : Z)
    (compressed_buf uncompressed_buf : bytes) : result bytes :=
  match methods with
  | [] => Ok compressed_buf
  | compression_method :: methods =>
      let! codec := factory compression_method in
      let additional := getAdditionalSizeAtTheEndOfBuffer codec in
      if GiB <=? size_of compressed_buf then Throw CORRUPTED_DATA
      else if 2 ^ 32 <=? size_of compressed_buf + additional then Throw CORRUPTED_DATA
      else
        let compressed_buf := resize compressed_buf (Z.to_nat (size_of compressed_buf + additional)) in
        let! uncompressed_size := readDecompressedBlockSize CORRUPTED_DATA compressed_buf in
        if GiB <=? uncompressed_size then Throw CORRUPTED_DATA
        else if (length methods =? 0)%nat && negb (uncompressed_size =? decompressed_size)
        then Throw CORRUPTED_DATA
        else if 2 ^ 32 <=? uncompressed_size + additional then Throw CORRUPTED_DATA
        else
          let uncompressed_buf := resize uncompressed_buf (Z.to_nat (uncompressed_size + additional)) in
          let! uncompressed_buf :=
            decompress codec (take (Z.to_nat source_size) compressed_buf) uncompressed_buf in
          decompress_chain methods decompressed_size uncompressed_size uncompressed_buf compressed_buf
  end.

(** [doDecompressData].  A list of methods longer than the data gives a
    negative size, which the allocator refuses. *)
Definition multiple_doDecompressData (source dest : bytes) : result bytes :=
  match source with
  | [] => Throw CORRUPTED_DATA
  | compression_methods_size :: rest =>
      if compression_methods_size =? 0 then Throw CORRUPTED_DATA
      else
        let n := Z.to_nat compression_methods_size in
        if (length rest <? n)%nat then Throw LOGICAL_ERROR
        else
          let compressed_buf := drop n rest in
          let! compressed_buf :=
            decompress_chain (rev (take n rest)) (size_of dest) (size_of compressed_buf) compressed_buf [] in
          put dest (take (length dest) compressed_buf)
  end.

(** [getMaxCompressedDataSize] *)
Definition multiple_getMaxCompressedDataSize (codecs : list ICompressionCodec) (uncompressed_size : Z) : Z :=
  uwrap 32 (1 + size_of codecs +
    foldl (fun compressed_size codec => getCompressedReserveSize codec compressed_size) uncompressed_size codecs).

Definition CompressionCodecMultiple (codecs : list ICompressionCodec) : ICompressionCodec := {|
  getMethodByte := method_byte Multiple;
  doCompressData := multiple_doCompressData codecs;
  doDecompressData := multiple_doDecompressData;
  getMaxCompressedDataSize := multiple_getMaxCompressedDataSize codecs;
  getAdditionalSizeAtTheEndOfBuffer := 0;
  decompression_error_code := CORRUPTED_DATA;
  full_codec_desc := map getCodecDesc codecs;
  traits := {| isCompression := existsb (fun codec => isCompression (traits codec)) codecs;
    isGenericCompression := false; isEncryption := false; isFloatingPointTimeSeriesCodec := false;
    isDeltaCompression := false; isExperimental := false; isDeflateQpl := false; isZstdQat := false;
    isNone := false |} |}.

(** [getCodecsBytesFromData] *)
Definition getCodecsBytesFromData (source : bytes) : result (list Z) :=
  let! size := slice 0 1 source in slice 1 (Z.to_nat (le_value size)) source.

End Multiple.

(** * Frames *)

Lemma put_full dest out : length out = length dest -> put dest out = Ok out.
Proof. intros E. unfold put. rewrite E, Nat.ltb_irrefl, drop_ge, app_nil_r by lia. done. Qed.

Lemma slice_app a b c n m : length a = n -> length b = m -> slice n m (a ++ b ++ c) = Ok b.
Proof.
  intros <- <-. unfold slice. simpl_len.
  destruct (Nat.ltb_spec (length a + (length b + length c)) (length a + length b)); [lia|].
  by rewrite drop_app_length, take_app_length.
Qed.

Lemma put_safe dest out : (length out <= length dest)%nat -> memory_safe dest (put dest out).
Proof.
  intros H. unfold put. destruct (Nat.ltb_spec (length dest) (length out)); [lia|]. simpl. simpl_len. lia.
Qed.

Lemma slice_inside pos n src : (pos + n <= length src)%nat -> slice pos n src = Ok (take n (drop pos src)).
Proof. intros H. unfold slice. destruct (Nat.ltb_spec (length src) (pos + n)); [lia|done]. Qed.

Lemma memory_safe_bind {A} dest (r : result A) k :
  r <> Throw OUT_OF_BOUNDS_ACCESS -> (forall a, r = Ok a -> memory_safe dest (k a)) -> memory_safe dest (rbind r k).
Proof. intros H1 H2. destruct r as [a|e]; simpl; [by apply H2|congruence]. Qed.

Lemma compress_Ok c source f :
  compress c source = Ok f <-> exists data, doCompressData c source = Ok data /\
    f = [getMethodByte c] ++ le_bytes 4 (uwrap 32 (size_of data + 9))
        ++ le_bytes 4 (uwrap 32 (size_of source)) ++ data.
Proof.
  unfold compress. rewrite rbind_Ok. split; intros (data & H1 & H2); exists data; (split; [done|]); by inversion H2.
Qed.

Lemma frame_length c source f :
  compress c source = Ok f -> exists data, doCompressData c source = Ok data /\ (length f = 9 + length data)%nat.
Proof.
  intros (data & Hd & ->)%compress_Ok. exists data. split; [done|]. simpl_len. rewrite !length_le_bytes. lia.
Qed.

Lemma frame_decompressed_size enc source f junk e :
  0 < size_of source < 2 ^ 32 -> compress enc source = Ok f ->
  readDecompressedBlockSize e (f ++ junk) = Ok (size_of source).
Proof.
  intros Hs (data & Hd & ->)%compress_Ok. unfold readDecompressedBlockSize.
  rewrite <- !app_assoc, (app_assoc [_]). rewrite slice_app; [|simpl_len; by rewrite length_le_bytes|apply length_le_bytes].
  cbn [rbind]. rewrite uwrap_small by (unfold in_unsigned; lia). rewrite le_value_bytes by lia.
  destruct (Z.eqb_spec (size_of source) 0); [lia|done].
Qed.

(** A frame decompresses to what the codec decompresses its data to. *)
Lemma decompress_frame enc dec source f data dest :
  getMethodByte enc = getMethodByte dec -> 0 < size_of source < 2 ^ 32 ->
  compress enc source = Ok f -> doCompressData enc source = Ok data ->
  (forall dest', length dest' = length source -> doDecompressData dec data dest' = Ok source) ->
  (length source <= length dest)%nat ->
  decompress dec f dest = Ok (source ++ drop (length source) dest).
Proof.
  intros Hmethod Hs Hf Hdata Hback Hd.
  pose proof (frame_decompressed_size enc source f [] (decompression_error_code dec) Hs Hf) as Hsize.
  rewrite app_nil_r in Hsize. unfold decompress. rewrite Hsize.
  apply compress_Ok in Hf as (data' & Hdata' & Ef). assert (data' = data) as -> by congruence.
  destruct (Nat.ltb_spec (length f) COMPRESSED_BLOCK_HEADER_SIZE) as [Hlt|_].
  { rewrite Ef in Hlt. unfold COMPRESSED_BLOCK_HEADER_SIZE in Hlt. simpl_len. rewrite !length_le_bytes in Hlt. lia. }
  assert (Hm : readMethod f = Ok (getMethodByte dec)).
  { unfold readMethod. rewrite Ef.
    rewrite (slice_app [] [_] _ 0 1 eq_refl eq_refl : slice 0 1 ([_] ++ _) = _). cbn [rbind le_value].
    rewrite Hmethod. f_equal. lia. }
  rewrite Hm. cbn [rbind]. rewrite Z.eqb_refl. cbn [negb].
  destruct (Z.ltb_spec (size_of dest) (size_of source)); [lia|].
  assert (Hdrop : drop COMPRESSED_BLOCK_HEADER_SIZE f = data).
  { rewrite Ef, !app_assoc. apply drop_app_length'. simpl_len. by rewrite !length_le_bytes. }
  rewrite Hdrop, Nat2Z.id, Hback; [done|simpl_len; lia].
Qed.

Section Frame.
Context (enc dec : ICompressionCodec) (min_size : Z) `{!LosslessCodec enc dec min_size}.

Lemma frame_bytes source f :
  is_bytes source -> 0 < size_of source < GiB -> compress enc source = Ok f -> is_bytes f.
Proof.
  intros Hs Hl (data & Hd & ->)%compress_Ok. rewrite !is_bytes_app. split_and!.
  - constructor; [apply lossless_method_range|constructor].
  - apply le_bytes_range.
  - apply le_bytes_range.
  - by eapply lossless_bytes.
Qed.

Lemma decompress_compress source f dest :
  is_bytes source -> min_size <= size_of source -> 0 < size_of source < GiB -> compress enc source = Ok f ->
  (length source <= length dest)%nat ->
  decompress dec f dest = Ok (source ++ drop (length source) dest).
Proof.
  intros Hb Hmin Hs Hf Hd. pose proof Hf as (data & Hdata & _)%compress_Ok.
  apply (decompress_frame enc dec source f data dest); try done; [apply lossless_method|unfold GiB in *; lia|].
  intros dest' Hd'. by apply (lossless_roundtrip source data).
Qed.

End Frame.

#[export] Instance lossless_None : LosslessCodec CompressionCodecNone CompressionCodecNone 1.
Proof.
  split; simpl; [done|lia|by intros ? ? ? ? [= <-]|].
  intros source data dest _ _ _ [= <-] Hl. rewrite Hl, Z.eqb_refl. simpl.
  rewrite firstn_all. by apply put_full.
Qed.

#[export] Instance safe_None : SafeDecoder CompressionCodecNone.
Proof.
  intros source dest _ _ _. simpl. destruct (Z.eqb_spec (size_of source) (size_of dest)); simpl; [|done].
  apply put_safe. simpl_len. lia.
Qed.

(** The size reserved for a frame, computed in 32 bits. *)
Lemma reserve_size c limit n : FitsReserve c limit -> 0 < n <= limit ->
  getCompressedReserveSize c n = 9 + getMaxCompressedDataSize c n /\ 9 <= getCompressedReserveSize c n <= GiB.
Proof.
  intros Hc Hn. destruct (fits_size n n) as [Hs Hm]; [lia|lia|].
  unfold getCompressedReserveSize, COMPRESSED_BLOCK_HEADER_SIZE, GiB in *. rewrite uwrap_small by (unfold in_unsigned; lia). lia.
Qed.

Lemma fits_reserve c limit source : FitsReserve c limit -> is_bytes source -> 0 < size_of source <= limit -> exists data,
  doCompressData c source = Ok data /\ is_bytes data /\ size_of data + 9 <= getCompressedReserveSize c (size_of source) <= GiB.
Proof.
  intros Hc Hb Hs. destruct (fits_data source Hb Hs) as (data & Hd & Hdb & Hl).
  destruct (reserve_size c limit _ Hc Hs) as [E Hm]. exists data. split; [done|]. split; [done|]. lia.
Qed.

#[export] Instance fits_None limit : limit <= GiB - 9 -> FitsReserve CompressionCodecNone limit.
Proof. intros Hl. split; simpl; [lia| |lia]. intros source Hb Hs. by exists source. Qed.

(** The frame adds no unsafe access, for a destination as large as announced. *)
Lemma decompress_safe dec source dest :
  SafeDecoder dec -> is_bytes source -> size_of source < 2 ^ 32 -> size_of dest < 2 ^ 32 ->
  decompression_error_code dec <> OUT_OF_BOUNDS_ACCESS ->
  (forall n, readDecompressedBlockSize (decompression_error_code dec) source = Ok n -> n <= size_of dest) ->
  memory_safe dest (decompress dec source dest).
Proof.
  intros Hsafe Hb Hs Hd He Hdest. unfold decompress.
  destruct (Nat.ltb_spec (length source) COMPRESSED_BLOCK_HEADER_SIZE) as [|Hlen]; [done|].
  unfold COMPRESSED_BLOCK_HEADER_SIZE in Hlen. unfold readMethod. rewrite slice_inside by lia. cbn [rbind].
  destruct (negb _); [done|]. unfold readDecompressedBlockSize in *. rewrite slice_inside in * by lia. cbn [rbind] in *.
  set (n := le_value _) in *. destruct (Z.eqb_spec n 0); [done|]. cbn [rbind].
  specialize (Hdest n eq_refl). destruct (Z.ltb_spec (size_of dest) n); [lia|].
  pose proof (Hsafe (drop COMPRESSED_BLOCK_HEADER_SIZE source) (take (Z.to_nat n) dest)) as Hsd.
  destruct (doDecompressData dec _ _) as [out|e]; simpl in *.
  - simpl_len. rewrite Hsd; [lia|auto with bytesdb|lia|lia].
  - apply Hsd; [auto with bytesdb|simpl_len; lia|simpl_len; lia].
Qed.

(** * Chains of codecs *)

(** Every intermediate result stays below the limit of 1 GiB, with room for the
    additional bytes of a buffer. *)
Definition ADDITIONAL_LIMIT : Z := 2 ^ 16.

Fixpoint chain_fits (codecs : list ICompressionCodec) (buf : bytes) : bool :=
  (size_of buf + ADDITIONAL_LIMIT <? GiB) &&
  match codecs with
  | [] => true
  | codec :: codecs =>
      match compress codec buf with Ok buf => chain_fits codecs buf | Throw _ => false end
  end.

Section Chain.
Context (factory : Z -> result ICompressionCodec) (fresh : nat -> bytes).
Hypothesis fresh_length : forall n, length (fresh n) = n.
Context (min_size : Z) (Hmin9 : min_size <= 9).

(** The factory has, for the codec's method byte, a codec that undoes it. *)
Definition registered (enc : ICompressionCodec) : Prop :=
  exists dec, factory (getMethodByte enc) = Ok dec /\ LosslessCodec enc dec min_size /\
    0 <= getAdditionalSizeAtTheEndOfBuffer dec <= ADDITIONAL_LIMIT.

Lemma resize_length buf n : length (resize fresh buf n) = n.
Proof. unfold resize. simpl_len. rewrite fresh_length. lia. Qed.

Lemma resize_grow buf n k : n = (length buf + k)%nat -> resize fresh buf n = buf ++ fresh k.
Proof.
  intros ->. unfold resize. replace (length buf + k - length buf)%nat with k by lia.
  apply take_ge. simpl_len. rewrite fresh_length. lia.
Qed.

(** One iteration of the decompression loop undoes one codec. *)
Lemma decompress_chain_step enc methods dsize source f junk ubuf :
  registered enc -> is_bytes source -> min_size <= size_of source -> 0 < size_of source ->
  size_of source + ADDITIONAL_LIMIT < GiB ->
  compress enc source = Ok f -> size_of f + size_of junk < GiB ->
  (methods = [] -> dsize = size_of source) ->
  exists junk' ubuf', size_of junk' <= ADDITIONAL_LIMIT /\
    decompress_chain factory fresh (getMethodByte enc :: methods) dsize (size_of f) (f ++ junk) ubuf =
    decompress_chain factory fresh methods dsize (size_of source) (source ++ junk') ubuf'.
Proof.
  unfold ADDITIONAL_LIMIT. intros (dec & Hfac & Hless & Hadd) Hb Hmin Hs Hlim Hf Hj Hd. unfold ADDITIONAL_LIMIT, GiB in *.
  simpl. rewrite Hfac. cbn [rbind]. set (add := getAdditionalSizeAtTheEndOfBuffer dec) in *.
  unfold GiB. destruct (Z.leb_spec (2 ^ 30) (size_of (f ++ junk))); [simpl_len; lia|].
  destruct (Z.leb_spec (2 ^ 32) (size_of (f ++ junk) + add)); [simpl_len; lia|].
  rewrite (resize_grow (f ++ junk) _ (Z.to_nat add)) by lia. rewrite <- app_assoc.
  rewrite (frame_decompressed_size enc source) by (done || lia). cbn [rbind].
  destruct (Z.leb_spec (2 ^ 30) (size_of source)); [lia|].
  replace ((length methods =? 0)%nat && negb (size_of source =? dsize)) with false.
  2:{ destruct methods; [|done]. rewrite Hd by done. by rewrite Z.eqb_refl. }
  destruct (Z.leb_spec (2 ^ 32) (size_of source + add)); [lia|].
  rewrite Nat2Z.id, take_app_length.
  rewrite (decompress_compress enc dec min_size source) by (done || (rewrite ?resize_length; lia)). cbn [rbind].
  eexists _, _. split; [|reflexivity]. simpl_len. rewrite resize_length. lia.
Qed.

Lemma decompress_chain_all codecs source data methods dsize junk ubuf :
  Forall registered codecs -> is_bytes source -> min_size <= size_of source -> 0 < size_of source ->
  chain_fits codecs source = true -> compress_chain codecs source = Ok data ->
  size_of junk <= ADDITIONAL_LIMIT -> (methods = [] -> dsize = size_of source) ->
  exists junk' ubuf', size_of junk' <= ADDITIONAL_LIMIT /\
    decompress_chain factory fresh (rev (map getMethodByte codecs) ++ methods) dsize (size_of data) (data ++ junk) ubuf =
    decompress_chain factory fresh methods dsize (size_of source) (source ++ junk') ubuf'.
Proof.
  revert source methods dsize. induction codecs as [|enc codecs IH]; intros source methods dsize Hreg Hb Hmin Hs Hfit Hc Hj Hd.
  { injection Hc as <-. by exists junk, ubuf. }
  apply Forall_cons in Hreg as [Henc Hreg]. simpl in Hfit, Hc.
  apply andb_true_iff in Hfit as [Hlim Hfit]. apply Z.ltb_lt in Hlim.
  destruct (compress enc source) as [f|] eqn:Ef; [|done]. cbn [rbind] in Hc. destruct (_ <? size_of f) in Hc; [done|].
  destruct (frame_length _ _ _ Ef) as (d & _ & Hlen).
  assert (Hfb : is_bytes f) by (destruct Henc as (dec & _ & Hless & _); eapply (frame_bytes enc dec min_size); [done| |done]; unfold ADDITIONAL_LIMIT, GiB in *; lia).
  assert (Hflim : size_of f + ADDITIONAL_LIMIT < GiB).
  { destruct codecs; simpl in Hfit; apply andb_true_iff in Hfit as [H _]; by apply Z.ltb_lt in H. }
  simpl. rewrite <- app_assoc. simpl.
  destruct (IH f (getMethodByte enc :: methods) dsize Hreg Hfb) as (junk' & ubuf' & Hj' & ->); [lia|lia|done..|].
  destruct (decompress_chain_step enc methods dsize source f junk' ubuf') as (junk'' & ubuf'' & Hj'' & ->);
    [done|done|done|lia|done|done|unfold ADDITIONAL_LIMIT in *; lia|done|].
  by exists junk'', ubuf''.
Qed.

End Chain.

(** A chain of codecs decompresses to the data it compressed, whatever the memory
    held before, as long as the factory knows for every codec of the chain one
    that undoes it and no intermediate result reaches 1 GiB. *)
Lemma multiple_restores (factory : Z -> result ICompressionCodec) (fresh : nat -> bytes)
    (min_size : Z) (codecs : list ICompressionCodec) (source data dest : bytes) :
  (forall n, length (fresh n) = n) ->
  Forall (registered factory min_size) codecs -> 0 < size_of codecs < 256 -> min_size <= 9 ->
  is_bytes source -> min_size <= size_of source -> 0 < size_of source -> chain_fits codecs source = true ->
  multiple_doCompressData codecs source = Ok data -> length dest = length source ->
  multiple_doDecompressData factory fresh data dest = Ok source.
Proof.
  intros Hfresh Hreg Hn Hmin9 Hb Hmin Hs Hfit Hc Hd. unfold multiple_doCompressData in Hc.
  apply rbind_Ok in Hc as (chained & Hc & [= <-]). unfold multiple_doDecompressData.
  rewrite uwrap_small by (unfold in_unsigned; lia).
  destruct (Z.eqb_spec (size_of codecs) 0); [lia|]. rewrite Nat2Z.id.
  rewrite <- (length_map getMethodByte codecs), take_app_length, drop_app_length. simpl_len.
  destruct (Nat.ltb_spec (length codecs + length chained) (length codecs)); [lia|].
  destruct (decompress_chain_all factory fresh Hfresh min_size Hmin9 codecs source chained [] (size_of dest) [] [])
    as (junk & ubuf & _ & E); [done..|unfold ADDITIONAL_LIMIT; simpl; lia|intros _; by rewrite Hd|].
  rewrite app_nil_r, app_nil_r in E. rewrite E. cbn [rbind decompress_chain].
  rewrite Hd, take_app_length. by apply put_full.
Qed.

(** * Codecs for storing data *)

(** The codecs of a chain fit, each for the sizes that those before it may produce
    from [n] bytes. *)
Fixpoint chain_ok (codecs : list ICompressionCodec) (n : Z) : Prop :=
  n + ADDITIONAL_LIMIT < GiB /\
  match codecs with
  | [] => True
  | codec :: codecs => FitsReserve codec n /\ chain_ok codecs (getCompressedReserveSize codec n)
  end.

Abbreviation chain_reserve codecs n :=
  (foldl (fun compressed_size codec => getCompressedReserveSize codec compressed_size) n codecs).

Lemma chain_monotone codecs limit n m :
  chain_ok codecs limit -> 0 < n <= m -> m <= limit ->
  0 < chain_reserve codecs n <= chain_reserve codecs m /\ chain_reserve codecs m + ADDITIONAL_LIMIT < GiB.
Proof.
  revert limit n m. induction codecs as [|c codecs IH]; intros limit n m [Hl Hok] Hn Hm; simpl; [lia|]. destruct Hok as [Hc Hok].
  destruct (reserve_size c limit n Hc) as [En _]; [lia|]. destruct (reserve_size c limit m Hc) as [Em _]; [lia|].
  destruct (reserve_size c limit limit Hc) as [El _]; [lia|].
  pose proof (fits_size (FitsReserve := Hc) n m ltac:(lia) Hm). pose proof (fits_size (FitsReserve := Hc) m limit ltac:(lia) ltac:(lia)).
  apply (IH _ _ _ Hok); lia.
Qed.

(** Compression with the chain does not fail, and gives what decompression needs. *)
Lemma compress_chain_fits codecs limit source :
  chain_ok codecs limit -> is_bytes source -> 0 < size_of source <= limit ->
  exists out, compress_chain codecs source = Ok out /\ is_bytes out /\ size_of out <= chain_reserve codecs (size_of source) /\
    chain_fits codecs source = true.
Proof.
  revert limit source. induction codecs as [|c codecs IH]; intros limit source [Hl Hok] Hb Hs.
  { exists source. simpl. split_and!; try done. apply andb_true_iff. split; [|done]. apply Z.ltb_lt. lia. }
  destruct Hok as [Hc Hok]. destruct (fits_reserve c limit source Hc Hb Hs) as (data & Hd & Hdb & Hlen).
  cbn [compress_chain foldl]. unfold compress. cbn [chain_fits]. unfold compress. rewrite Hd. cbn [rbind]. set (f := getMethodByte c :: _).
  assert (Hf : is_bytes f).
  { apply Forall_cons_2; [apply (fits_method (FitsReserve := Hc))|]. rewrite !Forall_app. split_and!; [apply le_bytes_range..|done]. }
  assert (Hfl : size_of f = size_of data + 9) by (unfold f; simpl_len; rewrite !length_le_bytes; lia).
  destruct (reserve_size c limit (size_of source) Hc Hs) as [Es _]. destruct (reserve_size c limit limit Hc) as [El _]; [lia|].
  pose proof (fits_size (FitsReserve := Hc) (size_of source) limit ltac:(lia) ltac:(lia)).
  destruct (Z.ltb_spec (getCompressedReserveSize c (size_of source)) (size_of f)); [lia|].
  destruct (IH _ f Hok Hf) as (out & Ho & Hob & Hol & Hfit); [lia|]. exists out. split_and!; [done|done| |].
  - pose proof (chain_monotone codecs _ (size_of f) (getCompressedReserveSize c (size_of source)) Hok ltac:(lia) ltac:(lia)). lia.
  - apply andb_true_iff. split; [apply Z.ltb_lt; lia|done].
Qed.

#[export] Instance fits_Multiple factory fresh codecs limit :
  chain_ok codecs limit -> Forall (fun c => 0 <= getMethodByte c < 256) codecs -> size_of codecs < 256 ->
  FitsReserve (CompressionCodecMultiple factory fresh codecs) limit.
Proof.
  intros Hok Hm Hn. assert (Hmax : forall n, 0 < n <= limit -> multiple_getMaxCompressedDataSize codecs n =
    1 + size_of codecs + chain_reserve codecs n).
  { intros n Hl. destruct (chain_monotone codecs limit n n Hok) as [? ?]; [lia|lia|]. unfold ADDITIONAL_LIMIT, GiB in *.
    apply uwrap_small. unfold in_unsigned. lia. }
  split; simpl; [lia| |].
  - intros source Hb Hs. destruct (compress_chain_fits codecs limit source Hok Hb Hs) as (out & Ho & Hob & Hol & _).
    unfold multiple_doCompressData. rewrite Ho. cbn [rbind]. eexists. split; [done|]. rewrite Hmax by done. split.
    + apply Forall_cons_2; [apply (uwrap_range 8); lia|]. apply Forall_app. split; [|done]. by apply Forall_map.
    + simpl_len. lia.
  - intros n m Hl Hm'. destruct (chain_monotone codecs limit n m Hok Hl Hm') as [? ?]. unfold ADDITIONAL_LIMIT, GiB in *.
    rewrite !Hmax by lia. lia.
Qed.

(** Data of up to [limit] bytes compressed by [c] can be read back through the factory. *)
Record Storable (factory : Z -> result ICompressionCodec) (c dec : ICompressionCodec) (limit : Z) : Prop := {
  storable_fits :: FitsReserve c limit;
  storable_method : getMethodByte c = getMethodByte dec;
  storable_factory : factory (getMethodByte dec) = Ok dec;
  storable_restores source data dest : is_bytes source -> 0 < size_of source <= limit ->
    doCompressData c source = Ok data -> length dest = length source -> doDecompressData dec data dest = Ok source;
  storable_none source : isNone (traits dec) = true -> doCompressData c source = Ok source;
  storable_additional : 0 <= getAdditionalSizeAtTheEndOfBuffer dec }.

Lemma lossless_storable factory c dec limit :
  LosslessCodec c dec 1 -> FitsReserve c limit -> limit < GiB -> factory (getMethodByte c) = Ok dec ->
  isNone (traits dec) = false -> 0 <= getAdditionalSizeAtTheEndOfBuffer dec -> Storable factory c dec limit.
Proof.
  intros Hl Hf Hlim Hfac Hn Ha. pose proof (lossless_method (LosslessCodec := Hl)) as Hm. split; try done; [by rewrite <- Hm| |congruence].
  intros source data dest Hb Hs Hd Hlen. by apply (lossless_roundtrip source data dest); done || lia.
Qed.

Lemma none_storable factory limit :
  limit <= GiB - 9 -> factory (method_byte NONE) = Ok CompressionCodecNone ->
  Storable factory CompressionCodecNone CompressionCodecNone limit.
Proof.
  intros Hl Hf. split; try done; [by apply fits_None|]. intros source data dest Hb Hs Hd Hlen.
  apply (lossless_roundtrip (LosslessCodec := lossless_None) source data dest); done || (unfold GiB in *; lia).
Qed.

Lemma chain_storable factory nested fresh codecs limit :
  (forall n, length (fresh n) = n) -> chain_ok codecs limit -> Forall (registered nested 1) codecs -> 0 < size_of codecs < 256 ->
  factory (method_byte Multiple) = Ok (CompressionCodecMultiple nested fresh []) ->
  Storable factory (CompressionCodecMultiple nested fresh codecs) (CompressionCodecMultiple nested fresh []) limit.
Proof.
  intros Hfresh Hok Hreg Hn Hf. split; try done.
  - apply fits_Multiple; [done| |lia]. eapply Forall_impl; [exact Hreg|]. intros c (dec & _ & Hl & _).
    apply (lossless_method_range (LosslessCodec := Hl)).
  - intros source data dest Hb Hs Hc Hd. destruct (compress_chain_fits codecs limit source Hok Hb Hs) as (out & _ & _ & _ & Hfit).
    apply (multiple_restores nested fresh 1 codecs source data dest); done || lia.
Qed.

(** The contents of memory that was not written yet, all zeros. *)
Definition zero_memory (n : nat) : bytes := replicate n 0.

Definition none_factory (method : Z) : result ICompressionCodec :=
  if method =? method_byte NONE then Ok CompressionCodecNone else Throw UNKNOWN_CODEC.

(** The decompression of a chain reads the size of a block before it checks
    that the block holds a header: data that names a registered codec, and
    continues with less than a header, is read out of bounds. *)
Theorem multiple_short_block (factory : Z -> result ICompressionCodec) (fresh : nat -> bytes)
    (codec : ICompressionCodec) (method : Z) (rest dest : bytes) :
  factory method = Ok codec -> getAdditionalSizeAtTheEndOfBuffer codec = 0 ->
  (length rest < COMPRESSED_BLOCK_HEADER_SIZE)%nat ->
  multiple_doDecompressData factory fresh (1 :: method :: rest) dest = Throw OUT_OF_BOUNDS_ACCESS.
Proof.
  intros Hf Hadd Hl. unfold COMPRESSED_BLOCK_HEADER_SIZE in Hl. unfold multiple_doDecompressData.
  change (Z.to_nat 1) with 1%nat. cbn [Z.eqb length Nat.ltb Nat.leb drop take rev].
  rewrite take_0, drop_0. cbn [rev app decompress_chain].
  rewrite Hf. cbn [rbind]. rewrite Hadd. destruct (Z.leb_spec GiB (size_of rest)); [unfold GiB in *; lia|].
  destruct (Z.leb_spec (2 ^ 32) (size_of rest + 0)); [lia|].
  assert (E : resize fresh rest (Z.to_nat (size_of rest + 0)) = rest).
  { unfold resize. rewrite Z.add_0_r, Nat2Z.id. apply take_app_length. }
  rewrite E. unfold readDecompressedBlockSize, slice. by destruct (Nat.ltb_spec (length rest) (5 + 4)); [|lia].
Qed.

Lemma multiple_short_block_witness :
  multiple_doDecompressData none_factory zero_memory [1; 2; 2; 13] [0] = Throw OUT_OF_BOUNDS_ACCESS.
Proof.
  apply (multiple_short_block none_factory zero_memory CompressionCodecNone 2 [2; 13] [0]);
    [reflexivity|reflexivity|unfold COMPRESSED_BLOCK_HEADER_SIZE; simpl; lia].
Defined.
