(* ===== verification/Elements.v ===== *)
(** Arrays of fixed-width unsigned integers in memory (base/base/unaligned.h):
    the loads and stores of the column codecs. *)
From S2P Require Import Prelude IntText BinaryIO.
Import Binary.

(** [unalignedLoad] and [unalignedLoadLittleEndian] on a little-endian machine. *)
Definition unalignedLoad (w : nat) (address : bytes) : Z := le_value (take w address).

(** [unalignedStore] and [unalignedStoreLittleEndian]. *)
Definition unalignedStore (w : nat) (v : Z) : bytes := le_bytes w v.

(** The first [n] values of [w] bytes. *)
Fixpoint load_values (w n : nat) (src : bytes) : list Z :=
  match n with
  | O => []
  | S n => unalignedLoad w src :: load_values w n (drop w src)
  end.

Fixpoint store_values (w : nat) (vs : list Z) : bytes :=
  match vs with
  | [] => []
  | v :: vs => unalignedStore w v ++ store_values w vs
  end.

Definition bits (w : nat) : Z := 8 * Z.of_nat w.

(** Values of [w] bytes. *)
Definition is_values (w : nat) (vs : list Z) : Prop := Forall (in_unsigned (bits w)) vs.

Lemma length_load_values w n src : length (load_values w n src) = n.
Proof. revert src. induction n as [|n IH]; intros src; simpl; auto. Qed.

Lemma length_unalignedStore w v : length (unalignedStore w v) = w.
Proof. apply length_le_bytes. Qed.

Lemma length_store_values w vs : length (store_values w vs) = (w * length vs)%nat.
Proof.
  induction vs as [|v vs IH]; cbn [store_values length]; [lia|]. rewrite length_app, length_unalignedStore, IH. lia.
Qed.

#[export] Hint Rewrite length_load_values length_unalignedStore length_store_values : lens.

Lemma load_store w v rest : in_unsigned (bits w) v -> unalignedLoad w (unalignedStore w v ++ rest) = v.
Proof.
  intros Hv. unfold unalignedLoad, unalignedStore.
  rewrite take_app_length' by (by rewrite length_le_bytes). by apply le_value_bytes.
Qed.

Lemma drop_store w v rest : drop w (unalignedStore w v ++ rest) = rest.
Proof. apply drop_app_length'. by rewrite length_unalignedStore. Qed.

Lemma load_store_values w vs rest :
  is_values w vs -> load_values w (length vs) (store_values w vs ++ rest) = vs.
Proof.
  induction 1 as [|v vs Hv Hvs IH]; [done|]. cbn [length load_values store_values].
  by rewrite <- app_assoc, load_store, drop_store, IH.
Qed.

Lemma store_load w src : is_bytes src -> (w <= length src)%nat -> unalignedStore w (unalignedLoad w src) = take w src.
Proof.
  intros Hb Hl. unfold unalignedStore, unalignedLoad.
  replace w with (length (take w src)) at 1 by (simpl_len; lia). apply le_bytes_value. by apply is_bytes_take.
Qed.

Lemma store_load_values w n src :
  is_bytes src -> (w * n <= length src)%nat -> store_values w (load_values w n src) = take (w * n) src.
Proof.
  revert src. induction n as [|n IH]; intros src Hb Hl; cbn [load_values store_values].
  { by rewrite Nat.mul_0_r. }
  rewrite store_load by (done || lia). rewrite IH by (auto with bytesdb || (simpl_len; lia)).
  replace (w * S n)%nat with (w + w * n)%nat by lia. by rewrite <- take_take_drop.
Qed.

Lemma load_values_range w n src : is_bytes src -> (w * n <= length src)%nat -> is_values w (load_values w n src).
Proof.
  revert src. induction n as [|n IH]; intros src Hb Hl; cbn [load_values]; constructor.
  - unfold unalignedLoad, bits. pose proof (le_value_range (take w src)) as H.
    replace (length (take w src)) with w in H by (simpl_len; lia). apply H. by apply is_bytes_take.
  - apply IH; [by apply is_bytes_drop|simpl_len; lia].
Qed.

Lemma store_values_bytes w vs : is_bytes (store_values w vs).
Proof. induction vs as [|v vs IH]; cbn [store_values]; [constructor|]. apply is_bytes_app. split; [apply le_bytes_range|done]. Qed.

#[export] Hint Resolve store_values_bytes : bytesdb.

Lemma store_values_app w a b : store_values w (a ++ b) = store_values w a ++ store_values w b.
Proof. induction a as [|v a IH]; simpl; [done|]. by rewrite IH, app_assoc. Qed.

Lemma store_values_take w p vs : store_values w (take p vs) = take (p * w) (store_values w vs).
Proof.
  revert vs. induction p as [|p IH]; intros [|v vs]; cbn [take store_values]; rewrite ?take_nil; try done.
  rewrite IH. cbn [Nat.mul]. rewrite take_app_add'; [done|]. by rewrite length_unalignedStore.
Qed.

Lemma store_values_zeros w n : store_values w (replicate n 0) = replicate (n * w) 0.
Proof.
  induction n as [|n IH]; [done|]. cbn [replicate store_values Nat.mul]. rewrite IH, replicate_add. f_equal.
  unfold unalignedStore. clear. induction w as [|w IH]; [done|]. cbn [le_bytes replicate].
  by rewrite Z.mod_0_l, Z.div_0_l, IH by lia.
Qed.

(** Memory that holds a whole number of values. *)
Lemma aligned_store_load w src :
  (0 < w)%nat -> is_bytes src -> (length src mod w = 0)%nat ->
  store_values w (load_values w (length src / w) src) = src.
Proof.
  intros Hw Hb Hm. pose proof (Nat.div_mod_eq (length src) w) as E.
  rewrite store_load_values by (done || lia). apply take_ge. lia.
Qed.

Lemma aligned_range w src :
  is_bytes src -> is_values w (load_values w (length src / w) src).
Proof.
  intros Hb. apply load_values_range; [done|]. pose proof (Nat.div_mod_eq (length src) w) as E. lia.
Qed.
