(* ===== verification/CodecDelta.v ===== *)
(** The codec Delta (src/Compression/CompressionCodecDelta.cpp): the differences of
    the values of a column; with what the column codecs share. *)
From S2P Require Import Prelude IntText BinaryIO Codec Elements.
Import Binary.

(** The [switch] on the size of an element. *)
Definition switch_size {A} (sizes : list Z) (size : Z) (body : nat -> A) (default : A) : A :=
  if existsb (Z.eqb size) sizes then body (Z.to_nat size) else default.

(** ** The bytes before the first whole element *)

(** The number [n] of bytes in front of the aligned part of [src]. *)
Record skips (size : Z) (src : bytes) (n : nat) : Prop := {
  skips_byte : uwrap 8 (size_of src mod size) = Z.of_nat n;
  skips_le : (n <= length src)%nat;
  skips_aligned : (length (drop n src) mod Z.to_nat size = 0)%nat }.

Lemma skips_exists size src : 0 < size <= 32 -> exists n, skips size src n.
Proof.
  intros Hsize. exists (Z.to_nat (size_of src mod size)).
  pose proof (Z.mod_pos_bound (size_of src) size ltac:(lia)) as Hb.
  pose proof (Z.mod_le (size_of src) size ltac:(lia) ltac:(lia)) as Hle.
  split; [rewrite uwrap_small; [lia|unfold in_unsigned; lia]|lia|].
  apply Nat2Z.inj. rewrite Nat2Z.inj_mod. simpl_len.
  rewrite Nat2Z.inj_sub, !Z2Nat.id by lia. by rewrite Zminus_mod_idemp_r, Z.sub_diag.
Qed.

(** What the decompressors find in a header. *)
Lemma header_checks a b src data n :
  (n <= length src)%nat ->
  (size_of (a :: b :: take n src ++ data) <? 2 + Z.of_nat n) = false /\
  slice 2 n (a :: b :: take n src ++ data) = Ok (take n src) /\
  drop n (take n src ++ data) = data /\
  forall dest, length dest = length src -> put dest (take n src ++ drop n src) = Ok src.
Proof.
  intros Hn. split_and!.
  - apply Z.ltb_ge. simpl_len. lia.
  - apply (slice_app [a; b] (take n src) data 2 n eq_refl). simpl_len. lia.
  - apply drop_app_length'. simpl_len. lia.
  - intros dest Hd. rewrite take_drop. by apply put_full.
Qed.

Lemma header_bytes size skip src n data :
  0 <= size < 256 -> 0 <= skip < 256 -> is_bytes src -> is_bytes data ->
  is_bytes (size :: skip :: take n src ++ data).
Proof. intros. constructor; [done|]. constructor; [done|]. apply is_bytes_app. auto with bytesdb. Qed.

Lemma switch_size_hit {A} sizes size (body : nat -> A) default :
  existsb (Z.eqb size) sizes = true -> switch_size sizes size body default = body (Z.to_nat size).
Proof. unfold switch_size. by intros ->. Qed.

(** * Delta *)

Module Delta.

(** The loop of [compressDataForType]. *)
Fixpoint encode (w : nat) (prev_src : Z) (source : list Z) : list Z :=
  match source with
  | [] => []
  | curr_src :: source => uwrap (bits w) (curr_src - prev_src) :: encode w curr_src source
  end.

Definition compressDataForType (w : nat) (source : bytes) : result bytes :=
  if negb (length source mod w =? 0)%nat then Throw CANNOT_COMPRESS
  else Ok (store_values w (encode w 0 (load_values w (length source / w) source))).

(** The loop of [decompressDataForType]; [room] bytes of the output are left. *)
Fixpoint decode (w room : nat) (accumulator : Z) (source : list Z) : result (list Z) :=
  match source with
  | [] => Ok []
  | v :: source =>
      let accumulator := uwrap (bits w) (accumulator + v) in
      if (room <? w)%nat then Throw CANNOT_DECOMPRESS
      else let! out := decode w (room - w) accumulator source in Ok (accumulator :: out)
  end.

Definition decompressDataForType (w : nat) (source : bytes) (output_size : nat) : result bytes :=
  if negb (length source mod w =? 0)%nat then Throw CANNOT_DECOMPRESS
  else let! out := decode w output_size 0 (load_values w (length source / w) source) in
       Ok (store_values w out).

Definition sizes : list Z := [1; 2; 4; 8].

Definition doCompressData (delta_bytes_size : Z) (source : bytes) : result bytes :=
  let bytes_to_skip := uwrap 8 (size_of source mod delta_bytes_size) in
  let n := Z.to_nat bytes_to_skip in
  let! data := switch_size sizes delta_bytes_size (fun w => compressDataForType w (drop n source)) (Ok []) in
  Ok (delta_bytes_size :: bytes_to_skip :: take n source ++ data).

Definition doDecompressData (source dest : bytes) : result bytes :=
  match source with
  | bytes_size :: _ :: rest =>
      if (length dest =? 0)%nat then Ok dest
      else if negb (existsb (Z.eqb bytes_size) sizes) then Throw CANNOT_DECOMPRESS
      else
        let bytes_to_skip := uwrap 8 (size_of dest mod bytes_size) in
        let n := Z.to_nat bytes_to_skip in
        let output_size := (length dest - n)%nat in
        if size_of source <? 2 + bytes_to_skip then Throw CANNOT_DECOMPRESS
        else
          let! skipped := slice 2 n source in
          let! out := switch_size sizes bytes_size
            (fun w => decompressDataForType w (drop n rest) output_size) (Ok []) in
          put dest (skipped ++ out)
  | _ => Throw CANNOT_DECOMPRESS
  end.

Definition getMaxCompressedDataSize (uncompressed_size : Z) : Z := uwrap 32 (uncompressed_size + 2).

Definition CompressionCodecDelta (delta_bytes_size : Z) : ICompressionCodec := {|
  Codec.getMethodByte := method_byte Delta;
  Codec.doCompressData := doCompressData delta_bytes_size;
  Codec.doDecompressData := doDecompressData;
  Codec.getMaxCompressedDataSize := getMaxCompressedDataSize;
  getAdditionalSizeAtTheEndOfBuffer := 0;
  decompression_error_code := CORRUPTED_DATA;
  full_codec_desc := setCodecDescription "Delta" [UInt64Literal delta_bytes_size];
  traits := delta_like transformation |}.

(** [getDeltaBytesSize] *)
Definition getDeltaBytesSize (column_type : IDataType) : result Z :=
  if negb (isValueUnambiguouslyRepresentedInFixedSizeContiguousMemoryRegion column_type) then Throw BAD_ARGUMENTS
  else
    let max_size := getSizeOfValueInMemory column_type in
    if existsb (Z.eqb max_size) sizes then Ok (uwrap 8 max_size) else Throw BAD_ARGUMENTS.

(** The builder of [registerCodecDelta]. *)
Definition codec_builder (arguments : list CodecArgument) (column_type : option IDataType)
  : result ICompressionCodec :=
  let! delta_bytes_size :=
    match arguments with
    | [] => match column_type with Some column_type => getDeltaBytesSize column_type | None => Ok 1 end
    | [UInt64Literal user_bytes_size] =>
        if negb (existsb (Z.eqb user_bytes_size) sizes) then Throw ILLEGAL_CODEC_PARAMETER
        else Ok (uwrap 8 user_bytes_size)
    | [_] => Throw ILLEGAL_CODEC_PARAMETER
    | _ => Throw ILLEGAL_SYNTAX_FOR_CODEC_TYPE
    end in
  Ok (CompressionCodecDelta delta_bytes_size).

(** ** Round trip *)

Lemma length_encode w prev vs : length (encode w prev vs) = length vs.
Proof. revert prev. induction vs as [|v vs IH]; intros prev; simpl; auto. Qed.

Lemma encode_range w prev vs : is_values w (encode w prev vs).
Proof.
  revert prev. induction vs as [|v vs IH]; intros prev; constructor; [|apply IH].
  apply uwrap_range. unfold bits. lia.
Qed.

Lemma decode_encode w room prev vs :
  is_values w vs -> (w * length vs <= room)%nat -> decode w room prev (encode w prev vs) = Ok vs.
Proof.
  intros Hvs. revert room prev. induction Hvs as [|v vs Hv Hvs IH]; intros room prev Hr; [done|].
  cbn [encode decode length] in *.
  assert (E : uwrap (bits w) (prev + uwrap (bits w) (v - prev)) = v).
  { unfold uwrap. rewrite Z.add_mod_idemp_r by (unfold bits; lia).
    replace (prev + (v - prev)) with v by lia. by apply uwrap_small. }
  rewrite E. destruct (Nat.ltb_spec room w); [lia|]. by rewrite IH by lia.
Qed.

Lemma delta_compressDataForType_spec w src :
  (0 < w)%nat -> is_bytes src -> (length src mod w = 0)%nat ->
  exists data, compressDataForType w src = Ok data /\ length data = length src /\ is_bytes data /\
    decompressDataForType w data (length src) = Ok src.
Proof.
  intros Hw Hb Hm. unfold compressDataForType, decompressDataForType. rewrite Hm. simpl.
  set (vs := load_values w (length src / w) src).
  pose proof (Nat.div_mod_eq (length src) w) as Ediv.
  assert (Hlen : length (store_values w (encode w 0 vs)) = length src).
  { rewrite length_store_values, length_encode. unfold vs. rewrite length_load_values. lia. }
  eexists. split; [reflexivity|]. rewrite Hlen, Hm. simpl. split_and!; [done|auto with bytesdb|].
  assert (Hvs : is_values w vs) by by apply aligned_range.
  replace (length src / w)%nat with (length (encode w 0 vs))
    by (rewrite length_encode; unfold vs; by rewrite length_load_values).
  rewrite <- (app_nil_r (store_values w _)), load_store_values by apply encode_range.
  rewrite decode_encode; [|done|unfold vs; rewrite length_load_values; lia].
  cbn [rbind]. f_equal. unfold vs. by apply aligned_store_load.
Qed.

(** Whatever the source holds, the output is not overrun. *)
Lemma decode_length w room acc vs out :
  decode w room acc vs = Ok out -> (w * length out <= room)%nat.
Proof.
  revert room acc out. induction vs as [|v vs IH]; intros room acc out; cbn [decode].
  { intros [= <-]. simpl. lia. }
  destruct (Nat.ltb_spec room w); [done|]. intros (out' & H1 & [= <-])%rbind_Ok.
  apply IH in H1. simpl. lia.
Qed.

Lemma decode_error w room acc vs : decode w room acc vs <> Throw OUT_OF_BOUNDS_ACCESS.
Proof.
  revert room acc. induction vs as [|v vs IH]; intros room acc; cbn [decode]; [done|].
  destruct (room <? w)%nat; [done|]. specialize (IH (room - w)%nat (uwrap (bits w) (acc + v))).
  destruct (decode _ _ _ _); simpl; congruence.
Qed.

Lemma delta_decompressDataForType_safe w src n :
  match decompressDataForType w src n with
  | Ok out => (length out <= n)%nat
  | Throw e => e <> OUT_OF_BOUNDS_ACCESS
  end.
Proof.
  unfold decompressDataForType. destruct (negb _); [done|].
  pose proof (decode_length w n 0 (load_values w (length src / w) src)) as H1.
  pose proof (decode_error w n 0 (load_values w (length src / w) src)) as H2.
  destruct (decode w n 0 _) as [out|e]; simpl; [|congruence].
  rewrite length_store_values. by apply H1.
Qed.

Lemma delta_sizes_range size : existsb (Z.eqb size) sizes = true -> 0 < size <= 8.
Proof. simpl. rewrite !orb_true_iff, !Z.eqb_eq. lia. Qed.

Lemma delta_doCompressData_spec size src :
  existsb (Z.eqb size) sizes = true -> is_bytes src ->
  exists data, doCompressData size src = Ok data /\ is_bytes data /\
    size_of data = 2 + size_of src /\
    forall dest, length dest = length src -> doDecompressData data dest = Ok src.
Proof.
  intros Hsize Hb. pose proof (delta_sizes_range size Hsize) as Hr. unfold doCompressData.
  destruct (skips_exists size src ltac:(lia)) as (n & [Hbyte Hn Hal]). rewrite Hbyte, Nat2Z.id.
  rewrite switch_size_hit by done.
  destruct (delta_compressDataForType_spec (Z.to_nat size) (drop n src)) as (data & -> & Hlen & Hdata & Hback);
    [lia|auto with bytesdb|done|].
  cbn [rbind]. eexists. split; [reflexivity|]. split; [|split].
  - apply header_bytes; [lia| |done|done]. rewrite <- Hbyte. apply (uwrap_range 8). lia.
  - simpl_len. lia.
  - intros dest Hd. unfold doDecompressData. destruct (Nat.eqb_spec (length dest) 0) as [E|E].
    { destruct dest; [|done]. by destruct src. }
    destruct (header_checks size (Z.of_nat n) src data n Hn) as (H1 & H2 & H3 & H4).
    rewrite Hsize, Hd, Hbyte, Nat2Z.id, H1, H2. cbn [negb rbind]. rewrite switch_size_hit, H3 by done.
    rewrite length_drop in Hback. rewrite Hback. by apply H4.
Qed.

#[export] Instance lossless_Delta size size' :
  existsb (Z.eqb size) sizes = true -> LosslessCodec (CompressionCodecDelta size) (CompressionCodecDelta size') 1.
Proof.
  intros Hsize. split; simpl; [done|lia| |].
  - intros src data Hb _ Hd. destruct (delta_doCompressData_spec size src Hsize Hb) as (d & Hc & Hdb & _). congruence.
  - intros src data dest Hb _ _ Hd Hl. destruct (delta_doCompressData_spec size src Hsize Hb) as (d & Hc & _ & _ & Hback).
    assert (d = data) as -> by congruence. by apply Hback.
Qed.

#[export] Instance fits_Delta size limit :
  existsb (Z.eqb size) sizes = true -> limit <= 2 ^ 25 -> FitsReserve (CompressionCodecDelta size) limit.
Proof.
  intros Hsize Hl. assert (Hmax : forall n, 0 < n <= limit -> getMaxCompressedDataSize n = n + 2).
  { intros n Hn. apply uwrap_small. unfold in_unsigned. lia. }
  split; simpl; [lia| |intros n m Hn Hm; rewrite !Hmax by lia; unfold GiB; lia]. intros src Hb Hs.
  destruct (delta_doCompressData_spec size src Hsize Hb) as (data & Hc & Hdb & Hlen & _). exists data.
  rewrite Hmax by done. split_and!; done || lia.
Qed.

#[export] Instance safe_Delta size : SafeDecoder (CompressionCodecDelta size).
Proof.
  intros source dest Hb _ _. simpl. unfold doDecompressData. destruct source as [|bytes_size [|b rest]]; [done..|].
  destruct (Nat.eqb_spec (length dest) 0) as [|_]; [done|].
  destruct (existsb (Z.eqb bytes_size) sizes) eqn:Hsize; [|done]. cbn [negb].
  pose proof (delta_sizes_range _ Hsize) as Hr.
  destruct (skips_exists bytes_size dest ltac:(lia)) as (n & [Hbyte Hn _]). rewrite Hbyte, Nat2Z.id.
  destruct (Z.ltb_spec (size_of (bytes_size :: b :: rest)) (2 + Z.of_nat n)); [done|].
  rewrite slice_inside by (simpl_len; lia). cbn [rbind]. rewrite switch_size_hit by done.
  pose proof (delta_decompressDataForType_safe (Z.to_nat bytes_size) (drop n rest) (length dest - n)) as Hs.
  destruct (decompressDataForType _ _ _) as [out|e]; [|exact Hs]. cbn [rbind]. apply put_safe. simpl_len. lia.
Qed.

(** Delta restores every column: data of any length compresses to its size
    and two bytes, and decompresses to the same bytes, whatever the value size of
    the codec that decompresses it. *)
Theorem delta_lossless (size : Z) (src dest : bytes) :
  existsb (Z.eqb size) sizes = true -> is_bytes src -> size_of src < 2 ^ 32 - 2 -> length dest = length src ->
  exists data, doCompressData size src = Ok data /\
    size_of data = getMaxCompressedDataSize (size_of src) /\ doDecompressData data dest = Ok src.
Proof.
  intros Hsize Hb Hs Hd. destruct (delta_doCompressData_spec size src Hsize Hb) as (data & Hc & _ & Hl & Hback).
  exists data. split_and!; [done| |by apply Hback]. unfold getMaxCompressedDataSize.
  rewrite uwrap_small by (unfold in_unsigned; lia). lia.
Qed.

Lemma delta_lossless_witness :
  exists data, doCompressData 4 [7; 1; 2; 3; 4; 255; 255; 255; 255] = Ok data /\
    size_of data = getMaxCompressedDataSize 9 /\
    doDecompressData data (replicate 9 0) = Ok [7; 1; 2; 3; 4; 255; 255; 255; 255].
Proof.
  apply (delta_lossless 4 [7; 1; 2; 3; 4; 255; 255; 255; 255] (replicate 9 0)); [reflexivity| |reflexivity|reflexivity].
  repeat constructor; discriminate.
Defined.

End Delta.
