(* ===== verification/CodecGCD.v ===== *)
(** The codec GCD (src/Compression/CompressionCodecGCD.cpp): the values of a column
    divided by their greatest common divisor. *)
From S2P Require Import Prelude IntText BinaryIO Codec Elements CodecDelta.
Import Binary.

Module GCD.

Section GCD.
(** [boost::integer::gcd] and the division of [libdivide]. *)
Variable boost_gcd : Z -> Z -> Z.
Variable libdivide_divide : Z -> Z -> Z.

(** The first loop of [compressDataForType]; [start] on the first element. *)
Fixpoint gcd_loop (start : bool) (gcd : Z) (source : list Z) : Z :=
  match source with
  | [] => gcd
  | v :: source => if gcd =? 1 then gcd else gcd_loop false (if start then v else boost_gcd gcd v) source
  end.

Definition divide (w : nat) (gcd v : Z) : Z :=
  if (w <=? 8)%nat then uwrap (bits w) (libdivide_divide v gcd) else v / gcd.

Definition compressDataForType (w : nat) (source : bytes) : result bytes :=
  if negb (length source mod w =? 0)%nat then Throw CANNOT_COMPRESS
  else
    let values := load_values w (length source / w) source in
    let gcd := gcd_loop true 0 values in
    if (gcd =? 0) || (gcd =? 1) then Ok (unalignedStore w gcd ++ source)
    else Ok (unalignedStore w gcd ++ store_values w (map (divide w gcd) values)).

(** The loop of [decompressDataForType]; [room] bytes of the output are left. *)
Fixpoint multiply (w room : nat) (gcd_multiplier : Z) (source : list Z) : result (list Z) :=
  match source with
  | [] => Ok []
  | v :: source =>
      if (room <? w)%nat then Throw CANNOT_DECOMPRESS
      else let! out := multiply w (room - w) gcd_multiplier source in
           Ok (uwrap (bits w) (v * gcd_multiplier) :: out)
  end.

Definition decompressDataForType (w : nat) (source : bytes) (output_size : nat) : result bytes :=
  if negb (length source mod w =? 0)%nat then Throw CANNOT_DECOMPRESS
  else if (length source <? w)%nat then Throw CANNOT_DECOMPRESS
  else
    let gcd_multiplier := unalignedLoad w source in
    let source := drop w source in
    if (gcd_multiplier =? 0) || (gcd_multiplier =? 1) then
      if negb (length source =? output_size)%nat then Throw CANNOT_DECOMPRESS else Ok source
    else
      let! out := multiply w output_size gcd_multiplier (load_values w (length source / w) source) in
      Ok (store_values w out).

Definition sizes : list Z := [1; 2; 4; 8; 16; 32].

Definition doCompressData (gcd_bytes_size : Z) (source : bytes) : result bytes :=
  let bytes_to_skip := uwrap 8 (size_of source mod gcd_bytes_size) in
  let n := Z.to_nat bytes_to_skip in
  let! data := switch_size sizes gcd_bytes_size (fun w => compressDataForType w (drop n source)) (Ok []) in
  Ok (gcd_bytes_size :: bytes_to_skip :: take n source ++ data).

Definition doDecompressData (source dest : bytes) : result bytes :=
  match source with
  | bytes_size :: skip_byte :: rest =>
      if (length dest =? 0)%nat then Ok dest
      else if negb (existsb (Z.eqb bytes_size) sizes) then Throw CANNOT_DECOMPRESS
      else
        let bytes_to_skip := uwrap 8 (size_of dest mod bytes_size) in
        let n := Z.to_nat bytes_to_skip in
        if negb (bytes_to_skip =? skip_byte) then Throw CANNOT_DECOMPRESS
        else
          let output_size := (length dest - n)%nat in
          if size_of source <? 2 + bytes_to_skip then Throw CANNOT_DECOMPRESS
          else
            let! skipped := slice 2 n source in
            let! out := switch_size sizes bytes_size
              (fun w => decompressDataForType w (drop n rest) output_size) (Ok []) in
            put dest (skipped ++ out)
  | _ => Throw CANNOT_DECOMPRESS
  end.

Definition getMaxCompressedDataSize (gcd_bytes_size uncompressed_size : Z) : Z :=
  uwrap 32 (uncompressed_size + gcd_bytes_size + 2).

Definition CompressionCodecGCD (gcd_bytes_size : Z) : ICompressionCodec := {|
  Codec.getMethodByte := method_byte GCD;
  Codec.doCompressData := doCompressData gcd_bytes_size;
  Codec.doDecompressData := doDecompressData;
  Codec.getMaxCompressedDataSize := getMaxCompressedDataSize gcd_bytes_size;
  getAdditionalSizeAtTheEndOfBuffer := 0;
  decompression_error_code := CORRUPTED_DATA;
  full_codec_desc := setCodecDescription "GCD" [];
  traits := transformation |}.

(** The types GCD applies to, from the tests of [WhichDataType]. *)
Definition gcd_applicable (idx : TypeIndex.t) : bool :=
  match idx with
  | TypeIndex.Int8 | TypeIndex.Int16 | TypeIndex.Int32 | TypeIndex.Int64 | TypeIndex.Int128 | TypeIndex.Int256
  | TypeIndex.UInt8 | TypeIndex.UInt16 | TypeIndex.UInt32 | TypeIndex.UInt64 | TypeIndex.UInt128 | TypeIndex.UInt256
  | TypeIndex.Decimal32 | TypeIndex.Decimal64 | TypeIndex.Decimal128 | TypeIndex.Decimal256
  | TypeIndex.Date | TypeIndex.Date32 | TypeIndex.DateTime | TypeIndex.DateTime64 => true
  | _ => false
  end.

(** [getGCDBytesSize] *)
Definition getGCDBytesSize (column_type : IDataType) : result Z :=
  if negb (gcd_applicable (getTypeId column_type)) then Throw BAD_ARGUMENTS
  else
    let max_size := getSizeOfValueInMemory column_type in
    if existsb (Z.eqb max_size) sizes then Ok (uwrap 8 max_size) else Throw BAD_ARGUMENTS.

(** The builder of [registerCodecGCD]. *)
Definition codec_builder (arguments : list CodecArgument) (column_type : option IDataType) : result ICompressionCodec :=
  if negb (length arguments =? 0)%nat then Throw ILLEGAL_SYNTAX_FOR_CODEC_TYPE
  else
    let! gcd_bytes_size :=
      match column_type with None => Ok 1 | Some column_type => getGCDBytesSize column_type end in
    Ok (CompressionCodecGCD gcd_bytes_size).

(** ** Round trip *)

Hypothesis boost_gcd_spec : forall a b, 0 <= a -> 0 <= b -> boost_gcd a b = Z.gcd a b.
Hypothesis libdivide_spec : forall a d, 0 <= a -> 0 < d -> libdivide_divide a d = a / d.

(** The loop stops at one, or has a common divisor of all values. *)
Lemma gcd_loop_divides start g vs :
  Forall (fun v => 0 <= v) vs -> 0 <= g -> (start = true -> g = 0) ->
  0 <= gcd_loop start g vs /\
  (gcd_loop start g vs = 1 \/ ((gcd_loop start g vs | g) /\ Forall (fun v => (gcd_loop start g vs | v)) vs)).
Proof.
  intros Hvs. revert start g. induction Hvs as [|v vs Hv Hvs IH]; intros start g Hg Hst; simpl.
  { split; [done|]. right. split; [apply Z.divide_refl|constructor]. }
  destruct (Z.eqb_spec g 1) as [-> |_]; [split; [lia|by left]|].
  set (g' := if start then v else boost_gcd g v).
  assert (Hg' : 0 <= g' /\ (g' | g) /\ (g' | v)).
  { unfold g'. destruct start.
    - rewrite Hst by done. split_and!; [done|apply Z.divide_0_r|apply Z.divide_refl].
    - rewrite boost_gcd_spec by done.
      split_and!; [apply Z.gcd_nonneg|apply Z.gcd_divide_l|apply Z.gcd_divide_r]. }
  destruct Hg' as (H1 & H2 & H3). destruct (IH false g' H1) as [Hpos [Hone|[Hd Hall]]]; [done| |].
  - split; [done|by left].
  - split; [done|]. right. split; [by eapply Z.divide_trans|]. constructor; [by eapply Z.divide_trans|done].
Qed.

Lemma divide_multiply w g v :
  (0 < w)%nat -> in_unsigned (bits w) v -> 1 < g -> (g | v) ->
  in_unsigned (bits w) (divide w g v) /\ uwrap (bits w) (divide w g v * g) = v.
Proof.
  intros Hw Hv Hg [q ->]. unfold in_unsigned in Hv.
  assert (Hq : 0 <= q) by nia. assert (Hqb : q < 2 ^ bits w) by nia.
  assert (divide w g (q * g) = q) as ->.
  { unfold divide. destruct (w <=? 8)%nat; [rewrite libdivide_spec by lia|]; rewrite Z.div_mul by lia; [|done].
    by apply uwrap_small. }
  split; [done|]. by apply uwrap_small.
Qed.

Lemma multiply_divide w room g vs :
  (0 < w)%nat -> is_values w vs -> 1 < g -> Forall (fun v => (g | v)) vs -> (w * length vs <= room)%nat ->
  is_values w (map (divide w g) vs) /\ multiply w room g (map (divide w g) vs) = Ok vs.
Proof.
  intros Hw Hvs Hg Hd. revert room. induction Hvs as [|v vs Hv Hvs IH]; intros room Hr.
  { split; [constructor|done]. }
  apply Forall_cons in Hd as [Hdv Hd]. destruct (divide_multiply w g v Hw Hv Hg Hdv) as [H1 H2].
  cbn [map multiply length] in *. destruct (Nat.ltb_spec room w); [lia|].
  destruct (IH Hd (room - w)%nat ltac:(lia)) as [H3 H4]. split; [by constructor|].
  rewrite H4. cbn [rbind]. by rewrite H2.
Qed.

Lemma gcd_range M a b : 0 <= a < M -> 0 <= b < M -> 0 <= Z.gcd a b < M.
Proof.
  intros Ha Hb. split; [apply Z.gcd_nonneg|]. destruct (decide (a = 0)) as [-> |Hnz].
  - rewrite Z.gcd_0_l. lia.
  - pose proof (Z.divide_pos_le (Z.gcd a b) a ltac:(lia) (Z.gcd_divide_l a b)). lia.
Qed.

Lemma gcd_loop_range w start g vs :
  is_values w vs -> in_unsigned (bits w) g -> in_unsigned (bits w) (gcd_loop start g vs).
Proof.
  intros Hvs. revert start g. induction Hvs as [|v vs Hv Hvs IH]; intros start g Hg; simpl; [done|].
  destruct (g =? 1); [done|]. apply IH. destruct start; [done|].
  unfold in_unsigned in *. rewrite boost_gcd_spec by lia. by apply gcd_range.
Qed.

Lemma gcd_compressDataForType_spec w src :
  (0 < w)%nat -> is_bytes src -> (length src mod w = 0)%nat ->
  exists data, compressDataForType w src = Ok data /\ length data = (w + length src)%nat /\ is_bytes data /\
    decompressDataForType w data (length src) = Ok src.
Proof.
  intros Hw Hb Hm. unfold compressDataForType, decompressDataForType. rewrite Hm. cbn [Nat.eqb negb].
  set (vs := load_values w (length src / w) src). set (g := gcd_loop true 0 vs).
  pose proof (Nat.div_mod_eq (length src) w) as Ediv.
  assert (Hvs : is_values w vs) by by apply aligned_range.
  assert (Hlen : length vs = (length src / w)%nat) by apply length_load_values.
  assert (Hg : in_unsigned (bits w) g).
  { apply gcd_loop_range; [done|]. unfold in_unsigned, bits. split; [lia|]. apply Z.pow_pos_nonneg; lia. }
  assert (Hmod : ((w + length src) mod w = 0)%nat).
  { rewrite Nat.add_comm, <- (Nat.mul_1_l w) at 1. rewrite Nat.Div0.mod_add. done. }
  assert (Hdata : forall d, length d = length src ->
    (length (unalignedStore w g ++ d) mod w = 0)%nat /\ (w <= length (unalignedStore w g ++ d))%nat).
  { intros d Hd. simpl_len. rewrite Hd. split; [done|lia]. }
  destruct ((g =? 0) || (g =? 1)) eqn:Eg.
  - eexists. split; [reflexivity|]. destruct (Hdata src eq_refl) as [-> Hle]. cbn [Nat.eqb negb].
    split_and!; [simpl_len; lia|apply is_bytes_app; split; [apply le_bytes_range|done]|].
    destruct (Nat.ltb_spec (length (unalignedStore w g ++ src)) w); [lia|].
    by rewrite load_store, Eg, drop_store, Nat.eqb_refl.
  - apply orb_false_iff in Eg as [E0%Z.eqb_neq E1%Z.eqb_neq].
    destruct (gcd_loop_divides true 0 vs) as [Hpos [Hone|[_ Hdiv]]]; [|done|done|done|].
    { eapply Forall_impl; [exact Hvs|]. unfold in_unsigned. lia. }
    fold g in Hpos, Hdiv. destruct (multiply_divide w (length src) g vs) as [Hq Hback]; [done|done|lia|done|lia|].
    eexists. split; [reflexivity|].
    assert (Hl : length (store_values w (map (divide w g) vs)) = length src).
    { rewrite length_store_values, length_map. lia. }
    destruct (Hdata _ Hl) as [-> Hle]. cbn [Nat.eqb negb].
    split_and!; [simpl_len; lia|apply is_bytes_app; split; [apply le_bytes_range|auto with bytesdb]|].
    destruct (Nat.ltb_spec (length (unalignedStore w g ++ store_values w (map (divide w g) vs))) w); [lia|].
    rewrite load_store, drop_store, Hl by done.
    destruct (Z.eqb_spec g 0), (Z.eqb_spec g 1); [done..|]. cbn [orb].
    rewrite <- Hlen, <- (length_map (divide w g) vs), <- (app_nil_r (store_values w _)), load_store_values by done.
    rewrite Hback. cbn [rbind]. f_equal. unfold vs. by apply aligned_store_load.
Qed.

Lemma gcd_sizes_range size : existsb (Z.eqb size) sizes = true -> 0 < size <= 32.
Proof. simpl. rewrite !orb_true_iff, !Z.eqb_eq. lia. Qed.

Lemma gcd_doCompressData_spec size src :
  existsb (Z.eqb size) sizes = true -> is_bytes src ->
  exists data, doCompressData size src = Ok data /\ is_bytes data /\
    size_of data = 2 + size + size_of src /\
    forall dest, length dest = length src -> doDecompressData data dest = Ok src.
Proof.
  intros Hsize Hb. pose proof (gcd_sizes_range size Hsize) as Hr. unfold doCompressData.
  destruct (skips_exists size src ltac:(lia)) as (n & [Hbyte Hn Hal]). rewrite Hbyte, Nat2Z.id.
  rewrite switch_size_hit by done.
  destruct (gcd_compressDataForType_spec (Z.to_nat size) (drop n src)) as (data & -> & Hlen & Hdata & Hback);
    [lia|auto with bytesdb|done|].
  cbn [rbind]. eexists. split; [reflexivity|]. split; [|split].
  - apply header_bytes; [lia| |done|done]. rewrite <- Hbyte. apply (uwrap_range 8). lia.
  - simpl_len. lia.
  - intros dest Hd. unfold doDecompressData. destruct (Nat.eqb_spec (length dest) 0) as [E|E].
    { destruct dest; [|done]. by destruct src. }
    destruct (header_checks size (Z.of_nat n) src data n Hn) as (H1 & H2 & H3 & H4).
    rewrite Hsize, Hd, Hbyte, Nat2Z.id, Z.eqb_refl, H1, H2. cbn [negb rbind].
    rewrite switch_size_hit, H3 by done. rewrite length_drop in Hback. rewrite Hback. by apply H4.
Qed.

Lemma lossless size size' :
  existsb (Z.eqb size) sizes = true -> LosslessCodec (CompressionCodecGCD size) (CompressionCodecGCD size') 1.
Proof.
  intros Hsize. split; simpl; [done|lia| |].
  - intros src data Hb _ Hd. destruct (gcd_doCompressData_spec size src Hsize Hb) as (d & Hc & Hdb & _). congruence.
  - intros src data dest Hb _ _ Hd Hl. destruct (gcd_doCompressData_spec size src Hsize Hb) as (d & Hc & _ & _ & Hback).
    assert (d = data) as -> by congruence. by apply Hback.
Qed.

#[export] Instance fits_GCD size limit :
  existsb (Z.eqb size) sizes = true -> limit <= 2 ^ 25 -> FitsReserve (CompressionCodecGCD size) limit.
Proof.
  intros Hsize Hl. pose proof (gcd_sizes_range size Hsize).
  assert (Hmax : forall n, 0 < n <= limit -> getMaxCompressedDataSize size n = n + 2 + size).
  { intros n Hn. unfold getMaxCompressedDataSize. rewrite uwrap_small by (unfold in_unsigned; lia). lia. }
  split; simpl; [lia| |intros n m Hn Hm; rewrite !Hmax by lia; unfold GiB; lia]. intros src Hb Hs.
  destruct (gcd_doCompressData_spec size src Hsize Hb) as (data & Hc & Hdb & Hlen & _). exists data.
  rewrite Hmax by done. split_and!; done || lia.
Qed.

(** ** Corrupted data *)

Lemma multiply_safe w room g vs :
  match multiply w room g vs with
  | Ok out => (w * length out <= room)%nat
  | Throw e => e <> OUT_OF_BOUNDS_ACCESS
  end.
Proof.
  revert room. induction vs as [|v vs IH]; intros room; cbn [multiply]; [simpl; lia|].
  destruct (Nat.ltb_spec room w); [done|]. specialize (IH (room - w)%nat).
  destruct (multiply _ _ _ _); simpl; [lia|done].
Qed.

Lemma gcd_decompressDataForType_safe w src n :
  match decompressDataForType w src n with
  | Ok out => (length out <= n)%nat
  | Throw e => e <> OUT_OF_BOUNDS_ACCESS
  end.
Proof.
  unfold decompressDataForType. destruct (negb _); [done|]. destruct (_ <? _)%nat; [done|].
  destruct (_ || _).
  - destruct (Nat.eqb_spec (length (drop w src)) n); simpl; [lia|done].
  - pose proof (multiply_safe w n (unalignedLoad w src) (load_values w (length (drop w src) / w) (drop w src))) as H.
    destruct (multiply _ _ _ _); simpl; [|done]. by rewrite length_store_values.
Qed.

#[export] Instance safe_GCD size : SafeDecoder (CompressionCodecGCD size).
Proof.
  intros source dest Hb _ _. simpl. unfold doDecompressData. destruct source as [|bytes_size [|b rest]]; [done..|].
  destruct (Nat.eqb_spec (length dest) 0) as [|_]; [done|].
  destruct (existsb (Z.eqb bytes_size) sizes) eqn:Hsize; [|done]. cbn [negb].
  pose proof (gcd_sizes_range _ Hsize) as Hr.
  destruct (skips_exists bytes_size dest ltac:(lia)) as (n & [Hbyte Hn _]). rewrite Hbyte, Nat2Z.id. destruct (negb _); [done|].
  destruct (Z.ltb_spec (size_of (bytes_size :: b :: rest)) (2 + Z.of_nat n)); [done|].
  rewrite slice_inside by (simpl_len; lia). cbn [rbind]. rewrite switch_size_hit by done.
  pose proof (gcd_decompressDataForType_safe (Z.to_nat bytes_size) (drop n rest) (length dest - n)) as Hs.
  destruct (decompressDataForType _ _ _) as [out|e]; [|exact Hs]. cbn [rbind]. apply put_safe. simpl_len. lia.
Qed.

End GCD.

(** GCD restores every column, of whatever values: given a [gcd] and a
    division that compute what their libraries document, data of any length
    compresses to at most the reserved size and decompresses to the same bytes. *)
Theorem gcd_lossless (boost_gcd libdivide_divide : Z -> Z -> Z) (size : Z) (src dest : bytes) :
  (forall a b, 0 <= a -> 0 <= b -> boost_gcd a b = Z.gcd a b) ->
  (forall a d, 0 <= a -> 0 < d -> libdivide_divide a d = a / d) ->
  existsb (Z.eqb size) sizes = true -> is_bytes src -> size_of src < 2 ^ 32 - 34 -> length dest = length src ->
  exists data, doCompressData boost_gcd libdivide_divide size src = Ok data /\
    size_of data = getMaxCompressedDataSize size (size_of src) /\ doDecompressData data dest = Ok src.
Proof.
  intros Hgcd Hdiv Hsize Hb Hs Hd. pose proof (gcd_sizes_range size Hsize).
  destruct (gcd_doCompressData_spec boost_gcd libdivide_divide Hgcd Hdiv size src Hsize Hb) as (data & Hc & _ & Hl & Hback).
  exists data. split_and!; [done| |by apply Hback]. unfold getMaxCompressedDataSize.
  rewrite uwrap_small by (unfold in_unsigned; lia). lia.
Qed.

Lemma gcd_lossless_witness :
  exists data, doCompressData Z.gcd Z.div 2 [9; 6; 0; 12; 0; 0; 1] = Ok data /\
    size_of data = getMaxCompressedDataSize 2 7 /\ doDecompressData data (replicate 7 0) = Ok [9; 6; 0; 12; 0; 0; 1].
Proof.
  apply (gcd_lossless Z.gcd Z.div 2 [9; 6; 0; 12; 0; 0; 1] (replicate 7 0));
    [reflexivity|reflexivity|reflexivity| |reflexivity|reflexivity].
  repeat constructor; discriminate.
Defined.

End GCD.
