(* ===== verification/CodecDoubleDelta.v ===== *)
(** The codec DoubleDelta (src/Compression/CompressionCodecDoubleDelta.cpp):
    second differences in a prefix code of one to 69 bits. *)
From S2P Require Import Prelude IntText BinaryIO BitIO Codec Elements CodecDelta.
Import Binary.

(** * The code *)

Record WriteSpec := { prefix_bits : nat; prefix : Z; data_bits : nat }.

Definition spec (prefix_bits : nat) (prefix : Z) (data_bits : nat) : WriteSpec :=
  {| prefix_bits := prefix_bits; prefix := prefix; data_bits := data_bits |}.

(** Prefix and data lengths by the five highest bits. *)
Definition WRITE_SPEC_LUT : list WriteSpec := [
  (* 0b0 *)
  spec 1 0 0; spec 1 0 0; spec 1 0 0; spec 1 0 0; spec 1 0 0; spec 1 0 0; spec 1 0 0; spec 1 0 0;
  spec 1 0 0; spec 1 0 0; spec 1 0 0; spec 1 0 0; spec 1 0 0; spec 1 0 0; spec 1 0 0; spec 1 0 0;
  (* 0b10 *)
  spec 2 2 7; spec 2 2 7; spec 2 2 7; spec 2 2 7; spec 2 2 7; spec 2 2 7; spec 2 2 7; spec 2 2 7;
  (* 0b110 *)
  spec 3 6 9; spec 3 6 9; spec 3 6 9; spec 3 6 9;
  (* 0b1110 *)
  spec 4 14 12; spec 4 14 12;
  (* 0b11110 and 0b11111 *)
  spec 5 30 32; spec 5 31 64 ].

Definition getMaxValueForByteSize (byte_size : Z) : result Z :=
  if byte_size =? 1 then Ok (int_max Int8)
  else if byte_size =? 2 then Ok (int_max Int16)
  else if byte_size =? 4 then Ok (int_max Int32)
  else if byte_size =? 8 then Ok (int_max Int64)
  else Throw LOGICAL_ERROR.

Definition getDeltaWriteSpec (value : Z) : WriteSpec :=
  if (-63 <? value) && (value <? 64) then spec 2 2 7
  else if (-255 <? value) && (value <? 256) then spec 3 6 9
  else if (-2047 <? value) && (value <? 2048) then spec 4 14 12
  else if (int_min Int32 <? value) && (value <? int_max Int32) then spec 5 30 32
  else spec 5 31 64.

Definition getDeltaMaxWriteSpecByteSize (data_bytes_size : Z) : result WriteSpec :=
  let! max := getMaxValueForByteSize data_bytes_size in Ok (getDeltaWriteSpec max).

Definition getCompressedHeaderSize (data_bytes_size : Z) : Z := 4 + data_bytes_size + data_bytes_size.

Definition getCompressedDataSize (data_bytes_size uncompressed_size : Z) : result Z :=
  let items_count := uncompressed_size / data_bytes_size in
  let! double_delta_write_spec := getDeltaMaxWriteSpecByteSize data_bytes_size in
  let max_item_size_bits :=
    Z.of_nat (prefix_bits double_delta_write_spec) + Z.of_nat (data_bits double_delta_write_spec) in
  Ok (uwrap 32 (items_count * max_item_size_bits + 7) / 8).

(** One item of the compression loop. *)
Definition write_item (w : nat) (double_delta : Z) (writer : BitWriter) : result BitWriter :=
  if double_delta =? 0 then writeBits 1 0 writer
  else
    let signed_dd := swrap (bits w) double_delta in
    let sign := signed_dd <? 0 in
    let abs_value :=
      if signed_dd =? - 2 ^ (bits w - 1) then Z.shiftr (2 ^ bits w - 1) 1
      else uwrap (bits w) (Z.abs signed_dd - 1) in
    let write_spec := getDeltaWriteSpec signed_dd in
    let! writer := writeBits (Z.of_nat (prefix_bits write_spec)) (prefix write_spec) writer in
    let! writer := writeBits 1 (Z.b2z sign) writer in
    writeBits (Z.of_nat (data_bits write_spec - 1)) abs_value writer.

(** The loop of [compressDataForType]. *)
Fixpoint write_items (w : nat) (prev_value prev_delta : Z) (source : list Z) (writer : BitWriter)
  : result BitWriter :=
  match source with
  | [] => Ok writer
  | curr_value :: source =>
      let delta := uwrap (bits w) (curr_value - prev_value) in
      let double_delta := uwrap (bits w) (delta - prev_delta) in
      let! writer := write_item w double_delta writer in
      write_items w curr_value delta source writer
  end.

Definition compressDataForType (w : nat) (source : bytes) : result bytes :=
  if negb (length source mod w =? 0)%nat then Throw CANNOT_COMPRESS
  else
    let items_count := uwrap 32 (size_of source / Z.of_nat w) in
    let '(first, prev_value, prev_delta, rest) :=
      match load_values w (length source / w) source with
      | [] => ([], 0, 0, [])
      | [v] => (unalignedStore w v, v, 0, [])
      | v :: curr_value :: rest =>
          let prev_delta := uwrap (bits w) (curr_value - v) in
          (unalignedStore w v ++ unalignedStore w prev_delta, curr_value, prev_delta, rest)
      end in
    let! size := getCompressedDataSize (Z.of_nat w) (uwrap 32 (size_of source - Z.of_nat w * 2)) in
    let! writer := write_items w prev_value prev_delta rest (make_writer size) in
    let! writer := flush writer in
    Ok (unalignedStore 4 items_count ++ first ++ written writer).

(** One item of the decompression loop. *)
Definition read_item (w : nat) (reader : BitReader) : result (Z * BitReader) :=
  let! (peeked, reader) := peekByte reader in
  let write_spec := nth (Z.to_nat (Z.shiftr peeked (8 - 5))) WRITE_SPEC_LUT (spec 0 0 0) in
  let reader := skipBufferedBits (Z.of_nat (prefix_bits write_spec)) reader in
  if (data_bits write_spec =? 0)%nat then Ok (0, reader)
  else
    let! (sign, reader) := readBit reader in
    let! (v, reader) := readBits (Z.of_nat (data_bits write_spec - 1)) reader in
    let double_delta := uwrap (bits w) (v + 1) in
    Ok (if sign =? 0 then double_delta else uwrap (bits w) (- double_delta), reader).

(** The loop of [decompressDataForType]: at most [items] items are left, and
    [room] bytes of the output. *)
Fixpoint read_items (w items room : nat) (prev_value prev_delta : Z) (reader : BitReader) : result (list Z) :=
  match items with
  | O => Ok []
  | S items =>
      if reader_eof reader then Ok []
      else
        let! (double_delta, reader) := read_item w reader in
        let delta := uwrap (bits w) (double_delta + prev_delta) in
        let curr_value := uwrap (bits w) (prev_value + delta) in
        if (room <? w)%nat then Throw CANNOT_DECOMPRESS
        else
          let! out := read_items w items (room - w) curr_value (uwrap (bits w) (curr_value - prev_value)) reader in
          Ok (curr_value :: out)
  end.

Definition decompressDataForType (w : nat) (source : bytes) (output_size : nat) : result bytes :=
  if (length source <? 4)%nat then Ok []
  else
    let items_count := unalignedLoad 4 source in
    let source := drop 4 source in
    if (length source <? w)%nat || (items_count <? 1) then Ok []
    else
      let prev_value := unalignedLoad w source in
      if (output_size <? w)%nat then Throw CANNOT_DECOMPRESS
      else
        let first := unalignedStore w prev_value in
        let source := drop w source in
        if (length source <? w)%nat || (items_count <? 2) then Ok first
        else
          let prev_delta := unalignedLoad w source in
          let prev_value := uwrap (bits w) (prev_value + prev_delta) in
          if (output_size - w <? w)%nat then Throw CANNOT_DECOMPRESS
          else
            let second := unalignedStore w prev_value in
            let! out := read_items w (Z.to_nat (items_count - 2)) (output_size - w - w) prev_value prev_delta
              (make_reader (drop w source)) in
            Ok (first ++ second ++ store_values w out).

Definition sizes : list Z := [1; 2; 4; 8].

Definition doCompressData (data_bytes_size : Z) (source : bytes) : result bytes :=
  let bytes_to_skip := uwrap 8 (size_of source mod data_bytes_size) in
  let n := Z.to_nat bytes_to_skip in
  let! data := switch_size sizes data_bytes_size (fun w => compressDataForType w (drop n source)) (Ok []) in
  Ok (data_bytes_size :: bytes_to_skip :: take n source ++ data).

Definition doDecompressData (source dest : bytes) : result bytes :=
  match source with
  | bytes_size :: _ :: rest =>
      if bytes_size =? 0 then Throw CANNOT_DECOMPRESS
      else
        let bytes_to_skip := uwrap 8 (size_of dest mod bytes_size) in
        let n := Z.to_nat bytes_to_skip in
        let output_size := (length dest - n)%nat in
        if size_of source <? 2 + bytes_to_skip then Throw CANNOT_DECOMPRESS
        else
          let! skipped := slice 2 n source in
          let! out := switch_size sizes bytes_size
            (fun w => decompressDataForType w (drop n rest) output_size) (Ok []) in
          put dest (skipped ++ out)
  | _ => Throw CANNOT_DECOMPRESS
  end.

Definition getMaxCompressedDataSize (data_bytes_size uncompressed_size : Z) : result Z :=
  let! size := getCompressedDataSize data_bytes_size uncompressed_size in
  Ok (uwrap 32 (2 + data_bytes_size + getCompressedHeaderSize data_bytes_size + size)).

Definition CompressionCodecDoubleDelta (data_bytes_size : Z) : ICompressionCodec := {|
  Codec.getMethodByte := method_byte DoubleDelta;
  Codec.doCompressData := doCompressData data_bytes_size;
  Codec.doDecompressData := doDecompressData;
  Codec.getMaxCompressedDataSize size :=
    match getMaxCompressedDataSize data_bytes_size size with Ok n => n | Throw _ => 0 end;
  getAdditionalSizeAtTheEndOfBuffer := 0;
  decompression_error_code := CORRUPTED_DATA;
  full_codec_desc := setCodecDescription "DoubleDelta" [];
  traits := delta_like (compressing transformation) |}.

(** [getDataBytesSize] and the builder of [registerCodecDoubleDelta]. *)
Definition getDataBytesSize (column_type : IDataType) : result Z :=
  if negb (isValueUnambiguouslyRepresentedInFixedSizeContiguousMemoryRegion column_type) then Throw BAD_ARGUMENTS
  else
    let max_size := getSizeOfValueInMemory column_type in
    if existsb (Z.eqb max_size) sizes then Ok (uwrap 8 max_size) else Throw BAD_ARGUMENTS.

Definition codec_builder (arguments : list CodecArgument) (column_type : option IDataType)
  : result ICompressionCodec :=
  let! data_bytes_size :=
    match arguments with
    | [] => match column_type with Some column_type => getDataBytesSize column_type | None => Ok 1 end
    | [UInt64Literal user_bytes_size] =>
        if negb (existsb (Z.eqb user_bytes_size) sizes) then Throw ILLEGAL_CODEC_PARAMETER
        else Ok (uwrap 8 user_bytes_size)
    | [_] => Throw ILLEGAL_CODEC_PARAMETER
    | _ => Throw ILLEGAL_SYNTAX_FOR_CODEC_TYPE
    end in
  Ok (CompressionCodecDoubleDelta data_bytes_size).

(** * The code words *)

(** The bits of one item. *)
Definition item_code (w : nat) (double_delta : Z) : list bool :=
  if double_delta =? 0 then [false]
  else
    let signed_dd := swrap (bits w) double_delta in
    let abs_value :=
      if signed_dd =? - 2 ^ (bits w - 1) then Z.shiftr (2 ^ bits w - 1) 1
      else uwrap (bits w) (Z.abs signed_dd - 1) in
    let write_spec := getDeltaWriteSpec signed_dd in
    to_bits (prefix_bits write_spec) (prefix write_spec) ++ [signed_dd <? 0] ++
    to_bits (data_bits write_spec - 1) abs_value.

(** What the specification of a value promises. *)
Definition spec_ok (s : WriteSpec) : Prop :=
  s = spec 2 2 7 \/ s = spec 3 6 9 \/ s = spec 4 14 12 \/ s = spec 5 30 32 \/ s = spec 5 31 64.

Lemma getDeltaWriteSpec_ok v : spec_ok (getDeltaWriteSpec v).
Proof. unfold getDeltaWriteSpec, spec_ok. repeat case_match; auto 10. Qed.

Lemma spec_ok_bits s : spec_ok s -> (0 < prefix_bits s <= 5)%nat /\ (0 < data_bits s - 1 <= 64)%nat.
Proof. intros H. destruct H as [->|[->|[->|[->| ->]]]]; simpl; lia. Qed.

Lemma dd_write_item_writes w dd : writes (write_item w dd) (item_code w dd).
Proof.
  unfold write_item, item_code. change (writeBits 1) with (writeBits (Z.of_nat 1)).
  destruct (dd =? 0); [apply (writes_bits 1 0); lia|].
  set (sd := swrap (bits w) dd). set (av := if sd =? _ then _ else _). cbv zeta.
  destruct (spec_ok_bits _ (getDeltaWriteSpec_ok sd)) as [Hp Hd].
  assert (E : to_bits 1 (Z.b2z (sd <? 0)) = [sd <? 0]) by by destruct (sd <? 0). rewrite <- E.
  apply writes_bind; [apply writes_bits; lia|]. apply writes_bind; apply writes_bits; lia.
Qed.

(** The differences the compression loop writes, and their code. *)
Fixpoint items_code (w : nat) (prev_value prev_delta : Z) (source : list Z) : list bool :=
  match source with
  | [] => []
  | curr_value :: source =>
      let delta := uwrap (bits w) (curr_value - prev_value) in
      item_code w (uwrap (bits w) (delta - prev_delta)) ++ items_code w curr_value delta source
  end.

Lemma dd_write_items_writes w pv pd vs : writes (write_items w pv pd vs) (items_code w pv pd vs).
Proof.
  revert pv pd. induction vs as [|v vs IH]; intros pv pd; [apply writes_nil|].
  cbn [write_items items_code]. apply writes_bind; [apply dd_write_item_writes|apply IH].
Qed.

(** * Reading a code word *)

Lemma lut_prefix s t :
  spec_ok s -> length t = (5 - prefix_bits s)%nat ->
  nth (Z.to_nat (of_bits (to_bits (prefix_bits s) (prefix s) ++ t))) WRITE_SPEC_LUT (spec 0 0 0) = s.
Proof.
  intros H Hl. destruct H as [->|[->|[->|[->| ->]]]]; simpl in Hl;
    repeat (destruct t as [|[] t]; simpl in Hl; try lia; try reflexivity).
Qed.

Lemma lut_zero t : length t = 4%nat ->
  nth (Z.to_nat (of_bits (false :: t))) WRITE_SPEC_LUT (spec 0 0 0) = spec 1 0 0.
Proof.
  intros Hl. repeat (destruct t as [|[] t]; simpl in Hl; try lia; try reflexivity).
Qed.

(** Peeking sees a word of at most five bits at the front of the stream. *)
Lemma peek_front p s :
  (length p <= 5)%nat ->
  exists t, length t = (5 - length p)%nat /\
    Z.shiftr (of_bits (take 8 ((p ++ s) ++ replicate 8 false))) (8 - 5) = of_bits (p ++ t).
Proof.
  intros Hp. set (l := take 8 ((p ++ s) ++ replicate 8 false)).
  assert (Hl : length l = 8%nat) by (unfold l; simpl_len; lia).
  exists (drop (length p) (take 5 l)). split; [simpl_len; lia|].
  assert (E : p ++ drop (length p) (take 5 l) = take 5 l).
  { rewrite <- (take_drop (length p) (take 5 l)) at 2. f_equal.
    rewrite take_take. replace (Nat.min (length p) 5) with (length p) by lia. unfold l.
    rewrite take_take. replace (Nat.min (length p) 8) with (length p) by lia.
    by rewrite <- app_assoc, take_app_length. }
  rewrite E. rewrite <- (take_drop 5 l) at 1. rewrite of_bits_app.
  assert (Hd : length (drop 5 l) = 3%nat) by (simpl_len; lia). rewrite Hd.
  pose proof (of_bits_range (drop 5 l)) as Hr. rewrite Hd in Hr.
  rewrite Z.shiftr_div_pow2 by lia. change (8 - 5) with (Z.of_nat 3).
  rewrite Z.div_add_l, (Z.div_small (of_bits (drop 5 l))) by lia. lia.
Qed.

(** The magnitude fits its field and determines the difference with the sign. *)
Lemma abs_value_spec w dd :
  (0 < w <= 8)%nat -> in_unsigned (bits w) dd -> dd <> 0 ->
  let sd := swrap (bits w) dd in
  let av := if sd =? - 2 ^ (bits w - 1) then Z.shiftr (2 ^ bits w - 1) 1 else uwrap (bits w) (Z.abs sd - 1) in
  0 <= av < 2 ^ Z.of_nat (data_bits (getDeltaWriteSpec sd) - 1) /\
  (if sd <? 0 then uwrap (bits w) (- uwrap (bits w) (av + 1)) else uwrap (bits w) (av + 1)) = dd.
Proof.
  intros Hw Hdd Hnz sd. set (W := bits w) in *. unfold in_unsigned in Hdd.
  assert (HW : 8 <= W <= 64) by (unfold W, bits; lia). pose proof (pow2_double W ltac:(lia)) as Hpow.
  assert (Hsd : (dd < 2 ^ (W - 1) /\ sd = dd) \/ (2 ^ (W - 1) <= dd /\ sd = dd - 2 ^ W)).
  { unfold sd, swrap. rewrite Z.mod_small by lia. destruct (Z.ltb_spec dd (2 ^ (W - 1))); lia. }
  assert (Hav : (if sd =? - 2 ^ (W - 1) then Z.shiftr (2 ^ W - 1) 1 else uwrap W (Z.abs sd - 1)) = Z.abs sd - 1).
  { destruct (Z.eqb_spec sd (- 2 ^ (W - 1))) as [E|E].
    - rewrite Z.shiftr_div_pow2 by lia. change (2 ^ 1) with 2. Z.to_euclidean_division_equations; lia.
    - apply uwrap_small. unfold in_unsigned. lia. }
  cbv zeta. rewrite Hav. split.
  - assert (H63 : Z.abs sd <= 2 ^ 63).
    { assert (2 ^ (W - 1) <= 2 ^ 63) by (apply Z.pow_le_mono_r; lia). lia. }
    unfold getDeltaWriteSpec. change (int_min Int32) with (-2147483648). change (int_max Int32) with 2147483647.
    destruct (_ && _) eqn:E1; [apply andb_true_iff in E1; simpl; change (2 ^ Z.of_nat 6) with 64; lia|].
    destruct ((-255 <? sd) && _) eqn:E2; [apply andb_true_iff in E2; simpl; change (2 ^ Z.of_nat 8) with 256; lia|].
    destruct ((-2047 <? sd) && _) eqn:E3; [apply andb_true_iff in E3; simpl; change (2 ^ Z.of_nat 11) with 2048; lia|].
    destruct ((-2147483648 <? sd) && _) eqn:E4;
      [apply andb_true_iff in E4; simpl; change (2 ^ Z.of_nat 31) with 2147483648; lia|].
    simpl. change (Z.of_nat 63) with 63. lia.
  - replace (Z.abs sd - 1 + 1) with (Z.abs sd) by lia.
    rewrite (uwrap_small W (Z.abs sd)) by (unfold in_unsigned; lia).
    destruct (Z.ltb_spec sd 0); [|lia]. unfold uwrap.
    symmetry. apply (Z.mod_unique _ _ (-1)); lia.
Qed.

(** Reading undoes writing, item by item. *)
Lemma dd_read_item_code w dd r s :
  (0 < w <= 8)%nat -> in_unsigned (bits w) dd -> reader_bits r (item_code w dd ++ s) ->
  exists r', read_item w r = Ok (dd, r') /\ reader_bits r' s.
Proof.
  intros Hw Hdd Hr. unfold read_item.
  destruct (peekByte_spec r _ Hr) as (r1 & -> & Hr1 & Hc1). cbn [rbind].
  unfold item_code in *. destruct (Z.eqb_spec dd 0) as [-> |Hnz].
  { destruct (peek_front [false] s) as (t & Ht & ->); [simpl; lia|].
    rewrite (lut_zero t Ht : nth (Z.to_nat (of_bits ([false] ++ t))) _ _ = _).
    cbn [data_bits spec Nat.eqb prefix_bits]. eexists. split; [reflexivity|].
    apply (skipBufferedBits_spec r1 ([false] ++ s) 1 Hr1). simpl in Hc1. lia. }
  pose proof (abs_value_spec w dd Hw Hdd Hnz) as Hav.
  set (sd := swrap (bits w) dd) in *. set (av := if sd =? _ then _ else _) in *. cbv zeta in Hav, Hr1, Hc1 |- *.
  pose proof (getDeltaWriteSpec_ok sd) as Hok. destruct (spec_ok_bits _ Hok) as [Hp Hd].
  set (sp := getDeltaWriteSpec sd) in *. rewrite <- !app_assoc in *.
  destruct (peek_front (to_bits (prefix_bits sp) (prefix sp)) ([sd <? 0] ++ to_bits (data_bits sp - 1) av ++ s))
    as (t & Ht & E); [rewrite length_to_bits; lia|].
  rewrite <- !app_assoc in E. rewrite E. rewrite length_to_bits in Ht. rewrite (lut_prefix sp t Hok Ht).
  destruct (Nat.eqb_spec (data_bits sp) 0); [lia|].
  pose proof (skipBufferedBits_spec r1 _ (prefix_bits sp) Hr1) as Hr2.
  rewrite drop_app_length' in Hr2 by (by rewrite length_to_bits).
  destruct (readBit_value _ (sd <? 0) _ (Hr2 ltac:(simpl_len; lia))) as (r3 & -> & Hr3). cbn [rbind].
  destruct (readBits_value _ _ _ _ Hr3) as (r4 & -> & Hr4); [lia|]. cbn [rbind]. exists r4. split; [|done].
  destruct Hav as [Hrange Hval]. rewrite Z.mod_small by done. do 2 f_equal.
  destruct (sd <? 0); exact Hval.
Qed.

(** The differences of a sequence restore it. *)
Lemma restore_value W pv pd v :
  0 <= W -> in_unsigned W v -> in_unsigned W pv ->
  let dl := uwrap W (v - pv) in
  uwrap W (uwrap W (dl - pd) + pd) = dl /\ uwrap W (pv + dl) = v.
Proof.
  intros HW Hv Hpv dl. unfold dl, uwrap. split.
  - rewrite Z.add_mod_idemp_l by lia. replace ((v - pv) mod 2 ^ W - pd + pd) with ((v - pv) mod 2 ^ W) by lia.
    apply Z.mod_mod. lia.
  - rewrite Z.add_mod_idemp_r by lia. replace (pv + (v - pv)) with v by lia. by apply Z.mod_small.
Qed.

Lemma dd_item_code_nonempty w dd : (0 < length (item_code w dd))%nat.
Proof. unfold item_code. destruct (dd =? 0); [simpl; lia|]. simpl_len. lia. Qed.

Lemma dd_read_items_code w room pv pd vs r s :
  (0 < w <= 8)%nat -> is_values w vs -> in_unsigned (bits w) pv ->
  (w * length vs <= room)%nat -> reader_bits r (items_code w pv pd vs ++ s) ->
  read_items w (length vs) room pv pd r = Ok vs.
Proof.
  intros Hw Hvs. revert room pv pd r. induction Hvs as [|v vs Hv Hvs IH]; intros room pv pd r Hpv Hroom Hr; [done|].
  cbn [items_code read_items length] in *. set (dl := uwrap (bits w) (v - pv)) in *.
  assert (HW : 0 <= bits w) by (unfold bits; lia).
  rewrite (reader_eof_spec _ _ Hr). simpl_len.
  pose proof (dd_item_code_nonempty w (uwrap (bits w) (dl - pd))).
  destruct (Nat.eqb_spec (length (item_code w (uwrap (bits w) (dl - pd))) + length (items_code w v dl vs) + length s) 0); [lia|].
  rewrite <- app_assoc in Hr.
  destruct (dd_read_item_code w _ r _ Hw (uwrap_range _ _ HW) Hr) as (r' & -> & Hr'). cbn [rbind].
  destruct (restore_value (bits w) pv pd v HW Hv Hpv) as [E1 E2]. fold dl in E1, E2. rewrite E1, E2.
  destruct (Nat.ltb_spec room w); [lia|]. fold dl. rewrite IH; [done|done|lia|done].
Qed.

(** * Whole columns *)

(** The bits of a column of values. *)
Definition column_code (w : nat) (vs : list Z) : list bool :=
  match vs with
  | v :: v' :: rest => items_code w v' (uwrap (bits w) (v' - v)) rest
  | _ => []
  end.

(** The bytes before them. *)
Definition column_head (w : nat) (vs : list Z) : bytes :=
  match vs with
  | [] => []
  | [v] => unalignedStore w v
  | v :: v' :: _ => unalignedStore w v ++ unalignedStore w (uwrap (bits w) (v' - v))
  end.

Lemma dd_compressDataForType_cases w src size :
  (0 < w <= 8)%nat -> (length src mod w = 0)%nat ->
  getCompressedDataSize (Z.of_nat w) (uwrap 32 (size_of src - Z.of_nat w * 2)) = Ok size ->
  let vs := load_values w (length src / w) src in
  (refused (compressDataForType w src) /\ 8 * size < Z.of_nat (length (column_code w vs))) \/
  exists code, is_bytes code /\
    Z.of_nat (length code) = (Z.of_nat (length (column_code w vs)) + 7) / 8 /\
    (exists pad, bytes_bits code = column_code w vs ++ replicate pad false) /\
    compressDataForType w src =
      Ok (unalignedStore 4 (uwrap 32 (size_of src / Z.of_nat w)) ++ column_head w vs ++ code).
Proof.
  intros Hw Hm Hsize vs. unfold compressDataForType. rewrite Hm. cbn [Nat.eqb negb]. fold vs.
  set (head := match vs with [] => _ | _ => _ end).
  assert (Hhead : exists pv pd rest, head = (column_head w vs, pv, pd, rest) /\ column_code w vs = items_code w pv pd rest).
  { unfold head. destruct vs as [|v [|v' rest]]; simpl; repeat eexists. }
  destruct Hhead as (pv & pd & rest & -> & ->). rewrite Hsize. cbn [rbind].
  pose proof (writes_stream _ _ size (dd_write_items_writes w pv pd rest)) as Hall. cbv zeta in Hall.
  destruct (write_items w pv pd rest (make_writer size)) as [wr|e]; cbn [rbind] in *.
  - destruct Hall as [[-> ?]|(wr' & -> & H1 & H2 & H3)]; [by left|right]. by exists (written wr').
  - destruct Hall as [[[= ->] ?]|(wr' & [=] & _)]. by left.
Qed.

Lemma dd_decompress_column w vs n code pad :
  (0 < w <= 8)%nat -> is_values w vs -> is_bytes code -> n = Z.of_nat (length vs) -> n < 2 ^ 32 ->
  bytes_bits code = column_code w vs ++ replicate pad false ->
  decompressDataForType w (unalignedStore 4 n ++ column_head w vs ++ code) (w * length vs) =
  Ok (store_values w vs).
Proof.
  intros Hw Hvs Hb Hn Hn32 Hcode. unfold decompressDataForType.
  destruct (Nat.ltb_spec (length (unalignedStore 4 n ++ column_head w vs ++ code)) 4); [simpl_len; lia|].
  rewrite load_store, drop_store by (unfold in_unsigned, bits; lia).
  destruct vs as [|v vs]; [subst n; by rewrite orb_true_r|]. apply Forall_cons in Hvs as [Hv Hvs].
  assert (Hcol : exists tl, column_head w (v :: vs) = unalignedStore w v ++ tl) by (destruct vs; [exists []; by rewrite app_nil_r|eauto]).
  cbn [length] in *. destruct (Z.ltb_spec n 1); [lia|].
  destruct (Nat.ltb_spec (length (column_head w (v :: vs) ++ code)) w) as [Hlt|_].
  { destruct Hcol as [tl E]. rewrite E in Hlt. simpl_len. lia. }
  cbn [orb]. assert (Hload : unalignedLoad w (column_head w (v :: vs) ++ code) = v).
  { destruct Hcol as [tl ->]. rewrite <- app_assoc. by apply load_store. }
  rewrite Hload. destruct (Nat.ltb_spec (w * S (length vs)) w); [lia|].
  destruct vs as [|v' rest].
  { cbn [column_head length] in *. rewrite drop_store. destruct (Z.ltb_spec n 2); [|lia].
    rewrite orb_true_r. cbn [store_values]. by rewrite app_nil_r. }
  apply Forall_cons in Hvs as [Hv' Hvs]. cbn [column_head column_code length] in *.
  rewrite <- app_assoc, drop_store. set (dl := uwrap (bits w) (v' - v)) in *.
  assert (Hdl : in_unsigned (bits w) dl) by (apply uwrap_range; unfold bits; lia).
  destruct (Nat.ltb_spec (length (unalignedStore w dl ++ code)) w); [simpl_len; lia|].
  destruct (Z.ltb_spec n 2); [lia|]. cbn [orb]. rewrite load_store, drop_store by done.
  destruct (restore_value (bits w) v 0 v' ltac:(unfold bits; lia) Hv' Hv) as [_ E]. fold dl in E. rewrite E.
  destruct (Nat.ltb_spec (w * S (S (length rest)) - w) w); [lia|].
  replace (Z.to_nat (n - 2)) with (length rest) by lia.
  pose proof (make_reader_bits code Hb) as Hr. rewrite Hcode in Hr.
  rewrite (dd_read_items_code w _ v' dl rest _ (replicate pad false)); [done|done|done|done|lia|done].
Qed.

Lemma dd_compressDataForType_lossless w src data :
  (0 < w <= 8)%nat -> is_bytes src -> (length src mod w = 0)%nat -> size_of src < 2 ^ 32 ->
  compressDataForType w src = Ok data ->
  is_bytes data /\ decompressDataForType w data (length src) = Ok src.
Proof.
  intros Hw Hb Hm Hs Hc. pose proof Hc as Hc'. unfold compressDataForType in Hc'. rewrite Hm in Hc'. cbn [Nat.eqb negb] in Hc'.
  destruct (match load_values w (length src / w) src with [] => _ | _ => _ end) as [[[? ?] ?] ?] in Hc'.
  apply rbind_Ok in Hc' as (size & Hsize & _).
  destruct (dd_compressDataForType_cases w src size Hw Hm Hsize) as [[Hr _]|(code & Hcb & _ & (pad & Hpad) & E)]; [congruence|].
  set (vs := load_values w (length src / w) src) in *. rewrite E in Hc.
  apply Ok_inj in Hc as <-.
  assert (Hvs : is_values w vs) by by apply aligned_range.
  assert (Hlen : length vs = (length src / w)%nat) by apply length_load_values.
  pose proof (Nat.div_mod_eq (length src) w) as Ediv.
  split.
  - apply is_bytes_app. split; [apply le_bytes_range|]. apply is_bytes_app. split; [|done].
    destruct vs as [|v [|v' rest]]; simpl; [constructor|apply le_bytes_range|].
    apply is_bytes_app. split; apply le_bytes_range.
  - assert (Hn : uwrap 32 (size_of src / Z.of_nat w) = Z.of_nat (length vs)).
    { rewrite Hlen, Nat2Z.inj_div. apply uwrap_small. unfold in_unsigned.
      split; [apply Z.div_pos; lia|]. apply Z.div_lt_upper_bound; nia. }
    rewrite Hn. replace (length src) with (w * length vs)%nat by lia.
    rewrite (dd_decompress_column w vs _ code pad); [|done|done|done|done| |done].
    + f_equal. unfold vs. apply aligned_store_load; [lia|done|done].
    + rewrite <- Hn. apply uwrap_range. lia.
Qed.

(** The encodings of the comment in the source file. *)
Example documented_encoding :
  compressDataForType 1 [1; 2; 3; 4; 5; 6; 7; 8; 9; 10] = Ok [0x0a; 0; 0; 0; 1; 1; 0] /\
  compressDataForType 2 [0xf6; 0xff; 10; 0; 0xec; 0xff; 20; 0; 0xd8; 0xff; 40; 0] =
    Ok [6; 0; 0; 0; 0xf6; 0xff; 0x14; 0; 0xb8; 0xe2; 0x2e; 0xb1; 0xe4; 0x58].
Proof. vm_compute. done. Qed.

(** * Sizes *)

Definition spec_bits (s : WriteSpec) : Z := Z.of_nat (prefix_bits s) + Z.of_nat (data_bits s).

(** The longest code word of a value of [w] bytes. *)
Definition max_item_bits (w : nat) : Z := if (w =? 1)%nat then 12 else if (w =? 2)%nat then 37 else 69.

Lemma dd_sizes_cases size : existsb (Z.eqb size) sizes = true -> size = 1 \/ size = 2 \/ size = 4 \/ size = 8.
Proof. simpl. rewrite !orb_true_iff, !Z.eqb_eq. intuition discriminate. Qed.

Lemma getDeltaWriteSpec_bits v :
  spec_bits (getDeltaWriteSpec v) <= 69 /\
  (-2147483648 < v < 2147483647 -> spec_bits (getDeltaWriteSpec v) <= 37) /\
  (-255 < v < 256 -> spec_bits (getDeltaWriteSpec v) <= 12).
Proof.
  unfold getDeltaWriteSpec, spec_bits. change (int_min Int32) with (-2147483648). change (int_max Int32) with 2147483647.
  destruct (Z.ltb_spec (-63) v), (Z.ltb_spec v 64), (Z.ltb_spec (-255) v), (Z.ltb_spec v 256),
    (Z.ltb_spec (-2047) v), (Z.ltb_spec v 2048), (Z.ltb_spec (-2147483648) v), (Z.ltb_spec v 2147483647);
    simpl; lia.
Qed.

Lemma dd_item_code_length w dd :
  existsb (Z.eqb (Z.of_nat w)) sizes = true -> Z.of_nat (length (item_code w dd)) <= max_item_bits w.
Proof.
  intros Hw%dd_sizes_cases. unfold item_code. destruct (dd =? 0).
  { unfold max_item_bits. destruct (w =? 1)%nat, (w =? 2)%nat; simpl; lia. }
  set (sd := swrap (bits w) dd). cbv zeta. pose proof (spec_ok_bits _ (getDeltaWriteSpec_ok sd)) as [Hp Hd].
  pose proof (getDeltaWriteSpec_bits sd) as (H69 & H37 & H12). unfold spec_bits in *. simpl_len.
  pose proof (swrap_range (bits w) dd) as Hr. fold sd in Hr. unfold in_signed, bits in Hr.
  assert (w = 1 \/ w = 2 \/ w = 4 \/ w = 8)%nat as [-> | [-> |[-> | ->]]] by lia; simpl in *.
  - change (2 ^ (8 * Z.of_nat 1 - 1)) with 128 in Hr. unfold max_item_bits. simpl. lia.
  - change (2 ^ (8 * Z.of_nat 2 - 1)) with 32768 in Hr. unfold max_item_bits. simpl. lia.
  - unfold max_item_bits. simpl. lia.
  - unfold max_item_bits. simpl. lia.
Qed.

Lemma dd_items_code_length w pv pd vs :
  existsb (Z.eqb (Z.of_nat w)) sizes = true ->
  Z.of_nat (length (items_code w pv pd vs)) <= Z.of_nat (length vs) * max_item_bits w.
Proof.
  intros Hw. revert pv pd. induction vs as [|v vs IH]; intros pv pd; cbn [items_code length]; [simpl; lia|].
  set (dl := uwrap (bits w) (v - pv)). pose proof (dd_item_code_length w (uwrap (bits w) (dl - pd)) Hw).
  specialize (IH v dl). simpl_len. lia.
Qed.

Lemma getCompressedDataSize_spec size n :
  existsb (Z.eqb size) sizes = true -> 0 <= n -> n / size * 69 + 7 < 2 ^ 32 ->
  getCompressedDataSize size n = Ok ((n / size * max_item_bits (Z.to_nat size) + 7) / 8).
Proof.
  intros Hs Hn Hov. assert (Hmax : 0 <= max_item_bits (Z.to_nat size) <= 69).
  { unfold max_item_bits. repeat case_match; lia. }
  assert (Hq : 0 <= n / size) by (apply dd_sizes_cases in Hs; apply Z.div_pos; lia).
  unfold getCompressedDataSize.
  assert (exists s, getDeltaMaxWriteSpecByteSize size = Ok s /\ spec_bits s = max_item_bits (Z.to_nat size))
    as (s & -> & Hb).
  { apply dd_sizes_cases in Hs as [-> |[-> |[-> | ->]]]; eexists; split; reflexivity. }
  cbn [rbind]. unfold spec_bits in Hb. rewrite Hb. do 2 f_equal. apply uwrap_small. unfold in_unsigned. nia.
Qed.

Lemma getCompressedDataSize_nonneg size n :
  existsb (Z.eqb size) sizes = true -> exists r, getCompressedDataSize size n = Ok r /\ 0 <= r.
Proof.
  intros Hs. unfold getCompressedDataSize.
  assert (exists s, getDeltaMaxWriteSpecByteSize size = Ok s) as (s & ->).
  { apply dd_sizes_cases in Hs as [-> |[-> |[-> | ->]]]; eexists; reflexivity. }
  eexists. split; [reflexivity|]. apply Z.div_pos; [|lia]. apply uwrap_range. lia.
Qed.

Lemma column_code_length w vs :
  existsb (Z.eqb (Z.of_nat w)) sizes = true ->
  Z.of_nat (length (column_code w vs)) <= Z.of_nat (length vs - 2) * max_item_bits w.
Proof.
  intros Hw. destruct vs as [|v [|v' rest]]; [simpl; lia..|].
  cbn [column_code length]. replace (S (S (length rest)) - 2)%nat with (length rest) by lia.
  by apply dd_items_code_length.
Qed.

(** The space reserved for the bits of a column is always enough. *)
Lemma column_fits w src :
  existsb (Z.eqb (Z.of_nat w)) sizes = true -> (length src mod w = 0)%nat -> size_of src < 2 ^ 32 ->
  size_of src / Z.of_nat w * 69 + 7 < 2 ^ 32 ->
  exists size, getCompressedDataSize (Z.of_nat w) (uwrap 32 (size_of src - Z.of_nat w * 2)) = Ok size /\
    Z.of_nat (length (column_code w (load_values w (length src / w) src))) <= 8 * size.
Proof.
  intros Hw Hm Hs Hov. set (vs := load_values w (length src / w) src).
  assert (Hlen : length vs = (length src / w)%nat) by apply length_load_values.
  pose proof (dd_sizes_cases _ Hw) as Hwc. pose proof (Nat.div_mod_eq (length src) w) as Ediv.
  pose proof (column_code_length w vs Hw) as Hcode. rewrite Hlen in Hcode.
  destruct (decide (length src / w < 2)%nat) as [Hlt|Hge].
  { destruct (getCompressedDataSize_nonneg _ (uwrap 32 (size_of src - Z.of_nat w * 2)) Hw) as (r & Hr & Hpos).
    exists r. split; [done|]. replace (length src / w - 2)%nat with 0%nat in Hcode by lia. lia. }
  assert (Hsub : size_of src - Z.of_nat w * 2 = Z.of_nat (length src / w - 2) * Z.of_nat w) by nia.
  rewrite uwrap_small by (unfold in_unsigned; nia).
  assert (Hq : (size_of src - Z.of_nat w * 2) / Z.of_nat w = Z.of_nat (length src / w - 2)).
  { rewrite Hsub. apply Z.div_mul. lia. }
  assert (Hq' : size_of src / Z.of_nat w = Z.of_nat (length src / w)) by (by rewrite Nat2Z.inj_div).
  rewrite getCompressedDataSize_spec; [|done|nia|rewrite Hq; lia].
  eexists. split; [reflexivity|]. rewrite Hq, Nat2Z.id.
  set (bs := Z.of_nat (length src / w - 2) * max_item_bits w) in *. Z.to_euclidean_division_equations; lia.
Qed.

Lemma dd_compressDataForType_total w src :
  existsb (Z.eqb (Z.of_nat w)) sizes = true -> (length src mod w = 0)%nat -> size_of src < 2 ^ 32 ->
  size_of src / Z.of_nat w * 69 + 7 < 2 ^ 32 ->
  exists data, compressDataForType w src = Ok data /\
    size_of data <= 4 + 2 * Z.of_nat w + (size_of src / Z.of_nat w * max_item_bits w + 7) / 8.
Proof.
  intros Hw Hm Hs Hov. pose proof (dd_sizes_cases _ Hw) as Hwc.
  destruct (column_fits w src Hw Hm Hs Hov) as (size & Hsize & Hfit).
  destruct (dd_compressDataForType_cases w src size) as [[_ ?]|(code & _ & Hlen & _ & ->)]; [lia|done|done|lia|].
  eexists. split; [reflexivity|]. set (vs := load_values w (length src / w) src) in *.
  pose proof (column_code_length w vs Hw) as Hcode.
  assert (Hvs : length vs = (length src / w)%nat) by apply length_load_values. rewrite Hvs in Hcode.
  assert (Hhead : (length (column_head w vs) <= 2 * w)%nat).
  { destruct vs as [|v [|v' rest]]; cbn [column_head]; simpl_len; lia. }
  assert (Hmax : 0 <= max_item_bits w) by (unfold max_item_bits; repeat case_match; lia).
  assert (Hq : Z.of_nat (length src / w - 2) * max_item_bits w <= size_of src / Z.of_nat w * max_item_bits w).
  { apply Z.mul_le_mono_nonneg_r; [done|]. rewrite <- Nat2Z.inj_div. lia. }
  simpl_len. rewrite !Nat2Z.inj_add, Hlen. set (a := size_of src / Z.of_nat w * max_item_bits w) in *.
  assert ((Z.of_nat (length (column_code w vs)) + 7) / 8 <= (a + 7) / 8) by (apply Z.div_le_mono; lia). lia.
Qed.

(** * The codec *)

Lemma dd_doCompressData_lossless size src data :
  existsb (Z.eqb size) sizes = true -> is_bytes src -> size_of src < 2 ^ 32 ->
  doCompressData size src = Ok data ->
  is_bytes data /\ forall dest, length dest = length src -> doDecompressData data dest = Ok src.
Proof.
  intros Hsize Hb Hs. pose proof (dd_sizes_cases size Hsize) as Hr. unfold doCompressData.
  destruct (skips_exists size src ltac:(lia)) as (n & [Hbyte Hn Hal]). rewrite Hbyte, Nat2Z.id.
  rewrite switch_size_hit by done. intros (d & Hd & Hdata)%rbind_Ok. apply Ok_inj in Hdata as <-.
  destruct (dd_compressDataForType_lossless (Z.to_nat size) (drop n src) d) as [Hdb Hback];
    [lia|auto with bytesdb|done|simpl_len; lia|done|].
  split.
  - apply header_bytes; [lia| |done|done]. rewrite <- Hbyte. apply (uwrap_range 8). lia.
  - intros dest Hl. unfold doDecompressData. destruct (Z.eqb_spec size 0); [lia|].
    destruct (header_checks size (Z.of_nat n) src d n Hn) as (H1 & H2 & H3 & H4).
    rewrite Hl, Hbyte, Nat2Z.id, H1, H2. cbn [negb rbind]. rewrite switch_size_hit, H3 by done.
    rewrite length_drop in Hback. rewrite Hback. by apply H4.
Qed.

#[export] Instance lossless_DoubleDelta size size' :
  existsb (Z.eqb size) sizes = true ->
  LosslessCodec (CompressionCodecDoubleDelta size) (CompressionCodecDoubleDelta size') 1.
Proof.
  intros Hsize. split; simpl; [done|lia| |].
  - intros src data Hb [_ Hs%below_GiB] Hd. by apply (dd_doCompressData_lossless size src data Hsize Hb Hs Hd).
  - intros src data dest Hb _ Hs Hd Hl. by apply (dd_doCompressData_lossless size src data Hsize Hb (below_GiB _ (proj2 Hs)) Hd).
Qed.

Lemma read_item_total w r : exists v r', read_item w r = Ok (v, r').
Proof.
  unfold read_item. destruct (peekByte_total r) as (v & r1 & ->). cbn [rbind].
  set (sp := nth _ WRITE_SPEC_LUT _). destruct (_ =? 0)%nat; [eauto|].
  destruct (readBit_total (skipBufferedBits (Z.of_nat (prefix_bits sp)) r1)) as (b & r2 & ->). cbn [rbind].
  destruct (readBits_total (Z.of_nat (data_bits sp - 1)) r2) as (v' & r3 & ->). cbn [rbind]. eauto.
Qed.

Lemma dd_read_items_safe w items room pv pd r :
  match read_items w items room pv pd r with
  | Ok out => (w * length out <= room)%nat
  | Throw e => e = CANNOT_DECOMPRESS
  end.
Proof.
  revert room pv pd r. induction items as [|items IH]; intros room pv pd r; cbn [read_items]; [simpl; lia|].
  destruct (reader_eof r); [simpl; lia|]. destruct (read_item_total w r) as (dd & r' & ->). cbn [rbind].
  destruct (Nat.ltb_spec room w); [done|]. set (dl := uwrap (bits w) (dd + pd)). set (v := uwrap (bits w) (pv + dl)).
  specialize (IH (room - w)%nat v (uwrap (bits w) (v - pv)) r').
  destruct (read_items _ _ _ _ _ _); simpl; [lia|done].
Qed.

Lemma dd_decompressDataForType_safe w src n :
  match decompressDataForType w src n with
  | Ok out => (length out <= n)%nat
  | Throw e => e <> OUT_OF_BOUNDS_ACCESS
  end.
Proof.
  unfold decompressDataForType. destruct (length src <? 4)%nat; [simpl; lia|].
  set (count := unalignedLoad 4 src). destruct (_ || _); [simpl; lia|].
  destruct (Nat.ltb_spec n w); [done|]. destruct (_ || _); [simpl_len; lia|].
  destruct (Nat.ltb_spec (n - w) w); [done|].
  set (pd := unalignedLoad w (drop w (drop 4 src))). set (pv := uwrap (bits w) (_ + pd)).
  pose proof (dd_read_items_safe w (Z.to_nat (count - 2)) (n - w - w) pv pd (make_reader (drop w (drop w (drop 4 src))))) as Hs.
  destruct (read_items _ _ _ _ _ _) as [out|e]; cbn [rbind]; [simpl_len; lia|by rewrite Hs].
Qed.

#[export] Instance safe_DoubleDelta size : SafeDecoder (CompressionCodecDoubleDelta size).
Proof.
  intros source dest Hb _ _. simpl. unfold doDecompressData. destruct source as [|bytes_size [|b rest]]; [done..|].
  apply Forall_cons in Hb as [Hbs _]. destruct (Z.eqb_spec bytes_size 0) as [|Hnz]; [done|].
  set (n := Z.to_nat (uwrap 8 (size_of dest mod bytes_size))).
  assert (Hn : uwrap 8 (size_of dest mod bytes_size) = Z.of_nat n /\ (n <= length dest)%nat).
  { pose proof (Z.mod_pos_bound (size_of dest) bytes_size ltac:(lia)).
    pose proof (Z.mod_le (size_of dest) bytes_size ltac:(lia) ltac:(lia)).
    unfold n. rewrite uwrap_small by (unfold in_unsigned; lia). lia. }
  destruct Hn as [Hbyte Hn]. rewrite Hbyte.
  destruct (Z.ltb_spec (size_of (bytes_size :: b :: rest)) (2 + Z.of_nat n)); [done|].
  rewrite slice_inside by (simpl_len; lia). cbn [rbind]. unfold switch_size.
  destruct (existsb _ _); [|cbn [rbind]; apply put_safe; simpl_len; lia].
  pose proof (dd_decompressDataForType_safe (Z.to_nat bytes_size) (drop n rest) (length dest - n)) as Hs.
  destruct (decompressDataForType _ _ _) as [out|e]; [|exact Hs]. cbn [rbind]. apply put_safe. simpl_len. lia.
Qed.

(** The reserved size. *)
Lemma dd_max_size size n :
  existsb (Z.eqb size) sizes = true -> 0 <= n -> n / size * 69 + 7 < 2 ^ 32 ->
  getMaxCompressedDataSize size n = Ok (6 + 3 * size + (n / size * max_item_bits (Z.to_nat size) + 7) / 8) /\
  0 <= n / size * max_item_bits (Z.to_nat size) <= n / size * 69.
Proof.
  intros Hsize Hn Hov. pose proof (dd_sizes_cases size Hsize) as Hr.
  assert (Hmax : 0 <= n / size * max_item_bits (Z.to_nat size) <= n / size * 69).
  { assert (0 <= n / size) by (apply Z.div_pos; lia). unfold max_item_bits. repeat case_match; lia. }
  split; [|done]. unfold getMaxCompressedDataSize. rewrite getCompressedDataSize_spec by (done || lia). cbn [rbind]. f_equal.
  assert (0 <= (n / size * max_item_bits (Z.to_nat size) + 7) / 8 < 2 ^ 30) by (Z.to_euclidean_division_equations; lia).
  unfold getCompressedHeaderSize. rewrite uwrap_small by (unfold in_unsigned; lia). lia.
Qed.

(** Compression does not fail and stays within the reserved size. *)
Lemma dd_doCompressData_fits size src :
  existsb (Z.eqb size) sizes = true -> is_bytes src -> size_of src < 2 ^ 32 -> size_of src / size * 69 + 7 < 2 ^ 32 ->
  exists data max, doCompressData size src = Ok data /\ getMaxCompressedDataSize size (size_of src) = Ok max /\
    size_of data <= max.
Proof.
  intros Hsize Hb Hs Hov. pose proof (dd_sizes_cases size Hsize) as Hr.
  destruct (skips_exists size src ltac:(lia)) as (n & [Hbyte Hn Hal]).
  pose proof (Z.mod_pos_bound (size_of src) size ltac:(lia)).
  assert (Hq : size_of (drop n src) / size = size_of src / size).
  { pose proof (Z.div_mod (size_of src) size ltac:(lia)).
    rewrite uwrap_small in Hbyte by (unfold in_unsigned; lia). simpl_len. rewrite Nat2Z.inj_sub, <- Hbyte by done.
    symmetry. apply (Z.div_unique _ _ _ 0); lia. }
  destruct (dd_compressDataForType_total (Z.to_nat size) (drop n src)) as (d & Hc & Hlen);
    rewrite ?Z2Nat.id, ?Hq in * by lia; [done|done|simpl_len; lia|done|].
  destruct (dd_max_size size (size_of src)) as [-> _]; [done|lia|done|]. eexists _, _. split_and!; [|done|].
  - unfold doCompressData. rewrite Hbyte, Nat2Z.id, switch_size_hit, Hc by done. done.
  - rewrite uwrap_small in Hbyte by (unfold in_unsigned; lia). simpl_len. lia.
Qed.

#[export] Instance fits_DoubleDelta size limit :
  existsb (Z.eqb size) sizes = true -> limit <= 2 ^ 25 -> FitsReserve (CompressionCodecDoubleDelta size) limit.
Proof.
  intros Hsize Hl. pose proof (dd_sizes_cases size Hsize).
  assert (Hq : forall n, 0 < n <= limit -> 0 <= n / size <= 2 ^ 25).
  { intros n Hn. split; [apply Z.div_pos; lia|apply Z.div_le_upper_bound; lia]. }
  split; simpl; [lia| |].
  - intros src Hb Hs. pose proof (Hq _ Hs).
    destruct (dd_doCompressData_fits size src Hsize Hb) as (data & max & Hc & Hm & Hlen); [lia|lia|]. exists data. rewrite Hm.
    split_and!; [done| |done]. apply (dd_doCompressData_lossless size src data Hsize Hb); done || lia.
  - intros n m Hn Hm. pose proof (Hq n). pose proof (Hq m).
    destruct (dd_max_size size n) as [-> Hn']; [done|lia|lia|]. destruct (dd_max_size size m) as [-> Hm']; [done|lia|lia|].
    assert (Hle : n / size * max_item_bits (Z.to_nat size) <= m / size * max_item_bits (Z.to_nat size)).
    { apply Z.mul_le_mono_nonneg_r; [unfold max_item_bits; repeat case_match; lia|]. apply Z.div_le_mono; lia. }
    unfold GiB. Z.to_euclidean_division_equations; lia.
Qed.

(** * Properties *)

(** C14: DoubleDelta restores every column of 1, 2, 4 or 8 byte values, with any
    bytes in front of the first whole value: compression does not fail and
    stays within the reserved size, for columns whose bits, at most 69 per value
    of any width, can be counted in 32 bits. *)
Theorem doubleDelta_lossless (size : Z) (src dest : bytes) :
  existsb (Z.eqb size) sizes = true -> is_bytes src -> size_of src < 2 ^ 32 ->
  size_of src / size * 69 + 7 < 2 ^ 32 -> length dest = length src ->
  exists data max, doCompressData size src = Ok data /\
    getMaxCompressedDataSize size (size_of src) = Ok max /\ size_of data <= max /\
    doDecompressData data dest = Ok src.
Proof.
  intros Hsize Hb Hs Hov Hd. destruct (dd_doCompressData_fits size src Hsize Hb Hs Hov) as (data & max & Hc & Hm & Hl).
  exists data, max. split_and!; [done|done|done|]. by apply (dd_doCompressData_lossless size src _ Hsize Hb Hs Hc).
Qed.

Lemma doubleDelta_lossless_witness :
  exists data max, doCompressData 2 [7; 246; 255; 10; 0; 236; 255; 20; 0; 216; 255; 40; 0] = Ok data /\
    getMaxCompressedDataSize 2 13 = Ok max /\ size_of data <= max /\
    doDecompressData data (replicate 13 0) = Ok [7; 246; 255; 10; 0; 236; 255; 20; 0; 216; 255; 40; 0].
Proof.
  apply (doubleDelta_lossless 2 [7; 246; 255; 10; 0; 236; 255; 20; 0; 216; 255; 40; 0] (replicate 13 0));
    [reflexivity| |reflexivity|reflexivity|reflexivity].
  repeat constructor; discriminate.
Defined.
