(* ===== verification/CodecGorilla.v ===== *)
(** The codec Gorilla (src/Compression/CompressionCodecGorilla.cpp): the xor with
    the previous value, as the bits between its leading and trailing zeroes. *)
From S2P Require Import Prelude IntText BinaryIO BitIO Codec Elements CodecDelta.
Import Binary.

(** * The code *)

Definition getBitLengthOfLength (data_bytes_size : Z) : Z :=
  nth (Z.to_nat data_bytes_size) [0; 4; 5; 0; 6; 0; 0; 0; 7] 0.

Definition getCompressedHeaderSize (data_bytes_size : Z) : Z := 4 + data_bytes_size.

(** [getCompressedDataSize].  [DATA_BIT_LENGTH] and [LEADING_ZEROES_BIT_LENGTH]
    are static variables of the function: the first call of the process
    initialises them, every other call finds them ([statics]). *)
Definition getCompressedDataSize (statics : option Z) (data_bytes_size uncompressed_size : Z) : Z * option Z :=
  let items_count := uncompressed_size / data_bytes_size in
  let DATA_BIT_LENGTH :=
    match statics with Some length => length | None => getBitLengthOfLength data_bytes_size end in
  let LEADING_ZEROES_BIT_LENGTH := DATA_BIT_LENGTH - 1 in
  let max_item_size_bits := 2 + LEADING_ZEROES_BIT_LENGTH + DATA_BIT_LENGTH + data_bytes_size * 8 in
  (uwrap 32 (items_count * max_item_size_bits + 8) / 8, Some DATA_BIT_LENGTH).

Record BinaryValueInfo := { leading_zero_bits : Z; data_bits : Z; trailing_zero_bits : Z }.

Definition no_info : BinaryValueInfo :=
  {| leading_zero_bits := 0; data_bits := 0; trailing_zero_bits := 0 |}.

Definition getBinaryValueInfo (bit_size value : Z) : BinaryValueInfo :=
  let lz := getLeadingZeroBits bit_size value in
  let tz := getTrailingZeroBits bit_size value in
  {| leading_zero_bits := lz;
     data_bits := if value =? 0 then 0 else uwrap 8 (bit_size - lz - tz);
     trailing_zero_bits := tz |}.

(** The width of [curr_value ^ prev_value]: at least that of [int]. *)
Definition promoted (w : nat) : Z := Z.max 32 (bits w).

Definition DATA_BIT_LENGTH (w : nat) : Z := getBitLengthOfLength (Z.of_nat w).
Definition LEADING_ZEROES_BIT_LENGTH (w : nat) : Z := DATA_BIT_LENGTH w - 1.

(** One item of the compression loop. *)
Definition write_item (w : nat) (xored_data : Z) (prev_xored_info : BinaryValueInfo) (writer : BitWriter)
  : result (BinaryValueInfo * BitWriter) :=
  let curr_xored_info := getBinaryValueInfo (promoted w) xored_data in
  if xored_data =? 0 then
    let! writer := writeBits 1 0 writer in Ok (prev_xored_info, writer)
  else if negb (data_bits prev_xored_info =? 0)
          && (leading_zero_bits prev_xored_info <=? leading_zero_bits curr_xored_info)
          && (trailing_zero_bits prev_xored_info <=? trailing_zero_bits curr_xored_info) then
    let! writer := writeBits 2 2 writer in
    let! writer := writeBits (data_bits prev_xored_info)
      (Z.shiftr xored_data (trailing_zero_bits prev_xored_info)) writer in
    Ok (prev_xored_info, writer)
  else
    let! writer := writeBits 2 3 writer in
    let! writer := writeBits (LEADING_ZEROES_BIT_LENGTH w) (leading_zero_bits curr_xored_info) writer in
    let! writer := writeBits (DATA_BIT_LENGTH w) (data_bits curr_xored_info) writer in
    let! writer := writeBits (data_bits curr_xored_info)
      (Z.shiftr xored_data (trailing_zero_bits curr_xored_info)) writer in
    Ok (curr_xored_info, writer).

(** The loop of [compressDataForType]. *)
Fixpoint write_items (w : nat) (prev_value : Z) (prev_xored_info : BinaryValueInfo) (source : list Z)
    (writer : BitWriter) : result BitWriter :=
  match source with
  | [] => Ok writer
  | curr_value :: source =>
      let! (info, writer) := write_item w (Z.lxor curr_value prev_value) prev_xored_info writer in
      write_items w curr_value info source writer
  end.

Definition compressDataForType (w : nat) (source : bytes) (dest_size : Z) : result bytes :=
  if negb (length source mod w =? 0)%nat then Throw CANNOT_COMPRESS
  else
    let items_count := uwrap 32 (size_of source / Z.of_nat w) in
    let '(first, prev_value, rest) :=
      match load_values w (length source / w) source with
      | [] => ([], 0, [])
      | v :: rest => (unalignedStore w v, v, rest)
      end in
    let! writer := write_items w prev_value no_info rest (make_writer (dest_size - 4 - size_of first)) in
    let! writer := flush writer in
    Ok (unalignedStore 4 items_count ++ first ++ written writer).

(** One item of the decompression loop. The fields of corrupted data can add up to a
    shift by the width of the value or more, which is undefined in the code; the bits are
    shifted out here. *)
Definition read_item (w : nat) (prev_value : Z) (prev_xored_info : BinaryValueInfo) (reader : BitReader)
  : result (Z * BinaryValueInfo * BitReader) :=
  let! (bit, reader) := readBit reader in
  if bit =? 1 then
    let! (bit, reader) := readBit reader in
    let! (curr_xored_info, reader) :=
      (if bit =? 1 then
         let! (leading, reader) := readBits (LEADING_ZEROES_BIT_LENGTH w) reader in
         let! (data, reader) := readBits (DATA_BIT_LENGTH w) reader in
         let leading := uwrap 8 leading in
         let data := uwrap 8 data in
         Ok ({| leading_zero_bits := leading; data_bits := data;
                trailing_zero_bits := uwrap 8 (bits w - leading - data) |}, reader)
       else Ok (prev_xored_info, reader)) in
    if (leading_zero_bits curr_xored_info =? 0) && (data_bits curr_xored_info =? 0)
       && (trailing_zero_bits curr_xored_info =? 0) then Throw CANNOT_DECOMPRESS
    else
      let! (v, reader) := readBits (data_bits curr_xored_info) reader in
      let xored_data := uwrap (bits w) (Z.shiftl (uwrap (bits w) v) (trailing_zero_bits curr_xored_info)) in
      Ok (Z.lxor prev_value xored_data, curr_xored_info, reader)
  else Ok (prev_value, prev_xored_info, reader).

(** The loop of [decompressDataForType]: at most [items] items are left. *)
Fixpoint read_items (w items : nat) (prev_value : Z) (prev_xored_info : BinaryValueInfo) (reader : BitReader)
  : result (list Z) :=
  match items with
  | O => Ok []
  | S items =>
      if reader_eof reader then Ok []
      else
        let! (curr_value, curr_xored_info, reader) := read_item w prev_value prev_xored_info reader in
        let! out := read_items w items curr_value curr_xored_info reader in
        Ok (curr_value :: out)
  end.

Definition decompressDataForType (w : nat) (source : bytes) (dest_size : nat) : result bytes :=
  if (length source <? 4)%nat then Ok []
  else
    let items_count := unalignedLoad 4 source in
    let source := drop 4 source in
    if (length source <? w)%nat || (items_count <? 1) then Ok []
    else if Z.of_nat dest_size <? items_count * Z.of_nat w then Throw CANNOT_DECOMPRESS
    else
      let prev_value := unalignedLoad w source in
      let! out := read_items w (Z.to_nat (items_count - 1)) prev_value no_info (make_reader (drop w source)) in
      Ok (unalignedStore w prev_value ++ store_values w out).

Definition sizes : list Z := [1; 2; 4; 8].

Definition getMaxCompressedDataSize (statics : option Z) (data_bytes_size uncompressed_size : Z) : Z * option Z :=
  let '(size, statics) := getCompressedDataSize statics data_bytes_size uncompressed_size in
  (uwrap 32 (2 + data_bytes_size + getCompressedHeaderSize data_bytes_size + size), statics).

Definition doCompressData (statics : option Z) (data_bytes_size : Z) (source : bytes) : result bytes * option Z :=
  let bytes_to_skip := uwrap 8 (size_of source mod data_bytes_size) in
  let n := Z.to_nat bytes_to_skip in
  let '(compressed_size, statics) := getMaxCompressedDataSize statics data_bytes_size (size_of source) in
  (let! data := switch_size sizes data_bytes_size
     (fun w => compressDataForType w (drop n source) compressed_size) (Ok []) in
   Ok (data_bytes_size :: bytes_to_skip :: take n source ++ data), statics).

Definition doDecompressData (source dest : bytes) : result bytes :=
  match source with
  | bytes_size :: _ :: rest =>
      if bytes_size =? 0 then Throw CANNOT_DECOMPRESS
      else
        let bytes_to_skip := uwrap 8 (size_of dest mod bytes_size) in
        let n := Z.to_nat bytes_to_skip in
        if size_of source <? 2 + bytes_to_skip then Throw CANNOT_DECOMPRESS
        else if size_of dest <=? bytes_to_skip then Throw CANNOT_DECOMPRESS
        else
          let! skipped := slice 2 n source in
          let! out := switch_size sizes bytes_size
            (fun w => decompressDataForType w (drop n rest) (length dest - n)) (Throw CANNOT_DECOMPRESS) in
          put dest (skipped ++ out)
  | _ => Throw CANNOT_DECOMPRESS
  end.

(** The codec, in a process whose static variables hold [statics]. *)
Definition CompressionCodecGorilla (statics : option Z) (data_bytes_size : Z) : ICompressionCodec := {|
  Codec.getMethodByte := method_byte Gorilla;
  Codec.doCompressData source := (doCompressData statics data_bytes_size source).1;
  Codec.doDecompressData := doDecompressData;
  Codec.getMaxCompressedDataSize size := (getMaxCompressedDataSize statics data_bytes_size size).1;
  getAdditionalSizeAtTheEndOfBuffer := 0;
  decompression_error_code := CORRUPTED_DATA;
  full_codec_desc := setCodecDescription "Gorilla" [UInt64Literal data_bytes_size];
  traits := float_series (compressing transformation) |}.

(** [getDataBytesSize] and the builder of [registerCodecGorilla]. *)
Definition getDataBytesSize (column_type : IDataType) : result Z :=
  if negb (isValueUnambiguouslyRepresentedInFixedSizeContiguousMemoryRegion column_type) then Throw BAD_ARGUMENTS
  else
    let max_size := getSizeOfValueInMemory column_type in
    if existsb (Z.eqb max_size) sizes then Ok (uwrap 8 max_size) else Throw BAD_ARGUMENTS.

Definition codec_builder (statics : option Z) (arguments : list CodecArgument) (column_type : option IDataType)
  : result ICompressionCodec :=
  let! data_bytes_size :=
    match arguments with
    | [] => match column_type with Some column_type => getDataBytesSize column_type | None => Ok 1 end
    | [UInt64Literal user_bytes_size] =>
        if negb (existsb (Z.eqb user_bytes_size) sizes) then Throw ILLEGAL_CODEC_PARAMETER
        else Ok (uwrap 8 user_bytes_size)
    | [_] => Throw ILLEGAL_CODEC_PARAMETER
    | _ => Throw ILLEGAL_SYNTAX_FOR_CODEC_TYPE
    end in
  Ok (CompressionCodecGorilla statics data_bytes_size).

(** * Leading and trailing zeroes *)

Section Width.
Context (w : nat) (Hw : existsb (Z.eqb (Z.of_nat w)) sizes = true).

Lemma width_cases : (w = 1 \/ w = 2 \/ w = 4 \/ w = 8)%nat.
Proof. simpl in Hw. rewrite !orb_true_iff, !Z.eqb_eq in Hw. lia. Qed.

(** The lengths of the length fields. *)
Lemma lengths :
  0 < LEADING_ZEROES_BIT_LENGTH w /\ DATA_BIT_LENGTH w = LEADING_ZEROES_BIT_LENGTH w + 1 /\
  2 ^ LEADING_ZEROES_BIT_LENGTH w = bits w /\ 8 <= bits w <= 64 /\ bits w <= promoted w <= 64 /\
  LEADING_ZEROES_BIT_LENGTH w <= 6 /\ exists k, promoted w = bits w + k * bits w.
Proof.
  destruct width_cases as [-> |[-> |[-> | ->]]]; unfold LEADING_ZEROES_BIT_LENGTH, DATA_BIT_LENGTH, promoted, bits; simpl;
    (split_and!; try (done || lia)).
  - by exists 3.
  - by exists 1.
  - by exists 0.
  - by exists 0.
Qed.

(** The parts of a non-zero value. *)
Lemma value_info x :
  0 < x < 2 ^ bits w ->
  let i := getBinaryValueInfo (promoted w) x in
  leading_zero_bits i = promoted w - 1 - Z.log2 x /\ Z.log2 x < bits w /\
  0 <= trailing_zero_bits i <= Z.log2 x /\ (2 ^ trailing_zero_bits i | x) /\
  data_bits i = Z.log2 x + 1 - trailing_zero_bits i.
Proof.
  intros Hx. destruct lengths as (_ & _ & _ & HW & HP & _). cbn [getBinaryValueInfo leading_zero_bits data_bits trailing_zero_bits].
  assert (Hlog : 0 <= Z.log2 x < bits w).
  { split; [apply Z.log2_nonneg|]. apply Z.log2_lt_pow2; lia. }
  unfold getLeadingZeroBits, getTrailingZeroBits. destruct x as [|p|p]; [lia| |lia].
  destruct (ctz_spec p) as [Hd Hr]. cbn [Z.eqb]. split_and!; try (done || lia).
  rewrite uwrap_small by (unfold in_unsigned; lia). lia.
Qed.

(** * The code words *)

Definition reuses (x : Z) (prev : BinaryValueInfo) : bool :=
  negb (data_bits prev =? 0)
  && (leading_zero_bits prev <=? leading_zero_bits (getBinaryValueInfo (promoted w) x))
  && (trailing_zero_bits prev <=? trailing_zero_bits (getBinaryValueInfo (promoted w) x)).

Definition next_info (x : Z) (prev : BinaryValueInfo) : BinaryValueInfo :=
  if (x =? 0) || reuses x prev then prev else getBinaryValueInfo (promoted w) x.

Definition item_code (x : Z) (prev : BinaryValueInfo) : list bool :=
  if x =? 0 then [false]
  else
    let i := next_info x prev in
    let data := to_bits (Z.to_nat (data_bits i)) (Z.shiftr x (trailing_zero_bits i)) in
    if reuses x prev then [true; false] ++ data
    else [true; true] ++ to_bits (Z.to_nat (LEADING_ZEROES_BIT_LENGTH w)) (leading_zero_bits i)
         ++ to_bits (Z.to_nat (DATA_BIT_LENGTH w)) (data_bits i) ++ data.

(** What the encoder knows of the previous item. *)
Definition info_ok (i : BinaryValueInfo) : Prop :=
  data_bits i <> 0 ->
  0 < data_bits i <= bits w /\ 0 <= trailing_zero_bits i /\
  leading_zero_bits i + data_bits i + trailing_zero_bits i = promoted w.

Lemma next_info_ok x prev : 0 <= x < 2 ^ bits w -> info_ok prev -> info_ok (next_info x prev).
Proof.
  intros Hx Hp. unfold next_info. destruct (Z.eqb_spec x 0); [done|]. destruct (reuses x prev); [done|]. simpl.
  destruct (value_info x ltac:(lia)) as (E1 & H1 & H2 & H3 & E2). intros _. rewrite E1, E2. lia.
Qed.

(** The field of a non-zero item: non-empty, and wide enough for its bits. *)
Lemma item_field x prev :
  0 < x < 2 ^ bits w -> info_ok prev ->
  let i := next_info x prev in
  0 < data_bits i <= bits w /\ 0 <= trailing_zero_bits i /\
  0 <= Z.shiftr x (trailing_zero_bits i) < 2 ^ data_bits i /\
  Z.shiftl (Z.shiftr x (trailing_zero_bits i)) (trailing_zero_bits i) = x.
Proof.
  intros Hx Hp i. destruct (value_info x Hx) as (E1 & H1 & H2 & H3 & E2).
  pose proof (Z.log2_spec x ltac:(lia)) as Hlog. rewrite <- Z.add_1_r in Hlog.
  assert (Hi : 0 < data_bits i <= bits w /\ 0 <= trailing_zero_bits i /\ (2 ^ trailing_zero_bits i | x) /\
    x < 2 ^ (data_bits i + trailing_zero_bits i)).
  { unfold i, next_info. destruct (Z.eqb_spec x 0); [lia|]. destruct (reuses x prev) eqn:Er; simpl orb; cbv iota.
    - unfold reuses in Er. rewrite E1 in Er. apply andb_true_iff in Er as [Er Et%Z.leb_le].
      apply andb_true_iff in Er as [Ed%negb_true_iff%Z.eqb_neq El%Z.leb_le].
      destruct (Hp Ed) as (Hd & Ht & Hsum). split_and!; [lia|lia|lia| |].
      + eapply Z.divide_trans; [|exact H3]. exists (2 ^ (trailing_zero_bits (getBinaryValueInfo (promoted w) x) - trailing_zero_bits prev)).
        rewrite <- Z.pow_add_r by lia. f_equal. lia.
      + eapply Z.lt_le_trans; [apply Hlog|]. apply Z.pow_le_mono_r; lia.
    - rewrite E2. split_and!; [lia|lia|lia|done|]. replace (_ + _) with (Z.log2 x + 1) by lia. apply Hlog. }
  destruct Hi as (Hd & Ht & Hdiv & Hlt). split_and!; [lia|lia|done|..];
    (destruct (shift_back x (trailing_zero_bits i) (data_bits i) Ht ltac:(lia) Hdiv ltac:(lia)) as [Ha Hb]); [lia..|done].
Qed.

Lemma writes_Z n v : 0 < n <= 64 -> writes (writeBits n v) (to_bits (Z.to_nat n) v).
Proof. intros Hn. rewrite <- (Z2Nat.id n) at 1 by lia. apply writes_bits. lia. Qed.

Lemma gorilla_write_item_writes x prev :
  0 <= x < 2 ^ bits w -> info_ok prev ->
  exists f, writes f (item_code x prev) /\
    forall wr, write_item w x prev wr = (let! wr := f wr in Ok (next_info x prev, wr)).
Proof.
  intros Hx Hp. destruct lengths as (HL & HD & _ & HW & HP & HL6 & _).
  unfold write_item, item_code. fold (reuses x prev).
  destruct (Z.eqb_spec x 0) as [-> |Hnz].
  { exists (writeBits 1 0). split; [by apply (writes_Z 1 0)|]. intros wr. by unfold next_info. }
  destruct (item_field x prev ltac:(lia) Hp) as (Hd & Ht & _ & _). cbv zeta.
  assert (En : (x =? 0) = false) by lia. unfold next_info in *. rewrite En in *. simpl orb in *.
  destruct (reuses x prev); cbv iota in *.
  - exists (fun wr => let! wr := writeBits 2 2 wr in
      writeBits (data_bits prev) (Z.shiftr x (trailing_zero_bits prev)) wr). split.
    + apply (writes_bind _ _ [true; false]); [by apply (writes_Z 2 2)|apply writes_Z; lia].
    + intros wr. by destruct (writeBits 2 2 wr).
  - set (i := getBinaryValueInfo (promoted w) x) in *.
    exists (fun wr => let! wr := writeBits 2 3 wr in
      let! wr := writeBits (LEADING_ZEROES_BIT_LENGTH w) (leading_zero_bits i) wr in
      let! wr := writeBits (DATA_BIT_LENGTH w) (data_bits i) wr in
      writeBits (data_bits i) (Z.shiftr x (trailing_zero_bits i)) wr). split.
    + apply (writes_bind _ _ [true; true]); [by apply (writes_Z 2 3)|].
      apply writes_bind; [apply writes_Z; lia|]. apply writes_bind; apply writes_Z; lia.
    + intros wr. destruct (writeBits 2 3 wr) as [w1|]; [|done]. cbn [rbind].
      destruct (writeBits _ _ w1) as [w2|]; [|done]. cbn [rbind].
      by destruct (writeBits _ _ w2).
Qed.

Fixpoint items_code (prev_value : Z) (prev : BinaryValueInfo) (source : list Z) : list bool :=
  match source with
  | [] => []
  | v :: source =>
      let x := Z.lxor v prev_value in item_code x prev ++ items_code v (next_info x prev) source
  end.

Lemma gorilla_write_items_writes pv prev vs :
  in_unsigned (bits w) pv -> is_values w vs -> info_ok prev ->
  writes (write_items w pv prev vs) (items_code pv prev vs).
Proof.
  intros Hpv Hvs. revert pv prev Hpv. induction Hvs as [|v vs Hv Hvs IH]; intros pv prev Hpv Hp; [apply writes_nil|].
  cbn [write_items items_code]. set (x := Z.lxor v pv).
  assert (Hx : in_unsigned (bits w) x) by (apply lxor_range; [unfold bits; lia|done|done]).
  destruct (gorilla_write_item_writes x prev Hx Hp) as (f & Hf & Ef).
  pose proof (writes_bind _ _ _ _ Hf (IH v (next_info x prev) Hv (next_info_ok x prev Hx Hp))) as H.
  intros cap wr s Hwr. rewrite Ef. specialize (H cap wr s Hwr). cbv beta in H. revert H. by destruct (f wr).
Qed.

(** * Reading a code word *)

(** The decoder's information agrees with the encoder's, the leading zeroes
    apart, which it does not use. *)
Definition same_field (i j : BinaryValueInfo) : Prop :=
  data_bits i = data_bits j /\ trailing_zero_bits i = trailing_zero_bits j.

Lemma readBits_Z r n v s :
  reader_bits r (to_bits (Z.to_nat n) v ++ s) -> 0 <= n <= 64 ->
  exists r', readBits n r = Ok (v mod 2 ^ n, r') /\ reader_bits r' s.
Proof.
  intros Hr Hn. destruct (readBits_value r _ v s Hr ltac:(lia)) as (r' & H1 & H2).
  rewrite Z2Nat.id in H1 by lia. by exists r'.
Qed.

Lemma lxor_back a b : Z.lxor a (Z.lxor b a) = b.
Proof. rewrite Z.lxor_comm, Z.lxor_assoc, Z.lxor_nilpotent, Z.lxor_0_r. done. Qed.

(** The fields written for a new item are read back. *)
Lemma new_fields x prev :
  0 < x < 2 ^ bits w -> next_info x prev = getBinaryValueInfo (promoted w) x -> info_ok prev ->
  let i := next_info x prev in
  let lead := leading_zero_bits i mod 2 ^ LEADING_ZEROES_BIT_LENGTH w in
  data_bits i mod 2 ^ DATA_BIT_LENGTH w = data_bits i /\ 0 <= lead < 256 /\
  uwrap 8 (bits w - lead - data_bits i) = trailing_zero_bits i.
Proof.
  intros Hx Ei Hp i. destruct lengths as (HL & HD & HpL & HW & HP & HL6 & k & Hk).
  destruct (value_info x Hx) as (E1 & H1 & H2 & H3 & E2). unfold i. rewrite Ei, E1, E2, HpL. cbv zeta.
  pose proof (Z.log2_nonneg x).
  assert (Elead : (promoted w - 1 - Z.log2 x) mod bits w = bits w - 1 - Z.log2 x).
  { symmetry. apply (Z.mod_unique _ _ k); [lia|]. rewrite Hk. lia. }
  rewrite Elead. split_and!; [|lia|lia|].
  - apply Z.mod_small. rewrite HD, Z.pow_add_r, HpL by lia. lia.
  - rewrite uwrap_small by (unfold in_unsigned; lia). lia.
Qed.

Lemma gorilla_read_item_code x pv enc dec r s :
  0 <= x < 2 ^ bits w -> info_ok enc -> same_field dec enc -> reader_bits r (item_code x enc ++ s) ->
  exists dec' r', read_item w pv dec r = Ok (Z.lxor pv x, dec', r') /\
    same_field dec' (next_info x enc) /\ reader_bits r' s.
Proof.
  intros Hx Hok Hsame Hr. unfold read_item, item_code in *.
  destruct (Z.eqb_spec x 0) as [-> |Hnz].
  { destruct (readBit_value r false s Hr) as (r1 & -> & Hr1). exists dec, r1. rewrite Z.lxor_0_r. done. }
  destruct lengths as (HL & HD & HpL & HW & HP & HL6 & _).
  destruct (item_field x enc ltac:(lia) Hok) as (Hd & Ht & Hsh & Hback).
  set (i := next_info x enc) in *. cbv zeta in Hr.
  (* the last step is the same for both prefixes *)
  assert (Hlast : forall dec' r1, same_field dec' i ->
    reader_bits r1 (to_bits (Z.to_nat (data_bits i)) (Z.shiftr x (trailing_zero_bits i)) ++ s) ->
    exists dec'' r', (if (leading_zero_bits dec' =? 0) && (data_bits dec' =? 0) && (trailing_zero_bits dec' =? 0)
      then Throw CANNOT_DECOMPRESS
      else let! (v, reader) := readBits (data_bits dec') r1 in
        Ok (Z.lxor pv (uwrap (bits w) (Z.shiftl (uwrap (bits w) v) (trailing_zero_bits dec'))), dec', reader))
      = Ok (Z.lxor pv x, dec'', r') /\ same_field dec'' i /\ reader_bits r' s).
  { intros dec' r1 [Ed Et] Hr1. rewrite Ed, Et. destruct (Z.eqb_spec (data_bits i) 0); [lia|].
    rewrite andb_false_r. cbn [andb].
    destruct (readBits_Z r1 _ _ _ Hr1 ltac:(lia)) as (r2 & -> & Hr2). cbn [rbind].
    exists dec', r2. split; [|done]. do 4 f_equal. rewrite Z.mod_small by lia.
    assert (2 ^ data_bits i <= 2 ^ bits w) by (apply Z.pow_le_mono_r; lia).
    rewrite (uwrap_small _ (Z.shiftr _ _)) by (unfold in_unsigned; lia). rewrite Hback. by apply uwrap_small. }
  destruct (reuses x enc) eqn:Er; rewrite <- !app_assoc in Hr; cbn [app] in Hr.
  - destruct (readBit_value r true _ Hr) as (r1 & -> & Hr1). cbn [rbind Z.b2z Z.eqb Pos.eqb].
    destruct (readBit_value r1 false _ Hr1) as (r2 & -> & Hr2). cbn [rbind Z.b2z Z.eqb].
    apply Hlast; [|done]. unfold i, next_info. by rewrite Er, orb_true_r.
  - destruct (readBit_value r true _ Hr) as (r1 & -> & Hr1). cbn [rbind Z.b2z Z.eqb Pos.eqb].
    destruct (readBit_value r1 true _ Hr1) as (r2 & -> & Hr2). cbn [rbind Z.b2z Z.eqb Pos.eqb].
    destruct (readBits_Z r2 _ _ _ Hr2 ltac:(lia)) as (r3 & -> & Hr3). cbn [rbind].
    destruct (readBits_Z r3 _ _ _ Hr3 ltac:(lia)) as (r4 & -> & Hr4). cbn [rbind].
    assert (Ei : next_info x enc = getBinaryValueInfo (promoted w) x).
    { unfold next_info. rewrite Er. by destruct (Z.eqb_spec x 0). }
    destruct (new_fields x enc ltac:(lia) Ei Hok) as (F1 & F2 & F3). fold i in F1, F2, F3.
    apply Hlast; [|done]. unfold same_field; cbn [data_bits trailing_zero_bits].
    rewrite F1, (uwrap_small 8 (data_bits i)), (uwrap_small 8 (_ mod _)) by (unfold in_unsigned; lia).
    split; [done|exact F3].
Qed.

Lemma gorilla_item_code_nonempty x prev : (0 < length (item_code x prev))%nat.
Proof. unfold item_code. destruct (x =? 0); [simpl; lia|]. cbv zeta. destruct (reuses x prev); simpl; lia. Qed.

Lemma gorilla_read_items_code pv enc dec vs r s :
  in_unsigned (bits w) pv -> is_values w vs -> info_ok enc -> same_field dec enc ->
  reader_bits r (items_code pv enc vs ++ s) ->
  read_items w (length vs) pv dec r = Ok vs.
Proof.
  intros Hpv Hvs. revert pv enc dec r Hpv. induction Hvs as [|v vs Hv Hvs IH]; intros pv enc dec r Hpv Hok Hsame Hr; [done|].
  cbn [read_items items_code length] in *. set (x := Z.lxor v pv) in *.
  assert (Hx : in_unsigned (bits w) x) by (apply lxor_range; [unfold bits; lia|done|done]).
  rewrite (reader_eof_spec _ _ Hr). pose proof (gorilla_item_code_nonempty x enc). simpl_len.
  destruct (Nat.eqb_spec (length (item_code x enc) + length (items_code v (next_info x enc) vs) + length s) 0); [lia|].
  rewrite <- app_assoc in Hr.
  destruct (gorilla_read_item_code x pv enc dec r _ Hx Hok Hsame Hr) as (dec' & r' & -> & Hsame' & Hr'). cbn [rbind].
  rewrite (lxor_back pv v : Z.lxor pv x = v).
  rewrite (IH v (next_info x enc) dec' r'); [done|done|by apply next_info_ok|done|done].
Qed.

(** * Sizes *)

Definition max_item_bits : Z := 2 + LEADING_ZEROES_BIT_LENGTH w + DATA_BIT_LENGTH w + bits w.

Lemma gorilla_item_code_length x prev :
  0 <= x < 2 ^ bits w -> info_ok prev -> Z.of_nat (length (item_code x prev)) <= max_item_bits.
Proof.
  intros Hx Hp. destruct lengths as (HL & HD & _ & HW & _). unfold item_code, max_item_bits.
  destruct (Z.eqb_spec x 0); [simpl; lia|]. destruct (item_field x prev ltac:(lia) Hp) as (Hd & _). cbv zeta.
  destruct (reuses x prev); simpl_len; lia.
Qed.

Lemma gorilla_items_code_length pv prev vs :
  in_unsigned (bits w) pv -> is_values w vs -> info_ok prev ->
  Z.of_nat (length (items_code pv prev vs)) <= Z.of_nat (length vs) * max_item_bits.
Proof.
  intros Hpv Hvs. revert pv prev Hpv. induction Hvs as [|v vs Hv Hvs IH]; intros pv prev Hpv Hp; cbn [items_code length]; [simpl; lia|].
  set (x := Z.lxor v pv).
  assert (Hx : in_unsigned (bits w) x) by (apply lxor_range; [unfold bits; lia|done|done]).
  pose proof (gorilla_item_code_length x prev Hx Hp). specialize (IH v _ Hv (next_info_ok x prev Hx Hp)). simpl_len. lia.
Qed.

(** * Whole columns *)

Lemma no_info_ok : info_ok no_info.
Proof. intros H. by destruct H. Qed.

Definition column_code (vs : list Z) : list bool :=
  match vs with [] => [] | v :: rest => items_code v no_info rest end.

Definition column_head (vs : list Z) : bytes :=
  match vs with [] => [] | v :: _ => unalignedStore w v end.

Lemma gorilla_compressDataForType_cases src dest_size :
  is_bytes src -> (length src mod w = 0)%nat ->
  let vs := load_values w (length src / w) src in
  let size := dest_size - 4 - size_of (column_head vs) in
  (refused (compressDataForType w src dest_size) /\ 8 * size < Z.of_nat (length (column_code vs))) \/
  exists code, is_bytes code /\
    Z.of_nat (length code) = (Z.of_nat (length (column_code vs)) + 7) / 8 /\
    (exists pad, bytes_bits code = column_code vs ++ replicate pad false) /\
    compressDataForType w src dest_size =
      Ok (unalignedStore 4 (uwrap 32 (size_of src / Z.of_nat w)) ++ column_head vs ++ code).
Proof.
  intros Hb Hm vs size. unfold compressDataForType. rewrite Hm. cbn [Nat.eqb negb]. fold vs.
  pose proof (aligned_range w src Hb) as Hvs. fold vs in Hvs.
  set (head := match vs with [] => _ | _ => _ end).
  assert (Hhead : exists pv rest, head = (column_head vs, pv, rest) /\ column_code vs = items_code pv no_info rest /\
    in_unsigned (bits w) pv /\ is_values w rest).
  { unfold head. destruct Hvs as [|v rest Hv Hrest]; simpl; [exists 0, []|exists v, rest]; (split_and!; try done).
    - unfold in_unsigned, bits. split; [lia|]. apply Z.pow_pos_nonneg; lia.
    - constructor. }
  destruct Hhead as (pv & rest & -> & -> & Hpv & Hrest). fold size.
  pose proof (writes_stream _ _ size (gorilla_write_items_writes pv no_info rest Hpv Hrest no_info_ok)) as Hall. cbv zeta in Hall.
  destruct (write_items w pv no_info rest (make_writer size)) as [wr|e]; cbn [rbind] in *.
  - destruct Hall as [[-> ?]|(wr' & -> & H1 & H2 & H3)]; [by left|right]. by exists (written wr').
  - destruct Hall as [[[= ->] ?]|(wr' & [=] & _)]. by left.
Qed.

Lemma gorilla_decompress_column vs n code pad :
  is_values w vs -> is_bytes code -> n = Z.of_nat (length vs) -> n < 2 ^ 32 ->
  bytes_bits code = column_code vs ++ replicate pad false ->
  decompressDataForType w (unalignedStore 4 n ++ column_head vs ++ code) (w * length vs) = Ok (store_values w vs).
Proof.
  intros Hvs Hb Hn Hn32 Hcode. pose proof width_cases as Hwc. unfold decompressDataForType.
  destruct (Nat.ltb_spec (length (unalignedStore 4 n ++ column_head vs ++ code)) 4); [simpl_len; lia|].
  rewrite load_store, drop_store by (unfold in_unsigned, bits; lia).
  destruct Hvs as [|v vs Hv Hvs]; [subst n; by rewrite orb_true_r|]. cbn [column_head column_code length] in *.
  destruct (Nat.ltb_spec (length (unalignedStore w v ++ code)) w); [simpl_len; lia|].
  destruct (Z.ltb_spec n 1); [lia|]. cbn [orb].
  destruct (Z.ltb_spec (Z.of_nat (w * S (length vs))) (n * Z.of_nat w)); [lia|].
  rewrite load_store, drop_store by done. replace (Z.to_nat (n - 1)) with (length vs) by lia.
  pose proof (make_reader_bits code Hb) as Hr. rewrite Hcode in Hr.
  by rewrite (gorilla_read_items_code v no_info no_info vs _ _ Hv Hvs no_info_ok (conj eq_refl eq_refl) Hr).
Qed.

Lemma gorilla_compressDataForType_lossless src dest_size data :
  is_bytes src -> (length src mod w = 0)%nat -> size_of src < 2 ^ 32 ->
  compressDataForType w src dest_size = Ok data ->
  is_bytes data /\ decompressDataForType w data (length src) = Ok src.
Proof.
  intros Hb Hm Hs Hc. pose proof width_cases as Hwc.
  destruct (gorilla_compressDataForType_cases src dest_size Hb Hm) as [[Hr _]|(code & Hcb & _ & (pad & Hpad) & E)]; [congruence|].
  set (vs := load_values w (length src / w) src) in *. rewrite E in Hc. apply Ok_inj in Hc as <-.
  assert (Hvs : is_values w vs) by by apply aligned_range.
  assert (Hlen : length vs = (length src / w)%nat) by apply length_load_values.
  pose proof (Nat.div_mod_eq (length src) w) as Ediv. split.
  - apply is_bytes_app. split; [apply le_bytes_range|]. apply is_bytes_app. split; [|done].
    destruct vs; [constructor|apply le_bytes_range].
  - assert (Hn : uwrap 32 (size_of src / Z.of_nat w) = Z.of_nat (length vs)).
    { rewrite Hlen, Nat2Z.inj_div. apply uwrap_small. unfold in_unsigned.
      split; [apply Z.div_pos; lia|]. apply Z.div_lt_upper_bound; nia. }
    rewrite Hn. replace (length src) with (w * length vs)%nat by (rewrite Hlen; lia).
    rewrite (gorilla_decompress_column vs _ code pad); [|done|done|done| |done].
    + f_equal. unfold vs. apply aligned_store_load; [lia|done|done].
    + rewrite <- Hn. apply uwrap_range. lia.
Qed.

Lemma max_item_bits_nonneg : 0 <= max_item_bits.
Proof. destruct lengths as (HL & HD & _ & HW & _). unfold max_item_bits. lia. Qed.

(** With enough room the column is compressed. *)
Lemma gorilla_compressDataForType_total src dest_size :
  is_bytes src -> (length src mod w = 0)%nat ->
  size_of src / Z.of_nat w * max_item_bits <= 8 * (dest_size - 4 - Z.of_nat w) ->
  exists data, compressDataForType w src dest_size = Ok data /\
    size_of data <= 4 + Z.of_nat w + (size_of src / Z.of_nat w * max_item_bits + 7) / 8.
Proof.
  intros Hb Hm Hroom. pose proof max_item_bits_nonneg as Hmax.
  pose proof (gorilla_compressDataForType_cases src dest_size Hb Hm) as Hcases. cbv zeta in Hcases.
  set (vs := load_values w (length src / w) src) in *.
  assert (Hvals : is_values w vs) by by apply aligned_range.
  assert (Hvs : Z.of_nat (length vs) = size_of src / Z.of_nat w).
  { unfold vs. by rewrite length_load_values, Nat2Z.inj_div. }
  assert (Hcode : Z.of_nat (length (column_code vs)) <= Z.of_nat (length vs) * max_item_bits).
  { destruct Hvals as [|v rest Hv Hrest]; [simpl; lia|]. cbn [column_code length].
    pose proof (gorilla_items_code_length v no_info rest Hv Hrest no_info_ok). lia. }
  assert (Hhead : (length (column_head vs) <= w)%nat) by (destruct vs; simpl; simpl_len; lia).
  rewrite Hvs in Hcode. destruct Hcases as [[_ ?]|(code & _ & Hlen & _ & ->)]; [lia|].
  eexists. split; [reflexivity|]. simpl_len. rewrite !Nat2Z.inj_add, Hlen.
  set (a := size_of src / Z.of_nat w * max_item_bits) in *.
  assert ((Z.of_nat (length (column_code vs)) + 7) / 8 <= (a + 7) / 8) by (apply Z.div_le_mono; lia). lia.
Qed.

End Width.

(** * The codec *)

Lemma gorilla_sizes_cases size : existsb (Z.eqb size) sizes = true -> size = 1 \/ size = 2 \/ size = 4 \/ size = 8.
Proof. simpl. rewrite !orb_true_iff, !Z.eqb_eq. intuition discriminate. Qed.

Lemma sizes_nat size : existsb (Z.eqb size) sizes = true -> existsb (Z.eqb (Z.of_nat (Z.to_nat size))) sizes = true.
Proof. intros H. pose proof (gorilla_sizes_cases size H). by rewrite Z2Nat.id by lia. Qed.

Lemma gorilla_doCompressData_lossless statics size src data :
  existsb (Z.eqb size) sizes = true -> is_bytes src -> size_of src < 2 ^ 32 ->
  (doCompressData statics size src).1 = Ok data ->
  is_bytes data /\
  (size <= size_of src -> forall dest, length dest = length src -> doDecompressData data dest = Ok src).
Proof.
  intros Hsize Hb Hs. pose proof (gorilla_sizes_cases size Hsize) as Hr. unfold doCompressData.
  destruct (getMaxCompressedDataSize statics size (size_of src)) as [csize statics'].
  destruct (skips_exists size src ltac:(lia)) as (n & [Hbyte Hn Hal]). rewrite Hbyte, Nat2Z.id.
  rewrite switch_size_hit by done. cbn [fst]. intros (d & Hd & Hdata)%rbind_Ok. apply Ok_inj in Hdata as <-.
  destruct (gorilla_compressDataForType_lossless (Z.to_nat size) (sizes_nat size Hsize) (drop n src) csize d) as [Hdb Hback];
    [auto with bytesdb|done|simpl_len; lia|done|].
  split.
  - apply header_bytes; [lia| |done|done]. rewrite <- Hbyte. apply (uwrap_range 8). lia.
  - intros Hpos dest Hl. unfold doDecompressData. destruct (Z.eqb_spec size 0); [lia|].
    destruct (header_checks size (Z.of_nat n) src d n Hn) as (H1 & H2 & H3 & H4).
    rewrite Hl, Hbyte, Nat2Z.id, H1.
    assert (Hskip : Z.of_nat n < size).
    { rewrite <- Hbyte, uwrap_small; pose proof (Z.mod_pos_bound (size_of src) size); unfold in_unsigned; lia. }
    destruct (Z.leb_spec (size_of src) (Z.of_nat n)); [lia|].
    rewrite H2. cbn [negb rbind]. rewrite switch_size_hit, H3 by done.
    rewrite length_drop in Hback. rewrite Hback. by apply H4.
Qed.

#[export] Instance lossless_Gorilla statics statics' size size' :
  existsb (Z.eqb size) sizes = true ->
  LosslessCodec (CompressionCodecGorilla statics size) (CompressionCodecGorilla statics' size') size.
Proof.
  intros Hsize. split; simpl; [done|lia| |].
  - intros src data Hb [_ Hs%below_GiB] Hd. by apply (gorilla_doCompressData_lossless statics size src data Hsize Hb Hs Hd).
  - intros src data dest Hb Hmin Hs Hd Hl.
    by apply (gorilla_doCompressData_lossless statics size src data Hsize Hb (below_GiB _ (proj2 Hs)) Hd).
Qed.

(** ** Corrupted data *)

Lemma read_item_safe w pv info r :
  (exists v i r', read_item w pv info r = Ok (v, i, r')) \/ read_item w pv info r = Throw CANNOT_DECOMPRESS.
Proof.
  unfold read_item. destruct (readBit_total r) as (b & r1 & ->). cbn [rbind]. destruct (b =? 1); [|left; eauto].
  destruct (readBit_total r1) as (b' & r2 & ->). cbn [rbind].
  assert (exists i r3, (if b' =? 1 then
      let! (leading, reader) := readBits (LEADING_ZEROES_BIT_LENGTH w) r2 in
      let! (data, reader) := readBits (DATA_BIT_LENGTH w) reader in
      Ok ({| leading_zero_bits := uwrap 8 leading; data_bits := uwrap 8 data;
             trailing_zero_bits := uwrap 8 (bits w - uwrap 8 leading - uwrap 8 data) |}, reader)
    else Ok (info, r2)) = Ok (i, r3)) as (i & r3 & E).
  { destruct (b' =? 1); [|eauto].
    destruct (readBits_total (LEADING_ZEROES_BIT_LENGTH w) r2) as (l & r3 & ->). cbn [rbind].
    destruct (readBits_total (DATA_BIT_LENGTH w) r3) as (d & r4 & ->). cbn [rbind]. eauto. }
  cbv zeta. rewrite E. cbn [rbind]. destruct (_ && _ && _); [by right|left].
  destruct (readBits_total (data_bits i) r3) as (v & r4 & ->). cbn [rbind]. eauto.
Qed.

Lemma gorilla_read_items_safe w items pv info r :
  match read_items w items pv info r with
  | Ok out => (length out <= items)%nat
  | Throw e => e = CANNOT_DECOMPRESS
  end.
Proof.
  revert pv info r. induction items as [|items IH]; intros pv info r; cbn [read_items]; [simpl; lia|].
  destruct (reader_eof r); [simpl; lia|].
  destruct (read_item_safe w pv info r) as [(v & i & r' & ->)| ->]; [|done]. cbn [rbind].
  specialize (IH v i r'). destruct (read_items _ _ _ _ _); simpl; [lia|done].
Qed.

Lemma gorilla_decompressDataForType_safe w src n :
  match decompressDataForType w src n with
  | Ok out => (length out <= n)%nat
  | Throw e => e <> OUT_OF_BOUNDS_ACCESS
  end.
Proof.
  unfold decompressDataForType. destruct (length src <? 4)%nat; [simpl; lia|].
  set (count := unalignedLoad 4 src). destruct (Nat.ltb_spec (length (drop 4 src)) w); [simpl; lia|].
  destruct (Z.ltb_spec count 1); [simpl; lia|]. cbn [orb].
  destruct (Z.ltb_spec (Z.of_nat n) (count * Z.of_nat w)); [done|].
  pose proof (gorilla_read_items_safe w (Z.to_nat (count - 1)) (unalignedLoad w (drop 4 src)) no_info
    (make_reader (drop w (drop 4 src)))) as Hs.
  destruct (read_items _ _ _ _ _) as [out|e]; cbn [rbind]; [|by rewrite Hs]. simpl_len. nia.
Qed.

#[export] Instance safe_Gorilla statics size : SafeDecoder (CompressionCodecGorilla statics size).
Proof.
  intros source dest Hb _ _. simpl. unfold doDecompressData. destruct source as [|bytes_size [|b rest]]; [done..|].
  apply Forall_cons in Hb as [Hbs _]. destruct (Z.eqb_spec bytes_size 0) as [|Hnz]; [done|].
  set (n := Z.to_nat (uwrap 8 (size_of dest mod bytes_size))).
  assert (Hbyte : uwrap 8 (size_of dest mod bytes_size) = Z.of_nat n).
  { unfold n. pose proof (uwrap_range 8 (size_of dest mod bytes_size)). unfold in_unsigned in *. lia. }
  rewrite Hbyte. destruct (Z.ltb_spec (size_of (bytes_size :: b :: rest)) (2 + Z.of_nat n)); [done|].
  destruct (Z.leb_spec (size_of dest) (Z.of_nat n)); [done|].
  rewrite slice_inside by (simpl_len; lia). cbn [rbind]. unfold switch_size.
  destruct (existsb _ _); [|done].
  pose proof (gorilla_decompressDataForType_safe (Z.to_nat bytes_size) (drop n rest) (length dest - n)) as Hs.
  destruct (decompressDataForType _ _ _) as [out|e]; [|exact Hs]. cbn [rbind]. apply put_safe. simpl_len. lia.
Qed.

(** * Properties *)

(** The static length is at least the one the values need. *)
Definition statics_enough (statics : option Z) (size : Z) : Prop :=
  match statics with Some length => getBitLengthOfLength size <= length <= 7 | None => True end.

Lemma getCompressedDataSize_enough statics size n :
  existsb (Z.eqb size) sizes = true -> statics_enough statics size -> 0 <= n -> n / size * 79 + 8 < 2 ^ 32 ->
  n / size * max_item_bits (Z.to_nat size) + 1 <= 8 * (getCompressedDataSize statics size n).1 <= n / size * 79 + 8 /\
  0 <= (getCompressedDataSize statics size n).1.
Proof.
  intros Hs Hst Hn Hov. pose proof (gorilla_sizes_cases size Hs) as Hc.
  assert (Hq : 0 <= n / size) by (apply Z.div_pos; lia). unfold getCompressedDataSize. cbn [fst].
  set (k := match statics with Some _ => _ | None => _ end).
  assert (Hk : getBitLengthOfLength size <= k <= 7).
  { unfold k. destruct statics; [done|]. destruct Hc as [-> |[-> |[-> | ->]]]; vm_compute; split; congruence. }
  assert (Hm : max_item_bits (Z.to_nat size) <= 2 + (k - 1) + k + size * 8 <= 79).
  { unfold max_item_bits, LEADING_ZEROES_BIT_LENGTH, DATA_BIT_LENGTH, bits. rewrite Z2Nat.id by lia. lia. }
  assert (0 <= max_item_bits (Z.to_nat size)).
  { destruct Hc as [-> |[-> |[-> | ->]]]; vm_compute; congruence. }
  set (m := 2 + (k - 1) + k + size * 8) in *. rewrite uwrap_small by (unfold in_unsigned; nia).
  assert (n / size * max_item_bits (Z.to_nat size) <= n / size * m) by nia.
  assert (n / size * m <= n / size * 79) by nia. set (a := n / size * m) in *.
  Z.to_euclidean_division_equations; lia.
Qed.

(** C15: Gorilla restores every column of 1, 2, 4 or 8 byte values of at least
    one whole value, with any bytes in front of the first one, and stays within
    the reserved size, if the static length of [getCompressedDataSize] is at
    least the one its values need, and the bits of the column, at most 79 per
    value, can be counted in 32 bits. *)
Theorem gorilla_lossless (statics : option Z) (size : Z) (src dest : bytes) :
  existsb (Z.eqb size) sizes = true -> statics_enough statics size -> is_bytes src ->
  size <= size_of src < 2 ^ 32 -> size_of src / size * 79 + 8 < 2 ^ 32 -> length dest = length src ->
  exists data, (doCompressData statics size src).1 = Ok data /\
    size_of data <= (getMaxCompressedDataSize statics size (size_of src)).1 /\
    doDecompressData data dest = Ok src.
Proof.
  intros Hsize Hst Hb Hs Hov Hd. pose proof (gorilla_sizes_cases size Hsize) as Hr.
  destruct (skips_exists size src ltac:(lia)) as (n & [Hbyte Hn Hal]).
  pose proof (Z.mod_pos_bound (size_of src) size ltac:(lia)) as Hmod.
  assert (Hnz : Z.of_nat n = size_of src mod size) by (rewrite <- Hbyte; apply uwrap_small; unfold in_unsigned; lia).
  assert (Hq : size_of (drop n src) / size = size_of src / size).
  { pose proof (Z.div_mod (size_of src) size ltac:(lia)). simpl_len. rewrite Nat2Z.inj_sub, Hnz by done.
    symmetry. apply (Z.div_unique _ _ _ 0); lia. }
  pose proof (getCompressedDataSize_enough statics size (size_of src) Hsize Hst ltac:(lia) Hov) as Hen.
  set (dsize := (getCompressedDataSize statics size (size_of src)).1) in *.
  assert (Hres : (getMaxCompressedDataSize statics size (size_of src)).1 = 6 + 2 * size + dsize).
  { unfold getMaxCompressedDataSize, getCompressedHeaderSize. unfold dsize in *.
    destruct (getCompressedDataSize statics size (size_of src)) as [dsize' st]. cbn [fst] in *.
    rewrite uwrap_small; unfold in_unsigned; lia. }
  destruct (gorilla_compressDataForType_total (Z.to_nat size) (sizes_nat size Hsize) (drop n src) (6 + 2 * size + dsize))
    as (d & Hc & Hlen); [auto with bytesdb|done|rewrite Z2Nat.id, Hq by lia; lia|].
  rewrite Z2Nat.id, Hq in Hlen by lia.
  assert (Hdata : (doCompressData statics size src).1 = Ok (size :: Z.of_nat n :: take n src ++ d)).
  { unfold doCompressData. destruct (getMaxCompressedDataSize statics size (size_of src)) as [m st]. cbn [fst] in Hres.
    rewrite Hres. cbn [fst]. rewrite Hbyte, Nat2Z.id, switch_size_hit, Hc by done. done. }
  eexists. split; [exact Hdata|]. split.
  - rewrite Hres. simpl_len. set (a := size_of src / size * max_item_bits (Z.to_nat size)) in *.
    assert ((a + 7) / 8 <= dsize) by (Z.to_euclidean_division_equations; lia). lia.
  - apply (gorilla_doCompressData_lossless statics size src _ Hsize Hb ltac:(lia) Hdata); [lia|done].
Qed.

Lemma gorilla_lossless_witness :
  exists data, (doCompressData (Some 7) 2 [1; 2; 3; 4; 5; 3; 4]).1 = Ok data /\
    size_of data <= (getMaxCompressedDataSize (Some 7) 2 7).1 /\
    doDecompressData data (replicate 7 0) = Ok [1; 2; 3; 4; 5; 3; 4].
Proof.
  apply (gorilla_lossless (Some 7) 2 [1; 2; 3; 4; 5; 3; 4] (replicate 7 0));
    [reflexivity|vm_compute; split; discriminate| |split; [discriminate|reflexivity]|reflexivity|reflexivity].
  repeat constructor; discriminate.
Defined.

(** Sixty 8-byte values whose differences never reuse the previous field. *)
Fixpoint zigzag_values (n : nat) (v : Z) (flip : bool) : list Z :=
  match n with
  | O => []
  | S n => v :: zigzag_values n (Z.lxor v (if flip then 2 ^ 63 - 1 else 2 ^ 64 - 2)) (negb flip)
  end.

Definition zigzag_column : bytes := store_values 8 (zigzag_values 60 0 true).

(** The reserved size depends on the first column the process compressed:
    a process that starts with a column of one byte keeps the shorter static
    length, and then fails to compress a column of 8-byte values that it
    compresses, and restores, when it starts with that column. *)
Theorem gorilla_static_length :
  (doCompressData None 1 [0]).2 = Some 4 /\
  (doCompressData (Some 4) 8 zigzag_column).1 = Throw CANNOT_WRITE_AFTER_END_OF_BUFFER /\
  (let! data := (doCompressData None 8 zigzag_column).1 in doDecompressData data (replicate 480 0))
    = Ok zigzag_column.
Proof. split_and!; vm_compute; reflexivity. Qed.

(** data shorter than one value is compressed, but the result is refused
    by decompression. *)
Theorem gorilla_short_data (statics : option Z) (size : Z) (src dest : bytes) :
  existsb (Z.eqb size) sizes = true -> statics_enough statics size -> is_bytes src ->
  0 < size_of src < size -> length dest = length src ->
  exists data, (doCompressData statics size src).1 = Ok data /\
    doDecompressData data dest = Throw CANNOT_DECOMPRESS.
Proof.
  intros Hsize Hst Hb Hs Hd. pose proof (gorilla_sizes_cases size Hsize) as Hr.
  assert (Hbyte : uwrap 8 (size_of src mod size) = size_of src).
  { rewrite Z.mod_small by lia. apply uwrap_small. unfold in_unsigned. lia. }
  unfold doCompressData. destruct (getMaxCompressedDataSize statics size (size_of src)) as [m st] eqn:Em.
  assert (Hm : 6 + 2 * size <= m).
  { unfold getMaxCompressedDataSize in Em.
    pose proof (getCompressedDataSize_enough statics size (size_of src) Hsize Hst ltac:(lia)) as Hen.
    rewrite Z.div_small in Hen by lia. specialize (Hen ltac:(lia)).
    destruct (getCompressedDataSize statics size (size_of src)) as [ds st']. injection Em as <- _. cbn [fst] in Hen.
    unfold getCompressedHeaderSize. rewrite uwrap_small by (unfold in_unsigned; lia). lia. }
  cbn [fst]. rewrite Hbyte, Nat2Z.id, switch_size_hit, drop_ge, take_ge by (done || lia).
  destruct (gorilla_compressDataForType_total (Z.to_nat size) (sizes_nat size Hsize) [] m) as (d & -> & _);
    [constructor|apply Nat.Div0.mod_0_l|simpl; rewrite Zdiv_0_l; lia|].
  eexists. split; [reflexivity|]. unfold doDecompressData. destruct (Z.eqb_spec size 0); [lia|].
  rewrite Hd, Hbyte. destruct (_ <? _); [done|]. by rewrite Z.leb_refl.
Qed.

Lemma gorilla_short_data_witness :
  exists data, (doCompressData None 8 [0; 0; 128; 63]).1 = Ok data /\
    doDecompressData data [0; 0; 0; 0] = Throw CANNOT_DECOMPRESS.
Proof.
  apply (gorilla_short_data None 8 [0; 0; 128; 63] [0; 0; 0; 0]);
    [reflexivity|exact I| |split; reflexivity|reflexivity].
  repeat constructor; discriminate.
Defined.

(** A corrupted item of 64 bits, whose 63 leading bits and 2 bits of data leave -1 bits
    after them: the data is shifted by 255. *)
Example gorilla_undefined_shift :
  match read_item 8 0 no_info (make_reader [255; 5; 128; 0; 0; 0; 0; 0]) with
  | Ok (value, info, _) => value = 0 /\ info = {| leading_zero_bits := 63; data_bits := 2; trailing_zero_bits := 255 |}
  | Throw _ => False
  end.
Proof. vm_compute. repeat split. Qed.
