(* ===== verification/CodecT64.v ===== *)
(** The codec T64 (src/Compression/CompressionCodecT64.cpp): blocks of 64 integers
    as a transposed matrix, without the bits all of them share. *)
From S2P Require Import Prelude IntText BinaryIO Codec Elements CodecDelta.
Import Binary.

(** * The code *)

(** [Variant] *)
Inductive Variant := Byte | Bit.

(** [serializeTypeId]: the magic number of a type. *)
Definition serializeTypeId (type_id : option TypeIndex.t) : result Z :=
  match type_id with
  | None => Throw CANNOT_COMPRESS
  | Some type_id =>
      match type_id with
      | TypeIndex.UInt8 => Ok 1 | TypeIndex.UInt16 => Ok 2 | TypeIndex.UInt32 => Ok 3 | TypeIndex.UInt64 => Ok 4
      | TypeIndex.Int8 => Ok 6 | TypeIndex.Int16 => Ok 7 | TypeIndex.Int32 => Ok 8 | TypeIndex.Int64 => Ok 9
      | TypeIndex.Date => Ok 13 | TypeIndex.Date32 => Ok 22 | TypeIndex.DateTime => Ok 14
      | TypeIndex.DateTime64 => Ok 15 | TypeIndex.Enum8 => Ok 17 | TypeIndex.Enum16 => Ok 18
      | TypeIndex.Decimal32 => Ok 19 | TypeIndex.Decimal64 => Ok 20 | TypeIndex.IPv4 => Ok 21
      | _ => Throw LOGICAL_ERROR
      end
  end.

Definition deserializeTypeId (serialized_type_id : Z) : result TypeIndex.t :=
  match serialized_type_id with
  | 1 => Ok TypeIndex.UInt8 | 2 => Ok TypeIndex.UInt16 | 3 => Ok TypeIndex.UInt32 | 4 => Ok TypeIndex.UInt64
  | 6 => Ok TypeIndex.Int8 | 7 => Ok TypeIndex.Int16 | 8 => Ok TypeIndex.Int32 | 9 => Ok TypeIndex.Int64
  | 13 => Ok TypeIndex.Date | 22 => Ok TypeIndex.Date32 | 14 => Ok TypeIndex.DateTime
  | 15 => Ok TypeIndex.DateTime64 | 17 => Ok TypeIndex.Enum8 | 18 => Ok TypeIndex.Enum16
  | 19 => Ok TypeIndex.Decimal32 | 20 => Ok TypeIndex.Decimal64 | 21 => Ok TypeIndex.IPv4
  | _ => Throw INCORRECT_DATA
  end.

(** [baseType], as the integer type the [switch] statements select. *)
Definition baseType (type_idx : TypeIndex.t) : option IntType :=
  match type_idx with
  | TypeIndex.Int8 => Some Int8
  | TypeIndex.Int16 => Some Int16
  | TypeIndex.Int32 | TypeIndex.Decimal32 | TypeIndex.Date32 => Some Int32
  | TypeIndex.Int64 | TypeIndex.Decimal64 | TypeIndex.DateTime64 => Some Int64
  | TypeIndex.UInt8 | TypeIndex.Enum8 => Some UInt8
  | TypeIndex.UInt16 | TypeIndex.Enum16 | TypeIndex.Date => Some UInt16
  | TypeIndex.UInt32 | TypeIndex.DateTime | TypeIndex.IPv4 => Some UInt32
  | TypeIndex.UInt64 => Some UInt64
  | _ => None
  end.

(** [typeIdx] *)
Definition typeIdx (data_type : option TypeIndex.t) : TypeIndex.t :=
  match data_type with
  | None => TypeIndex.Nothing
  | Some idx =>
      match idx with
      | TypeIndex.Int8 | TypeIndex.UInt8 | TypeIndex.Enum8 | TypeIndex.Int16 | TypeIndex.UInt16 | TypeIndex.Enum16
      | TypeIndex.Date | TypeIndex.Date32 | TypeIndex.Int32 | TypeIndex.UInt32 | TypeIndex.IPv4 | TypeIndex.DateTime
      | TypeIndex.DateTime64 | TypeIndex.Decimal32 | TypeIndex.Int64 | TypeIndex.UInt64 | TypeIndex.Decimal64 => idx
      | _ => TypeIndex.Nothing
      end
  end.

(** ** The matrix

    [UInt64 matrix[64]] as its eight lines of 64 bytes; [matrix8[64 * k + col]]
    is byte [col] of line [k]. *)

Definition bit (v k : Z) : Z := Z.land (Z.shiftr v k) 1.

(** [transpose64x8] on one line. *)
Definition transpose64x8 (src8 : bytes) : bytes :=
  store_values 8
    (foldl (fun dst '(i, value) => imap (fun k d => Z.lor d (Z.shiftl (bit value (Z.of_nat k)) (Z.of_nat i))) dst)
       (replicate 8 0) (imap pair src8)).

Definition reverseTranspose64x8 (src_dst : bytes) : bytes :=
  let src := load_values 8 8 src_dst in
  map (fun i => foldl Z.lor 0 (imap (fun k s => Z.shiftl (bit s (Z.of_nat i)) (Z.of_nat k)) src)) (seq 0 64).

(** [transposeBytes] *)
Definition transposeBytes (w : nat) (value : Z) (matrix : list bytes) (col : nat) : list bytes :=
  imap (fun k line =>
    if (k <? w)%nat then <[ col := nth k (le_bytes w value) 0 ]> line else line) matrix.

(** [reverseTransposeBytes] *)
Definition reverseTransposeBytes (w : nat) (matrix : list bytes) (col : nat) : Z :=
  foldl Z.lor 0 (imap (fun k line => Z.shiftl (nth col line 0) (8 * Z.of_nat k)) (take w matrix)).

Definition zero_line : bytes := replicate 64 0.

(** [transpose]: the values of one block, at most 64. *)
Definition transpose (w : nat) (full : bool) (src : list Z) (num_bits : nat) : bytes :=
  let full_bytes := (num_bits / 8)%nat in
  let part_bits := (num_bits mod 8)%nat in
  let matrix := foldl (fun matrix '(col, value) => transposeBytes w value matrix col)
                  (replicate 8 zero_line) (imap pair src) in
  let lines := take full_bytes matrix in
  mjoin (if full then transpose64x8 <$> lines else lines) ++
  (if (part_bits =? 0)%nat then []
   else take (part_bits * 8) (transpose64x8 (nth full_bytes matrix zero_line))).

(** The lines of a matrix in memory. *)
Fixpoint lines_of (n : nat) (matrix8 : bytes) : list bytes :=
  match n with
  | O => []
  | S n => take 64 matrix8 :: lines_of n (drop 64 matrix8)
  end.

(** [reverseTranspose]: [tail] values from the [num_bits] words [src]. *)
Definition reverseTranspose (w : nat) (full : bool) (src : bytes) (num_bits tail : nat) : list Z :=
  let matrix := lines_of 8 (src ++ replicate (512 - num_bits * 8) 0) in
  let full_bytes := (num_bits / 8)%nat in
  let part_bits := (num_bits mod 8)%nat in
  let matrix := imap (fun k line =>
    if full && (k <? full_bytes)%nat then reverseTranspose64x8 line
    else if negb (part_bits =? 0)%nat && (k =? full_bytes)%nat then reverseTranspose64x8 line
    else line) matrix in
  map (reverseTransposeBytes w matrix) (seq 0 tail).

(** [restoreUpperBits] on the bit patterns of the values. *)
Definition restoreUpperBits (T : IntType) (buf : list Z) (upper_min upper_max sign_bit : Z) : list Z :=
  if is_signed T && negb (sign_bit =? 0) then
    map (fun value => if negb (Z.land value sign_bit =? 0) then Z.lor value upper_min else Z.lor value upper_max) buf
  else map (fun value => Z.lor value upper_min) buf.

(** [getValuableBitsNumber] on [UInt64] and on [Int64]. *)
Definition getValuableBitsNumber (min max : Z) : Z :=
  let diff_bits := Z.lxor min max in
  if diff_bits =? 0 then 0 else Z.log2 diff_bits + 1.

Definition getValuableBitsNumber_signed (min max : Z) : Z :=
  if (min <? 0) && (0 <=? max) then
    if 0 <=? min + max then getValuableBitsNumber 0 (uwrap 64 max) + 1
    else getValuableBitsNumber 0 (uwrap 64 (Z.lnot min)) + 1
  else getValuableBitsNumber (uwrap 64 min) (uwrap 64 max).

(** [findMinMax]: the loop, on values of the type. *)
Definition findMinMax (values : list Z) (first : Z) : Z * Z :=
  foldl (fun '(min, max) current =>
    (if current <? min then current else min, if max <? current then current else max)) (first, first) values.

Definition sizeofT (T : IntType) : nat := Z.to_nat (width T / 8).

Definition num_bits_of (T : IntType) (min max : Z) : Z :=
  if is_signed T then getValuableBitsNumber_signed min max else getValuableBitsNumber min max.

(** Blocks of 64 values, the last one possibly shorter. *)
Fixpoint compress_blocks (w : nat) (full : bool) (num_bits num_full : nat) (values : list Z) : bytes :=
  match num_full with
  | O => match values with [] => [] | _ => transpose w full values num_bits end
  | S num_full =>
      transpose w full (take 64 values) num_bits ++ compress_blocks w full num_bits num_full (drop 64 values)
  end.

Definition compressData (T : IntType) (full : bool) (src : bytes) : result bytes :=
  let w := sizeofT T in
  if negb (length src mod w =? 0)%nat then Throw CANNOT_COMPRESS
  else
    let src_size := (length src / w)%nat in
    match load_values w src_size src with
    | [] => Throw OUT_OF_BOUNDS_ACCESS
    | (first :: _) as values =>
        let typed := map (cast T) values in
        let '(min, max) := findMinMax typed (cast T first) in
        let header := le_bytes 8 (uwrap 64 min) ++ le_bytes 8 (uwrap 64 max) in
        let num_bits := num_bits_of T min max in
        if num_bits =? 0 then Ok header
        else Ok (header ++ compress_blocks w full (Z.to_nat num_bits) (src_size / 64) values)
    end.

(** The upper bits and the sign bit of the column, and their restoration. *)
Definition restore (T : IntType) (min max num_bits : Z) (buf : list Z) : list Z :=
  let upper v := uwrap (width T) (Z.shiftl (Z.shiftr (uwrap 64 v) num_bits) num_bits) in
  let upper_min := if num_bits <? 64 then upper min else 0 in
  let mixed := is_signed T && (min <? 0) && (0 <=? max) && (num_bits <? 64) in
  let sign_bit := if mixed then uwrap (width T) (Z.shiftl 1 (num_bits - 1)) else 0 in
  let upper_max := if mixed then upper max else 0 in
  restoreUpperBits T buf upper_min upper_max sign_bit.

(** The words copied to [UInt64 matrix[64]]. *)
Definition load_matrix (num_bits : nat) (src : bytes) : result bytes :=
  if (64 <? num_bits)%nat then Throw OUT_OF_BOUNDS_ACCESS else slice 0 (8 * num_bits) src.

(** The loop over full blocks, and the tail. *)
Fixpoint decompress_blocks (w : nat) (full : bool) (num_bits num_full tail : nat) (restore : list Z -> list Z)
    (src : bytes) : result (list Z) :=
  match num_full with
  | O =>
      if (tail =? 0)%nat then Ok []
      else let! words := load_matrix num_bits src in
           Ok (restore (reverseTranspose w full words num_bits tail))
  | S num_full =>
      let! words := load_matrix num_bits src in
      let! rest := decompress_blocks w full num_bits num_full tail restore (drop (8 * num_bits) src) in
      Ok (restore (reverseTranspose w full words num_bits 64) ++ rest)
  end.

Definition decompressData (T : IntType) (full : bool) (src : bytes) (uncompressed_size : nat) : result bytes :=
  let w := sizeofT T in
  if (length src <? 16)%nat then Throw CANNOT_DECOMPRESS
  else if negb (uncompressed_size mod w =? 0)%nat then Throw CANNOT_DECOMPRESS
  else
    let num_elements := (uncompressed_size / w)%nat in
    let MinMaxType := if is_signed T then Int64 else UInt64 in
    let min := cast MinMaxType (unalignedLoad 8 src) in
    let max := cast MinMaxType (unalignedLoad 8 (drop 8 src)) in
    let src := drop 16 src in
    let num_bits := num_bits_of T min max in
    if num_bits =? 0 then Ok (store_values w (replicate num_elements (uwrap (width T) min)))
    else
      let src_shift := (8 * Z.to_nat num_bits)%nat in
      if (length src =? 0)%nat || negb (length src mod src_shift =? 0)%nat then Throw CANNOT_DECOMPRESS
      else
        let tail := (num_elements mod 64)%nat in
        let num_full := (if (tail =? 0)%nat then length src / src_shift else length src / src_shift - 1)%nat in
        if negb (num_full * 64 + tail =? num_elements)%nat then Throw CANNOT_DECOMPRESS
        else
          let! out := decompress_blocks w full (Z.to_nat num_bits) num_full tail (restore T min max num_bits) src in
          Ok (store_values w out).

Definition variant_full (variant : Variant) : bool := match variant with Bit => true | Byte => false end.

Definition doCompressData (type_idx : option TypeIndex.t) (variant : Variant) (src : bytes) : result bytes :=
  let! magic := serializeTypeId type_idx in
  let cookie := Z.lor magic (if variant_full variant then 128 else 0) in
  match type_idx with
  | None => Throw CANNOT_COMPRESS
  | Some idx =>
      match baseType idx with
      | Some T => let! data := compressData T (variant_full variant) src in Ok (cookie :: data)
      | None => Throw CANNOT_COMPRESS
      end
  end.

Definition doDecompressData (src dst : bytes) : result bytes :=
  match src with
  | [] => Throw CANNOT_DECOMPRESS
  | cookie :: src =>
      let saved_variant := if Z.shiftr cookie 7 =? 1 then Bit else Byte in
      let! saved_type_id := deserializeTypeId (Z.land cookie 0x7F) in
      match baseType saved_type_id with
      | Some T => let! out := decompressData T (variant_full saved_variant) src (length dst) in put dst out
      | None => Throw CANNOT_DECOMPRESS
      end
  end.

Definition HEADER_SIZE : Z := 1 + 2 * 8.
Definition MAX_COMPRESSED_BLOCK_SIZE : Z := 8 * 64.

Definition CompressionCodecT64 (type_idx : option TypeIndex.t) (variant : Variant) : ICompressionCodec := {|
  Codec.getMethodByte := method_byte T64;
  Codec.doCompressData := doCompressData type_idx variant;
  Codec.doDecompressData := doDecompressData;
  Codec.getMaxCompressedDataSize size := uwrap 32 (size + MAX_COMPRESSED_BLOCK_SIZE + HEADER_SIZE);
  getAdditionalSizeAtTheEndOfBuffer := 0;
  decompression_error_code := CORRUPTED_DATA;
  full_codec_desc := setCodecDescription "T64" (match variant with Byte => [] | Bit => [StringLiteral "bit"] end);
  traits := compressing transformation |}.

(** The builder of [registerCodecT64]. *)
Definition codec_builder (arguments : list CodecArgument) (type : option IDataType) : result ICompressionCodec :=
  let! variant :=
    match arguments with
    | [] => Ok Byte
    | [NotLiteral] => Throw ILLEGAL_CODEC_PARAMETER
    | [StringLiteral name] =>
        if bool_decide (name = "byte"%string) then Ok Byte
        else if bool_decide (name = "bit"%string) then Ok Bit
        else Throw ILLEGAL_CODEC_PARAMETER
    | [_] => Throw BAD_GET
    | _ => Throw ILLEGAL_SYNTAX_FOR_CODEC_TYPE
    end in
  match type with
  | None => Ok (CompressionCodecT64 None variant)
  | Some type =>
      match typeIdx (Some (getTypeId type)) with
      | TypeIndex.Nothing => Throw ILLEGAL_SYNTAX_FOR_CODEC_TYPE
      | type_idx => Ok (CompressionCodecT64 (Some type_idx) variant)
      end
  end.

(** * Bits of the matrix *)

Lemma bit_b2z v k : 0 <= k -> bit v k = Z.b2z (Z.testbit v k).
Proof.
  intros Hk. unfold bit. change 1 with (Z.ones 1). rewrite Z.land_ones by lia. change (2 ^ 1) with 2.
  by rewrite Z.testbit_spec', Z.shiftr_div_pow2.
Qed.

Lemma testbit_shifted_bit b i j : 0 <= i -> 0 <= j -> Z.testbit (Z.shiftl (Z.b2z b) i) j = b && (j =? i).
Proof.
  intros Hi Hj. rewrite Z.shiftl_spec by done. destruct (Z.eqb_spec j i) as [-> |Hne].
  - rewrite Z.sub_diag. by destruct b.
  - rewrite andb_false_r. destruct (decide (j < i)); [apply Z.testbit_neg_r; lia|].
    destruct b; [|apply Z.bits_0]. simpl. change 1 with (2 ^ 0). rewrite Z.pow2_bits_false by lia. done.
Qed.

(** The words of a transposed line: bit [j] of word [k] is bit [k] of byte [j]. *)
Definition line_words (src8 : bytes) : list Z :=
  foldl (fun dst '(i, value) => imap (fun k d => Z.lor d (Z.shiftl (bit value (Z.of_nat k)) (Z.of_nat i))) dst)
    (replicate 8 0) (imap pair src8).

Lemma line_words_snoc src8 v :
  line_words (src8 ++ [v]) =
  imap (fun k d => Z.lor d (Z.shiftl (bit v (Z.of_nat k)) (Z.of_nat (length src8)))) (line_words src8).
Proof.
  unfold line_words. rewrite imap_app, foldl_app. simpl. by rewrite Nat.add_0_r.
Qed.

Lemma length_line_words src8 : length (line_words src8) = 8%nat.
Proof. induction src8 as [|v l IH] using rev_ind; [done|]. by rewrite line_words_snoc, length_imap. Qed.

Lemma line_words_bits src8 k :
  (k < 8)%nat ->
  0 <= nth k (line_words src8) 0 /\
  forall j, 0 <= j -> Z.testbit (nth k (line_words src8) 0) j =
    (j <? size_of src8) && Z.testbit (nth (Z.to_nat j) src8 0) (Z.of_nat k).
Proof.
  intros Hk. induction src8 as [|v l IH] using rev_ind.
  { change (line_words []) with (replicate 8 0). rewrite nth_lookup, lookup_replicate_2 by done. simpl.
    split; [done|]. intros j Hj. rewrite Z.bits_0. by destruct (Z.ltb_spec j (Z.of_nat 0)); [lia|]. }
  destruct IH as [IH1 IH2]. rewrite line_words_snoc, nth_lookup, list_lookup_imap.
  destruct (lookup_lt_is_Some_2 (line_words l) k) as [d Ed]; [by rewrite length_line_words|].
  assert (End : nth k (line_words l) 0 = d) by (by rewrite nth_lookup, Ed).
  rewrite End in *. rewrite Ed. simpl. rewrite bit_b2z by lia. split.
  { apply Z.lor_nonneg. split; [done|]. apply Z.shiftl_nonneg. destruct (Z.testbit v (Z.of_nat k)); simpl; lia. }
  intros j Hj. rewrite Z.lor_spec, IH2, testbit_shifted_bit by lia. rewrite length_app. simpl length.
  destruct (Z.ltb_spec j (size_of l)), (Z.eqb_spec j (size_of l)), (Z.ltb_spec j (Z.of_nat (length l + 1))); try lia; simpl.
  - rewrite app_nth1 by lia. by rewrite andb_false_r, orb_false_r.
  - subst j. rewrite Nat2Z.id, app_nth2, Nat.sub_diag by lia. by rewrite andb_true_r.
Qed.

(** ** Digits *)

(** Digits of [d] bits, the lowest first. *)
Fixpoint of_digits (d : Z) (l : list Z) : Z :=
  match l with
  | [] => 0
  | x :: l => Z.lor x (Z.shiftl (of_digits d l) d)
  end.

Lemma foldl_lor_digits d (l : list Z) a off :
  0 <= d ->
  foldl Z.lor a (imap (fun k x => Z.shiftl x (d * Z.of_nat (off + k))) l) =
  Z.lor a (Z.shiftl (of_digits d l) (d * Z.of_nat off)).
Proof.
  intros Hd. revert a off. induction l as [|x l IH]; intros a off; cbn [of_digits].
  { by rewrite Z.shiftl_0_l, Z.lor_0_r. }
  cbn [imap foldl]. rewrite Nat.add_0_r.
  rewrite (imap_ext _ (fun k x => Z.shiftl x (d * Z.of_nat (S off + k)))).
  2:{ intros i y _. simpl. do 2 f_equal. lia. }
  rewrite IH, Z.shiftl_lor, Z.shiftl_shiftl, Z.lor_assoc by lia. do 2 f_equal. lia.
Qed.

Lemma of_digits_bits d l j :
  0 < d -> 0 <= j -> Forall (fun x => 0 <= x < 2 ^ d) l ->
  Z.testbit (of_digits d l) j = Z.testbit (nth (Z.to_nat (j / d)) l 0) (j mod d).
Proof.
  intros Hd Hj Hl. revert j Hj. induction Hl as [|x l Hx Hl IH]; intros j Hj; cbn [of_digits].
  { rewrite Z.bits_0. destruct (Z.to_nat (j / d)); by rewrite Z.bits_0. }
  rewrite Z.lor_spec, Z.shiftl_spec by lia. destruct (decide (j < d)) as [Hlt|Hge].
  - rewrite (Z.testbit_neg_r (of_digits d l)), orb_false_r by lia. by rewrite Z.div_small, Z.mod_small by lia.
  - rewrite IH by lia. replace (j / d) with (Z.succ ((j - d) / d)).
    2:{ replace j with ((j - d) + 1 * d) at 2 by lia. rewrite Z.div_add by lia. lia. }
    replace (j mod d) with ((j - d) mod d).
    2:{ replace j with ((j - d) + 1 * d) at 2 by lia. by rewrite Z_mod_plus_full. }
    rewrite Z2Nat.inj_succ by (apply Z.div_pos; lia). simpl nth.
    rewrite <- (Z.mod_small x (2 ^ d)), Z.mod_pow2_bits_high by lia. done.
Qed.

Lemma of_digits_nonneg d l : Forall (fun x => 0 <= x) l -> 0 <= of_digits d l.
Proof.
  induction 1 as [|x l Hx Hl IH]; cbn [of_digits]; [done|]. apply Z.lor_nonneg. split; [done|].
  by apply Z.shiftl_nonneg.
Qed.

(** ** One line *)

Lemma bits_lt a n : 0 <= n -> 0 <= a -> (forall j, n <= j -> Z.testbit a j = false) -> a < 2 ^ n.
Proof.
  intros Hn Ha H. assert (E : a = a mod 2 ^ n).
  { apply Z.bits_inj'. intros j Hj. destruct (decide (j < n)).
    - by rewrite Z.mod_pow2_bits_low by lia.
    - rewrite Z.mod_pow2_bits_high by lia. apply H. lia. }
  rewrite E. apply Z.mod_pos_bound. lia.
Qed.

Lemma line_words_range line : length line = 64%nat -> is_values 8 (line_words line).
Proof.
  intros Hl. apply Forall_forall. intros x Hx. apply list_elem_of_lookup in Hx as [k Hk].
  pose proof (lookup_lt_Some _ _ _ Hk) as Hlt. rewrite length_line_words in Hlt.
  destruct (line_words_bits line k Hlt) as [Hn Hb].
  assert (E : nth k (line_words line) 0 = x) by (by rewrite nth_lookup, Hk). rewrite E in *.
  split; [done|]. apply bits_lt; [done|done|]. intros j Hj. rewrite Hb by (unfold bits in Hj; lia).
  destruct (Z.ltb_spec j (size_of line)); [unfold bits in Hj; lia|done].
Qed.

Lemma map_nth_seq (l : list Z) : l = map (fun i => nth i l 0) (seq 0 (length l)).
Proof.
  apply list_eq. intros i. rewrite list_lookup_fmap. destruct (decide (i < length l)%nat) as [Hi|Hi].
  - rewrite lookup_seq_lt by done. simpl. rewrite nth_lookup. destruct (lookup_lt_is_Some_2 l i Hi) as [x ->]. done.
  - rewrite lookup_seq_ge by lia. simpl. by apply lookup_ge_None_2; lia.
Qed.

Lemma nth_replicate k n : nth k (replicate n 0) 0 = 0.
Proof. revert k. induction n as [|n IH]; intros [|k]; simpl; auto. Qed.

(** Bit [j] of the byte gathered from bit [i] of each word. *)
Lemma gather_bits words i j :
  0 <= i -> 0 <= j ->
  Z.testbit (foldl Z.lor 0 (imap (fun k s => Z.shiftl (bit s i) (Z.of_nat k)) words)) j =
  Z.testbit (nth (Z.to_nat j) words 0) i.
Proof.
  intros Hi Hj.
  pose proof (foldl_lor_digits 1 (map (fun s => bit s i) words) 0 0 ltac:(lia)) as E.
  rewrite imap_fmap in E. rewrite (imap_ext _ (fun k s => Z.shiftl (bit s i) (Z.of_nat k))) in E.
  2:{ intros k x _. simpl. f_equal. lia. }
  rewrite E, Z.lor_0_l, Z.mul_0_r, Z.shiftl_0_r, of_digits_bits, Z.div_1_r, Z.mod_1_r by
    (try lia; apply Forall_fmap, Forall_true; intros x; simpl; rewrite bit_b2z by done; destruct (Z.testbit x i); simpl; lia).
  replace 0 with (bit 0 i) at 1 by (by rewrite bit_b2z, Z.bits_0).
  rewrite (map_nth (fun s => bit s i)), bit_b2z by done. by destruct (Z.testbit _ i).
Qed.

(** Reading back the first [p] words of a transposed line keeps the low [p]
    bits of every byte. *)
Lemma reverse_transpose_line line p :
  is_bytes line -> length line = 64%nat -> (p <= 8)%nat ->
  reverseTranspose64x8 (take (p * 8) (transpose64x8 line) ++ replicate (64 - p * 8) 0) =
  map (fun b => b mod 2 ^ Z.of_nat p) line.
Proof.
  intros Hb Hl Hp. unfold reverseTranspose64x8. set (words := take p (line_words line) ++ replicate (8 - p) 0).
  assert (Hlen : length words = 8%nat) by (unfold words; simpl_len; rewrite length_line_words; lia).
  assert (Hload : load_values 8 8 (take (p * 8) (transpose64x8 line) ++ replicate (64 - p * 8) 0) = words).
  { unfold transpose64x8. fold (line_words line). rewrite <- store_values_take.
    replace (64 - p * 8)%nat with ((8 - p) * 8)%nat by lia. rewrite <- store_values_zeros, <- store_values_app.
    fold words. rewrite <- (app_nil_r (store_values 8 words)). replace 8%nat with (length words) at 2. apply load_store_values.
    apply Forall_app_2; [apply Forall_take; by apply line_words_range|].
    apply Forall_replicate. unfold in_unsigned, bits. lia. }
  rewrite Hload, (map_nth_seq line), Hl, map_map. apply map_ext_in. intros i Hi%in_seq.
  apply Z.bits_inj'. intros j Hj. rewrite gather_bits by lia. unfold words.
  destruct (decide (j < Z.of_nat p)) as [Hlt|Hge].
  - rewrite app_nth1 by (rewrite length_take, length_line_words; lia).
    rewrite nth_lookup, lookup_take_lt, <- nth_lookup by lia.
    destruct (line_words_bits line (Z.to_nat j) ltac:(lia)) as [_ ->]; [|lia].
    rewrite Hl, Nat2Z.id, Z2Nat.id, Z.mod_pow2_bits_low by lia.
    by destruct (Z.ltb_spec (Z.of_nat i) (Z.of_nat 64)); [|lia].
  - rewrite app_nth2, nth_replicate, Z.bits_0 by (rewrite length_take, length_line_words; lia).
    by rewrite Z.mod_pow2_bits_high by lia.
Qed.

(** ** One block *)

Lemma nth_le_bytes_range w v k : 0 <= nth k (le_bytes w v) 0 < 256.
Proof.
  revert v k. induction w as [|w IH]; intros v [|k]; simpl; try lia; [|apply IH].
  apply Z.mod_pos_bound. lia.
Qed.

Lemma le_bytes_bits w v k j :
  0 <= j < 8 -> Z.testbit (nth k (le_bytes w v) 0) j = (k <? w)%nat && Z.testbit v (8 * Z.of_nat k + j).
Proof.
  intros Hj. revert v k. induction w as [|w IH]; intros v k; cbn [le_bytes].
  { destruct k; by rewrite Z.bits_0. }
  destruct k as [|k]; cbn [nth].
  - change 256 with (2 ^ 8). by rewrite Z.mod_pow2_bits_low by lia.
  - rewrite IH. change 256 with (2 ^ 8). rewrite Z.div_pow2_bits by lia.
    change (S k <? S w)%nat with (k <? w)%nat. do 2 f_equal. lia.
Qed.

(** Line [k] of the matrix of a block: byte [k] of every value. *)
Definition byte_line (w : nat) (src : list Z) (k : nat) : bytes :=
  map (fun v => nth k (le_bytes w v) 0) src ++ replicate (64 - length src) 0.

Lemma length_byte_line w src k : (length src <= 64)%nat -> length (byte_line w src k) = 64%nat.
Proof. intros H. unfold byte_line. rewrite length_app, length_map, length_replicate. lia. Qed.

Lemma byte_line_bytes w src k : is_bytes (byte_line w src k).
Proof.
  apply Forall_app_2; [|apply Forall_replicate; lia]. apply Forall_fmap, Forall_true. intros v. apply nth_le_bytes_range.
Qed.

Lemma byte_line_above w src k : (length src <= 64)%nat -> (w <= k)%nat -> byte_line w src k = zero_line.
Proof.
  intros Hs Hk. unfold byte_line, zero_line. replace 64%nat with (length src + (64 - length src))%nat at 2 by lia.
  rewrite replicate_add. f_equal. clear Hs. induction src as [|v src IH]; [done|]. simpl.
  rewrite nth_overflow by (by rewrite length_le_bytes). by f_equal.
Qed.

Lemma transposed_matrix w src :
  (length src <= 64)%nat ->
  foldl (fun matrix '(col, value) => transposeBytes w value matrix col) (replicate 8 zero_line) (imap pair src) =
  map (byte_line w src) (seq 0 8).
Proof.
  induction src as [|v src IH] using rev_ind; intros Hs; [done|].
  rewrite length_app in Hs. simpl in Hs. rewrite imap_app, foldl_app, IH by lia. cbn [imap foldl].
  rewrite Nat.add_0_r. unfold transposeBytes. apply list_eq. intros k. rewrite list_lookup_imap, !list_lookup_fmap.
  destruct (decide (k < 8)%nat); [|by rewrite lookup_seq_ge by lia].
  rewrite lookup_seq_lt by done. cbn [fmap option_fmap option_map]. rewrite Nat.add_0_l. f_equal.
  destruct (Nat.ltb_spec k w); [|rewrite !byte_line_above by (rewrite ?length_app; simpl; lia); done].
  unfold byte_line. rewrite length_app. simpl length. rewrite map_app, <- app_assoc.
  replace (64 - length src)%nat with (S (64 - (length src + 1))) by lia. cbn [replicate].
  rewrite insert_app_r_alt, length_map, Nat.sub_diag by (by rewrite length_map). done.
Qed.

Lemma lines_of_join (h : nat -> bytes) n i :
  (forall k, length (h k) = 64%nat) -> lines_of n (mjoin (map h (seq i n))) = map h (seq i n).
Proof.
  intros Hh. revert i. induction n as [|n IH]; intros i; [done|]. cbn [seq map lines_of mjoin list_join].
  rewrite take_app_length', drop_app_length' by done. f_equal. apply IH.
Qed.

Lemma join_zero_lines n : mjoin (replicate n zero_line) = replicate (n * 64) 0.
Proof. induction n as [|n IH]; [done|]. cbn [replicate mjoin list_join Nat.mul]. by rewrite replicate_add, <- IH. Qed.

Lemma length_transpose64x8 line : length (transpose64x8 line) = 64%nat.
Proof. unfold transpose64x8. fold (line_words line). by rewrite length_store_values, length_line_words. Qed.

(** A block in memory, padded with zeros as [reverseTranspose] does. *)
Definition stored_line (w : nat) (full : bool) (src : list Z) (num_bits k : nat) : bytes :=
  let part_bits := (num_bits mod 8)%nat in
  if (k <? num_bits / 8)%nat then
    if full then transpose64x8 (byte_line w src k) else byte_line w src k
  else if negb (part_bits =? 0)%nat && (k =? num_bits / 8)%nat then
    take (part_bits * 8) (transpose64x8 (byte_line w src k)) ++ replicate (64 - part_bits * 8) 0
  else zero_line.

Lemma length_stored_line w full src num_bits k :
  (length src <= 64)%nat -> length (stored_line w full src num_bits k) = 64%nat.
Proof.
  intros Hs. unfold stored_line. pose proof (Nat.mod_upper_bound num_bits 8).
  repeat case_match; rewrite ?length_app, ?length_take, ?length_transpose64x8, ?length_byte_line, ?length_replicate;
    unfold zero_line; rewrite ?length_replicate; lia.
Qed.

Lemma map_const_seq {A} (f : nat -> A) c i n :
  (forall k, (i <= k)%nat -> f k = c) -> map f (seq i n) = replicate n c.
Proof.
  revert i. induction n as [|n IH]; intros i H; [done|]. simpl. rewrite H by lia. f_equal.
  apply IH. intros k Hk. apply H. lia.
Qed.

Lemma transpose_lines w full src num_bits :
  (length src <= 64)%nat -> (num_bits <= 64)%nat ->
  transpose w full src num_bits ++ replicate (512 - num_bits * 8) 0 =
  mjoin (map (stored_line w full src num_bits) (seq 0 8)).
Proof.
  intros Hs Hn. unfold transpose. rewrite transposed_matrix by done.
  set (fb := (num_bits / 8)%nat). set (p := (num_bits mod 8)%nat).
  assert (Hfp : (num_bits = 8 * fb + p)%nat) by (unfold fb, p; apply Nat.div_mod_eq).
  assert (Hp : (p < 8)%nat) by (unfold p; apply Nat.mod_upper_bound; lia).
  assert (Hl : (if full then transpose64x8 <$> take fb (map (byte_line w src) (seq 0 8))
                else take fb (map (byte_line w src) (seq 0 8))) = map (stored_line w full src num_bits) (seq 0 fb)).
  { rewrite firstn_map, take_seq, Nat.min_l by lia.
    assert (E : forall k, In k (seq 0 fb) -> stored_line w full src num_bits k =
      if full then transpose64x8 (byte_line w src k) else byte_line w src k).
    { intros k Hk%in_seq. unfold stored_line. fold fb. by destruct (Nat.ltb_spec k fb); [|lia]. }
    rewrite (map_ext_in _ _ _ E). destruct full; [apply map_map|done]. }
  rewrite Hl. clear Hl.
  assert (E8 : seq 0 8 = seq 0 fb ++ seq fb (8 - fb)).
  { replace 8%nat with (fb + (8 - fb))%nat at 1 by lia. apply seq_app. }
  rewrite E8 at 2. rewrite map_app, join_app, <- app_assoc. f_equal. clear E8. destruct (Nat.eqb_spec p 0) as [Hp0|Hp0].
  - rewrite (map_const_seq _ zero_line), join_zero_lines; [simpl; f_equal; lia|].
    intros k Hk. unfold stored_line. fold fb p. rewrite Hp0. by destruct (Nat.ltb_spec k fb); [lia|].
  - rewrite nth_lookup, list_lookup_fmap, lookup_seq_lt by lia.
    replace (8 - fb)%nat with (S (7 - fb)) by lia. cbn [seq map mjoin list_join].
    rewrite (map_const_seq _ zero_line), join_zero_lines.
    2:{ intros k Hk. unfold stored_line. fold fb p.
        destruct (Nat.ltb_spec k fb), (Nat.eqb_spec k fb); try lia. by rewrite andb_false_r. }
    unfold stored_line. fold fb p. rewrite Nat.ltb_irrefl, Nat.eqb_refl.
    destruct (Nat.eqb_spec p 0); [lia|]. cbn [negb andb]. rewrite <- app_assoc. f_equal.
    rewrite <- replicate_add. f_equal. lia.
Qed.

(** The bits of byte [k] among the low [num_bits] of a value. *)
Definition kept (num_bits k : nat) : Z := Z.min 8 (Z.max 0 (Z.of_nat num_bits - 8 * Z.of_nat k)).

Lemma map_mod_id line n : 8 <= n -> is_bytes line -> map (fun b => b mod 2 ^ n) line = line.
Proof.
  intros Hn. induction 1 as [|b line Hb Hl IH]; [done|]. simpl. rewrite IH, Z.mod_small; [done|].
  pose proof (Z.pow_le_mono_r 2 8 n). lia.
Qed.

Lemma map_mod_zero line : map (fun b => b mod 2 ^ 0) line = replicate (length line) 0.
Proof. induction line as [|b line IH]; [done|]. simpl. by rewrite IH, Z.mod_1_r. Qed.

Lemma restored_line w full src num_bits k :
  (length src <= 64)%nat ->
  (let line := stored_line w full src num_bits k in
   if full && (k <? num_bits / 8)%nat then reverseTranspose64x8 line
   else if negb (num_bits mod 8 =? 0)%nat && (k =? num_bits / 8)%nat then reverseTranspose64x8 line
   else line) = map (fun b => b mod 2 ^ kept num_bits k) (byte_line w src k).
Proof.
  intros Hs. cbv zeta. unfold stored_line.
  pose proof (Nat.div_mod_eq num_bits 8) as Hd. pose proof (Nat.mod_upper_bound num_bits 8 ltac:(lia)) as Hm.
  set (fb := (num_bits / 8)%nat) in *. set (p := (num_bits mod 8)%nat) in *.
  destruct (Nat.ltb_spec k fb) as [Hlt|Hge].
  - assert (Hk : kept num_bits k = 8) by (unfold kept; lia). rewrite Hk.
    destruct (Nat.eqb_spec k fb); [lia|]. rewrite andb_false_r. destruct full; cbn [andb].
    + rewrite <- (reverse_transpose_line _ 8), Nat.sub_diag, app_nil_r, take_ge
        by (rewrite ?length_transpose64x8; auto using byte_line_bytes, length_byte_line; lia). done.
    + by rewrite map_mod_id by (auto using byte_line_bytes; lia).
  - rewrite andb_false_r. destruct (Nat.eqb_spec p 0) as [Hp|Hp], (Nat.eqb_spec k fb) as [Hk|Hk]; cbn [negb andb].
    3:{ replace (kept num_bits k) with (Z.of_nat p) by (unfold kept; lia).
        apply reverse_transpose_line; auto using byte_line_bytes, length_byte_line; lia. }
    all: replace (kept num_bits k) with 0 by (unfold kept; lia).
    all: rewrite map_mod_zero, length_byte_line by done; done.
Qed.

Lemma imap_map_seq {A B} (f : nat -> A -> B) (g : nat -> A) n i :
  imap (fun k => f (i + k)%nat) (map g (seq i n)) = map (fun k => f k (g k)) (seq i n).
Proof.
  revert i. induction n as [|n IH]; intros i; [done|]. cbn [seq map imap]. rewrite Nat.add_0_r. f_equal.
  rewrite <- IH. apply imap_ext. intros k x _. simpl. f_equal. lia.
Qed.

(** A value read back from its bytes keeps its low [num_bits] bits. *)
Lemma reverse_bytes w src num_bits v col :
  (length src <= 64)%nat -> (num_bits <= 8 * w)%nat -> (w <= 8)%nat -> src !! col = Some v ->
  reverseTransposeBytes w (map (fun k => map (fun b => b mod 2 ^ kept num_bits k) (byte_line w src k)) (seq 0 8)) col =
  v mod 2 ^ Z.of_nat num_bits.
Proof.
  intros Hs Hn Hw Hv. unfold reverseTransposeBytes. rewrite firstn_map, take_seq, Nat.min_l by lia.
  set (digit k := nth k (le_bytes w v) 0 mod 2 ^ kept num_bits k).
  assert (Hdigit : forall k, 0 <= digit k < 2 ^ 8).
  { intros k. unfold digit. pose proof (nth_le_bytes_range w v k). assert (0 <= kept num_bits k) by (unfold kept; lia).
    split; [apply Z.mod_pos_bound; lia|]. eapply Z.le_lt_trans; [apply Z.mod_le|]; lia. }
  rewrite (imap_map_seq (fun k line => Z.shiftl (nth col line 0) (8 * Z.of_nat k)) _ w 0).
  rewrite (map_ext _ (fun k => Z.shiftl (digit k) (8 * Z.of_nat k))).
  2:{ intros k. f_equal. unfold digit, byte_line. rewrite map_app, app_nth1.
      2:{ rewrite !length_map. by eapply lookup_lt_Some. }
      rewrite map_map, nth_lookup, list_lookup_fmap, Hv. done. }
  pose proof (foldl_lor_digits 8 (map digit (seq 0 w)) 0 0 ltac:(lia)) as E.
  rewrite (imap_map_seq (fun k x => Z.shiftl x (8 * Z.of_nat k)) _ w 0) in E.
  rewrite E, Z.lor_0_l, Z.mul_0_r, Z.shiftl_0_r. clear E. apply Z.bits_inj'. intros j Hj.
  rewrite of_digits_bits by (try lia; apply Forall_fmap, Forall_true; done).
  pose proof (Z.div_mod j 8 ltac:(lia)) as Hd. pose proof (Z.mod_pos_bound j 8 ltac:(lia)) as Hm.
  assert (0 <= j / 8) by (apply Z.div_pos; lia).
  destruct (decide (j < 8 * Z.of_nat w)) as [Hjw|Hjw].
  - rewrite nth_lookup, list_lookup_fmap, lookup_seq_lt by lia. cbn. unfold digit.
    destruct (decide (j < Z.of_nat num_bits)).
    + rewrite !Z.mod_pow2_bits_low by (unfold kept; lia). rewrite le_bytes_bits by done.
      destruct (Nat.ltb_spec (Z.to_nat (j / 8)) w); [|lia]. cbn [andb]. f_equal. lia.
    + rewrite !Z.mod_pow2_bits_high by (unfold kept; lia). done.
  - rewrite nth_overflow by (rewrite length_map, length_seq; lia). rewrite Z.bits_0, Z.mod_pow2_bits_high by lia. done.
Qed.

(** [reverseTranspose] after [transpose]: the low [num_bits] bits of the values. *)
Lemma block_roundtrip w full src num_bits :
  (length src <= 64)%nat -> (num_bits <= 8 * w)%nat -> (w <= 8)%nat ->
  reverseTranspose w full (transpose w full src num_bits) num_bits (length src) =
  map (fun v => v mod 2 ^ Z.of_nat num_bits) src.
Proof.
  intros Hs Hn Hw. unfold reverseTranspose. rewrite transpose_lines by lia.
  rewrite lines_of_join by (intros k; by apply length_stored_line).
  rewrite (imap_map_seq (fun k line => if full && (k <? num_bits / 8)%nat then reverseTranspose64x8 line
    else if negb (num_bits mod 8 =? 0)%nat && (k =? num_bits / 8)%nat then reverseTranspose64x8 line else line) _ 8 0).
  rewrite (map_ext _ _ (fun k => restored_line w full src num_bits k Hs)).
  apply list_eq. intros col. rewrite !list_lookup_fmap. destruct (src !! col) as [v|] eqn:Ev.
  - rewrite lookup_seq_lt by (by eapply lookup_lt_Some). simpl. f_equal. by apply reverse_bytes.
  - rewrite lookup_seq_ge by (by apply lookup_ge_None_1). done.
Qed.

Lemma length_transpose w full src num_bits :
  (length src <= 64)%nat -> (num_bits <= 64)%nat -> length (transpose w full src num_bits) = (8 * num_bits)%nat.
Proof.
  intros Hs Hn. pose proof (f_equal length (transpose_lines w full src num_bits Hs Hn)) as E.
  rewrite length_app, length_replicate in E. cbn [seq map mjoin list_join] in E.
  rewrite !length_app, !length_stored_line in E by done. simpl in E. lia.
Qed.

(** ** The upper bits *)

Lemma uwrap_bits n a j : 0 <= n -> 0 <= j -> Z.testbit (uwrap n a) j = (j <? n) && Z.testbit a j.
Proof.
  intros Hn Hj. unfold uwrap. destruct (Z.ltb_spec j n); simpl.
  - by apply Z.mod_pow2_bits_low.
  - apply Z.mod_pow2_bits_high. lia.
Qed.

(** The bits above the sign of a number are its sign. *)
Lemma sign_extension m a j : 0 <= m <= j -> - 2 ^ m <= a < 2 ^ m -> Z.testbit a j = (a <? 0).
Proof.
  intros Hm Ha. pose proof (Z.pow_le_mono_r 2 m j). destruct (Z.ltb_spec a 0).
  - replace a with (Z.lnot (Z.lnot a)) by apply Z.lnot_involutive. rewrite Z.lnot_spec by lia.
    rewrite <- (Z.mod_small (Z.lnot a) (2 ^ j)) by (unfold Z.lnot; lia). by rewrite Z.mod_pow2_bits_high by lia.
  - rewrite <- (Z.mod_small a (2 ^ j)) by lia. by rewrite Z.mod_pow2_bits_high by lia.
Qed.

Lemma getValuableBitsNumber_nonneg min max : 0 <= getValuableBitsNumber min max.
Proof. unfold getValuableBitsNumber. case_match; [lia|]. pose proof (Z.log2_nonneg (Z.lxor min max)). lia. Qed.

(** [getValuableBitsNumber] counts the bits up to the highest difference. *)
Lemma getValuableBitsNumber_le min max n :
  0 <= n -> 0 <= min -> 0 <= max -> (forall j, n <= j -> Z.testbit min j = Z.testbit max j) ->
  getValuableBitsNumber min max <= n.
Proof.
  intros Hn Hmin Hmax H. unfold getValuableBitsNumber. case_match eqn:E; [lia|]. apply Z.eqb_neq in E.
  assert (0 <= Z.lxor min max) by (apply Z.lxor_nonneg; lia).
  assert (Z.lxor min max < 2 ^ n).
  { apply bits_lt; [done|done|]. intros j Hj. rewrite Z.lxor_spec, H by done. apply xorb_nilpotent. }
  assert (Z.log2 (Z.lxor min max) < n) by (apply Z.log2_lt_pow2; lia). lia.
Qed.

Lemma getValuableBitsNumber_eq min max j :
  0 <= min -> 0 <= max -> getValuableBitsNumber min max <= j -> Z.testbit min j = Z.testbit max j.
Proof.
  intros Hmin Hmax. unfold getValuableBitsNumber. case_match eqn:E; intros Hj.
  - apply Z.eqb_eq, Z.lxor_eq in E. by subst.
  - apply xorb_eq. rewrite <- Z.lxor_spec. apply Z.bits_above_log2; [|lia]. apply Z.lxor_nonneg. lia.
Qed.

(** Two bounds with the same bits from [n] on share them with all between. *)
Lemma between_bits min max v n :
  0 <= n -> min <= v <= max -> (forall j, n <= j -> Z.testbit min j = Z.testbit max j) ->
  forall j, n <= j -> Z.testbit v j = Z.testbit min j.
Proof.
  intros Hn Hv H j Hj.
  assert (E : Z.shiftr min n = Z.shiftr max n).
  { apply Z.bits_inj'. intros i Hi. rewrite !Z.shiftr_spec by done. apply H. lia. }
  assert (E' : Z.shiftr v n = Z.shiftr min n).
  { rewrite !Z.shiftr_div_pow2 in * by done. pose proof (Z.div_le_mono min v (2 ^ n)). pose proof (Z.div_le_mono v max (2 ^ n)). lia. }
  replace j with ((j - n) + n) by lia. rewrite <- !Z.shiftr_spec by lia. by rewrite E'.
Qed.

Section UpperBits.
Context (T : IntType) (min max : Z).
Hypothesis HW : 0 < width T <= 64.
Hypothesis Hmin : int_min T <= min.
Hypothesis Hmax : max <= int_max T.
Hypothesis Hle : min <= max.

#[local] Abbreviation n := (num_bits_of T min max).

(** A column with values of both signs. *)
Definition mixed : bool := is_signed T && (min <? 0) && (0 <=? max).

Lemma mixed_true : mixed = true -> is_signed T = true /\ min < 0 <= max.
Proof. unfold mixed. rewrite !andb_true_iff, Z.ltb_lt, Z.leb_le. tauto. Qed.

Lemma signed_bounds : is_signed T = true -> - 2 ^ (width T - 1) <= min /\ max < 2 ^ (width T - 1).
Proof. intros Hs. unfold int_min, int_max in *. rewrite Hs in *. lia. Qed.

Lemma unsigned_bounds : is_signed T = false -> 0 <= min /\ max < 2 ^ width T.
Proof. intros Hs. unfold int_min, int_max in *. rewrite Hs in *. lia. Qed.

Lemma value_lt_bits a : 0 <= a -> a < 2 ^ getValuableBitsNumber 0 a.
Proof.
  intros Ha. apply bits_lt; [apply getValuableBitsNumber_nonneg|done|]. intros j Hj.
  rewrite <- (getValuableBitsNumber_eq 0 a j) by done. apply Z.bits_0.
Qed.

Lemma valuable_bits_lt a m : 0 <= m -> 0 <= a < 2 ^ m -> getValuableBitsNumber 0 a <= m.
Proof.
  intros Hm Ha. apply getValuableBitsNumber_le; try lia. intros j Hj. rewrite Z.bits_0.
  rewrite (sign_extension m) by lia. by destruct (Z.ltb_spec a 0); [lia|].
Qed.

Lemma mixed_bits :
  mixed = true -> 1 <= n <= width T /\ - 2 ^ (n - 1) <= min /\ max < 2 ^ (n - 1).
Proof.
  intros [Hs Hm]%mixed_true. destruct (signed_bounds Hs) as [Hb1 Hb2]. unfold num_bits_of. rewrite Hs.
  assert (2 ^ (width T - 1) <= 2 ^ 63) by (apply Z.pow_le_mono_r; lia).
  unfold getValuableBitsNumber_signed. destruct (Z.ltb_spec min 0), (Z.leb_spec 0 max); try lia. cbn [andb].
  destruct (Z.leb_spec 0 (min + max)).
  - rewrite uwrap_small by (unfold in_unsigned; lia). rewrite Z.add_simpl_r.
    pose proof (getValuableBitsNumber_nonneg 0 max). pose proof (valuable_bits_lt max (width T - 1)).
    pose proof (value_lt_bits max). lia.
  - unfold Z.lnot. rewrite uwrap_small by (unfold in_unsigned; lia). rewrite Z.add_simpl_r.
    pose proof (getValuableBitsNumber_nonneg 0 (Z.pred (- min))).
    pose proof (valuable_bits_lt (Z.pred (- min)) (width T - 1)). pose proof (value_lt_bits (Z.pred (- min))). lia.
Qed.

Lemma signed_sign a j :
  is_signed T = true -> min <= a <= max -> width T - 1 <= j -> Z.testbit a j = (a <? 0).
Proof. intros Hs Ha Hj. destruct (signed_bounds Hs). apply (sign_extension (width T - 1)); lia. Qed.

(** The bounds of a column of one sign differ in the low [n] bits only. *)
Lemma same_sign_bits :
  mixed = false -> 0 <= n <= width T /\ forall j, n <= j -> Z.testbit min j = Z.testbit max j.
Proof.
  intros Hm. unfold mixed in Hm. unfold num_bits_of. destruct (is_signed T) eqn:Hs; cbn [andb] in Hm.
  - unfold getValuableBitsNumber_signed. rewrite Hm.
    assert (Hsign : (min <? 0) = (max <? 0)).
    { destruct (Z.ltb_spec min 0), (Z.ltb_spec max 0), (Z.leb_spec 0 max); try done; lia. }
    pose proof (uwrap_range 64 min ltac:(lia)) as [? ?]. pose proof (uwrap_range 64 max ltac:(lia)) as [? ?].
    pose proof (getValuableBitsNumber_nonneg (uwrap 64 min) (uwrap 64 max)) as Hnn. split; [split; [done|]|].
    + apply getValuableBitsNumber_le; try done; try lia. intros j Hj.
      by rewrite !uwrap_bits, !signed_sign, Hsign by (done || lia).
    + intros j Hj. destruct (decide (j < 64)).
      * pose proof (getValuableBitsNumber_eq (uwrap 64 min) (uwrap 64 max) j) as E.
        rewrite !uwrap_bits in E by lia. destruct (Z.ltb_spec j 64); [|lia]. auto.
      * by rewrite !signed_sign by (done || lia).
  - destruct (unsigned_bounds Hs). split; [split; [apply getValuableBitsNumber_nonneg|]|].
    + apply getValuableBitsNumber_le; try lia. intros j Hj. rewrite !(sign_extension (width T)) by lia.
      destruct (Z.ltb_spec min 0), (Z.ltb_spec max 0); done || lia.
    + intros j Hj. apply getValuableBitsNumber_eq; lia.
Qed.

Lemma num_bits_range : 0 <= n <= width T.
Proof. destruct mixed eqn:E; [pose proof (mixed_bits E)|pose proof (same_sign_bits E)]; lia. Qed.

Lemma cast_bits u j : 0 <= j < width T -> Z.testbit (cast T u) j = Z.testbit u j.
Proof.
  intros Hj. assert (E : uwrap (width T) (cast T u) = uwrap (width T) u).
  { unfold cast. destruct (is_signed T); [apply uwrap_swrap; lia|]. unfold uwrap. by rewrite Z.mod_mod by lia. }
  apply (f_equal (fun z => Z.testbit z j)) in E. rewrite !uwrap_bits in E by lia.
  by destruct (Z.ltb_spec j (width T)); [|lia].
Qed.

Definition upper (v : Z) : Z := uwrap (width T) (Z.shiftl (Z.shiftr (uwrap 64 v) n) n).

Lemma upper_bits v j : 0 <= j -> Z.testbit (upper v) j = (j <? width T) && (n <=? j) && Z.testbit v j.
Proof.
  intros Hj. pose proof num_bits_range. unfold upper. rewrite uwrap_bits, Z.shiftl_spec by lia.
  destruct (Z.ltb_spec j (width T)); [cbn [andb]|done]. destruct (Z.leb_spec n j); [|by rewrite Z.testbit_neg_r by lia].
  rewrite Z.shiftr_spec, uwrap_bits by lia. replace (j - n + n) with j by lia. by destruct (Z.ltb_spec j 64); [|lia].
Qed.

(** Bits that agree with a value from bit [n] on complete its low bits. *)
Lemma lor_upper u a :
  in_unsigned (width T) u -> (forall j, n <= j < width T -> Z.testbit a j = Z.testbit u j) ->
  Z.lor (u mod 2 ^ n) (upper a) = u.
Proof.
  intros Hu Ha. pose proof num_bits_range. apply Z.bits_inj'. intros j Hj. rewrite Z.lor_spec, upper_bits by done.
  rewrite <- (uwrap_small _ u Hu) at 2. rewrite (uwrap_bits (width T)) by lia. change (u mod 2 ^ n) with (uwrap n u).
  rewrite uwrap_bits by lia. destruct (Z.ltb_spec j (width T)), (Z.leb_spec n j), (Z.ltb_spec j n); try lia; simpl; auto.
  by rewrite orb_false_r.
Qed.

Lemma land_pow2 a k : 0 <= k -> (Z.land a (2 ^ k) =? 0) = negb (Z.testbit a k).
Proof.
  intros Hk. assert (E : Z.land a (2 ^ k) = if Z.testbit a k then 2 ^ k else 0).
  { apply Z.bits_inj'. intros j Hj. rewrite Z.land_spec, Z.pow2_bits_eqb by done.
    destruct (Z.eqb_spec k j) as [<-|Hne].
    - rewrite andb_true_r. destruct (Z.testbit a k); [by rewrite Z.pow2_bits_true|by rewrite Z.bits_0].
    - rewrite andb_false_r. destruct (Z.testbit a k); [by rewrite Z.pow2_bits_false|by rewrite Z.bits_0]. }
  rewrite E. destruct (Z.testbit a k); [|done]. by destruct (Z.eqb_spec (2 ^ k) 0); [lia|].
Qed.

(** The restored values of a block are the values it was made of. *)
Lemma restore_values us :
  Forall (fun u => in_unsigned (width T) u /\ min <= cast T u <= max) us ->
  restore T min max n (map (fun u => u mod 2 ^ n) us) = us.
Proof.
  intros Hus. pose proof num_bits_range as Hn. unfold restore. fold (upper min) (upper max). fold mixed.
  destruct (Z.ltb_spec n 64) as [Hlt|Hge].
  2:{ rewrite andb_false_r. unfold restoreUpperBits. rewrite andb_false_r, map_map. rewrite <- (map_id us) at 2.
      apply map_ext_Forall. eapply Forall_impl; [exact Hus|]. intros u [Hu _]. rewrite Z.lor_0_r.
      apply Z.mod_small. replace n with (width T) by lia. done. }
  rewrite andb_true_r. unfold restoreUpperBits. destruct mixed eqn:Hm.
  - destruct (mixed_true Hm) as [Hs Hsign]. destruct (mixed_bits Hm) as (Hn1 & Hlo & Hhi). rewrite Hs, Z.shiftl_1_l.
    rewrite uwrap_small.
    2:{ split; [lia|]. apply Z.pow_lt_mono_r; lia. }
    destruct (Z.eqb_spec (2 ^ (n - 1)) 0) as [?|_]; [lia|]. cbn [negb andb]. rewrite map_map. rewrite <- (map_id us) at 2.
    apply map_ext_Forall. eapply Forall_impl; [exact Hus|]. intros u [Hu Hv].
    assert (Hext : forall j, n - 1 <= j < width T -> Z.testbit u j = (cast T u <? 0)).
    { intros j Hj. rewrite <- cast_bits by lia. apply (sign_extension (n - 1)); lia. }
    rewrite land_pow2, negb_involutive, Z.mod_pow2_bits_low, Hext by lia.
    destruct (cast T u <? 0) eqn:Ec; apply lor_upper; try done; intros j Hj; rewrite Hext by lia;
      rewrite (sign_extension (n - 1)) by lia; lia.
  - rewrite andb_false_r, map_map. rewrite <- (map_id us) at 2.
    apply map_ext_Forall. eapply Forall_impl; [exact Hus|]. intros u [Hu Hv]. apply lor_upper; [done|]. intros j Hj.
    rewrite <- (cast_bits u) by lia. symmetry. destruct (same_sign_bits Hm) as [_ H].
    apply (between_bits min max (cast T u) n); try done; lia.
Qed.

Lemma no_bits_constant u :
  n = 0 -> in_unsigned (width T) u -> min <= cast T u <= max -> u = uwrap (width T) min.
Proof.
  intros Hn Hu Hv. destruct mixed eqn:Hm; [pose proof (mixed_bits Hm); lia|]. destruct (same_sign_bits Hm) as [_ H].
  assert (min = max) as <-.
  { apply Z.bits_inj'. intros j Hj. apply H. lia. }
  assert (E : min = cast T u) by lia. rewrite E. rewrite <- (uwrap_small _ u Hu) at 1. unfold cast.
  destruct (is_signed T); [by rewrite uwrap_swrap by lia|]. unfold uwrap. by rewrite Z.mod_mod by lia.
Qed.
End UpperBits.

(** * Blocks *)

Lemma load_matrix_inside num_bits src :
  (num_bits <= 64)%nat -> (8 * num_bits <= length src)%nat -> load_matrix num_bits src = Ok (take (8 * num_bits) src).
Proof. intros Hn Hl. unfold load_matrix. destruct (Nat.ltb_spec 64 num_bits); [lia|]. by rewrite slice_inside by lia. Qed.

Section Blocks.
Context (w : nat) (full : bool) (num_bits : nat) (restore : list Z -> list Z) (P : Z -> Prop).
Hypothesis Hw : (w <= 8)%nat.
Hypothesis Hbits : (num_bits <= 8 * w)%nat.
Hypothesis Hrestore : forall us, Forall P us -> restore (map (fun u => u mod 2 ^ Z.of_nat num_bits) us) = us.

Lemma block_restored us :
  (length us <= 64)%nat -> Forall P us ->
  restore (reverseTranspose w full (transpose w full us num_bits) num_bits (length us)) = us.
Proof. intros Hl HP. rewrite block_roundtrip by done. by apply Hrestore. Qed.

Lemma length_compress_blocks num_full tail values :
  length values = (num_full * 64 + tail)%nat -> (tail < 64)%nat ->
  length (compress_blocks w full num_bits num_full values) =
  (8 * num_bits * (if (tail =? 0)%nat then num_full else S num_full))%nat.
Proof.
  revert values. induction num_full as [|n IH]; intros values Hl Ht; cbn [compress_blocks].
  - destruct values as [|v values]; cbn [length] in Hl; destruct (Nat.eqb_spec tail 0); try lia; [simpl; lia|].
    rewrite length_transpose by (simpl; lia). lia.
  - rewrite length_app, length_transpose by (rewrite ?length_take; lia).
    rewrite IH by (rewrite ?length_drop; lia). destruct (tail =? 0)%nat; lia.
Qed.

Lemma blocks_roundtrip num_full tail values :
  length values = (num_full * 64 + tail)%nat -> (tail < 64)%nat -> Forall P values ->
  decompress_blocks w full num_bits num_full tail restore (compress_blocks w full num_bits num_full values) = Ok values.
Proof.
  revert values. induction num_full as [|n IH]; intros values Hl Ht HP; cbn [compress_blocks decompress_blocks].
  - destruct values as [|v values]; cbn [length] in Hl.
    { by destruct (Nat.eqb_spec tail 0); [|lia]. }
    destruct (Nat.eqb_spec tail 0); [lia|]. set (us := v :: values) in *.
    assert (length us = tail) as <- by (simpl; lia).
    rewrite load_matrix_inside, take_ge by (rewrite ?length_transpose; lia). cbn [rbind]. by rewrite block_restored by (done || lia).
  - assert (Hlt : length (transpose w full (take 64 values) num_bits) = (8 * num_bits)%nat)
      by (apply length_transpose; rewrite ?length_take; lia).
    rewrite load_matrix_inside by (rewrite ?length_app; lia). rewrite take_app_length', drop_app_length' by done.
    cbn [rbind]. rewrite IH by (rewrite ?length_drop; auto using Forall_drop; lia). cbn [rbind].
    assert (H64 : length (take 64 values) = 64%nat) by (rewrite length_take; lia).
    pose proof (block_restored (take 64 values) ltac:(lia) ltac:(auto using Forall_take)) as E. rewrite H64 in E.
    by rewrite E, take_drop.
Qed.

End Blocks.

(** Reading from blocks as many as announced stays inside them. *)
Lemma decompress_blocks_safe w full num_bits restore num_full tail src :
  (num_bits <= 64)%nat ->
  length src = (8 * num_bits * (if (tail =? 0)%nat then num_full else S num_full))%nat -> (tail < 64)%nat ->
  (forall buf, length (restore buf) = length buf) ->
  exists out, decompress_blocks w full num_bits num_full tail restore src = Ok out /\
    length out = (num_full * 64 + tail)%nat.
Proof.
  intros Hn Hl Ht Hr. revert src Hl. induction num_full as [|n IH]; intros src Hl; cbn [decompress_blocks].
  - destruct (Nat.eqb_spec tail 0) as [->|Hne]; [by exists []|]. rewrite load_matrix_inside by lia. cbn [rbind].
    eexists. split; [done|]. rewrite Hr. unfold reverseTranspose. rewrite length_map, length_seq. lia.
  - rewrite load_matrix_inside by (destruct (tail =? 0)%nat; lia). cbn [rbind].
    destruct (IH (drop (8 * num_bits) src)) as (rest & -> & Hrest).
    { rewrite length_drop. destruct (tail =? 0)%nat; lia. }
    cbn [rbind]. eexists. split; [done|]. rewrite length_app, Hr, Hrest. unfold reverseTranspose.
    rewrite length_map, length_seq. lia.
Qed.

(** * One column *)

Lemma findMinMax_bounds values a b min max :
  a <= b -> foldl (fun '(min, max) current =>
    (if current <? min then current else min, if max <? current then current else max)) (a, b) values = (min, max) ->
  min <= a /\ b <= max /\ Forall (fun v => min <= v <= max) values /\ (min = a \/ min ∈ values) /\ (max = b \/ max ∈ values).
Proof.
  revert a b. induction values as [|v values IH]; intros a b Hab E; cbn [foldl] in E.
  { injection E as <- <-. split_and!; auto; lia. }
  apply IH in E as (H1 & H2 & H3 & H4 & H5).
  2:{ destruct (Z.ltb_spec v a), (Z.ltb_spec b v); lia. }
  destruct (Z.ltb_spec v a), (Z.ltb_spec b v); split_and!; try lia; try (constructor; [lia|done]); set_solver.
Qed.

(** The integer types of the codec. *)
Definition is_base (T : IntType) : Prop := T ∈ [Int8; Int16; Int32; Int64; UInt8; UInt16; UInt32; UInt64].

Lemma base_width T : is_base T -> 0 < width T <= 64 /\ (0 < sizeofT T <= 8)%nat /\ width T = bits (sizeofT T).
Proof.
  unfold is_base. rewrite !elem_of_cons, elem_of_nil. intros H.
  repeat destruct H as [->|H]; try done; split_and!; first [done | simpl; lia | vm_compute; lia].
Qed.

Lemma baseType_base idx T : baseType idx = Some T -> is_base T.
Proof. intros H. unfold is_base. destruct idx; simpl in H; try done; injection H as <-; set_solver. Qed.

Lemma column_bounds T values first min max :
  is_base T -> is_values (sizeofT T) values -> first ∈ values ->
  findMinMax (map (cast T) values) (cast T first) = (min, max) ->
  int_min T <= min /\ max <= int_max T /\ min <= max /\
  Forall (fun u => in_unsigned (width T) u /\ min <= cast T u <= max) values.
Proof.
  intros HT Hv Hf E. destruct (base_width T HT) as (HW & _ & Hbits).
  assert (Hcast : forall z, int_min T <= cast T z <= int_max T) by (intros z; apply fits_spec, fits_cast; lia).
  apply findMinMax_bounds in E as (H1 & H2 & H3 & H4 & H5); [|lia].
  assert (Hin : forall z, z = cast T first \/ z ∈ map (cast T) values -> int_min T <= z <= int_max T).
  { intros z [->|Hz]; [apply Hcast|]. apply list_elem_of_fmap in Hz as (u & -> & _). apply Hcast. }
  split_and!; try apply Hin; try done; [lia|]. apply Forall_map in H3.
  apply Forall_and. split; [by rewrite Hbits|done].
Qed.

Lemma minmax_header T v :
  is_base T -> int_min T <= v <= int_max T ->
  cast (if is_signed T then Int64 else UInt64) (uwrap 64 v) = v.
Proof.
  intros HT Hv. destruct (base_width T HT) as (HW & _ & _). unfold int_min, int_max in Hv.
  destruct (is_signed T); unfold cast; simpl.
  - rewrite swrap_uwrap by lia. apply swrap_small; [lia|]. unfold in_signed.
    pose proof (Z.pow_le_mono_r 2 (width T - 1) 63). change (64 - 1) with 63. lia.
  - pose proof (Z.pow_le_mono_r 2 (width T) 64). rewrite !uwrap_small; unfold in_unsigned; rewrite ?uwrap_small; unfold in_unsigned; lia.
Qed.

Lemma transpose_bytes w full src num_bits :
  (length src <= 64)%nat -> (num_bits <= 64)%nat -> is_bytes (transpose w full src num_bits).
Proof.
  intros Hs Hn. pose proof (transpose_lines w full src num_bits Hs Hn) as E.
  assert (H : is_bytes (mjoin (map (stored_line w full src num_bits) (seq 0 8)))).
  { apply Forall_join, Forall_fmap, Forall_true. intros k. simpl. unfold stored_line, transpose64x8.
    repeat case_match; [apply store_values_bytes|apply byte_line_bytes|..|apply Forall_replicate; lia].
    all: apply Forall_app_2; [apply is_bytes_take, store_values_bytes|apply Forall_replicate; lia]. }
  rewrite <- E in H. by apply Forall_app in H as [? _].
Qed.

Lemma compress_blocks_bytes w full num_bits num_full values :
  (num_bits <= 64)%nat -> (length values < num_full * 64 + 64)%nat ->
  is_bytes (compress_blocks w full num_bits num_full values).
Proof.
  intros Hn. revert values. induction num_full as [|n IH]; intros values Hl; cbn [compress_blocks].
  - destruct values; [constructor|]. apply transpose_bytes; [lia|done].
  - apply Forall_app_2; [apply transpose_bytes; [rewrite length_take; lia|done]|]. apply IH. rewrite length_drop. lia.
Qed.

Lemma le_bytes8_range v : in_unsigned (bits 8) (uwrap 64 v).
Proof. apply (uwrap_range 64). lia. Qed.

(** The column after its header. *)
Lemma decompressData_header T full min max rest size :
  is_base T -> int_min T <= min <= int_max T -> int_min T <= max <= int_max T ->
  (size mod sizeofT T = 0)%nat ->
  decompressData T full (le_bytes 8 (uwrap 64 min) ++ le_bytes 8 (uwrap 64 max) ++ rest) size =
  let num_elements := (size / sizeofT T)%nat in
  let num_bits := num_bits_of T min max in
  if num_bits =? 0 then Ok (store_values (sizeofT T) (replicate num_elements (uwrap (width T) min)))
  else
    let src_shift := (8 * Z.to_nat num_bits)%nat in
    if (length rest =? 0)%nat || negb (length rest mod src_shift =? 0)%nat then Throw CANNOT_DECOMPRESS
    else
      let tail := (num_elements mod 64)%nat in
      let num_full := (if (tail =? 0)%nat then length rest / src_shift else length rest / src_shift - 1)%nat in
      if negb (num_full * 64 + tail =? num_elements)%nat then Throw CANNOT_DECOMPRESS
      else
        let! out := decompress_blocks (sizeofT T) full (Z.to_nat num_bits) num_full tail (restore T min max num_bits) rest in
        Ok (store_values (sizeofT T) out).
Proof.
  intros HT Hmin Hmax Hs. unfold decompressData. rewrite !length_app, !length_le_bytes.
  destruct (Nat.ltb_spec (8 + (8 + length rest)) 16); [lia|]. rewrite Hs. cbn [Nat.eqb negb].
  rewrite (load_store 8 (uwrap 64 min)) by apply le_bytes8_range.
  rewrite (drop_store 8 (uwrap 64 min)), (load_store 8 (uwrap 64 max)) by apply le_bytes8_range.
  rewrite !minmax_header by done.
  replace (drop 16 _) with rest; [done|]. symmetry. rewrite app_assoc. apply drop_app_length'.
  by rewrite length_app, !length_le_bytes.
Qed.

(** A column decompresses from its bounds and its blocks. *)
Lemma t64_decompress_column T full values first min max :
  is_base T -> is_values (sizeofT T) values -> first ∈ values ->
  findMinMax (map (cast T) values) (cast T first) = (min, max) ->
  let num_bits := num_bits_of T min max in
  let rest := if num_bits =? 0 then []
              else compress_blocks (sizeofT T) full (Z.to_nat num_bits) (length values / 64) values in
  is_bytes rest /\ (length rest <= sizeofT T * (length values + 64))%nat /\
  decompressData T full (le_bytes 8 (uwrap 64 min) ++ le_bytes 8 (uwrap 64 max) ++ rest)
    (sizeofT T * length values) = Ok (store_values (sizeofT T) values).
Proof.
  intros HT Hv Hf E num_bits rest. destruct (base_width T HT) as (HW & Hw & Hbits).
  destruct (column_bounds T values first min max HT Hv Hf E) as (Hmin & Hmax & Hle & HP).
  pose proof (num_bits_range T min max HW Hmin Hmax Hle) as Hn. fold num_bits in Hn.
  assert (Hnb : (Z.to_nat num_bits <= 8 * sizeofT T)%nat) by (unfold bits in Hbits; lia).
  set (tail := (length values mod 64)%nat).
  assert (Hl : length values = (length values / 64 * 64 + tail)%nat) by (unfold tail; pose proof (Nat.div_mod_eq (length values) 64); lia).
  assert (Ht : (tail < 64)%nat) by (apply Nat.mod_upper_bound; lia).
  rewrite decompressData_header by (done || lia || (rewrite Nat.mul_comm; apply Nat.Div0.mod_mul)).
  rewrite (Nat.mul_comm (sizeofT T) (length values)), Nat.div_mul by lia. cbv zeta. fold num_bits tail.
  destruct (Z.eqb_spec num_bits 0) as [H0|H0].
  - split_and!; [constructor|simpl; lia|]. do 2 f_equal. apply replicate_as_Forall. split; [done|].
    eapply Forall_impl; [exact HP|]. intros u [Hu1 Hu2]. symmetry. by apply (no_bits_constant T min max).
  - assert (Hrl : length rest = (8 * Z.to_nat num_bits * (if (tail =? 0)%nat then length values / 64 else S (length values / 64)))%nat).
    { unfold rest. apply length_compress_blocks; lia || done. }
    split_and!; [apply compress_blocks_bytes; lia| |].
    { fold rest. rewrite Hrl. destruct (tail =? 0)%nat; nia. }
    fold rest. apply list_elem_of_lookup in Hf as [i Hi%lookup_lt_Some].
    set (blocks := (if (tail =? 0)%nat then length values / 64 else S (length values / 64))%nat) in *.
    assert (Hb : (0 < blocks)%nat) by (unfold blocks; destruct (Nat.eqb_spec tail 0); lia).
    set (shift := (8 * Z.to_nat num_bits)%nat) in *. assert (0 < shift)%nat by (unfold shift; lia).
    rewrite Hrl, (Nat.mul_comm shift), Nat.div_mul, Nat.Div0.mod_mul by lia.
    destruct (Nat.eqb_spec (blocks * shift) 0); [lia|]. cbn [Nat.eqb negb orb].
    replace (if (tail =? 0)%nat then blocks else (blocks - 1)%nat) with (length values / 64)%nat
      by (unfold blocks; destruct (tail =? 0)%nat; lia).
    rewrite <- Hl, Nat.eqb_refl. cbn [negb]. unfold rest.
    rewrite (blocks_roundtrip _ _ _ _ (fun u => in_unsigned (width T) u /\ min <= cast T u <= max)); try done; [lia|].
    intros us Hus. rewrite Z2Nat.id by lia. by apply restore_values.
Qed.

Lemma compressData_spec T full src :
  is_base T -> is_bytes src -> src <> [] -> (length src mod sizeofT T = 0)%nat ->
  exists data, compressData T full src = Ok data /\ is_bytes data /\ (length data <= length src + 528)%nat /\
    decompressData T full data (length src) = Ok src.
Proof.
  intros HT Hb Hne Hm. destruct (base_width T HT) as (HW & Hw & Hbits). unfold compressData. rewrite Hm. cbn [Nat.eqb negb].
  pose proof (Nat.div_mod_eq (length src) (sizeofT T)) as Hd.
  pose proof (aligned_range (sizeofT T) src Hb) as Hv. pose proof (aligned_store_load (sizeofT T) src ltac:(lia) Hb Hm) as Hback.
  pose proof (length_load_values (sizeofT T) (length src / sizeofT T) src) as Hlen.
  destruct (load_values _ _ src) as [|first tl] eqn:Eload.
  { cbn [store_values] in Hback. by destruct Hne. }
  set (values := first :: tl) in *. assert (Hf : first ∈ values) by (unfold values; set_solver).
  destruct (findMinMax _ _) as [min max] eqn:E.
  destruct (t64_decompress_column T full values first min max HT Hv Hf E) as (H1 & H2 & H3).
  rewrite Hlen in H1, H2, H3. rewrite Hback in H3. replace (sizeofT T * (length src / sizeofT T))%nat with (length src) in H3 by lia.
  set (rest := if _ =? 0 then [] else _) in *.
  exists (le_bytes 8 (uwrap 64 min) ++ le_bytes 8 (uwrap 64 max) ++ rest). split_and!; [| | |done].
  - unfold rest. destruct (_ =? 0); [by rewrite app_nil_r|]. by rewrite app_assoc.
  - rewrite !is_bytes_app. split_and!; [apply le_bytes_range..|done].
  - rewrite !length_app, !length_le_bytes. nia.
Qed.

Lemma compressData_Ok T full src data :
  is_base T -> compressData T full src = Ok data -> src <> [] /\ (length src mod sizeofT T = 0)%nat.
Proof.
  intros HT. unfold compressData. destruct (Nat.eqb_spec (length src mod sizeofT T) 0) as [Hm|]; [|done]. cbn [negb].
  intros H. split; [|done]. intros ->. cbn [length] in H. destruct (base_width T HT) as (_ & Hw & _).
  rewrite Nat.div_small in H by lia. done.
Qed.

(** * The codec *)

(** The magic numbers name the types. *)
Lemma typeId_roundtrip type_idx magic :
  serializeTypeId type_idx = Ok magic ->
  exists idx T, type_idx = Some idx /\ deserializeTypeId magic = Ok idx /\ baseType idx = Some T /\ 0 < magic < 128.
Proof.
  destruct type_idx as [idx|]; [|done]. simpl. destruct idx; intros H; try done; injection H as <-;
    eexists _, _; (split; [done|]); (split; [done|]); (split; [done|]); lia.
Qed.

Lemma cookie_parts magic b :
  0 < magic < 128 -> let cookie := Z.lor magic (if b : bool then 128 else 0) in
  0 <= cookie < 256 /\ Z.land cookie 0x7F = magic /\ (Z.shiftr cookie 7 =? 1) = b.
Proof.
  intros Hm. cbv zeta. assert (H : magic ∈ map Z.of_nat (seq 1 127)).
  { apply list_elem_of_fmap. exists (Z.to_nat magic). split; [lia|]. apply elem_of_seq. lia. }
  revert H. clear Hm. revert magic. apply Forall_forall. destruct b; vm_compute; repeat constructor; done.
Qed.

(** Whatever [doCompressData] accepts decompresses to the same bytes. *)
Lemma t64_doCompressData_spec type_idx variant src data :
  is_bytes src -> doCompressData type_idx variant src = Ok data ->
  is_bytes data /\ (length data <= length src + 529)%nat /\
  forall dest, length dest = length src -> doDecompressData data dest = Ok src.
Proof.
  intros Hb H. unfold doCompressData in H. apply rbind_Ok in H as (magic & Hmagic & H).
  destruct (typeId_roundtrip type_idx magic Hmagic) as (idx & T & -> & Hid & HT & Hr). rewrite HT in H.
  apply rbind_Ok in H as (column & Hc & H). apply Ok_inj in H as <-. pose proof (baseType_base _ _ HT) as Hbase.
  destruct (compressData_Ok _ _ _ _ Hbase Hc) as [Hne Hm].
  destruct (compressData_spec T (variant_full variant) src Hbase Hb Hne Hm) as (d & Hd & Hdb & Hdl & Hback).
  assert (d = column) as -> by congruence.
  destruct (cookie_parts magic (variant_full variant) Hr) as (Hcr & Hland & Hshift). split_and!.
  - by constructor.
  - simpl. lia.
  - intros dest Hl. unfold doDecompressData. rewrite Hland, Hshift, Hid. cbn [rbind]. rewrite HT.
    replace (variant_full _) with (variant_full variant) by (by destruct variant).
    rewrite Hl, Hback. cbn [rbind]. by apply put_full.
Qed.

#[export] Instance lossless_T64 type_idx variant type_idx' variant' :
  LosslessCodec (CompressionCodecT64 type_idx variant) (CompressionCodecT64 type_idx' variant') 1.
Proof.
  split; simpl; [done|lia| |].
  - intros src data Hb _ Hd. by apply (t64_doCompressData_spec type_idx variant src data Hb Hd).
  - intros src data dest Hb _ _ Hd Hl. by apply (t64_doCompressData_spec type_idx variant src data Hb Hd).
Qed.

(** * Safety *)

Lemma num_bits_at_most_64 T min max :
  0 <= num_bits_of T (cast (if is_signed T then Int64 else UInt64) min)
    (cast (if is_signed T then Int64 else UInt64) max) <= 64.
Proof.
  assert (Hv : forall a b, in_unsigned 64 a -> in_unsigned 64 b -> 0 <= getValuableBitsNumber a b <= 64).
  { intros a b [Ha1 Ha2] [Hb1 Hb2]. split; [apply getValuableBitsNumber_nonneg|]. apply getValuableBitsNumber_le; try lia.
    intros j Hj. rewrite !(sign_extension 64) by lia. destruct (Z.ltb_spec a 0), (Z.ltb_spec b 0); done || lia. }
  unfold num_bits_of. destruct (is_signed T) eqn:Hs; [|apply Hv; apply (uwrap_range 64); lia].
  set (a := cast Int64 min). set (b := cast Int64 max).
  destruct ((a <? 0) && (0 <=? b)) eqn:Hm.
  - pose proof (swrap_range 64 min ltac:(lia)). pose proof (swrap_range 64 max ltac:(lia)).
    apply andb_true_iff in Hm as [H1%Z.ltb_lt H2%Z.leb_le]. unfold in_signed in *.
    assert (Hmx : mixed Int64 a b = true) by (unfold mixed; simpl; rewrite andb_true_iff, Z.ltb_lt, Z.leb_le; done).
    assert (H3 : 1 <= num_bits_of Int64 a b <= width Int64).
    { apply mixed_bits; try done; unfold a, b, int_min, int_max, cast; simpl; lia. }
    unfold num_bits_of in H3. simpl in H3. lia.
  - unfold getValuableBitsNumber_signed. rewrite Hm. apply Hv; apply uwrap_range; lia.
Qed.

Lemma length_restore T min max num_bits buf : length (restore T min max num_bits buf) = length buf.
Proof. unfold restore, restoreUpperBits. destruct (_ && _); apply length_map. Qed.

Lemma decompressData_safe T full src size :
  is_base T ->
  match decompressData T full src size with Ok out => length out = size | Throw e => e <> OUT_OF_BOUNDS_ACCESS end.
Proof.
  intros HT. destruct (base_width T HT) as (_ & Hw & _). unfold decompressData. destruct (_ <? 16)%nat; [done|].
  destruct (Nat.eqb_spec (size mod sizeofT T) 0) as [Hm|]; [|done]. cbn [negb].
  pose proof (Nat.div_mod_eq size (sizeofT T)) as Hd. set (num_elements := (size / sizeofT T)%nat) in *.
  pose proof (num_bits_at_most_64 T (unalignedLoad 8 src) (unalignedLoad 8 (drop 8 src))) as Hn.
  set (num_bits := num_bits_of _ _ _) in *. set (rest := drop 16 src).
  destruct (Z.eqb_spec num_bits 0) as [H0|H0].
  { rewrite length_store_values, length_replicate. lia. }
  destruct (Nat.eqb_spec (length rest) 0) as [|Hr]; [done|]. cbn [orb].
  set (shift := (8 * Z.to_nat num_bits)%nat) in *. assert (0 < shift)%nat by (unfold shift; lia).
  destruct (Nat.eqb_spec (length rest mod shift) 0) as [Hrm|]; [|done]. cbn [negb].
  set (tail := (num_elements mod 64)%nat). assert (Ht : (tail < 64)%nat) by (apply Nat.mod_upper_bound; lia).
  pose proof (Nat.div_mod_eq (length rest) shift) as Hrd.
  match goal with |- context [negb (?a =? num_elements)%nat] => destruct (Nat.eqb_spec a num_elements) as [He|] end; [|done].
  cbn [negb]. match goal with |- context [decompress_blocks ?w ?f ?n ?k ?t ?g ?s] =>
    destruct (decompress_blocks_safe w f n g k t s) as (out & -> & Hout) end; [lia| |done|intros; apply length_restore|].
  { fold shift. destruct (tail =? 0)%nat; [lia|]. assert (length rest / shift <> 0)%nat by nia. nia. }
  cbn [rbind]. rewrite length_store_values, Hout, He. lia.
Qed.

#[export] Instance safe_T64 type_idx variant : SafeDecoder (CompressionCodecT64 type_idx variant).
Proof.
  intros source dest Hb _ _. simpl. unfold doDecompressData. destruct source as [|cookie src]; [done|].
  destruct (deserializeTypeId _) as [idx|e] eqn:Eid; cbn [rbind].
  - destruct (baseType idx) as [T|] eqn:HT; [|done].
    pose proof (decompressData_safe T (variant_full (if Z.shiftr cookie 7 =? 1 then Bit else Byte)) src (length dest)
      (baseType_base _ _ HT)) as H.
    destruct (decompressData _ _ _ _) as [out|e]; [|done]. cbn [rbind]. apply put_safe. lia.
  - unfold deserializeTypeId in Eid. simpl. intros ->. repeat case_match; done.
Qed.

(** C13: T64 restores every column of every type it supports, in both variants:
    a non-empty column of whole values compresses, into no more than the
    reserved size, and decompresses to the same bytes, whatever the type and the
    variant of the codec that decompresses it. *)
Theorem t64_lossless (idx : TypeIndex.t) (T : IntType) (variant : Variant) (src dest : bytes) :
  baseType idx = Some T -> is_bytes src -> 0 < size_of src < 2 ^ 32 - 529 ->
  (length src mod sizeofT T = 0)%nat -> length dest = length src ->
  exists data, doCompressData (Some idx) variant src = Ok data /\
    size_of data <= Codec.getMaxCompressedDataSize (CompressionCodecT64 (Some idx) variant) (size_of src) /\
    doDecompressData data dest = Ok src.
Proof.
  intros HT Hb Hs Hm Hd. pose proof (baseType_base _ _ HT) as Hbase.
  assert (Hne : src <> []) by (intros ->; simpl in Hs; lia).
  destruct (compressData_spec T (variant_full variant) src Hbase Hb Hne Hm) as (column & Hc & _).
  assert (Hmagic : exists magic, serializeTypeId (Some idx) = Ok magic) by (destruct idx; try done; eexists; reflexivity).
  destruct Hmagic as [magic Hmagic].
  assert (Hdo : exists data, doCompressData (Some idx) variant src = Ok data).
  { unfold doCompressData. rewrite Hmagic, HT, Hc. by eexists. }
  destruct Hdo as [data Hdo]. exists data. destruct (t64_doCompressData_spec _ _ _ _ Hb Hdo) as (_ & Hl & Hback).
  split_and!; [done| |by apply Hback]. simpl. unfold MAX_COMPRESSED_BLOCK_SIZE, HEADER_SIZE.
  rewrite uwrap_small by (unfold in_unsigned; lia). lia.
Qed.

Lemma t64_lossless_witness :
  exists data, doCompressData (Some TypeIndex.Enum16) Bit [3; 0; 1; 2; 255; 255] = Ok data /\
    size_of data <= Codec.getMaxCompressedDataSize (CompressionCodecT64 (Some TypeIndex.Enum16) Bit) 6 /\
    doDecompressData data (replicate 6 0) = Ok [3; 0; 1; 2; 255; 255].
Proof.
  apply (t64_lossless TypeIndex.Enum16 UInt16 Bit [3; 0; 1; 2; 255; 255] (replicate 6 0));
    [reflexivity| |split; reflexivity|reflexivity|reflexivity].
  repeat constructor; discriminate.
Defined.
