(* ===== verification/LZ4Decompress.v ===== *)
(** The decompression of LZ4 blocks (src/Compression/LZ4_decompress_faster.{h,cpp}):
    five variants that copy 8, 16 or 32 bytes at once and write past the end of
    the data, against the definition of the format.  The machine is x86-64 with
    SSSE3. *)
From S2P Require Import Prelude IntText BinaryIO.
Import Binary.

(** * Memory *)

Definition load {A} (n : nat) (addr : Z) (m : list A) : result (list A) :=
  if (addr <? 0) || (Z.of_nat (length m) <? addr + Z.of_nat n) then Throw OUT_OF_BOUNDS_ACCESS
  else Ok (take n (drop (Z.to_nat addr) m)).

Definition store {A} (addr : Z) (bs m : list A) : result (list A) :=
  if (addr <? 0) || (Z.of_nat (length m) <? addr + Z.of_nat (length bs)) then Throw OUT_OF_BOUNDS_ACCESS
  else Ok (take (Z.to_nat addr) m ++ bs ++ drop (Z.to_nat addr + length bs) m).

(** An element of an array. *)
Definition elem {A} (t : list A) (i : Z) : result A :=
  if i <? 0 then Throw OUT_OF_BOUNDS_ACCESS
  else match t !! Z.to_nat i with Some x => Ok x | None => Throw OUT_OF_BOUNDS_ACCESS end.

(** Copying [n] bytes to [dst] in the output, from [src] in the input, or in the
    output itself if there is none.  The bytes are loaded before they are stored. *)
Definition move {A} (n : nat) (input : option (list A)) (output : list A) (dst src : Z) : result (list A) :=
  let! bs := load n src (default output input) in store dst bs output.

(** * Copying with overlap *)

(** The tables of [copyOverlap8], [copyOverlap16] and [copyOverlap32]. *)
Definition shift1_8 : list Z :=
  [0; 1; 2; 1; 4; 4; 4; 4].
Definition shift2_8 : list Z :=
  [0; 0; 0; 1; 0; -1; -2; -3].

Definition shift1_16 : list Z :=
  [0; 1; 2; 1; 4; 4; 4; 4; 4; 4; 4; 4; 4; 4; 4; 4].
Definition shift2_16 : list Z :=
  [0; 0; 0; 1; 0; -1; -2; -3; -4; 4; 4; 4; 4; 4; 4; 4].
Definition shift3_16 : list Z :=
  [0; 0; 0; -1; 0; -2; 2; 1; 8; -1; -2; -3; -4; -5; -6; -7].

Definition shift1_32 : list Z :=
  [0; 1; 2; 1; 4; 4; 4; 4; 4; 4; 4; 4; 4; 4; 4; 4; 4; 4; 4; 4; 4; 4; 4; 4; 4; 4; 4; 4; 4; 4; 4; 4].
Definition shift2_32 : list Z :=
  [0; 0; 0; 1; 0; -1; -2; -3; -4; 4; 4; 4; 4; 4; 4; 4; 4; 4; 4; 4; 4; 4; 4; 4; 4; 4; 4; 4; 4; 4; 4; 4].
Definition shift3_32 : list Z :=
  [0; 0; 0; -1; 0; -2; 2; 1; 8; -1; -2; -3; -4; -5; -6; -7; 8; 8; 8; 8; 8; 8; 8; 8; 8; 8; 8; 8; 8; 8; 8; 8].
Definition shift4_32 : list Z :=
  [0; 0; 0; 1; 0; 1; -2; 2; 0; -2; -4; 5; 4; 3; 2; 1; 0; -1; -2; -3; -4; -5; -6; -7; -8; -9; -10; -11; -12; -13; -14; -15].

(** The masks of [copyOverlap8Shuffle]. *)
Definition masks_8 : list Z := [
  0; 1; 2; 2; 4; 3; 2; 1;
  0; 0; 0; 0; 0; 0; 0; 0;
  0; 1; 0; 1; 0; 1; 0; 1;
  0; 1; 2; 0; 1; 2; 0; 1;
  0; 1; 2; 3; 0; 1; 2; 3;
  0; 1; 2; 3; 4; 0; 1; 2;
  0; 1; 2; 3; 4; 5; 0; 1;
  0; 1; 2; 3; 4; 5; 6; 0;
  0; 0; 0; 0; 0; 0; 0; 0].

(** The masks of [copyOverlap16Shuffle]. *)
Definition masks_16 : list Z := [
  0; 1; 2; 1; 4; 1; 4; 2; 8; 7; 6; 5; 4; 3; 2; 1;
  0; 0; 0; 0; 0; 0; 0; 0; 0; 0; 0; 0; 0; 0; 0; 0;
  0; 1; 0; 1; 0; 1; 0; 1; 0; 1; 0; 1; 0; 1; 0; 1;
  0; 1; 2; 0; 1; 2; 0; 1; 2; 0; 1; 2; 0; 1; 2; 0;
  0; 1; 2; 3; 0; 1; 2; 3; 0; 1; 2; 3; 0; 1; 2; 3;
  0; 1; 2; 3; 4; 0; 1; 2; 3; 4; 0; 1; 2; 3; 4; 0;
  0; 1; 2; 3; 4; 5; 0; 1; 2; 3; 4; 5; 0; 1; 2; 3;
  0; 1; 2; 3; 4; 5; 6; 0; 1; 2; 3; 4; 5; 6; 0; 1;
  0; 1; 2; 3; 4; 5; 6; 7; 0; 1; 2; 3; 4; 5; 6; 7;
  0; 1; 2; 3; 4; 5; 6; 7; 8; 0; 1; 2; 3; 4; 5; 6;
  0; 1; 2; 3; 4; 5; 6; 7; 8; 9; 0; 1; 2; 3; 4; 5;
  0; 1; 2; 3; 4; 5; 6; 7; 8; 9; 10; 0; 1; 2; 3; 4;
  0; 1; 2; 3; 4; 5; 6; 7; 8; 9; 10; 11; 0; 1; 2; 3;
  0; 1; 2; 3; 4; 5; 6; 7; 8; 9; 10; 11; 12; 0; 1; 2;
  0; 1; 2; 3; 4; 5; 6; 7; 8; 9; 10; 11; 12; 13; 0; 1;
  0; 1; 2; 3; 4; 5; 6; 7; 8; 9; 10; 11; 12; 13; 14; 0].

(** The masks of [copyOverlap32Shuffle]. *)
Definition masks_32 : list Z := [
  0; 1; 2; 2; 4; 2; 2; 4; 8; 5; 2; 10; 8; 6; 4; 2; 16; 15; 14; 13; 12; 11; 10; 9; 8; 7; 6; 5; 4; 3; 2; 1;
  0; 0; 0; 0; 0; 0; 0; 0; 0; 0; 0; 0; 0; 0; 0; 0; 0; 0; 0; 0; 0; 0; 0; 0; 0; 0; 0; 0; 0; 0; 0; 0;
  0; 1; 0; 1; 0; 1; 0; 1; 0; 1; 0; 1; 0; 1; 0; 1; 0; 1; 0; 1; 0; 1; 0; 1; 0; 1; 0; 1; 0; 1; 0; 1;
  0; 1; 2; 0; 1; 2; 0; 1; 2; 0; 1; 2; 0; 1; 2; 0; 1; 2; 0; 1; 2; 0; 1; 2; 0; 1; 2; 0; 1; 2; 0; 1;
  0; 1; 2; 3; 0; 1; 2; 3; 0; 1; 2; 3; 0; 1; 2; 3; 0; 1; 2; 3; 0; 1; 2; 3; 0; 1; 2; 3; 0; 1; 2; 3;
  0; 1; 2; 3; 4; 0; 1; 2; 3; 4; 0; 1; 2; 3; 4; 0; 1; 2; 3; 4; 0; 1; 2; 3; 4; 0; 1; 2; 3; 4; 0; 1;
  0; 1; 2; 3; 4; 5; 0; 1; 2; 3; 4; 5; 0; 1; 2; 3; 4; 5; 0; 1; 2; 3; 4; 5; 0; 1; 2; 3; 4; 5; 0; 1;
  0; 1; 2; 3; 4; 5; 6; 0; 1; 2; 3; 4; 5; 6; 0; 1; 2; 3; 4; 5; 6; 0; 1; 2; 3; 4; 5; 6; 0; 1; 2; 3;
  0; 1; 2; 3; 4; 5; 6; 7; 0; 1; 2; 3; 4; 5; 6; 7; 0; 1; 2; 3; 4; 5; 6; 7; 0; 1; 2; 3; 4; 5; 6; 7;
  0; 1; 2; 3; 4; 5; 6; 7; 8; 0; 1; 2; 3; 4; 5; 6; 7; 8; 0; 1; 2; 3; 4; 5; 6; 7; 8; 0; 1; 2; 3; 4;
  0; 1; 2; 3; 4; 5; 6; 7; 8; 9; 0; 1; 2; 3; 4; 5; 6; 7; 8; 9; 0; 1; 2; 3; 4; 5; 6; 7; 8; 9; 0; 1;
  0; 1; 2; 3; 4; 5; 6; 7; 8; 9; 10; 0; 1; 2; 3; 4; 5; 6; 7; 8; 9; 10; 0; 1; 2; 3; 4; 5; 6; 7; 8; 9;
  0; 1; 2; 3; 4; 5; 6; 7; 8; 9; 10; 11; 0; 1; 2; 3; 4; 5; 6; 7; 8; 9; 10; 11; 0; 1; 2; 3; 4; 5; 6; 7;
  0; 1; 2; 3; 4; 5; 6; 7; 8; 9; 10; 11; 12; 0; 1; 2; 3; 4; 5; 6; 7; 8; 9; 10; 11; 12; 0; 1; 2; 3; 4; 5;
  0; 1; 2; 3; 4; 5; 6; 7; 8; 9; 10; 11; 12; 13; 0; 1; 2; 3; 4; 5; 6; 7; 8; 9; 10; 11; 12; 13; 0; 1; 2; 3;
  0; 1; 2; 3; 4; 5; 6; 7; 8; 9; 10; 11; 12; 13; 14; 0; 1; 2; 3; 4; 5; 6; 7; 8; 9; 10; 11; 12; 13; 14; 0; 1;
  0; 1; 2; 3; 4; 5; 6; 7; 8; 9; 10; 11; 12; 13; 14; 15; 0; 1; 2; 3; 4; 5; 6; 7; 8; 9; 10; 11; 12; 13; 14; 15;
  0; 1; 2; 3; 4; 5; 6; 7; 8; 9; 10; 11; 12; 13; 14; 15; 16; 0; 1; 2; 3; 4; 5; 6; 7; 8; 9; 10; 11; 12; 13; 14;
  0; 1; 2; 3; 4; 5; 6; 7; 8; 9; 10; 11; 12; 13; 14; 15; 16; 17; 0; 1; 2; 3; 4; 5; 6; 7; 8; 9; 10; 11; 12; 13;
  0; 1; 2; 3; 4; 5; 6; 7; 8; 9; 10; 11; 12; 13; 14; 15; 16; 17; 18; 0; 1; 2; 3; 4; 5; 6; 7; 8; 9; 10; 11; 12;
  0; 1; 2; 3; 4; 5; 6; 7; 8; 9; 10; 11; 12; 13; 14; 15; 16; 17; 18; 19; 0; 1; 2; 3; 4; 5; 6; 7; 8; 9; 10; 11;
  0; 1; 2; 3; 4; 5; 6; 7; 8; 9; 10; 11; 12; 13; 14; 15; 16; 17; 18; 19; 20; 0; 1; 2; 3; 4; 5; 6; 7; 8; 9; 10;
  0; 1; 2; 3; 4; 5; 6; 7; 8; 9; 10; 11; 12; 13; 14; 15; 16; 17; 18; 19; 20; 21; 0; 1; 2; 3; 4; 5; 6; 7; 8; 9;
  0; 1; 2; 3; 4; 5; 6; 7; 8; 9; 10; 11; 12; 13; 14; 15; 16; 17; 18; 19; 20; 21; 22; 0; 1; 2; 3; 4; 5; 6; 7; 8;
  0; 1; 2; 3; 4; 5; 6; 7; 8; 9; 10; 11; 12; 13; 14; 15; 16; 17; 18; 19; 20; 21; 22; 23; 0; 1; 2; 3; 4; 5; 6; 7;
  0; 1; 2; 3; 4; 5; 6; 7; 8; 9; 10; 11; 12; 13; 14; 15; 16; 17; 18; 19; 20; 21; 22; 23; 24; 0; 1; 2; 3; 4; 5; 6;
  0; 1; 2; 3; 4; 5; 6; 7; 8; 9; 10; 11; 12; 13; 14; 15; 16; 17; 18; 19; 20; 21; 22; 23; 24; 25; 0; 1; 2; 3; 4; 5;
  0; 1; 2; 3; 4; 5; 6; 7; 8; 9; 10; 11; 12; 13; 14; 15; 16; 17; 18; 19; 20; 21; 22; 23; 24; 25; 26; 0; 1; 2; 3; 4;
  0; 1; 2; 3; 4; 5; 6; 7; 8; 9; 10; 11; 12; 13; 14; 15; 16; 17; 18; 19; 20; 21; 22; 23; 24; 25; 26; 27; 0; 1; 2; 3;
  0; 1; 2; 3; 4; 5; 6; 7; 8; 9; 10; 11; 12; 13; 14; 15; 16; 17; 18; 19; 20; 21; 22; 23; 24; 25; 26; 27; 28; 0; 1; 2;
  0; 1; 2; 3; 4; 5; 6; 7; 8; 9; 10; 11; 12; 13; 14; 15; 16; 17; 18; 19; 20; 21; 22; 23; 24; 25; 26; 27; 28; 29; 0; 1;
  0; 1; 2; 3; 4; 5; 6; 7; 8; 9; 10; 11; 12; 13; 14; 15; 16; 17; 18; 19; 20; 21; 22; 23; 24; 25; 26; 27; 28; 29; 30; 0].

(** [_mm_shuffle_epi8] for [n = 16], and [_mm256_permutexvar_epi8] for [n = 32], for
    masks without the high bit. *)
Definition shuffle {A} (n : Z) (bs : list A) (mask : list Z) : list A :=
  omap (fun i => bs !! Z.to_nat (Z.land i (n - 1))) mask.

(** The first statements of the functions without shuffle. *)
Definition copyOverlap4 {A} (m : list A) (op mtch : Z) : result (list A) :=
  let! m := move 1 None m op mtch in
  let! m := move 1 None m (op + 1) (mtch + 1) in
  let! m := move 1 None m (op + 2) (mtch + 2) in
  move 1 None m (op + 3) (mtch + 3).

(** The functions return the memory and the new value of [match]. *)
Definition copyOverlap8 {A} (m : list A) (op mtch offset : Z) : result (list A * Z) :=
  let! m := copyOverlap4 m op mtch in
  let! s1 := elem shift1_8 offset in
  let mtch := mtch + s1 in
  let! m := move 4 None m (op + 4) mtch in
  let! s2 := elem shift2_8 offset in
  Ok (m, mtch + s2).

Definition copyOverlap8Shuffle {A} (m : list A) (op mtch offset : Z) : result (list A * Z) :=
  let! bs := load 16 mtch m in
  let! mask := load 16 (8 * offset) masks_8 in
  let! m := store op (shuffle 16 bs mask) m in
  let! s := elem masks_8 offset in
  Ok (m, mtch + s).

Definition copyOverlap16 {A} (m : list A) (op mtch offset : Z) : result (list A * Z) :=
  let! m := copyOverlap4 m op mtch in
  let! s1 := elem shift1_16 offset in
  let mtch := mtch + s1 in
  let! m := move 4 None m (op + 4) mtch in
  let! s2 := elem shift2_16 offset in
  let mtch := mtch + s2 in
  let! m := move 8 None m (op + 8) mtch in
  let! s3 := elem shift3_16 offset in
  Ok (m, mtch + s3).

Definition copyOverlap16Shuffle {A} (m : list A) (op mtch offset : Z) : result (list A * Z) :=
  let! bs := load 16 mtch m in
  let! mask := load 16 (16 * offset) masks_16 in
  let! m := store op (shuffle 16 bs mask) m in
  let! s := elem masks_16 offset in
  Ok (m, mtch + s).

Definition copyOverlap32 {A} (m : list A) (op mtch offset : Z) : result (list A * Z) :=
  let! m := copyOverlap4 m op mtch in
  let! s1 := elem shift1_32 offset in
  let mtch := mtch + s1 in
  let! m := move 4 None m (op + 4) mtch in
  let! s2 := elem shift2_32 offset in
  let mtch := mtch + s2 in
  let! m := move 8 None m (op + 8) mtch in
  let! s3 := elem shift3_32 offset in
  let mtch := mtch + s3 in
  let! m := move 16 None m (op + 16) mtch in
  let! s4 := elem shift4_32 offset in
  Ok (m, mtch + s4).

Definition copyOverlap32Shuffle {A} (m : list A) (op mtch offset : Z) : result (list A * Z) :=
  let! mask := load 32 (32 * offset) masks_32 in
  let! bs := load 32 mtch m in
  let! m := store op (shuffle 32 bs mask) m in
  let! s := elem masks_32 offset in
  Ok (m, mtch + s).

(** * Copying by blocks *)

(** The template parameter [copy_amount]. *)
Inductive CopyAmount := Copy8 | Copy16 | Copy32.

Definition amount (N : CopyAmount) : Z := match N with Copy8 => 8 | Copy16 => 16 | Copy32 => 32 end.

Definition copy {A} (N : CopyAmount) (input : option (list A)) (output : list A) (dst src : Z) : result (list A) :=
  match N with
  | Copy8 => move 8 input output dst src
  | Copy16 => move 16 input output dst src
  | Copy32 => let! output := move 16 input output dst src in move 16 input output (dst + 16) (src + 16)
  end.

(** [wildCopy] *)
Fixpoint wildCopy_loop {A} (fuel : nat) (N : CopyAmount) (input : option (list A)) (output : list A)
    (dst src dst_end : Z) : result (list A) :=
  match fuel with
  | O => Throw LOGICAL_ERROR
  | S fuel =>
      let! output := copy N input output dst src in
      let dst := dst + amount N in
      let src := src + amount N in
      if dst <? dst_end then wildCopy_loop fuel N input output dst src dst_end else Ok output
  end.

Definition wildCopy {A} (N : CopyAmount) (input : option (list A)) (output : list A) (dst src dst_end : Z)
  : result (list A) :=
  wildCopy_loop (S (Z.to_nat (dst_end - dst))) N input output dst src dst_end.

Definition copyOverlap {A} (N : CopyAmount) (use_shuffle : bool) (m : list A) (op mtch offset : Z)
  : result (list A * Z) :=
  match N, use_shuffle with
  | Copy8, false => copyOverlap8 m op mtch offset
  | Copy8, true => copyOverlap8Shuffle m op mtch offset
  | Copy16, false => copyOverlap16 m op mtch offset
  | Copy16, true => copyOverlap16Shuffle m op mtch offset
  | Copy32, false => copyOverlap32 m op mtch offset
  | Copy32, true => copyOverlap32Shuffle m op mtch offset
  end.

(** * [decompressImpl] *)

Definition ADDITIONAL_BYTES_AT_END_OF_BUFFER : Z := 64.

Section Impl.
Context (N : CopyAmount) (use_shuffle : bool) (source : bytes) (input_end output_end : Z).

(** The lambda [continue_read_length]: the new [ip] and [length]. *)
Fixpoint continue_read_length (fuel : nat) (ip length : Z) : result (Z * Z) :=
  match fuel with
  | O => Throw LOGICAL_ERROR
  | S fuel =>
      let! s := elem source ip in
      let ip := ip + 1 in
      let length := uwrap 64 (length + s) in
      if (s =? 255) && (ip <? input_end) then continue_read_length fuel ip length else Ok (ip, length)
  end.

(** The rest of the length if the four bits of the token are all set; [None] when
    the function returns [false]. *)
Definition read_length (ip length : Z) : result (option (Z * Z)) :=
  if length =? 0x0F then
    if input_end <=? ip + 1 then Ok None
    else let! r := continue_read_length (Z.to_nat (input_end - ip)) ip length in Ok (Some r)
  else Ok (Some (ip, length)).

(** One iteration ends the function or goes on with new values of [ip] and [op]. *)
Inductive Iteration := Return (success : bool) (dest : bytes) | Continue (ip op : Z) (dest : bytes).

(** The copies of a match of [length] bytes; [None] when the function returns
    [false]. *)
Definition copy_match (dest : bytes) (op mtch offset length : Z) : result (option bytes) :=
  let copy_end := op + length in
  let! (dest, mtch) :=
    if offset <? amount N then copyOverlap N use_shuffle dest op mtch offset
    else let! dest := copy N None dest op mtch in Ok (dest, mtch + amount N) in
  let op := op + amount N in
  let! dest := copy N None dest op mtch in
  if amount N * 2 <? length then
    if output_end <? copy_end then Ok None
    else let! dest := wildCopy N None dest (op + amount N) (mtch + amount N) copy_end in Ok (Some dest)
  else Ok (Some dest).

(** From the label [decompress_match] on. *)
Definition decompress_match (token ip op : Z) (dest : bytes) : result Iteration :=
  if input_end <=? ip + 1 then Ok (Return false dest)
  else
    let! p0 := elem source ip in
    let! p1 := elem source (ip + 1) in
    let offset := uwrap 16 (p0 + Z.shiftl p1 8) in
    let ip := ip + 2 in
    let mtch := op - offset in
    if mtch <? 0 then Ok (Return false dest)
    else
      let! r := read_length ip (Z.land token 0x0F) in
      match r with
      | None => Ok (Return false dest)
      | Some (ip, length) =>
          let length := uwrap 64 (length + 4) in
          let copy_end := op + length in
          if output_end <? copy_end then Ok (Return false dest)
          else
            let! r := copy_match dest op mtch offset length in
            match r with
            | None => Ok (Return false dest)
            | Some dest => Ok (Continue ip copy_end dest)
            end
      end.

(** [real_length] *)
Definition real_length (length : Z) : Z :=
  match N with
  | Copy8 => (Z.shiftr length 3 + 1) * 8
  | Copy16 => (Z.shiftr length 4 + 1) * 16
  | Copy32 => (Z.shiftr length 5 + 1) * 32
  end.

(** The body of the loop. *)
Definition iteration (ip op : Z) (dest : bytes) : result Iteration :=
  if input_end <=? ip then Ok (Return false dest)
  else
    let! token := elem source ip in
    let ip := ip + 1 in
    let length := Z.shiftr token 4 in
    if (amount N =? 8) && (length =? 0) then decompress_match token ip op dest
    else
      let! r := read_length ip length in
      match r with
      | None => Ok (Return false dest)
      | Some (ip, length) =>
          let copy_end := op + length in
          if output_end <? copy_end then Ok (Return false dest)
          else if input_end + ADDITIONAL_BYTES_AT_END_OF_BUFFER <=? ip + real_length length then Ok (Return false dest)
          else
            let! dest := wildCopy N (Some source) dest op ip copy_end in
            if copy_end =? output_end then Ok (Return true dest)
            else decompress_match token (ip + length) copy_end dest
      end.

Fixpoint decompress_loop (fuel : nat) (ip op : Z) (dest : bytes) : result (bool * bytes) :=
  match fuel with
  | O => Throw LOGICAL_ERROR
  | S fuel =>
      let! r := iteration ip op dest in
      match r with
      | Return success dest => Ok (success, dest)
      | Continue ip op dest => decompress_loop fuel ip op dest
      end
  end.

End Impl.

(** [decompressImpl], on the memory of both buffers, with the additional bytes. *)
Definition decompressImpl (N : CopyAmount) (use_shuffle : bool) (source dest : bytes) (source_size dest_size : Z)
  : result (bool * bytes) :=
  decompress_loop N use_shuffle source source_size dest_size (S (Z.to_nat source_size)) 0 0 dest.

(** * The choice of a variant *)

Section Select.
Context {double : Type} (less : double -> double -> bool).

(** [std::min_element], as the index of the element. *)
Fixpoint min_element_loop (xs : list double) (i best : nat) (smallest : double) : nat :=
  match xs with
  | [] => best
  | x :: xs => if less x smallest then min_element_loop xs (S i) i x else min_element_loop xs (S i) best smallest
  end.

Definition min_element (xs : list double) : nat :=
  match xs with [] => 0%nat | x :: xs => min_element_loop xs 1 0 x end.

(** [PerformanceStatistics::select] with the [samples] of the methods. *)
Definition select (choose_method : Z) (samples : list double) : Z :=
  if choose_method <? 0 then Z.of_nat (min_element samples) else choose_method.
End Select.

(** [variant_size], for the instructions of the processor. *)
Definition variant_size (avx512vbmi : bool) : nat := if avx512vbmi then 5 else 4.

(** [decompress]; [best_variant] is what the performance statistics select. They have an
    element for each of the five variants, which is updated in the end; the update is not
    modelled, but for its access past the elements. *)
Definition decompress (source dest : bytes) (source_size dest_size : Z) (best_variant : Z) : result (bool * bytes) :=
  if (source_size =? 0) || (dest_size =? 0) then Ok (true, dest)
  else if 32768 <=? dest_size then
    if best_variant =? 0 then decompressImpl Copy16 true source dest source_size dest_size
    else if best_variant =? 1 then decompressImpl Copy16 false source dest source_size dest_size
    else if best_variant =? 2 then decompressImpl Copy8 true source dest source_size dest_size
    else if best_variant =? 3 then decompressImpl Copy32 false source dest source_size dest_size
    else if best_variant =? 4 then decompressImpl Copy32 true source dest source_size dest_size
    else Throw OUT_OF_BOUNDS_ACCESS
  else decompressImpl Copy8 false source dest source_size dest_size.

(** * Copies *)

(** ** Copying in a part of the memory *)

Section Frame.
Context {A B : Type} (f : A -> B) (pre post : list B).
#[local] Abbreviation at_ w := (pre ++ (f <$> w) ++ post).
#[local] Abbreviation base := (Z.of_nat (length pre)).

Lemma load_frame n a (w bs : list A) : load n a w = Ok bs -> load n (base + a) (at_ w) = Ok (f <$> bs).
Proof.
  unfold load. destruct (Z.ltb_spec a 0), (Z.ltb_spec (Z.of_nat (length w)) (a + Z.of_nat n)); cbn [orb]; try done.
  intros E. apply Ok_inj in E as <-.
  destruct (Z.ltb_spec (base + a) 0), (Z.ltb_spec (Z.of_nat (length (at_ w))) (base + a + Z.of_nat n)); cbn [orb];
    simpl_len; try lia. f_equal.
  replace (Z.to_nat (base + a)) with (length pre + Z.to_nat a)%nat by lia.
  rewrite drop_app_add, drop_app_le, take_app_le by (simpl_len; lia). by rewrite <- fmap_drop, <- fmap_take.
Qed.

Lemma store_frame a (bs w w' : list A) : store a bs w = Ok w' -> store (base + a) (f <$> bs) (at_ w) = Ok (at_ w').
Proof.
  unfold store. rewrite length_fmap.
  destruct (Z.ltb_spec a 0), (Z.ltb_spec (Z.of_nat (length w)) (a + Z.of_nat (length bs))); cbn [orb]; try done.
  intros E. apply Ok_inj in E as <-.
  destruct (Z.ltb_spec (base + a) 0), (Z.ltb_spec (Z.of_nat (length (at_ w))) (base + a + Z.of_nat (length bs)));
    cbn [orb]; simpl_len; try lia. f_equal.
  replace (Z.to_nat (base + a)) with (length pre + Z.to_nat a)%nat by lia.
  rewrite take_app_add, take_app_le by (simpl_len; lia).
  rewrite <- Nat.add_assoc, drop_app_add, drop_app_le by (simpl_len; lia).
  by rewrite !fmap_app, <- fmap_drop, <- fmap_take, <- !app_assoc.
Qed.

Lemma move_frame n (w w' : list A) d s :
  move n None w d s = Ok w' -> move n None (at_ w) (base + d) (base + s) = Ok (at_ w').
Proof.
  unfold move. cbn [default from_option]. intros (bs & Hl & Hs)%rbind_Ok.
  rewrite (load_frame _ _ _ _ Hl). by apply store_frame.
Qed.

Lemma shuffle_fmap n (bs : list A) mask : shuffle n (f <$> bs) mask = f <$> shuffle n bs mask.
Proof.
  unfold shuffle. rewrite list_fmap_omap. apply list_omap_ext. clear. induction mask; constructor; [|done].
  by rewrite list_lookup_fmap.
Qed.

Lemma copyOverlap_frame N sh (w w' : list A) op mtch off mtch' :
  copyOverlap N sh w op mtch off = Ok (w', mtch') ->
  copyOverlap N sh (at_ w) (base + op) (base + mtch) off = Ok (at_ w', base + mtch').
Proof.
  unfold copyOverlap, copyOverlap8, copyOverlap16, copyOverlap32, copyOverlap8Shuffle, copyOverlap16Shuffle,
    copyOverlap32Shuffle, copyOverlap4. intros H.
  destruct N, sh;
    repeat match goal with
    | H : rbind _ _ = Ok _ |- _ => apply rbind_Ok in H as (? & ? & H)
    | H : Ok _ = Ok _ |- _ => injection H as <- <-
    end;
    repeat match goal with
    | H : elem _ _ = Ok _ |- _ => rewrite H; clear H
    | H : load _ _ _ = Ok _ |- _ => rewrite H; clear H
    | H : load _ _ _ = Ok _ |- _ => rewrite (load_frame _ _ _ _ H); clear H
    | H : store _ _ _ = Ok _ |- _ => rewrite shuffle_fmap, (store_frame _ _ _ _ H); clear H
    | H : move _ None _ _ _ = Ok _ |- _ => apply move_frame in H; rewrite ?Z.add_assoc in H; rewrite H; clear H
    | |- _ => progress cbn [rbind]
    end; by rewrite ?Z.add_assoc.
Qed.
End Frame.

(** ** Bytes after a copy *)

Definition byte_at {A} (m : list A) (a : Z) : option A := m !! Z.to_nat a.

Abbreviation mem_size m := (Z.of_nat (length m)).

(** [m'] is [m] with [n] bytes from [src] of [from] at [dst]. *)
Record copied {A} (from m m' : list A) (dst src n : Z) : Prop := {
  copied_length : length m' = length m;
  copied_outside a : 0 <= a -> a < dst \/ dst + n <= a -> byte_at m' a = byte_at m a;
  copied_inside a : dst <= a < dst + n -> byte_at m' a = byte_at from (src + (a - dst)) }.

Lemma move_spec {A} n input (m : list A) dst src :
  0 <= src -> src + Z.of_nat n <= mem_size (default m input) -> 0 <= dst -> dst + Z.of_nat n <= mem_size m ->
  exists m', move n input m dst src = Ok m' /\ copied (default m input) m m' dst src (Z.of_nat n).
Proof.
  intros Hs Hs' Hd Hd'. unfold move, load, store.
  destruct (Z.ltb_spec src 0), (Z.ltb_spec (mem_size (default m input)) (src + Z.of_nat n)); try lia. cbn [orb rbind].
  set (bs := take n (drop (Z.to_nat src) (default m input))).
  assert (Hbs : length bs = n) by (unfold bs; simpl_len; lia). rewrite Hbs.
  destruct (Z.ltb_spec dst 0), (Z.ltb_spec (mem_size m) (dst + Z.of_nat n)); try lia. cbn [orb].
  eexists. split; [reflexivity|]. split.
  - simpl_len. lia.
  - intros a Ha Hout. unfold byte_at. destruct Hout as [Hout|Hout].
    + rewrite lookup_app_l by (simpl_len; lia). apply lookup_take_lt. lia.
    + rewrite lookup_app_r by (simpl_len; lia). rewrite lookup_app_r by (simpl_len; lia).
      rewrite lookup_drop. f_equal. simpl_len. lia.
  - intros a Ha. unfold byte_at. rewrite lookup_app_r by (simpl_len; lia). rewrite lookup_app_l by (simpl_len; lia).
    unfold bs. rewrite lookup_take_lt, lookup_drop by (simpl_len; lia). f_equal. simpl_len. lia.
Qed.

Lemma amount_cases N : amount N = 8 \/ amount N = 16 \/ amount N = 32.
Proof. destruct N; simpl; lia. Qed.

(** A block copied from the input, or from before its destination. *)
Lemma copy_spec {A} N input (m : list A) dst src :
  0 <= src -> src + amount N <= mem_size (default m input) -> 0 <= dst -> dst + amount N <= mem_size m ->
  (input = None -> src + amount N <= dst) ->
  exists m', copy N input m dst src = Ok m' /\ copied (default m input) m m' dst src (amount N).
Proof.
  intros Hs Hs' Hd Hd' Hbefore. destruct N; [by apply move_spec|by apply move_spec|]. cbn [copy amount] in *.
  destruct (move_spec 16 input m dst src) as (m1 & -> & [L1 O1 I1]); [lia..|]. cbn [rbind].
  destruct (move_spec 16 input m1 (dst + 16) (src + 16)) as (m2 & -> & [L2 O2 I2]);
    [lia|destruct input; simpl in *; lia|lia|lia|].
  exists m2. split; [done|]. split; [congruence|..].
  - intros a Ha Hout. rewrite O2, O1 by lia. done.
  - intros a Ha. destruct (decide (a < dst + 16)).
    + rewrite O2, I1 by lia. done.
    + rewrite I2 by lia. replace (src + 16 + (a - (dst + 16))) with (src + (a - dst)) by lia.
      destruct input; [done|]. specialize (Hbefore eq_refl). simpl. apply O1; lia.
Qed.

(** ** [wildCopy] *)

(** From the input: the bytes up to [dst_end], and less than a block more. *)
Lemma wildCopy_loop_input {A} fuel N (source m : list A) dst src dst_end :
  (Z.to_nat (dst_end - dst) < fuel)%nat -> 0 <= src -> 0 <= dst <= dst_end ->
  dst_end + amount N <= mem_size m -> src + (dst_end - dst) / amount N * amount N + amount N <= mem_size source ->
  exists m', wildCopy_loop fuel N (Some source) m dst src dst_end = Ok m' /\ length m' = length m /\
    (forall a, 0 <= a < dst -> byte_at m' a = byte_at m a) /\
    (forall a, dst <= a < dst_end -> byte_at m' a = byte_at source (src + (a - dst))).
Proof.
  pose proof (amount_cases N) as HN. revert m dst src.
  induction fuel as [|fuel IH]; intros m dst src Hf Hs Hd Hm Hsrc; [lia|]. cbn [wildCopy_loop].
  assert (Hq : 0 <= (dst_end - dst) / amount N) by (apply Z.div_pos; lia).
  destruct (copy_spec N (Some source) m dst src) as (m1 & -> & [L1 O1 I1]); [lia|simpl; nia|lia|lia|done|]. cbn [rbind].
  destruct (Z.ltb_spec (dst + amount N) dst_end) as [Hlt|Hge].
  - assert (Hdiv : (dst_end - (dst + amount N)) / amount N = (dst_end - dst) / amount N - 1).
    { replace (dst_end - (dst + amount N)) with (dst_end - dst + (-1) * amount N) by lia. rewrite Z.div_add; lia. }
    destruct (IH m1 (dst + amount N) (src + amount N)) as (m2 & -> & L2 & O2 & I2); [lia|lia|lia|lia|rewrite Hdiv; nia|].
    exists m2. split_and!; [done|lia|..]; intros a Ha.
    + rewrite O2, O1 by lia. done.
    + destruct (decide (a < dst + amount N)); [rewrite O2, I1 by lia; done|].
      rewrite I2 by lia. f_equal. lia.
  - exists m1. split_and!; [done|done|..]; intros a Ha; [apply O1; lia|apply I1; lia].
Qed.

(** Within the output, from [dist] bytes before: [dist] is a period of the bytes
    written. *)
Lemma wildCopy_loop_output {A} fuel N (m : list A) dst src dst_end dist :
  (Z.to_nat (dst_end - dst) < fuel)%nat -> 0 <= src -> dist = dst - src -> amount N <= dist -> dst < dst_end ->
  dst_end + amount N <= mem_size m + 1 ->
  exists m', wildCopy_loop fuel N None m dst src dst_end = Ok m' /\ length m' = length m /\
    (forall a, 0 <= a < dst -> byte_at m' a = byte_at m a) /\
    (forall a, dst <= a < dst_end -> byte_at m' a = byte_at m' (a - dist)).
Proof.
  pose proof (amount_cases N) as HN. revert m dst src.
  induction fuel as [|fuel IH]; intros m dst src Hf Hs Hdist Hd Hlt Hm; [lia|]. cbn [wildCopy_loop].
  destruct (copy_spec N None m dst src) as (m1 & -> & [L1 O1 I1]); [simpl; lia..|]. cbn [rbind default from_option] in *.
  destruct (Z.ltb_spec (dst + amount N) dst_end) as [Hmore|Hge].
  - destruct (IH m1 (dst + amount N) (src + amount N)) as (m2 & -> & L2 & O2 & I2); [lia..|].
    exists m2. split_and!; [done|lia|..]; intros a Ha.
    + rewrite O2, O1 by lia. done.
    + destruct (decide (a < dst + amount N)); [|apply I2; lia].
      rewrite !O2, I1, O1 by lia. f_equal. lia.
  - exists m1. split_and!; [done|done|..]; intros a Ha; [apply O1; lia|].
    rewrite I1, O1 by lia. f_equal. lia.
Qed.

(** ** [copyOverlap] *)

(** What [copyOverlap] does with the symbolic bytes 0, 1, ... after [match]: it
    repeats the first [off] of them, and leaves [match] a multiple of [off] before
    the end of the block. *)
Definition overlap_check (N : CopyAmount) (sh : bool) (off : nat) : bool :=
  let n := Z.to_nat (amount N) in
  match copyOverlap N sh (seq 0 (off + 2 * n)) (Z.of_nat off) 0 (Z.of_nat off) with
  | Throw _ => false
  | Ok (w, mtch) =>
      (length w =? off + 2 * n)%nat &&
      (0 <=? mtch) && (mtch <=? Z.of_nat off) &&
      ((off =? 0)%nat ||
       (bool_decide (take (off + n) w = (fun i => (i mod off)%nat) <$> seq 0 (off + n)) &&
        ((Z.of_nat (off + n) - mtch) mod Z.of_nat off =? 0)))
  end.

Lemma overlap_checked N sh off : (off < Z.to_nat (amount N))%nat -> overlap_check N sh off = true.
Proof.
  intros Hoff. assert (H : forallb (overlap_check N sh) (seq 0 (Z.to_nat (amount N))) = true).
  { by destruct N, sh; vm_compute. }
  rewrite forallb_forall in H. apply H, in_seq. lia.
Qed.

Lemma symbolic_window (w : bytes) : (fun i => nth i w 0) <$> seq 0 (length w) = w.
Proof.
  apply list_eq. intros i. rewrite list_lookup_fmap. destruct (decide (i < length w)%nat) as [Hi|Hi].
  - rewrite lookup_seq_lt by done. simpl. destruct (lookup_lt_is_Some_2 w i Hi) as [x Hx].
    rewrite Hx. by rewrite (nth_lookup_Some w i 0 x Hx).
  - rewrite lookup_seq_ge, lookup_ge_None_2 by lia. done.
Qed.

Lemma copyOverlap_spec N sh (m : bytes) op off :
  0 <= off < amount N -> off <= op -> op + 2 * amount N <= mem_size m ->
  exists m' mtch, copyOverlap N sh m op (op - off) off = Ok (m', mtch) /\ length m' = length m /\
    (forall a, 0 <= a < op -> byte_at m' a = byte_at m a) /\
    (forall a, 0 < off -> op <= a < op + amount N -> byte_at m' a = byte_at m (op - off + (a - (op - off)) mod off)) /\
    op - off <= mtch <= op /\ (0 < off -> (op + amount N - mtch) mod off = 0).
Proof.
  pose proof (amount_cases N) as HN. intros Hoff Hop Hm. set (n := Z.to_nat (amount N)). set (o := Z.to_nat off).
  set (b := Z.to_nat (op - off)). set (L := (o + 2 * n)%nat).
  pose proof (overlap_checked N sh o ltac:(lia)) as Hcheck. unfold overlap_check in Hcheck. fold n L in Hcheck.
  destruct (copyOverlap N sh (seq 0 L) (Z.of_nat o) 0 (Z.of_nat o)) as [[w' mtch']|] eqn:E; [|done].
  rewrite !andb_true_iff, Nat.eqb_eq, !Z.leb_le, orb_true_iff, Nat.eqb_eq, andb_true_iff, bool_decide_eq_true, Z.eqb_eq in Hcheck.
  destruct Hcheck as (((Hlen & Hlo) & Hhi) & Hrep).
  set (w := take L (drop b m)). assert (Hw : length w = L) by (unfold w; simpl_len; lia).
  apply (copyOverlap_frame (fun i => nth i w 0) (take b m) (drop (b + L) m)) in E.
  assert (Ew : (fun i => nth i w 0) <$> seq 0 L = w) by (rewrite <- Hw at 1; apply symbolic_window).
  assert (Em : take b m ++ w ++ drop (b + L) m = m).
  { unfold w. by rewrite <- drop_drop, take_drop, take_drop. }
  rewrite Ew, Em in E. replace (length (take b m)) with b in E by (simpl_len; lia).
  exists (take b m ++ ((fun i => nth i w 0) <$> w') ++ drop (b + L) m), (Z.of_nat b + mtch').
  assert (Hat : forall i, (0 < o)%nat -> (i < o + n)%nat ->
    (take b m ++ ((fun i => nth i w 0) <$> w') ++ drop (b + L) m) !! (b + i)%nat = m !! (b + i mod o)%nat).
  { intros i Ho Hi. destruct Hrep as [?|[Hpat _]]; [lia|]. rewrite lookup_app_r, length_take by (simpl_len; lia). rewrite lookup_app_l by (simpl_len; lia).
    replace (b + i - b `min` length m)%nat with i by lia.
    rewrite <- (lookup_take_lt _ (o + n)), <- fmap_take, Hpat by lia. rewrite list_lookup_fmap, list_lookup_fmap, lookup_seq_lt by lia.
    simpl. assert (Hlt : (i mod o < L)%nat). { pose proof (Nat.Div0.mod_le i o). lia. }
    destruct (lookup_lt_is_Some_2 w (i mod o) ltac:(lia)) as [x Hx]. rewrite (nth_lookup_Some w _ 0 x Hx).
    unfold w in Hx. rewrite lookup_take_lt, lookup_drop in Hx by done. done. }
  split_and!.
  - rewrite <- E. f_equal; lia.
  - simpl_len. lia.
  - intros a Ha. unfold byte_at. destruct (decide (a < op - off)).
    + rewrite lookup_app_l by (simpl_len; lia). apply lookup_take_lt. lia.
    + replace (Z.to_nat a) with (b + (Z.to_nat a - b))%nat by lia. rewrite Hat, Nat.mod_small by lia. done.
  - intros a Hpos Ha. unfold byte_at. replace (Z.to_nat a) with (b + (Z.to_nat a - b))%nat by lia. rewrite Hat by lia.
    f_equal. rewrite Z2Nat.inj_add, Z2Nat.inj_mod by (try apply Z.mod_pos_bound; lia). fold b o. do 2 f_equal. lia.
  - lia.
  - lia.
  - intros Hpos. destruct Hrep as [?|[_ Hmod]]; [lia|]. rewrite <- Hmod. f_equal; lia.
Qed.

(** ** Matches *)

(** Bytes copied from a multiple of [off] before repeat a pattern of length [off]. *)
Lemma pattern_repeats {A} (m m' : list A) op off first dist limit :
  0 < off -> 0 <= op - off -> 0 < dist <= off + (first - op) -> dist mod off = 0 -> op <= first ->
  (forall a, 0 <= a < op -> byte_at m' a = byte_at m a) ->
  (forall a, op <= a < first -> byte_at m' a = byte_at m (op - off + (a - (op - off)) mod off)) ->
  (forall a, first <= a < limit -> byte_at m' a = byte_at m' (a - dist)) ->
  forall a, op - off <= a < limit -> byte_at m' a = byte_at m (op - off + (a - (op - off)) mod off).
Proof.
  intros Hoff Hop Hdist Hmul Hfirst Hlow Hpat Hrep a Ha.
  remember (Z.to_nat (a - (op - off))) as k eqn:Hk. revert a Ha Hk.
  induction (lt_wf k) as [k _ IH]. intros a Ha Hk.
  destruct (decide (a < op)); [|destruct (decide (a < first))].
  - rewrite Hlow, Z.mod_small by lia. f_equal. lia.
  - apply Hpat. lia.
  - rewrite Hrep by lia. rewrite (IH (Z.to_nat (a - dist - (op - off)))) by lia. do 2 f_equal.
    replace (a - dist - (op - off)) with (a - (op - off) - dist) by lia.
    rewrite Zminus_mod, Hmul, Z.sub_0_r, Z.mod_mod by lia. done.
Qed.

Section Match.
Context (N : CopyAmount) (sh : bool) (output_end : Z).

(** The first block of a match. *)
Lemma first_block_spec (m : bytes) op off :
  0 <= off <= op -> op + 2 * amount N <= mem_size m ->
  exists m' mtch,
    (if off <? amount N then copyOverlap N sh m op (op - off) off
     else let! m := copy N None m op (op - off) in Ok (m, op - off + amount N)) = Ok (m', mtch) /\
    length m' = length m /\ (forall a, 0 <= a < op -> byte_at m' a = byte_at m a) /\
    (forall a, 0 < off -> op <= a < op + amount N -> byte_at m' a = byte_at m (op - off + (a - (op - off)) mod off)) /\
    op - off <= mtch <= op /\ (0 < off -> (op + amount N - mtch) mod off = 0).
Proof.
  pose proof (amount_cases N) as HN. intros Hoff Hm. destruct (Z.ltb_spec off (amount N)) as [Hlt|Hge].
  { apply copyOverlap_spec; lia. }
  destruct (copy_spec N None m op (op - off)) as (m' & -> & [L O I]); [simpl; lia..|]. cbn [rbind default from_option] in *.
  exists m', (op - off + amount N). split_and!; [done|done| | |lia|lia|].
  - intros a Ha. apply O; lia.
  - intros a _ Ha. rewrite I by lia. f_equal. replace (a - (op - off)) with (a - op + 1 * off) by lia.
    rewrite Z.mod_add, Z.mod_small by lia. lia.
  - intros _. replace (op + amount N - (op - off + amount N)) with off by lia. apply Z.mod_same. lia.
Qed.

Lemma copy_match_spec (m : bytes) op off len :
  0 <= off <= op -> 4 <= len -> op + len <= output_end ->
  mem_size m = output_end + ADDITIONAL_BYTES_AT_END_OF_BUFFER ->
  exists m', copy_match N sh output_end m op (op - off) off len = Ok (Some m') /\ length m' = length m /\
    (forall a, 0 <= a < op -> byte_at m' a = byte_at m a) /\
    (forall a, 0 < off -> op <= a < op + len -> byte_at m' a = byte_at m (op - off + (a - (op - off)) mod off)).
Proof.
  pose proof (amount_cases N) as HN. unfold ADDITIONAL_BYTES_AT_END_OF_BUFFER. intros Hoff Hlen Hop Hm. unfold copy_match.
  destruct (first_block_spec m op off) as (m1 & mtch & -> & L1 & Low1 & Pat1 & Hmtch & Hmul); [lia|lia|]. cbn [rbind].
  destruct (copy_spec N None m1 (op + amount N) mtch) as (m2 & -> & [L2 O2 I2]); [simpl; lia..|].
  cbn [rbind default from_option] in *. set (dist := op + amount N - mtch) in *.
  assert (Hrest : exists m', (if amount N * 2 <? len then
        if output_end <? op + len then Ok None
        else let! dest := wildCopy N None m2 (op + amount N + amount N) (mtch + amount N) (op + len) in Ok (Some dest)
      else Ok (Some m2)) = Ok (Some m') /\ length m' = length m2 /\
    (forall a, 0 <= a < op + amount N -> byte_at m' a = byte_at m2 a) /\
    (forall a, op + amount N <= a < op + len -> byte_at m' a = byte_at m' (a - dist))).
  { destruct (Z.ltb_spec (amount N * 2) len) as [Hlong|Hshort].
    - destruct (Z.ltb_spec output_end (op + len)); [lia|].
      destruct (wildCopy_loop_output (S (Z.to_nat (op + len - (op + amount N + amount N)))) N m2
        (op + amount N + amount N) (mtch + amount N) (op + len) dist) as (m3 & E & L3 & O3 & I3); [lia..|].
      exists m3. unfold wildCopy. rewrite E. split_and!; [done|done|..].
      + intros a Ha. apply O3. lia.
      + intros a Ha. destruct (decide (a < op + amount N + amount N)); [|apply I3; lia].
        rewrite !O3, I2, O2 by lia. f_equal. lia.
    - exists m2. split_and!; [done|done|done|]. intros a Ha. rewrite I2, O2 by lia. f_equal. lia. }
  destruct Hrest as (m' & -> & L3 & Low & Rep). exists m'. split_and!; [done|lia|..].
  - intros a Ha. rewrite Low, O2, Low1 by lia. done.
  - intros a Hpos Ha.
    apply (pattern_repeats m m' op off (op + amount N) dist (op + len)); [lia|lia|lia|by apply Hmul|lia| | |done|lia].
    + intros b Hb. rewrite Low, O2, Low1 by lia. done.
    + intros b Hb. rewrite Low, O2, Pat1 by lia. done.
Qed.
End Match.

(** * Every input is handled inside of the buffers *)

Lemma elem_inside (m : bytes) i : is_bytes m -> 0 <= i < mem_size m -> exists x, elem m i = Ok x /\ 0 <= x < 256.
Proof.
  intros Hb Hi. unfold elem. destruct (Z.ltb_spec i 0); [lia|].
  destruct (lookup_lt_is_Some_2 m (Z.to_nat i) ltac:(lia)) as [x Hx]. rewrite Hx. exists x. split; [done|].
  unfold is_bytes in Hb. rewrite Forall_forall in Hb. apply Hb. by eapply list_elem_of_lookup_2.
Qed.

Lemma real_length_spec N len : 0 <= len -> real_length N len = len / amount N * amount N + amount N.
Proof.
  intros Hl. unfold real_length.
  destruct N; rewrite Z.shiftr_div_pow2 by lia; [change (2 ^ 3) with 8|change (2 ^ 4) with 16|change (2 ^ 5) with 32]; simpl; lia.
Qed.

Section Safe.
Context (N : CopyAmount) (sh : bool) (source : bytes) (input_end output_end : Z).
Hypothesis source_bytes : is_bytes source.
Hypothesis input_size : mem_size source = input_end + ADDITIONAL_BYTES_AT_END_OF_BUFFER.
Hypothesis input_range : 0 <= input_end < 2 ^ 32.

Lemma continue_read_length_spec fuel ip len :
  0 <= ip < input_end -> (Z.to_nat (input_end - ip) <= fuel)%nat -> 0 <= len -> len + 255 * (input_end - ip) < 2 ^ 64 ->
  exists ip' len', continue_read_length source input_end fuel ip len = Ok (ip', len') /\
    ip < ip' <= input_end /\ len <= len' <= len + 255 * (ip' - ip).
Proof.
  unfold ADDITIONAL_BYTES_AT_END_OF_BUFFER in *. revert ip len.
  induction fuel as [|fuel IH]; intros ip len Hip Hf Hlen Hlim; [lia|]. cbn [continue_read_length].
  destruct (elem_inside source ip source_bytes) as (s & -> & Hs); [lia|]. cbn [rbind].
  rewrite uwrap_small by (unfold in_unsigned; lia).
  destruct (Z.eqb_spec s 255), (Z.ltb_spec (ip + 1) input_end); cbn [andb];
    [destruct (IH (ip + 1) (len + s)) as (ip' & len' & -> & H1 & H2); [lia..|]|..];
    (eexists _, _; split; [reflexivity|lia]).
Qed.

Lemma read_length_spec ip len :
  0 <= ip -> 0 <= len < 16 ->
  exists r, read_length source input_end ip len = Ok r /\
    match r with None => True | Some (ip', len') => ip <= ip' /\ 0 <= len' < 2 ^ 60 end.
Proof.
  intros Hip Hlen. unfold read_length. destruct (len =? 15); [|eexists; split; [reflexivity|cbv beta iota; lia]].
  destruct (Z.leb_spec input_end (ip + 1)); [by eexists|].
  destruct (continue_read_length_spec (Z.to_nat (input_end - ip)) ip len) as (ip' & len' & -> & H1 & H2); [lia..|].
  eexists. split; [reflexivity|]. cbv beta iota. lia.
Qed.

(** What an iteration that started at [ip] leaves. *)
Definition iteration_ok (ip : Z) (dest : bytes) (r : result Iteration) : Prop :=
  match r with
  | Ok (Return _ dest') => length dest' = length dest
  | Ok (Continue ip' op' dest') => ip < ip' /\ 0 <= op' <= output_end /\ length dest' = length dest
  | Throw _ => False
  end.

Lemma decompress_match_safe token ip op dest :
  0 <= token < 256 -> 0 <= ip -> 0 <= op <= output_end ->
  mem_size dest = output_end + ADDITIONAL_BYTES_AT_END_OF_BUFFER ->
  iteration_ok ip dest (decompress_match N sh source input_end output_end token ip op dest).
Proof.
  intros Ht Hip Hop Hd. unfold decompress_match. destruct (Z.leb_spec input_end (ip + 1)); [done|].
  assert (Hsize := input_size). unfold ADDITIONAL_BYTES_AT_END_OF_BUFFER in Hsize.
  destruct (elem_inside source ip source_bytes) as (p0 & -> & H0); [lia|]. cbn [rbind].
  destruct (elem_inside source (ip + 1) source_bytes) as (p1 & -> & H1); [lia|]. cbn [rbind].
  set (offset := uwrap 16 _). assert (Hoffset : 0 <= offset < 2 ^ 16) by (apply (uwrap_range 16); lia).
  destruct (Z.ltb_spec (op - offset) 0); [done|].
  assert (Hlow : 0 <= Z.land token 15 < 16).
  { change 15 with (Z.ones 4). rewrite Z.land_ones by lia. apply Z.mod_pos_bound. lia. }
  destruct (read_length_spec (ip + 2) (Z.land token 15)) as (r & -> & Hr); [lia|done|]. cbn [rbind].
  destruct r as [[ip' len]|]; [|done]. rewrite uwrap_small by (unfold in_unsigned; lia).
  destruct (Z.ltb_spec output_end (op + (len + 4))); [done|].
  destruct (copy_match_spec N sh output_end dest op offset (len + 4)) as (d & -> & Hl & _); [lia|lia|lia|done|].
  simpl. split_and!; lia || done.
Qed.

Lemma iteration_safe ip op dest :
  0 <= ip -> 0 <= op <= output_end -> mem_size dest = output_end + ADDITIONAL_BYTES_AT_END_OF_BUFFER ->
  iteration_ok ip dest (iteration N sh source input_end output_end ip op dest).
Proof.
  intros Hip Hop Hd. pose proof (amount_cases N) as HN. unfold iteration. destruct (Z.leb_spec input_end ip); [done|].
  assert (Hsize := input_size). unfold ADDITIONAL_BYTES_AT_END_OF_BUFFER in *.
  destruct (elem_inside source ip source_bytes) as (token & -> & Ht); [lia|]. cbn [rbind].
  assert (Hmatch : forall ip' op' dest', ip + 1 <= ip' -> 0 <= op' <= output_end -> length dest' = length dest ->
    iteration_ok ip dest (decompress_match N sh source input_end output_end token ip' op' dest')).
  { intros ip' op' dest' H1 H2 H3. pose proof (decompress_match_safe token ip' op' dest' Ht ltac:(lia) H2
      ltac:(unfold ADDITIONAL_BYTES_AT_END_OF_BUFFER; lia)) as Hsafe.
    unfold iteration_ok in *. destruct (decompress_match _ _ _ _ _ _ _ _ _) as [[|]|]; [congruence|lia|done]. }
  destruct (_ && _); [apply Hmatch; lia|].
  assert (Hhigh : 0 <= Z.shiftr token 4 < 16).
  { rewrite Z.shiftr_div_pow2 by lia. split; [apply Z.div_pos; lia|apply Z.div_lt_upper_bound; lia]. }
  destruct (read_length_spec (ip + 1) (Z.shiftr token 4)) as (r & -> & Hr); [lia|done|]. cbn [rbind].
  destruct r as [[ip' len]|]; [|done]. destruct (Z.ltb_spec output_end (op + len)); [done|].
  rewrite real_length_spec by lia. destruct (Z.leb_spec (input_end + 64) (ip' + (len / amount N * amount N + amount N))); [done|].
  destruct (wildCopy_loop_input (S (Z.to_nat (op + len - op))) N source dest op ip' (op + len)) as (d & E & Hl & _);
    [lia|lia|lia|lia|replace (op + len - op) with len by lia; lia|].
  unfold wildCopy. rewrite E. cbn [rbind]. destruct (_ =? _); [done|]. apply Hmatch; lia.
Qed.

Lemma decompress_loop_safe fuel ip op dest :
  0 <= ip -> 0 <= op <= output_end -> mem_size dest = output_end + ADDITIONAL_BYTES_AT_END_OF_BUFFER ->
  (Z.to_nat (input_end - ip) < fuel)%nat ->
  exists success dest', decompress_loop N sh source input_end output_end fuel ip op dest = Ok (success, dest') /\
    length dest' = length dest.
Proof.
  revert ip op dest. induction fuel as [|fuel IH]; intros ip op dest Hip Hop Hd Hf; [lia|]. cbn [decompress_loop].
  pose proof (iteration_safe ip op dest Hip Hop Hd) as H.
  destruct (Z.leb_spec input_end ip) as [Hend|Hend].
  { unfold iteration. destruct (Z.leb_spec input_end ip); [|lia]. by eexists _, _. }
  destruct (iteration _ _ _ _ _ _ _ _) as [[success dest'|ip' op' dest']|]; [by eexists _, _| |done].
  destruct H as (Hip' & Hop' & Hl). cbn [rbind].
  destruct (IH ip' op' dest') as (success & dest'' & -> & Hl'); [lia|lia|lia|lia|]. eexists _, _. split; [reflexivity|lia].
Qed.
End Safe.

(** * The format

    A block is a list of sequences, each some literal bytes and a match, and
    literals at the end. *)
Record Sequence := { literals : bytes; match_offset : Z; match_length : Z }.
Record Block := { sequences : list Sequence; last_literals : bytes }.

(** The four bits of a length in the token, and the bytes for the rest of it. *)
Definition length_nibble (n : Z) : Z := Z.min n 15.

Definition length_bytes (n : Z) : bytes :=
  if n <? 15 then [] else replicate (Z.to_nat ((n - 15) / 255)) 255 ++ [(n - 15) mod 255].

Definition encode_sequence (s : Sequence) : bytes :=
  (16 * length_nibble (mem_size (literals s)) + length_nibble (match_length s - 4)) ::
  length_bytes (mem_size (literals s)) ++ literals s ++
  le_bytes 2 (match_offset s) ++ length_bytes (match_length s - 4).

Definition encode_last (bs : bytes) : bytes := (16 * length_nibble (mem_size bs)) :: length_bytes (mem_size bs) ++ bs.

Definition encode_block (b : Block) : bytes :=
  concat (map encode_sequence (sequences b)) ++ encode_last (last_literals b).

(** A match repeats the byte [offset] before, [n] times. *)
Fixpoint repeat_match (n : nat) (offset : Z) (out : bytes) : bytes :=
  match n with
  | O => out
  | S n => repeat_match n offset (out ++ [nth (length out - Z.to_nat offset) out 0])
  end.

Definition decode_sequence (out : bytes) (s : Sequence) : bytes :=
  repeat_match (Z.to_nat (match_length s)) (match_offset s) (out ++ literals s).

(** The data of a block. *)
Definition block_data (b : Block) : bytes := foldl decode_sequence [] (sequences b) ++ last_literals b.

Definition valid_sequence (out : bytes) (s : Sequence) : Prop :=
  is_bytes (literals s) /\ 0 < match_offset s < 2 ^ 16 /\ match_offset s <= mem_size (out ++ literals s) /\
  4 <= match_length s.

Fixpoint valid_sequences (out : bytes) (ss : list Sequence) : Prop :=
  match ss with
  | [] => True
  | s :: ss => valid_sequence out s /\ valid_sequences (decode_sequence out s) ss
  end.

(** The block ends with literals, as the format demands. *)
Definition valid_block (b : Block) : Prop :=
  valid_sequences [] (sequences b) /\ is_bytes (last_literals b) /\ last_literals b <> [].

(** ** Matches of the format *)

Lemma repeat_match_spec n off out :
  0 < off <= mem_size out ->
  exists suffix, repeat_match n off out = out ++ suffix /\ length suffix = n /\
    forall a, mem_size out <= a < mem_size out + Z.of_nat n ->
      byte_at (out ++ suffix) a = byte_at (out ++ suffix) (a - off).
Proof.
  revert out. induction n as [|n IH]; intros out Hoff; cbn [repeat_match].
  { exists []. rewrite app_nil_r. split_and!; [done|done|lia]. }
  set (x := nth _ out 0). destruct (IH (out ++ [x])) as (suffix & E & Hl & Hrep); [simpl_len; lia|].
  exists (x :: suffix). rewrite E, <- app_assoc in *. cbn [app] in *. split_and!; [done|simpl; lia|].
  intros a Ha. destruct (decide (a = mem_size out)) as [->|Hne]; [|apply Hrep; simpl_len; lia].
  unfold byte_at. rewrite Nat2Z.id, list_lookup_middle by done. rewrite lookup_app_l by lia.
  destruct (lookup_lt_is_Some_2 out (Z.to_nat (mem_size out - off)) ltac:(lia)) as [y Hy]. rewrite Hy. f_equal.
  apply nth_lookup_Some. rewrite <- Hy. f_equal. lia.
Qed.

Lemma length_repeat_match n off out : 0 < off <= mem_size out -> length (repeat_match n off out) = (length out + n)%nat.
Proof. intros H. destruct (repeat_match_spec n off out H) as (suffix & -> & Hl & _). rewrite length_app. lia. Qed.

(** The memory starts with the bytes [out]. *)
Definition holds (m out : bytes) : Prop := take (length out) m = out.

Lemma holds_iff m out :
  (length out <= length m)%nat ->
  holds m out <-> forall a, 0 <= a < mem_size out -> byte_at m a = byte_at out a.
Proof.
  intros Hl. unfold holds, byte_at. split.
  - intros E a Ha. rewrite <- E, lookup_take_lt by lia. done.
  - intros H. apply list_eq. intros i. destruct (decide (i < length out)%nat).
    + rewrite lookup_take_lt by done. rewrite <- (Nat2Z.id i). apply H. lia.
    + rewrite lookup_take_ge, lookup_ge_None_2 by lia. done.
Qed.

(** The bytes of a match, in the memory and by definition. *)
Lemma holds_match m m' out off n :
  0 < off <= mem_size out -> (length out + n <= length m)%nat -> length m' = length m -> holds m out ->
  (forall a, 0 <= a < mem_size out -> byte_at m' a = byte_at m a) ->
  (forall a, mem_size out <= a < mem_size out + Z.of_nat n ->
    byte_at m' a = byte_at m (mem_size out - off + (a - (mem_size out - off)) mod off)) ->
  holds m' (repeat_match n off out).
Proof.
  intros Hoff Hl Hl' Hh Hlow Hpat. destruct (repeat_match_spec n off out Hoff) as (suffix & E & Hn & Hrep).
  rewrite holds_iff in Hh by lia. rewrite E. apply holds_iff; [rewrite length_app; lia|].
  assert (Hout : forall a, 0 <= a < mem_size out -> byte_at (out ++ suffix) a = byte_at out a).
  { intros a Ha. unfold byte_at. rewrite lookup_app_l by lia. done. }
  intros a Ha. rewrite length_app in Ha. destruct (decide (a < mem_size out)).
  { rewrite Hlow, Hh, Hout by lia. done. }
  rewrite Hpat by lia.
  rewrite (pattern_repeats out (out ++ suffix) (mem_size out) off (mem_size out) off (mem_size out + Z.of_nat n) ltac:(lia)
    ltac:(lia) ltac:(lia) ltac:(apply Z.mod_same; lia) ltac:(lia) Hout ltac:(lia) Hrep a ltac:(lia)).
  pose proof (Z.mod_pos_bound (a - (mem_size out - off)) off ltac:(lia)). apply Hh. lia.
Qed.

(** ** Lengths *)

Lemma length_bytes_range n : 0 <= n -> is_bytes (length_bytes n).
Proof.
  intros Hn. unfold length_bytes. destruct (n <? 15); [constructor|]. apply is_bytes_app. split.
  - apply Forall_replicate. lia.
  - constructor; [|constructor]. pose proof (Z.mod_pos_bound (n - 15) 255). lia.
Qed.

Lemma elem_at (pre post : bytes) x : elem (pre ++ x :: post) (mem_size pre) = Ok x.
Proof. unfold elem. destruct (Z.ltb_spec (mem_size pre) 0); [lia|]. by rewrite Nat2Z.id, list_lookup_middle. Qed.

Lemma continue_read_length_encoded (k : nat) (r : Z) pre post input_end fuel len :
  0 <= r < 255 -> 0 <= len -> len + 255 * Z.of_nat k + r < 2 ^ 64 ->
  mem_size pre + Z.of_nat k + 1 < input_end -> (k < fuel)%nat ->
  continue_read_length (pre ++ replicate k 255 ++ r :: post) input_end fuel (mem_size pre) len =
  Ok (mem_size pre + Z.of_nat k + 1, len + 255 * Z.of_nat k + r).
Proof.
  revert pre fuel len. induction k as [|k IH]; intros pre [|fuel] len Hr Hlen Hlim Hend Hf; try lia;
    cbn [replicate app continue_read_length]; rewrite elem_at; cbn [rbind]; rewrite uwrap_small by (unfold in_unsigned; lia).
  - destruct (Z.eqb_spec r 255); [lia|]. cbn [andb]. do 2 f_equal; lia.
  - destruct (Z.ltb_spec (mem_size pre + 1) input_end); [|lia]. cbn [Z.eqb Pos.eqb andb].
    replace (mem_size pre + 1) with (mem_size (pre ++ [255])) by (simpl_len; lia).
    replace (pre ++ 255 :: replicate k 255 ++ r :: post) with ((pre ++ [255]) ++ replicate k 255 ++ r :: post)
      by (by rewrite <- app_assoc).
    rewrite IH; [do 2 f_equal; simpl_len; lia|..]; simpl_len; lia.
Qed.

Lemma read_length_encoded n pre post input_end :
  0 <= n < 2 ^ 60 -> mem_size pre + mem_size (length_bytes n) < input_end ->
  read_length (pre ++ length_bytes n ++ post) input_end (mem_size pre) (length_nibble n) =
  Ok (Some (mem_size pre + mem_size (length_bytes n), n)).
Proof.
  intros Hn Hend. unfold read_length, length_nibble, length_bytes in *. destruct (Z.ltb_spec n 15).
  { rewrite Z.min_l by lia. destruct (Z.eqb_spec n 15); [lia|]. simpl in *. do 3 f_equal. lia. }
  rewrite Z.min_r by lia. cbn [Z.eqb Pos.eqb]. pose proof (Z.div_mod (n - 15) 255 ltac:(lia)) as E.
  pose proof (Z.mod_pos_bound (n - 15) 255 ltac:(lia)). assert (Hq : 0 <= (n - 15) / 255) by (apply Z.div_pos; lia).
  simpl_len. destruct (Z.leb_spec input_end (mem_size pre + 1)); [lia|].
  rewrite <- app_assoc. cbn [app]. rewrite continue_read_length_encoded by lia. cbn [rbind]. do 3 f_equal; lia.
Qed.

(** * Valid blocks are decoded *)

Lemma token_fields a b : 0 <= a <= 15 -> 0 <= b <= 15 -> Z.shiftr (16 * a + b) 4 = a /\ Z.land (16 * a + b) 0x0F = b.
Proof.
  intros Ha Hb. change 0x0F with (Z.ones 4). rewrite Z.shiftr_div_pow2, Z.land_ones by lia. change (2 ^ 4) with 16.
  replace (16 * a + b) with (b + a * 16) by lia. rewrite Z.div_add, Z_mod_plus_full, Z.div_small, Z.mod_small by lia. lia.
Qed.

Lemma length_nibble_range n : 0 <= n -> 0 <= length_nibble n <= 15.
Proof. unfold length_nibble. lia. Qed.

(** Arithmetic on the lengths of lists. *)
Ltac lens := repeat (rewrite length_app || rewrite length_cons || rewrite length_le_bytes); cbn [length] in *; lia.

Section Decodes.
Context (N : CopyAmount) (sh : bool) (source : bytes) (input_end output_end : Z).
Hypothesis input_size : mem_size source = input_end + ADDITIONAL_BYTES_AT_END_OF_BUFFER.
Hypothesis input_range : 0 <= input_end < 2 ^ 32.

(** The literals are appended to the output. *)
Lemma literals_decoded pre bs post out dest ip :
  source = pre ++ bs ++ post -> ip = mem_size pre -> holds dest out -> ip + mem_size bs <= input_end ->
  mem_size out + mem_size bs <= output_end -> mem_size dest = output_end + ADDITIONAL_BYTES_AT_END_OF_BUFFER ->
  exists dest', wildCopy N (Some source) dest (mem_size out) ip (mem_size out + mem_size bs) = Ok dest' /\
    length dest' = length dest /\ holds dest' (out ++ bs).
Proof.
  pose proof (amount_cases N) as HN. unfold ADDITIONAL_BYTES_AT_END_OF_BUFFER in *. intros Hsrc -> Hh Hip Hop Hd. unfold wildCopy.
  rewrite holds_iff in Hh by lia.
  pose proof (Z.mul_div_le (mem_size bs) (amount N) ltac:(lia)) as Hdiv.
  destruct (wildCopy_loop_input (S (Z.to_nat (mem_size out + mem_size bs - mem_size out))) N source dest (mem_size out)
    (mem_size pre) (mem_size out + mem_size bs)) as (dest' & E & Hl & Hlow & Hnew);
    [lia|lia|lia|lia|replace (mem_size out + mem_size bs - mem_size out) with (mem_size bs) by lia; lia|].
  exists dest'. split_and!; [done|done|]. apply holds_iff; [rewrite length_app; lia|]. intros a Ha. rewrite length_app in Ha.
  unfold byte_at at 2. destruct (decide (a < mem_size out)).
  - rewrite Hlow, Hh, lookup_app_l by lia. done.
  - rewrite Hnew by lia. unfold byte_at. rewrite Hsrc, lookup_app_r by lia. rewrite lookup_app_l by lia.
    rewrite lookup_app_r by lia. f_equal. lia.
Qed.

(** The match is repeated. *)
Lemma match_decoded token pre off len post out dest ip op ip' op' :
  source = pre ++ le_bytes 2 off ++ length_bytes (len - 4) ++ post -> Z.land token 0x0F = length_nibble (len - 4) ->
  ip = mem_size pre -> op = mem_size out -> ip' = ip + 2 + mem_size (length_bytes (len - 4)) -> op' = op + len ->
  holds dest out -> 0 < off < 2 ^ 16 -> off <= op -> 4 <= len -> ip' < input_end -> op' <= output_end < 2 ^ 60 ->
  mem_size dest = output_end + ADDITIONAL_BYTES_AT_END_OF_BUFFER ->
  exists dest', decompress_match N sh source input_end output_end token ip op dest = Ok (Continue ip' op' dest') /\
    length dest' = length dest /\ holds dest' (repeat_match (Z.to_nat len) off out).
Proof.
  intros Hsrc Ht -> -> -> -> Hh Hoff Hoff' Hlen Hip Hop Hd. unfold decompress_match.
  destruct (Z.leb_spec input_end (mem_size pre + 1)); [lia|].
  assert (E0 : elem source (mem_size pre) = Ok (off mod 256)) by (rewrite Hsrc; apply elem_at).
  assert (E1 : elem source (mem_size pre + 1) = Ok (off / 256 mod 256)).
  { rewrite Hsrc. replace (mem_size pre + 1) with (mem_size (pre ++ [off mod 256])) by lens.
    cbn [le_bytes app]. rewrite (app_assoc pre [off mod 256] (_ :: _) : pre ++ _ :: _ = _). apply elem_at. }
  rewrite E0, E1. cbn [rbind].
  assert (Eoff : uwrap 16 (off mod 256 + Z.shiftl (off / 256 mod 256) 8) = off).
  { rewrite Z.shiftl_mul_pow2 by lia. change (2 ^ 8) with 256. rewrite (Z.mod_small (off / 256)).
    - rewrite uwrap_small; unfold in_unsigned; pose proof (Z.div_mod off 256); lia.
    - split; [apply Z.div_pos; lia|apply Z.div_lt_upper_bound; lia]. }
  rewrite Eoff, Ht. destruct (Z.ltb_spec (mem_size out - off) 0); [lia|].
  replace (mem_size pre + 2) with (mem_size (pre ++ le_bytes 2 off)) in * by (simpl_len; rewrite length_le_bytes; lia).
  assert (Er : read_length source input_end (mem_size (pre ++ le_bytes 2 off)) (length_nibble (len - 4)) =
    Ok (Some (mem_size (pre ++ le_bytes 2 off) + mem_size (length_bytes (len - 4)), len - 4)))
    by (rewrite Hsrc, (app_assoc pre); apply read_length_encoded; lia).
  rewrite Er. cbn [rbind].
  replace (uwrap 64 (len - 4 + 4)) with len by (rewrite uwrap_small; unfold in_unsigned; lia).
  destruct (Z.ltb_spec output_end (mem_size out + len)); [lia|].
  destruct (copy_match_spec N sh output_end dest (mem_size out) off len) as (dest' & -> & Hl & Hlow & Hpat); [lia..|done|].
  cbn [rbind]. eexists. split; [reflexivity|]. split; [done|]. unfold ADDITIONAL_BYTES_AT_END_OF_BUFFER in Hd.
  apply (holds_match dest dest' out off (Z.to_nat len)); [lia|lia|done|done|done|].
  intros a Ha. apply Hpat; lia.
Qed.

Lemma sequence_decoded pre s post out dest :
  source = pre ++ encode_sequence s ++ post -> valid_sequence out s -> holds dest out ->
  mem_size pre + mem_size (encode_sequence s) < input_end -> mem_size (decode_sequence out s) < output_end ->
  output_end < 2 ^ 60 -> mem_size dest = output_end + ADDITIONAL_BYTES_AT_END_OF_BUFFER ->
  exists dest', iteration N sh source input_end output_end (mem_size pre) (mem_size out) dest =
      Ok (Continue (mem_size (pre ++ encode_sequence s)) (mem_size (decode_sequence out s)) dest') /\
    length dest' = length dest /\ holds dest' (decode_sequence out s).
Proof.
  destruct s as [bs off len]. unfold valid_sequence, encode_sequence, decode_sequence. cbn [literals match_offset match_length].
  intros Hsrc (Hb & Hoff & Hoff' & Hlen) Hh Hip Hop Hlim Hd. unfold iteration.
  rewrite length_repeat_match in Hop |- * by lia. do 2 simpl_len. rewrite length_le_bytes in *.
  destruct (Z.leb_spec input_end (mem_size pre)); [lia|]. set (token := 16 * length_nibble (mem_size bs) + length_nibble (len - 4)) in *.
  assert (Et : elem source (mem_size pre) = Ok token) by (rewrite Hsrc; apply elem_at).
  rewrite Et. cbn [rbind]. destruct (token_fields (length_nibble (mem_size bs)) (length_nibble (len - 4))) as [Thigh Tlow];
    [apply length_nibble_range; lia..|]. fold token in Thigh, Tlow. rewrite Thigh.
  replace (mem_size pre + 1) with (mem_size (pre ++ [token])) by lens.
  assert (Hsrc' : source = (pre ++ [token]) ++ length_bytes (mem_size bs) ++ bs ++ le_bytes 2 off ++
    length_bytes (len - 4) ++ post) by (rewrite Hsrc; cbn [app]; by rewrite <- !app_assoc).
  destruct ((amount N =? 8) && (length_nibble (mem_size bs) =? 0)) eqn:Hskip.
  - apply andb_true_iff in Hskip as [_ Hz%Z.eqb_eq]. assert (bs = []) as -> by (destruct bs; [done|unfold length_nibble in Hz; simpl in Hz; lia]).
    change (length_bytes (mem_size (@nil Z))) with (@nil Z) in *. rewrite app_nil_r. cbn [length] in *.
    apply (match_decoded token (pre ++ [token]) off len post out); [done|done|done|done|lens|lens|done|done|lia|done|lens|lia|done].
  - assert (Er : read_length source input_end (mem_size (pre ++ [token])) (length_nibble (mem_size bs)) =
      Ok (Some (mem_size (pre ++ [token]) + mem_size (length_bytes (mem_size bs)), mem_size bs)))
      by (rewrite Hsrc'; apply read_length_encoded; lens).
    rewrite Er. cbn [rbind].
    destruct (Z.ltb_spec output_end (mem_size out + mem_size bs)); [lia|].
    rewrite real_length_spec by lia. pose proof (amount_cases N). pose proof (Z.mul_div_le (mem_size bs) (amount N) ltac:(lia)).
    match goal with |- context [?a <=? ?b] => destruct (Z.leb_spec a b) end.
    { unfold ADDITIONAL_BYTES_AT_END_OF_BUFFER in *. simpl_len. lia. }
    destruct (literals_decoded ((pre ++ [token]) ++ length_bytes (mem_size bs)) bs (le_bytes 2 off ++ length_bytes (len - 4) ++ post)
      out dest (mem_size (pre ++ [token]) + mem_size (length_bytes (mem_size bs)))) as (dest1 & -> & Hl1 & Hh1);
      [rewrite Hsrc'; by rewrite <- !app_assoc|lens|done|lens|lia|done|].
    cbn [rbind]. destruct (Z.eqb_spec (mem_size out + mem_size bs) output_end); [lia|]. rewrite <- Hl1.
    apply (match_decoded token ((pre ++ [token]) ++ length_bytes (mem_size bs) ++ bs) off len post (out ++ bs));
      [rewrite Hsrc'; by rewrite <- !app_assoc|done|lens..|done|done|lens|done|lens|lens|lens].
Qed.

Lemma last_decoded pre bs post out dest :
  source = pre ++ encode_last bs ++ post -> bs <> [] -> holds dest out ->
  mem_size pre + mem_size (encode_last bs) = input_end -> mem_size out + mem_size bs = output_end ->
  output_end < 2 ^ 60 -> mem_size dest = output_end + ADDITIONAL_BYTES_AT_END_OF_BUFFER ->
  exists dest', iteration N sh source input_end output_end (mem_size pre) (mem_size out) dest = Ok (Return true dest') /\
    length dest' = length dest /\ holds dest' (out ++ bs).
Proof.
  unfold encode_last. intros Hsrc Hne Hh Hip Hop Hlim Hd. unfold iteration. do 2 simpl_len.
  destruct (Z.leb_spec input_end (mem_size pre)); [lia|]. set (token := 16 * length_nibble (mem_size bs)) in *.
  assert (Et : elem source (mem_size pre) = Ok token) by (rewrite Hsrc; apply elem_at). rewrite Et. cbn [rbind].
  destruct (token_fields (length_nibble (mem_size bs)) 0) as [Thigh _]; [apply length_nibble_range; lia|lia|].
  rewrite Z.add_0_r in Thigh. fold token in Thigh. rewrite Thigh.
  assert (Hpos : (0 < length bs)%nat) by (destruct bs; [done|simpl; lia]).
  destruct (Z.eqb_spec (length_nibble (mem_size bs)) 0); [unfold length_nibble in *; lia|]. rewrite andb_false_r.
  replace (mem_size pre + 1) with (mem_size (pre ++ [token])) by lens.
  assert (Hsrc' : source = (pre ++ [token]) ++ length_bytes (mem_size bs) ++ bs ++ post)
    by (rewrite Hsrc; cbn [app]; by rewrite <- !app_assoc).
  assert (Er : read_length source input_end (mem_size (pre ++ [token])) (length_nibble (mem_size bs)) =
    Ok (Some (mem_size (pre ++ [token]) + mem_size (length_bytes (mem_size bs)), mem_size bs)))
    by (rewrite Hsrc'; apply read_length_encoded; lens).
  rewrite Er. cbn [rbind]. destruct (Z.ltb_spec output_end (mem_size out + mem_size bs)); [lia|].
  rewrite real_length_spec by lia. pose proof (amount_cases N). pose proof (Z.mul_div_le (mem_size bs) (amount N) ltac:(lia)).
  match goal with |- context [?a <=? ?b] => destruct (Z.leb_spec a b) end.
  { unfold ADDITIONAL_BYTES_AT_END_OF_BUFFER in *. simpl_len. lia. }
  destruct (literals_decoded ((pre ++ [token]) ++ length_bytes (mem_size bs)) bs post out dest
    (mem_size (pre ++ [token]) + mem_size (length_bytes (mem_size bs)))) as (dest' & -> & Hl & Hh');
    [rewrite Hsrc'; by rewrite <- !app_assoc|lens|done|lens|lia|done|].
  cbn [rbind]. exists dest'. destruct (Z.eqb_spec (mem_size out + mem_size bs) output_end); [done|lia].
Qed.

Lemma data_grows out ss : valid_sequences out ss -> mem_size out <= mem_size (foldl decode_sequence out ss).
Proof.
  revert out. induction ss as [|s ss IH]; intros out Hv; cbn [foldl]; [lia|]. destruct Hv as [(_ & Hoff & Hoff' & Hlen) Hv].
  specialize (IH _ Hv). unfold decode_sequence in IH at 1. rewrite length_repeat_match, length_app in IH by lia. lia.
Qed.

Lemma sequences_decoded ss bs post pre out dest fuel :
  source = pre ++ concat (map encode_sequence ss) ++ encode_last bs ++ post ->
  valid_sequences out ss -> bs <> [] -> holds dest out ->
  mem_size pre + mem_size (concat (map encode_sequence ss) ++ encode_last bs) = input_end ->
  mem_size (foldl decode_sequence out ss) + mem_size bs = output_end -> output_end < 2 ^ 60 ->
  mem_size dest = output_end + ADDITIONAL_BYTES_AT_END_OF_BUFFER -> (length ss < fuel)%nat ->
  exists dest', decompress_loop N sh source input_end output_end fuel (mem_size pre) (mem_size out) dest = Ok (true, dest') /\
    length dest' = length dest /\ holds dest' (foldl decode_sequence out ss ++ bs).
Proof.
  revert pre out dest fuel. induction ss as [|s ss IH]; intros pre out dest [|fuel] Hsrc Hv Hne Hh Hip Hop Hlim Hd Hf;
    cbn [length] in Hf; try lia; cbn [map concat foldl app decompress_loop] in *.
  { destruct (last_decoded pre bs post out dest) as (dest' & -> & Hl & Hh'); [done..|]. by exists dest'. }
  destruct Hv as [Hs Hv]. pose proof (data_grows _ _ Hv) as Hgrow.
  assert (Hpos : (0 < length bs)%nat) by (destruct bs; [done|simpl; lia]).
  assert (Hlast : (0 < length (encode_last bs))%nat) by (unfold encode_last; simpl; lia). rewrite !length_app in Hip.
  destruct (sequence_decoded pre s (concat (map encode_sequence ss) ++ encode_last bs ++ post) out dest)
    as (dest1 & -> & Hl1 & Hh1); [rewrite Hsrc; by rewrite <- !app_assoc|done|done|lia|lia|done|done|]. cbn [rbind].
  destruct (IH (pre ++ encode_sequence s) (decode_sequence out s) dest1 fuel) as (dest' & -> & Hl & Hh');
    [rewrite Hsrc; by rewrite <- !app_assoc|done|done|done|rewrite !length_app; lia|done|done|lia|lia|].
  exists dest'. split_and!; [done|lia|done].
Qed.
End Decodes.

Lemma sequences_count ss : (length ss <= length (concat (map encode_sequence ss)))%nat.
Proof. induction ss as [|s ss IH]; simpl; [lia|]. rewrite length_app. lia. Qed.

Lemma decompressImpl_decodes N sh b (slack dest : bytes) :
  valid_block b -> length slack = 64%nat -> mem_size (encode_block b) < 2 ^ 32 -> mem_size (block_data b) < 2 ^ 32 ->
  mem_size dest = mem_size (block_data b) + ADDITIONAL_BYTES_AT_END_OF_BUFFER ->
  exists rest, decompressImpl N sh (encode_block b ++ slack) dest (mem_size (encode_block b)) (mem_size (block_data b)) =
    Ok (true, block_data b ++ rest) /\ length rest = 64%nat.
Proof.
  intros (Hv & Hb & Hne) Hslack Henc Hdata Hd. unfold decompressImpl.
  destruct (sequences_decoded N sh (encode_block b ++ slack) (mem_size (encode_block b)) (mem_size (block_data b))
    ltac:(rewrite length_app; unfold ADDITIONAL_BYTES_AT_END_OF_BUFFER; lia) ltac:(lia)
    (sequences b) (last_literals b) slack [] [] dest (S (Z.to_nat (mem_size (encode_block b)))))
    as (dest' & E & Hl & Hh); try done.
  - unfold encode_block. by rewrite <- app_assoc.
  - unfold block_data. rewrite length_app. lia.
  - lia.
  - pose proof (sequences_count (sequences b)). unfold encode_block. rewrite length_app. lia.
  - change (mem_size (@nil Z)) with 0 in E. rewrite E. unfold holds in Hh. fold (block_data b) in Hh.
    exists (drop (length (block_data b)) dest'). split; [by rewrite <- Hh at 1; rewrite take_drop|].
    unfold ADDITIONAL_BYTES_AT_END_OF_BUFFER in Hd. rewrite length_drop. lia.
Qed.

Lemma decompress_within (source dest : bytes) (source_size dest_size best_variant : Z) :
  is_bytes source -> 0 <= source_size < 2 ^ 32 -> 0 <= dest_size ->
  mem_size source = source_size + ADDITIONAL_BYTES_AT_END_OF_BUFFER ->
  mem_size dest = dest_size + ADDITIONAL_BYTES_AT_END_OF_BUFFER -> 0 <= best_variant < 5 ->
  exists success dest', decompress source dest source_size dest_size best_variant = Ok (success, dest') /\
    length dest' = length dest.
Proof.
  intros Hb Hs Hd Hsrc Hdest Hbest. assert (Himpl : forall N sh, exists success dest',
    decompressImpl N sh source dest source_size dest_size = Ok (success, dest') /\ length dest' = length dest).
  { intros N sh. apply decompress_loop_safe; try done; lia. }
  unfold decompress. repeat case_match; first [apply Himpl|by eexists _, _|lia].
Qed.

Lemma decompress_decodes (b : Block) (slack dest : bytes) (best_variant : Z) :
  valid_block b -> length slack = 64%nat -> mem_size (encode_block b) < 2 ^ 32 -> mem_size (block_data b) < 2 ^ 32 ->
  mem_size dest = mem_size (block_data b) + ADDITIONAL_BYTES_AT_END_OF_BUFFER -> 0 <= best_variant < 5 ->
  exists rest, decompress (encode_block b ++ slack) dest (mem_size (encode_block b)) (mem_size (block_data b)) best_variant =
    Ok (true, block_data b ++ rest) /\ length rest = 64%nat.
Proof.
  intros Hv Hslack Henc Hdata Hd Hbest.
  pose proof (fun N sh => decompressImpl_decodes N sh b slack dest Hv Hslack Henc Hdata Hd) as Himpl.
  destruct Hv as (_ & _ & Hne). unfold decompress.
  destruct (Z.eqb_spec (mem_size (encode_block b)) 0) as [E|_].
  { unfold encode_block, encode_last in E. rewrite length_app in E. simpl in E. lia. }
  destruct (Z.eqb_spec (mem_size (block_data b)) 0) as [E|_].
  { unfold block_data in E. rewrite length_app in E. destruct (last_literals b); [done|simpl in E; lia]. }
  cbn [orb]. repeat case_match; try apply Himpl. lia.
Qed.

(** A statistics object that was not told a method selects one of the variants. *)
Lemma select_range {double} (less : double -> double -> bool) samples :
  samples <> [] -> 0 <= select less (-1) samples < Z.of_nat (length samples).
Proof.
  intros Hne. unfold select. cbn [Z.ltb Z.compare]. destruct samples as [|x xs]; [done|]. cbn [min_element length].
  assert (H : forall xs i best s, (best < i)%nat -> (min_element_loop less xs i best s < i + length xs)%nat).
  { clear. induction xs as [|x xs IH]; intros i best s Hb; cbn [min_element_loop length]; [lia|].
    destruct (less x s); [specialize (IH (S i) i x)|specialize (IH (S i) best s)]; lia. }
  specialize (H xs 1%nat 0%nat x). lia.
Qed.

(** * Theorems *)

(** C18: decompression of any bytes, by every variant, ends, and reads and writes
    only the buffers and the 64 additional bytes after each of them. *)
Theorem lz4_decompress_safe (N : CopyAmount) (use_shuffle : bool) (source dest : bytes) (source_size dest_size : Z) :
  is_bytes source -> 0 <= source_size < 2 ^ 32 -> 0 <= dest_size ->
  mem_size source = source_size + ADDITIONAL_BYTES_AT_END_OF_BUFFER ->
  mem_size dest = dest_size + ADDITIONAL_BYTES_AT_END_OF_BUFFER ->
  exists success dest', decompressImpl N use_shuffle source dest source_size dest_size = Ok (success, dest') /\
    length dest' = length dest.
Proof. intros. apply decompress_loop_safe; done || lia. Qed.

(** A literal and a long match whose length is cut off. *)
Lemma lz4_decompress_safe_witness :
  exists success dest', decompressImpl Copy32 true ([31; 7; 1; 0; 255; 255] ++ replicate 64 255) (replicate 74 9) 6 10 =
      Ok (success, dest') /\
    length dest' = 74%nat.
Proof.
  apply (lz4_decompress_safe Copy32 true ([31; 7; 1; 0; 255; 255] ++ replicate 64 255) (replicate 74 9) 6 10);
    [|split; [discriminate|reflexivity]|discriminate|reflexivity|reflexivity].
  repeat constructor; discriminate.
Defined.

(** C17: every variant decodes every valid block to the data the format defines,
    whatever the additional bytes and the destination hold before; so all of them
    agree. *)
Theorem lz4_variants_decode (N : CopyAmount) (use_shuffle : bool) (b : Block) (slack dest : bytes) :
  valid_block b -> length slack = 64%nat -> mem_size (encode_block b) < 2 ^ 32 -> mem_size (block_data b) < 2 ^ 32 ->
  mem_size dest = mem_size (block_data b) + ADDITIONAL_BYTES_AT_END_OF_BUFFER ->
  exists rest, decompressImpl N use_shuffle (encode_block b ++ slack) dest
      (mem_size (encode_block b)) (mem_size (block_data b)) = Ok (true, block_data b ++ rest) /\ length rest = 64%nat.
Proof. apply decompressImpl_decodes. Qed.

(** Three letters that an overlapping match repeats. *)
Definition sample_block : Block := {|
  sequences := [{| literals := [97; 98; 99]; match_offset := 3; match_length := 9 |}];
  last_literals := [45] |}.

Lemma lz4_variants_decode_witness :
  exists rest, decompressImpl Copy8 true ([53; 97; 98; 99; 3; 0; 16; 45] ++ replicate 64 1) (replicate 77 2) 8 13 =
    Ok (true, [97; 98; 99; 97; 98; 99; 97; 98; 99; 97; 98; 99; 45] ++ rest) /\ length rest = 64%nat.
Proof.
  apply (lz4_variants_decode Copy8 true sample_block (replicate 64 1) (replicate 77 2));
    [|reflexivity|reflexivity|reflexivity|reflexivity].
  split; [|split; [repeat constructor; discriminate|discriminate]].
  repeat split; try discriminate; repeat constructor; discriminate.
Defined.

(** Blocks that are not valid: after a match that reaches the end of the output, a
    token without literals is refused by the variants that copy 8 bytes, and
    accepted by the others. *)
Lemma lz4_variants_differ :
  let source := [16; 97; 1; 0; 0] ++ replicate 64 0 in
  (exists dest', decompressImpl Copy8 false source (replicate 69 0) 5 5 = Ok (false, dest')) /\
  (exists dest', decompressImpl Copy16 false source (replicate 69 0) 5 5 = Ok (true, dest')).
Proof. split; eexists; vm_compute; reflexivity. Qed.
