(* ===== verification/CodecFPC.v ===== *)
(** The codec FPC (src/Compression/CompressionCodecFPC.cpp): floating point values
    as the difference to the better of two predictions, by pairs of values. *)
From S2P Require Import Prelude IntText BinaryIO Codec Elements CodecDelta.
Import Binary.

(** * The predictors *)

(** The table of a predictor: [table_size] values, zero at first. *)
Definition at_hash (table : gmap Z Z) (hash : Z) : Z := default 0 (table !! hash).

Record DfcmPredictor := {
  dfcm_table : gmap Z Z;
  dfcm_table_size : Z;
  prev_value : Z;
  dfcm_hash : Z }.

Definition dfcm_new (table_size : Z) : DfcmPredictor :=
  {| dfcm_table := ∅; dfcm_table_size := table_size; prev_value := 0; dfcm_hash := 0 |}.

Definition dfcm_predict (w : nat) (p : DfcmPredictor) : Z :=
  uwrap (bits w) (at_hash (dfcm_table p) (dfcm_hash p) + prev_value p).

Definition dfcm_recalculateHash (w : nat) (table_size hash value : Z) : Z :=
  if (8 <=? w)%nat then Z.land (Z.lxor (uwrap 64 (Z.shiftl hash 2)) (Z.shiftr value 40)) (table_size - 1)
  else Z.land (Z.lxor (uwrap 64 (Z.shiftl hash 4)) (Z.shiftr value 23)) (table_size - 1).

Definition dfcm_add (w : nat) (p : DfcmPredictor) (value : Z) : DfcmPredictor :=
  let table := <[ dfcm_hash p := uwrap (bits w) (value - prev_value p) ]> (dfcm_table p) in
  {| dfcm_table := table; dfcm_table_size := dfcm_table_size p; prev_value := value;
     dfcm_hash := dfcm_recalculateHash w (dfcm_table_size p) (dfcm_hash p) (at_hash table (dfcm_hash p)) |}.

Record FcmPredictor := {
  fcm_table : gmap Z Z;
  fcm_table_size : Z;
  fcm_hash : Z }.

Definition fcm_new (table_size : Z) : FcmPredictor :=
  {| fcm_table := ∅; fcm_table_size := table_size; fcm_hash := 0 |}.

Definition fcm_predict (p : FcmPredictor) : Z := at_hash (fcm_table p) (fcm_hash p).

Definition fcm_recalculateHash (w : nat) (table_size hash value : Z) : Z :=
  if (8 <=? w)%nat then Z.land (Z.lxor (uwrap 64 (Z.shiftl hash 6)) (Z.shiftr value 48)) (table_size - 1)
  else Z.land (Z.lxor (uwrap 64 (Z.shiftl hash 1)) (Z.shiftr value 22)) (table_size - 1).

Definition fcm_add (w : nat) (p : FcmPredictor) (value : Z) : FcmPredictor :=
  let table := <[ fcm_hash p := value ]> (fcm_table p) in
  {| fcm_table := table; fcm_table_size := fcm_table_size p;
     fcm_hash := fcm_recalculateHash w (fcm_table_size p) (fcm_hash p) (at_hash table (fcm_hash p)) |}.

(** * [FPCOperation] *)

Definition FCM_BIT : Z := 0.
Definition DFCM_BIT : Z := Z.shiftl 1 3.
Definition DFCM_BIT_1 : Z := Z.shiftl DFCM_BIT 4.
Definition DFCM_BIT_2 : Z := DFCM_BIT.
Definition MAX_ZERO_BYTE_COUNT : Z := 7.
Definition CHUNK_SIZE : nat := 64.

(** The two predictors; the chunk and the rest of the destination are passed
    along. *)
Record FPCOperation := { dfcm_predictor : DfcmPredictor; fcm_predictor : FcmPredictor }.

Definition FPCOperation_new (compression_level : Z) : FPCOperation :=
  {| dfcm_predictor := dfcm_new (2 ^ compression_level); fcm_predictor := fcm_new (2 ^ compression_level) |}.

Definition learn (w : nat) (op : FPCOperation) (value : Z) : FPCOperation :=
  {| dfcm_predictor := dfcm_add w (dfcm_predictor op) value; fcm_predictor := fcm_add w (fcm_predictor op) value |}.

(** [std::countl_zero] of an unsigned integer of [W] bits. *)
Definition countl_zero (W x : Z) : Z := if x =? 0 then W else W - 1 - Z.log2 x.

Definition ceilBytesToEvenValues (w bytes_count : nat) : nat :=
  let values_count := ((bytes_count + w - 1) / w)%nat in
  if (values_count mod 2 =? 0)%nat then values_count else S values_count.

(** [importChunk], with the part of the chunk that is written. *)
Definition importChunk (w : nat) (values : bytes) : list Z :=
  if (CHUNK_SIZE * w <=? length values)%nat then load_values w CHUNK_SIZE values
  else load_values w (ceilBytesToEvenValues w (length values))
         (values ++ replicate (CHUNK_SIZE * w - length values) 0).

Definition encodeCompressedZeroByteCount (w : nat) (compressed : Z) : Z :=
  let compressed :=
    if Z.of_nat w =? MAX_ZERO_BYTE_COUNT + 1 then (if 4 <=? compressed then compressed - 1 else compressed)
    else compressed in
  Z.min compressed MAX_ZERO_BYTE_COUNT.

Definition decodeCompressedZeroByteCount (w : nat) (encoded_size : Z) : Z :=
  if Z.of_nat w =? MAX_ZERO_BYTE_COUNT + 1 then (if 3 <? encoded_size then encoded_size + 1 else encoded_size)
  else encoded_size.

Record CompressedValue := { value : Z; compressed_size : Z; predictor : Z }.

Definition compressValue (w : nat) (op : FPCOperation) (v : Z) : CompressedValue * FPCOperation :=
  let compressed_dfcm := Z.lxor (dfcm_predict w (dfcm_predictor op)) v in
  let compressed_fcm := Z.lxor (fcm_predict (fcm_predictor op)) v in
  let zeroes_dfcm := countl_zero (bits w) compressed_dfcm in
  let zeroes_fcm := countl_zero (bits w) compressed_fcm in
  (if zeroes_fcm <? zeroes_dfcm
   then {| value := compressed_dfcm; compressed_size := encodeCompressedZeroByteCount w (zeroes_dfcm / 8);
           predictor := DFCM_BIT |}
   else {| value := compressed_fcm; compressed_size := encodeCompressedZeroByteCount w (zeroes_fcm / 8);
           predictor := FCM_BIT |},
   learn w op v).

(** The number of bytes of a value that are stored. *)
Definition tail_size (w : nat) (zero_byte_count : Z) : nat := Z.to_nat (Z.of_nat w - zero_byte_count).

(** The header byte of a pair. *)
Definition pair_header (c1 c2 : CompressedValue) : Z :=
  Z.lor (Z.lor (uwrap 8 (Z.shiftl (predictor c1) 4)) (predictor c2))
        (uwrap 8 (Z.lor (Z.shiftl (compressed_size c1) 4) (compressed_size c2))).

(** [encodePair], into the [room] bytes that are left of the destination. *)
Definition encodePair (w : nat) (op : FPCOperation) (room : nat) (first second : Z) : result (bytes * FPCOperation) :=
  let '(c1, op) := compressValue w op first in
  let '(c2, op) := compressValue w op second in
  let tail_size1 := tail_size w (decodeCompressedZeroByteCount w (compressed_size c1)) in
  let tail_size2 := tail_size w (decodeCompressedZeroByteCount w (compressed_size c2)) in
  if (room <? 1 + tail_size1 + tail_size2)%nat then Throw OUT_OF_BOUNDS_ACCESS
  else Ok (pair_header c1 c2 :: le_bytes tail_size1 (value c1) ++ le_bytes tail_size2 (value c2), op).

Fixpoint encodeChunk (w : nat) (op : FPCOperation) (room : nat) (sequence : list Z) : result (bytes * FPCOperation) :=
  match sequence with
  | first :: second :: sequence =>
      let! (out, op) := encodePair w op room first second in
      let! (rest, op) := encodeChunk w op (room - length out) sequence in
      Ok (out ++ rest, op)
  | [_] => Throw OUT_OF_BOUNDS_ACCESS
  | [] => Ok ([], op)
  end.

(** The loop of [encode], over the data from the position [i] on. *)
Fixpoint encode_loop (fuel : nat) (w : nat) (op : FPCOperation) (room : nat) (data : bytes) : result bytes :=
  match data, fuel with
  | [], _ => Ok []
  | _, O => Throw LOGICAL_ERROR
  | _, S fuel =>
      let! (out, op) := encodeChunk w op room (importChunk w data) in
      let! rest := encode_loop fuel w op (room - length out) (drop (CHUNK_SIZE * w) data) in
      Ok (out ++ rest)
  end.

Definition encode (w : nat) (level : Z) (room : nat) (data : bytes) : result bytes :=
  encode_loop (length data) w (FPCOperation_new level) room data.

Definition decompressValue (w : nat) (op : FPCOperation) (v : Z) (isDfcmPredictor : bool) : Z * FPCOperation :=
  let decompressed :=
    if isDfcmPredictor then Z.lxor (dfcm_predict w (dfcm_predictor op)) v
    else Z.lxor (fcm_predict (fcm_predictor op)) v in
  (decompressed, learn w op decompressed).

(** [decodePair], with the bytes after the pair. *)
Definition decodePair (w : nat) (op : FPCOperation) (bs : bytes) : result (Z * Z * FPCOperation * bytes) :=
  match bs with
  | [] => Throw CANNOT_DECOMPRESS
  | front :: _ =>
      let zero_byte_count1 := decodeCompressedZeroByteCount w (Z.land (Z.shiftr front 4) MAX_ZERO_BYTE_COUNT) in
      let zero_byte_count2 := decodeCompressedZeroByteCount w (Z.land front MAX_ZERO_BYTE_COUNT) in
      if (Z.of_nat w <? zero_byte_count1) || (Z.of_nat w <? zero_byte_count2) then Throw CANNOT_DECOMPRESS
      else
        let tail_size1 := tail_size w zero_byte_count1 in
        let tail_size2 := tail_size w zero_byte_count2 in
        let expected_size := (1 + tail_size1 + tail_size2)%nat in
        if 2 ^ 64 <=? Z.of_nat expected_size then Throw CANNOT_DECOMPRESS
        else if (length bs <? expected_size)%nat then Throw CANNOT_DECOMPRESS
        else
          let! bytes1 := slice 1 tail_size1 bs in
          let! bytes2 := slice (1 + tail_size1) tail_size2 bs in
          let is_dfcm_predictor1 := negb (Z.land front DFCM_BIT_1 =? 0) in
          let is_dfcm_predictor2 := negb (Z.land front DFCM_BIT_2 =? 0) in
          let '(first, op) := decompressValue w op (le_value bytes1) is_dfcm_predictor1 in
          let '(second, op) := decompressValue w op (le_value bytes2) is_dfcm_predictor2 in
          Ok (first, second, op, drop expected_size bs)
  end.

(** [decodeChunk] for a sequence of [n] values. *)
Fixpoint decodeChunk (w : nat) (op : FPCOperation) (n : nat) (values : bytes)
  : result (list Z * FPCOperation * bytes) :=
  match n with
  | O => Ok ([], op, values)
  | S O => Throw OUT_OF_BOUNDS_ACCESS
  | S (S n) =>
      let! (first, second, op, values) := decodePair w op values in
      let! (sequence, op, values) := decodeChunk w op n values in
      Ok (first :: second :: sequence, op, values)
  end.

(** The loop of [decode]; [size] is [decoded_size - i], and [result] the rest of
    the destination, of which [exportChunk] writes the front. *)
Fixpoint decode_loop (fuel : nat) (w : nat) (op : FPCOperation) (values : bytes) (size : nat) (dest : bytes)
  : result bytes :=
  match size, fuel with
  | O, _ => Ok dest
  | _, O => Throw LOGICAL_ERROR
  | _, S fuel =>
      let count := if (size <? CHUNK_SIZE * w)%nat then ceilBytesToEvenValues w size else CHUNK_SIZE in
      let! (sequence, op, values) := decodeChunk w op count values in
      let n := Nat.min (length dest) (count * w) in
      let! dest' := decode_loop fuel w op values (size - count * w) (drop n dest) in
      Ok (take n (store_values w sequence) ++ dest')
  end.

Definition decode (w : nat) (level : Z) (values dest : bytes) : result bytes :=
  decode_loop (length dest) w (FPCOperation_new level) values (length dest) dest.

(** * The codec *)

Definition MAX_COMPRESSION_LEVEL : Z := 28.
Definition DEFAULT_COMPRESSION_LEVEL : Z := 12.
Definition HEADER_SIZE : Z := 2.

Definition getMaxCompressedDataSize (float_width uncompressed_size : Z) : Z :=
  let float_count := uwrap 32 (uncompressed_size + float_width - 1) / float_width in
  let float_count := if float_count mod 2 =? 0 then float_count else uwrap 32 (float_count + 1) in
  uwrap 32 (HEADER_SIZE + float_count * float_width + float_count / 2).

Definition float_widths : list Z := [8; 4].

Definition doCompressData (float_width level : Z) (source : bytes) : result bytes :=
  let dest_size := getMaxCompressedDataSize float_width (size_of source) in
  let room := Z.to_nat (dest_size - HEADER_SIZE) in
  let! data := switch_size float_widths float_width (fun w => encode w level room source) (Throw CANNOT_COMPRESS) in
  Ok (float_width :: level :: data).

Definition doDecompressData (source dest : bytes) : result bytes :=
  match source with
  | compressed_float_width :: compressed_level :: src =>
      if (compressed_level =? 0) || (MAX_COMPRESSION_LEVEL <? compressed_level) then Throw CANNOT_DECOMPRESS
      else switch_size float_widths compressed_float_width (fun w => decode w compressed_level src dest)
             (Throw CANNOT_DECOMPRESS)
  | _ => Throw CANNOT_DECOMPRESS
  end.

Definition CompressionCodecFPC (float_width level : Z) : ICompressionCodec := {|
  Codec.getMethodByte := method_byte FPC;
  Codec.doCompressData := doCompressData float_width level;
  Codec.doDecompressData := doDecompressData;
  Codec.getMaxCompressedDataSize := getMaxCompressedDataSize float_width;
  getAdditionalSizeAtTheEndOfBuffer := 0;
  decompression_error_code := CORRUPTED_DATA;
  full_codec_desc := setCodecDescription "FPC" [UInt64Literal level];
  traits := compressing (float_series transformation) |}.

(** [getFloatBytesSize] *)
Definition getFloatBytesSize (column_type : IDataType) : result Z :=
  if negb (isFloat (getTypeId column_type)) then Throw BAD_ARGUMENTS
  else
    let float_size := getSizeOfValueInMemory column_type in
    if 4 <=? float_size then Ok (uwrap 8 float_size) else Throw BAD_ARGUMENTS.

(** The level, of type [UInt8], that the builder makes of the first argument. *)
Definition level_argument (argument : CodecArgument) : result Z :=
  match argument with
  | UInt64Literal value =>
      let level := uwrap 8 value in
      if (level <? 1) || (MAX_COMPRESSION_LEVEL <? level) then Throw ILLEGAL_CODEC_PARAMETER else Ok level
  | _ => Throw ILLEGAL_CODEC_PARAMETER
  end.

(** The width of the second argument. *)
Definition width_argument (argument : CodecArgument) : result Z :=
  match argument with
  | UInt64Literal _ | Int64Literal _ =>
      let! user_float_width := safeGet_UInt64 argument in
      if existsb (Z.eqb user_float_width) float_widths then Ok (uwrap 8 user_float_width)
      else Throw ILLEGAL_CODEC_PARAMETER
  | _ => Throw ILLEGAL_CODEC_PARAMETER
  end.

(** The builder of [registerCodecFPC]. *)
Definition codec_builder (arguments : list CodecArgument) (column_type : option IDataType)
  : result ICompressionCodec :=
  let! float_width := match column_type with Some column_type => getFloatBytesSize column_type | None => Ok 4 end in
  match arguments with
  | [] => Ok (CompressionCodecFPC float_width DEFAULT_COMPRESSION_LEVEL)
  | [argument] => let! level := level_argument argument in Ok (CompressionCodecFPC float_width level)
  | [argument; argument2] =>
      let! level := level_argument argument in
      let! float_width := width_argument argument2 in
      Ok (CompressionCodecFPC float_width level)
  | _ => Throw ILLEGAL_SYNTAX_FOR_CODEC_TYPE
  end.

(** * Predictions *)

Definition is_width (w : nat) : Prop := w = 4%nat \/ w = 8%nat.

(** The hashes are inside of the tables, and the predictions values of the width. *)
Record op_ok (w : nat) (op : FPCOperation) : Prop := {
  ok_level : exists level, 0 <= level /\
    dfcm_table_size (dfcm_predictor op) = 2 ^ level /\ fcm_table_size (fcm_predictor op) = 2 ^ level;
  ok_dfcm_hash : 0 <= dfcm_hash (dfcm_predictor op) < dfcm_table_size (dfcm_predictor op);
  ok_fcm_hash : 0 <= fcm_hash (fcm_predictor op) < fcm_table_size (fcm_predictor op);
  ok_fcm_table : map_Forall (fun _ => in_unsigned (bits w)) (fcm_table (fcm_predictor op)) }.

Lemma bits_pos w : 0 <= bits w.
Proof. unfold bits. lia. Qed.

Lemma hash_masked x level : 0 <= level -> 0 <= Z.land x (2 ^ level - 1) < 2 ^ level.
Proof. intros Hl. rewrite land_low_mask by done. apply Z.mod_pos_bound. lia. Qed.

Lemma new_ok w level : 0 <= level -> op_ok w (FPCOperation_new level).
Proof. intros Hl. split; simpl; [by exists level|lia|lia|apply map_Forall_empty]. Qed.

Lemma learn_ok w op v : op_ok w op -> in_unsigned (bits w) v -> op_ok w (learn w op v).
Proof.
  intros [(level & Hl & E1 & E2) H1 H2 H3] Hv. split; simpl.
  - by exists level.
  - rewrite E1. unfold dfcm_recalculateHash. case_match; by apply hash_masked.
  - rewrite E2. unfold fcm_recalculateHash. case_match; by apply hash_masked.
  - by apply map_Forall_insert_2.
Qed.

Lemma predictions_range w op :
  op_ok w op -> in_unsigned (bits w) (dfcm_predict w (dfcm_predictor op)) /\
    in_unsigned (bits w) (fcm_predict (fcm_predictor op)).
Proof.
  intros [_ _ _ H]. split; [apply uwrap_range, bits_pos|]. unfold fcm_predict, at_hash.
  destruct (_ !! _) as [v|] eqn:E; [by apply (H _ _ E)|]. simpl. unfold in_unsigned. pose proof (bits_pos w). lia.
Qed.

(** ** Zero bytes *)

(** The zero bytes that are dropped are zeros of the value. *)
Lemma countl_zero_fits W x : 0 < W -> in_unsigned W x -> 0 <= countl_zero W x <= W /\ x < 2 ^ (W - countl_zero W x).
Proof.
  unfold in_unsigned, countl_zero. intros HW Hx. destruct (Z.eqb_spec x 0) as [->|Hne]; [rewrite Z.sub_diag; simpl; lia|].
  pose proof (Z.log2_spec x ltac:(lia)) as [_ H]. pose proof (Z.log2_nonneg x).
  assert (Z.log2 x < W) by (apply Z.log2_lt_pow2; lia).
  split; [lia|]. replace (W - (W - 1 - Z.log2 x)) with (Z.succ (Z.log2 x)) by lia. done.
Qed.

Lemma zero_byte_counts w q :
  is_width w -> 0 <= q <= Z.of_nat w ->
  0 <= encodeCompressedZeroByteCount w q <= 7 /\
  0 <= decodeCompressedZeroByteCount w (encodeCompressedZeroByteCount w q) <= q.
Proof.
  intros [-> | ->] Hq; unfold encodeCompressedZeroByteCount, decodeCompressedZeroByteCount, MAX_ZERO_BYTE_COUNT;
    [change (Z.of_nat 4) with 4 in *|change (Z.of_nat 8) with 8 in *]; simpl.
  - lia.
  - destruct (Z.leb_spec 4 q); destruct (Z.ltb_spec 3 (Z.min (q - 1) 7)); destruct (Z.ltb_spec 3 (Z.min q 7)); lia.
Qed.

(** A compressed value that the decoder turns back into [v]. *)
Record compressed_ok (w : nat) (op : FPCOperation) (v : Z) (c : CompressedValue) : Prop := {
  compressed_count : 0 <= compressed_size c <= 7;
  compressed_predictor : predictor c = FCM_BIT \/ predictor c = DFCM_BIT;
  compressed_zeros : 0 <= decodeCompressedZeroByteCount w (compressed_size c) <= Z.of_nat w;
  compressed_fits :
    in_unsigned (bits (tail_size w (decodeCompressedZeroByteCount w (compressed_size c)))) (value c);
  compressed_back : decompressValue w op (value c) (negb (predictor c =? 0)) = (v, learn w op v) }.

Lemma prediction_ok w op v prediction p :
  is_width w -> in_unsigned (bits w) prediction -> in_unsigned (bits w) v -> p = FCM_BIT \/ p = DFCM_BIT ->
  (if negb (p =? 0) then dfcm_predict w (dfcm_predictor op) else fcm_predict (fcm_predictor op)) = prediction ->
  compressed_ok w op v
    {| value := Z.lxor prediction v;
       compressed_size := encodeCompressedZeroByteCount w (countl_zero (bits w) (Z.lxor prediction v) / 8);
       predictor := p |}.
Proof.
  intros Hw Hpred Hv Hp E. set (x := Z.lxor prediction v).
  assert (Hx : in_unsigned (bits w) x) by (apply lxor_range; [apply bits_pos|done..]).
  assert (HW : 0 < bits w) by (destruct Hw as [-> | ->]; done).
  destruct (countl_zero_fits (bits w) x HW Hx) as [Hz Hlt]. set (z := countl_zero (bits w) x) in *.
  pose proof (Z.mul_div_le z 8 eq_refl) as Hfloor.
  assert (Hq : 0 <= z / 8 <= Z.of_nat w) by (unfold bits in Hz; pose proof (Z.div_pos z 8); lia).
  destruct (zero_byte_counts w (z / 8) Hw Hq) as [H1 H2]. split; cbn [value compressed_size predictor].
  - done.
  - done.
  - lia.
  - unfold tail_size, bits at 1. rewrite Z2Nat.id by lia. split; [apply Hx|].
    eapply Z.lt_le_trans; [exact Hlt|]. apply Z.pow_le_mono_r; [lia|]. unfold bits. lia.
  - unfold decompressValue. destruct (negb (p =? 0)); rewrite E; unfold x;
      by rewrite <- Z.lxor_assoc, Z.lxor_nilpotent, Z.lxor_0_l.
Qed.

Lemma compressValue_spec w op v :
  is_width w -> op_ok w op -> in_unsigned (bits w) v ->
  exists c, compressValue w op v = (c, learn w op v) /\ compressed_ok w op v c.
Proof.
  intros Hw Hop Hv. destruct (predictions_range w op Hop) as [Hd Hf]. unfold compressValue.
  destruct (_ <? _); eexists; (split; [reflexivity|]); apply prediction_ok; auto.
Qed.

(** The fields of the header byte of a pair. *)
Lemma pair_header_fields w op1 op2 v1 v2 c1 c2 :
  compressed_ok w op1 v1 c1 -> compressed_ok w op2 v2 c2 ->
  let h := pair_header c1 c2 in
  0 <= h < 256 /\ Z.land (Z.shiftr h 4) MAX_ZERO_BYTE_COUNT = compressed_size c1 /\
  Z.land h MAX_ZERO_BYTE_COUNT = compressed_size c2 /\
  (Z.land h DFCM_BIT_1 =? 0) = (predictor c1 =? 0) /\ (Z.land h DFCM_BIT_2 =? 0) = (predictor c2 =? 0).
Proof.
  intros [H1 P1 _ _ _] [H2 P2 _ _ _]. destruct c1 as [x1 s1 p1], c2 as [x2 s2 p2].
  cbn [compressed_size predictor] in *. unfold pair_header. cbn [compressed_size predictor].
  assert (C : forall s, 0 <= s <= 7 -> s = 0 \/ s = 1 \/ s = 2 \/ s = 3 \/ s = 4 \/ s = 5 \/ s = 6 \/ s = 7) by lia.
  destruct P1 as [-> | ->], P2 as [-> | ->], (C s1 H1) as [->|[->|[->|[->|[->|[->|[->| ->]]]]]]],
    (C s2 H2) as [->|[->|[->|[->|[->|[->|[->| ->]]]]]]]; vm_compute; repeat split; discriminate.
Qed.

Lemma tail_size_le w z : 0 <= z -> (tail_size w z <= w)%nat.
Proof. unfold tail_size. lia. Qed.

(** ** Pairs *)

Lemma encodePair_spec w op room first second :
  is_width w -> op_ok w op -> in_unsigned (bits w) first -> in_unsigned (bits w) second ->
  (1 + 2 * w <= room)%nat ->
  exists out, encodePair w op room first second = Ok (out, learn w (learn w op first) second) /\
    (length out <= 1 + 2 * w)%nat.
Proof.
  intros Hw Hop H1 H2 Hr. unfold encodePair.
  destruct (compressValue_spec w op first) as (c1 & -> & [_ _ Z1 _ _]); [done..|].
  destruct (compressValue_spec w (learn w op first) second) as (c2 & -> & [_ _ Z2 _ _]); [done|by apply learn_ok|done|].
  pose proof (tail_size_le w _ (proj1 Z1)) as L1. pose proof (tail_size_le w _ (proj1 Z2)) as L2.
  destruct (Nat.ltb_spec room (1 + tail_size w (decodeCompressedZeroByteCount w (compressed_size c1)) +
    tail_size w (decodeCompressedZeroByteCount w (compressed_size c2)))); [lia|].
  eexists. split; [reflexivity|]. simpl_len. rewrite ?length_le_bytes. lia.
Qed.

Lemma decodePair_encodePair w op op' room first second out rest :
  is_width w -> op_ok w op -> in_unsigned (bits w) first -> in_unsigned (bits w) second ->
  encodePair w op room first second = Ok (out, op') ->
  is_bytes out /\ op_ok w op' /\ decodePair w op (out ++ rest) = Ok (first, second, op', rest).
Proof.
  intros Hw Hop V1 V2. unfold encodePair.
  assert (Hop1 : op_ok w (learn w op first)) by by apply learn_ok.
  destruct (compressValue_spec w op first) as (c1 & -> & C1); [done..|].
  destruct (compressValue_spec w (learn w op first) second) as (c2 & -> & C2); [done..|].
  destruct (pair_header_fields _ _ _ _ _ _ _ C1 C2) as (Hh & F1 & F2 & F3 & F4).
  destruct C1 as [_ _ Z1 U1 B1], C2 as [_ _ Z2 U2 B2].
  set (t1 := tail_size w (decodeCompressedZeroByteCount w (compressed_size c1))) in *.
  set (t2 := tail_size w (decodeCompressedZeroByteCount w (compressed_size c2))) in *.
  destruct (room <? 1 + t1 + t2)%nat; [done|]. intros E. apply Ok_inj in E. injection E as <- <-. split_and!.
  - constructor; [done|]. apply is_bytes_app. split; apply le_bytes_range.
  - by apply learn_ok.
  - unfold decodePair. cbn [app]. rewrite F1, F2, F3, F4. fold t1 t2.
    assert (T1 : (t1 <= w)%nat) by apply tail_size_le, Z1. assert (T2 : (t2 <= w)%nat) by apply tail_size_le, Z2.
    assert (Hw8 : (w <= 8)%nat) by (destruct Hw; lia).
    destruct (Z.ltb_spec (Z.of_nat w) (decodeCompressedZeroByteCount w (compressed_size c1))); [lia|].
    destruct (Z.ltb_spec (Z.of_nat w) (decodeCompressedZeroByteCount w (compressed_size c2))); [lia|]. cbn [orb].
    destruct (Z.leb_spec (2 ^ 64) (Z.of_nat (1 + t1 + t2))); [lia|].
    set (bs := pair_header c1 c2 :: _).
    assert (Ebs : bs = [pair_header c1 c2] ++ le_bytes t1 (value c1) ++ le_bytes t2 (value c2) ++ rest)
      by (unfold bs; by rewrite <- app_assoc).
    destruct (Nat.ltb_spec (length bs) (1 + t1 + t2)) as [Hlt|_].
    { rewrite Ebs in Hlt. simpl_len. rewrite ?length_le_bytes in Hlt. lia. }
    rewrite Ebs at 1. rewrite slice_app by (done || apply length_le_bytes). cbn [rbind].
    rewrite Ebs at 1. rewrite app_assoc, slice_app; [|simpl_len; by rewrite ?length_le_bytes|apply length_le_bytes].
    cbn [rbind]. rewrite !le_value_bytes by done. rewrite B1, B2. f_equal. f_equal.
    rewrite Ebs, !app_assoc. apply drop_app_length'. simpl_len. rewrite ?length_le_bytes. lia.
Qed.

(** ** Chunks *)

Lemma encodeChunk_spec w op room n sequence :
  is_width w -> op_ok w op -> is_values w sequence -> length sequence = (2 * n)%nat -> (n * (1 + 2 * w) <= room)%nat ->
  exists out op', encodeChunk w op room sequence = Ok (out, op') /\ (length out <= n * (1 + 2 * w))%nat.
Proof.
  intros Hw. revert op room sequence. induction n as [|n IH]; intros op room [|v1 [|v2 sequence]] Hop Hv Hl Hr;
    cbn [length] in Hl; try lia.
  { eexists _, _. split; [reflexivity|]. simpl. lia. }
  apply Forall_cons in Hv as [H1 Hv]. apply Forall_cons in Hv as [H2 Hv]. cbn [encodeChunk].
  destruct (encodePair_spec w op room v1 v2) as (out & -> & Hout); [done..|lia|]. cbn [rbind].
  destruct (IH (learn w (learn w op v1) v2) (room - length out)%nat sequence) as (rest & op' & -> & Hrest);
    [by repeat apply learn_ok|done|lia|lia|].
  eexists _, _. split; [reflexivity|]. simpl_len. lia.
Qed.

Lemma decodeChunk_encodeChunk w op op' room n sequence out rest :
  is_width w -> op_ok w op -> is_values w sequence -> length sequence = (2 * n)%nat ->
  encodeChunk w op room sequence = Ok (out, op') ->
  is_bytes out /\ op_ok w op' /\ decodeChunk w op (2 * n) (out ++ rest) = Ok (sequence, op', rest).
Proof.
  intros Hw. revert op room sequence out. induction n as [|n IH]; intros op room [|v1 [|v2 sequence]] out Hop Hv Hl;
    cbn [length] in Hl; try lia; cbn [encodeChunk].
  { intros E. apply Ok_inj in E. injection E as <- <-. by split; [constructor|]. }
  apply Forall_cons in Hv as [H1 Hv]. apply Forall_cons in Hv as [H2 Hv].
  intros ([out1 op1] & Hpair & H)%rbind_Ok. apply rbind_Ok in H as ([out2 op2] & Hrest & H).
  apply Ok_inj in H. injection H as <- <-.
  destruct (decodePair_encodePair _ _ _ _ _ _ _ (out2 ++ rest) Hw Hop H1 H2 Hpair) as (Hb1 & Hop1 & Hback1).
  destruct (IH _ _ _ _ Hop1 Hv ltac:(lia) Hrest) as (Hb2 & Hop2 & Hback2).
  replace (2 * S n)%nat with (S (S (2 * n))) by lia. cbn [decodeChunk].
  rewrite <- app_assoc, Hback1. cbn [rbind]. rewrite Hback2. by rewrite is_bytes_app.
Qed.

(** The number of values the decoder expects in a chunk, [size] bytes before the end. *)
Definition chunk_count (w size : nat) : nat :=
  if (size <? CHUNK_SIZE * w)%nat then ceilBytesToEvenValues w size else CHUNK_SIZE.

(** The pairs of values that hold [size] bytes. *)
Definition pairs (w size : nat) : nat := (ceilBytesToEvenValues w size / 2)%nat.

Lemma ceil_even w size : (ceilBytesToEvenValues w size = 2 * pairs w size)%nat.
Proof.
  unfold pairs, ceilBytesToEvenValues. set (c := ((size + w - 1) / w)%nat).
  pose proof (Nat.div_mod_eq c 2). pose proof (Nat.mod_upper_bound c 2 ltac:(lia)).
  destruct (Nat.eqb_spec (c mod 2) 0); [lia|]. replace (S c) with ((c / 2 + 1) * 2)%nat by lia.
  rewrite Nat.div_mul; lia.
Qed.

Lemma ceil_bounds w size :
  (0 < w)%nat -> (size <= ceilBytesToEvenValues w size * w)%nat /\
    (size < CHUNK_SIZE * w -> ceilBytesToEvenValues w size <= CHUNK_SIZE)%nat.
Proof.
  intros Hw. unfold ceilBytesToEvenValues, CHUNK_SIZE. set (c := ((size + w - 1) / w)%nat).
  pose proof (Nat.div_mod_eq (size + w - 1) w) as E. pose proof (Nat.mod_upper_bound (size + w - 1) w ltac:(lia)).
  fold c in E. pose proof (Nat.div_mod_eq c 2). pose proof (Nat.mod_upper_bound c 2 ltac:(lia)).
  assert (Hc : (size < 64 * w -> c <= 64)%nat).
  { intros Hs. apply Nat.nlt_ge. intros Hlt. pose proof (Nat.mul_le_mono_l 65 c w Hlt). lia. }
  rewrite (Nat.mul_comm _ w). destruct (Nat.eqb_spec (c mod 2) 0); (split; [lia|]); intros Hs; specialize (Hc Hs); lia.
Qed.

Lemma pairs_step w size :
  (0 < w)%nat -> (CHUNK_SIZE * w <= size)%nat -> (pairs w size = 32 + pairs w (size - CHUNK_SIZE * w))%nat.
Proof.
  intros Hw Hs. set (size' := (size - CHUNK_SIZE * w)%nat). assert (E : size = (size' + CHUNK_SIZE * w)%nat) by lia.
  enough (ceilBytesToEvenValues w size = 64 + ceilBytesToEvenValues w size')%nat by (rewrite !ceil_even in *; lia).
  rewrite E. unfold ceilBytesToEvenValues, CHUNK_SIZE. replace (size' + 64 * w + w - 1)%nat with (size' + w - 1 + 64 * w)%nat by lia.
  rewrite Nat.div_add by lia. set (c := ((size' + w - 1) / w)%nat).
  replace (c + 64)%nat with (c + 32 * 2)%nat by lia. rewrite Nat.Div0.mod_add. destruct (_ =? 0)%nat; lia.
Qed.

Lemma chunk_even w size : chunk_count w size = (2 * (chunk_count w size / 2))%nat.
Proof.
  unfold chunk_count. destruct (_ <? _)%nat; [|done]. rewrite ceil_even, Nat.mul_comm, Nat.div_mul by lia. lia.
Qed.

Lemma importChunk_spec w data :
  (0 < w)%nat -> is_bytes data ->
  let count := chunk_count w (length data) in
  length (importChunk w data) = count /\ is_values w (importChunk w data) /\
  take (Nat.min (length data) (count * w)) (store_values w (importChunk w data)) = take (CHUNK_SIZE * w) data.
Proof.
  intros Hw Hb. unfold chunk_count, importChunk. destruct (ceil_bounds w (length data) Hw) as [H1 H2].
  destruct (Nat.ltb_spec (length data) (CHUNK_SIZE * w)), (Nat.leb_spec (CHUNK_SIZE * w) (length data)); try lia;
    cbv zeta; rewrite length_load_values; (split; [done|]).
  - specialize (H2 ltac:(done)). set (count := ceilBytesToEvenValues w (length data)) in *.
    set (padded := data ++ _). assert (Hpad : is_bytes padded) by (apply is_bytes_app; auto with bytesdb).
    assert (Hlen : (w * count <= length padded)%nat) by (unfold padded; simpl_len; nia).
    split; [by apply load_values_range|]. rewrite store_load_values, take_take by done.
    unfold padded. rewrite take_app_le, !take_ge by lia. done.
  - split; [apply load_values_range; [done|lia]|].
    rewrite store_load_values, take_take by (done || lia). f_equal. lia.
Qed.

(** What a chunk leaves to the next ones. *)
Lemma chunk_rest w size :
  (0 < w)%nat ->
  (size - chunk_count w size * w = size - CHUNK_SIZE * w)%nat /\
  (pairs w size = chunk_count w size / 2 + pairs w (size - CHUNK_SIZE * w))%nat.
Proof.
  intros Hw. destruct (ceil_bounds w size Hw) as [H1 H2]. unfold chunk_count.
  destruct (Nat.ltb_spec size (CHUNK_SIZE * w)) as [Hs|Hs]; [|split; [done|by apply pairs_step]].
  replace (size - CHUNK_SIZE * w)%nat with 0%nat by lia. split; [lia|].
  assert (E : pairs w 0 = 0%nat).
  { unfold pairs, ceilBytesToEvenValues. by rewrite (Nat.div_small (0 + w - 1) w) by lia. }
  rewrite E. unfold pairs. lia.
Qed.

(** ** The loops *)

Lemma encode_loop_spec fuel w op room data :
  is_width w -> op_ok w op -> is_bytes data -> (length data <= fuel)%nat ->
  (pairs w (length data) * (1 + 2 * w) <= room)%nat ->
  exists out, encode_loop fuel w op room data = Ok out /\ (length out <= pairs w (length data) * (1 + 2 * w))%nat.
Proof.
  intros Hw. assert (Hw0 : (0 < w)%nat) by (destruct Hw; lia).
  revert op room data. induction fuel as [|fuel IH]; intros op room [|b data'] Hop Hb Hf Hr; cbn [length] in Hf; try lia;
    [by exists []; split; [|apply Nat.le_0_l]..|]. cbn [encode_loop].
  set (data := b :: data') in *. destruct (importChunk_spec w data Hw0 Hb) as (Hlen & Hvals & _).
  destruct (chunk_rest w (length data) Hw0) as [_ Hpairs]. rewrite chunk_even in Hlen.
  set (n := (chunk_count w (length data) / 2)%nat) in *.
  destruct (encodeChunk_spec w op room n (importChunk w data)) as (out & op' & Hc & Hout); [done..|nia|].
  rewrite Hc. cbn [rbind]. destruct (decodeChunk_encodeChunk w op op' room n _ out [] Hw Hop Hvals Hlen Hc) as (_ & Hop' & _).
  assert (Hd : length (drop (CHUNK_SIZE * w) data) = (length data - CHUNK_SIZE * w)%nat) by apply length_drop.
  destruct (IH op' (room - length out)%nat (drop (CHUNK_SIZE * w) data)) as (rest & -> & Hrest);
    [done|auto with bytesdb|unfold CHUNK_SIZE in *; rewrite Hd; unfold data; cbn [length]; lia|rewrite Hd; nia|].
  eexists. split; [reflexivity|]. rewrite Hd in Hrest. rewrite length_app. nia.
Qed.

Lemma decode_encode_loop fuel w op room data out dest rest :
  is_width w -> op_ok w op -> is_bytes data -> encode_loop fuel w op room data = Ok out ->
  length dest = length data ->
  is_bytes out /\ decode_loop fuel w op (out ++ rest) (length data) dest = Ok data.
Proof.
  intros Hw. assert (Hw0 : (0 < w)%nat) by (destruct Hw; lia).
  revert op room data out dest. induction fuel as [|fuel IH]; intros op room [|b data'] out dest Hop Hb H Hd;
    try discriminate H; [by injection H as <-; destruct dest; [split; [constructor|]|]..|].
  cbn [encode_loop] in H. set (data := b :: data') in *.
  destruct (importChunk_spec w data Hw0 Hb) as (Hlen & Hvals & Hstore). destruct (chunk_rest w (length data) Hw0) as [Hleft _].
  apply rbind_Ok in H as ([out1 op1] & Hchunk & H). apply rbind_Ok in H as (out2 & Hloop & H). apply Ok_inj in H as <-.
  pose proof (chunk_even w (length data)) as Heven. rewrite Heven in Hlen.
  destruct (decodeChunk_encodeChunk _ _ _ _ _ _ _ (out2 ++ rest) Hw Hop Hvals Hlen Hchunk) as (Hb1 & Hop1 & Hback).
  rewrite <- Heven in Hback.
  destruct (IH op1 _ _ _ (drop (Nat.min (length dest) (chunk_count w (length data) * w)) dest) Hop1
    (is_bytes_drop _ _ Hb) Hloop) as (Hb2 & Hrest); [rewrite !length_drop; lia|].
  split; [by apply is_bytes_app|]. change (length data) with (S (length data')) at 1. cbn [decode_loop].
  change (S (length data')) with (length data). fold (chunk_count w (length data)).
  rewrite <- app_assoc, Hback. cbn [rbind]. rewrite Hleft, <- length_drop, Hrest. cbn [rbind].
  rewrite Hd, Hstore, take_drop. done.
Qed.

(** ** Corrupted data *)

Lemma decodePair_error w op bs : decodePair w op bs <> Throw OUT_OF_BOUNDS_ACCESS.
Proof.
  unfold decodePair. destruct bs as [|front rest]; [done|]. destruct (_ || _); [done|].
  set (t1 := tail_size _ _). set (t2 := tail_size _ _). destruct (_ <=? _); [done|].
  destruct (Nat.ltb_spec (length (front :: rest)) (1 + t1 + t2)); [done|].
  rewrite !slice_inside by lia. cbn [rbind]. by destruct (decompressValue _ _ _ _) as [? ?], (decompressValue _ _ _ _) as [? ?].
Qed.

Lemma decodeChunk_safe w op n values :
  decodeChunk w op (2 * n) values <> Throw OUT_OF_BOUNDS_ACCESS /\
  forall sequence op' rest, decodeChunk w op (2 * n) values = Ok (sequence, op', rest) -> length sequence = (2 * n)%nat.
Proof.
  revert op values. induction n as [|n IH]; intros op values; [by split; [|intros ? ? ? [= <- _ _]]|].
  replace (2 * S n)%nat with (S (S (2 * n))) by lia. cbn [decodeChunk].
  pose proof (decodePair_error w op values) as Hp. destruct (decodePair w op values) as [[[[v1 v2] op1] rest1]|e]; cbn [rbind].
  - destruct (IH op1 rest1) as [H1 H2]. destruct (decodeChunk w op1 (2 * n) rest1) as [[[seq op2] rest2]|e]; cbn [rbind].
    + split; [done|]. intros ? ? ? [= <- _ _]. cbn [length]. by rewrite (H2 _ _ _ eq_refl).
    + split; [congruence|done].
  - split; [congruence|done].
Qed.

Lemma decode_loop_safe fuel w op values dest :
  is_width w -> (length dest <= fuel)%nat -> memory_safe dest (decode_loop fuel w op values (length dest) dest).
Proof.
  intros Hw. assert (Hw0 : (0 < w)%nat) by (destruct Hw; lia).
  revert op values dest. induction fuel as [|fuel IH]; intros op values [|b dest'] Hf; cbn [length] in Hf; try lia; try done.
  set (dest := b :: dest'). change (length dest) with (S (length dest')) at 1. cbn [decode_loop].
  change (S (length dest')) with (length dest). fold (chunk_count w (length dest)).
  destruct (chunk_rest w (length dest) Hw0) as [Hleft _]. rewrite Hleft. pose proof (chunk_even w (length dest)) as Heven.
  destruct (decodeChunk_safe w op (chunk_count w (length dest) / 2) values) as [H1 H2]. rewrite <- Heven in H1, H2.
  destruct (decodeChunk w op (chunk_count w (length dest)) values) as [[[sequence op1] rest]|e]; [|simpl; congruence].
  specialize (H2 _ _ _ eq_refl). cbn [rbind].
  set (n := Nat.min (length dest) (chunk_count w (length dest) * w)).
  assert (Hd : length (drop n dest) = (length dest - CHUNK_SIZE * w)%nat) by (rewrite length_drop; lia).
  rewrite <- Hd. specialize (IH op1 rest (drop n dest)).
  destruct (decode_loop fuel w op1 rest _ _) as [out|e]; cbn [rbind memory_safe] in *.
  - rewrite length_app, length_take, length_store_values, IH, H2; unfold CHUNK_SIZE, n, dest in *; cbn [length] in *; lia.
  - apply IH. rewrite Hd. unfold CHUNK_SIZE, dest. cbn [length]. lia.
Qed.

(** * The codec is lossless *)

Lemma float_widths_spec size : existsb (Z.eqb size) float_widths = true -> is_width (Z.to_nat size) /\ Z.of_nat (Z.to_nat size) = size.
Proof. simpl. rewrite !orb_true_iff, !Z.eqb_eq. intros [-> | [-> | ]]; [by split; [right|]|by split; [left|]|done]. Qed.

(** The reserved size has room for the header and for every pair as it is. *)
Lemma getMaxCompressedDataSize_pairs w (src : bytes) :
  is_width w -> size_of src <= 2 ^ 31 ->
  getMaxCompressedDataSize (Z.of_nat w) (size_of src) = 2 + Z.of_nat (pairs w (length src) * (1 + 2 * w)).
Proof.
  intros Hw Hs. unfold getMaxCompressedDataSize, HEADER_SIZE.
  assert (Hw' : 4 <= Z.of_nat w <= 8) by (destruct Hw; lia). set (n := length src) in *.
  rewrite (uwrap_small 32 (Z.of_nat n + Z.of_nat w - 1)) by (unfold in_unsigned; lia).
  replace (Z.of_nat n + Z.of_nat w - 1) with (Z.of_nat (n + w - 1)) by lia. rewrite <- Nat2Z.inj_div.
  set (c := ((n + w - 1) / w)%nat). pose proof (ceil_even w n) as E. unfold ceilBytesToEvenValues in E. fold c in E.
  assert (Hc : (w * c <= n + w - 1)%nat) by apply Nat.Div0.mul_div_le.
  assert (Hc4 : (4 * c <= w * c)%nat) by (apply Nat.mul_le_mono_r; lia).
  replace (Z.of_nat c mod 2) with (Z.of_nat (c mod 2)) by (by rewrite Nat2Z.inj_mod).
  replace (if Z.of_nat (c mod 2) =? 0 then Z.of_nat c else uwrap 32 (Z.of_nat c + 1)) with (Z.of_nat (2 * pairs w n)).
  2:{ destruct (Nat.eqb_spec (c mod 2) 0), (Z.eqb_spec (Z.of_nat (c mod 2)) 0); try lia.
      rewrite uwrap_small by (unfold in_unsigned; lia). lia. }
  replace (Z.of_nat (2 * pairs w n) / 2) with (Z.of_nat (pairs w n))
    by (rewrite Nat2Z.inj_mul, Z.mul_comm, Z.div_mul; lia).
  assert (Hp : (2 * pairs w n <= c + 1)%nat) by (rewrite <- E; destruct (_ =? _)%nat; lia).
  clearbody c. rewrite uwrap_small; destruct Hw as [-> | ->]; unfold in_unsigned; lia.
Qed.

Lemma fpc_doCompressData_Ok float_width level src data dest :
  1 <= level <= 28 -> is_bytes src -> doCompressData float_width level src = Ok data -> length dest = length src ->
  is_bytes data /\ doDecompressData data dest = Ok src.
Proof.
  intros Hl Hb H Hd. unfold doCompressData, switch_size in H. apply rbind_Ok in H as (out & H & E). apply Ok_inj in E as <-.
  destruct (existsb (Z.eqb float_width) float_widths) eqn:Hsize; [|done].
  destruct (float_widths_spec _ Hsize) as [Hw Hrange].
  destruct (decode_encode_loop _ _ _ _ _ _ dest [] Hw (new_ok _ level ltac:(lia)) Hb H Hd) as [Hout Hback]. split.
  - constructor; [destruct Hw; lia|]. by constructor; [lia|].
  - unfold doDecompressData, MAX_COMPRESSION_LEVEL. destruct (Z.eqb_spec level 0), (Z.ltb_spec 28 level); try lia.
    cbn [orb]. rewrite switch_size_hit by done. unfold decode. rewrite Hd. by rewrite app_nil_r in Hback.
Qed.

#[export] Instance lossless_FPC float_width level float_width' level' :
  1 <= level <= 28 ->
  LosslessCodec (CompressionCodecFPC float_width level) (CompressionCodecFPC float_width' level') 1.
Proof.
  intros Hl. split; simpl; [done|lia| |].
  - intros src data Hb _ Hc. by destruct (fpc_doCompressData_Ok _ _ _ _ src Hl Hb Hc eq_refl).
  - intros src data dest Hb _ _ Hc Hd. by destruct (fpc_doCompressData_Ok _ _ _ _ dest Hl Hb Hc Hd).
Qed.

#[export] Instance safe_FPC float_width level : SafeDecoder (CompressionCodecFPC float_width level).
Proof.
  intros source dest _ _ _. simpl. unfold doDecompressData, switch_size. destruct source as [|width [|l src]]; [done..|].
  destruct (_ || _); [done|]. destruct (existsb _ _) eqn:Hsize; [|done].
  apply decode_loop_safe; [by apply float_widths_spec|done].
Qed.

Lemma fpc_built args type c :
  codec_builder args type = Ok c -> exists float_width level, 1 <= level <= 28 /\ c = CompressionCodecFPC float_width level.
Proof.
  assert (Harg : forall a level, level_argument a = Ok level -> 1 <= level <= 28).
  { intros [v| | | | |] level H; try discriminate H. unfold level_argument, MAX_COMPRESSION_LEVEL in H.
    destruct (Z.ltb_spec (uwrap 8 v) 1); [done|]. destruct (Z.ltb_spec 28 (uwrap 8 v)); [done|].
    apply Ok_inj in H as <-. lia. }
  unfold codec_builder, DEFAULT_COMPRESSION_LEVEL. intros (width & _ & H)%rbind_Ok.
  destruct args as [|a [|a2 [|a3 args]]].
  - apply Ok_inj in H as <-. exists width, 12. split; [lia|done].
  - apply rbind_Ok in H as (level & Hl & H). apply Ok_inj in H as <-. eauto.
  - apply rbind_Ok in H as (level & Hl & H). apply rbind_Ok in H as (width' & _ & H). apply Ok_inj in H as <-. eauto.
  - done.
Qed.

(** Compression does not fail and stays within the reserved size. *)
Lemma fpc_doCompressData_fits float_width level src :
  existsb (Z.eqb float_width) float_widths = true -> 1 <= level <= 28 -> is_bytes src -> size_of src <= 2 ^ 31 ->
  exists data, doCompressData float_width level src = Ok data /\
    size_of data <= getMaxCompressedDataSize float_width (size_of src).
Proof.
  intros Hsize Hl Hb Hs. destruct (float_widths_spec _ Hsize) as [Hw Hrange].
  pose proof (getMaxCompressedDataSize_pairs _ _ Hw Hs) as Hmax. rewrite Hrange in Hmax.
  destruct (encode_loop_spec (length src) _ (FPCOperation_new level)
    (Z.to_nat (getMaxCompressedDataSize float_width (size_of src) - 2)) src Hw) as (out & Hc & Hlen);
    [apply new_ok; lia|done|done|lia|].
  exists (float_width :: level :: out). split; [|simpl_len; lia].
  unfold doCompressData. rewrite switch_size_hit by done. unfold encode, HEADER_SIZE. by rewrite Hc.
Qed.

(** The number of pairs grows with the data. *)
Lemma pairs_bounds w n m : is_width w -> (n <= m)%nat -> (pairs w n <= pairs w m)%nat /\ (2 * w * pairs w m <= m + 3 * w)%nat.
Proof.
  intros Hw Hn. pose proof (ceil_even w n) as En. pose proof (ceil_even w m) as Em. unfold ceilBytesToEvenValues in *.
  assert (Hw0 : (w <> 0)%nat) by (destruct Hw; lia).
  pose proof (Nat.Div0.div_le_mono (n + w - 1) (m + w - 1) w ltac:(lia)) as Hle.
  pose proof (Nat.Div0.mul_div_le (m + w - 1) w) as Hm.
  pose proof (Nat.div_mod_eq ((n + w - 1) / w) 2). pose proof (Nat.div_mod_eq ((m + w - 1) / w) 2).
  set (a := ((n + w - 1) / w)%nat) in *. set (b := ((m + w - 1) / w)%nat) in *. clearbody a b.
  pose proof (Nat.mod_upper_bound a 2 ltac:(lia)). pose proof (Nat.mod_upper_bound b 2 ltac:(lia)).
  destruct (Nat.eqb_spec (a mod 2) 0), (Nat.eqb_spec (b mod 2) 0), Hw; subst w; lia.
Qed.

#[export] Instance fits_FPC float_width level limit :
  existsb (Z.eqb float_width) float_widths = true -> 1 <= level <= 28 -> limit <= 2 ^ 25 ->
  FitsReserve (CompressionCodecFPC float_width level) limit.
Proof.
  intros Hsize Hl Hlim. split; simpl; [lia| |].
  - intros src Hb Hs. destruct (fpc_doCompressData_fits float_width level src Hsize Hl Hb) as (data & Hc & Hlen); [lia|].
    exists data. split_and!; [done|by apply (fpc_doCompressData_Ok _ _ _ _ src Hl Hb Hc)|done].
  - intros n m Hn Hm. destruct (float_widths_spec _ Hsize) as [Hw Hrange].
    assert (Hmax : forall k, 0 < k <= limit ->
      getMaxCompressedDataSize float_width k = 2 + Z.of_nat (pairs (Z.to_nat float_width) (Z.to_nat k) * (1 + 2 * Z.to_nat float_width))).
    { intros k Hk. pose proof (getMaxCompressedDataSize_pairs _ (replicate (Z.to_nat k) 0) Hw) as E.
      rewrite length_replicate, Hrange, Z2Nat.id in E by lia. apply E. lia. }
    destruct (pairs_bounds (Z.to_nat float_width) (Z.to_nat n) (Z.to_nat m) Hw ltac:(lia)) as [Hle Hb].
    rewrite !Hmax by lia. unfold GiB. destruct Hw as [E|E]; rewrite E in *; lia.
Qed.

(** C16: FPC restores every column of floating point values: data of any length, of
    whole values or not, fits into the reserved size when compressed and
    decompresses to the same bytes; the tables of both predictors go through the
    same states in both directions. *)
Theorem fpc_lossless (float_width level : Z) (src dest : bytes) :
  existsb (Z.eqb float_width) float_widths = true -> 1 <= level <= MAX_COMPRESSION_LEVEL ->
  is_bytes src -> size_of src <= 2 ^ 31 -> length dest = length src ->
  exists data, doCompressData float_width level src = Ok data /\
    size_of data <= getMaxCompressedDataSize float_width (size_of src) /\ doDecompressData data dest = Ok src.
Proof.
  intros Hsize Hl Hb Hs Hd. destruct (fpc_doCompressData_fits float_width level src Hsize Hl Hb Hs) as (data & Hc & Hlen).
  exists data. split_and!; [done|done|]. by eapply fpc_doCompressData_Ok.
Qed.

Lemma fpc_lossless_witness :
  exists data, doCompressData 4 5 [0; 0; 128; 63; 0; 0; 0; 64; 7] = Ok data /\
    size_of data <= getMaxCompressedDataSize 4 9 /\
    doDecompressData data (replicate 9 1) = Ok [0; 0; 128; 63; 0; 0; 0; 64; 7].
Proof.
  apply (fpc_lossless 4 5 [0; 0; 128; 63; 0; 0; 0; 64; 7] (replicate 9 1));
    [reflexivity|split; discriminate| |discriminate|reflexivity].
  repeat constructor; discriminate.
Defined.

(** The level is narrowed to a byte before it is checked: a level far out of range
    is taken for the one it is congruent to. *)
Lemma fpc_level_wraps (level k : Z) (column_type : option IDataType) :
  codec_builder [UInt64Literal (level + k * 2 ^ 8)] column_type = codec_builder [UInt64Literal level] column_type.
Proof. unfold codec_builder, level_argument. by rewrite uwrap_add_multiple by lia. Qed.

(** The description omits the width, so a codec with a declared width differs from
    the one its description builds. *)
Lemma fpc_width_lost :
  exists codec codec', codec_builder [UInt64Literal 12; UInt64Literal 8] None = Ok codec /\
    getCodecDesc codec = ASTFunction "FPC" [UInt64Literal 12] /\ codec_builder [UInt64Literal 12] None = Ok codec' /\
    Codec.doCompressData codec [] <> Codec.doCompressData codec' [].
Proof. eexists _, _. split_and!; [reflexivity..|]. vm_compute. discriminate. Qed.
