(* ===== verification/CodecLZ4.v ===== *)
(** The codecs LZ4 and LZ4HC (src/Compression/CompressionCodecLZ4.cpp): the
    compression of the LZ4 library and the decompression of
    LZ4_decompress_faster.cpp. *)
From S2P Require Import Prelude IntText BinaryIO Codec LZ4Decompress.
Import Binary.

(** * The library and the surroundings *)

(** What is used of the LZ4 library.  The compressors return the bytes they write,
    which are none when they fail. *)
Record LZ4Library := {
  LZ4_COMPRESSBOUND : Z -> Z;
  LZ4_compress_default : bytes -> Z -> bytes;
  LZ4_compress_HC : bytes -> Z -> Z -> bytes }.

Definition LZ4_MAX_INPUT_SIZE : Z := 0x7E000000.

(** [data] is a block of [source], of at most the size the library documents. *)
Definition block_of (source data : bytes) : Prop :=
  size_of data <= size_of source + size_of source / 255 + 16 /\
  exists b, valid_block b /\ encode_block b = data /\ block_data b = source.

(** With a destination of [LZ4_COMPRESSBOUND] bytes compression succeeds, and the
    result is a block of the data. *)
Class LZ4LibrarySpec (lib : LZ4Library) : Prop := {
  compress_bound size :
    0 <= size <= LZ4_MAX_INPUT_SIZE -> LZ4_COMPRESSBOUND lib size = size + size / 255 + 16;
  compress_default_block source :
    is_bytes source -> 0 < size_of source <= LZ4_MAX_INPUT_SIZE ->
    block_of source (LZ4_compress_default lib source (LZ4_COMPRESSBOUND lib (size_of source)));
  compress_HC_block source level :
    is_bytes source -> 0 < size_of source <= LZ4_MAX_INPUT_SIZE ->
    block_of source (LZ4_compress_HC lib source (LZ4_COMPRESSBOUND lib (size_of source)) level) }.

(** What decompression depends on: the processor, the samples of the performance
    statistics when the codec decompresses some data, and the contents of the
    additional bytes after the source and after the destination. *)
Record LZ4Surroundings := {
  avx512vbmi : bool;
  double : Type;
  less : double -> double -> bool;
  sample : bytes -> nat -> double;
  after_source : bytes -> bytes;
  after_dest : bytes -> bytes }.

(** The buffers have the additional bytes the codec asks for. *)
Class LZ4SurroundingsSpec (env : LZ4Surroundings) : Prop := {
  after_source_bytes source : is_bytes (after_source env source);
  after_source_size source : size_of (after_source env source) = ADDITIONAL_BYTES_AT_END_OF_BUFFER;
  after_dest_size source : size_of (after_dest env source) = ADDITIONAL_BYTES_AT_END_OF_BUFFER }.

(** * The codecs *)

Section LZ4.
Context (lib : LZ4Library) (env : LZ4Surroundings).

Definition lz4_getMaxCompressedDataSize (uncompressed_size : Z) : Z := uwrap 32 (LZ4_COMPRESSBOUND lib uncompressed_size).

(** A failure of the compressor is not noticed. *)
Definition lz4_doCompressData (source : bytes) : result bytes :=
  Ok (LZ4_compress_default lib source (LZ4_COMPRESSBOUND lib (size_of source))).

(** The variant that [lz4_stat] selects. *)
Definition best_variant (source : bytes) : Z :=
  select (less env) (-1) (map (sample env source) (seq 0 (variant_size (avx512vbmi env)))).

(** The additional bytes after the destination are overwritten, which is not part of
    the result. *)
Definition lz4_doDecompressData (source dest : bytes) : result bytes :=
  let! (success, out) := LZ4Decompress.decompress (source ++ after_source env source) (dest ++ after_dest env source)
    (size_of source) (size_of dest) (best_variant source) in
  if negb success then Throw CANNOT_DECOMPRESS else Ok (take (length dest) out).

Definition generic : CodecTraits := {|
  isCompression := true; isGenericCompression := true; isEncryption := false;
  isFloatingPointTimeSeriesCodec := false; isDeltaCompression := false; isExperimental := false;
  isDeflateQpl := false; isZstdQat := false; isNone := false |}.

Definition CompressionCodecLZ4 : ICompressionCodec := {|
  getMethodByte := method_byte LZ4;
  doCompressData := lz4_doCompressData;
  doDecompressData := lz4_doDecompressData;
  getMaxCompressedDataSize := lz4_getMaxCompressedDataSize;
  getAdditionalSizeAtTheEndOfBuffer := ADDITIONAL_BYTES_AT_END_OF_BUFFER;
  decompression_error_code := CORRUPTED_DATA;
  full_codec_desc := setCodecDescription "LZ4" [];
  traits := generic |}.

Definition lz4hc_doCompressData (level : Z) (source : bytes) : result bytes :=
  let data := LZ4_compress_HC lib source (LZ4_COMPRESSBOUND lib (size_of source)) level in
  if size_of data =? 0 then Throw CANNOT_COMPRESS else Ok data.

Definition CompressionCodecLZ4HC (level : Z) : ICompressionCodec := {|
  getMethodByte := method_byte LZ4;
  doCompressData := lz4hc_doCompressData level;
  doDecompressData := lz4_doDecompressData;
  getMaxCompressedDataSize := lz4_getMaxCompressedDataSize;
  getAdditionalSizeAtTheEndOfBuffer := ADDITIONAL_BYTES_AT_END_OF_BUFFER;
  decompression_error_code := CORRUPTED_DATA;
  full_codec_desc := setCodecDescription "LZ4HC" [UInt64Literal (uwrap 64 level)];
  traits := generic |}.

(** The creator of [registerCodecLZ4HC]. *)
Definition lz4hc_builder (arguments : list CodecArgument) : result ICompressionCodec :=
  let! level :=
    match arguments with
    | [] => Ok 0
    | [NotLiteral] => Throw ILLEGAL_CODEC_PARAMETER
    | [literal] => let! value := safeGet_UInt64 literal in Ok (swrap 32 value)
    | _ => Throw ILLEGAL_SYNTAX_FOR_CODEC_TYPE
    end in
  Ok (CompressionCodecLZ4HC level).

(** ** Round trip *)

Lemma best_variant_range source : 0 <= best_variant source < 5.
Proof.
  unfold best_variant. set (samples := map _ _).
  assert (Hl : length samples = variant_size (avx512vbmi env)) by (unfold samples; by rewrite length_map, length_seq).
  pose proof (select_range (less env) samples) as H. rewrite Hl in H.
  assert (samples <> []) by (intros E; rewrite E in Hl; by destruct (avx512vbmi env)).
  specialize (H ltac:(done)). unfold variant_size in H. destruct (avx512vbmi env); lia.
Qed.

Lemma valid_block_bytes b : valid_block b -> is_bytes (encode_block b).
Proof.
  intros (Hv & Hb & _). unfold encode_block, encode_last. apply is_bytes_app. split.
  - revert Hv. generalize (@nil Z) as out. induction (sequences b) as [|s ss IH]; intros out Hv; cbn [map concat]; [constructor|].
    destruct Hv as [(Hl & Hoff & _ & Hlen) Hv]. apply is_bytes_app. split; [|by eapply IH].
    unfold encode_sequence. constructor; [unfold length_nibble; lia|].
    rewrite !is_bytes_app. split_and!; [apply length_bytes_range; lia|done|apply le_bytes_range|apply length_bytes_range; lia].
  - constructor; [unfold length_nibble; lia|]. apply is_bytes_app. split; [apply length_bytes_range; lia|done].
Qed.

Context `{!LZ4LibrarySpec lib, !LZ4SurroundingsSpec env}.

Lemma lz4_block_restored source data dest :
  0 < size_of source < GiB -> block_of source data -> length dest = length source ->
  is_bytes data /\ lz4_doDecompressData data dest = Ok source.
Proof.
  intros Hs (Hsize & b & Hv & <- & Hdata) Hd. split; [by apply valid_block_bytes|]. unfold lz4_doDecompressData, GiB in *.
  assert (Hq : size_of source / 255 <= size_of source) by (apply Z.div_le_upper_bound; lia).
  pose proof (after_source_size (encode_block b)) as Ha. pose proof (after_dest_size (encode_block b)) as Hd'.
  unfold ADDITIONAL_BYTES_AT_END_OF_BUFFER in *.
  destruct (decompress_decodes b (after_source env (encode_block b)) (dest ++ after_dest env (encode_block b))
    (best_variant (encode_block b))) as (rest & E & Hrest); [done|lia|lia|rewrite Hdata; lia|..].
  { rewrite length_app, Hdata. unfold ADDITIONAL_BYTES_AT_END_OF_BUFFER. lia. }
  { apply best_variant_range. }
  rewrite Hdata in E. rewrite Hd, E. cbn [rbind negb]. by rewrite take_app_length.
Qed.

Lemma lossless_of_block enc :
  getMethodByte enc = method_byte LZ4 ->
  (forall source data, is_bytes source -> 0 < size_of source < GiB -> doCompressData enc source = Ok data -> block_of source data) ->
  LosslessCodec enc CompressionCodecLZ4 1.
Proof.
  intros Hm Hblock. split; [done|rewrite Hm; simpl; lia|..].
  - intros source data Hb Hs Hc. by destruct (lz4_block_restored source data source Hs (Hblock _ _ Hb Hs Hc) eq_refl).
  - intros source data dest Hb _ Hs Hc Hd. by destruct (lz4_block_restored source data dest Hs (Hblock _ _ Hb Hs Hc) Hd).
Qed.

#[export] Instance lossless_LZ4 : LosslessCodec CompressionCodecLZ4 CompressionCodecLZ4 1.
Proof.
  apply lossless_of_block; [done|]. intros source data Hb Hs E. apply Ok_inj in E as <-.
  apply compress_default_block; [done|]. unfold GiB, LZ4_MAX_INPUT_SIZE in *. lia.
Qed.

#[export] Instance lossless_LZ4HC level : LosslessCodec (CompressionCodecLZ4HC level) CompressionCodecLZ4 1.
Proof.
  apply lossless_of_block; [done|]. simpl. unfold lz4hc_doCompressData. intros source data Hb Hs E.
  destruct (_ =? 0); [done|]. apply Ok_inj in E as <-. apply compress_HC_block; [done|].
  unfold GiB, LZ4_MAX_INPUT_SIZE in *. lia.
Qed.
(** Both compressors stay within the reserved size. *)
Lemma fits_of_block enc limit :
  getMethodByte enc = method_byte LZ4 -> getMaxCompressedDataSize enc = lz4_getMaxCompressedDataSize ->
  (forall source, is_bytes source -> 0 < size_of source < GiB -> exists data, doCompressData enc source = Ok data /\ block_of source data) ->
  limit <= 2 ^ 25 -> FitsReserve enc limit.
Proof.
  intros Hm Hmax Hblock Hl.
  assert (Hbound : forall n, 0 < n <= limit -> lz4_getMaxCompressedDataSize n = n + n / 255 + 16 /\ 0 <= n / 255 <= n).
  { intros n Hn. assert (0 <= n / 255 <= n) by (split; [apply Z.div_pos|apply Z.div_le_upper_bound]; lia).
    unfold lz4_getMaxCompressedDataSize. rewrite compress_bound by (unfold LZ4_MAX_INPUT_SIZE; lia).
    rewrite uwrap_small by (unfold in_unsigned; lia). done. }
  split; [rewrite Hm; simpl; lia|..]; rewrite Hmax.
  - intros source Hb Hs. destruct (Hblock source Hb) as (data & Hc & Hd); [unfold GiB; lia|]. exists data.
    destruct (Hbound _ Hs) as [-> _]. split_and!; [done| |apply Hd].
    by apply (lz4_block_restored source data source); [unfold GiB; lia|..].
  - intros n m Hn Hm'. destruct (Hbound n) as [-> ?]; [lia|]. destruct (Hbound m) as [-> ?]; [lia|].
    pose proof (Z.div_le_mono n m 255 ltac:(lia) ltac:(lia)). unfold GiB. lia.
Qed.

#[export] Instance fits_LZ4 limit : limit <= 2 ^ 25 -> FitsReserve CompressionCodecLZ4 limit.
Proof.
  apply fits_of_block; [done|done|]. intros source Hb Hs. eexists. split; [done|].
  apply compress_default_block; [done|]. unfold GiB, LZ4_MAX_INPUT_SIZE in *. lia.
Qed.

#[export] Instance fits_LZ4HC level limit : limit <= 2 ^ 25 -> FitsReserve (CompressionCodecLZ4HC level) limit.
Proof.
  apply fits_of_block; [done|done|]. intros source Hb Hs.
  assert (Hd : block_of source (LZ4_compress_HC lib source (LZ4_COMPRESSBOUND lib (size_of source)) level)).
  { apply compress_HC_block; [done|]. unfold GiB, LZ4_MAX_INPUT_SIZE in *. lia. }
  eexists. split; [|exact Hd]. simpl. unfold lz4hc_doCompressData. destruct (Z.eqb_spec (size_of (LZ4_compress_HC lib source
    (LZ4_COMPRESSBOUND lib (size_of source)) level)) 0) as [E|]; [|done].
  destruct Hd as (_ & b & _ & Eb & _). rewrite <- Eb in E. unfold encode_block, encode_last in E. simpl_len. lia.
Qed.
End LZ4.

(** ** Safety, whatever the library does *)

#[export] Instance safe_LZ4 lib env `{!LZ4SurroundingsSpec env} : SafeDecoder (CompressionCodecLZ4 lib env).
Proof.
  intros source dest Hb Hs Hd. simpl. unfold lz4_doDecompressData.
  pose proof (after_source_size source) as Ha. pose proof (after_dest_size source) as Hd'.
  destruct (decompress_within (source ++ after_source env source) (dest ++ after_dest env source) (size_of source)
    (size_of dest) (best_variant env source)) as (success & out & -> & Hl); [|lia|lia|rewrite length_app; lia..|apply best_variant_range|].
  { apply is_bytes_app. split; [done|apply after_source_bytes]. }
  cbn [rbind]. destruct success; [|done]. cbn [negb memory_safe]. rewrite length_app in Hl. rewrite length_take. lia.
Qed.

(** A block without any data is accepted as data of any size: the destination keeps
    what the memory held before. *)
Lemma lz4_empty_block_accepted lib env dest :
  0 < size_of dest < 2 ^ 32 ->
  Codec.decompress (CompressionCodecLZ4 lib env) (method_byte LZ4 :: le_bytes 4 9 ++ le_bytes 4 (size_of dest)) dest = Ok dest.
Proof.
  intros Hd. set (n := size_of dest) in *.
  assert (E : method_byte LZ4 :: le_bytes 4 9 ++ le_bytes 4 n = [method_byte LZ4; 9; 0; 0; 0] ++ le_bytes 4 n ++ [])
    by (by rewrite app_nil_r).
  assert (Hm : readMethod ([method_byte LZ4; 9; 0; 0; 0] ++ le_bytes 4 n ++ []) = Ok (method_byte LZ4)) by done.
  rewrite E. unfold Codec.decompress. rewrite Hm. unfold readDecompressedBlockSize.
  rewrite (slice_app [method_byte LZ4; 9; 0; 0; 0] (le_bytes 4 n) [] 5 4 eq_refl (length_le_bytes _ _)).
  cbn [rbind]. rewrite le_value_bytes by lia.
  destruct (Nat.ltb_spec (length ([method_byte LZ4; 9; 0; 0; 0] ++ le_bytes 4 n ++ [])) COMPRESSED_BLOCK_HEADER_SIZE) as [Hlt|_].
  { unfold COMPRESSED_BLOCK_HEADER_SIZE in Hlt. rewrite !length_app, length_le_bytes in Hlt. simpl in Hlt. lia. }
  destruct (Z.eqb_spec n 0); [lia|]. cbn [rbind getMethodByte CompressionCodecLZ4 Z.eqb negb].
  rewrite Z.eqb_refl, Z.ltb_irrefl. cbn [negb]. unfold n. rewrite Nat2Z.id, firstn_all, drop_all.
  rewrite app_nil_r, (drop_ge (_ ++ _)) by (rewrite length_app, length_le_bytes; unfold COMPRESSED_BLOCK_HEADER_SIZE; simpl; lia).
  cbn [doDecompressData CompressionCodecLZ4 lz4_doDecompressData rbind].
  unfold lz4_doDecompressData, LZ4Decompress.decompress. change (size_of (@nil Z) =? 0) with true. cbn [orb rbind negb].
  rewrite take_app_length. cbn [rbind]. by rewrite app_nil_r.
Qed.

(** A library that stores data as it is. *)
Definition literal_library : LZ4Library := {|
  LZ4_COMPRESSBOUND size := size + size / 255 + 16;
  LZ4_compress_default source _ := encode_last source;
  LZ4_compress_HC source _ _ := encode_last source |}.

Lemma literal_block source : is_bytes source -> 0 < size_of source -> block_of source (encode_last source).
Proof.
  intros Hb Hs. split.
  - pose proof (Z.div_pos (size_of source) 255 ltac:(lia) ltac:(lia)). unfold encode_last, length_bytes. destruct (Z.ltb_spec (size_of source) 15); cbn [length app]; [lia|].
    rewrite !length_app, length_replicate. cbn [length].
    assert (0 <= (size_of source - 15) / 255 <= size_of source / 255)
      by (split; [apply Z.div_pos; lia|apply Z.div_le_mono; lia]). lia.
  - exists {| sequences := []; last_literals := source |}. split_and!; [|done|done].
    split; [done|]. split; [done|]. by destruct source.
Qed.

#[export] Instance literal_library_spec : LZ4LibrarySpec literal_library.
Proof. split; intros; [done|apply literal_block; done || lia..]. Qed.

(** A processor without the wide instructions, and memory of zeros. *)
Definition plain_surroundings : LZ4Surroundings := {|
  avx512vbmi := false;
  double := Z;
  less := Z.ltb;
  sample _ i := Z.of_nat i;
  after_source _ := replicate 64 0;
  after_dest _ := replicate 64 0 |}.

#[export] Instance plain_surroundings_spec : LZ4SurroundingsSpec plain_surroundings.
Proof. split; intros; [apply is_bytes_zeros|done|done]. Qed.
