(* ===== verification/CodecZSTD.v ===== *)
(** The codec ZSTD (src/Compression/CompressionCodecZSTD.{h,cpp}), over the ZSTD
    library. *)
From S2P Require Import Prelude IntText BinaryIO Codec CodecLZ4.
Import Binary.

(** * The library *)

(** The parameters set in a compression context: the level, and the window of
    long distance matching where it is enabled. *)
Record ZSTD_CCtx := {
  ZSTD_c_compressionLevel : Z;
  ZSTD_c_windowLog : option Z }.

(** What is used of the ZSTD library.  Compression and decompression return the bytes
    they write, or nothing on an error; so do the bounds of the window. *)
Record ZSTDLibrary := {
  ZSTD_compressBound : Z -> Z;
  ZSTD_compress2 : ZSTD_CCtx -> Z -> bytes -> option bytes;
  ZSTD_decompress : Z -> bytes -> option bytes;
  ZSTD_maxCLevel : Z;
  ZSTD_windowLog_bounds : option (Z * Z) }.

(** With a destination of [ZSTD_compressBound] bytes compression succeeds, whatever
    the parameters, and decompression into a destination that is large enough
    restores the data. *)
Class ZSTDLibrarySpec (zstd : ZSTDLibrary) : Prop := {
  zstd_bound size :
    0 <= size < GiB ->
    ZSTD_compressBound zstd size = size + size / 256 + (if size <? 2 ^ 17 then (2 ^ 17 - size) / 2048 else 0);
  zstd_succeeds cctx source :
    is_bytes source -> size_of source < GiB -> exists data,
    ZSTD_compress2 zstd cctx (ZSTD_compressBound zstd (size_of source)) source = Some data;
  zstd_compressed cctx capacity source data :
    is_bytes source -> size_of source < GiB -> ZSTD_compress2 zstd cctx capacity source = Some data ->
    is_bytes data /\ size_of data <= capacity;
  zstd_restores cctx capacity capacity' source data :
    is_bytes source -> size_of source < GiB -> ZSTD_compress2 zstd cctx capacity source = Some data ->
    size_of source <= capacity' -> ZSTD_decompress zstd capacity' data = Some source }.

(** Decompression writes at most as many bytes as the destination has. *)
Class ZSTDLibrarySafe (zstd : ZSTDLibrary) : Prop :=
  zstd_capacity capacity source data :
    is_bytes source -> ZSTD_decompress zstd capacity source = Some data -> size_of data <= capacity.

(** * The codec *)

Section ZSTD.
Context (zstd : ZSTDLibrary).

Definition ZSTD_DEFAULT_LEVEL : Z := 1.

Definition zstd_getMaxCompressedDataSize (uncompressed_size : Z) : Z :=
  uwrap 32 (ZSTD_compressBound zstd uncompressed_size).

Definition zstd_doCompressData (level : Z) (enable_long_range : bool) (window_log : Z) (source : bytes) : result bytes :=
  let cctx := {| ZSTD_c_compressionLevel := level;
                 ZSTD_c_windowLog := if enable_long_range then Some window_log else None |} in
  match ZSTD_compress2 zstd cctx (ZSTD_compressBound zstd (size_of source)) source with
  | None => Throw CANNOT_COMPRESS
  | Some data => Ok data
  end.

(** Whether the whole destination was written is not checked. *)
Definition zstd_doDecompressData (source dest : bytes) : result bytes :=
  match ZSTD_decompress zstd (size_of dest) source with
  | None => Throw CANNOT_DECOMPRESS
  | Some out => put dest out
  end.

Definition zstd_codec (level : Z) (enable_long_range : bool) (window_log : Z) (arguments : list CodecArgument)
  : ICompressionCodec := {|
  getMethodByte := method_byte ZSTD;
  doCompressData := zstd_doCompressData level enable_long_range window_log;
  doDecompressData := zstd_doDecompressData;
  getMaxCompressedDataSize := zstd_getMaxCompressedDataSize;
  getAdditionalSizeAtTheEndOfBuffer := 0;
  decompression_error_code := CORRUPTED_DATA;
  full_codec_desc := setCodecDescription "ZSTD" arguments;
  traits := generic |}.

(** The two constructors. *)
Definition CompressionCodecZSTD (level : Z) : ICompressionCodec :=
  zstd_codec level false 0 [UInt64Literal (uwrap 64 level)].

Definition CompressionCodecZSTD_long (level window_log : Z) : ICompressionCodec :=
  zstd_codec level true window_log [UInt64Literal (uwrap 64 level); UInt64Literal (uwrap 64 window_log)].

(** The level of the first argument. *)
Definition zstd_level (argument : CodecArgument) : result Z :=
  match argument with
  | NotLiteral => Throw ILLEGAL_CODEC_PARAMETER
  | literal =>
      let! value := safeGet_UInt64 literal in
      let level := swrap 32 value in
      if ZSTD_maxCLevel zstd <? level then Throw ILLEGAL_CODEC_PARAMETER else Ok level
  end.

(** The window of the second argument; 0 is the default of the library. *)
Definition zstd_window_log (argument : CodecArgument) : result Z :=
  match argument with
  | NotLiteral => Throw ILLEGAL_CODEC_PARAMETER
  | literal =>
      let! value := safeGet_UInt64 literal in
      let window_log := swrap 32 value in
      match ZSTD_windowLog_bounds zstd with
      | None => Throw ILLEGAL_CODEC_PARAMETER
      | Some (lowerBound, upperBound) =>
          if negb (window_log =? 0) && ((upperBound <? window_log) || (window_log <? lowerBound))
          then Throw ILLEGAL_CODEC_PARAMETER else Ok window_log
      end
  end.

(** The creator of [registerCodecZSTD]. *)
Definition zstd_builder (arguments : list CodecArgument) : result ICompressionCodec :=
  match arguments with
  | [] => Ok (CompressionCodecZSTD ZSTD_DEFAULT_LEVEL)
  | [first] => let! level := zstd_level first in Ok (CompressionCodecZSTD level)
  | [first; second] =>
      let! level := zstd_level first in
      let! window_log := zstd_window_log second in
      Ok (CompressionCodecZSTD_long level window_log)
  | _ => Throw ILLEGAL_SYNTAX_FOR_CODEC_TYPE
  end.

Lemma zstd_built arguments c :
  zstd_builder arguments = Ok c -> exists level long window_log description, c = zstd_codec level long window_log description.
Proof.
  unfold zstd_builder. intros H. destruct arguments as [|a1 [|a2 [|]]]; [|..|done].
  - apply Ok_inj in H as <-. unfold CompressionCodecZSTD. eauto.
  - apply rbind_Ok in H as (level & _ & H). apply Ok_inj in H as <-. unfold CompressionCodecZSTD. eauto.
  - apply rbind_Ok in H as (level & _ & H). apply rbind_Ok in H as (window_log & _ & H).
    apply Ok_inj in H as <-. unfold CompressionCodecZSTD_long. eauto 10.
Qed.

Lemma zstd_compressed_by level long window_log source data :
  zstd_doCompressData level long window_log source = Ok data ->
  exists cctx, ZSTD_compress2 zstd cctx (ZSTD_compressBound zstd (size_of source)) source = Some data.
Proof.
  unfold zstd_doCompressData. intros H. destruct (ZSTD_compress2 _ _ _ _) as [d|] eqn:E; [|done].
  apply Ok_inj in H as <-. eauto.
Qed.

#[export] Instance safe_ZSTD `{!ZSTDLibrarySafe zstd} level long window_log description :
  SafeDecoder (zstd_codec level long window_log description).
Proof.
  intros source dest Hb _ _. simpl. unfold zstd_doDecompressData.
  destruct (ZSTD_decompress zstd (size_of dest) source) as [out|] eqn:E; [|done].
  apply put_safe. pose proof (zstd_capacity _ _ _ Hb E). lia.
Qed.

Context `{!ZSTDLibrarySpec zstd}.

#[export] Instance lossless_ZSTD level long window_log description level' long' window_log' description' :
  LosslessCodec (zstd_codec level long window_log description) (zstd_codec level' long' window_log' description') 1.
Proof.
  split; [done|simpl; lia|..]; simpl.
  - intros source data Hb Hs (cctx & H)%zstd_compressed_by. by eapply zstd_compressed; [..|exact H]; lia || done.
  - intros source data dest Hb _ Hs (cctx & H)%zstd_compressed_by Hd. unfold zstd_doDecompressData.
    erewrite zstd_restores; [|exact Hb| |exact H|]; [|lia|lia]. by apply put_full.
Qed.

Lemma zstd_bound_monotone n m :
  0 < n <= m -> m < GiB -> 0 <= ZSTD_compressBound zstd n <= ZSTD_compressBound zstd m /\ ZSTD_compressBound zstd m <= m + m / 256 + 64.
Proof.
  intros Hn Hm. rewrite !zstd_bound by lia. pose proof (Z.div_le_mono n m 256 ltac:(lia) ltac:(lia)).
  pose proof (Z.div_pos n 256 ltac:(lia) ltac:(lia)).
  destruct (Z.ltb_spec n (2 ^ 17)), (Z.ltb_spec m (2 ^ 17)); try lia; Z.to_euclidean_division_equations; lia.
Qed.

#[export] Instance fits_ZSTD level long window_log description limit :
  limit <= 2 ^ 25 -> FitsReserve (zstd_codec level long window_log description) limit.
Proof.
  intros Hl. assert (Hmax : forall n, 0 < n <= limit -> zstd_getMaxCompressedDataSize n = ZSTD_compressBound zstd n /\
    ZSTD_compressBound zstd n <= GiB - 9).
  { intros n Hn. destruct (zstd_bound_monotone n n) as [? ?]; [lia|unfold GiB; lia|].
    assert (n / 256 <= n) by (apply Z.div_le_upper_bound; lia). unfold zstd_getMaxCompressedDataSize.
    rewrite uwrap_small by (unfold in_unsigned; lia). unfold GiB. lia. }
  split; [simpl; lia|..]; simpl.
  - intros source Hb Hs. unfold zstd_doCompressData. destruct (Hmax _ Hs) as [-> _].
    edestruct zstd_succeeds as (data & E); [exact Hb|unfold GiB; lia|]. rewrite E. exists data. split; [done|].
    by eapply zstd_compressed; [..|exact E]; unfold GiB; lia || done.
  - intros n m Hn Hm. destruct (Hmax n) as [-> _]; [lia|]. destruct (Hmax m) as [-> ?]; [lia|].
    destruct (zstd_bound_monotone n m); [lia|unfold GiB; lia|]. lia.
Qed.
End ZSTD.

(** A library that stores data as it is. *)
Definition storing_zstd : ZSTDLibrary := {|
  ZSTD_compressBound size := size + size / 256 + (if size <? 2 ^ 17 then (2 ^ 17 - size) / 2048 else 0);
  ZSTD_compress2 _ capacity source := if capacity <? size_of source then None else Some source;
  ZSTD_decompress capacity source := if capacity <? size_of source then None else Some source;
  ZSTD_maxCLevel := 22;
  ZSTD_windowLog_bounds := Some (10, 31) |}.

Lemma storing_succeeds cctx capacity source data :
  ZSTD_compress2 storing_zstd cctx capacity source = Some data -> data = source /\ size_of source <= capacity.
Proof. simpl. destruct (Z.ltb_spec capacity (size_of source)); [done|]. by intros [= <-]. Qed.

#[export] Instance storing_zstd_spec : ZSTDLibrarySpec storing_zstd.
Proof.
  split.
  - done.
  - intros cctx source _ Hs. exists source. cbn [ZSTD_compress2 storing_zstd].
    assert (0 <= size_of source / 256) by (apply Z.div_pos; lia).
    destruct (Z.ltb_spec (ZSTD_compressBound storing_zstd (size_of source)) (size_of source)) as [Hlt|]; [|done].
    cbn [ZSTD_compressBound storing_zstd] in Hlt. destruct (Z.ltb_spec (size_of source) (2 ^ 17)); [|lia].
    assert (0 <= (2 ^ 17 - size_of source) / 2048) by (apply Z.div_pos; lia). lia.
  - by intros cctx capacity source data Hb _ [-> ?]%storing_succeeds.
  - intros cctx capacity capacity' source data _ _ [-> _]%storing_succeeds Hc. simpl.
    by destruct (Z.ltb_spec capacity' (size_of source)); [lia|].
Qed.

#[export] Instance storing_zstd_safe : ZSTDLibrarySafe storing_zstd.
Proof. intros capacity source data _. simpl. destruct (Z.ltb_spec capacity (size_of source)); [done|]. by intros [= <-]. Qed.
