(* ===== verification/CodecFactory.v ===== *)
(** The factory of codecs (src/Compression/CompressionFactory.{h,cpp}). *)
From S2P Require Import Prelude IntText BinaryIO Codec Elements CodecDelta CodecGCD CodecDoubleDelta CodecGorilla CodecT64 CodecFPC CodecLZ4 CodecZSTD.
From stdpp Require Import gmap strings.
Open Scope Z_scope.
Import Binary.

(** * The dictionaries *)

(** [CreatorWithType]; the arguments are [None] for a null pointer. *)
Definition CreatorWithType : Type := option (list CodecArgument) -> option IDataType -> result ICompressionCodec.

Record CompressionCodecFactory := {
  family_name_with_codec : gmap string CreatorWithType;
  family_code_with_codec : gmap Z CreatorWithType }.

Definition empty_factory : CompressionCodecFactory :=
  {| family_name_with_codec := ∅; family_code_with_codec := ∅ |}.

Definition registerCompressionCodecWithType (factory : CompressionCodecFactory) (family_name : string)
    (byte_code : option Z) (creator : CreatorWithType) : result CompressionCodecFactory :=
  match family_name_with_codec factory !! family_name with
  | Some _ => Throw LOGICAL_ERROR
  | None =>
      let names := <[ family_name := creator ]> (family_name_with_codec factory) in
      match byte_code with
      | None => Ok {| family_name_with_codec := names; family_code_with_codec := family_code_with_codec factory |}
      | Some byte_code =>
          match family_code_with_codec factory !! byte_code with
          | Some _ => Throw LOGICAL_ERROR
          | None => Ok {| family_name_with_codec := names;
                          family_code_with_codec := <[ byte_code := creator ]> (family_code_with_codec factory) |}
          end
      end
  end.

(** The creator of [registerSimpleCompressionCodec]. *)
Definition simple_creator (creator : ICompressionCodec) : CreatorWithType := fun ast _ =>
  match ast with
  | Some _ => Throw DATA_TYPE_CANNOT_HAVE_ARGUMENTS
  | None => Ok creator
  end.

(** The creator made of a builder that treats null and empty arguments alike. *)
Definition typed_creator (builder : list CodecArgument -> option IDataType -> result ICompressionCodec)
  : CreatorWithType := fun arguments column_type => builder (default [] arguments) column_type.

(** [get(uint8_t)] *)
Definition get_by_code (factory : CompressionCodecFactory) (byte_code : Z) : result ICompressionCodec :=
  match family_code_with_codec factory !! byte_code with
  | None => Throw UNKNOWN_CODEC
  | Some creator => creator None None
  end.

(** [getImpl] *)
Definition getImpl (factory : CompressionCodecFactory) (family_name : string)
    (arguments : option (list CodecArgument)) (column_type : option IDataType) : result ICompressionCodec :=
  if bool_decide (family_name = "Multiple"%string) then Throw UNKNOWN_CODEC
  else
    match family_name_with_codec factory !! family_name with
    | None => Throw UNKNOWN_CODEC
    | Some creator => creator arguments column_type
    end.

Definition DEFAULT_CODEC_NAME : string := "Default".

(** The name and the arguments of an inner codec. *)
Definition inner_codec (inner_codec_ast : CodecAST) : result (string * option (list CodecArgument)) :=
  match inner_codec_ast with
  | ASTIdentifier name => Ok (name, None)
  | ASTFunction name arguments => Ok (name, Some arguments)
  | _ => Throw UNEXPECTED_AST_STRUCTURE
  end.

Section Get.
Context (factory : CompressionCodecFactory) (fresh : nat -> bytes).

(** The loop of [get(ast, ...)]: the codecs of the list, without those that are
    not generic if only those are wanted. *)
Fixpoint get_codecs (children : list CodecAST) (column_type : option IDataType)
    (current_default : ICompressionCodec) (only_generic : bool) : result (list ICompressionCodec) :=
  match children with
  | [] => Ok []
  | inner_codec_ast :: children =>
      let! inner := inner_codec inner_codec_ast in
      let '(codec_family_name, codec_arguments) := inner in
      let! codec :=
        if bool_decide (codec_family_name = DEFAULT_CODEC_NAME) then Ok current_default
        else getImpl factory codec_family_name codec_arguments column_type in
      let! codecs := get_codecs children column_type current_default only_generic in
      if only_generic && negb (isGenericCompression (traits codec)) then Ok codecs else Ok (codec :: codecs)
  end.

(** [get(ast, column_type, current_default, only_generic)] on the arguments of
    [CODEC(...)]; the codec for the method bytes of a chain is looked up by
    [lookup]. *)
Definition get_codec (lookup : Z -> result ICompressionCodec) (children : list CodecAST)
    (column_type : option IDataType) (current_default : ICompressionCodec) (only_generic : bool)
  : result ICompressionCodec :=
  let! codecs := get_codecs children column_type current_default only_generic in
  match codecs with
  | [] => Ok CompressionCodecNone
  | [codec] => Ok codec
  | _ => Ok (CompressionCodecMultiple lookup fresh codecs)
  end.
End Get.

(** * The instance

    The libraries are parameters, and so are the creators of the encryption codecs,
    which are not part of this development, and the lookup a chain inside of a
    chain uses. *)
Section Instance.
Context (lib : LZ4Library) (env : LZ4Surroundings) (zstd : ZSTDLibrary) (aes_128_gcm_siv aes_256_gcm_siv : CreatorWithType).
Context (boost_gcd libdivide_divide : Z -> Z -> Z) (statics : option Z) (fresh : nat -> bytes).
Context (nested : Z -> result ICompressionCodec).

(** The calls of the [registerCodec] functions, in the order of the constructor. *)
Definition registrations : list (string * option Z * CreatorWithType) := [
  ("NONE", Some (method_byte NONE), simple_creator CompressionCodecNone);
  ("LZ4", Some (method_byte LZ4), simple_creator (CompressionCodecLZ4 lib env));
  ("ZSTD", Some (method_byte ZSTD), typed_creator (fun arguments _ => zstd_builder zstd arguments));
  ("LZ4HC", None, typed_creator (fun arguments _ => lz4hc_builder lib env arguments));
  ("Multiple", Some (method_byte Multiple), simple_creator (CompressionCodecMultiple nested fresh []));
  ("Delta", Some (method_byte Delta), typed_creator Delta.codec_builder);
  ("T64", Some (method_byte T64), typed_creator CodecT64.codec_builder);
  ("DoubleDelta", Some (method_byte DoubleDelta), typed_creator CodecDoubleDelta.codec_builder);
  ("Gorilla", Some (method_byte Gorilla), typed_creator (CodecGorilla.codec_builder statics));
  ("AES_128_GCM_SIV", Some (method_byte AES_128_GCM_SIV), aes_128_gcm_siv);
  ("AES_256_GCM_SIV", Some (method_byte AES_256_GCM_SIV), aes_256_gcm_siv);
  ("FPC", Some (method_byte FPC), typed_creator CodecFPC.codec_builder);
  ("GCD", Some (method_byte GCD), typed_creator (GCD.codec_builder boost_gcd libdivide_divide))]%string.

(** The constructor, up to the default codec. *)
Definition construct : result CompressionCodecFactory :=
  foldl (fun factory '(family_name, byte_code, creator) =>
    let! factory := factory in registerCompressionCodecWithType factory family_name byte_code creator)
    (Ok empty_factory) registrations.

End Instance.

(** * Registration *)

Definition reg_name (r : string * option Z * CreatorWithType) : string := r.1.1.
Definition reg_code (r : string * option Z * CreatorWithType) : option Z := r.1.2.

(** Registering distinct names and codes succeeds, and the dictionaries hold
    what was registered. *)
Lemma register_all (regs : list (string * option Z * CreatorWithType)) f :
  NoDup (map reg_name regs) -> NoDup (omap reg_code regs) ->
  (forall n, n ∈ map reg_name regs -> family_name_with_codec f !! n = None) ->
  (forall b, b ∈ omap reg_code regs -> family_code_with_codec f !! b = None) ->
  exists f', foldl (fun factory '(family_name, byte_code, creator) =>
      let! factory := factory in registerCompressionCodecWithType factory family_name byte_code creator)
      (Ok f) regs = Ok f' /\
    (forall n cr, family_name_with_codec f' !! n = Some cr <->
      family_name_with_codec f !! n = Some cr \/ exists c, (n, c, cr) ∈ regs) /\
    (forall b cr, family_code_with_codec f' !! b = Some cr <->
      family_code_with_codec f !! b = Some cr \/ exists n, (n, Some b, cr) ∈ regs).
Proof.
  revert f. induction regs as [|[[n c] cr] regs IH]; intros f Hn Hc Hfn Hfc.
  { exists f. split_and!; [done|..]; set_solver. }
  cbn [foldl rbind]. unfold registerCompressionCodecWithType at 2. rewrite Hfn by set_solver.
  apply NoDup_cons in Hn as [Hn1 Hn2]. destruct c as [b|]; cbn [omap list_omap reg_code fst snd] in Hc, Hfc.
  - apply NoDup_cons in Hc as [Hc1 Hc2]. rewrite Hfc by set_solver.
    edestruct (IH {| family_name_with_codec := <[ n := cr ]> (family_name_with_codec f);
      family_code_with_codec := <[ b := cr ]> (family_code_with_codec f) |}) as (f' & E & H1 & H2); [done|done|..].
    { intros m Hm. simpl. rewrite lookup_insert_ne by (intros ->; done). apply Hfn. set_solver. }
    { intros m Hm. simpl. rewrite lookup_insert_ne by (intros ->; done). apply Hfc. set_solver. }
    exists f'. split_and!; [done|..]; intros m cr'; rewrite ?H1, ?H2; simpl; rewrite lookup_insert_Some.
    + pose proof (Hfn n ltac:(set_solver)). set_solver.
    + pose proof (Hfc b ltac:(set_solver)). set_solver.
  - edestruct (IH {| family_name_with_codec := <[ n := cr ]> (family_name_with_codec f);
      family_code_with_codec := family_code_with_codec f |}) as (f' & E & H1 & H2); [done|done|..].
    { intros m Hm. simpl. rewrite lookup_insert_ne by (intros ->; done). apply Hfn. set_solver. }
    { done. }
    exists f'. split_and!; [done|..]; intros m cr'; rewrite ?H1, ?H2; simpl; rewrite ?lookup_insert_Some.
    + pose proof (Hfn n ltac:(set_solver)). set_solver.
    + set_solver.
Qed.

(** * What the builders build *)

Lemma in_sizes_byte size sizes :
  Forall (fun s => 0 < s < 256) sizes -> existsb (Z.eqb size) sizes = true ->
  existsb (Z.eqb (uwrap 8 size)) sizes = true.
Proof.
  intros Hs H. rewrite uwrap_small; [done|]. apply existsb_exists in H as (s & Hin & ->%Z.eqb_eq).
  rewrite Forall_forall in Hs. apply list_elem_of_In, Hs in Hin. unfold in_unsigned. lia.
Qed.

Ltac builder_sizes :=
  repeat first
    [ progress intros
    | match goal with
      | H : rbind _ _ = Ok _ |- _ => apply rbind_Ok in H as (? & ? & ?)
      | H : Ok _ = Ok _ |- _ => apply Ok_inj in H; subst
      | H : Throw _ = Ok _ |- _ => discriminate H
      | H : match ?x with _ => _ end = Ok _ |- _ => destruct x eqn:?
      end ].

Lemma delta_built args type c :
  Delta.codec_builder args type = Ok c ->
  exists size, existsb (Z.eqb size) Delta.sizes = true /\ c = Delta.CompressionCodecDelta size.
Proof.
  unfold Delta.codec_builder, Delta.getDeltaBytesSize. builder_sizes; eexists; (split; [|done]); try done;
    apply in_sizes_byte; try (by apply negb_false_iff); try done; repeat constructor.
Qed.

Lemma double_delta_built args type c :
  CodecDoubleDelta.codec_builder args type = Ok c ->
  exists size, existsb (Z.eqb size) CodecDoubleDelta.sizes = true /\ c = CompressionCodecDoubleDelta size.
Proof.
  unfold CodecDoubleDelta.codec_builder, CodecDoubleDelta.getDataBytesSize.
  builder_sizes; eexists; (split; [|done]); try done;
    apply in_sizes_byte; try (by apply negb_false_iff); try done; repeat constructor.
Qed.

Lemma gorilla_built statics args type c :
  CodecGorilla.codec_builder statics args type = Ok c ->
  exists size, existsb (Z.eqb size) CodecGorilla.sizes = true /\ c = CompressionCodecGorilla statics size.
Proof.
  unfold CodecGorilla.codec_builder, CodecGorilla.getDataBytesSize.
  builder_sizes; eexists; (split; [|done]); try done;
    apply in_sizes_byte; try (by apply negb_false_iff); try done; repeat constructor.
Qed.

Lemma gcd_built boost_gcd libdivide args type c :
  GCD.codec_builder boost_gcd libdivide args type = Ok c ->
  exists size, existsb (Z.eqb size) GCD.sizes = true /\ c = GCD.CompressionCodecGCD boost_gcd libdivide size.
Proof.
  unfold GCD.codec_builder, GCD.getGCDBytesSize. builder_sizes; eexists; (split; [|done]); try done;
    apply in_sizes_byte; try (by apply negb_false_iff); try done; repeat constructor.
Qed.

Lemma lz4hc_built lib env args c :
  lz4hc_builder lib env args = Ok c -> exists level, c = CompressionCodecLZ4HC lib env level.
Proof. unfold lz4hc_builder. builder_sizes; eauto. Qed.

Lemma t64_built args type c :
  CodecT64.codec_builder args type = Ok c -> exists type_idx variant, c = CompressionCodecT64 type_idx variant.
Proof. unfold CodecT64.codec_builder. builder_sizes; eauto. Qed.

(** * Declared codecs are undone *)

Lemma construct_spec lib env zstd aes_128_gcm_siv aes_256_gcm_siv boost_gcd libdivide_divide statics fresh nested :
  let regs := registrations lib env zstd aes_128_gcm_siv aes_256_gcm_siv
    boost_gcd libdivide_divide statics fresh nested in
  exists f, construct lib env zstd aes_128_gcm_siv aes_256_gcm_siv
      boost_gcd libdivide_divide statics fresh nested = Ok f /\
    (forall n cr, family_name_with_codec f !! n = Some cr <-> exists c, (n, c, cr) ∈ regs) /\
    (forall b cr, family_code_with_codec f !! b = Some cr <-> exists n, (n, Some b, cr) ∈ regs).
Proof.
  intros regs.
  destruct (register_all regs empty_factory) as (f & E & H1 & H2).
  - apply (bool_decide_unpack _). vm_compute. exact I.
  - apply (bool_decide_unpack _). vm_compute. exact I.
  - intros n _. apply lookup_empty.
  - intros b _. apply lookup_empty.
  - exists f. split_and!; [exact E|..]; intros m cr; [rewrite H1|rewrite H2]; simpl; rewrite lookup_empty;
      (split; [intros [?|?]; done|by right]).
Qed.

(** The least data that a codec is sure to restore: Gorilla needs a whole value, which
    has up to 8 bytes. *)
Definition shortest (codec : ICompressionCodec) : Z :=
  if getMethodByte codec =? method_byte Gorilla then 8 else 1.

Definition encryption_codecs : list string := ["AES_128_GCM_SIV"; "AES_256_GCM_SIV"]%string.

(** The declaration names no encryption codec. *)
Definition unencrypted (children : list CodecAST) : Prop :=
  Forall (fun child => forall name arguments, inner_codec child = Ok (name, arguments) -> name ∉ encryption_codecs) children.

Section Undone.
Context (lib : LZ4Library) (env : LZ4Surroundings) (zstd : ZSTDLibrary) (aes_128_gcm_siv aes_256_gcm_siv : CreatorWithType).
Context (boost_gcd libdivide_divide : Z -> Z -> Z) (statics : option Z) (fresh : nat -> bytes).
Context (nested : Z -> result ICompressionCodec).

#[local] Abbreviation regs := (registrations lib env zstd aes_128_gcm_siv aes_256_gcm_siv
  boost_gcd libdivide_divide statics fresh nested).
#[local] Abbreviation factory := (construct lib env zstd aes_128_gcm_siv aes_256_gcm_siv
  boost_gcd libdivide_divide statics fresh nested).

(** [CompressionCodecFactory::instance().get(byte_code)] *)
Definition lookup_code (byte_code : Z) : result ICompressionCodec :=
  let! f := factory in get_by_code f byte_code.

Lemma lookup_code_registered name code (creator : CreatorWithType) :
  (name, Some code, creator) ∈ regs -> lookup_code code = creator None None.
Proof.
  intros H. destruct (construct_spec lib env zstd aes_128_gcm_siv aes_256_gcm_siv boost_gcd libdivide_divide
    statics fresh nested) as (f & E & _ & H2). unfold lookup_code. rewrite E. cbn [rbind].
  pose proof (proj2 (H2 code creator) (ex_intro _ name H)) as E2. unfold get_by_code, CreatorWithType in *. by rewrite E2.
Qed.

Lemma registered_by name code creator enc dec min_size :
  (name, Some code, creator) ∈ regs -> creator None None = Ok dec -> getMethodByte enc = code ->
  0 <= getAdditionalSizeAtTheEndOfBuffer dec <= ADDITIONAL_LIMIT -> min_size <= shortest enc ->
  LosslessCodec enc dec min_size -> registered lookup_code (shortest enc) enc.
Proof.
  intros Hin Hc Hm Ha Hs Hl. exists dec. rewrite Hm, (lookup_code_registered _ _ _ Hin). split_and!; [done| |lia|lia].
  by eapply lossless_weaken.
Qed.

Lemma in_regs k name code creator : regs !! k = Some (name, code, creator) -> (name, code, creator) ∈ regs.
Proof. apply list_elem_of_lookup_2. Qed.

(** The factory of a declaration, with the lookup it would use itself. *)
Context (nested' : Z -> result ICompressionCodec).
#[local] Abbreviation factory' := (construct lib env zstd aes_128_gcm_siv aes_256_gcm_siv
  boost_gcd libdivide_divide statics fresh nested').

Hypothesis boost_gcd_spec : forall a b, 0 <= a -> 0 <= b -> boost_gcd a b = Z.gcd a b.
Hypothesis libdivide_spec : forall a d, 0 <= a -> 0 < d -> libdivide_divide a d = a / d.
Context `{!LZ4LibrarySpec lib, !LZ4SurroundingsSpec env, !ZSTDLibrarySpec zstd}.

Lemma none_registered : registered lookup_code (shortest CompressionCodecNone) CompressionCodecNone.
Proof.
  apply (registered_by _ _ _ _ CompressionCodecNone 1 (in_regs 0 _ _ _ eq_refl)); [reflexivity|reflexivity|by split|done|apply lossless_None].
Qed.

Lemma lz4_registered enc :
  LosslessCodec enc (CompressionCodecLZ4 lib env) 1 -> registered lookup_code (shortest enc) enc.
Proof.
  intros H. pose proof (lossless_method (LosslessCodec := H)) as Hm.
  apply (registered_by _ _ _ _ (CompressionCodecLZ4 lib env) 1 (in_regs 1 _ _ _ eq_refl));
    [reflexivity|done|by split|unfold shortest; by rewrite Hm|done].
Qed.

(** Every codec the factory builds by name is registered with a codec that undoes it. *)
Lemma built_registered f name arguments type codec :
  factory' = Ok f -> name ∉ encryption_codecs -> getImpl f name arguments type = Ok codec ->
  registered lookup_code (shortest codec) codec.
Proof.
  intros Ef Hplain H. destruct (construct_spec lib env zstd aes_128_gcm_siv aes_256_gcm_siv boost_gcd libdivide_divide
    statics fresh nested') as (f' & Ef' & Hn & _). assert (f' = f) as -> by congruence.
  unfold getImpl in H. destruct (bool_decide_reflect (name = "Multiple"%string)) as [|Hne]; [done|].
  destruct (family_name_with_codec f !! name) as [creator|] eqn:Ec; [|done].
  apply Hn in Ec as [code Hin]. unfold registrations in Hin. rewrite !elem_of_cons, elem_of_nil in Hin.
  destruct Hin as [E|[E|[E|[E|[E|[E|[E|[E|[E|[E|[E|[E|[E|[]]]]]]]]]]]]]]; injection E as -> -> ->.
  - unfold simple_creator in H. destruct arguments; [done|]. apply Ok_inj in H as <-. apply none_registered.
  - unfold simple_creator in H. destruct arguments; [done|]. apply Ok_inj in H as <-. by apply lz4_registered, lossless_LZ4.
  - unfold typed_creator in H. apply zstd_built in H as (level & long & window_log & description & ->).
    apply (registered_by _ _ _ _ (CompressionCodecZSTD zstd ZSTD_DEFAULT_LEVEL) 1 (in_regs 2 _ _ _ eq_refl));
      [reflexivity|reflexivity|by split|done|by apply lossless_ZSTD].
  - apply lz4hc_built in H as (level & ->). by apply lz4_registered, lossless_LZ4HC.
  - by destruct Hne.
  - apply delta_built in H as (size & Hs & ->).
    apply (registered_by _ _ _ _ (Delta.CompressionCodecDelta 1) 1 (in_regs 5 _ _ _ eq_refl));
      [reflexivity|reflexivity|by split|done|by apply Delta.lossless_Delta].
  - apply t64_built in H as (idx & variant & ->).
    apply (registered_by _ _ _ _ (CompressionCodecT64 None Byte) 1 (in_regs 6 _ _ _ eq_refl));
      [reflexivity|reflexivity|by split|done|apply lossless_T64].
  - apply double_delta_built in H as (size & Hs & ->).
    apply (registered_by _ _ _ _ (CompressionCodecDoubleDelta 1) 1 (in_regs 7 _ _ _ eq_refl));
      [reflexivity|reflexivity|by split|done|by apply lossless_DoubleDelta].
  - apply gorilla_built in H as (size & Hs & ->).
    apply (registered_by _ _ _ _ (CompressionCodecGorilla statics 1) size (in_regs 8 _ _ _ eq_refl));
      [reflexivity|reflexivity|by split| |by apply lossless_Gorilla].
    change (size <= 8). pose proof (gorilla_sizes_cases size Hs). lia.
  - destruct Hplain. unfold encryption_codecs. set_solver.
  - destruct Hplain. unfold encryption_codecs. set_solver.
  - apply fpc_built in H as (width & level & Hl & ->).
    apply (registered_by _ _ _ _ (CompressionCodecFPC 4 12) 1 (in_regs 11 _ _ _ eq_refl));
      [reflexivity|reflexivity|by split|done|by apply lossless_FPC].
  - apply gcd_built in H as (size & Hs & ->).
    apply (registered_by _ _ _ _ (GCD.CompressionCodecGCD boost_gcd libdivide_divide 1) 1 (in_regs 12 _ _ _ eq_refl));
      [reflexivity|reflexivity|by split|done|by apply GCD.lossless].
Qed.

(** The codecs that compress data of any length; T64 needs whole values, and
    Gorilla at least one value. *)
Inductive any_length : ICompressionCodec -> Prop :=
| any_none : any_length CompressionCodecNone
| any_lz4 : any_length (CompressionCodecLZ4 lib env)
| any_lz4hc level : any_length (CompressionCodecLZ4HC lib env level)
| any_zstd level long window_log description : any_length (zstd_codec zstd level long window_log description)
| any_delta size : existsb (Z.eqb size) Delta.sizes = true -> any_length (Delta.CompressionCodecDelta size)
| any_double_delta size : existsb (Z.eqb size) CodecDoubleDelta.sizes = true -> any_length (CompressionCodecDoubleDelta size)
| any_fpc width level : 1 <= level <= 28 -> any_length (CompressionCodecFPC width level)
| any_gcd size : existsb (Z.eqb size) GCD.sizes = true -> any_length (GCD.CompressionCodecGCD boost_gcd libdivide_divide size).

(** [dec] is registered for the method byte of [c], and undoes it. *)
Definition undone_by (c dec : ICompressionCodec) : Prop :=
  lookup_code (getMethodByte c) = Ok dec /\ LosslessCodec c dec 1 /\
  0 <= getAdditionalSizeAtTheEndOfBuffer dec <= ADDITIONAL_LIMIT /\
  (isNone (traits dec) = false \/ c = CompressionCodecNone /\ dec = CompressionCodecNone).

Lemma undone_registered name code (creator : CreatorWithType) c dec :
  (name, Some code, creator) ∈ regs -> creator None None = Ok dec -> getMethodByte c = code ->
  0 <= getAdditionalSizeAtTheEndOfBuffer dec <= ADDITIONAL_LIMIT -> isNone (traits dec) = false -> LosslessCodec c dec 1 ->
  exists dec, undone_by c dec.
Proof.
  intros Hin Hc Hm Ha Hn Hl. exists dec. unfold undone_by. rewrite Hm, (lookup_code_registered _ _ _ Hin).
  split_and!; try done; [lia|lia|by left].
Qed.

Lemma any_length_lookup c : any_length c -> exists dec, undone_by c dec.
Proof.
  intros [| |level|level long window_log description|size Hs|size Hs|width level Hl|size Hs].
  - exists CompressionCodecNone. unfold undone_by.
    rewrite (lookup_code_registered _ _ _ (in_regs 0 _ _ _ eq_refl) : lookup_code (getMethodByte CompressionCodecNone) = _).
    split_and!; try done; [apply lossless_None|by right].
  - apply (undone_registered _ _ _ _ _ (in_regs 1 _ _ _ eq_refl) eq_refl); try done. by apply lossless_LZ4.
  - apply (undone_registered _ _ _ _ _ (in_regs 1 _ _ _ eq_refl) eq_refl); try done. by apply lossless_LZ4HC.
  - apply (undone_registered _ _ _ _ (CompressionCodecZSTD zstd ZSTD_DEFAULT_LEVEL) (in_regs 2 _ _ _ eq_refl)); try done.
    by apply lossless_ZSTD.
  - apply (undone_registered _ _ _ _ (Delta.CompressionCodecDelta 1) (in_regs 5 _ _ _ eq_refl)); try done. by apply Delta.lossless_Delta.
  - apply (undone_registered _ _ _ _ (CompressionCodecDoubleDelta 1) (in_regs 7 _ _ _ eq_refl)); try done. by apply lossless_DoubleDelta.
  - apply (undone_registered _ _ _ _ (CompressionCodecFPC 4 12) (in_regs 11 _ _ _ eq_refl)); try done. by apply lossless_FPC.
  - apply (undone_registered _ _ _ _ (GCD.CompressionCodecGCD boost_gcd libdivide_divide 1) (in_regs 12 _ _ _ eq_refl)); try done.
    by apply GCD.lossless.
Qed.

Lemma any_length_storable c limit :
  any_length c -> FitsReserve c limit -> limit + ADDITIONAL_LIMIT < GiB -> exists dec, Storable lookup_code c dec limit.
Proof.
  intros Hc Hf Hl. unfold ADDITIONAL_LIMIT in Hl. destruct (any_length_lookup c Hc) as (dec & Hlook & Hless & Ha & Hn). exists dec.
  destruct Hn as [Hn|[-> ->]].
  - apply lossless_storable; done || lia.
  - apply none_storable; [lia|done].
Qed.

Lemma get_codecs_registered f children type current_default only_generic codecs :
  factory' = Ok f -> registered lookup_code (shortest current_default) current_default -> unencrypted children ->
  get_codecs f children type current_default only_generic = Ok codecs ->
  Forall (fun codec => registered lookup_code (shortest codec) codec) codecs.
Proof.
  intros Ef Hd. revert codecs. induction children as [|child children IH]; intros codecs Hplain H; cbn [get_codecs] in H.
  { apply Ok_inj in H as <-. constructor. }
  apply Forall_cons in Hplain as [Hname Hplain].
  apply rbind_Ok in H as ([name arguments] & Hi & H). apply rbind_Ok in H as (codec & Hc & H).
  apply rbind_Ok in H as (rest & Hr & H). specialize (IH rest Hplain Hr).
  assert (Hreg : registered lookup_code (shortest codec) codec).
  { destruct (bool_decide _); [apply Ok_inj in Hc as <-; done|]. by eapply built_registered; [..|exact Hc]; eauto. }
  destruct (_ && _); apply Ok_inj in H as <-; [done|by constructor].
Qed.
End Undone.

Section RoundTrip.
Context (lib : LZ4Library) (env : LZ4Surroundings) (zstd : ZSTDLibrary) (aes_128_gcm_siv aes_256_gcm_siv : CreatorWithType).
Context (boost_gcd libdivide_divide : Z -> Z -> Z) (statics : option Z) (fresh : nat -> bytes).

#[local] Abbreviation make := (construct lib env zstd aes_128_gcm_siv aes_256_gcm_siv
  boost_gcd libdivide_divide statics fresh).
#[local] Abbreviation lookup_in := (lookup_code lib env zstd aes_128_gcm_siv aes_256_gcm_siv
  boost_gcd libdivide_divide statics fresh).
Hypothesis boost_gcd_spec : forall a b, 0 <= a -> 0 <= b -> boost_gcd a b = Z.gcd a b.
Hypothesis libdivide_spec : forall a d, 0 <= a -> 0 < d -> libdivide_divide a d = a / d.
Hypothesis fresh_length : forall n, length (fresh n) = n.
Context `{!LZ4LibrarySpec lib, !LZ4SurroundingsSpec env, !ZSTDLibrarySpec zstd}.

Lemma frame_method c source f : compress c source = Ok f -> readMethod f = Ok (getMethodByte c).
Proof.
  intros (data & _ & ->)%compress_Ok. unfold readMethod.
  rewrite (slice_app [] [_] _ 0 1 eq_refl eq_refl : slice 0 1 ([_] ++ _) = _). cbn [rbind le_value]. f_equal. lia.
Qed.

Lemma registered_weaken lookup m m' enc : m <= m' -> registered lookup m enc -> registered lookup m' enc.
Proof. intros Hm (dec & Hl & Hless & Ha). exists dec. split_and!; [done|by eapply lossless_weaken|apply Ha..]. Qed.

Lemma registered_decompress lookup min_size enc source f dest :
  registered lookup min_size enc -> is_bytes source -> min_size <= size_of source -> 0 < size_of source < GiB ->
  compress enc source = Ok f -> (length source <= length dest)%nat ->
  exists dec, (let! method := readMethod f in lookup method) = Ok dec /\
    decompress dec f dest = Ok (source ++ drop (length source) dest).
Proof.
  intros (dec & Hl & Hless & _) Hb Hmin Hs Hf Hd. exists dec. rewrite (frame_method _ _ _ Hf). split; [done|].
  apply (decompress_compress enc dec min_size); done || lia.
Qed.

Lemma chain_decompress nested min_size codecs source f dest :
  Forall (registered (lookup_in nested) min_size) codecs -> 0 < size_of codecs < 256 -> min_size <= 9 ->
  is_bytes source -> min_size <= size_of source -> 0 < size_of source -> chain_fits codecs source = true ->
  compress (CompressionCodecMultiple (lookup_in nested) fresh codecs) source = Ok f ->
  (length source <= length dest)%nat ->
  exists dec, (let! method := readMethod f in lookup_in (lookup_in nested) method) = Ok dec /\
    decompress dec f dest = Ok (source ++ drop (length source) dest).
Proof.
  intros Hreg Hn H9 Hb Hmin Hs Hfit Hf Hd. exists (CompressionCodecMultiple (lookup_in nested) fresh []).
  assert (Hlim : size_of source < GiB).
  { destruct codecs; simpl in Hfit; apply andb_true_iff in Hfit as [H%Z.ltb_lt _]; unfold ADDITIONAL_LIMIT in *; lia. }
  rewrite (frame_method _ _ _ Hf). split.
  - apply (lookup_code_registered lib env zstd aes_128_gcm_siv aes_256_gcm_siv boost_gcd libdivide_divide statics
      fresh (lookup_in nested) "Multiple" _ (simple_creator (CompressionCodecMultiple (lookup_in nested) fresh []))).
    by apply (in_regs lib env zstd aes_128_gcm_siv aes_256_gcm_siv boost_gcd libdivide_divide statics
      fresh (lookup_in nested) 4).
  - pose proof Hf as (data & Hdata & _)%compress_Ok. simpl in Hdata. unfold GiB in Hlim.
    eapply decompress_frame; [|..|exact Hf|exact Hdata| |done]; [done|lia|].
    intros dest' Hd'. simpl. apply (multiple_restores _ _ min_size codecs); done || lia.
Qed.

(** What is compressed by the codec of a declaration can be stored. *)
Lemma declared_storable nested factory children type current_default only_generic codecs codec limit :
  get_codecs factory children type current_default only_generic = Ok codecs ->
  get_codec factory fresh (lookup_in nested) children type current_default only_generic = Ok codec ->
  Forall (any_length lib env zstd boost_gcd libdivide_divide) codecs -> chain_ok codecs limit -> size_of codecs < 256 ->
  exists dec, Storable (lookup_in (lookup_in nested)) codec dec limit.
Proof.
  intros Hcodecs Hget Hany Hok Hn. unfold get_codec in Hget. rewrite Hcodecs in Hget. cbn [rbind] in Hget.
  destruct codecs as [|c [|c' codecs]]; apply Ok_inj in Hget as <-.
  - destruct Hok as [Hl _]. eapply any_length_storable; try done; [apply any_none|]. apply fits_None. unfold ADDITIONAL_LIMIT in Hl. lia.
  - apply Forall_cons in Hany as [Hc _]. destruct Hok as (Hl & Hf & _). by eapply any_length_storable.
  - eexists. apply chain_storable; try done; try (simpl in *; lia). eapply Forall_impl; [exact Hany|]. intros c0 Hc0.
    edestruct any_length_lookup as (dec & Hlook & Hless & Ha & _); [..|exact Hc0|]; try done. by exists dec.
Qed.

(** C10: a column whose codec is declared as [CODEC(...)] can be read back.  The
    data compressed by the codec the factory builds from the declaration, for
    any arguments and column type, is restored by the codec the factory returns
    for the method byte of the data, and of each step of a chain.  The
    declaration may name every codec but the encryption codecs; the current
    default codec, which [Default] stands for, is also one the factory builds by
    name.  The data is not empty, and has at least 8 bytes if Gorilla is among
    the codecs; the declaration has less than 256 codecs, and the data and the
    results of the steps stay below the 1 GiB that the readers accept.  Of the
    libraries LZ4 and ZSTD only their documented contracts are used. *)
Theorem declared_codec_roundtrip nested factory children type default_name default_arguments default_type current_default
    only_generic codecs codec source f dest :
  make nested = Ok factory ->
  default_name ∉ encryption_codecs -> getImpl factory default_name default_arguments default_type = Ok current_default ->
  unencrypted children ->
  get_codecs factory children type current_default only_generic = Ok codecs ->
  get_codec factory fresh (lookup_in nested) children type current_default only_generic = Ok codec ->
  size_of codecs < 256 -> is_bytes source -> 0 < size_of source -> Forall (fun c => shortest c <= size_of source) codecs ->
  chain_fits codecs source = true -> compress codec source = Ok f -> (length source <= length dest)%nat ->
  exists dec, (let! method := readMethod f in lookup_in (lookup_in nested) method) = Ok dec /\
    decompress dec f dest = Ok (source ++ drop (length source) dest).
Proof.
  intros Hmake Hname Hdef Hplain Hcodecs Hget Hn Hb Hs Hshort Hfit Hf Hd. set (m := Z.min 8 (size_of source)).
  assert (Hlim : size_of source < GiB).
  { destruct codecs; simpl in Hfit; apply andb_true_iff in Hfit as [H%Z.ltb_lt _]; unfold ADDITIONAL_LIMIT, GiB in *; lia. }
  unfold get_codec in Hget. rewrite Hcodecs in Hget. cbn [rbind] in Hget.
  assert (Hreg : forall nested', Forall (registered (lookup_in nested') m) codecs).
  { intros nested'. eapply get_codecs_registered with (nested := nested') in Hcodecs; [|done..|exact Hmake|by eapply built_registered|exact Hplain].
    eapply Forall_impl; [apply Forall_and, (conj Hshort Hcodecs)|]. intros c [Hc Hr].
    eapply registered_weaken; [|exact Hr]. unfold m. unfold shortest in *. destruct (_ =? _); lia. }
  destruct codecs as [|c [|c' codecs]]; apply Ok_inj in Hget as <-.
  - eapply (registered_decompress _ 1 CompressionCodecNone); [apply none_registered|done || lia..].
  - apply (registered_decompress _ m c); try done; [|lia]. specialize (Hreg (lookup_in nested)).
    by apply Forall_cons in Hreg as [? _].
  - apply (chain_decompress nested m (c :: c' :: codecs)); try done; try lia.
Qed.
End RoundTrip.

(** A factory whose libraries store data as it is, without the encryption codecs. *)
Definition absent_creator : CreatorWithType := fun _ _ => Throw UNKNOWN_CODEC.

Definition plain_lookup (nested : Z -> result ICompressionCodec) : Z -> result ICompressionCodec :=
  lookup_code literal_library plain_surroundings storing_zstd absent_creator
    absent_creator Z.gcd Z.div None zero_memory nested.

Lemma getImpl_registered lib env zstd aes_128_gcm_siv aes_256_gcm_siv boost_gcd libdivide_divide statics fresh
    nested f name code creator arguments type :
  construct lib env zstd aes_128_gcm_siv aes_256_gcm_siv boost_gcd libdivide_divide statics fresh nested = Ok f ->
  (name, code, creator) ∈ registrations lib env zstd aes_128_gcm_siv aes_256_gcm_siv
    boost_gcd libdivide_divide statics fresh nested ->
  name <> "Multiple"%string -> getImpl f name arguments type = creator arguments type.
Proof.
  intros E Hin Hne. destruct (construct_spec lib env zstd aes_128_gcm_siv aes_256_gcm_siv boost_gcd libdivide_divide
    statics fresh nested) as (f' & E' & H & _). assert (f' = f) as -> by congruence.
  pose proof (proj2 (H name creator) (ex_intro _ code Hin)) as E2. unfold getImpl, CreatorWithType in *.
  rewrite bool_decide_eq_false_2 by done. by rewrite E2.
Qed.

(** Four bytes compressed with [CODEC(Delta(2), Default, ZSTD(3))], LZ4 being the
    default. *)
Definition declared_frame : bytes :=
  [145; 48; 0; 0; 0; 4; 0; 0; 0; 3; 146; 130; 144; 144; 35; 0; 0; 0; 26; 0; 0; 0; 130; 26; 0; 0; 0; 15; 0; 0; 0; 240; 0;
   146; 15; 0; 0; 0; 4; 0; 0; 0; 2; 0; 1; 1; 2; 2].

Definition declared_children : list CodecAST :=
  [ASTFunction "Delta" [UInt64Literal 2]; ASTIdentifier "Default"; ASTFunction "ZSTD" [UInt64Literal 3]]%string.

Definition declared_codecs : list ICompressionCodec :=
  [Delta.CompressionCodecDelta 2; CompressionCodecLZ4 literal_library plain_surroundings; CompressionCodecZSTD storing_zstd 3].

Lemma plain_get_codecs factory :
  construct literal_library plain_surroundings storing_zstd absent_creator absent_creator Z.gcd Z.div None
    zero_memory none_factory = Ok factory ->
  getImpl factory "LZ4" None None = Ok (CompressionCodecLZ4 literal_library plain_surroundings) /\
  get_codecs factory declared_children None (CompressionCodecLZ4 literal_library plain_surroundings) false =
    Ok declared_codecs.
Proof.
  intros E. split.
  - by rewrite (getImpl_registered _ _ _ _ _ _ _ _ _ _ _ _ _ _ _ _ E (in_regs _ _ _ _ _ _ _ _ _ _ 1 _ _ _ eq_refl)).
  - cbn [get_codecs declared_children inner_codec rbind].
    rewrite (bool_decide_eq_false_2 ("Delta"%string = _)), (bool_decide_eq_true_2 ("Default"%string = _)),
      (bool_decide_eq_false_2 ("ZSTD"%string = _)) by done.
    rewrite (getImpl_registered _ _ _ _ _ _ _ _ _ _ _ _ _ _ _ _ E (in_regs _ _ _ _ _ _ _ _ _ _ 5 _ _ _ eq_refl)) by done.
    rewrite (getImpl_registered _ _ _ _ _ _ _ _ _ _ _ _ _ _ _ _ E (in_regs _ _ _ _ _ _ _ _ _ _ 2 _ _ _ eq_refl)) by done.
    reflexivity.
Qed.

Lemma declared_codec_roundtrip_witness :
  exists dec,
    (let! method := readMethod declared_frame in plain_lookup (plain_lookup none_factory) method) = Ok dec /\
    decompress dec declared_frame (replicate 4 0) = Ok [1; 1; 3; 3].
Proof.
  destruct (construct_spec literal_library plain_surroundings storing_zstd absent_creator
    absent_creator Z.gcd Z.div None zero_memory none_factory) as (factory & E & _).
  destruct (plain_get_codecs factory E) as [Hdef Hcodecs].
  assert (Hget : exists codec, get_codec factory zero_memory (plain_lookup none_factory) declared_children None
      (CompressionCodecLZ4 literal_library plain_surroundings) false = Ok codec /\
      compress codec [1; 1; 3; 3] = Ok declared_frame).
  { unfold get_codec. rewrite Hcodecs. eexists. split; [reflexivity|]. vm_compute. reflexivity. }
  destruct Hget as (codec & Hget & Hf).
  apply (declared_codec_roundtrip literal_library plain_surroundings storing_zstd absent_creator
    absent_creator Z.gcd Z.div None zero_memory) with (nested := none_factory) (factory := factory)
    (children := declared_children) (type := None) (default_name := "LZ4"%string) (default_arguments := None)
    (default_type := None) (current_default := CompressionCodecLZ4 literal_library plain_surroundings)
    (only_generic := false) (codecs := declared_codecs) (codec := codec)
    (source := [1; 1; 3; 3]) (f := declared_frame) (dest := replicate 4 0);
    [reflexivity|reflexivity|intros n; apply length_replicate|apply literal_library_spec|apply plain_surroundings_spec
    |apply storing_zstd_spec|exact E| |exact Hdef| |exact Hcodecs|exact Hget|reflexivity| |reflexivity| | |exact Hf|reflexivity].
  - unfold encryption_codecs. set_solver.
  - repeat constructor; intros name arguments [= <- _]; unfold encryption_codecs; set_solver.
  - repeat constructor; discriminate.
  - repeat constructor; discriminate.
  - vm_compute. reflexivity.
Defined.

(** * Corrupted data *)

(** The methods of single codecs that are not encryption codecs.  [Multiple] is not
    among them: it reads out of bounds when a block of its data is shorter than a
    header ([multiple_short_block]). *)
Definition single_codec_methods : list CompressionMethodByte := [NONE; LZ4; ZSTD; Delta; T64; DoubleDelta; Gorilla; FPC; GCD].

(** C28: decompression with a single codec, not a chain, never reads or writes outside
    of its buffers: for every codec but [Multiple] and the encryption codecs that
    the factory returns for a method byte, and arbitrary, possibly corrupted,
    data, decompression into a buffer of the announced size ends with an
    exception or fills the buffer.  Of the ZSTD library it is supposed that it
    writes no more than the capacity it is given. *)
Theorem registered_decoders_safe (lib : LZ4Library) (env : LZ4Surroundings)
    (zstd : ZSTDLibrary) (aes_128_gcm_siv aes_256_gcm_siv : CreatorWithType)
    (boost_gcd libdivide_divide : Z -> Z -> Z) (statics : option Z) (fresh : nat -> bytes)
    (nested : Z -> result ICompressionCodec) (method : CompressionMethodByte) (dec : ICompressionCodec)
    (source dest : bytes) :
  LZ4SurroundingsSpec env -> (method = ZSTD -> ZSTDLibrarySafe zstd) -> In method single_codec_methods ->
  lookup_code lib env zstd aes_128_gcm_siv aes_256_gcm_siv boost_gcd libdivide_divide statics fresh nested
    (method_byte method) = Ok dec ->
  is_bytes source -> size_of source < 2 ^ 32 -> size_of dest < 2 ^ 32 ->
  (forall n, readDecompressedBlockSize (decompression_error_code dec) source = Ok n -> n <= size_of dest) ->
  memory_safe dest (decompress dec source dest).
Proof.
  intros Henv Hzstd Hm Hl Hb Hs Hd Hn.
  pose (by_code := lookup_code_registered lib env zstd aes_128_gcm_siv aes_256_gcm_siv
    boost_gcd libdivide_divide statics fresh nested).
  pose (reg := in_regs lib env zstd aes_128_gcm_siv aes_256_gcm_siv boost_gcd libdivide_divide statics fresh nested).
  destruct Hm as [<-|[<-|[<-|[<-|[<-|[<-|[<-|[<-|[<-|[]]]]]]]]]].
  - rewrite (by_code _ _ _ (reg 0%nat _ _ _ eq_refl)) in Hl. apply Ok_inj in Hl as <-. apply decompress_safe; try done. apply safe_None.
  - rewrite (by_code _ _ _ (reg 1%nat _ _ _ eq_refl)) in Hl. apply Ok_inj in Hl as <-. apply decompress_safe; try done.
    by apply safe_LZ4.
  - rewrite (by_code _ _ _ (reg 2%nat _ _ _ eq_refl)) in Hl. apply Ok_inj in Hl as <-. apply decompress_safe; try done.
    apply safe_ZSTD. by apply Hzstd.
  - rewrite (by_code _ _ _ (reg 5%nat _ _ _ eq_refl)) in Hl.
    apply delta_built in Hl as (size & _ & ->). apply decompress_safe; try done. apply Delta.safe_Delta.
  - rewrite (by_code _ _ _ (reg 6%nat _ _ _ eq_refl)) in Hl.
    apply t64_built in Hl as (idx & variant & ->). apply decompress_safe; try done. apply safe_T64.
  - rewrite (by_code _ _ _ (reg 7%nat _ _ _ eq_refl)) in Hl.
    apply double_delta_built in Hl as (size & _ & ->). apply decompress_safe; try done. apply safe_DoubleDelta.
  - rewrite (by_code _ _ _ (reg 8%nat _ _ _ eq_refl)) in Hl.
    apply gorilla_built in Hl as (size & _ & ->). apply decompress_safe; try done. apply safe_Gorilla.
  - rewrite (by_code _ _ _ (reg 11%nat _ _ _ eq_refl)) in Hl.
    apply (fpc_built [] None) in Hl as (width & level & _ & ->). apply decompress_safe; try done. apply safe_FPC.
  - rewrite (by_code _ _ _ (reg 12%nat _ _ _ eq_refl)) in Hl.
    apply gcd_built in Hl as (size & _ & ->). apply decompress_safe; try done. apply GCD.safe_GCD.
Qed.

(** A Delta frame that announces 6 bytes and holds too few values. *)
Lemma registered_decoders_safe_witness :
  memory_safe [9; 9; 9; 9; 9; 9]
    (decompress (Delta.CompressionCodecDelta 1) [146; 13; 0; 0; 0; 6; 0; 0; 0; 4; 2; 7; 7] [9; 9; 9; 9; 9; 9]).
Proof.
  apply (registered_decoders_safe literal_library plain_surroundings storing_zstd absent_creator
    absent_creator Z.gcd Z.div None zero_memory none_factory Delta);
    [apply plain_surroundings_spec|done|unfold single_codec_methods; simpl; tauto| | |reflexivity|reflexivity|].
  - exact (lookup_code_registered _ _ _ _ _ _ _ _ _ _ _ _ _ (in_regs _ _ _ _ _ _ _ _ _ _ 5 _ _ _ eq_refl)).
  - repeat constructor; discriminate.
  - intros n H. vm_compute in H. apply Ok_inj in H as <-. discriminate.
Defined.
