(* ===== verification/CodecValidation.v ===== *)
(** The validation of codec declarations
    (src/Compression/CompressionFactoryAdditions.cpp). *)
From S2P Require Import Prelude IntText BinaryIO Codec Elements CodecDelta CodecGCD CodecDoubleDelta CodecGorilla CodecT64 CodecLZ4 CodecFactory.
From stdpp Require Import gmap strings.
Open Scope Z_scope.
Import Binary.

(** * The code *)

(** Column types, as far as [innerDataTypeIsFloat] looks into them. *)
Inductive DataType :=
| Simple (type : IDataType)
| Nullable (nested_type : DataType)
| Array (nested_type : DataType)
| Tuple (elements : list DataType)
| OtherType.

Fixpoint innerDataTypeIsFloat (type : DataType) : bool :=
  match type with
  | Simple type => isFloat (getTypeId type)
  | Nullable nested_type => innerDataTypeIsFloat nested_type
  | Array nested_type => innerDataTypeIsFloat nested_type
  | Tuple elements =>
      (fix any (elements : list DataType) : bool :=
         match elements with
         | [] => false
         | subtype :: elements => if innerDataTypeIsFloat subtype then true else any elements
         end) elements
  | OtherType => false
  end.

(** The variables of the loop over the codecs.  [encryption_codecs_pos] is a
    sorted set; the positions come in increasing order. *)
Record ValidationState := {
  with_compression_codec : bool;
  with_none_codec : bool;
  first_generic_compression_codec_pos : option nat;
  first_delta_codec_pos : option nat;
  last_floating_point_time_series_codec_pos : option nat;
  encryption_codecs_pos : list nat }.

Definition initial_state : ValidationState := {|
  with_compression_codec := false; with_none_codec := false; first_generic_compression_codec_pos := None;
  first_delta_codec_pos := None; last_floating_point_time_series_codec_pos := None; encryption_codecs_pos := [] |}.

(** The end of one iteration. *)
Definition note_codec (i : nat) (t : CodecTraits) (st : ValidationState) : ValidationState := {|
  with_compression_codec := with_compression_codec st || isCompression t;
  with_none_codec := with_none_codec st || isNone t;
  first_generic_compression_codec_pos :=
    match first_generic_compression_codec_pos st with
    | Some pos => Some pos
    | None => if isGenericCompression t then Some i else None
    end;
  first_delta_codec_pos :=
    match first_delta_codec_pos st with
    | Some pos => Some pos
    | None => if isDeltaCompression t then Some i else None
    end;
  last_floating_point_time_series_codec_pos :=
    if isFloatingPointTimeSeriesCodec t then Some i else last_floating_point_time_series_codec_pos st;
  encryption_codecs_pos :=
    if isEncryption t then encryption_codecs_pos st ++ [i] else encryption_codecs_pos st |}.

(** The sanity checks, for [size] codecs; [float_column] is [None] without a
    column type. *)
Definition sanity_checks (st : ValidationState) (size : nat) (float_column : option bool) : result unit :=
  let encryptions := length (encryption_codecs_pos st) in
  if (1 <? size)%nat && with_none_codec st then Throw BAD_ARGUMENTS
  else if negb (with_compression_codec st) && negb (with_none_codec st) && negb (encryptions =? size)%nat
  then Throw BAD_ARGUMENTS
  else if match encryption_codecs_pos st with
          | [] => false
          | begin :: _ => negb (Z.of_nat begin =? uwrap 64 (Z.of_nat size - Z.of_nat encryptions))
          end
  then Throw BAD_ARGUMENTS
  else if match last_floating_point_time_series_codec_pos st, float_column with
          | Some _, Some is_float => negb is_float
          | _, _ => false
          end
  then Throw BAD_ARGUMENTS
  else if match first_delta_codec_pos st, last_floating_point_time_series_codec_pos st with
          | Some delta, Some float => (delta <? float)%nat
          | _, _ => false
          end
  then Throw BAD_ARGUMENTS
  else if match first_generic_compression_codec_pos st with
          | Some pos => negb (Z.of_nat pos =? uwrap 64 (Z.of_nat size - 1 - Z.of_nat encryptions))
          | None => false
          end
  then Throw BAD_ARGUMENTS
  else Ok tt.

(** What the settings allow. *)
Record Settings := {
  sanity_check : bool;
  allow_experimental_codecs : bool;
  enable_deflate_qpl_codec : bool;
  enable_zstd_qat_codec : bool }.

Section Validate.
Context (factory : CompressionCodecFactory) (default_codec : ICompressionCodec).
(** Equality of the hashes of two codecs. *)
Context (same_hash : ICompressionCodec -> ICompressionCodec -> bool).
(** The types of the substreams of a column for which special compression is
    allowed, in the order of [enumerateStreams]. *)
Context (substreams : DataType -> list IDataType).

(** The callback of [enumerateStreams] over the substreams: the last codec, and
    whether all had the same hash. *)
Fixpoint substream_codecs (name : string) (arguments : option (list CodecArgument)) (types : list IDataType)
    (prev_codec : option ICompressionCodec) (can_substitute : bool)
  : result (option ICompressionCodec * bool) :=
  match types with
  | [] => Ok (prev_codec, can_substitute)
  | type :: types =>
      let! result_codec := getImpl factory name arguments (Some type) in
      let differs := match prev_codec with Some prev => negb (same_hash prev result_codec) | None => false end in
      substream_codecs name arguments types (Some result_codec) (if differs then false else can_substitute)
  end.

(** One iteration of the loop: the codec, its description and
    [can_substitute_codec_arguments]. *)
Definition validate_inner (settings : Settings) (inner_codec_ast : CodecAST) (column_type : option DataType)
    (can_substitute : bool) : result (ICompressionCodec * CodecAST * bool) :=
  let! inner := inner_codec inner_codec_ast in
  let '(codec_family_name, codec_arguments) := inner in
  if bool_decide (codec_family_name = DEFAULT_CODEC_NAME) then
    match codec_arguments with
    | Some _ => Throw BAD_ARGUMENTS
    | None => Ok (default_codec, ASTIdentifier DEFAULT_CODEC_NAME, can_substitute)
    end
  else
    let! found :=
      match column_type with
      | Some column_type =>
          let! found := substream_codecs codec_family_name codec_arguments (substreams column_type) None can_substitute in
          match found with
          | (Some codec, can) => Ok (codec, can)
          | (None, _) => Throw LOGICAL_ERROR
          end
      | None => let! codec := getImpl factory codec_family_name codec_arguments None in Ok (codec, can_substitute)
      end in
    let '(result_codec, can_substitute) := found in
    let t := traits result_codec in
    if negb (allow_experimental_codecs settings) && isExperimental t then Throw BAD_ARGUMENTS
    else if negb (enable_deflate_qpl_codec settings) && isDeflateQpl t then Throw BAD_ARGUMENTS
    else if negb (enable_zstd_qat_codec settings) && isZstdQat t then Throw BAD_ARGUMENTS
    else Ok (result_codec, getCodecDesc result_codec, can_substitute).

Fixpoint validate_loop (settings : Settings) (children : list CodecAST) (column_type : option DataType) (i : nat)
    (can_substitute : bool) (descriptions : list CodecAST) (st : ValidationState)
  : result (bool * list CodecAST * ValidationState) :=
  match children with
  | [] => Ok (can_substitute, descriptions, st)
  | child :: children =>
      let! r := validate_inner settings child column_type can_substitute in
      let '(result_codec, description, can_substitute) := r in
      validate_loop settings children column_type (S i) can_substitute (descriptions ++ [description])
        (note_codec i (traits result_codec) st)
  end.

(** [validateCodecAndGetPreprocessedAST] on the arguments of [CODEC(...)]. *)
Definition validateCodecAndGetPreprocessedAST (settings : Settings) (children : list CodecAST)
    (column_type : option DataType) : result (list CodecAST) :=
  let! r := validate_loop settings children column_type 0 true [] initial_state in
  let '(can_substitute, descriptions, st) := r in
  let! _ :=
    if sanity_check settings
    then sanity_checks st (length descriptions) (option_map innerDataTypeIsFloat column_type)
    else Ok tt in
  Ok (if can_substitute then descriptions else children).
End Validate.

(** * Declarations that make sense *)

Section Sense.
Implicit Types (ts pre gen enc : list CodecTraits) (p : CodecTraits -> bool).

Definition none_of p ts : Prop := Forall (fun t => p t = false) ts.
Definition all_of p ts : Prop := Forall (fun t => p t = true) ts.

(** What the sanity checks are for: NONE stands alone; something compresses,
    unless everything is encryption; codecs for floating point are for columns
    of floating point, without a delta codec before them; and transformations
    come first, then at most one generic codec, then encryption. *)
Definition sensible ts (float_column : option bool) : Prop :=
  ((1 < length ts)%nat -> none_of isNone ts) /\
  (existsb isCompression ts = true \/ existsb isNone ts = true \/ all_of isEncryption ts) /\
  (float_column = Some false -> none_of isFloatingPointTimeSeriesCodec ts) /\
  (forall i j d s, ts !! i = Some d -> ts !! j = Some s -> isDeltaCompression d = true ->
    isFloatingPointTimeSeriesCodec s = true -> (j <= i)%nat) /\
  (exists pre gen enc, ts = pre ++ gen ++ enc /\ none_of isEncryption (pre ++ gen) /\ all_of isEncryption enc /\
    none_of isGenericCompression pre /\
    (gen = [] /\ none_of isGenericCompression enc \/ exists g, gen = [g] /\ isGenericCompression g = true)).

(** The state after the loop over codecs with the traits [ts]. *)
Fixpoint note_all (i : nat) ts (st : ValidationState) : ValidationState :=
  match ts with
  | [] => st
  | t :: ts => note_all (S i) ts (note_codec i t st)
  end.

Fixpoint first_pos p ts : option nat :=
  match ts with
  | [] => None
  | t :: ts => if p t then Some 0%nat else S <$> first_pos p ts
  end.

Lemma note_all_snoc i ts t st : note_all i (ts ++ [t]) st = note_codec (i + length ts) t (note_all i ts st).
Proof.
  revert i st. induction ts as [|t' ts IH]; intros i st; simpl; [by rewrite Nat.add_0_r|]. rewrite IH. f_equal. lia.
Qed.

Lemma first_pos_snoc p ts t :
  first_pos p (ts ++ [t]) = match first_pos p ts with Some i => Some i | None => if p t then Some (length ts) else None end.
Proof.
  induction ts as [|t' ts IH]; simpl; [by destruct (p t)|]. destruct (p t'); [done|]. rewrite IH.
  destruct (first_pos p ts), (p t); done.
Qed.

Lemma first_pos_Some p ts i :
  first_pos p ts = Some i -> exists t, ts !! i = Some t /\ p t = true /\ none_of p (take i ts).
Proof.
  revert i. induction ts as [|t ts IH]; intros i H; simpl in H; [done|]. destruct (p t) eqn:Ep.
  - injection H as <-. exists t. split_and!; [done|done|constructor].
  - destruct (first_pos p ts) as [k|]; [|done]. injection H as <-. destruct (IH k eq_refl) as (t' & H1 & H2 & H3).
    exists t'. split_and!; [done|done|]. by constructor.
Qed.

Lemma first_pos_None p ts : first_pos p ts = None <-> none_of p ts.
Proof.
  induction ts as [|t ts IH]; simpl; [split; [constructor|done]|]. unfold none_of in *. rewrite Forall_cons, <- IH.
  destruct (p t), (first_pos p ts); split; intros H; try done; destruct H; done.
Qed.

Lemma first_pos_app p pre ts : none_of p pre -> first_pos p (pre ++ ts) = Nat.add (length pre) <$> first_pos p ts.
Proof.
  induction 1 as [|t pre Ht _ IH]; simpl; [by destruct (first_pos p ts)|]. rewrite Ht, IH.
  by destruct (first_pos p ts).
Qed.

(** A state that describes the codecs. *)
Record describes ts (st : ValidationState) : Prop := {
  describes_compression : with_compression_codec st = existsb isCompression ts;
  describes_none : with_none_codec st = existsb isNone ts;
  describes_generic : first_generic_compression_codec_pos st = first_pos isGenericCompression ts;
  describes_delta : first_delta_codec_pos st = first_pos isDeltaCompression ts;
  describes_float :
    match last_floating_point_time_series_codec_pos st with
    | Some j => (exists t, ts !! j = Some t /\ isFloatingPointTimeSeriesCodec t = true) /\
        forall k t, ts !! k = Some t -> isFloatingPointTimeSeriesCodec t = true -> (k <= j)%nat
    | None => none_of isFloatingPointTimeSeriesCodec ts
    end;
  describes_first_encryption : head (encryption_codecs_pos st) = first_pos isEncryption ts;
  describes_encryptions : length (encryption_codecs_pos st) = length (filter (fun t => isEncryption t = true) ts) }.

Lemma note_all_describes ts : describes ts (note_all 0 ts initial_state).
Proof.
  induction ts as [|t ts [H1 H2 H3 H4 H5 H6 H7]] using rev_ind; [by repeat constructor|]. rewrite note_all_snoc, Nat.add_0_l.
  set (st := note_all 0 ts initial_state) in *. split; simpl.
  - by rewrite existsb_app, H1; simpl; rewrite orb_false_r.
  - by rewrite existsb_app, H2; simpl; rewrite orb_false_r.
  - by rewrite first_pos_snoc, H3.
  - by rewrite first_pos_snoc, H4.
  - destruct (isFloatingPointTimeSeriesCodec t) eqn:Ef.
    + split; [exists t; split; [by rewrite lookup_app_r, Nat.sub_diag by lia|done]|].
      intros k t' Hk%lookup_lt_Some _. rewrite length_app in Hk. simpl in Hk. lia.
    + destruct (last_floating_point_time_series_codec_pos st) as [j|].
      * destruct H5 as [(t' & Ht' & Hf) Hmax]. split; [exists t'; split; [|done]; by apply lookup_app_l_Some|].
        intros k t'' Hk Hf''. apply lookup_app_Some in Hk as [Hk|[Hk1 Hk2]]; [by eapply Hmax|].
        apply list_lookup_singleton_Some in Hk2 as [_ <-]. congruence.
      * apply Forall_app_2; [done|by constructor].
  - rewrite first_pos_snoc, <- H6. destruct (isEncryption t); destruct (encryption_codecs_pos st); try done.
  - rewrite filter_app, length_app, <- H7. destruct (isEncryption t) eqn:E.
    + rewrite length_app. rewrite filter_cons_True by done. done.
    + rewrite filter_cons_False by congruence. simpl. lia.
Qed.

Lemma filter_length_full p ts : length (filter (fun t => p t = true) ts) = length ts -> all_of p ts.
Proof.
  induction ts as [|t ts IH]; [constructor|]. intros H. destruct (p t) eqn:E.
  - rewrite filter_cons_True in H by done. constructor; [done|]. apply IH. simpl in H. lia.
  - rewrite filter_cons_False in H by congruence.
    pose proof (length_filter (fun t => p t = true) ts). simpl in H. lia.
Qed.

Lemma filter_all_of p ts : all_of p ts -> length (filter (fun t => p t = true) ts) = length ts.
Proof. induction 1 as [|t ts Ht _ IH]; [done|]. rewrite filter_cons_True by done. simpl. lia. Qed.

Lemma filter_none_of p ts : none_of p ts -> filter (fun t => p t = true) ts = [].
Proof. induction 1 as [|t ts Ht _ IH]; [done|]. by rewrite filter_cons_False by congruence. Qed.

(** The encryption codecs come last: the check on positions. *)
Lemma encryption_suffix ts :
  match first_pos isEncryption ts with
  | None => True
  | Some b => (b + length (filter (fun t => isEncryption t = true) ts) = length ts)%nat
  end <->
  exists front enc, ts = front ++ enc /\ none_of isEncryption front /\ all_of isEncryption enc.
Proof.
  destruct (first_pos isEncryption ts) as [b|] eqn:Eb.
  - destruct (first_pos_Some _ _ _ Eb) as (t & Ht & Et & Hfront). split.
    + intros H. exists (take b ts), (drop b ts). split_and!; [by rewrite take_drop|done|].
      rewrite <- (take_drop b ts), filter_app, (filter_none_of _ _ Hfront) in H. simpl in H.
      apply filter_length_full. apply lookup_lt_Some in Ht. rewrite length_app, !length_take, !length_drop in H.
      rewrite length_drop. lia.
    + intros (front & enc & -> & Hf & He). rewrite first_pos_app in Eb by done.
      rewrite filter_app, filter_none_of by done. simpl. rewrite filter_all_of, length_app by done. f_equal.
      destruct He as [|t' enc Ht' _]; simpl in Eb; [done|]. rewrite Ht' in Eb. injection Eb as <-. lia.
  - split; [|done]. intros _. exists ts, []. rewrite app_nil_r. split_and!; [done|by apply first_pos_None|constructor].
Qed.

(** With encryption last, the check on the generic codec: nothing but encryption
    follows the first one. *)
Lemma generic_last front enc :
  all_of isEncryption enc ->
  (match first_pos isGenericCompression (front ++ enc) with
   | None => True
   | Some g => (g + 1 = length front)%nat
   end <->
   exists pre gen, front = pre ++ gen /\ none_of isGenericCompression pre /\
     (gen = [] /\ none_of isGenericCompression enc \/ exists g, gen = [g] /\ isGenericCompression g = true)).
Proof.
  intros He. destruct (first_pos isGenericCompression (front ++ enc)) as [g|] eqn:Eg.
  - destruct (first_pos_Some _ _ _ Eg) as (t & Ht & Et & Hnone). split.
    + intros H. rewrite lookup_app_l in Ht by lia. rewrite take_app_le in Hnone by lia.
      exists (take g front), [t]. split_and!; [|done|right; by exists t].
      rewrite <- (take_drop_middle front g t Ht) at 1. rewrite drop_ge by lia. done.
    + intros (pre & gen & -> & Hpre & [[-> Hgen]|(g' & -> & Hg')]).
      * rewrite app_nil_r in Eg. rewrite (proj2 (first_pos_None _ (pre ++ enc))) in Eg; [done|by apply Forall_app_2].
      * rewrite <- app_assoc, first_pos_app in Eg by done. simpl in Eg. rewrite Hg' in Eg. injection Eg as <-.
        rewrite length_app. simpl. lia.
  - split; [|done]. intros _. apply first_pos_None, Forall_app in Eg as [Hf Hen]. exists front, [].
    rewrite app_nil_r. split_and!; [done|done|by left].
Qed.
Lemma existsb_none_of p ts : existsb p ts = false <-> none_of p ts.
Proof. unfold none_of. induction ts as [|t ts IH]; simpl; [done|]. by rewrite orb_false_iff, Forall_cons, IH. Qed.

Lemma filter_length_all p ts : length (filter (fun t => p t = true) ts) = length ts <-> all_of p ts.
Proof. split; [apply filter_length_full|apply filter_all_of]. Qed.

(** The check on the position of the delta codec. *)
Lemma delta_after_float ts st :
  describes ts st ->
  match first_delta_codec_pos st, last_floating_point_time_series_codec_pos st with
  | Some delta, Some float => (delta <? float)%nat
  | _, _ => false
  end = false <->
  forall i j d s, ts !! i = Some d -> ts !! j = Some s -> isDeltaCompression d = true ->
    isFloatingPointTimeSeriesCodec s = true -> (j <= i)%nat.
Proof.
  intros [_ _ _ Hd Hf _ _]. rewrite Hd.
  destruct (first_pos isDeltaCompression ts) as [delta|] eqn:Edelta.
  2:{ apply first_pos_None in Edelta. split; [|done]. intros _ i j d s Hi _ Hdelta.
      pose proof (Forall_lookup_1 _ _ _ _ Edelta Hi). simpl in *. congruence. }
  destruct (first_pos_Some _ _ _ Edelta) as (d0 & Hd0 & Ed0 & Hbefore).
  destruct (last_floating_point_time_series_codec_pos st) as [float|].
  2:{ split; [|done]. intros _ i j d s _ Hj _ Hs. pose proof (Forall_lookup_1 _ _ _ _ Hf Hj). simpl in *. congruence. }
  destruct Hf as [(f0 & Hf0 & Ef0) Hmax]. rewrite Nat.ltb_ge. split.
  - intros Hle i j d s Hi Hj Hdi Hsj. specialize (Hmax j s Hj Hsj). destruct (decide (i < delta)%nat) as [Hlt|]; [|lia].
    rewrite <- (lookup_take_lt ts delta i) in Hi by lia. pose proof (Forall_lookup_1 _ _ _ _ Hbefore Hi). simpl in *. congruence.
  - intros H. by eapply H.
Qed.

(** The checks on the positions of encryption and of the generic codec. *)
Lemma order_checks ts st :
  describes ts st -> Z.of_nat (length ts) < 2 ^ 64 ->
  (match encryption_codecs_pos st with
   | [] => false
   | begin :: _ => negb (Z.of_nat begin =? uwrap 64 (Z.of_nat (length ts) - Z.of_nat (length (encryption_codecs_pos st))))
   end = false /\
   match first_generic_compression_codec_pos st with
   | Some pos => negb (Z.of_nat pos =? uwrap 64 (Z.of_nat (length ts) - 1 - Z.of_nat (length (encryption_codecs_pos st))))
   | None => false
   end = false) <->
  exists pre gen enc, ts = pre ++ gen ++ enc /\ none_of isEncryption (pre ++ gen) /\ all_of isEncryption enc /\
    none_of isGenericCompression pre /\
    (gen = [] /\ none_of isGenericCompression enc \/ exists g, gen = [g] /\ isGenericCompression g = true).
Proof.
  intros [_ _ Hg _ _ Hfe He] Hlen. rewrite He, Hg.
  pose proof (length_filter (fun t => isEncryption t = true) ts) as Hle.
  assert (H1 : match encryption_codecs_pos st with
    | [] => false
    | begin :: _ => negb (Z.of_nat begin =? uwrap 64 (Z.of_nat (length ts) - Z.of_nat (length (filter (fun t => isEncryption t = true) ts))))
    end = false <-> exists front enc, ts = front ++ enc /\ none_of isEncryption front /\ all_of isEncryption enc).
  { rewrite <- encryption_suffix, <- Hfe. destruct (encryption_codecs_pos st) as [|b l]; simpl; [done|].
    rewrite uwrap_small by (unfold in_unsigned; lia). rewrite negb_false_iff, Z.eqb_eq. lia. }
  rewrite H1. clear H1. split.
  - intros [(front & enc & -> & Hfront & Henc) Hgen].
    destruct (proj1 (generic_last front enc Henc)) as (pre & gen & -> & Hpre & Hgen').
    { destruct (first_pos isGenericCompression (front ++ enc)) as [g|] eqn:Eg; [|done]. apply negb_false_iff, Z.eqb_eq in Hgen.
      rewrite filter_app, filter_none_of in Hgen by done. simpl in Hgen. rewrite filter_all_of, length_app in Hgen by done.
      destruct (first_pos_Some _ _ _ Eg) as (t & Ht%lookup_lt_Some & _). rewrite length_app in *.
      destruct (decide (length front = 0)%nat) as [E0|]; [|rewrite uwrap_small in Hgen by (unfold in_unsigned; lia); lia].
      rewrite E0 in Hgen. replace (Z.of_nat (0 + length enc) - 1 - Z.of_nat (length enc)) with (-1) in Hgen by lia.
      change (uwrap 64 (-1)) with (2 ^ 64 - 1) in Hgen. lia. }
    exists pre, gen, enc. split_and!; try done. by rewrite app_assoc.
  - intros (pre & gen & enc & -> & H1 & H2 & H3 & H4). rewrite app_assoc. split; [by exists (pre ++ gen), enc|].
    pose proof (proj2 (generic_last (pre ++ gen) enc H2)) as H. rewrite app_assoc in Hlen.
    rewrite filter_app, filter_none_of, length_app by done. simpl. rewrite filter_all_of by done.
    destruct (first_pos isGenericCompression ((pre ++ gen) ++ enc)) as [g|] eqn:Eg; [|done]. rewrite negb_false_iff, Z.eqb_eq.
    specialize (H ltac:(exists pre, gen; done)). rewrite length_app in Hlen. rewrite uwrap_small by (unfold in_unsigned; lia). lia.
Qed.

(** The sanity checks accept exactly the declarations that make sense. *)
Lemma sanity_checks_sensible ts (float_column : option bool) :
  Z.of_nat (length ts) < 2 ^ 64 ->
  sanity_checks (note_all 0 ts initial_state) (length ts) float_column = Ok tt <-> sensible ts float_column.
Proof.
  intros Hlen. pose proof (note_all_describes ts) as Hst. set (st := note_all 0 ts initial_state) in *.
  pose proof (order_checks ts st Hst Hlen) as Horder. pose proof (delta_after_float ts st Hst) as Hdelta.
  destruct Hst as [H1 H2 _ _ H5 _ H7]. unfold sensible. rewrite <- Horder, <- Hdelta. clear Horder Hdelta.
  rewrite <- (existsb_none_of isNone), <- filter_length_all, <- H1, <- H2, <- H7.
  assert (Hfloat : match last_floating_point_time_series_codec_pos st, float_column with
    | Some _, Some is_float => negb is_float | _, _ => false end = false <->
    (float_column = Some false -> none_of isFloatingPointTimeSeriesCodec ts)).
  { destruct (last_floating_point_time_series_codec_pos st) as [j|]; [|by destruct float_column].
    destruct H5 as [(t & Ht & Ef) _]. destruct float_column as [[]|]; try done. split; [done|].
    intros H. pose proof (Forall_lookup_1 _ _ _ _ (H eq_refl) Ht). simpl in *. congruence. }
  rewrite <- Hfloat. clear Hfloat. unfold sanity_checks.
  destruct (Nat.ltb_spec 1 (length ts)), (with_none_codec st), (with_compression_codec st),
    (Nat.eqb_spec (length (encryption_codecs_pos st)) (length ts)); cbn [andb negb]; try intuition (done || lia).
  all: repeat match goal with |- context [if ?b then _ else _] => destruct b end; intuition (done || lia).
Qed.

End Sense.

(** * Validated declarations *)

Section Validated.
Context (factory : CompressionCodecFactory) (default_codec : ICompressionCodec).
Context (same_hash : ICompressionCodec -> ICompressionCodec -> bool) (substreams : DataType -> list IDataType).

(** The codec is one that the declaration stands for, on a column of the type:
    the default codec, or one built for a substream of the column. *)
Definition declares (column_type : option DataType) (child : CodecAST) (codec : ICompressionCodec) : Prop :=
  exists name arguments, inner_codec child = Ok (name, arguments) /\
    if bool_decide (name = DEFAULT_CODEC_NAME) then codec = default_codec /\ arguments = None
    else match column_type with
         | Some column_type =>
             exists type, type ∈ substreams column_type /\ getImpl factory name arguments (Some type) = Ok codec
         | None => getImpl factory name arguments None = Ok codec
         end.

Lemma substream_codecs_last name arguments types prev can codec can' :
  substream_codecs factory same_hash name arguments types prev can = Ok (Some codec, can') ->
  prev = Some codec \/ exists type, type ∈ types /\ getImpl factory name arguments (Some type) = Ok codec.
Proof.
  revert prev can. induction types as [|type types IH]; intros prev can H; cbn [substream_codecs] in H.
  { apply Ok_inj in H. injection H as -> _. by left. }
  apply rbind_Ok in H as (c & Hc & H). apply IH in H as [H|(type' & Hin & H)].
  - injection H as ->. right. exists type. split; [apply elem_of_cons; by left|done].
  - right. exists type'. split; [apply elem_of_cons; by right|done].
Qed.

Lemma validate_inner_declares settings child column_type can codec description can' :
  validate_inner factory default_codec same_hash substreams settings child column_type can = Ok (codec, description, can') ->
  declares column_type child codec.
Proof.
  intros H. unfold validate_inner in H. apply rbind_Ok in H as ([name arguments] & Hin & H).
  exists name, arguments. split; [done|]. destruct (bool_decide (name = DEFAULT_CODEC_NAME)).
  - destruct arguments; [done|]. apply Ok_inj in H. injection H as <- _ _. done.
  - apply rbind_Ok in H as ([c can0] & Hc & H). repeat case_match; try done; apply Ok_inj in H; injection H as -> _ _.
    + apply rbind_Ok in Hc as ([[c0|] can1] & Hs & Hc); [|done]. apply Ok_inj in Hc. injection Hc as -> _.
      apply substream_codecs_last in Hs as [?|?]; done.
    + apply rbind_Ok in Hc as (c0 & Hs & Hc). apply Ok_inj in Hc. injection Hc as -> _. done.
Qed.

Lemma validate_loop_codecs settings children column_type i can descriptions st can' descriptions' st' :
  validate_loop factory default_codec same_hash substreams settings children column_type i can descriptions st =
    Ok (can', descriptions', st') ->
  exists codecs, Forall2 (declares column_type) children codecs /\ st' = note_all i (map traits codecs) st /\
    length descriptions' = (length descriptions + length codecs)%nat.
Proof.
  revert i can descriptions st. induction children as [|child children IH]; intros i can descriptions st H;
    cbn [validate_loop] in H.
  { apply Ok_inj in H. injection H as _ -> ->. exists []. split_and!; [constructor|done|simpl; lia]. }
  apply rbind_Ok in H as ([[codec description] can1] & Hi & H).
  apply IH in H as (codecs & H1 & H2 & H3). exists (codec :: codecs). split_and!.
  - constructor; [by eapply validate_inner_declares|done].
  - done.
  - rewrite H3, length_app. simpl. lia.
Qed.
End Validated.

Lemma sanity_checks_outcome st size float_column :
  sanity_checks st size float_column = Ok tt \/ sanity_checks st size float_column = Throw BAD_ARGUMENTS.
Proof. unfold sanity_checks. repeat case_match; auto. Qed.

(** C39: validation with the sanity checks accepts exactly the declarations that
    make sense for the column.  When every part of the declaration stands for a
    codec, the default one or one that the factory builds for a substream of the
    column, the declaration passes if these codecs in their order are a sensible
    chain: NONE alone, something that compresses, floating point codecs on
    floating point columns and not after a delta codec, transformations first,
    then at most one generic codec, then encryption.  Otherwise it is refused. *)
Theorem validation_exact (factory : CompressionCodecFactory) (default_codec : ICompressionCodec)
    (same_hash : ICompressionCodec -> ICompressionCodec -> bool) (substreams : DataType -> list IDataType)
    (settings : Settings) (children descriptions : list CodecAST) (column_type : option DataType)
    (can_substitute : bool) (st : ValidationState) :
  sanity_check settings = true -> Z.of_nat (length children) < 2 ^ 64 ->
  validate_loop factory default_codec same_hash substreams settings children column_type 0 true [] initial_state =
    Ok (can_substitute, descriptions, st) ->
  exists codecs, Forall2 (declares factory default_codec substreams column_type) children codecs /\
    let chain := sensible (map traits codecs) (option_map innerDataTypeIsFloat column_type) in
    let outcome :=
      validateCodecAndGetPreprocessedAST factory default_codec same_hash substreams settings children column_type in
    chain /\ outcome = Ok (if can_substitute then descriptions else children) \/
    ~ chain /\ outcome = Throw BAD_ARGUMENTS.
Proof.
  intros Hs Hlen H. unfold validateCodecAndGetPreprocessedAST. rewrite H, Hs. cbn [rbind].
  apply validate_loop_codecs in H as (codecs & H1 & -> & H3). exists codecs. split; [done|]. cbv zeta.
  simpl in H3. rewrite H3, <- (length_map traits codecs).
  set (fc := option_map innerDataTypeIsFloat column_type).
  assert (Hex : Z.of_nat (length (map traits codecs)) < 2 ^ 64) by (rewrite length_map; apply Forall2_length in H1; lia).
  pose proof (sanity_checks_sensible _ fc Hex) as Hiff.
  destruct (sanity_checks_outcome (note_all 0 (map traits codecs) initial_state) (length (map traits codecs)) fc)
    as [E|E]; rewrite E in *; [left|right]; (split; [|done]); [by apply Hiff|].
  intros Hc. by apply Hiff in Hc.
Qed.

(** A factory with two codecs, and columns with one substream. *)
Definition small_factory : CompressionCodecFactory := {|
  family_name_with_codec := <["Delta"%string := typed_creator Delta.codec_builder]>
    (<["T64"%string := typed_creator CodecT64.codec_builder]> ∅);
  family_code_with_codec := ∅ |}.

Definition UInt32Type : IDataType := {|
  getTypeId := TypeIndex.UInt32; isValueUnambiguouslyRepresentedInFixedSizeContiguousMemoryRegion := true;
  getSizeOfValueInMemory := 4 |}.

Definition simple_substreams (type : DataType) : list IDataType :=
  match type with Simple type => [type] | _ => [] end.

Definition checked : Settings := {|
  sanity_check := true; allow_experimental_codecs := false; enable_deflate_qpl_codec := false;
  enable_zstd_qat_codec := false |}.

Definition delta_t64_state : ValidationState := {|
  with_compression_codec := true; with_none_codec := false; first_generic_compression_codec_pos := None;
  first_delta_codec_pos := Some 0%nat; last_floating_point_time_series_codec_pos := None; encryption_codecs_pos := [] |}.

(** [CODEC(Delta, T64)] on a column [UInt32]. *)
Lemma validation_exact_witness :
  exists codecs, Forall2 (declares small_factory CompressionCodecNone simple_substreams (Some (Simple UInt32Type)))
      [ASTIdentifier "Delta"; ASTIdentifier "T64"] codecs /\
    let chain := sensible (map traits codecs) (Some false) in
    let outcome := validateCodecAndGetPreprocessedAST small_factory CompressionCodecNone (fun _ _ => true)
      simple_substreams checked [ASTIdentifier "Delta"; ASTIdentifier "T64"] (Some (Simple UInt32Type)) in
    chain /\ outcome = Ok [ASTFunction "Delta" [UInt64Literal 4]; ASTIdentifier "T64"] \/
    ~ chain /\ outcome = Throw BAD_ARGUMENTS.
Proof.
  apply (validation_exact small_factory CompressionCodecNone (fun _ _ => true) simple_substreams checked
    [ASTIdentifier "Delta"; ASTIdentifier "T64"] [ASTFunction "Delta" [UInt64Literal 4]; ASTIdentifier "T64"]
    (Some (Simple UInt32Type)) true delta_t64_state); [reflexivity|reflexivity|vm_compute; reflexivity].
Defined.

(** * Descriptions *)

(** The codec of a family, from its name and arguments as in a declaration. *)
Definition built_by (factory : CompressionCodecFactory) (type : option IDataType) (ast : CodecAST)
  : result ICompressionCodec :=
  let! inner := inner_codec ast in getImpl factory inner.1 inner.2 type.

(** The families with a description that determines the codec, with their creators. *)
Definition described_families (lib : LZ4Library) (env : LZ4Surroundings) (boost_gcd libdivide_divide : Z -> Z -> Z)
    (statics : option Z) : list (string * CreatorWithType) := [
  ("NONE", simple_creator CompressionCodecNone);
  ("LZ4", simple_creator (CompressionCodecLZ4 lib env));
  ("LZ4HC", typed_creator (fun arguments _ => lz4hc_builder lib env arguments));
  ("Delta", typed_creator Delta.codec_builder);
  ("T64", typed_creator CodecT64.codec_builder);
  ("Gorilla", typed_creator (CodecGorilla.codec_builder statics));
  ("GCD", typed_creator (GCD.codec_builder boost_gcd libdivide_divide))]%string.

Lemma delta_rebuilt size type :
  existsb (Z.eqb size) Delta.sizes = true ->
  typed_creator Delta.codec_builder (Some [UInt64Literal size]) type = Ok (Delta.CompressionCodecDelta size).
Proof.
  intros Hs. unfold typed_creator, Delta.codec_builder. cbn [default from_option id]. rewrite Hs. cbn [negb rbind].
  rewrite uwrap_small; [done|]. pose proof (Delta.delta_sizes_range size Hs). unfold in_unsigned. lia.
Qed.

Lemma gorilla_rebuilt statics size type :
  existsb (Z.eqb size) CodecGorilla.sizes = true ->
  typed_creator (CodecGorilla.codec_builder statics) (Some [UInt64Literal size]) type =
  Ok (CompressionCodecGorilla statics size).
Proof.
  intros Hs. unfold typed_creator, CodecGorilla.codec_builder. cbn [default from_option id]. rewrite Hs. cbn [negb rbind].
  rewrite uwrap_small; [done|]. pose proof (gorilla_sizes_cases size Hs). unfold in_unsigned. lia.
Qed.

Lemma lz4hc_level lib env args c :
  lz4hc_builder lib env args = Ok c -> exists level, in_signed 32 level /\ c = CompressionCodecLZ4HC lib env level.
Proof.
  unfold lz4hc_builder. builder_sizes; eexists; (split; [|done]); try (apply swrap_range; lia); unfold in_signed; lia.
Qed.

Lemma lz4hc_rebuilt lib env level :
  in_signed 32 level ->
  lz4hc_builder lib env [UInt64Literal (uwrap 64 level)] = Ok (CompressionCodecLZ4HC lib env level).
Proof.
  intros Hl. unfold lz4hc_builder. cbn [safeGet_UInt64 rbind]. do 2 f_equal.
  destruct (uwrap_multiple 64 level ltac:(lia)) as [k ->].
  replace (level + k * 2 ^ 64) with (level + (k * 2 ^ 32) * 2 ^ 32) by lia.
  rewrite <- swrap_uwrap, uwrap_add_multiple, swrap_uwrap by lia. by apply swrap_small.
Qed.

Lemma t64_rebuilt arguments type idx variant :
  CodecT64.codec_builder arguments type = Ok (CompressionCodecT64 idx variant) ->
  CodecT64.codec_builder (match variant with Byte => [] | Bit => [StringLiteral "bit"] end) type =
  Ok (CompressionCodecT64 idx variant).
Proof.
  unfold CodecT64.codec_builder. intros H. apply rbind_Ok in H as (v & _ & H).
  assert (v = variant) as ->.
  { assert (Hd : forall i, CompressionCodecT64 i v = CompressionCodecT64 idx variant -> v = variant).
    { intros i E. apply (f_equal full_codec_desc) in E. by destruct v, variant. }
    destruct type as [type|]; [|apply Ok_inj in H; by eapply Hd].
    destruct (typeIdx _); try done; apply Ok_inj in H; by eapply Hd. }
  destruct variant; simpl; exact H.
Qed.

(** The description a declaration is replaced with stands for the same codec:
    a codec of these families, built for a column type with whatever arguments,
    is built again from its description. *)
Theorem description_roundtrip (factory : CompressionCodecFactory) (lib : LZ4Library) (env : LZ4Surroundings)
    (boost_gcd libdivide_divide : Z -> Z -> Z)
    (statics : option Z) (type : option IDataType) (name : string) (creator : CreatorWithType)
    (arguments : option (list CodecArgument)) (codec : ICompressionCodec) :
  (forall n c, In (n, c) (described_families lib env boost_gcd libdivide_divide statics) ->
    family_name_with_codec factory !! n = Some c) ->
  In (name, creator) (described_families lib env boost_gcd libdivide_divide statics) ->
  creator arguments type = Ok codec -> built_by factory type (getCodecDesc codec) = Ok codec.
Proof.
  intros Hf Hin H.
  assert (Hget : forall n c args, In (n, c) (described_families lib env boost_gcd libdivide_divide statics) ->
    getImpl factory n args type = c args type).
  { intros n c args Hn. pose proof (Hf n c Hn) as E. unfold getImpl, CreatorWithType in *. rewrite bool_decide_eq_false_2, E; [done|].
    intros ->. by simpl in Hn; intuition congruence. }
  assert (rebuilt : forall n c args, In (n, c) (described_families lib env boost_gcd libdivide_divide statics) ->
    built_by factory type (ASTFunction n args) = c (Some args) type) by (intros n c args Hn; by apply Hget).
  assert (rebuilt_identifier : forall n c, In (n, c) (described_families lib env boost_gcd libdivide_divide statics) ->
    built_by factory type (ASTIdentifier n) = c None type) by (intros n c Hn; by apply Hget).
  clear Hget. pose proof Hin as Hin'. simpl in Hin'.
  destruct Hin' as [E|[E|[E|[E|[E|[E|[E|[]]]]]]]]; injection E as <- <-.
  - unfold simple_creator in H. destruct arguments; [done|]. apply Ok_inj in H as <-. exact (rebuilt_identifier _ _ Hin).
  - unfold simple_creator in H. destruct arguments; [done|]. apply Ok_inj in H as <-. exact (rebuilt_identifier _ _ Hin).
  - apply lz4hc_level in H as (level & Hl & ->).
    exact (eq_trans (rebuilt _ _ [UInt64Literal (uwrap 64 level)] Hin) (lz4hc_rebuilt lib env level Hl)).
  - apply delta_built in H as (size & Hs & ->). exact (eq_trans (rebuilt _ _ [UInt64Literal size] Hin) (delta_rebuilt size type Hs)).
  - pose proof H as H'. apply t64_built in H' as (idx & variant & ->).
    destruct variant.
    + exact (eq_trans (rebuilt_identifier _ _ Hin) (t64_rebuilt _ _ _ _ H)).
    + exact (eq_trans (rebuilt _ _ [StringLiteral "bit"] Hin) (t64_rebuilt _ _ _ _ H)).
  - apply gorilla_built in H as (size & Hs & ->).
    exact (eq_trans (rebuilt _ _ [UInt64Literal size] Hin) (gorilla_rebuilt statics size type Hs)).
  - pose proof H as H'. apply gcd_built in H' as (size & _ & ->). refine (eq_trans (rebuilt_identifier _ _ Hin) _).
    unfold typed_creator in *. destruct (default [] arguments); [done|discriminate H].
Qed.

Definition described_factory : CompressionCodecFactory := {|
  family_name_with_codec :=
    <["NONE"%string := simple_creator CompressionCodecNone]>
    (<["LZ4"%string := simple_creator (CompressionCodecLZ4 literal_library plain_surroundings)]>
    (<["LZ4HC"%string := typed_creator (fun arguments _ => lz4hc_builder literal_library plain_surroundings arguments)]>
    (<["Delta"%string := typed_creator Delta.codec_builder]>
    (<["T64"%string := typed_creator CodecT64.codec_builder]>
    (<["Gorilla"%string := typed_creator (CodecGorilla.codec_builder None)]>
    (<["GCD"%string := typed_creator (GCD.codec_builder Z.gcd Z.div)]>
    (<["DoubleDelta"%string := typed_creator CodecDoubleDelta.codec_builder]> ∅)))))));
  family_code_with_codec := ∅ |}.

Lemma description_roundtrip_witness :
  built_by described_factory (Some UInt32Type) (ASTFunction "Delta" [UInt64Literal 4]) =
  Ok (Delta.CompressionCodecDelta 4).
Proof.
  apply (description_roundtrip described_factory literal_library plain_surroundings Z.gcd Z.div None (Some UInt32Type) "Delta"
    (typed_creator Delta.codec_builder) None (Delta.CompressionCodecDelta 4));
    [|simpl; tauto|reflexivity].
  intros n c H. simpl in H. unfold described_factory. cbn [family_name_with_codec].
  destruct H as [E|[E|[E|[E|[E|[E|[E|[]]]]]]]]; injection E as <- <-;
    rewrite ?lookup_insert_eq; repeat (rewrite lookup_insert_ne by discriminate; rewrite ?lookup_insert_eq); reflexivity.
Defined.

(** The description of DoubleDelta drops its argument: a codec declared with
    the size of values [user_size], on a column of values of another size, is
    replaced with a description that stands for the codec of the size of the
    column. *)
Theorem double_delta_argument_lost (factory : CompressionCodecFactory) (type : IDataType) (user_size : Z) :
  family_name_with_codec factory !! "DoubleDelta"%string = Some (typed_creator CodecDoubleDelta.codec_builder) ->
  isValueUnambiguouslyRepresentedInFixedSizeContiguousMemoryRegion type = true ->
  In user_size CodecDoubleDelta.sizes -> In (getSizeOfValueInMemory type) CodecDoubleDelta.sizes ->
  exists codec, built_by factory (Some type) (ASTFunction "DoubleDelta" [UInt64Literal user_size]) = Ok codec /\
    codec = CompressionCodecDoubleDelta user_size /\
    built_by factory (Some type) (getCodecDesc codec) = Ok (CompressionCodecDoubleDelta (getSizeOfValueInMemory type)).
Proof.
  intros Hf Hfixed Hu Hs. exists (CompressionCodecDoubleDelta user_size).
  assert (Hget : forall args, getImpl factory "DoubleDelta" args (Some type) =
    typed_creator CodecDoubleDelta.codec_builder args (Some type)).
  { intros args. unfold getImpl, CreatorWithType in *. by rewrite bool_decide_eq_false_2, Hf. }
  assert (Hin : forall s, In s CodecDoubleDelta.sizes -> existsb (Z.eqb s) CodecDoubleDelta.sizes = true /\ uwrap 8 s = s).
  { intros s Hin. split; [apply existsb_exists; exists s; by rewrite Z.eqb_refl|]. apply uwrap_small. unfold in_unsigned.
    simpl in Hin. lia. }
  split_and!; [|done|].
  - refine (eq_trans (Hget (Some [UInt64Literal user_size])) _). destruct (Hin user_size Hu) as [E1 E2].
    unfold typed_creator, CodecDoubleDelta.codec_builder. cbn [default from_option id]. by rewrite E1, E2.
  - refine (eq_trans (Hget None) _). destruct (Hin _ Hs) as [E1 E2].
    unfold typed_creator, CodecDoubleDelta.codec_builder, CodecDoubleDelta.getDataBytesSize. cbn [default from_option id].
    by rewrite Hfixed, E1, E2.
Qed.

(** [DoubleDelta(1)] on a column [UInt32]. *)
Lemma double_delta_argument_lost_witness :
  exists codec, built_by described_factory (Some UInt32Type) (ASTFunction "DoubleDelta" [UInt64Literal 1]) = Ok codec /\
    codec = CompressionCodecDoubleDelta 1 /\
    built_by described_factory (Some UInt32Type) (getCodecDesc codec) = Ok (CompressionCodecDoubleDelta 4).
Proof.
  apply (double_delta_argument_lost described_factory UInt32Type 1); [|reflexivity|simpl; tauto|simpl; tauto].
  unfold described_factory. cbn [family_name_with_codec].
  repeat (rewrite lookup_insert_ne by discriminate; rewrite ?lookup_insert_eq). reflexivity.
Defined.
