(* ===== verification/HashingBuffer.v ===== *)
(** Hashing of the data that passes through a buffer (src/IO/HashingWriteBuffer.{h,cpp},
    src/IO/HashingReadBuffer.h): a hash over blocks of fixed size, whatever the pieces
    the data arrives in. *)
From S2P Require Import Prelude IntText BinaryIO ReadBuffer ReadBufferFromFile WriteBuffer Codec.

Section Hashing.
(** [CityHash_v1_0_2::CityHash128WithSeed] of the library cityhash102. *)
Context (CityHash128WithSeed : bytes -> Z * Z -> Z * Z).

(** * [IHashingBuffer] *)

Record Hasher := {
  block_memory : bytes;
  block_pos : Z;
  block_size : Z;
  hash_state : Z * Z }.

Definition DBMS_DEFAULT_HASHING_BLOCK_SIZE : Z := 2048.

(** The constructor, with memory of [block_size] bytes. *)
Definition new_hasher (fresh : nat -> bytes) (block_size_ : Z) : Hasher :=
  {| block_memory := fresh (Z.to_nat block_size_); block_pos := 0; block_size := block_size_; hash_state := (0, 0) |}.

Definition hasher_getHash (h : Hasher) : Z * Z :=
  if block_pos h =? 0 then hash_state h
  else CityHash128WithSeed (take (Z.to_nat (block_pos h)) (block_memory h)) (hash_state h).

(** [memcpy(&memory[at], data, data.size())] *)
Definition memcpy_to (at_ : Z) (data : bytes) (h : Hasher) : Hasher :=
  {| block_memory := take (Z.to_nat at_) (block_memory h) ++ data ++ drop (Z.to_nat at_ + length data) (block_memory h);
     block_pos := block_pos h; block_size := block_size h; hash_state := hash_state h |}.

Definition set_block_pos (n : Z) (h : Hasher) : Hasher :=
  {| block_memory := block_memory h; block_pos := n; block_size := block_size h; hash_state := hash_state h |}.

(** [append] *)
Definition hash_append (data : bytes) (h : Hasher) : Hasher :=
  {| block_memory := block_memory h; block_pos := block_pos h; block_size := block_size h;
     hash_state := CityHash128WithSeed (take (Z.to_nat (block_size h)) data) (hash_state h) |}.

(** The loop over the complete blocks of [data]: what is left of it. *)
Fixpoint hash_loop (fuel : nat) (data : bytes) (h : Hasher) : bytes * Hasher :=
  match fuel with
  | O => (data, h)
  | S fuel =>
      if size_of data <? block_size h then (data, h)
      else hash_loop fuel (drop (Z.to_nat (block_size h)) data) (hash_append data h)
  end.

Definition calculateHash (data : bytes) (h : Hasher) : Hasher :=
  if size_of data =? 0 then h
  else if block_pos h + size_of data <? block_size h then
    set_block_pos (block_pos h + size_of data) (memcpy_to (block_pos h) data h)
  else
    let (data, h) :=
      if block_pos h =? 0 then (data, h)
      else
        let n := Z.to_nat (block_size h - block_pos h) in
        let h := memcpy_to (block_pos h) (take n data) h in
        (drop n data, set_block_pos 0 (hash_append (block_memory h) h)) in
    let (data, h) := hash_loop (length data) data h in
    if size_of data =? 0 then h else set_block_pos (size_of data) (memcpy_to 0 data h).

(** ** The hash of the data as a whole *)

Fixpoint absorb (n : nat) (bs : nat) (data : bytes) (st : Z * Z) : Z * Z :=
  match n with
  | O => st
  | S n => absorb n bs (drop bs data) (CityHash128WithSeed (take bs data) st)
  end.

(** The complete blocks one after another, and then the rest if there is one. *)
Definition hash_of (bs : nat) (data : bytes) : Z * Z :=
  let n := (length data / bs)%nat in
  let rest := drop (n * bs) data in
  let st := absorb n bs data (0, 0) in
  if bool_decide (rest = []) then st else CityHash128WithSeed rest st.

Lemma absorb_app n bs xs ys st : length xs = (n * bs)%nat -> absorb n bs (xs ++ ys) st = absorb n bs xs st.
Proof.
  revert xs st. induction n as [|n IH]; intros xs st Hl; [done|]. simpl. rewrite take_app_le, drop_app_le by lia.
  apply IH. simpl_len. lia.
Qed.

Lemma absorb_add n m bs xs ys st :
  length xs = (n * bs)%nat -> absorb (n + m) bs (xs ++ ys) st = absorb m bs ys (absorb n bs xs st).
Proof.
  revert xs st. induction n as [|n IH]; intros xs st Hl; [by destruct xs|]. simpl in *. rewrite take_app_le, drop_app_le by lia.
  apply IH. simpl_len. lia.
Qed.

(** The state after hashing [data]. *)
Record hashed (bs : nat) (h : Hasher) (data : bytes) : Prop := {
  hashed_size : block_size h = Z.of_nat bs;
  hashed_positive : (0 < bs)%nat;
  hashed_memory : length (block_memory h) = bs;
  hashed_blocks : exists n full rest, data = full ++ rest /\ length full = (n * bs)%nat /\
    hash_state h = absorb n bs full (0, 0) /\ block_pos h = size_of rest /\ (length rest < bs)%nat /\
    take (length rest) (block_memory h) = rest }.

Lemma new_hasher_hashed fresh bs :
  (forall n, length (fresh n) = n) -> (0 < bs)%nat -> hashed bs (new_hasher fresh (Z.of_nat bs)) [].
Proof. intros Hf Hb. split; simpl; [done|done|by rewrite Nat2Z.id, Hf|]. exists 0%nat, [], []. split_and!; try done; simpl; lia. Qed.

Lemma hashed_getHash bs h data : hashed bs h data -> hasher_getHash h = hash_of bs data.
Proof.
  intros [Hs Hp Hm (n & full & rest & -> & Hf & Hst & Hpos & Hr & Hmem)]. unfold hasher_getHash, hash_of.
  assert (E : ((length (full ++ rest)) / bs)%nat = n).
  { symmetry. apply Nat.div_unique with (r := length rest); [done|]. simpl_len. lia. }
  rewrite E, Hst, Hpos, Nat2Z.id, Hmem. rewrite (drop_app_length' full rest) by lia. rewrite (absorb_app n bs full rest) by done.
  destruct rest; [by rewrite bool_decide_eq_true_2|]. rewrite bool_decide_eq_false_2 by done.
  by destruct (Z.eqb_spec (size_of (z :: rest)) 0); [simpl in *; lia|].
Qed.

(** The complete blocks. *)
Lemma hash_loop_spec bs fuel data h :
  block_size h = Z.of_nat bs -> (0 < bs)%nat -> (length data <= fuel)%nat ->
  exists n full rest st, data = full ++ rest /\ length full = (n * bs)%nat /\ (length rest < bs)%nat /\
    hash_loop fuel data h = (rest, {| block_memory := block_memory h; block_pos := block_pos h; block_size := block_size h;
      hash_state := st |}) /\ st = absorb n bs full (hash_state h).
Proof.
  intros Hs Hb. revert data h Hs. induction fuel as [|fuel IH]; intros data h Hs Hf; cbn [hash_loop].
  { destruct data; [|simpl in Hf; lia]. exists 0%nat, [], [], (hash_state h). split_and!; try done. by destruct h. }
  destruct (Z.ltb_spec (size_of data) (block_size h)) as [Hlt|Hge].
  { exists 0%nat, [], data, (hash_state h). split_and!; try done; [lia|by destruct h]. }
  replace (Z.to_nat (block_size h)) with bs by lia. destruct (IH (drop bs data) (hash_append data h)) as (n & full & rest & st & E & Hl & Hr & -> & ->);
    [done|simpl_len; lia|].
  exists (S n), (take bs data ++ full), rest. eexists. split_and!; [by rewrite <- app_assoc, <- E, take_drop|simpl_len; lia|done|done|].
  simpl. rewrite Hs, Nat2Z.id. assert (bs = length (take bs data)) by (simpl_len; lia).
  by rewrite take_app_length', drop_app_length' by done.
Qed.

(** The rest of the data after complete blocks goes to the memory. *)
Lemma hashed_rest bs n full rest h :
  block_size h = Z.of_nat bs -> (0 < bs)%nat -> length (block_memory h) = bs -> length full = (n * bs)%nat ->
  hash_state h = absorb n bs full (0, 0) -> block_pos h = 0 -> (length rest < bs)%nat ->
  hashed bs (if size_of rest =? 0 then h else set_block_pos (size_of rest) (memcpy_to 0 rest h)) (full ++ rest).
Proof.
  intros Hs Hb Hm Hl Hst Hp Hr. destruct (Z.eqb_spec (size_of rest) 0) as [E|E].
  - destruct rest; [|done]. split; try done. exists n, full, []. split_and!; try done.
  - split; try done; simpl; [simpl_len; lia|]. exists n, full, rest. split_and!; try done. by rewrite take_app_length.
Qed.

Lemma calculateHash_spec bs h data more : hashed bs h data -> hashed bs (calculateHash more h) (data ++ more).
Proof.
  intros [Hs Hp Hm (n & full & rest & -> & Hf & Hst & Hpos & Hr & Hmem)]. unfold calculateHash.
  destruct (Z.eqb_spec (size_of more) 0) as [E|E].
  { destruct more; [|done]. rewrite app_nil_r. split; try done. by exists n, full, rest. }
  rewrite Hpos, Hs. destruct (Z.ltb_spec (size_of rest + size_of more) (Z.of_nat bs)) as [Hlt|Hge].
  { split; simpl; try done; rewrite Nat2Z.id; [simpl_len; lia|]. exists n, full, (rest ++ more). rewrite Hmem.
    split_and!; [by rewrite app_assoc|done|done|simpl_len; lia|simpl_len; lia|by rewrite app_assoc, take_app_length]. }
  destruct (Z.eqb_spec (size_of rest) 0) as [E0|E0].
  - destruct rest; [|done]. rewrite app_nil_r.
    destruct (hash_loop_spec bs (length more) more h) as (m & full' & rest' & st & -> & Hl & Hr' & -> & ->); try done.
    rewrite app_assoc. apply (hashed_rest bs (n + m)); try done; [simpl_len; lia|]. simpl. by rewrite absorb_add, Hst.
  - set (k := Z.to_nat (Z.of_nat bs - size_of rest)). set (h1 := set_block_pos 0 _).
    assert (Hh1 : hash_state h1 = absorb (n + 1) bs (full ++ (rest ++ take k more)) (0, 0)).
    { rewrite absorb_add by done. simpl. rewrite Hs, !Nat2Z.id, Hmem, Hst, app_assoc.
      rewrite (take_app_length' (rest ++ take k more)) by (simpl_len; lia).
      by rewrite (take_ge (rest ++ take k more)) by (simpl_len; lia). }
    assert (Hm1 : length (block_memory h1) = bs) by (simpl; rewrite Nat2Z.id; simpl_len; lia).
    destruct (hash_loop_spec bs (length (drop k more)) (drop k more) h1) as (m & full' & rest' & st & Em & Hl & Hr' & -> & ->); try done.
    assert (Ed : (full ++ rest) ++ more = (full ++ (rest ++ take k more)) ++ full' ++ rest') by
      (rewrite <- !app_assoc, <- Em, take_drop; done).
    rewrite Ed, app_assoc. apply (hashed_rest bs (n + 1 + m)); try done; [simpl_len; lia|].
    cbn [hash_state]. rewrite (absorb_add (n + 1)) by (simpl_len; lia). by rewrite Hh1.
Qed.

(** * [HashingWriteBuffer] *)

Section Write.
Context {S : Type} (O : WriteImpl S).

Record HashingWriteBuffer := {
  h_out : WriteBuffer S;
  h_hasher : Hasher }.

Implicit Types b : WriteBuffer HashingWriteBuffer.

(** [working_buffer = out.buffer()] *)
Definition share_buffer (o : WriteBuffer S) (h : Hasher) b : WriteBuffer HashingWriteBuffer :=
  {| pending := pending b; capacity := capacity o; written_before := written_before b;
     w_nextimpl_offset := w_nextimpl_offset b; finalized := finalized b; canceled := canceled b;
     w_impl := {| h_out := o; h_hasher := h |} |}.

(** [nextImpl]: the data is in the memory of the other buffer, whose cursor is moved
    behind it. *)
Definition hw_nextImpl b : outcome (WriteBuffer HashingWriteBuffer) :=
  let h := calculateHash (pending b) (h_hasher (w_impl b)) in
  match w_next O (set_pending (pending b) (h_out (w_impl b))) with
  | (Throw e, o) => (Throw e, set_w_impl {| h_out := o; h_hasher := h |} b)
  | (Ok _, o) => (Ok tt, share_buffer o h b)
  end.

Definition ToHashing : WriteImpl HashingWriteBuffer := {|
  w_nextImpl := hw_nextImpl;
  cancelImpl b := b |}.

(** The constructor *)
Definition hw_create (fresh : nat -> bytes) (out_ : WriteBuffer S) (block_size_ : Z) : outcome (WriteBuffer HashingWriteBuffer) :=
  let (r, o) := w_next O out_ in
  (r, {| pending := []; capacity := capacity o; written_before := 0; w_nextimpl_offset := 0; finalized := false;
         canceled := false; w_impl := {| h_out := o; h_hasher := new_hasher fresh block_size_ |} |}).

Definition hw_getHash b : outcome (WriteBuffer HashingWriteBuffer) * (Z * Z) :=
  let r := w_next ToHashing b in (r, hasher_getHash (h_hasher (w_impl r.2))).

Context (oinv : WriteBuffer S -> bytes -> Prop) `{!WriterSpec O oinv}.
(** What the other buffer holds already, and the size of the blocks. *)
Context (base : bytes) (bs : nat).

(** The data [before] passed on is hashed; the rest is in the memory of the other
    buffer. *)
Definition hw_frame b (before data : bytes) : Prop :=
  data = before ++ pending b /\ hashed bs (h_hasher (w_impl b)) before /\ pending (h_out (w_impl b)) = [] /\
  capacity b = capacity (h_out (w_impl b)) /\ w_offset b <= capacity b /\ is_bytes (pending b) /\
  w_nextimpl_offset b = 0 /\ finalized b = false /\ canceled b = false /\ w_count b = uwrap 64 (size_of data).

Definition hw_inv b (data : bytes) : Prop :=
  exists before, oinv (h_out (w_impl b)) (base ++ before) /\ hw_frame b before data.

Lemma hw_push_frame b before data xs :
  hw_frame b before data -> is_bytes xs -> Z.of_nat (length xs) <= w_available b -> hw_frame (push xs b) before (data ++ xs).
Proof.
  intros (Hd & Hh & Hp & Hc & Hcap & Hb & Hn & Hf & Hcan & Hcnt) Hx Ha. unfold hw_frame.
  pose proof (push_count b data xs Hcnt) as Hcnt'. rewrite Hd in *. rewrite <- app_assoc in *.
  unfold w_available, w_offset in *. simpl in *. simpl_len. rewrite is_bytes_app. split_and!; try done; lia.
Qed.

(** [nextImpl] is [next] of the other buffer with the data in it. *)
Lemma hw_next_frame b before data o :
  hw_frame b before data -> w_next O (push (pending b) (h_out (w_impl b))) = (Ok tt, o) -> pending o = [] -> 0 < capacity o ->
  exists b', hw_nextImpl b = (Ok tt, b') /\ h_out (w_impl b') = o /\ hw_frame (passed (w_offset b) b') data data /\
    pending (passed (w_offset b) b') = [].
Proof.
  intros (Hd & Hh & Hp & Hc & Hcap & Hb & Hn & Hf & Hcan & Hcnt) E Hpo Hco. unfold hw_nextImpl.
  replace (set_pending _ _) with (push (pending b) (h_out (w_impl b))) by (unfold push; by rewrite Hp).
  rewrite E. eexists. split; [done|]. set (b2 := share_buffer o _ b).
  assert (Epass : pending (passed (w_offset b) b2) = []) by (simpl; by rewrite Hn).
  split_and!; [done| |done]. unfold hw_frame. rewrite passed_count, Epass, app_nil_r by done. simpl.
  assert (w_offset (passed (w_offset b) b2) = 0) by (unfold w_offset at 1; by rewrite Epass).
  split_and!; try done; try lia; [|by apply Forall_nil_2]. rewrite Hd. by apply calculateHash_spec.
Qed.

Lemma hw_room b before data : hw_frame b before data -> size_of (pending b) <= w_available (h_out (w_impl b)).
Proof.
  intros (_ & _ & Hp & Hc & Hcap & _). unfold w_available, w_offset in *. rewrite Hp. simpl. lia.
Qed.

#[export] Instance hashing_writer : WriterSpec ToHashing hw_inv.
Proof.
  split.
  - intros b data (before & Ho & _ & _ & _ & Hc & Hcap & _ & _ & Hf & Hcan & _).
    destruct (winv_bounds _ _ Ho) as (_ & ? & _). split_and!; try done; lia.
  - intros b data xs (before & Ho & H) Hx Ha. exists before. split; [done|]. by apply hw_push_frame.
  - intros b data (before & Ho & H) Hne. pose proof H as (Hd & _ & _ & _ & _ & Hb & _).
    assert (Ho1 : oinv (push (pending b) (h_out (w_impl b))) (base ++ data)).
    { rewrite Hd, app_assoc. apply winv_push; [done|done|by eapply hw_room]. }
    destruct (w_next_spec O oinv _ _ Ho1) as (o2 & E & Ho2 & Hp2). destruct (winv_bounds _ _ Ho2) as (_ & ? & _).
    destruct (hw_next_frame b before data o2 H E Hp2) as (b' & E' & Hout & Hfr & Hp); [done|]. exists b'.
    split_and!; [done| |done]. exists data. change (w_impl (passed _ _)) with (w_impl b'). by rewrite Hout.
  - by intros b data (? & _ & _ & _ & _ & _ & _ & _ & _ & _ & _ & ?).
Qed.

(** [getHash] is the hash of all the data, however it was written. *)
Lemma hw_getHash_spec b data : hw_inv b data ->
  exists b', hw_getHash b = ((Ok tt, b'), hash_of bs data) /\ hw_inv b' data /\ pending b' = [].
Proof.
  intros H. unfold hw_getHash. destruct (w_next_spec ToHashing hw_inv b data H) as (b' & -> & H' & Hp). exists b'.
  split_and!; [|done|done]. simpl. pose proof H' as (before & _ & -> & Hh & _). rewrite Hp, app_nil_r. f_equal.
  by apply hashed_getHash.
Qed.

End Write.
Arguments h_out {_}.
Arguments h_hasher {_}.

(** A buffer made over another one accepts data after what that has. *)
Lemma hw_create_inv {S} (O : WriteImpl S) oinv `{!WriterSpec O oinv} fresh bs o data :
  (forall n, length (fresh n) = n) -> (0 < bs)%nat -> oinv o data ->
  exists b, hw_create O fresh o (Z.of_nat bs) = (Ok tt, b) /\ hw_inv oinv data bs b [].
Proof.
  intros Hf Hb Ho. unfold hw_create. destruct (w_next_spec O oinv o data Ho) as (o' & -> & Ho' & Hp). eexists. split; [done|].
  exists []. destruct (winv_bounds _ _ Ho') as (_ & ? & _). unfold hw_frame, w_offset, w_count. simpl. rewrite app_nil_r.
  split_and!; try done; [by apply new_hasher_hashed|lia|by apply Forall_nil_2].
Qed.

(** * [HashingReadBuffer] *)

Section Read.
Context {S : Type} (I : ReadImpl S).

Record HashingReadBuffer := {
  hr_in : ReadBuffer S;
  hr_hasher : Hasher;
  hashing_begin : Z }.

Implicit Types b : ReadBuffer HashingReadBuffer.

(** The bytes from [hashing_begin] to the cursor are hashed. *)
Definition hash_pending b : Hasher :=
  let s := impl b in
  if hashing_begin s <? pos b then
    calculateHash (take (Z.to_nat (pos b - hashing_begin s)) (drop (Z.to_nat (hashing_begin s)) (working_buffer b))) (hr_hasher s)
  else hr_hasher s.

Definition hr_nextImpl b : result (bool * ReadBuffer HashingReadBuffer) :=
  let h := hash_pending b in
  let! (res, i) := next I (set_pos (pos b) (hr_in (impl b))) in
  Ok (res, set_working (working_buffer i) (pos i)
             (set_impl {| hr_in := i; hr_hasher := h; hashing_begin := pos i |} b)).

Definition FromHashing : ReadImpl HashingReadBuffer := {|
  nextImpl := hr_nextImpl;
  bound s := bound I (impl (hr_in s)) |}.

(** The constructor *)
Definition hr_create (fresh : nat -> bytes) (in_ : ReadBuffer S) (block_size_ : Z) : ReadBuffer HashingReadBuffer := {|
  working_buffer := working_buffer in_; pos := pos in_; bytes_before := 0; nextimpl_working_buffer_offset := 0;
  impl := {| hr_in := in_; hr_hasher := new_hasher fresh block_size_; hashing_begin := pos in_ |} |}.

Definition hr_getHash b : (Z * Z) * ReadBuffer HashingReadBuffer :=
  let s := impl b in
  let h := hash_pending b in
  (hasher_getHash h,
   if hashing_begin s <? pos b
   then set_impl {| hr_in := hr_in s; hr_hasher := h; hashing_begin := pos b |} b else b).

Context (iinv : ReadBuffer S -> bytes -> Prop) `{!ReaderSpec I iinv} `{!WholePieces I iinv}.
(** The data as a whole, and the size of the blocks. *)
Context (total : bytes) (bs : nat).

(** The pieces before the current one are hashed, and the bytes are counted. *)
Definition hr_inv b (data : bytes) : Prop :=
  iinv (set_pos (pos b) (hr_in (impl b))) data /\ working_buffer b = working_buffer (hr_in (impl b)) /\
  hashing_begin (impl b) = 0 /\ nextimpl_working_buffer_offset b = 0 /\
  (exists before, hashed bs (hr_hasher (impl b)) before /\ total = before ++ take (Z.to_nat (pos b)) (working_buffer b) ++ data) /\
  count b = uwrap 64 (size_of total - size_of data).

Lemma hash_pending_spec b data : hr_inv b data ->
  exists before, hashed bs (hash_pending b) before /\ total = before ++ data.
Proof.
  intros (Hi & Hw & Hb & Hn & (before & Hh & Ht) & _). exists (before ++ take (Z.to_nat (pos b)) (working_buffer b)).
  rewrite <- app_assoc. split; [|done]. unfold hash_pending. rewrite Hb, Z.sub_0_r, drop_0.
  destruct (Z.ltb_spec 0 (pos b)); [by apply calculateHash_spec|]. replace (Z.to_nat (pos b)) with 0%nat by lia. by rewrite app_nil_r.
Qed.

Lemma hr_bounds b data : hr_inv b data -> 0 <= pos b <= size_working b /\ size_working b < 2 ^ 63.
Proof. intros (Hi & Hw & _). apply inv_bounds in Hi. unfold size_working in *. simpl in *. by rewrite Hw. Qed.

(** Moving the cursor keeps what was read and what is to come together. *)
Lemma hr_moved b p data later :
  hr_inv b data -> data = drop (Z.to_nat (pos b)) (working_buffer b) ++ later -> 0 <= p <= size_working b ->
  iinv (set_pos p (hr_in (impl b))) (drop (Z.to_nat p) (working_buffer b) ++ later) ->
  hr_inv (set_pos p b) (drop (Z.to_nat p) (working_buffer b) ++ later).
Proof.
  intros H Hd Hp Hi'. pose proof (hr_bounds b data H) as [Hpos Hs]. destruct H as (Hi & Hw & Hb & Hn & (before & Hh & Ht) & Hc).
  unfold size_working in *. split_and!; simpl; try done.
  - exists before. split; [done|]. by rewrite Ht, Hd, !(app_assoc (take _ _)), !take_drop.
  - unfold count, offset, uwrap in *. simpl. rewrite Hd in Hc. simpl_len.
    rewrite Zplus_mod_idemp_r in Hc |- *. pose proof (f_equal (fun z => (z + (p - pos b)) mod 2 ^ 64) Hc) as E. simpl in E.
    rewrite !Zplus_mod_idemp_l in E.
    replace (bytes_before b + p) with (bytes_before b + pos b + (p - pos b)) by lia. rewrite E. f_equal. lia.
Qed.

(** The count after [next] has moved the cursor to the beginning. *)
Lemma count_reset n p : uwrap 64 (uwrap 64 (n + uwrap 64 p) + uwrap 64 0) = uwrap 64 (n + uwrap 64 p).
Proof. unfold uwrap. rewrite Z.mod_0_l, Z.add_0_r, Z.mod_mod by done. done. Qed.

#[export] Instance hashing_reader : ReaderSpec FromHashing hr_inv.
Proof.
  split.
  - exact hr_bounds.
  - intros b data H. pose proof (hr_bounds b data H) as [Hp _]. pose proof H as (Hi & Hw & _).
    destruct (inv_pending _ _ Hi) as (later & Hd & Hl). exists later. simpl in *. rewrite <- Hw in Hd, Hl. split; [done|].
    intros p Hp'. apply (hr_moved b p data later H Hd); [lia|]. apply Hl. unfold size_working in *. simpl. by rewrite <- Hw.
  - intros b H. destruct (hash_pending_spec b [] H) as (before & Hh & Ht). destruct H as (Hi & Hw & _ & Hn & _ & Hc).
    cbn [nextImpl FromHashing]. unfold hr_nextImpl, next. cbn [pos impl set_bytes].
    set (i0 := set_pos (pos b) (hr_in (impl b))) in *.
    destruct (inv_end i0 Hi) as (i & -> & Hi'). cbn [rbind]. eexists. split; [done|]. simpl.
    split_and!; try done; [by exists before|]. etrans; [|exact Hc]. apply count_reset.
  - intros b data H Hne Hend. destruct (hash_pending_spec b data H) as (before & Hh & Ht). destruct H as (Hi & Hw & _ & Hn & _ & Hc).
    cbn [nextImpl FromHashing]. unfold hr_nextImpl, next. cbn [pos impl set_bytes].
    set (i0 := set_pos (pos b) (hr_in (impl b))) in *.
    destruct (inv_next i0 data Hi Hne) as (i & E & Hi' & Hlt); [unfold size_working in *; simpl; by rewrite <- Hw|].
    pose proof (whole_piece _ _ _ Hi E) as H0. rewrite E. cbn [rbind]. eexists. split; [done|].
    set (b1 := set_working _ _ _). assert (Ea : arrived b1 = set_nextimpl_offset 0 (set_pos 0 b1)).
    { unfold arrived. change (nextimpl_working_buffer_offset b1) with (nextimpl_working_buffer_offset b).
      rewrite Hn, Z.min_l by (unfold size_working; lia). done. }
    rewrite Ea. split; [|simpl; unfold size_working in *; simpl; lia]. split_and!; try done; [|simpl; by exists before|].
    + simpl. unfold arrived in *. simpl in H0. by rewrite H0 in *.
    + etrans; [|exact Hc]. apply count_reset.
Qed.

#[export] Instance hashing_whole_pieces : WholePieces FromHashing hr_inv.
Proof.
  split.
  - intros b data b' (_ & _ & _ & Hn & _) E. cbn [nextImpl FromHashing] in E. unfold hr_nextImpl in E.
    apply rbind_Ok in E as ([res i] & _ & E). apply Ok_inj in E as [= -> <-]. unfold arrived. simpl. rewrite Hn.
    unfold size_working. lia.
  - intros b data p H Hp. pose proof (hr_bounds b data H) as [Hb _]. pose proof H as (Hi & Hw & _).
    destruct (inv_pending _ _ Hi) as (later & Hd & _).
    pose proof (whole_back (WholePieces := WholePieces0) _ data p Hi Hp) as Hi'. unfold size_working in *. simpl in *. rewrite <- Hw in *.
    assert (El : drop (Z.to_nat (size_of (working_buffer b) - pos b)) data = later).
    { rewrite Hd, drop_app_ge by (simpl_len; lia). rewrite <- (drop_0 later) at 2. f_equal. simpl_len. lia. }
    rewrite El in *. apply (hr_moved b p data later H Hd); [unfold size_working; lia|done].
Qed.

(** At the end of the data, [getHash] is the hash of all of it, however it was read. *)
Lemma hr_getHash_spec b : hr_inv b [] -> (hr_getHash b).1 = hash_of bs total /\ count b = uwrap 64 (size_of total).
Proof.
  intros H. pose proof H as (_ & _ & _ & _ & _ & Hc). rewrite Z.sub_0_r in Hc. split; [|done]. destruct (hash_pending_spec b [] H) as (before & Hh & ->). rewrite app_nil_r. simpl. by apply hashed_getHash.
Qed.

Lemma hr_create_inv fresh i :
  (forall n, length (fresh n) = n) -> (0 < bs)%nat -> iinv i total -> pos i = 0 ->
  hr_inv (hr_create fresh i (Z.of_nat bs)) total.
Proof.
  intros Hf Hb Hi Hp. unfold hr_inv. simpl. rewrite Hp. split_and!; try done; [|exists []; split; [by apply new_hasher_hashed|done]|by unfold count, offset; simpl; rewrite Hp, Z.sub_diag].
  destruct i as [w p nb no s]. simpl in *. by subst p.
Qed.

End Read.
Arguments hr_in {_}.
Arguments hr_hasher {_}.
Arguments hashing_begin {_}.

End Hashing.

(** A buffer that is to skip two bytes of the next piece, as after a seek in a
    compressed block: [next] puts the cursor of the hashing buffer at the beginning of
    the piece, and the bytes are read nevertheless. *)
Lemma hashing_reads_skipped (H : bytes -> Z * Z -> Z * Z) (fresh : nat -> bytes) :
  let i := set_nextimpl_offset 2 (open_file [10; 20; 30; 40] 4 0 false None []) in
  match operate FromFileDescriptor (OpRead 2) i,
    operate (FromHashing H FromFileDescriptor) (OpRead 2) (hr_create fresh i DBMS_DEFAULT_HASHING_BLOCK_SIZE) with
  | Ok (direct, _), Ok (hashing, _) => direct = Bytes [30; 40] /\ hashing = Bytes [10; 20]
  | _, _ => False
  end.
Proof. done. Qed.
