(* ===== verification/CompressedWriteBuffer.v ===== *)
(** Writing compressed data (src/Compression/CompressedWriteBuffer.{h,cpp}): the data
    is cut into blocks, and each is written to another buffer as a checksum and a
    frame. *)
From S2P Require Import Prelude IntText BinaryIO ReadBuffer ReadBufferFromFile WriteBuffer Codec.
Import Binary.

Section CompressedWriteBuffer.
(** [CityHash_v1_0_2::CityHash128] of the library cityhash102: the lower and the upper
    half of the checksum. *)
Context (CityHash128 : bytes -> Z * Z).
(** The class of the other buffer. *)
Context {S : Type} (O : WriteImpl S).

Record CompressedWriteBuffer := {
  out : WriteBuffer S;
  codec : ICompressionCodec;
  cw_adaptive : bool;
  cw_adaptive_max_size : Z }.

Implicit Types b : WriteBuffer CompressedWriteBuffer.

Definition set_out (o : WriteBuffer S) b : WriteBuffer CompressedWriteBuffer :=
  set_w_impl {| out := o; codec := codec (w_impl b); cw_adaptive := cw_adaptive (w_impl b);
                cw_adaptive_max_size := cw_adaptive_max_size (w_impl b) |} b.

(** [sizeof(CityHash_v1_0_2::uint128)] *)
Definition CHECKSUM_SIZE : Z := 16.

Definition writeBinaryLittleEndian (x : Z) (o : WriteBuffer S) : outcome (WriteBuffer S) :=
  write O (le_bytes 8 (uwrap 64 x)) o.

(** Writing a compressed block: directly after the cursor of the other buffer if it
    has room for all that the codec reserves, else from a buffer of this size. *)
Definition write_block (compressed_reserve_size : Z) (compressed : bytes) (o : WriteBuffer S)
  : outcome (WriteBuffer S) :=
  let compressed_size := size_of compressed in
  let checksum := CityHash128 compressed in
  if compressed_reserve_size + CHECKSUM_SIZE <=? w_available o then
    if w_available o <? CHECKSUM_SIZE + compressed_size then (Throw OUT_OF_BOUNDS_ACCESS, o)
    else
      writeBinaryLittleEndian checksum.1 o >> fun o =>
      writeBinaryLittleEndian checksum.2 o >> fun o => (Ok tt, push compressed o)
  else if compressed_reserve_size <? compressed_size then (Throw OUT_OF_BOUNDS_ACCESS, o)
  else
    writeBinaryLittleEndian checksum.1 o >> fun o =>
    writeBinaryLittleEndian checksum.2 o >> write O compressed.

Definition cw_nextImpl b : outcome (WriteBuffer CompressedWriteBuffer) :=
  if w_offset b =? 0 then (Ok tt, b)
  else
    let decompressed_size := uwrap 32 (w_offset b) in
    let compressed_reserve_size := getCompressedReserveSize (codec (w_impl b)) decompressed_size in
    match compress (codec (w_impl b)) (take (Z.to_nat decompressed_size) (pending b)) with
    | Throw e => (Throw e, b)
    | Ok compressed =>
        match write_block compressed_reserve_size compressed (out (w_impl b)) with
        | (Throw e, o) => (Throw e, set_out o b)
        | (Ok _, o) =>
            let b := set_out o b in
            (Ok tt, grow_buffer (cw_adaptive (w_impl b)) (cw_adaptive_max_size (w_impl b)) b)
        end
    end.

(** [cancelImpl] cancels the other buffer too. *)
Definition ToCompressed : WriteImpl CompressedWriteBuffer := {|
  w_nextImpl := cw_nextImpl;
  cancelImpl b := set_out (cancel O (out (w_impl b))) b |}.

(** [finalizeImpl]; that of the base class calls [next] again. *)
Definition cw_finalizeImpl b : outcome (WriteBuffer CompressedWriteBuffer) :=
  let c := w_impl b in
  w_next ToCompressed (set_w_impl {| out := out c; codec := codec c; cw_adaptive := false;
    cw_adaptive_max_size := cw_adaptive_max_size c |} b) >> w_next ToCompressed.

(** The constructor *)
Definition cw_create (out_ : WriteBuffer S) (codec_ : ICompressionCodec) (buf_size : Z) (adaptive : bool)
    (adaptive_buffer_initial_size : Z) : WriteBuffer CompressedWriteBuffer := {|
  pending := []; capacity := if adaptive then adaptive_buffer_initial_size else buf_size;
  written_before := 0; w_nextimpl_offset := 0; finalized := false; canceled := false;
  w_impl := {| out := out_; codec := codec_; cw_adaptive := adaptive; cw_adaptive_max_size := buf_size |} |}.

(** [getCompressedBytes], [getUncompressedBytes], [getRemainingBytes] *)
Definition getCompressedBytes b : outcome (WriteBuffer CompressedWriteBuffer) * Z :=
  let r := w_nextIfAtEnd ToCompressed b in (r, w_count (out (w_impl r.2))).

Definition getUncompressedBytes b : Z := w_count b.

Definition getRemainingBytes b : outcome (WriteBuffer CompressedWriteBuffer) * Z :=
  let r := w_nextIfAtEnd ToCompressed b in (r, w_offset r.2).

End CompressedWriteBuffer.
Arguments out {_}.
Arguments codec {_}.
Arguments cw_adaptive {_}.
Arguments cw_adaptive_max_size {_}.

(** * The format *)

Section Format.
Context (CityHash128 : bytes -> Z * Z).

(** A frame as it is stored. *)
Definition with_checksum (frame : bytes) : bytes :=
  le_bytes 8 (uwrap 64 (CityHash128 frame).1) ++ le_bytes 8 (uwrap 64 (CityHash128 frame).2) ++ frame.

Definition frame (c : ICompressionCodec) (block : bytes) : bytes :=
  match compress c block with Ok f => f | Throw _ => [] end.

(** The file of a sequence of blocks. *)
Definition stream (c : ICompressionCodec) (blocks : list bytes) : bytes :=
  mjoin ((fun block => with_checksum (frame c block)) <$> blocks).

Lemma stream_app c xs ys : stream c (xs ++ ys) = stream c xs ++ stream c ys.
Proof. unfold stream. by rewrite fmap_app, join_app. Qed.

Lemma length_with_checksum f : length (with_checksum f) = (16 + length f)%nat.
Proof. unfold with_checksum. simpl_len. rewrite !length_le_bytes. lia. Qed.

End Format.

(** * Proofs *)

Section Proofs.
Context (CityHash128 : bytes -> Z * Z).
Context {S : Type} (O : WriteImpl S) (oinv : WriteBuffer S -> bytes -> Prop) `{!WriterSpec O oinv}.
Context (c : ICompressionCodec) (limit : Z) `{!FitsReserve c limit} (Hlimit : limit < 2 ^ 30).
(** What the other buffer holds already. *)
Context (base : bytes).

Abbreviation I := (ToCompressed CityHash128 O).

Definition is_block (block : bytes) : Prop := is_bytes block /\ 0 < size_of block <= limit.

(** A write for which there is room flushes nothing. *)
Lemma write_no_flush bs o data o' :
  oinv o data -> length bs = 8%nat -> 8 <= w_available o -> write O bs o = (Ok tt, o') ->
  w_available o' = w_available o - 8.
Proof.
  intros Hi Hl Ha. destruct (winv_bounds o data Hi) as (_ & _ & Hf & Hc). unfold write.
  rewrite Hf, Hc. destruct bs as [|x bs]; [done|]. cbn [write_loop]. unfold w_nextIfAtEnd.
  destruct (Z.leb_spec (w_available o) 0); [lia|]. cbn [andthen].
  rewrite Z.min_r by lia. rewrite Nat2Z.id, drop_all, firstn_all. cbn [write_loop]. intros [= <-].
  unfold w_available, w_offset, push. simpl. simpl_len. lia.
Qed.

Lemma write_block_spec reserve compressed o data :
  oinv o data -> is_bytes compressed -> size_of compressed <= reserve ->
  exists o', write_block CityHash128 O reserve compressed o = (Ok tt, o') /\
    oinv o' (data ++ with_checksum CityHash128 compressed).
Proof.
  intros H Hb Hr. unfold write_block, writeBinaryLittleEndian, with_checksum, CHECKSUM_SIZE.
  set (lo := le_bytes 8 (uwrap 64 (CityHash128 compressed).1)). set (hi := le_bytes 8 (uwrap 64 (CityHash128 compressed).2)).
  destruct (write_spec O oinv lo o data H (le_bytes_range _ _)) as (o1 & E1 & H1).
  destruct (write_spec O oinv hi o1 _ H1 (le_bytes_range _ _)) as (o2 & E2 & H2).
  destruct (Z.leb_spec (reserve + 16) (w_available o)) as [Ha|Ha].
  - destruct (Z.ltb_spec (w_available o) (16 + size_of compressed)); [lia|].
    rewrite E1. cbn [andthen]. rewrite E2. cbn [andthen]. eexists. split; [done|].
    rewrite (app_assoc lo), app_assoc. apply winv_push; [by rewrite app_assoc|done|].
    assert (A1 : w_available o1 = w_available o - 8) by (apply (write_no_flush lo o data o1); done || lia).
    rewrite (write_no_flush hi o1 _ o2 H1); done || lia.
  - destruct (Z.ltb_spec reserve (size_of compressed)); [lia|]. rewrite E1. cbn [andthen]. rewrite E2. cbn [andthen].
    destruct (write_spec O oinv compressed o2 _ H2 Hb) as (o3 & E3 & H3). exists o3. split; [done|].
    by rewrite <- !app_assoc in H3.
Qed.

Lemma frame_ok block : is_block block ->
  compress c block = Ok (frame c block) /\ is_bytes (frame c block) /\
  size_of (frame c block) <= getCompressedReserveSize c (size_of block).
Proof.
  intros [Hb Hs]. destruct (fits_reserve c limit block ltac:(done) Hb Hs) as (data & Hd & Hdb & Hf).
  unfold frame, compress. rewrite Hd. cbn [rbind]. split_and!; [done| |].
  - apply Forall_cons_2; [apply fits_method|]. rewrite !Forall_app. split_and!; [apply le_bytes_range..|done].
  - simpl_len. rewrite !length_le_bytes. lia.
Qed.

(** The data accepted so far, in blocks written to the other buffer and the rest. *)
Definition cw_at (blocks : list bytes) (b : WriteBuffer CompressedWriteBuffer) (data : bytes) : Prop :=
  data = mjoin blocks ++ pending b /\ Forall is_block blocks /\ is_bytes (pending b) /\
  oinv (out (w_impl b)) (base ++ stream CityHash128 c blocks) /\ codec (w_impl b) = c /\
  w_offset b <= capacity b /\ 0 < capacity b <= limit /\ cw_adaptive_max_size (w_impl b) <= limit /\
  w_nextimpl_offset b = 0 /\ finalized b = false /\ canceled b = false /\ w_count b = uwrap 64 (size_of data).

Definition cw_inv (b : WriteBuffer CompressedWriteBuffer) (data : bytes) : Prop := exists blocks, cw_at blocks b data.

Lemma grow_buffer_limit {T} adaptive max_size (b : WriteBuffer T) :
  0 < capacity b <= limit -> max_size <= limit ->
  (grow_buffer adaptive max_size b = b) \/
  (exists n, capacity b < n <= limit /\ grow_buffer adaptive max_size b = set_memory n b).
Proof.
  intros Hc Hm. unfold grow_buffer. destruct (w_available b =? 0), adaptive, (Z.ltb_spec (capacity b) max_size); simpl; auto.
  right. eexists. split; [|done]. rewrite uwrap_small by (unfold in_unsigned; lia). lia.
Qed.

(** What is pending becomes a block. *)
Lemma cw_next_at blocks b data : cw_at blocks b data -> pending b <> [] ->
  exists b', cw_nextImpl CityHash128 O b = (Ok tt, b') /\ cw_at (blocks ++ [pending b]) (passed (w_offset b) b') data /\
    pending (passed (w_offset b) b') = [].
Proof.
  intros (Hdata & Hbl & Hp & Ho & Hc & Hcap & Hl & Hm & Hn & Hf & Hcan & Hcnt) Hne.
  assert (Hblock : is_block (pending b)).
  { split; [done|]. unfold w_offset in *. destruct (pending b); [done|]. simpl in *. lia. }
  destruct (frame_ok (pending b) Hblock) as (Hcomp & Hbytes & Hres).
  unfold cw_nextImpl. destruct (Z.eqb_spec (w_offset b) 0) as [E|_].
  { unfold w_offset in E. destruct Hblock. lia. }
  rewrite uwrap_small by (unfold in_unsigned, w_offset in *; lia). unfold w_offset at 1 2 3. rewrite Nat2Z.id, firstn_all.
  rewrite Hc, Hcomp. destruct (write_block_spec _ (frame c (pending b)) _ _ Ho Hbytes Hres) as (o & -> & Ho').
  eexists. split; [done|]. set (b1 := set_out o b).
  assert (Hd : data = mjoin (blocks ++ [pending b])) by (by rewrite join_app, Hdata; simpl; rewrite app_nil_r).
  assert (Hs : oinv o (base ++ stream CityHash128 c (blocks ++ [pending b]))).
  { rewrite stream_app, app_assoc. unfold stream at 2. simpl. by rewrite app_nil_r. }
  assert (Hok : forall b2, w_impl b2 = w_impl b1 -> written_before b2 = written_before b -> w_nextimpl_offset b2 = 0 ->
    0 < capacity b2 <= limit -> finalized b2 = false -> canceled b2 = false ->
    cw_at (blocks ++ [pending b]) (passed (w_offset b) b2) data /\ pending (passed (w_offset b) b2) = []).
  { intros b2 Ei Ew En Ec Ef Ecan. assert (Epass : pending (passed (w_offset b) b2) = []) by (simpl; by rewrite En).
    split; [|done]. unfold cw_at. rewrite passed_count, Epass, app_nil_r by done. simpl. rewrite Ei.
    assert (w_offset (passed (w_offset b) b2) = 0) by (unfold w_offset at 1; by rewrite Epass).
    split_and!; try done; try lia; [by apply Forall_app_2; [|apply Forall_singleton]|by apply Forall_nil_2]. }
  destruct (grow_buffer_limit (cw_adaptive (w_impl b1)) (cw_adaptive_max_size (w_impl b1)) b1)
    as [->|(n & Hn' & ->)]; [done|done|by apply Hok|]. apply Hok; simpl; done || (simpl in Hn'; lia).
Qed.

Lemma cw_push_at blocks b data bs : cw_at blocks b data -> is_bytes bs -> Z.of_nat (length bs) <= w_available b ->
  cw_at blocks (push bs b) (data ++ bs).
Proof.
  intros (Hd & Hbl & Hp & Ho & Hc & Hcap & Hl & Hm & Hn & Hf & Hcan & Hcnt) Hb Ha. unfold cw_at.
  pose proof (push_count b data bs Hcnt). rewrite Hd in *.
  unfold w_available, w_offset in *. simpl. simpl_len. rewrite is_bytes_app, app_assoc. split_and!; try done; lia.
Qed.

#[export] Instance compressed_writer : WriterSpec I cw_inv.
Proof.
  split.
  - intros b data (blocks & _ & _ & _ & _ & _ & ? & ? & _ & _ & ? & ? & _). split_and!; try done; lia.
  - intros b data bs [blocks H] Hb Ha. exists blocks. by apply cw_push_at.
  - intros b data [blocks H] Hne. destruct (cw_next_at blocks b data H Hne) as (b' & E & Hb & Hp). exists b'.
    split_and!; [done|by eexists|done].
  - by intros b data (blocks & _ & _ & _ & _ & _ & _ & _ & _ & _ & _ & _ & ?).
Qed.

(** After [finalize], the other buffer has the stream of blocks of the whole data. *)
Lemma cw_finalize_spec b data :
  cw_inv b data -> exists b' (blocks : list bytes), finalize I (cw_finalizeImpl CityHash128 O) b = (Ok tt, b') /\ data = mjoin blocks /\
    Forall is_block blocks /\ oinv (out (w_impl b')) (base ++ stream CityHash128 c blocks) /\ finalized b' = true.
Proof.
  intros H. pose proof H as (blocks0 & _ & _ & _ & _ & _ & _ & _ & _ & _ & Hf & Hcan & _). unfold finalize, cw_finalizeImpl.
  rewrite Hf, Hcan. set (b0 := set_w_impl _ b). assert (H0 : cw_inv b0 data).
  { destruct H as (blocks & ?). by exists blocks. }
  destruct (w_next_spec I cw_inv b0 data H0) as (b1 & -> & H1 & _). cbn [andthen].
  destruct (w_next_spec I cw_inv b1 data H1) as (b2 & -> & (blocks & -> & Hbl & _ & Ho & _) & Hp).
  eexists _, blocks. rewrite Hp, app_nil_r. split_and!; done.
Qed.

End Proofs.
