(* ===== verification/CompressedReadBuffer.v ===== *)
(** Reading compressed data: the common base of the readers
    (src/Compression/CompressedReadBufferBase.{h,cpp}) and the sequential reader
    (CompressedReadBuffer.{h,cpp}). *)
From S2P Require Import Prelude IntText BinaryIO ReadBuffer ReadBufferFromFile WriteBuffer Codec CompressedWriteBuffer.
Import Binary.

(** [setExternalDataFlag] *)
Definition setExternalDataFlag (c : ICompressionCodec) : ICompressionCodec := {|
  getMethodByte := getMethodByte c;
  doCompressData := doCompressData c;
  doDecompressData := doDecompressData c;
  getMaxCompressedDataSize := getMaxCompressedDataSize c;
  getAdditionalSizeAtTheEndOfBuffer := getAdditionalSizeAtTheEndOfBuffer c;
  decompression_error_code := CANNOT_DECOMPRESS;
  full_codec_desc := full_codec_desc c;
  traits := traits c |}.

Definition DBMS_MAX_COMPRESSED_SIZE : Z := 0x40000000.

(** * Checksums *)

Section Checksum.
Context (CityHash128 : bytes -> Z * Z).

(** [CityHash_v1_0_2::CityHash128] as two numbers of 64 bits *)
Definition checksum_of (data : bytes) : Z * Z :=
  (uwrap 64 (CityHash128 data).1, uwrap 64 (CityHash128 data).2).

(** What the message of the exception says about the cause. *)
Inductive Cause := SingleBitFlipInData (byte bit : Z) | SingleBitFlipInChecksum | OtherCause.

(** The lambda [flip_bit] *)
Definition flip_bit (buf : bytes) (p : nat) : bytes :=
  alter (fun x => uwrap 8 (Z.lxor x (Z.shiftl 1 (Z.of_nat (p mod 8))))) (p / 8)%nat buf.

(** The loop over the bits of the data; each bit is restored before the next. *)
Fixpoint find_flip (data : bytes) (expected : Z * Z) (bits : list nat) : option nat :=
  match bits with
  | [] => None
  | bit_pos :: bits =>
      if decide (expected = checksum_of (flip_bit data bit_pos)) then Some bit_pos else find_flip data expected bits
  end.

(** [std::popcount] *)
Definition popcount (x : Z) : nat := length (List.filter (fun i => Z.testbit x (Z.of_nat i)) (seq 0 64)).

Definition mismatch_cause (data : bytes) (expected : Z * Z) : Cause :=
  let calculated := checksum_of data in
  match (if size_of data <? 2 ^ 20 then find_flip data expected (seq 0 (length data * 8)) else None) with
  | Some bit_pos => SingleBitFlipInData (Z.of_nat (bit_pos / 8)) (Z.of_nat (bit_pos mod 8))
  | None =>
      if (popcount (Z.lxor expected.1 calculated.1) + popcount (Z.lxor expected.2 calculated.2) =? 1)%nat
      then SingleBitFlipInChecksum else OtherCause
  end.

(** [validateChecksum]; the exception carries [mismatch_cause] as its message. *)
Definition validateChecksum (data : bytes) (expected : Z * Z) (external_data : bool) : result unit :=
  if decide (expected = checksum_of data) then Ok tt
  else Throw (if external_data then CANNOT_DECOMPRESS else CHECKSUM_DOESNT_MATCH).

End Checksum.

(** * [CompressedReadBufferBase] *)

Section Base.
Context (CityHash128 : bytes -> Z * Z).
(** [CompressionCodecFactory::instance().get(method)] *)
Context (factory : Z -> result ICompressionCodec).
(** The contents of memory that was not written yet. *)
Context (fresh : nat -> bytes).
(** The class of the buffer with the compressed data. *)
Context {S : Type} (I : ReadImpl S).

(** [memory] is that of [BufferWithOwnMemory], and [size_compressed] a field of the
    derived classes. *)
Record CompressedReadBufferBase := {
  compressed_in : ReadBuffer S;
  r_codec : option ICompressionCodec;
  memory : bytes;
  size_compressed : Z;
  allow_different_codecs : bool;
  external_data : bool;
  disable_checksum : bool }.

Implicit Types s : CompressedReadBufferBase.

Definition set_in (i : ReadBuffer S) s : CompressedReadBufferBase :=
  {| compressed_in := i; r_codec := r_codec s; memory := memory s; size_compressed := size_compressed s;
     allow_different_codecs := allow_different_codecs s; external_data := external_data s;
     disable_checksum := disable_checksum s |}.

Definition set_codec (c : ICompressionCodec) s : CompressedReadBufferBase :=
  {| compressed_in := compressed_in s; r_codec := Some c; memory := memory s; size_compressed := size_compressed s;
     allow_different_codecs := allow_different_codecs s; external_data := external_data s;
     disable_checksum := disable_checksum s |}.

Definition set_memory_ (m : bytes) s : CompressedReadBufferBase :=
  {| compressed_in := compressed_in s; r_codec := r_codec s; memory := m; size_compressed := size_compressed s;
     allow_different_codecs := allow_different_codecs s; external_data := external_data s;
     disable_checksum := disable_checksum s |}.

Definition set_size_compressed (n : Z) s : CompressedReadBufferBase :=
  {| compressed_in := compressed_in s; r_codec := r_codec s; memory := memory s; size_compressed := n;
     allow_different_codecs := allow_different_codecs s; external_data := external_data s;
     disable_checksum := disable_checksum s |}.

(** [disableChecksumming] *)
Definition disableChecksumming s : CompressedReadBufferBase :=
  {| compressed_in := compressed_in s; r_codec := r_codec s; memory := memory s; size_compressed := size_compressed s;
     allow_different_codecs := allow_different_codecs s; external_data := external_data s; disable_checksum := true |}.

(** [readHeaderAndGetCodec]: the codec for the block whose header is [compressed_buffer]. *)
Definition readHeaderAndGetCodec (compressed_buffer : bytes) s : result ICompressionCodec :=
  let! method := readMethod compressed_buffer in
  let! codec :=
    match r_codec s with
    | None => factory method
    | Some codec =>
        if method =? getMethodByte codec then Ok codec
        else if allow_different_codecs s then factory method
        else Throw CANNOT_DECOMPRESS
    end in
  Ok (if external_data s then setExternalDataFlag codec else codec).

(** [readHeaderAndGetCodecAndSize]: the codec, the size of the compressed block, and
    that of the data. *)
Definition readHeaderAndGetCodecAndSize (compressed_buffer : bytes) s : result (ICompressionCodec * Z * Z) :=
  let! codec := readHeaderAndGetCodec compressed_buffer s in
  let! size_compressed_without_checksum := readCompressedBlockSize codec compressed_buffer in
  let! size_decompressed := readDecompressedBlockSize (decompression_error_code codec) compressed_buffer in
  if DBMS_MAX_COMPRESSED_SIZE <? size_compressed_without_checksum then Throw TOO_LARGE_SIZE_COMPRESSED
  else if size_compressed_without_checksum <? Z.of_nat COMPRESSED_BLOCK_HEADER_SIZE
  then Throw (if external_data s then CANNOT_DECOMPRESS else CORRUPTED_DATA)
  else Ok (codec, size_compressed_without_checksum, size_decompressed).

(** What [readCompressedData] found: the memory [compressed_buffer] points to, and the
    size of the data. *)
Record CompressedBlock := { compressed_buffer : bytes; size_decompressed : Z }.

(** The bytes of the block after the header was read into [own_compressed_buffer]: in
    place if all of it, and what the codec may read after it, is in the buffer; else
    they are copied. *)
Definition readBlock (always_copy : bool) (header : bytes) (size additional : Z) (i : ReadBuffer S)
  : result (bytes * ReadBuffer S) :=
  let header_size := Z.of_nat COMPRESSED_BLOCK_HEADER_SIZE in
  if negb always_copy && (header_size + CHECKSUM_SIZE <=? offset i)
     && (size - header_size + additional + CHECKSUM_SIZE <=? available i) then
    let i := set_pos (pos i - header_size) i in
    let! compressed := bytes_at i size in
    Ok (compressed, set_pos (pos i + size) i)
  else
    let! (rest, i) := ReadBuffer.readStrict I (size - header_size) i in Ok (header ++ rest, i).

(** [readCompressedData]; [None] is the result 0.  The result otherwise is the size of
    the block and the checksum. *)
Definition readCompressedData (always_copy : bool) s : result (option CompressedBlock * CompressedReadBufferBase) :=
  let! (e, i) := eof I (compressed_in s) in
  if e : bool then Ok (None, set_in i s)
  else
    let! (own_compressed_buffer, i) := ReadBuffer.readStrict I (CHECKSUM_SIZE + Z.of_nat COMPRESSED_BLOCK_HEADER_SIZE) i in
    let header := drop 16 own_compressed_buffer in
    let! (codec, size, size_decompressed) := readHeaderAndGetCodecAndSize header s in
    let! (compressed, i) := readBlock always_copy header size (getAdditionalSizeAtTheEndOfBuffer codec) i in
    let! _ :=
      if disable_checksum s then Ok tt
      else validateChecksum CityHash128 compressed
             (le_value (take 8 own_compressed_buffer), le_value (take 8 (drop 8 own_compressed_buffer))) (external_data s) in
    Ok (Some {| compressed_buffer := compressed; size_decompressed := size_decompressed |}, set_codec codec (set_in i s)).

(** The result of [readCompressedData] *)
Definition compressed_size_of (block : CompressedBlock) : Z := size_of (compressed_buffer block) + CHECKSUM_SIZE.

(** [decompressTo], to the memory [to] *)
Definition decompressTo (to : bytes) (block : CompressedBlock) s : result (bytes * CompressedReadBufferBase) :=
  let! codec := readHeaderAndGetCodec (compressed_buffer block) s in
  let! to := decompress codec (compressed_buffer block) to in
  Ok (to, set_codec codec s).

(** [decompress], to [memory]; the buffer it leaves, which for NONE is the compressed
    block itself. *)
Definition decompress_to_buffer (block : CompressedBlock) s : result (bytes * CompressedReadBufferBase) :=
  let! codec := readHeaderAndGetCodec (compressed_buffer block) s in
  let s := set_codec codec s in
  if isNone (traits codec) then
    if (length (compressed_buffer block) <? COMPRESSED_BLOCK_HEADER_SIZE)%nat
    then Throw (if external_data s then CANNOT_DECOMPRESS else CORRUPTED_DATA)
    else Ok (drop COMPRESSED_BLOCK_HEADER_SIZE (compressed_buffer block), s)
  else
    let! m := decompress codec (compressed_buffer block) (memory s) in
    Ok (take (Z.to_nat (size_decompressed block)) m, set_memory_ m s).

(** The statements of the readers that make a block the working buffer. *)
Definition load_block (block : CompressedBlock) s : result (bytes * CompressedReadBufferBase) :=
  let additional :=
    match r_codec s with Some codec => getAdditionalSizeAtTheEndOfBuffer codec | None => 0 end in
  decompress_to_buffer block (set_memory_ (resize fresh (memory s) (Z.to_nat (size_decompressed block + additional))) s).

End Base.
Arguments compressed_in {_}.
Arguments r_codec {_}.
Arguments memory {_}.
Arguments size_compressed {_}.
Arguments allow_different_codecs {_}.
Arguments external_data {_}.
Arguments disable_checksum {_}.

(** * [CompressedReadBuffer] *)

Section Sequential.
Context (CityHash128 : bytes -> Z * Z) (factory : Z -> result ICompressionCodec) (fresh : nat -> bytes).
Context {S : Type} (I : ReadImpl S).
(** [readCompressedData] overwrites memory that the working buffer may share with the
    compressed data; [clobber] is what it leaves of it. *)
Context (clobber : bytes -> bytes).

Abbreviation Reader := (ReadBuffer (CompressedReadBufferBase (S := S))).
Implicit Types b : Reader.

Definition clobbered b : Reader := set_working (clobber (working_buffer b)) (pos b) b.

(** [nextImpl] *)
Definition cr_nextImpl b : result (bool * Reader) :=
  let! (block, s) := readCompressedData CityHash128 factory I false (impl b) in
  match block with
  | None => Ok (false, clobbered (set_impl (set_size_compressed 0 s) b))
  | Some block =>
      let! (w, s) := load_block factory fresh block (set_size_compressed (compressed_size_of block) s) in
      Ok (true, set_working w (pos b) (set_impl s b))
  end.

(** The bytes of compressed data to come, an upper bound. *)
Definition cr_bound (s : CompressedReadBufferBase (S := S)) : nat :=
  (Z.to_nat (size_working (compressed_in s) - pos (compressed_in s)) + bound I (impl (compressed_in s)))%nat.

Definition FromCompressed : ReadImpl (CompressedReadBufferBase (S := S)) := {|
  nextImpl := cr_nextImpl;
  bound := cr_bound |}.

(** The loop of [readBig]; [got] are the bytes in [to] so far. *)
Fixpoint cr_readBig_loop (fuel : nat) (to : bytes) (n : Z) (got : bytes) b : result (bytes * Reader) :=
  let bytes_read := size_of got in
  if n <=? bytes_read then Ok (got, b)
  else match fuel with
  | O => Throw OUT_OF_FUEL
  | Datatypes.S fuel =>
      let! (block, s) := readCompressedData CityHash128 factory I false (impl b) in
      let b := clobbered (set_impl s b) in
      match block with
      | None => Ok (got, b)
      | Some block =>
          let additional := match r_codec s with Some codec => getAdditionalSizeAtTheEndOfBuffer codec | None => 0 end in
          let size := size_decompressed block in
          if size + additional <=? n - bytes_read then
            let! (out, s) := decompressTo factory (take (Z.to_nat size) (drop (length got) to)) block s in
            cr_readBig_loop fuel to n (got ++ out)
              (set_bytes (uwrap 64 (bytes_before b + size)) (set_impl s b))
          else
            let b := set_bytes (uwrap 64 (bytes_before b + offset b)) b in
            let! (w, s) := load_block factory fresh block s in
            let b := set_working w 0 (set_impl s b) in
            let! (bs, b) := read FromCompressed (n - bytes_read) b in
            Ok (got ++ bs, b)
      end
  end.

(** [readBig], to the memory [to] of at least [n] bytes: the bytes that are read *)
Definition cr_readBig (to : bytes) (n : Z) b : result (bytes * Reader) :=
  let! (got, b) :=
    if pos b <? size_working b then read FromCompressed (Z.min (size_working b - pos b) n) b else Ok ([], b) in
  cr_readBig_loop (Datatypes.S (Z.to_nat n)) to n got b.

(** The constructor *)
Definition cr_create (in_ : ReadBuffer S) (allow_different_codecs_ external_data_ : bool) : Reader := {|
  working_buffer := []; pos := 0; bytes_before := 0; nextimpl_working_buffer_offset := 0;
  impl := {| compressed_in := in_; r_codec := None; memory := []; size_compressed := 0;
    allow_different_codecs := allow_different_codecs_; external_data := external_data_; disable_checksum := false |} |}.

End Sequential.

(** * Headers *)

(** A block and the frame it is stored in. *)
Record Stored := { st_block : bytes; st_frame : bytes }.

(** The fields of the header of a frame, whatever follows. *)
Lemma frame_header enc block f :
  0 <= getMethodByte enc < 256 -> 0 < size_of block < 2 ^ 32 -> size_of f < 2 ^ 32 -> compress enc block = Ok f ->
  exists header, (length header = 9)%nat /\ (exists data, f = header ++ data) /\ forall rest,
    readMethod (header ++ rest) = Ok (getMethodByte enc) /\
    (forall c, readCompressedBlockSize c (header ++ rest) = Ok (size_of f)) /\
    (forall e, readDecompressedBlockSize e (header ++ rest) = Ok (size_of block)).
Proof.
  intros Hm Hb Hf Hc. pose proof (frame_length enc block f Hc) as (data0 & Hd0 & Hl).
  apply compress_Ok in Hc as (data & Hd & Ef). assert (data0 = data) as -> by congruence.
  set (a := le_bytes 4 (uwrap 32 (size_of data + 9))) in *. set (d := le_bytes 4 (uwrap 32 (size_of block))) in *.
  assert (La : length a = 4%nat) by apply length_le_bytes. assert (Ld : length d = 4%nat) by apply length_le_bytes.
  exists ([getMethodByte enc] ++ a ++ d). split_and!.
  - simpl_len. lia.
  - exists data. by rewrite Ef, <- !app_assoc.
  - intros rest. rewrite <- !app_assoc. split_and!.
    + unfold readMethod. rewrite (slice_app [] [_] _ 0 1 eq_refl eq_refl : slice 0 1 ([_] ++ _) = _). simpl. f_equal. lia.
    + intros c. unfold readCompressedBlockSize. rewrite (slice_app [_] a _ 1 4) by done. cbn [rbind]. subst a.
      rewrite uwrap_small by (unfold in_unsigned; lia). rewrite le_value_bytes by lia.
      destruct (Z.eqb_spec (size_of data + 9) 0); [lia|]. f_equal. lia.
    + intros e. unfold readDecompressedBlockSize. rewrite (app_assoc [_]), (slice_app ([_] ++ a) d _ 5 4);
        [|simpl_len; lia|done]. cbn [rbind]. subst d.
      rewrite uwrap_small by (unfold in_unsigned; lia). rewrite le_value_bytes by lia.
      by destruct (Z.eqb_spec (size_of block) 0); [lia|].
Qed.

(** * Reading back *)

Section Valid.
Context (CityHash128 : bytes -> Z * Z) (factory : Z -> result ICompressionCodec) (fresh : nat -> bytes).
Context (fresh_length : forall n, length (fresh n) = n).
Context {S : Type} (I : ReadImpl S) (iinv : ReadBuffer S -> bytes -> Prop) `{!ReaderSpec I iinv} `{!WholePieces I iinv}.

(** [dec] is the codec the factory has for the frame, which a codec made of the block
    and [dec] undoes; the sizes are within the limits of the readers. *)
Record readable (st : Stored) (dec : ICompressionCodec) : Prop := {
  rd_factory : factory (getMethodByte dec) = Ok dec;
  rd_method : 0 <= getMethodByte dec < 256;
  rd_frame : exists enc data, getMethodByte enc = getMethodByte dec /\ compress enc (st_block st) = Ok (st_frame st) /\
    doCompressData enc (st_block st) = Ok data /\
    (forall dest, length dest = length (st_block st) -> doDecompressData dec data dest = Ok (st_block st)) /\
    (isNone (traits dec) = true -> data = st_block st);
  rd_size : 0 < size_of (st_block st) < GiB;
  rd_frame_size : size_of (st_frame st) <= DBMS_MAX_COMPRESSED_SIZE;
  rd_additional : 0 <= getAdditionalSizeAtTheEndOfBuffer dec }.

(** The compressed data of a sequence of blocks. *)
Definition stored_bytes (sts : list Stored) : bytes := mjoin ((fun st => with_checksum CityHash128 (st_frame st)) <$> sts).

Definition blocks_of (sts : list Stored) : bytes := mjoin (st_block <$> sts).

Definition flagged (s : CompressedReadBufferBase (S := S)) (dec : ICompressionCodec) : ICompressionCodec :=
  if external_data s then setExternalDataFlag dec else dec.

(** The codec of the state came from the factory; and if different codecs are not
    allowed, all blocks have the same one. *)
Definition codecs_ok (s : CompressedReadBufferBase (S := S)) (sts : list Stored) : Prop :=
  (forall c, r_codec s = Some c -> exists dec, factory (getMethodByte c) = Ok dec /\ c = flagged s dec) /\
  Forall (fun st => exists dec, readable st dec) sts /\
  (allow_different_codecs s = false -> exists method,
    (forall c, r_codec s = Some c -> getMethodByte c = method) /\
    Forall (fun st => forall dec, readable st dec -> getMethodByte dec = method) sts).

Lemma flagged_method s dec : getMethodByte (flagged s dec) = getMethodByte dec.
Proof. unfold flagged. by destruct (external_data s). Qed.

Lemma readable_header st dec : readable st dec ->
  exists header, (length header = 9)%nat /\ (exists data, st_frame st = header ++ data) /\ forall rest,
    readMethod (header ++ rest) = Ok (getMethodByte dec) /\
    (forall c, readCompressedBlockSize c (header ++ rest) = Ok (size_of (st_frame st))) /\
    (forall e, readDecompressedBlockSize e (header ++ rest) = Ok (size_of (st_block st))).
Proof.
  intros [_ Hr (enc & data & Hm & Hc & _) Hs Hmax _]. unfold DBMS_MAX_COMPRESSED_SIZE, GiB in *. rewrite <- Hm in *.
  apply (frame_header enc); lia || done.
Qed.

Lemma get_codec_spec s sts st dec header rest :
  codecs_ok s sts -> st ∈ sts -> readable st dec -> readMethod (header ++ rest) = Ok (getMethodByte dec) ->
  readHeaderAndGetCodec factory (header ++ rest) s = Ok (flagged s dec).
Proof.
  intros (Hcodec & _ & Hsame) Hin Hr Hm. pose proof (rd_factory st dec Hr) as Hf.
  unfold readHeaderAndGetCodec. rewrite Hm. cbn [rbind]. destruct (r_codec s) as [c|] eqn:Ec; [|by rewrite Hf].
  destruct (Hcodec c eq_refl) as (d & Hd & ->). rewrite flagged_method in *.
  destruct (Z.eqb_spec (getMethodByte dec) (getMethodByte d)) as [E|E].
  - rewrite <- E, Hf in Hd. injection Hd as <-. cbn [rbind]. unfold flagged. by destruct (external_data s).
  - destruct (allow_different_codecs s); [by rewrite Hf|]. destruct (Hsame eq_refl) as (method & H1 & H2).
    rewrite Forall_forall in H2. specialize (H1 _ eq_refl). rewrite flagged_method in H1. by rewrite (H2 st Hin dec Hr) in E.
Qed.

(** The same codec is chosen again by the functions that decompress. *)
Lemma codecs_ok_next s sts st dec i :
  codecs_ok s sts -> st ∈ sts -> readable st dec -> codecs_ok (set_codec (flagged s dec) (set_in i s)) sts.
Proof.
  intros (Hcodec & Hall & Hsame) Hin Hr. pose proof (rd_factory st dec Hr) as Hf. split_and!.
  - intros c [= <-]. exists dec. rewrite flagged_method. by split.
  - done.
  - intros Ha. destruct (Hsame Ha) as (method & H1 & H2). exists method. split; [|done]. intros c [= <-].
    rewrite flagged_method. rewrite Forall_forall in H2. by apply (H2 st Hin).
Qed.

Lemma codecs_ok_sub s sts sts' : sts' ⊆ sts -> codecs_ok s sts -> codecs_ok s sts'.
Proof.
  intros Hsub (Hcodec & Hall & Hsame). rewrite Forall_forall in Hall. split_and!; [done|apply Forall_forall; intros st Hin; apply Hall, Hsub, Hin|].
  intros Ha. destruct (Hsame Ha) as (method & H1 & H2). exists method. split; [done|]. rewrite Forall_forall in H2 |- *.
  intros st Hin. apply H2, Hsub, Hin.
Qed.

Lemma codecs_ok_readable s sts st : codecs_ok s sts -> st ∈ sts -> exists dec, readable st dec.
Proof. intros (_ & Hall & _). rewrite Forall_forall in Hall. auto. Qed.

(** Moving the cursor back over bytes that are just before it. *)
Lemma step_back i data bs n :
  iinv i data -> 0 <= n <= pos i ->
  take (Z.to_nat n) (drop (Z.to_nat (pos i) - Z.to_nat n) (working_buffer i)) = bs ->
  iinv (set_pos (pos i - n) i) (bs ++ data).
Proof.
  intros H Hn Hbs. destruct (inv_bounds i data H) as [Hp _]. pose proof (whole_back i data (pos i - n) H ltac:(lia)) as Hm.
  destruct (inv_pending i data H) as (later & -> & _). rewrite drop_app_length' in Hm by (unfold size_working in *; simpl_len; lia).
  rewrite app_assoc, <- Hbs. replace (Z.to_nat (pos i) - Z.to_nat n)%nat with (Z.to_nat (pos i - n)) by lia.
  replace (drop (Z.to_nat (pos i)) (working_buffer i)) with
    (drop (Z.to_nat n) (drop (Z.to_nat (pos i - n)) (working_buffer i))); [by rewrite take_drop|].
  rewrite drop_drop. f_equal. lia.
Qed.

(** Both ways of reading a block give the same bytes, and the same position. *)
Lemma readBlock_spec always_copy checksum header data later size additional i :
  (length checksum = 16)%nat -> (length header = 9)%nat -> size = size_of (header ++ data) -> 0 <= additional ->
  iinv i (data ++ later) ->
  (25 <= pos i -> take 25 (drop (Z.to_nat (pos i) - 25) (working_buffer i)) = checksum ++ header) ->
  exists i', readBlock I always_copy header size additional i = Ok (header ++ data, i') /\ iinv i' later.
Proof.
  intros Hlc Hlh -> Hadd H Hplace. unfold readBlock, CHECKSUM_SIZE, COMPRESSED_BLOCK_HEADER_SIZE.
  destruct (inv_bounds i _ H) as [Hp Hw].
  destruct (negb always_copy && _ && _) eqn:E.
  - apply andb_true_iff in E as [[_ Ho%Z.leb_le]%andb_true_iff Ha%Z.leb_le]. rewrite (available_inv I iinv i _ H) in Ha.
    unfold offset in Ho. rewrite uwrap_small in Ho by (unfold in_unsigned; lia). change (Z.of_nat 9) with 9 in *.
    assert (Hb : iinv (set_pos (pos i - 9) i) (header ++ data ++ later)).
    { apply step_back; [done|lia|]. specialize (Hplace ltac:(lia)). apply (f_equal (drop 16)) in Hplace.
      rewrite drop_app_length' in Hplace by done. rewrite skipn_firstn_comm, drop_drop in Hplace. rewrite <- Hplace.
      replace (Z.to_nat (pos i) - 25 + 16)%nat with (Z.to_nat (pos i) - Z.to_nat 9)%nat by lia. done. }
    rewrite app_assoc in Hb. cbv zeta. simpl_len.
    rewrite (bytes_at_inv I iinv _ _ _ Hb) by (unfold size_working in *; simpl in *; lia). cbn [rbind].
    assert (En : Z.to_nat (Z.of_nat (length header + length data)) = length (header ++ data)) by (simpl_len; lia).
    rewrite En, take_app_length. eexists. split; [done|].
    pose proof (inv_advance I iinv _ _ (Z.of_nat (length header + length data)) Hb) as Hadv.
    rewrite En, drop_app_length in Hadv. apply Hadv. unfold size_working in *. simpl in *. lia.
  - change (Z.of_nat 9) with 9. destruct (readStrict_spec I iinv (size_of data) i _ H) as (i' & Er & Hi); [simpl_len; lia|].
    replace (size_of (header ++ data) - 9) with (size_of data) by (simpl_len; lia).
    rewrite Nat2Z.id, take_app_length, drop_app_length in *. rewrite Er. cbn [rbind]. by eexists.
Qed.

Lemma readCompressedData_end always_copy s :
  iinv (compressed_in s) [] ->
  exists i, readCompressedData CityHash128 factory I always_copy s = Ok (None, set_in i s) /\ iinv i [].
Proof.
  intros H. unfold readCompressedData. destruct (eof_spec I iinv _ _ H) as (i & -> & Hi & _). by exists i.
Qed.

(** The first block of the data and its checksum. *)
Lemma stored_first st sts header data :
  st_frame st = header ++ data -> exists sum, (length sum = 16)%nat /\
    stored_bytes (st :: sts) = (sum ++ header) ++ data ++ stored_bytes sts /\
    forall rest external, validateChecksum CityHash128 (st_frame st)
      (le_value (take 8 (sum ++ rest)), le_value (take 8 (drop 8 (sum ++ rest)))) external = Ok tt.
Proof.
  intros Ef. destruct (checksum_of CityHash128 (st_frame st)) as [lo hi] eqn:Esum.
  assert (Hrange : in_unsigned 64 lo /\ in_unsigned 64 hi).
  { unfold checksum_of in Esum. injection Esum as <- <-. by split; apply uwrap_range. }
  exists (le_bytes 8 lo ++ le_bytes 8 hi). split_and!.
  - simpl_len. by rewrite !length_le_bytes.
  - assert (Ew : with_checksum CityHash128 (st_frame st) = (le_bytes 8 lo ++ le_bytes 8 hi) ++ st_frame st).
    { unfold with_checksum, checksum_of in *. injection Esum as <- <-. by rewrite <- app_assoc. }
    unfold stored_bytes. cbn [fmap list_fmap mjoin list_join]. rewrite Ew, Ef. by rewrite <- !app_assoc.
  - intros rest external. unfold validateChecksum. rewrite Esum.
    rewrite <- !app_assoc, take_app_length', drop_app_length', take_app_length' by (by rewrite length_le_bytes).
    rewrite !le_value_bytes by (unfold in_unsigned in *; lia). by rewrite decide_True by done.
Qed.

Lemma readCompressedData_block always_copy s st sts all dec :
  iinv (compressed_in s) (stored_bytes (st :: sts)) -> codecs_ok s all -> st ∈ all -> readable st dec ->
  exists i, readCompressedData CityHash128 factory I always_copy s =
      Ok (Some {| compressed_buffer := st_frame st; size_decompressed := size_of (st_block st) |},
          set_codec (flagged s dec) (set_in i s)) /\
    iinv i (stored_bytes sts).
Proof.
  intros H Hok Hin Hr. destruct (readable_header st dec Hr) as (header & Hlh & (data & Ef) & Hh).
  destruct (Hh []) as (Hm & Hc & Hd). rewrite app_nil_r in Hm, Hc, Hd.
  destruct (stored_first st sts header data Ef) as (sum & Hls & Estored & Hsum).
  assert (Hl : length (sum ++ header) = 25%nat) by (simpl_len; lia).
  rewrite Estored in H. unfold readCompressedData. destruct (eof_spec I iinv _ _ H) as (i1 & -> & H1 & _). cbn [rbind].
  rewrite bool_decide_eq_false_2 by (destruct sum; done). change (CHECKSUM_SIZE + Z.of_nat COMPRESSED_BLOCK_HEADER_SIZE) with 25.
  destruct (readStrict_spec I iinv 25 i1 _ H1) as (i2 & Er & H2); [simpl_len; lia|].
  change (Z.to_nat 25) with 25%nat in *. rewrite <- Hl, drop_app_length, take_app_length in *. rewrite Er. cbn [rbind].
  rewrite drop_app_length' by done. unfold readHeaderAndGetCodecAndSize.
  pose proof (get_codec_spec s all st dec header [] Hok Hin Hr) as Hg. rewrite app_nil_r in Hg. rewrite (Hg Hm).
  cbn [rbind]. rewrite Hc, Hd. cbn [rbind]. pose proof (rd_frame_size st dec Hr) as Hfs. pose proof (rd_additional st dec Hr) as Hadd.
  destruct (Z.ltb_spec DBMS_MAX_COMPRESSED_SIZE (size_of (st_frame st))); [lia|].
  destruct (Z.ltb_spec (size_of (st_frame st)) (Z.of_nat COMPRESSED_BLOCK_HEADER_SIZE)) as [Hlt|_].
  { rewrite Ef in Hlt. unfold COMPRESSED_BLOCK_HEADER_SIZE in Hlt. simpl_len. lia. }
  cbn [rbind]. destruct (readBlock_spec always_copy sum header data (stored_bytes sts)
    (size_of (st_frame st)) (getAdditionalSizeAtTheEndOfBuffer (flagged s dec)) i2) as (i3 & Eb & H3); try done.
  { by rewrite Ef. }
  { unfold flagged. by destruct (external_data s). }
  { intros Hpos. rewrite <- Hl. apply (read_in_place I iinv 25 i1 _ _ _ H1); [done|lia]. }
  rewrite Eb. cbn [rbind]. rewrite <- Ef, Hsum. exists i3. split; [|done]. by destruct (disable_checksum s).
Qed.

(** The codec of the state decompresses the frame. *)
Lemma flagged_decompress st dec s dest :
  readable st dec -> (length (st_block st) <= length dest)%nat ->
  decompress (flagged s dec) (st_frame st) dest = Ok (st_block st ++ drop (length (st_block st)) dest).
Proof.
  intros [_ _ (enc & data & Hm & Hc & Hdata & Hback & _) Hs _ _] Hd. unfold GiB in Hs.
  apply (decompress_frame enc _ _ _ data); try done; [by rewrite flagged_method|lia|].
  unfold flagged. by destruct (external_data s).
Qed.

Lemma get_codec_frame s sts st dec :
  codecs_ok s sts -> st ∈ sts -> readable st dec -> readHeaderAndGetCodec factory (st_frame st) s = Ok (flagged s dec).
Proof.
  intros Hok Hin Hr. destruct (readable_header st dec Hr) as (header & _ & (data & ->) & Hh).
  eapply get_codec_spec; [done|done|done|apply Hh].
Qed.

Abbreviation found st := {| compressed_buffer := st_frame st; size_decompressed := size_of (st_block st) |}.

Lemma decompressTo_spec s sts st dec to :
  codecs_ok s sts -> st ∈ sts -> readable st dec -> length to = length (st_block st) ->
  decompressTo factory to (found st) s = Ok (st_block st, set_codec (flagged s dec) s).
Proof.
  intros Hok Hin Hr Hl. unfold decompressTo. cbn [compressed_buffer]. rewrite (get_codec_frame s sts st dec Hok Hin Hr). cbn [rbind].
  rewrite (flagged_decompress st dec s to Hr) by lia. cbn [rbind]. by rewrite drop_ge, app_nil_r by lia.
Qed.

(** The frame of a codec that stores data as it is ends with the data. *)
Lemma none_frame st dec :
  readable st dec -> isNone (traits dec) = true -> drop COMPRESSED_BLOCK_HEADER_SIZE (st_frame st) = st_block st.
Proof.
  intros [_ _ (enc & data & _ & (data' & Hd & ->)%compress_Ok & Hdata & _ & Hnone) _ _ _] Hn. rewrite Hdata in Hd.
  injection Hd as <-. rewrite (Hnone Hn), !app_assoc.
  apply drop_app_length'. simpl_len. by rewrite !length_le_bytes.
Qed.

Lemma load_block_spec s sts st dec :
  codecs_ok s sts -> st ∈ sts -> readable st dec -> r_codec s = Some (flagged s dec) ->
  exists m, load_block factory fresh (found st) s = Ok (st_block st, set_memory_ m s).
Proof.
  intros Hok Hin Hr Hcodec. unfold load_block. rewrite Hcodec. cbn [size_decompressed].
  set (n := Z.to_nat _). set (s1 := set_memory_ _ s).
  assert (Hok1 : codecs_ok s1 sts) by done.
  assert (Hset : forall m, set_memory_ m (set_codec (flagged s1 dec) s1) = set_memory_ m s).
  { intros m. unfold set_codec, set_memory_. simpl. by rewrite Hcodec. }
  unfold decompress_to_buffer. cbn [compressed_buffer size_decompressed]. rewrite (get_codec_frame s1 sts st dec Hok1 Hin Hr). cbn [rbind].
  assert (Hsize : (length (st_block st) <= n)%nat).
  { pose proof (rd_additional st dec Hr). unfold n, flagged. destruct (external_data s); simpl; lia. }
  assert (En : isNone (traits (flagged s1 dec)) = isNone (traits dec)) by (unfold flagged; by destruct (external_data s1)).
  rewrite En. destruct (isNone (traits dec)) eqn:Hn.
  - pose proof (none_frame st dec Hr Hn) as Hd. destruct (readable_header st dec Hr) as (h & Hh & (data & Ef) & _).
    destruct (Nat.ltb_spec (length (st_frame st)) COMPRESSED_BLOCK_HEADER_SIZE) as [Hlt|_].
    { rewrite Ef in Hlt. unfold COMPRESSED_BLOCK_HEADER_SIZE in Hlt. simpl_len. lia. }
    rewrite Hd. exists (memory s1). by rewrite <- Hset.
  - cbn [memory set_codec set_memory_ s1]. rewrite (flagged_decompress st dec s1) by (done || by rewrite (resize_length fresh fresh_length)).
    cbn [rbind]. rewrite Nat2Z.id, take_app_length, Hset. by eexists.
Qed.

(** [readCompressedData] found the block [st], that the state can decompress. *)
Definition loadable (s : CompressedReadBufferBase (S := S)) (st : Stored) (sts : list Stored) : Prop :=
  codecs_ok s sts /\ st ∈ sts /\ exists dec, readable st dec /\ r_codec s = Some (flagged s dec).

(** What does not change while a block is decompressed. *)
Definition same_place (s s' : CompressedReadBufferBase (S := S)) : Prop :=
  compressed_in s' = compressed_in s /\ size_compressed s' = size_compressed s.

Lemma block_step always_copy s st sts all :
  iinv (compressed_in s) (stored_bytes (st :: sts)) -> codecs_ok s all -> st ∈ all ->
  exists s', readCompressedData CityHash128 factory I always_copy s = Ok (Some (found st), s') /\
    iinv (compressed_in s') (stored_bytes sts) /\ loadable s' st all.
Proof.
  intros H Hok Hin. destruct (codecs_ok_readable s all st Hok Hin) as [dec Hr].
  destruct (readCompressedData_block always_copy s st sts all dec H Hok Hin Hr) as (i & -> & Hi). eexists. split; [done|].
  split; [done|]. split; [by apply (codecs_ok_next s all st)|]. split; [done|]. by exists dec.
Qed.

Lemma load_step s st sts : loadable s st sts ->
  exists s', load_block factory fresh (found st) s = Ok (st_block st, s') /\ same_place s s' /\ codecs_ok s' sts.
Proof.
  intros (Hok & Hin & dec & Hr & Hc). destruct (load_block_spec s sts st dec Hok Hin Hr Hc) as (m & ->). eexists.
  split; [done|]. by split.
Qed.

Lemma direct_step s st sts to : loadable s st sts -> length to = length (st_block st) ->
  exists s', decompressTo factory to (found st) s = Ok (st_block st, s') /\ same_place s s' /\ codecs_ok s' sts.
Proof.
  intros (Hok & Hin & dec & Hr & Hc) Hl. rewrite (decompressTo_spec s sts st dec to Hok Hin Hr Hl). eexists. split; [done|].
  split; [done|]. apply (codecs_ok_next s sts st dec (compressed_in s) Hok Hin Hr).
Qed.

Lemma block_size s st sts : codecs_ok s sts -> st ∈ sts -> 0 < size_of (st_block st) < GiB.
Proof. intros Hok Hin. destruct (codecs_ok_readable s sts st Hok Hin) as [dec Hr]. by apply (rd_size st dec). Qed.

Lemma loadable_size s st sts : loadable s st sts -> 0 < size_of (st_block st) < GiB.
Proof. intros (Hok & Hin & _). by eapply block_size. Qed.

(** The codec needs no negative number of additional bytes. *)
Lemma loadable_codec s st sts : loadable s st sts -> exists codec,
  r_codec s = Some codec /\ 0 <= getAdditionalSizeAtTheEndOfBuffer codec.
Proof.
  intros (_ & _ & dec & Hr & Hc). pose proof (rd_additional st dec Hr). eexists. split; [done|].
  unfold flagged. by destruct (external_data s).
Qed.

Lemma blocks_of_nil s sts : codecs_ok s sts -> blocks_of sts = [] -> sts = [].
Proof.
  destruct sts as [|st sts]; [done|]. intros Hok E. pose proof (block_size s st _ Hok ltac:(left)) as Hs.
  unfold blocks_of in E. simpl in E. apply app_nil in E as [E _]. rewrite E in Hs. simpl in Hs. lia.
Qed.

End Valid.

(** ** The sequential reader *)

Section SequentialProofs.
Context (CityHash128 : bytes -> Z * Z) (factory : Z -> result ICompressionCodec) (fresh : nat -> bytes).
Context (fresh_length : forall n, length (fresh n) = n).
Context {S : Type} (I : ReadImpl S) (iinv : ReadBuffer S -> bytes -> Prop) `{!ReaderSpec I iinv} `{!WholePieces I iinv}.
Context (clobber : bytes -> bytes) (clobber_length : forall bs, length (clobber bs) = length bs).

Abbreviation Reader := (ReadBuffer (CompressedReadBufferBase (S := S))).
Abbreviation C := (FromCompressed CityHash128 factory fresh I clobber).
Implicit Types b : Reader.

(** The input holds the frames of blocks, and what was read of the current one. *)
Definition cr_inv (b : Reader) (data : bytes) : Prop :=
  exists sts, 0 <= pos b <= size_working b /\ size_working b < 2 ^ 63 /\ nextimpl_working_buffer_offset b = 0 /\
    data = drop (Z.to_nat (pos b)) (working_buffer b) ++ blocks_of sts /\
    iinv (compressed_in (impl b)) (stored_bytes CityHash128 sts) /\ codecs_ok factory (impl b) sts.

#[export] Instance compressed_reader : ReaderSpec C cr_inv.
Proof.
  split.
  - intros b data (sts & Hp & Hs & _). done.
  - intros b data (sts & Hp & Hs & Hn & -> & Hi & Hok). exists (blocks_of sts). split; [done|]. intros p Hp'.
    exists sts. unfold size_working in *. simpl. split_and!; done || lia.
  - intros b (sts & Hp & Hs & Hn & Hd & Hi & Hok). symmetry in Hd. apply app_nil in Hd as [_ Hd].
    apply (blocks_of_nil factory (impl b)) in Hd; [|done]. subst sts.
    destruct (readCompressedData_end CityHash128 factory I iinv false (impl b) Hi) as (i & E & Hi').
    cbn [nextImpl FromCompressed]. unfold cr_nextImpl. cbn [impl set_bytes]. rewrite E. cbn [rbind]. eexists. split; [done|].
    exists []. by split_and!.
  - intros b data (sts & Hp & Hs & Hn & -> & Hi & Hok) Hne Hend.
    rewrite drop_ge in * by (unfold size_working in *; lia). destruct sts as [|st sts]; [done|].
    destruct (block_step CityHash128 factory I iinv false (impl b) st sts _ Hi Hok ltac:(left)) as (s1 & E & Hi1 & Hl).
    destruct (load_step factory fresh fresh_length (set_size_compressed (compressed_size_of {| compressed_buffer := st_frame st;
      size_decompressed := size_of (st_block st) |}) s1) st (st :: sts)) as (s2 & E2 & [Ein _] & Hok2); [done|].
    apply (codecs_ok_sub _ _ _ sts) in Hok2; [|set_solver].
    cbn [nextImpl FromCompressed]. unfold cr_nextImpl. cbn [impl set_bytes]. rewrite E. cbn [rbind]. rewrite E2. cbn [rbind].
    pose proof (loadable_size factory s1 st _ Hl). unfold GiB in *. eexists. split; [done|]. split.
    + exists sts. unfold arrived, size_working. simpl. rewrite Hn, Ein, Z.min_l by lia. split_and!; try done; try lia.
    + unfold arrived, size_working. simpl. rewrite Hn. lia.
Qed.

#[export] Instance compressed_whole_pieces : WholePieces C cr_inv.
Proof.
  split.
  - intros b data b' (sts & _ & _ & Hn & _) E. cbn [nextImpl FromCompressed] in E. unfold cr_nextImpl in E.
    apply rbind_Ok in E as ([o i] & _ & E). destruct o as [sz|]; [|by apply Ok_inj in E].
    apply rbind_Ok in E as ([w2 s2] & _ & E). apply Ok_inj in E as [= <-]. unfold arrived. simpl. rewrite Hn. unfold size_working. lia.
  - intros b data p (sts & Hp & Hs & Hn & -> & Hi & Hok) Hp'. exists sts. unfold size_working in *. simpl. split_and!; try done; try lia.
    f_equal. rewrite drop_app_ge by (simpl_len; lia). rewrite <- (drop_0 (blocks_of sts)) at 2. f_equal. simpl_len. lia.
Qed.

(** At the end nothing is left of the input. *)
Lemma cr_inv_end b : cr_inv b [] -> iinv (compressed_in (impl b)) [].
Proof.
  intros (sts & _ & _ & _ & Hd & Hi & Hok). symmetry in Hd. apply app_nil in Hd as [_ Hd].
  apply (blocks_of_nil factory (impl b)) in Hd; [|done]. by subst sts.
Qed.

(** Nothing is left in the working buffer: the data is that of the blocks to come. *)
Lemma cr_inv_empty b data : cr_inv b data -> pos b = size_working b ->
  exists sts, data = blocks_of sts /\ iinv (compressed_in (impl b)) (stored_bytes CityHash128 sts) /\
    codecs_ok factory (impl b) sts /\ size_working b < 2 ^ 63 /\ nextimpl_working_buffer_offset b = 0.
Proof.
  intros (sts & Hp & Hs & Hn & -> & Hi & Hok) E. exists sts. by rewrite drop_ge by (unfold size_working in *; lia).
Qed.

Lemma cr_inv_at_end b sts : pos b = size_working b -> size_working b < 2 ^ 63 -> nextimpl_working_buffer_offset b = 0 ->
  iinv (compressed_in (impl b)) (stored_bytes CityHash128 sts) -> codecs_ok factory (impl b) sts -> cr_inv b (blocks_of sts).
Proof.
  intros. exists sts. rewrite drop_ge by (unfold size_working in *; lia). unfold size_working in *. split_and!; done || lia.
Qed.

Lemma cr_readBig_loop_spec fuel to n got b data :
  cr_inv b data -> pos b = size_working b -> n <= size_of to -> size_of got <= n ->
  (Z.to_nat (n - size_of got) < fuel)%nat ->
  exists b', cr_readBig_loop CityHash128 factory fresh I clobber fuel to n got b =
      Ok (got ++ take (Z.to_nat (n - size_of got)) data, b') /\ cr_inv b' (drop (Z.to_nat (n - size_of got)) data).
Proof.
  revert got b data. induction fuel as [|fuel IH]; intros got b data H Hend Hto Hgot Hf; [lia|]. cbn [cr_readBig_loop].
  destruct (Z.leb_spec n (size_of got)).
  { exists b. replace (Z.to_nat _) with 0%nat by lia. by rewrite app_nil_r. }
  destruct (cr_inv_empty b data H Hend) as (sts & -> & Hi & Hok & Hsz & Hn).
  assert (Hsize : forall s n0, size_working (set_bytes n0 (clobbered clobber (set_impl s b))) = size_working b).
  { intros. unfold size_working. simpl. by rewrite clobber_length. }
  destruct sts as [|st sts].
  { destruct (readCompressedData_end CityHash128 factory I iinv false (impl b) Hi) as (i & -> & Hi'). cbn [rbind].
    eexists. change (blocks_of []) with (@nil Z). rewrite take_nil, drop_nil, app_nil_r. split; [done|]. apply (cr_inv_at_end _ []); simpl;
      unfold size_working in *; simpl in *; rewrite ?clobber_length; done. }
  destruct (block_step CityHash128 factory I iinv false (impl b) st sts _ Hi Hok ltac:(left)) as (s1 & -> & Hi1 & Hl).
  cbn [rbind]. pose proof (loadable_size factory s1 st _ Hl) as Hs. unfold GiB in Hs. cbn [size_decompressed].
  destruct (loadable_codec factory s1 st _ Hl) as (codec1 & -> & Hadd).
  assert (Hsub : sts ⊆ st :: sts) by set_solver.
  change (blocks_of (st :: sts)) with (st_block st ++ blocks_of sts). destruct (Z.leb_spec (size_of (st_block st) + getAdditionalSizeAtTheEndOfBuffer codec1) (n - size_of got)).
  - destruct (direct_step factory s1 st (st :: sts) (take (Z.to_nat (size_of (st_block st))) (drop (length got) to)) Hl)
      as (s2 & -> & [Ein _] & Hok2%(codecs_ok_sub _ _ _ sts Hsub)); [simpl_len; lia|]. cbn [rbind].
    destruct (IH (got ++ st_block st) (set_bytes (uwrap 64 (bytes_before (clobbered clobber (set_impl s1 b)) +
      size_of (st_block st))) (set_impl s2 (clobbered clobber (set_impl s1 b)))) (blocks_of sts)) as (b' & -> & Hb').
    + apply cr_inv_at_end; unfold size_working in *; simpl in *; rewrite ?clobber_length, ?Ein; done.
    + unfold size_working in *. simpl. by rewrite clobber_length.
    + done.
    + simpl_len. lia.
    + simpl_len. lia.
    + exists b'. rewrite take_app_ge, drop_app_ge, <- app_assoc by lia. simpl_len.
      replace (Z.to_nat (n - size_of got) - length (st_block st))%nat with
        (Z.to_nat (n - Z.of_nat (length got + length (st_block st)))) by lia. done.
  - destruct (load_step factory fresh fresh_length s1 st _ Hl) as (s2 & -> & [Ein _] & Hok2%(codecs_ok_sub _ _ _ sts Hsub)). cbn [rbind].
    set (b1 := set_working _ 0 _). assert (Hb1 : cr_inv b1 (st_block st ++ blocks_of sts)).
    { exists sts. unfold b1, size_working. simpl. rewrite Ein. split_and!; try done; lia. }
    destruct (read_spec C cr_inv (n - size_of got) b1 _ Hb1) as (b2 & -> & Hb2). cbn [rbind]. by exists b2.
Qed.

(** [readBig] reads what [read] does. *)
Lemma cr_readBig_spec to n b data :
  cr_inv b data -> 0 <= n <= size_of to ->
  exists b', cr_readBig CityHash128 factory fresh I clobber to n b = Ok (take (Z.to_nat n) data, b') /\
    cr_inv b' (drop (Z.to_nat n) data).
Proof.
  intros H Hn. pose proof (inv_bounds b data H) as [Hp _]. pose proof (inv_length C cr_inv b data H) as Hlen.
  unfold cr_readBig. destruct (Z.ltb_spec (pos b) (size_working b)) as [Hlt|Hge].
  - destruct (Z.ltb_spec 0 n).
    2: { assert (n = 0) as -> by lia. rewrite Z.min_r by lia. exists b. split; [done|exact H]. }
    rewrite (read_pending C cr_inv _ b data H) by lia. cbn [rbind]. set (k := Z.min _ n).
    pose proof (inv_advance C cr_inv b data k H ltac:(lia)) as H1.
    assert (Ek : length (take (Z.to_nat k) data) = Z.to_nat k) by (simpl_len; lia).
    destruct (Z.leb_spec n (size_working b - pos b)).
    + replace k with n in * by lia. eexists. cbn [cr_readBig_loop]. rewrite Ek.
      destruct (Z.leb_spec n (Z.of_nat (Z.to_nat n))); [|lia]. split; [done|exact H1].
    + destruct (cr_readBig_loop_spec (Datatypes.S (Z.to_nat n)) to n (take (Z.to_nat k) data) _ _ H1) as (b2 & -> & Hb2).
      * unfold size_working in *. simpl. lia.
      * lia.
      * rewrite Ek. lia.
      * lia.
      * exists b2. rewrite Ek in *. rewrite drop_drop in Hb2. rewrite take_take_drop.
        replace (Z.to_nat k + Z.to_nat (n - Z.of_nat (Z.to_nat k)))%nat with (Z.to_nat n) in * by lia. done.
  - cbn [rbind]. destruct (cr_readBig_loop_spec (Datatypes.S (Z.to_nat n)) to n [] b data H) as (b1 & -> & H1);
      [lia|lia|simpl; lia|simpl; lia|]. exists b1. simpl in *. by rewrite Z.sub_0_r in *.
Qed.

End SequentialProofs.
