(* ===== verification/CompressedFile.v ===== *)
(** Reading a compressed file from any mark
    (src/Compression/CompressedReadBufferFromFile.{h,cpp}): a mark is the position of a
    block in the file and an offset in the data of the block. *)
From S2P Require Import Prelude IntText BinaryIO ReadBuffer ReadBufferFromFile WriteBuffer Codec.
From S2P Require Import CompressedWriteBuffer CompressedReadBuffer.
Import Binary.

(** * [CompressedReadBufferFromFile] *)

Section FromFile.
Context (CityHash128 : bytes -> Z * Z) (factory : Z -> result ICompressionCodec) (fresh : nat -> bytes).
Context {S : Type} (ops : FileOperations S) (clobber : bytes -> bytes).

Abbreviation Reader := (ReadBuffer (CompressedReadBufferBase (S := S))).
Implicit Types b : Reader.

(** [nextImpl] *)
Definition ff_nextImpl b : result (bool * Reader) :=
  let! (block, s) := readCompressedData CityHash128 factory (file_impl ops) false (impl b) in
  match block with
  | None => Ok (false, clobbered clobber (set_impl (set_size_compressed 0 s) b))
  | Some block =>
      let! (w, s) := load_block factory fresh block (set_size_compressed (compressed_size_of block) s) in
      if size_of w <? nextimpl_working_buffer_offset b then Throw SEEK_POSITION_OUT_OF_BOUND
      else Ok (true, set_working w (pos b) (set_impl s b))
  end.

Definition FromCompressedFile : ReadImpl (CompressedReadBufferBase (S := S)) := {|
  nextImpl := ff_nextImpl;
  bound := cr_bound (file_impl ops) |}.

(** [seek] *)
Definition ff_seek (offset_in_compressed_file offset_in_decompressed_block : Z) b : result Reader :=
  let s := impl b in
  let position := getPosition ops (compressed_in s) in
  if (size_compressed s =? 0) && (uwrap 64 position =? offset_in_compressed_file)
     && ((negb (size_working b =? 0) && (offset b =? offset_in_decompressed_block))
         || (nextimpl_working_buffer_offset b =? offset_in_decompressed_block)) then Ok b
  else if negb (size_compressed s =? 0)
     && (offset_in_compressed_file =? uwrap 64 (position - size_compressed s))
     && (offset_in_decompressed_block <=? size_working b) then Ok (set_pos offset_in_decompressed_block b)
  else
    let! i := seek ops offset_in_compressed_file (compressed_in s) in
    let b := set_bytes (uwrap 64 (bytes_before b + offset b)) b in
    let b := resetWorkingBuffer b in
    Ok (set_nextimpl_offset offset_in_decompressed_block (set_impl (set_size_compressed 0 (set_in i s)) b)).

(** The loop of [readBig] for codecs that decompress synchronously; [got] are the bytes
    in [to] so far, and the result has the flag [read_tail]. *)
Fixpoint ff_readBig_loop (fuel : nat) (to : bytes) (n : Z) (got : bytes) b : result (bytes * bool * Reader) :=
  let bytes_read := size_of got in
  if n <=? bytes_read then Ok (got, false, b)
  else match fuel with
  | O => Throw OUT_OF_FUEL
  | Datatypes.S fuel =>
      let! (block, s) := readCompressedData CityHash128 factory (file_impl ops) false (impl b) in
      let! (block, s) :=
        match block with
        | Some block => Ok (Some block, s)
        | None => readCompressedData CityHash128 factory (file_impl ops) false s
        end in
      let b := clobbered clobber (set_impl (set_size_compressed 0 s) b) in
      match block with
      | None => Ok (got, false, b)
      | Some block =>
          let s := impl b in
          let additional := match r_codec s with Some codec => getAdditionalSizeAtTheEndOfBuffer codec | None => 0 end in
          let size := size_decompressed block in
          let skipped := nextimpl_working_buffer_offset b in
          if (skipped =? 0) && (size + additional <=? n - bytes_read) then
            let! (out, s) := decompressTo factory (take (Z.to_nat size) (drop (length got) to)) block s in
            ff_readBig_loop fuel to n (got ++ out) (set_bytes (uwrap 64 (bytes_before b + size)) (set_impl s b))
          else
            let b := set_bytes (uwrap 64 (bytes_before b + offset b)) b in
            let! (w, s) := load_block factory fresh block (set_size_compressed (compressed_size_of block) s) in
            if 0 <? skipped then
              let size_partial := Z.min (uwrap 64 (size - skipped)) (n - bytes_read) in
              let b := set_nextimpl_offset 0 (set_working w skipped (set_impl s b)) in
              let! (bs, b) := read FromCompressedFile size_partial b in
              ff_readBig_loop fuel to n (got ++ bs) b
            else Ok (got, true, set_working w (pos b) (set_impl s b))
      end
  end.

Definition ff_readBig (to : bytes) (n : Z) b : result (bytes * Reader) :=
  let! (got, b) :=
    if pos b <? size_working b then read FromCompressedFile (Z.min (size_working b - pos b) n) b else Ok ([], b) in
  let! (got, read_tail, b) := ff_readBig_loop (Datatypes.S (Datatypes.S (Z.to_nat n))) to n got b in
  if read_tail : bool then
    let! (bs, b) := read FromCompressedFile (n - size_of got) (set_pos 0 b) in Ok (got ++ bs, b)
  else Ok (got, b).

End FromFile.

(** * Proofs *)

Section FromFileProofs.
Context (CityHash128 : bytes -> Z * Z) (factory : Z -> result ICompressionCodec) (fresh : nat -> bytes).
Context (fresh_length : forall n, length (fresh n) = n).
Context (clobber : bytes -> bytes) (clobber_length : forall bs, length (clobber bs) = length bs).
(** The blocks of the file. *)
Context (all : list Stored).
Abbreviation F := (stored_bytes CityHash128 all).
Context {S : Type} (ops : FileOperations S) (finv : ReadBuffer S -> bytes -> Prop) `{!FileSpec ops F finv}.

Abbreviation Reader := (ReadBuffer (CompressedReadBufferBase (S := S))).
Abbreviation C := (FromCompressedFile CityHash128 factory fresh ops clobber).
Implicit Types b : Reader.

Abbreviation found st := {| compressed_buffer := st_frame st; size_decompressed := size_of (st_block st) |}.

(** Where the reader is: [pre] are the blocks before the position in the file and
    [sts] those after it. *)
Record ff_place (b : Reader) (pre sts : list Stored) : Prop := {
  ff_blocks : all = pre ++ sts;
  ff_in : finv (compressed_in (impl b)) (stored_bytes CityHash128 sts);
  ff_codecs : codecs_ok factory (impl b) all;
  ff_bounds : 0 <= pos b <= size_working b /\ size_working b < 2 ^ 63;
  ff_idle : size_compressed (impl b) = 0 -> pos b = size_working b;
  ff_current : size_compressed (impl b) <> 0 -> exists pre' st, pre = pre' ++ [st] /\
    working_buffer b = st_block st /\ size_compressed (impl b) = size_of (st_frame st) + CHECKSUM_SIZE }.

(** The data to come, after a lazy seek and otherwise. *)
Definition ff_data (b : Reader) (sts : list Stored) (data : bytes) : Prop :=
  if nextimpl_working_buffer_offset b =? 0 then
    data = drop (Z.to_nat (pos b)) (working_buffer b) ++ blocks_of sts
  else
    working_buffer b = [] /\ size_compressed (impl b) = 0 /\ exists st sts', sts = st :: sts' /\
      0 < nextimpl_working_buffer_offset b < size_of (st_block st) /\
      data = drop (Z.to_nat (nextimpl_working_buffer_offset b)) (blocks_of sts).

Definition ff_inv (b : Reader) (data : bytes) : Prop :=
  exists pre sts, ff_place b pre sts /\ ff_data b sts data.

Lemma ff_sub b pre sts st : ff_place b pre (st :: sts) -> st ∈ all.
Proof. intros H. rewrite (ff_blocks b pre _ H). set_solver. Qed.

Lemma ff_place_pos b pre sts p : ff_place b pre sts -> pos b <= p <= size_working b -> ff_place (set_pos p b) pre sts.
Proof. intros [] Hp. split; try done; unfold size_working in *; simpl; lia. Qed.

(** Reading the next block. *)
Lemma ff_next_block b pre st sts :
  ff_place b pre (st :: sts) ->
  exists s, readCompressedData CityHash128 factory (file_impl ops) false (impl b) =
      Ok (Some (found st), s) /\
    finv (compressed_in s) (stored_bytes CityHash128 sts) /\ loadable factory s st all.
Proof.
  intros H. pose proof (ff_sub b pre sts st H) as Hin. destruct H as [_ Hi Hok _ _ _].
  exact (block_step CityHash128 factory (file_impl ops) finv false (impl b) st sts all Hi Hok Hin).
Qed.

(** Making it the working buffer. *)
Lemma ff_load b pre st sts s :
  ff_place b pre (st :: sts) -> finv (compressed_in s) (stored_bytes CityHash128 sts) -> loadable factory s st all ->
  exists s', load_block factory fresh (found st) (set_size_compressed (compressed_size_of (found st)) s) = Ok (st_block st, s') /\
    size_compressed s' <> 0 /\ forall b', impl b' = s' -> working_buffer b' = st_block st -> 0 <= pos b' <= size_of (st_block st) ->
      ff_place b' (pre ++ [st]) sts.
Proof.
  intros H Hi Hl. destruct (load_step factory fresh fresh_length
    (set_size_compressed (compressed_size_of (found st)) s) st all) as (s' & E & [Ein Esz] & Hok); [done|].
  assert (Hsz : size_compressed s' <> 0) by (rewrite Esz; simpl; unfold compressed_size_of, CHECKSUM_SIZE; simpl; lia).
  exists s'. split; [done|]. split; [done|]. intros b' <- Hw Hp. pose proof (loadable_size factory s st all Hl) as Hs. unfold GiB in Hs. split.
  - rewrite (ff_blocks b pre _ H). by rewrite <- app_assoc.
  - by rewrite Ein.
  - done.
  - unfold size_working. rewrite Hw. lia.
  - done.
  - intros _. exists pre, st. rewrite Esz. done.
Qed.

Lemma ff_end b pre : ff_place b pre [] ->
  exists i, readCompressedData CityHash128 factory (file_impl ops) false (impl b) = Ok (None, set_in i (impl b)) /\ finv i [].
Proof. intros [_ Hi _ _ _ _]. by apply (readCompressedData_end CityHash128 factory (file_impl ops) finv). Qed.

Lemma ff_blocks_of b pre sts : ff_place b pre sts -> blocks_of sts = [] -> sts = [].
Proof.
  intros H. apply (blocks_of_nil factory (impl b)). eapply (codecs_ok_sub factory _ all); [|apply H].
  rewrite (ff_blocks b pre sts H). set_solver.
Qed.

(** After a lazy seek there is data. *)
Lemma ff_data_lazy b pre sts data : ff_place b pre sts -> ff_data b sts data -> nextimpl_working_buffer_offset b <> 0 ->
  data <> [] /\ pos b = size_working b.
Proof.
  intros H. unfold ff_data. destruct (Z.eqb_spec (nextimpl_working_buffer_offset b) 0); [done|].
  intros (Hw & _ & st & sts' & -> & Ho & ->) _. pose proof (ff_bounds b pre _ H) as [Hp _]. unfold size_working in *.
  rewrite Hw in *. simpl in *. split; [|lia]. intros E. apply (f_equal length) in E. unfold blocks_of in E. simpl in E.
  simpl_len. lia.
Qed.

(** The next block becomes the working buffer, with the cursor at the mark. *)
Lemma ff_nextImpl_spec b data n : ff_inv b data -> data <> [] -> pos b = size_working b ->
  exists b', ff_nextImpl CityHash128 factory fresh ops clobber (set_bytes n b) = Ok (true, b') /\ ff_inv (arrived b') data /\
    pos (arrived b') < size_working b' /\ size_compressed (impl b') <> 0.
Proof.
  intros (pre & sts & H & Hd) Hne Hend.
  assert (exists st sts', sts = st :: sts' /\ 0 <= nextimpl_working_buffer_offset b < size_of (st_block st) /\
    data = drop (Z.to_nat (nextimpl_working_buffer_offset b)) (st_block st) ++ blocks_of sts') as (st & sts' & -> & Ho & ->).
  { unfold ff_data in Hd. destruct (Z.eqb_spec (nextimpl_working_buffer_offset b) 0) as [E|E].
    - rewrite drop_ge in Hd by (unfold size_working in *; lia). subst data. destruct sts as [|st sts]; [done|].
      exists st, sts. rewrite E. split_and!; [done|lia| |done].
      pose proof (block_size factory (impl b) st all (ff_codecs b pre _ H) (ff_sub b pre sts st H)). lia.
    - destruct Hd as (_ & _ & st & sts' & -> & Ho & ->). exists st, sts'. split_and!; [done|lia|lia|].
      change (blocks_of (st :: sts')) with (st_block st ++ blocks_of sts'). by rewrite drop_app_le by lia. }
  destruct (ff_next_block b pre st sts' H) as (s1 & E1 & Hi1 & Hl1).
  destruct (ff_load b pre st sts' s1 H Hi1 Hl1) as (s2 & E2 & Hsz2 & Hplace).
  unfold ff_nextImpl. cbn [impl set_bytes nextimpl_working_buffer_offset].
  rewrite E1. cbn [rbind]. rewrite E2. cbn [rbind].
  destruct (Z.ltb_spec (size_of (st_block st)) (nextimpl_working_buffer_offset b)); [lia|].
  eexists. split; [done|]. unfold arrived, size_working. simpl. rewrite Z.min_l by lia. split_and!; [|lia|done].
  exists (pre ++ [st]), sts'. split; [apply Hplace; simpl; done || lia|done].
Qed.

#[export] Instance compressed_file_reader : ReaderSpec C ff_inv.
Proof.
  split.
  - intros b data (pre & sts & H & _). apply H.
  - intros b data (pre & sts & H & Hd). pose proof H as [Hb Hi Hok Hp Hz Hc]. unfold ff_data in Hd.
    destruct (Z.eqb_spec (nextimpl_working_buffer_offset b) 0) as [E|E].
    + exists (blocks_of sts). split; [done|]. intros p Hp'. exists pre, sts. split; [by apply ff_place_pos|].
      unfold ff_data. simpl. by rewrite E.
    + exists data. destruct Hd as (Hw & Hd). rewrite Hw, drop_nil. split; [done|]. intros p Hp'. rewrite drop_nil.
      exists pre, sts. split; [by apply ff_place_pos|]. unfold ff_data. simpl.
      by destruct (Z.eqb_spec (nextimpl_working_buffer_offset b) 0).
  - intros b (pre & sts & H & Hd). destruct (Z.eq_dec (nextimpl_working_buffer_offset b) 0) as [E|E].
    2: { by destruct (ff_data_lazy b pre sts [] H Hd E). }
    unfold ff_data in Hd. rewrite E in Hd. simpl in Hd. symmetry in Hd. apply app_nil in Hd as [_ Hd].
    apply (ff_blocks_of b pre) in Hd; [|done]. subst sts. destruct (ff_end b pre H) as (i & Er & Hi).
    cbn [nextImpl FromCompressedFile]. unfold ff_nextImpl. cbn [impl set_bytes]. rewrite Er. cbn [rbind].
    eexists. split; [done|]. exists pre, []. split; [|unfold ff_data; done]. destruct H. by split.
  - intros b data H Hne Hend. destruct (ff_nextImpl_spec b data (uwrap 64 (bytes_before b + offset b)) H Hne Hend) as (b' & E & Hi & Hp & _). by exists b'.
Qed.

(** The result of the loop of [readBig]: the bytes it read of the data, and either
    there are enough of them or the rest is to be read from the working buffer. *)
Definition big_ok (n : Z) (got data : bytes) (r : result (bytes * bool * Reader)) : Prop :=
  exists k b', (k <= Z.to_nat (n - size_of got))%nat /\
    (r = Ok (got ++ take (Z.to_nat (n - size_of got)) data, false, b') /\ ff_inv b' (drop (Z.to_nat (n - size_of got)) data) \/
     r = Ok (got ++ take k data, true, b') /\ (k <= length data)%nat /\ ff_inv (set_pos 0 b') (drop k data)).

Lemma big_ok_app n got bs data r :
  size_of got + size_of bs <= n -> big_ok n (got ++ bs) data r -> big_ok n got (bs ++ data) r.
Proof.
  intros Hn (k & b' & Hk & Hr). exists (length bs + k)%nat, b'. simpl_len.
  rewrite take_app_ge, drop_app_ge by lia. rewrite take_app_add, drop_app_add. rewrite !app_assoc.
  replace (Z.to_nat (n - size_of got) - length bs)%nat with (Z.to_nat (n - Z.of_nat (length got + length bs))) by lia.
  split; [lia|]. destruct Hr as [Hr|(E & Hl & Hr)]; [by left|right]. split_and!; [done|lia|done].
Qed.

(** The state after [readCompressedData] in the loop. *)
Lemma ff_clobbered b pre sts s n :
  all = pre ++ sts -> finv (compressed_in s) (stored_bytes CityHash128 sts) -> codecs_ok factory s all ->
  size_compressed s = 0 -> 0 <= pos b -> pos b = size_working b -> size_working b < 2 ^ 63 ->
  ff_place (set_bytes n (clobbered clobber (set_impl s b))) pre sts.
Proof.
  intros Hb Hi Hok Hz Hp Hend Hs. split; simpl; try done; unfold size_working in *; simpl; rewrite clobber_length; lia.
Qed.

Abbreviation loop := (ff_readBig_loop CityHash128 factory fresh ops clobber).

(** A block that fits entirely, without bytes to skip. *)
Lemma big_direct fuel to n got b pre st sts :
  ff_place b pre (st :: sts) -> pos b = size_working b -> nextimpl_working_buffer_offset b = 0 ->
  n <= size_of to ->
  (forall got' b' data', size_of got' <= n -> size_of got < size_of got' -> ff_inv b' data' -> pos b' = size_working b' ->
     nextimpl_working_buffer_offset b' = 0 -> big_ok n got' data' (loop fuel to n got' b')) ->
  forall s s0, finv (compressed_in s) (stored_bytes CityHash128 sts) -> loadable factory s st all -> size_compressed s = 0 ->
  size_of got + size_of (st_block st) <= n ->
  big_ok n got (st_block st ++ blocks_of sts)
    (let! (out, s') := decompressTo factory (take (Z.to_nat (size_of (st_block st))) (drop (length got) to))
        (found st) s in
     loop fuel to n (got ++ out) (set_bytes s0 (set_impl s' (clobbered clobber (set_impl s b))))).
Proof.
  intros H Hend Hn Hto IH s s0 Hi Hl Hz Hfit. pose proof (loadable_size factory s st all Hl) as Hs.
  destruct (direct_step factory s st all (take (Z.to_nat (size_of (st_block st))) (drop (length got) to)) Hl)
    as (s2 & -> & [Ein Esz] & Hok2); [simpl_len; lia|]. cbn [rbind]. apply big_ok_app; [done|].
  pose proof (ff_bounds b pre _ H) as [Hp Hw].
  apply IH; simpl_len; try lia; [|unfold size_working in *; simpl; by rewrite clobber_length|done].
  exists (pre ++ [st]), sts. split.
  - apply (ff_clobbered b (pre ++ [st]) sts s2 s0); try done.
    + rewrite (ff_blocks b pre _ H). by rewrite <- app_assoc.
    + by rewrite Ein.
    + by rewrite Esz.
    + lia.
  - unfold ff_data. simpl. rewrite Hn. simpl. rewrite drop_ge; [done|]. unfold size_working in *. rewrite clobber_length. lia.
Qed.

(** At the end of the file. *)
Lemma big_end fuel to n got b pre data :
  ff_place b pre [] -> ff_data b [] data -> pos b = size_working b -> size_of got < n ->
  big_ok n got data (loop (Datatypes.S fuel) to n got b).
Proof.
  intros H0 Hd Hend Hgot. pose proof (ff_bounds b pre [] H0) as [Hp Hw]. cbn [ff_readBig_loop].
  destruct (Z.leb_spec n (size_of got)); [lia|].
  destruct (Z.eq_dec (nextimpl_working_buffer_offset b) 0) as [E|E].
  2: { unfold ff_data in Hd. destruct (Z.eqb_spec (nextimpl_working_buffer_offset b) 0); [done|].
       by destruct Hd as (_ & _ & st & sts' & ? & _). }
  unfold ff_data in Hd. rewrite E in Hd. simpl in Hd. rewrite drop_ge in Hd by (unfold size_working in *; lia).
  change (blocks_of []) with (@nil Z) in Hd. simpl in Hd. subst data.
  destruct (ff_end b pre H0) as (i & -> & Hi). cbn [rbind].
  destruct (readCompressedData_end CityHash128 factory (file_impl ops) finv false (set_in i (impl b)) Hi) as (i2 & -> & Hi2).
  cbn [rbind]. eexists 0%nat, _. split; [lia|left]. rewrite take_nil, drop_nil, app_nil_r. split; [done|].
  exists pre, []. split.
  - apply (ff_clobbered b pre [] _ (bytes_before b)); try done; try lia; apply H0.
  - unfold ff_data. simpl. rewrite E. simpl. rewrite drop_ge; [done|]. unfold size_working in *. rewrite clobber_length. lia.
Qed.

Lemma ff_readBig_loop_spec fuel to n got b data :
  ff_inv b data -> pos b = size_working b \/ n <= size_of got -> n <= size_of to -> size_of got <= n ->
  (Z.to_nat (n - size_of got) + (if (nextimpl_working_buffer_offset b =? 0)%Z then 0 else 1) < fuel)%nat ->
  big_ok n got data (loop fuel to n got b).
Proof.
  revert got b data. induction fuel as [|fuel IH]; intros got b data Hinv Hend Hto Hgot Hf; [lia|].
  destruct (Z_le_gt_dec n (size_of got)) as [Hle|Hgt].
  { cbn [ff_readBig_loop]. destruct (Z.leb_spec n (size_of got)); [|lia]. exists 0%nat, b. split; [lia|left]. replace (Z.to_nat _) with 0%nat by lia. by rewrite app_nil_r. }
  destruct Hend as [Hend|]; [|lia]. pose proof Hinv as (pre & sts & H0 & Hd). pose proof (ff_bounds b pre sts H0) as [Hp Hw].
  destruct sts as [|st sts]; [eapply big_end; done || lia|]. cbn [ff_readBig_loop]. destruct (Z.leb_spec n (size_of got)); [lia|].
  destruct (ff_next_block b pre st sts H0) as (s1 & -> & Hi1 & Hl1). cbn [rbind]. cbn [impl set_impl clobbered set_working].
  destruct (loadable_codec factory s1 st all Hl1) as (codec1 & Ecodec & Hadd). cbn [r_codec set_size_compressed]. rewrite Ecodec.
  cbn [size_decompressed]. pose proof (loadable_size factory s1 st all Hl1) as Hs. unfold GiB in Hs.
  set (b1 := clobbered clobber (set_impl (set_size_compressed 0 s1) b)).
  change (nextimpl_working_buffer_offset b1) with (nextimpl_working_buffer_offset b).
  destruct (ff_load b pre st sts (set_size_compressed 0 s1) H0 Hi1 Hl1) as (s2 & E2 & Hsz2 & Hplace).
  destruct (Z.eqb_spec (nextimpl_working_buffer_offset b) 0) as [E|E]; cbn [andb].
  - (* nothing to skip *)
    unfold ff_data in Hd. rewrite E in Hd. simpl in Hd. rewrite drop_ge in Hd by (unfold size_working in *; lia). simpl in Hd.
    change (blocks_of (st :: sts)) with (st_block st ++ blocks_of sts) in Hd. subst data.
    destruct (Z.leb_spec (size_of (st_block st) + getAdditionalSizeAtTheEndOfBuffer codec1) (n - size_of got)) as [Hfit|Hfit].
    + apply (big_direct fuel to n got b pre st sts); try done; [|lia].
      intros got' b' data' H1 H2 H3 H4 H5. apply IH; try done; [by left|]. rewrite H5. simpl. lia.
    + rewrite E2. cbn [rbind]. rewrite E. cbn [Z.ltb Z.compare]. eexists 0%nat, _. split; [lia|right].
      rewrite app_nil_r. split_and!; [done|lia|]. exists (pre ++ [st]), sts. split; [apply Hplace; simpl; done || lia|].
      unfold ff_data. simpl. by rewrite E.
  - (* the bytes before the mark are skipped *)
    unfold ff_data in Hd. destruct (Z.eqb_spec (nextimpl_working_buffer_offset b) 0); [done|].
    destruct Hd as (Hwork & _ & st' & sts' & [= <- <-] & Ho & ->). set (o := nextimpl_working_buffer_offset b) in *.
    rewrite E2. cbn [rbind]. destruct (Z.ltb_spec 0 o); [|lia]. rewrite uwrap_small by (unfold in_unsigned; lia).
    set (b2 := set_nextimpl_offset 0 _). set (k := Z.min (size_of (st_block st) - o) (n - size_of got)).
    change (blocks_of (st :: sts)) with (st_block st ++ blocks_of sts). rewrite drop_app_le by lia.
    assert (H2 : ff_inv b2 (drop (Z.to_nat o) (st_block st) ++ blocks_of sts)).
    { exists (pre ++ [st]), sts. split; [apply Hplace; simpl; done || lia|done]. }
    rewrite (read_pending C ff_inv k b2 _ H2) by (unfold b2, size_working; simpl; lia). cbn [rbind].
    pose proof (inv_advance C ff_inv b2 _ k H2) as H3. unfold b2 at 1 in H3. unfold size_working in H3. simpl in H3.
    specialize (H3 ltac:(lia)). set (rest := drop (Z.to_nat o) (st_block st)) in *.
    assert (Hrest : size_of rest = size_of (st_block st) - o) by (unfold rest; simpl_len; lia).
    rewrite <- (take_drop (Z.to_nat k) (rest ++ blocks_of sts)) at 1. apply big_ok_app; [simpl_len; lia|].
    apply IH; [done| |done|simpl_len; lia|].
    2: { change (nextimpl_working_buffer_offset (set_pos (pos b2 + k) b2)) with 0. simpl_len. simpl. lia. }
    destruct (Z.leb_spec (size_of (st_block st) - o) (n - size_of got)); [left|right].
    + unfold size_working, b2. simpl. lia.
    + simpl_len. lia.
Qed.

(** [readBig] reads what [read] does, after a seek or not. *)
Lemma ff_readBig_spec to n b data :
  ff_inv b data -> 0 <= n <= size_of to ->
  exists b', ff_readBig CityHash128 factory fresh ops clobber to n b = Ok (take (Z.to_nat n) data, b') /\
    ff_inv b' (drop (Z.to_nat n) data).
Proof.
  intros H Hn. pose proof (inv_bounds b data H) as [Hp _]. pose proof (inv_length C ff_inv b data H) as Hlen.
  assert (Hrest : forall got b1 data1, ff_inv b1 data1 -> pos b1 = size_working b1 \/ n <= size_of got -> size_of got <= n ->
    exists b', (let! (got', read_tail, b2) := loop (Datatypes.S (Datatypes.S (Z.to_nat n))) to n got b1 in
      if read_tail : bool then let! (bs, b3) := read C (n - size_of got') (set_pos 0 b2) in Ok (got' ++ bs, b3) else Ok (got', b2))
      = Ok (got ++ take (Z.to_nat (n - size_of got)) data1, b') /\ ff_inv b' (drop (Z.to_nat (n - size_of got)) data1)).
  { intros got b1 data1 H1 Hend Hgot.
    destruct (ff_readBig_loop_spec (Datatypes.S (Datatypes.S (Z.to_nat n))) to n got b1 data1 H1 Hend) as (k & b2 & Hk & Hr);
      [lia|lia|destruct (_ =? 0); lia|]. destruct Hr as [(-> & Hr)|(-> & Hkl & Hr)]; cbn [rbind]; [by exists b2|].
    destruct (read_spec C ff_inv (n - size_of (got ++ take k data1)) _ _ Hr) as (b3 & -> & H3). cbn [rbind]. exists b3.
    rewrite drop_drop in H3. rewrite <- app_assoc, take_take_drop. simpl_len.
    replace (k + _)%nat with (Z.to_nat (n - size_of got)) in * by lia. done. }
  unfold ff_readBig. destruct (Z.ltb_spec (pos b) (size_working b)) as [Hlt|Hge].
  - destruct (Z.ltb_spec 0 n) as [Hpos|].
    2: { assert (n = 0) as -> by lia. rewrite Z.min_r by lia. exists b. split; [done|exact H]. }
    rewrite (read_pending C ff_inv _ b data H) by lia. cbn [rbind]. set (k := Z.min _ n).
    pose proof (inv_advance C ff_inv b data k H ltac:(lia)) as H1.
    assert (Ek : length (take (Z.to_nat k) data) = Z.to_nat k) by (simpl_len; lia).
    destruct (Hrest (take (Z.to_nat k) data) _ _ H1) as (b' & -> & Hb').
    + rewrite Ek. unfold size_working in *. simpl. lia.
    + rewrite Ek. lia.
    + exists b'. rewrite Ek in *. rewrite drop_drop in Hb'. rewrite take_take_drop.
      replace (Z.to_nat k + Z.to_nat (n - Z.of_nat (Z.to_nat k)))%nat with (Z.to_nat n) in * by lia. done.
  - cbn [rbind]. destruct (Hrest [] b data H) as (b' & -> & Hb'); [left; lia|simpl; lia|].
    exists b'. simpl in *. by rewrite Z.sub_0_r in *.
Qed.

(** ** Seeking *)

Context (Hfile : size_of F < 2 ^ 63).

(** A mark: an offset in the first of the blocks [sts], or the beginning of what is
    after them. *)
Definition valid_mark (sts : list Stored) (o : Z) : Prop :=
  o = 0 \/ exists st sts', sts = st :: sts' /\ 0 < o < size_of (st_block st).

(** The only state in which [seek] goes wrong: the working buffer is that of an earlier
    block, and happens to have the size of the offset. *)
Definition stale (b : Reader) (o : Z) : Prop :=
  size_compressed (impl b) = 0 /\ working_buffer b <> [] /\ pos b = o.

Lemma stored_bytes_app xs ys : stored_bytes CityHash128 (xs ++ ys) = stored_bytes CityHash128 xs ++ stored_bytes CityHash128 ys.
Proof. unfold stored_bytes. by rewrite fmap_app, join_app. Qed.

Lemma stored_bytes_cons st sts : size_of (stored_bytes CityHash128 (st :: sts)) =
  size_of (st_frame st) + CHECKSUM_SIZE + size_of (stored_bytes CityHash128 sts).
Proof.
  change (stored_bytes CityHash128 (st :: sts)) with (with_checksum CityHash128 (st_frame st) ++ stored_bytes CityHash128 sts).
  rewrite length_app, length_with_checksum. unfold CHECKSUM_SIZE. lia.
Qed.

Lemma stored_bytes_snoc sts st : size_of (stored_bytes CityHash128 (sts ++ [st])) =
  size_of (stored_bytes CityHash128 sts) + (size_of (st_frame st) + CHECKSUM_SIZE).
Proof. rewrite stored_bytes_app, length_app, Nat2Z.inj_add, stored_bytes_cons. simpl. lia. Qed.

Lemma stored_before pre sts : all = pre ++ sts -> in_unsigned 64 (size_of (stored_bytes CityHash128 pre)).
Proof. intros E. rewrite E, stored_bytes_app, length_app in Hfile. unfold in_unsigned. lia. Qed.

(** A position in the file determines the blocks before it. *)
Lemma split_unique pre sts pre' sts' :
  pre ++ sts = pre' ++ sts' ->
  size_of (stored_bytes CityHash128 pre) = size_of (stored_bytes CityHash128 pre') -> pre = pre' /\ sts = sts'.
Proof.
  revert pre'. induction pre as [|st pre IH]; intros [|st' pre'] E Hl; try done;
    rewrite ?stored_bytes_cons in Hl; unfold CHECKSUM_SIZE in Hl; try (simpl in Hl; lia).
  injection E as <- E. destruct (IH pre' E) as [-> ->]; [lia|done].
Qed.

Lemma ff_position b pre sts : ff_place b pre sts ->
  uwrap 64 (getPosition ops (compressed_in (impl b))) = size_of (stored_bytes CityHash128 pre) /\
  getPosition ops (compressed_in (impl b)) = size_of (stored_bytes CityHash128 pre).
Proof.
  intros [Hb Hi _ _ _ _]. destruct (file_position _ _ Hi) as [-> _].
  assert (E : size_of F - size_of (stored_bytes CityHash128 sts) = size_of (stored_bytes CityHash128 pre)).
  { rewrite Hb at 1. rewrite stored_bytes_app. simpl_len. lia. }
  rewrite E. split; [|done]. apply uwrap_small. by apply (stored_before pre sts).
Qed.

Lemma ff_data_at b sts o : nextimpl_working_buffer_offset b = o -> working_buffer b = [] -> size_compressed (impl b) = 0 ->
  valid_mark sts o -> ff_data b sts (drop (Z.to_nat o) (blocks_of sts)).
Proof.
  intros Eo Hw Hz Hv. unfold ff_data. rewrite Eo. destruct (Z.eqb_spec o 0) as [->|Hne].
  - by rewrite Hw, drop_nil.
  - split; [done|]. split; [done|]. destruct Hv as [|(st & sts' & -> & Ho)]; [done|]. by exists st, sts'.
Qed.

(** [seek] moves to a mark: the data of the blocks from there on comes next. *)
Lemma ff_seek_spec b data pre sts o :
  ff_inv b data -> all = pre ++ sts -> valid_mark sts o -> ~ stale b o ->
  exists b', ff_seek ops (size_of (stored_bytes CityHash128 pre)) o b = Ok b' /\ ff_inv b' (drop (Z.to_nat o) (blocks_of sts)).
Proof.
  intros (pre0 & sts0 & H & Hd) Hall Hv Hstale. destruct (ff_position b pre0 sts0 H) as [Hpu Hp].
  pose proof H as [Hb Hi Hok [Hpos Hw] Hidle Hcur]. unfold ff_seek. rewrite Hpu.
  destruct (_ && _ && _) eqn:E1.
  { (* the reader is there already *)
    apply andb_true_iff in E1 as [[Hz%Z.eqb_eq Hpp%Z.eqb_eq]%andb_true_iff E1].
    destruct (split_unique pre0 sts0 pre sts) as [-> ->]; [congruence|done|]. exists b. split; [done|]. exists pre, sts.
    split; [done|]. specialize (Hidle Hz). apply orb_true_iff in E1 as [[Hne Ho%Z.eqb_eq]%andb_true_iff|Ho%Z.eqb_eq].
    { exfalso. apply Hstale. unfold offset in Ho. rewrite uwrap_small in Ho by (unfold in_unsigned; lia). split_and!; [done| |done].
      intros Hnil. unfold size_working in Hne. by rewrite Hnil in Hne. }
    unfold ff_data in Hd |- *. rewrite Ho in Hd |- *. destruct (Z.eqb_spec o 0) as [E0|Hne].
    - rewrite E0. by rewrite (drop_ge (working_buffer b)) by (unfold size_working in *; lia).
    - destruct Hd as (? & ? & st & sts' & ? & ? & _). split_and!; [done|done|]. by exists st, sts'. }
  clear E1. destruct (_ && _ && _) eqn:E2.
  { (* the block is in the working buffer *)
    apply andb_true_iff in E2 as [[Hz%negb_true_iff%Z.eqb_neq Hpp%Z.eqb_eq]%andb_true_iff Hle%Z.leb_le].
    destruct (Hcur Hz) as (pre1 & st & -> & Ework & Esz). rewrite Hp, Esz, stored_bytes_snoc in Hpp.
    replace (_ - _) with (size_of (stored_bytes CityHash128 pre1)) in Hpp by lia.
    rewrite uwrap_small in Hpp by (apply (stored_before pre1 (st :: sts0)); by rewrite Hb, <- app_assoc).
    destruct (split_unique pre sts pre1 (st :: sts0)) as [-> ->]; [by rewrite <- Hall, Hb, <- app_assoc|done|].
    eexists. split; [done|]. exists (pre1 ++ [st]), sts0. assert (Ho : 0 <= o) by (destruct Hv as [->|(? & ? & _ & ?)]; lia). split.
    - split; simpl; try done; unfold size_working in *; simpl; lia.
    - unfold ff_data. simpl. unfold ff_data in Hd. destruct (Z.eqb_spec (nextimpl_working_buffer_offset b) 0) as [|Hne].
      + rewrite Ework. change (blocks_of (st :: sts0)) with (st_block st ++ blocks_of sts0). rewrite drop_app_le; [done|].
        unfold size_working in Hle. rewrite Ework in Hle. lia.
      + by destruct Hd as (_ & ? & _). }
  (* a lazy seek *)
  clear E2. destruct (file_seek (compressed_in (impl b)) _ (size_of (stored_bytes CityHash128 pre)) Hi) as (i & -> & Hi').
  { rewrite Hall, stored_bytes_app. simpl_len. lia. }
  cbn [rbind]. eexists. split; [done|]. exists pre, sts. split; [|by apply ff_data_at]. split; simpl; try done.
  rewrite Hall, stored_bytes_app, Nat2Z.id, drop_app_length in Hi'. done.
Qed.

(** ** Sequences of operations *)

(** The working buffer is that of the current block, or empty. *)
Definition current (b : Reader) : Prop := size_compressed (impl b) = 0 -> working_buffer b = [].

Definition ff_current_inv (b : Reader) (data : bytes) : Prop := ff_inv b data /\ current b.

Instance current_reader : ReaderSpec C ff_current_inv.
Proof.
  split.
  - intros b data [H _]. by apply inv_bounds in H.
  - intros b data [H Hc]. destruct (inv_pending b data H) as (later & Hd & Hl). exists later. split; [done|].
    intros p Hp. split; [by apply Hl|done].
  - intros b [H Hc]. destruct (inv_end (I := C) b H) as (b' & E & Hb). exists b'. split; [done|]. split; [done|]. by intros _.
  - intros b data [H Hc] Hne Hend. destruct (ff_nextImpl_spec b data (uwrap 64 (bytes_before b + offset b)) H Hne Hend) as (b' & E & Hb & Hp & Hz).
    exists b'. split_and!; [done| |done]. split; [done|]. by intros ?.
Qed.

Lemma ff_seek_current p o b b' : current b -> ff_seek ops p o b = Ok b' -> current b'.
Proof.
  intros Hc. unfold ff_seek. destruct (_ && _ && _); [by intros [= <-]|].
  destruct (_ && _ && _) eqn:E; [intros [= <-]|].
  - apply andb_true_iff in E as [[E%negb_true_iff%Z.eqb_neq _]%andb_true_iff _]. by intros ?.
  - intros (i & _ & E')%rbind_Ok. by apply Ok_inj in E' as <-.
Qed.

(** [seek] to the offset [o] of the [k]-th block. *)
Definition seek_block (k : nat) (o : Z) (b : Reader) : result Reader :=
  ff_seek ops (size_of (stored_bytes CityHash128 (take k all))) o b.

Abbreviation serve_file := (serve C (ff_readBig CityHash128 factory fresh ops clobber) seek_block).

Definition at_block (k : nat) (o : Z) : bytes := drop (Z.to_nat o) (blocks_of (drop k all)).

(** A [seek] is only reliable to the beginnings of blocks, or without [readBig]. *)
Definition valid_request (big : bool) (q : Request) : Prop :=
  match q with
  | Plain op => valid_operation op
  | OpReadBig to n => 0 <= n <= size_of to /\ big = true
  | OpSeek k o => valid_mark (drop k all) o /\ (big = true -> o = 0)
  end.

Definition run_inv (big : bool) (b : Reader) (data : bytes) : Prop := ff_inv b data /\ (big = false -> current b).

Lemma serve_file_flat big q b data : run_inv big b data -> valid_request big q ->
  simulates (run_inv big) (serve_file q b) (flat_serve at_block q data).
Proof.
  intros [H Hc] Hv. destruct q as [op|to n|k o]; unfold serve, flat_serve.
  - destruct big.
    + pose proof (operate_flat C ff_inv op b data H Hv) as Hs. destruct (flat op data) as [[a data']|e]; [|done].
      destruct Hs as (b' & -> & Hb). exists b'. by split.
    + pose proof (operate_flat C ff_current_inv op b data (conj H (Hc eq_refl)) Hv) as Hs.
      destruct (flat op data) as [[a data']|e]; [|done]. destruct Hs as (b' & -> & Hb & Hb'). exists b'. by split.
  - destruct Hv as [Hn ->]. destruct (ff_readBig_spec to n b data H Hn) as (b' & -> & Hb). exists b'. by split.
  - destruct Hv as [Hm Hrel]. unfold seek_block.
    destruct (ff_seek_spec b data (take k all) (drop k all) o H) as (b' & E & Hb); [by rewrite take_drop|done| |].
    + intros (Hz & Hne & Hp). destruct big; [|by apply Hne, (Hc eq_refl)]. rewrite Hrel in Hp by done.
      destruct H as (pre & sts & Hplace & _). rewrite (ff_idle b pre sts Hplace Hz) in Hp. unfold size_working in Hp.
      by destruct (working_buffer b).
    + rewrite E. exists b'. split; [done|]. split; [done|]. intros Hbig. by eapply ff_seek_current; [apply Hc|].
Qed.

(** A buffer made over a file that was not read yet. *)
Lemma ff_create_inv i different external :
  finv i F -> (forall s : CompressedReadBufferBase (S := S), r_codec s = None -> allow_different_codecs s = different ->
    external_data s = external -> codecs_ok factory s all) ->
  forall big, run_inv big (cr_create i different external) (blocks_of all).
Proof.
  intros Hi Hok big. split; [|done]. exists [], all. split; [|done].
  split; simpl; unfold size_working; simpl; try done; try lia. by apply Hok.
Qed.

End FromFileProofs.
