(* ===== verification/CompressedStream.v ===== *)
(** Compressed files, written and read back: the buffers, the codecs and the factory
    together. *)
From S2P Require Import Prelude IntText BinaryIO ReadBuffer ReadBufferFromFile WriteBuffer Codec.
From S2P Require Import CompressedWriteBuffer CompressedReadBuffer CompressedFile Elements CodecDelta CodecLZ4.
From S2P Require Import CodecZSTD CodecFactory.
Import Binary.

(** * What is stored is readable *)

Section Stored.
Context (CityHash128 : bytes -> Z * Z) (factory : Z -> result ICompressionCodec).
Context (c dec : ICompressionCodec) (limit : Z) (Hc : Storable factory c dec limit) (Hlimit : limit < 2 ^ 30).

Definition stored_block (block : bytes) : Stored := {| st_block := block; st_frame := frame c block |}.

Lemma stored_stream blocks : stored_bytes CityHash128 (stored_block <$> blocks) = stream CityHash128 c blocks.
Proof. unfold stored_bytes, stream. by rewrite <- list_fmap_compose. Qed.

Lemma stored_data blocks : blocks_of (stored_block <$> blocks) = mjoin blocks.
Proof. unfold blocks_of. rewrite <- list_fmap_compose. by rewrite list_fmap_id. Qed.

Lemma stored_readable block : is_block limit block -> readable factory (stored_block block) dec.
Proof.
  intros Hb. pose proof (storable_fits _ _ _ _ Hc) as Hf. destruct (frame_ok c limit block Hb) as (Hcomp & Hbytes & Hsize).
  destruct Hb as [Hb Hs]. destruct (fits_reserve c limit block Hf Hb Hs) as (data & Hd & Hdb & Hres).
  pose proof (storable_method _ _ _ _ Hc) as Hm. split.
  - apply (storable_factory _ _ _ _ Hc).
  - rewrite <- Hm. apply (fits_method (FitsReserve := Hf)).
  - exists c, data. split_and!; try done.
    + intros dest Hl. by apply (storable_restores _ _ _ _ Hc block data dest).
    + intros Hn. pose proof (storable_none _ _ _ _ Hc block Hn). simpl. congruence.
  - simpl. unfold GiB. lia.
  - simpl. unfold GiB, DBMS_MAX_COMPRESSED_SIZE in *. lia.
  - apply (storable_additional _ _ _ _ Hc).
Qed.

Lemma stored_codecs_ok {S} (s : CompressedReadBufferBase (S := S)) blocks :
  r_codec s = None -> Forall (is_block limit) blocks -> codecs_ok factory s (stored_block <$> blocks).
Proof.
  intros Hs Hb. split_and!.
  - by rewrite Hs.
  - apply Forall_fmap. eapply Forall_impl; [exact Hb|]. intros block Hbl. exists dec. by apply stored_readable.
  - intros _. exists (getMethodByte dec). split; [by rewrite Hs|]. apply Forall_fmap. eapply Forall_impl; [exact Hb|].
    intros block Hbl dec' Hr. apply stored_readable in Hbl.
    destruct (readable_header _ _ _ Hr) as (h & Hl & (d & E) & Hh). destruct (readable_header _ _ _ Hbl) as (h' & Hl' & (d' & E') & Hh').
    rewrite E in E'. destruct (Hh d) as [H1 _]. destruct (Hh' d') as [H2 _]. rewrite E' in H1. congruence.
Qed.

End Stored.

(** * Writing a compressed file *)

(** A writer of a new file. *)
Definition create_file (buf_size : Z) (adaptive : bool) (max_size : Z) (cs : list Syscall) : FileWriteBuffer := {|
  pending := []; capacity := buf_size; written_before := 0; w_nextimpl_offset := 0; finalized := false; canceled := false;
  w_impl := {| w_fd := {| file := []; fd_position := 0; calls := cs |};
    use_adaptive_buffer_size := adaptive; adaptive_max_buffer_size := max_size |} |}.

Lemma create_file_inv buf_size adaptive max_size cs :
  0 < buf_size < 2 ^ 62 -> max_size < 2 ^ 62 -> valid_calls cs -> Failed ∉ cs ->
  fdw_inv (create_file buf_size adaptive max_size cs) [].
Proof. intros Hb Hm Hv Hf. unfold fdw_inv, fdw_state, w_offset. simpl. split_and!; try done; lia. Qed.

(** All that was accepted is in the file in the end. *)
Lemma fd_finalize_spec b data : fdw_inv b data ->
  exists b', finalize ToFileDescriptor fd_finalizeImpl b = (Ok tt, b') /\ file (w_fd (w_impl b')) = data.
Proof.
  intros H. pose proof H as [(_ & _ & Hf & Hc & _) _]. unfold finalize, fd_finalizeImpl. rewrite Hf, Hc.
  set (b0 := set_w_impl _ b). assert (H0 : fdw_inv b0 data) by done.
  destruct (w_next_spec ToFileDescriptor fdw_inv b0 data H0) as (b1 & -> & [(_ & _ & _ & _ & _ & _ & _ & ->) _] & Hp).
  eexists. split; [done|]. simpl. by rewrite Hp, app_nil_r.
Qed.

Section Store.
Context (CityHash128 : bytes -> Z * Z).

(** Pieces of data written through the compressing buffer, which is then finalized and
    the file with it. *)
Definition store (c : ICompressionCodec) (buf_size : Z) (adaptive : bool) (initial_size : Z) (w : FileWriteBuffer)
    (froms : list bytes) : outcome FileWriteBuffer :=
  let O := ToCompressed CityHash128 ToFileDescriptor in
  match write_all O froms (cw_create w c buf_size adaptive initial_size)
          >> finalize O (cw_finalizeImpl CityHash128 ToFileDescriptor) with
  | (Ok _, b) => finalize ToFileDescriptor fd_finalizeImpl (out (w_impl b))
  | (Throw e, b) => (Throw e, out (w_impl b))
  end.

Lemma cw_create_at {S} (oinv : WriteBuffer S -> bytes -> Prop) c limit base o buf_size adaptive initial_size :
  oinv o base -> 0 < buf_size <= limit -> 0 < initial_size <= limit ->
  cw_at CityHash128 oinv c limit base [] (cw_create o c buf_size adaptive initial_size) [].
Proof.
  intros Ho Hb Hi. unfold cw_at, w_offset, w_count, stream. simpl. rewrite app_nil_r.
  split_and!; try done; try (destruct adaptive; lia). by apply Forall_nil_2.
Qed.

(** The file has blocks of the data. *)
Lemma store_spec c limit buf_size adaptive initial_size w froms :
  FitsReserve c limit -> limit < 2 ^ 30 -> 0 < buf_size <= limit -> 0 < initial_size <= limit -> fdw_inv w [] ->
  Forall is_bytes froms ->
  exists w' blocks, store c buf_size adaptive initial_size w froms = (Ok tt, w') /\ mjoin froms = mjoin blocks /\
    Forall (is_block limit) blocks /\ file (w_fd (w_impl w')) = stream CityHash128 c blocks.
Proof.
  intros Hc Hl Hb Hi Hw Hf. unfold store. set (O := ToCompressed CityHash128 ToFileDescriptor).
  set (inv := cw_inv CityHash128 fdw_inv c limit []).
  assert (Hspec : WriterSpec O inv) by (apply compressed_writer; [apply fd_writer|done|done]).
  assert (H0 : inv (cw_create w c buf_size adaptive initial_size) []) by (exists []; by apply cw_create_at).
  destruct (write_all_spec O inv froms _ _ H0 Hf) as (b1 & -> & H1). cbn [andthen app] in *.
  destruct (cw_finalize_spec CityHash128 ToFileDescriptor fdw_inv c limit Hl [] b1 _ H1)
    as (b2 & blocks & Efin & Ed & Hbl & Ho & _). fold O in Efin. rewrite Efin.
  destruct (fd_finalize_spec _ _ Ho) as (w' & E & Hfile). by exists w', blocks.
Qed.

End Store.

(** * Reading it back *)

(** A request that the sequential reader serves. *)
Definition sequential_request (q : Request) : Prop :=
  match q with
  | Plain op => valid_operation op
  | OpReadBig to n => 0 <= n <= size_of to
  | OpSeek _ _ => False
  end.

Definition no_seek {S} (k : nat) (o : Z) (b : ReadBuffer S) : result (ReadBuffer S) := Throw CANNOT_SEEK_THROUGH_FILE.
Definition no_mark (k : nat) (o : Z) : bytes := [].

Section ReadBack.
Context (CityHash128 : bytes -> Z * Z) (factory : Z -> result ICompressionCodec) (fresh : nat -> bytes).
Context (fresh_length : forall n, length (fresh n) = n).
Context (clobber : bytes -> bytes) (clobber_length : forall bs, length (clobber bs) = length bs).

Section Sequential.
Context {S : Type} (I : ReadImpl S) (iinv : ReadBuffer S -> bytes -> Prop) `{!ReaderSpec I iinv} `{!WholePieces I iinv}.

Abbreviation serve_sequential := (serve_all (FromCompressed CityHash128 factory fresh I clobber)
  (cr_readBig CityHash128 factory fresh I clobber) no_seek).

Lemma sequential_flat qs b data :
  cr_inv CityHash128 factory iinv b data -> Forall sequential_request qs ->
  serve_sequential qs b = flat_serve_all no_mark qs data.
Proof.
  intros H. apply (serve_all_flat _ _ _ _ (cr_inv CityHash128 factory iinv)); [|done]. clear b data H.
  intros q b data H Hv. destruct q as [op|to n|k o]; [|simpl in Hv|done].
  - apply operate_flat; [apply compressed_reader; done|done|done].
  - unfold serve, flat_serve.
    destruct (cr_readBig_spec CityHash128 factory fresh fresh_length I iinv clobber clobber_length to n b data H Hv) as (b' & -> & Hb).
    by exists b'.
Qed.

Lemma cr_create_inv c dec limit blocks i different external :
  Storable factory c dec limit -> limit < 2 ^ 30 -> Forall (is_block limit) blocks ->
  iinv i (stream CityHash128 c blocks) ->
  cr_inv CityHash128 factory iinv (cr_create i different external) (mjoin blocks).
Proof.
  intros Hc Hl Hb Hi. exists (stored_block c <$> blocks). unfold size_working. simpl. rewrite stored_data, stored_stream.
  split_and!; try done. by apply (stored_codecs_ok factory c dec limit).
Qed.

End Sequential.
End ReadBack.

(** * Theorems *)

(** C11: compressed data reads back as it was written: whatever pieces it was written
    in, the sizes of the buffers, the pieces that the system calls transfer, and the
    codec, whose frames the factory can restore, all requests to a reader of the file
    are answered as on the data itself. *)
Theorem compressed_stream_roundtrip (CityHash128 : bytes -> Z * Z) (factory : Z -> result ICompressionCodec)
    (fresh : nat -> bytes) (clobber : bytes -> bytes) (c dec : ICompressionCodec) (limit buf_size : Z) (adaptive : bool)
    (initial_size file_buf : Z) (file_adaptive : bool) (file_max : Z) (writes : list Syscall) (froms : list bytes) :
  (forall n, length (fresh n) = n) -> (forall bs, length (clobber bs) = length bs) ->
  Storable factory c dec limit -> limit < 2 ^ 30 -> 0 < buf_size <= limit -> 0 < initial_size <= limit ->
  0 < file_buf < 2 ^ 62 -> file_max < 2 ^ 62 -> valid_calls writes -> Failed ∉ writes -> Forall is_bytes froms ->
  exists w, store CityHash128 c buf_size adaptive initial_size (create_file file_buf file_adaptive file_max writes) froms =
      (Ok tt, w) /\
    forall read_buf alignment pread reads different external qs,
      let F := file (w_fd (w_impl w)) in
      size_of F < 2 ^ 63 -> 0 < read_buf < 2 ^ 63 -> 0 <= alignment -> valid_calls reads -> Failed ∉ reads ->
      Forall sequential_request qs ->
      serve_all (FromCompressed CityHash128 factory fresh FromFileDescriptor clobber)
        (cr_readBig CityHash128 factory fresh FromFileDescriptor clobber) no_seek qs
        (cr_create (open_file F read_buf alignment pread None reads) different external) =
      flat_serve_all no_mark qs (mjoin froms).
Proof.
  intros Hfresh Hclob Hc Hl Hb Hi Hfb Hfm Hv Hf Hfroms.
  destruct (store_spec CityHash128 c limit buf_size adaptive initial_size _ froms (storable_fits _ _ _ _ Hc) Hl Hb Hi
    (create_file_inv file_buf file_adaptive file_max writes Hfb Hfm Hv Hf) Hfroms) as (w & blocks & E & Ed & Hbl & Hfile).
  exists w. split; [done|]. intros read_buf alignment pread reads different external qs F HF Hrb Ha Hr Hrf Hq.
  apply (sequential_flat CityHash128 factory fresh Hfresh clobber Hclob FromFileDescriptor (fd_inv F)); [|done].
  rewrite Ed. apply (cr_create_inv _ _ (fd_inv F) c dec limit); try done. rewrite <- Hfile. by apply open_file_inv.
Qed.

(** A checksum, for examples. *)
Definition sum_hash (bs : bytes) : Z * Z := (size_of bs, foldr Z.add 0 bs).

(** [CODEC(Delta(2), LZ4)] *)
Definition delta_lz4 : ICompressionCodec :=
  CompressionCodecMultiple (plain_lookup none_factory) zero_memory
    [Delta.CompressionCodecDelta 2; CompressionCodecLZ4 literal_library plain_surroundings].

Lemma delta_lz4_ok : chain_ok [Delta.CompressionCodecDelta 2; CompressionCodecLZ4 literal_library plain_surroundings] 64.
Proof.
  split; [done|]. split; [by apply Delta.fits_Delta|]. split; [done|]. split; [|by split].
  apply (fits_LZ4 literal_library plain_surroundings). done.
Qed.

(** The codecs that the plain factory undoes. *)
Lemma plain_registered nested c :
  any_length literal_library plain_surroundings storing_zstd Z.gcd Z.div c -> registered (plain_lookup nested) 1 c.
Proof.
  intros Hc. destruct (any_length_lookup literal_library plain_surroundings storing_zstd absent_creator absent_creator
    Z.gcd Z.div None zero_memory nested ltac:(done) ltac:(done) c Hc) as (dec & Hl & Hless & Ha & _). by exists dec.
Qed.

Lemma delta_lz4_storable : exists dec, Storable (plain_lookup (plain_lookup none_factory)) delta_lz4 dec 64.
Proof.
  eexists. apply chain_storable; [intros; apply length_replicate|apply delta_lz4_ok| |done|done].
  repeat apply Forall_cons_2; try apply Forall_nil_2; apply plain_registered; [by apply any_delta|apply any_lz4].
Qed.

Lemma compressed_stream_roundtrip_witness :
  exists w, store sum_hash delta_lz4 4 true 2 (create_file 10 false 10 [Transfer 3; Interrupted]) [[1; 2]; [3; 4; 5]; [6]] =
      (Ok tt, w) /\
    serve_all (FromCompressed sum_hash (plain_lookup (plain_lookup none_factory)) zero_memory FromFileDescriptor id)
      (cr_readBig sum_hash (plain_lookup (plain_lookup none_factory)) zero_memory FromFileDescriptor id) no_seek
      [Plain OpReadStrict1; OpReadBig [0; 0; 0; 0] 4; Plain OpPeek; Plain (OpReadStrict 2)]
      (cr_create (open_file (file (w_fd (w_impl w))) 7 0 true None [Interrupted; Transfer 2]) false false) =
    [Ok (Byte (Some 1)); Ok (Bytes [2; 3; 4; 5]); Ok (Byte (Some 6)); Throw CANNOT_READ_ALL_DATA].
Proof.
  destruct delta_lz4_storable as [dec Hc].
  destruct (compressed_stream_roundtrip sum_hash (plain_lookup (plain_lookup none_factory)) zero_memory id delta_lz4 dec 64
    4 true 2 10 false 10 [Transfer 3; Interrupted] [[1; 2]; [3; 4; 5]; [6]]) as (w & E & H);
    [intros; apply length_replicate|done|exact Hc|done|done|done|done|done|by repeat (apply Forall_cons_2; [done|])
    |by apply (bool_decide_unpack _)|repeat constructor; discriminate|].
  exists w. split; [exact E|].
  assert (Hsize : size_of (file (w_fd (w_impl w))) < 2 ^ 63).
  { apply (f_equal snd) in E. cbn [snd] in E. rewrite <- E. vm_compute. reflexivity. }
  rewrite (H 7 0 true [Interrupted; Transfer 2] false false _ Hsize); clear; [reflexivity|done|done|..].
  - by repeat (apply Forall_cons_2; [done|]).
  - by apply (bool_decide_unpack _).
  - by repeat (apply Forall_cons_2; [done|]).
Defined.

(** C7: a compressed file can be read from any mark: seeks to any block, or to an
    offset in it, between reads of all kinds, give the data from there on, over files
    whose blocks have different codecs.  Seeks into blocks are excluded when [readBig]
    is used too. *)
Theorem compressed_file_random_access (CityHash128 : bytes -> Z * Z) (factory : Z -> result ICompressionCodec)
    (fresh : nat -> bytes) (clobber : bytes -> bytes) (blocks : list Stored) (read_buf alignment : Z) (pread : bool)
    (reads : list Syscall) (external big : bool) (qs : list Request) :
  let F := stored_bytes CityHash128 blocks in
  (forall n, length (fresh n) = n) -> (forall bs, length (clobber bs) = length bs) ->
  Forall (fun st => exists dec, readable factory st dec) blocks ->
  size_of F < 2 ^ 63 -> 0 < read_buf < 2 ^ 63 -> 0 <= alignment -> valid_calls reads -> Failed ∉ reads ->
  Forall (valid_request blocks big) qs ->
  serve_all (FromCompressedFile CityHash128 factory fresh FileDescriptorOperations clobber)
    (ff_readBig CityHash128 factory fresh FileDescriptorOperations clobber)
    (seek_block CityHash128 blocks FileDescriptorOperations) qs
    (cr_create (open_file F read_buf alignment pread None reads) true external) =
  flat_serve_all (at_block blocks) qs (blocks_of blocks).
Proof.
  intros F Hfresh Hclob Hread HF Hb Ha Hv Hf Hq. pose proof (fd_file_spec F) as Hspec.
  apply (serve_all_flat _ _ _ _ (run_inv CityHash128 factory blocks (fd_inv F) big) (valid_request blocks big)); [| |done].
  - intros q b data H Hvq. by apply serve_file_flat.
  - apply (ff_create_inv CityHash128 factory blocks (fd_inv F) _ true external); [by apply open_file_inv|].
    intros s Hs Hd _. split_and!; [by rewrite Hs|done|by rewrite Hd].
Qed.

(** Blocks of NONE and of Delta. *)
Definition two_codecs : list Stored :=
  [stored_block CompressionCodecNone [1; 2]; stored_block (Delta.CompressionCodecDelta 2) [3; 4; 5; 6];
   stored_block CompressionCodecNone [7; 8; 9]].

Lemma two_codecs_readable :
  Forall (fun st => exists dec, readable (plain_lookup none_factory) st dec) two_codecs.
Proof.
  assert (Hn : Storable (plain_lookup none_factory) CompressionCodecNone CompressionCodecNone 64) by (by apply none_storable).
  assert (Hd : exists dec, Storable (plain_lookup none_factory) (Delta.CompressionCodecDelta 2) dec 64).
  { apply any_length_storable; try done; [apply literal_library_spec|apply plain_surroundings_spec|apply storing_zstd_spec|by apply any_delta|
    by apply Delta.fits_Delta]. }
  destruct Hd as [dec Hd].
  repeat apply Forall_cons_2; try apply Forall_nil_2; eexists; (apply (stored_readable _ _ _ 64); [eassumption|done|]);
    (split; [repeat constructor; discriminate|done]).
Qed.

Lemma compressed_file_random_access_witness :
  serve_all (FromCompressedFile sum_hash (plain_lookup none_factory) zero_memory FileDescriptorOperations id)
    (ff_readBig sum_hash (plain_lookup none_factory) zero_memory FileDescriptorOperations id)
    (seek_block sum_hash two_codecs FileDescriptorOperations)
    [Plain (OpRead 5); OpSeek 1 3; Plain (OpRead 2); OpSeek 2 0; Plain (OpReadStrict 3); OpSeek 0 1; Plain OpPeek]
    (cr_create (open_file (stored_bytes sum_hash two_codecs) 64 0 false None [Interrupted]) true false) =
  [Ok (Bytes [1; 2; 3; 4; 5]); Ok Nothing; Ok (Bytes [6; 7]); Ok Nothing; Ok (Bytes [7; 8; 9]); Ok Nothing; Ok (Byte (Some 2))].
Proof.
  rewrite (compressed_file_random_access sum_hash (plain_lookup none_factory) zero_memory id two_codecs 64 0 false
    [Interrupted] false false); [reflexivity|..]; try done.
  - intros. apply length_replicate.
  - apply two_codecs_readable.
  - by repeat (apply Forall_cons_2; [done|]).
  - by apply (bool_decide_unpack _).
  - assert (Hin : forall st sts o, 0 < o < size_of (st_block st) -> valid_mark (st :: sts) o) by (intros; right; eauto).
    repeat apply Forall_cons_2; try apply Forall_nil_2; try done; (split; [|done]); first [by left|by apply Hin].
Defined.

(** * Where the readers go wrong *)

(** After [readBig] decompressed a block past the working buffer, which still holds
    the first block of two bytes, a seek to the offset 2 of the next block is taken
    for done: the reader is at the beginning of the block. *)
Lemma seek_in_stale_buffer :
  serve_all (FromCompressedFile sum_hash (plain_lookup none_factory) zero_memory FileDescriptorOperations id)
    (ff_readBig sum_hash (plain_lookup none_factory) zero_memory FileDescriptorOperations id)
    (seek_block sum_hash two_codecs FileDescriptorOperations)
    [Plain OpRead1; OpReadBig [0; 0; 0; 0; 0] 5; OpSeek 2 2; Plain OpRead1]
    (cr_create (open_file (stored_bytes sum_hash two_codecs) 64 0 false None []) true false) =
  [Ok (Byte (Some 1)); Ok (Bytes [2; 3; 4; 5; 6]); Ok Nothing; Ok (Byte (Some 7))].
Proof. vm_compute. reflexivity. Qed.

(** The answers of a reader of the file [F]. *)
Definition read_file (F : bytes) (blocks : list Stored) (qs : list Request) : list (result Answer) :=
  serve_all (FromCompressedFile sum_hash (plain_lookup none_factory) zero_memory FileDescriptorOperations id)
    (ff_readBig sum_hash (plain_lookup none_factory) zero_memory FileDescriptorOperations id)
    (seek_block sum_hash blocks FileDescriptorOperations) qs
    (cr_create (open_file F 64 0 false None []) true false).

(** A mark behind the end of its block: [nextImpl] notices it, [readBig] computes with
    a negative size and reads after the end of the buffer. *)
Lemma mark_out_of_block :
  read_file (stored_bytes sum_hash two_codecs) two_codecs [OpSeek 2 5; Plain OpRead1] =
    [Ok Nothing; Throw SEEK_POSITION_OUT_OF_BOUND] /\
  read_file (stored_bytes sum_hash two_codecs) two_codecs [OpSeek 2 5; OpReadBig [0; 0] 2] =
    [Ok Nothing; Throw OUT_OF_BOUNDS_ACCESS].
Proof. by vm_compute. Qed.

(** A mark at the very end of a block is accepted, and reading a byte there reads
    after the end of the buffer. *)
Lemma mark_at_block_end :
  read_file (stored_bytes sum_hash two_codecs) two_codecs [OpSeek 0 2; Plain OpRead1] =
    [Ok Nothing; Throw OUT_OF_BOUNDS_ACCESS].
Proof. by vm_compute. Qed.

(** A frame of NONE with three bytes of data that announces two: all of them are read
    as data through the working buffer, and [readBig] refuses them. *)
Lemma none_size_not_checked :
  let F := with_checksum sum_hash [0x02; 12; 0; 0; 0; 2; 0; 0; 0; 7; 8; 9] in
  read_file F [] [Plain (OpReadStrict 3)] = [Ok (Bytes [7; 8; 9])] /\
  read_file F [] [OpReadBig [0; 0; 0] 3] = [Throw CORRUPTED_DATA].
Proof. by vm_compute. Qed.
