(* ===== verification/Marks.v ===== *)
(** Marks (src/Formats/MarkInCompressedFile.{h,cpp}): positions in compressed files, and
    the packed array of them that is kept in memory. *)
From S2P Require Import Prelude IntText BinaryIO BitIO.

(** * The code *)

Record MarkInCompressedFile := {
  offset_in_compressed_file : Z;
  offset_in_decompressed_block : Z }.

#[export] Instance mark_eq_dec : EqDecision MarkInCompressedFile.
Proof. solve_decision. Defined.

(** [dest[i] |= value] *)
Definition or_at (dest : list Z) (i : nat) (value : Z) : result (list Z) :=
  match dest !! i with
  | Some word => Ok (<[i := Z.lor word value]> dest)
  | None => Throw OUT_OF_BOUNDS_ACCESS
  end.

(** [writeBits] *)
Definition mark_writeBits (dest : list Z) (bit_offset value : Z) : result (list Z) :=
  let mod_ := bit_offset mod 64 in
  let i := Z.to_nat (bit_offset / 64) in
  let! dest := or_at dest i (uwrap 64 (Z.shiftl value mod_)) in
  if mod_ =? 0 then Ok dest else or_at dest (S i) (Z.shiftr value (64 - mod_)).

Definition word_at (src : list Z) (i : nat) : result Z :=
  match src !! i with Some word => Ok word | None => Throw OUT_OF_BOUNDS_ACCESS end.

(** [readBits] *)
Definition mark_readBits (src : list Z) (bit_offset num_bits : Z) : result Z :=
  let mod_ := bit_offset mod 64 in
  let i := Z.to_nat (bit_offset / 64) in
  let! word := word_at src i in
  let value := Z.shiftr word mod_ in
  let! value :=
    if mod_ =? 0 then Ok value
    else let! word := word_at src (S i) in Ok (Z.lor value (uwrap 64 (Z.shiftl word (64 - mod_)))) in
  Ok (Z.land value (maskLowBits 64 num_bits)).

Record BlockInfo := {
  min_x : Z;
  min_y : Z;
  bit_offset_in_packed_array : Z;
  bits_for_x : Z;
  bits_for_y : Z;
  trailing_zero_bits_in_y : Z }.

Definition MARKS_PER_BLOCK : nat := 256.

Record MarksInCompressedFile := {
  num_marks : nat;
  blocks : list BlockInfo;
  packed : list Z }.

(** What the loop over the marks of a block computes. *)
Record Extent := { ext_min_x : Z; ext_max_x : Z; ext_min_y : Z; ext_max_y : Z; ext_zeros : Z }.

Definition extend (e : Extent) (mark : MarkInCompressedFile) : Extent := {|
  ext_min_x := Z.min (ext_min_x e) (offset_in_compressed_file mark);
  ext_max_x := Z.max (ext_max_x e) (offset_in_compressed_file mark);
  ext_min_y := Z.min (ext_min_y e) (offset_in_decompressed_block mark);
  ext_max_y := Z.max (ext_max_y e) (offset_in_decompressed_block mark);
  ext_zeros := Z.min (ext_zeros e) (uwrap 8 (getTrailingZeroBits 64 (offset_in_decompressed_block mark))) |}.

Definition extent (marks : list MarkInCompressedFile) : Extent :=
  foldl extend {| ext_min_x := 2 ^ 64 - 1; ext_max_x := 0; ext_min_y := 2 ^ 64 - 1; ext_max_y := 0; ext_zeros := 63 |} marks.

(** One iteration of the first pass. *)
Definition block_info (packed_bits : Z) (marks : list MarkInCompressedFile) : BlockInfo :=
  let e := extent marks in {|
  min_x := ext_min_x e;
  min_y := ext_min_y e;
  bit_offset_in_packed_array := packed_bits;
  bits_for_x := uwrap 8 (8 * 8 - getLeadingZeroBits 64 (uwrap 64 (ext_max_x e - ext_min_x e)));
  bits_for_y := uwrap 8 (8 * 8 - getLeadingZeroBits 64 (Z.shiftr (uwrap 64 (ext_max_y e - ext_min_y e)) (ext_zeros e)));
  trailing_zero_bits_in_y := ext_zeros e |}.

Definition mark_width (b : BlockInfo) : Z := bits_for_x b + bits_for_y b.

(** The first pass, over [n] blocks: the blocks and the number of bits. *)
Fixpoint layout (n : nat) (packed_bits : Z) (marks : list MarkInCompressedFile) : list BlockInfo * Z :=
  match n with
  | O => ([], packed_bits)
  | S n =>
      let ms := take MARKS_PER_BLOCK marks in
      let b := block_info packed_bits ms in
      let (bs, total) := layout n (uwrap 64 (packed_bits + Z.of_nat (length ms) * mark_width b)) (drop MARKS_PER_BLOCK marks) in
      (b :: bs, total)
  end.

(** [lookUpMark] *)
Definition lookUpMark (bs : list BlockInfo) (idx : nat) : result (BlockInfo * Z) :=
  let block_idx := (idx / MARKS_PER_BLOCK)%nat in
  match bs !! block_idx with
  | None => Throw OUT_OF_BOUNDS_ACCESS
  | Some block =>
      Ok (block, uwrap 64 (bit_offset_in_packed_array block +
                           Z.of_nat (idx - block_idx * MARKS_PER_BLOCK) * mark_width block))
  end.

(** The second pass *)
Fixpoint pack (bs : list BlockInfo) (idx : nat) (marks : list MarkInCompressedFile) (dest : list Z) : result (list Z) :=
  match marks with
  | [] => Ok dest
  | mark :: marks =>
      let! (block, offset) := lookUpMark bs idx in
      let! dest := mark_writeBits dest offset (uwrap 64 (offset_in_compressed_file mark - min_x block)) in
      let! dest := mark_writeBits dest (uwrap 64 (offset + bits_for_x block))
        (Z.shiftr (uwrap 64 (offset_in_decompressed_block mark - min_y block)) (trailing_zero_bits_in_y block)) in
      pack bs (S idx) marks dest
  end.

(** The constructor *)
Definition make_marks (marks : list MarkInCompressedFile) : result MarksInCompressedFile :=
  if (length marks =? 0)%nat then Ok {| num_marks := 0; blocks := []; packed := [] |}
  else
    let n := ((length marks + MARKS_PER_BLOCK - 1) / MARKS_PER_BLOCK)%nat in
    let (bs, packed_bits) := layout n 0 marks in
    let packed_length := uwrap 64 (packed_bits + 63) / 64 + 1 in
    let! dest := pack bs 0 marks (replicate (Z.to_nat packed_length) 0) in
    Ok {| num_marks := length marks; blocks := bs; packed := dest |}.

(** [get] *)
Definition get_mark (t : MarksInCompressedFile) (idx : nat) : result MarkInCompressedFile :=
  let! (block, offset) := lookUpMark (blocks t) idx in
  let! x := mark_readBits (packed t) offset (bits_for_x block) in
  let! y := mark_readBits (packed t) (uwrap 64 (offset + bits_for_x block)) (bits_for_y block) in
  Ok {| offset_in_compressed_file := uwrap 64 (min_x block + x);
        offset_in_decompressed_block := uwrap 64 (min_y block + uwrap 64 (Z.shiftl y (trailing_zero_bits_in_y block))) |}.

(** * Bits of the array *)

Definition packed_bit (p : list Z) (k : Z) : bool :=
  match p !! Z.to_nat (k / 64) with Some word => Z.testbit word (k mod 64) | None => false end.

Definition words_ok (p : list Z) : Prop := Forall (fun w => in_unsigned 64 w) p.

Lemma or_at_spec p i v : (i < length p)%nat -> words_ok p -> in_unsigned 64 v ->
  exists p', or_at p i v = Ok p' /\ length p' = length p /\ words_ok p' /\
    forall k, 0 <= k -> packed_bit p' k = packed_bit p k || ((k / 64 =? Z.of_nat i) && Z.testbit v (k mod 64)).
Proof.
  intros Hi Hp Hv. unfold or_at. destruct (lookup_lt_is_Some_2 p i Hi) as [w Hw]. rewrite Hw. eexists. split; [done|].
  assert (Hwr : in_unsigned 64 w) by (by apply (Forall_lookup_1 _ _ _ _ Hp Hw)). split_and!.
  - by rewrite length_insert.
  - apply Forall_insert; [done|]. unfold in_unsigned in *. split; [apply Z.lor_nonneg; lia|].
    destruct (Z.eq_dec (Z.lor w v) 0) as [->|]; [lia|]. apply Z.log2_lt_pow2; [pose proof (proj2 (Z.lor_nonneg w v) ltac:(lia)); lia|].
    rewrite Z.log2_lor by lia. apply Z.max_lub_lt; destruct (Z.eq_dec w 0) as [->|], (Z.eq_dec v 0) as [->|];
      try (simpl; lia); apply Z.log2_lt_pow2; lia.
  - intros k Hk. unfold packed_bit. destruct (Z.eqb_spec (k / 64) (Z.of_nat i)) as [E|E].
    + rewrite E, Nat2Z.id, list_lookup_insert_eq, Hw by done. apply Z.lor_spec.
    + rewrite list_lookup_insert_ne by (intros ->; rewrite Z2Nat.id in E; [done|apply Z.div_pos; lia]). by rewrite orb_false_r.
Qed.

Lemma high_bits w v n : in_unsigned w v -> 0 <= w <= n -> Z.testbit v n = false.
Proof.
  intros [H0 H1] Hn. destruct (Z.eq_dec v 0) as [->|]; [apply Z.bits_0|]. apply Z.bits_above_log2; [lia|].
  assert (Z.log2 v < w) by (apply Z.log2_lt_pow2; lia). lia.
Qed.

Lemma uwrap_testbit w v n : 0 <= w -> 0 <= n -> Z.testbit (uwrap w v) n = (n <? w) && Z.testbit v n.
Proof.
  intros Hw Hn. unfold uwrap. destruct (Z.ltb_spec n w); simpl; [by apply Z.mod_pow2_bits_low|].
  apply Z.mod_pow2_bits_high. lia.
Qed.

Lemma mark_writeBits_spec p off v :
  0 <= off <= 64 * (Z.of_nat (length p) - 1) -> words_ok p -> in_unsigned 64 v ->
  exists p', mark_writeBits p off v = Ok p' /\ length p' = length p /\ words_ok p' /\
    forall k, 0 <= k -> packed_bit p' k = packed_bit p k || Z.testbit v (k - off).
Proof.
  intros Hoff Hp Hv. unfold mark_writeBits. pose proof (Z.div_mod off 64 ltac:(lia)) as Hdm.
  pose proof (Z.mod_pos_bound off 64 ltac:(lia)) as Hm. set (m := off mod 64) in *. set (q := off / 64) in *.
  assert (Hq : 0 <= q) by (apply Z.div_pos; lia).
  destruct (or_at_spec p (Z.to_nat q) (uwrap 64 (Z.shiftl v m))) as (p1 & -> & Hl1 & Hp1 & Hb1); [lia|done|by apply uwrap_range|].
  cbn [rbind].
  assert (Hlow : forall k, 0 <= k -> (k / 64 =? Z.of_nat (Z.to_nat q)) && Z.testbit (uwrap 64 (Z.shiftl v m)) (k mod 64) =
    (k / 64 =? q) && Z.testbit v (k - off)).
  { intros k Hk. rewrite Z2Nat.id by lia. destruct (Z.eqb_spec (k / 64) q) as [E|]; [|done]. simpl.
    pose proof (Z.mod_pos_bound k 64 ltac:(lia)). pose proof (Z.div_mod k 64 ltac:(lia)).
    rewrite uwrap_testbit, Z.shiftl_spec by lia. destruct (Z.ltb_spec (k mod 64) 64); [|lia]. simpl. f_equal. lia. }
  destruct (Z.eqb_spec m 0) as [E0|E0].
  { exists p1. split_and!; try done. intros k Hk. rewrite Hb1, Hlow by done. f_equal. pose proof (Z.div_mod k 64 ltac:(lia)).
    pose proof (Z.mod_pos_bound k 64 ltac:(lia)). destruct (Z.eqb_spec (k / 64) q) as [|Hne]; [done|]. simpl. symmetry.
    destruct (Z.lt_ge_cases (k - off) 0); [by apply Z.testbit_neg_r|]. apply (high_bits 64); [done|]. lia. }
  destruct (or_at_spec p1 (S (Z.to_nat q)) (Z.shiftr v (64 - m))) as (p2 & -> & Hl2 & Hp2 & Hb2); [lia|done| |].
  { unfold in_unsigned in *. rewrite Z.shiftr_div_pow2 by lia. split; [apply Z.div_pos; lia|].
    apply Z.div_lt_upper_bound; [lia|]. assert (1 <= 2 ^ (64 - m)) by (apply (Z.pow_le_mono_r 2 0); lia). nia. }
  exists p2. split_and!; [done|lia|done|]. intros k Hk. rewrite Hb2, Hb1, Hlow by done. rewrite <- orb_assoc. f_equal.
  pose proof (Z.div_mod k 64 ltac:(lia)). pose proof (Z.mod_pos_bound k 64 ltac:(lia)).
  rewrite Z.shiftr_spec by lia. replace (Z.of_nat (S (Z.to_nat q))) with (q + 1) by lia.
  destruct (Z.eqb_spec (k / 64) q), (Z.eqb_spec (k / 64) (q + 1)); simpl; try lia; rewrite ?orb_false_r; try done.
  - f_equal. lia.
  - symmetry. destruct (Z.lt_ge_cases (k - off) 0); [by apply Z.testbit_neg_r|]. apply (high_bits 64); [done|]. lia.
Qed.

Lemma mark_readBits_spec p off n :
  0 <= off <= 64 * (Z.of_nat (length p) - 1) -> words_ok p -> 0 <= n <= 64 ->
  exists v, mark_readBits p off n = Ok v /\ forall j, 0 <= j -> Z.testbit v j = (j <? n) && packed_bit p (off + j).
Proof.
  intros Hoff Hp Hn. unfold mark_readBits. pose proof (Z.div_mod off 64 ltac:(lia)) as Hdm.
  pose proof (Z.mod_pos_bound off 64 ltac:(lia)) as Hm. set (m := off mod 64) in *. set (q := off / 64) in *.
  assert (Hq : 0 <= q) by (apply Z.div_pos; lia). unfold word_at.
  destruct (lookup_lt_is_Some_2 p (Z.to_nat q)) as [w Hw]; [lia|]. rewrite Hw. cbn [rbind].
  assert (Hmask : forall j, 0 <= j -> Z.testbit (maskLowBits 64 n) j = (j <? n)).
  { intros j Hj. replace n with (Z.of_nat (Z.to_nat n)) by lia. rewrite maskLowBits_spec by lia.
    rewrite Z.sub_1_r, <- Z.ones_equiv.
    destruct (Z.ltb_spec j (Z.of_nat (Z.to_nat n))); [apply Z.ones_spec_low|apply Z.ones_spec_high]; lia. }
  assert (Hbit : forall j a, 0 <= j -> 0 <= a -> a * 64 <= off + j < (a + 1) * 64 -> packed_bit p (off + j) =
    match p !! Z.to_nat a with Some word => Z.testbit word (off + j - a * 64) | None => false end).
  { intros j a Hj Ha Hk. unfold packed_bit. replace ((off + j) / 64) with a by (apply (Z.div_unique _ _ _ (off + j - a * 64)); lia).
    replace ((off + j) mod 64) with (off + j - a * 64); [done|]. apply (Z.mod_unique _ _ a); lia. }
  assert (Hw64 : in_unsigned 64 w) by (by apply (Forall_lookup_1 _ _ _ _ Hp Hw)).
  destruct (Z.eqb_spec m 0) as [E0|E0]; cbn [rbind].
  - eexists. split; [done|]. intros j Hj. rewrite Z.land_spec, Hmask, Z.shiftr_spec by done. rewrite andb_comm.
    destruct (Z.ltb_spec j n); simpl; [|done]. rewrite (Hbit j q) by lia. rewrite Hw. f_equal. lia.
  - destruct (lookup_lt_is_Some_2 p (S (Z.to_nat q))) as [w' Hw']; [lia|]. rewrite Hw'. cbn [rbind]. eexists. split; [done|].
    intros j Hj. rewrite Z.land_spec, Hmask, Z.lor_spec, Z.shiftr_spec, uwrap_testbit, Z.shiftl_spec by lia. rewrite andb_comm.
    destruct (Z.ltb_spec j n); simpl; [|done]. destruct (Z.ltb_spec j 64); simpl; [|lia].
    destruct (Z.lt_ge_cases (j + m) 64).
    + rewrite (Hbit j q), Hw by lia. rewrite (Z.testbit_neg_r w') by lia. rewrite orb_false_r. f_equal. lia.
    + rewrite (Hbit j (q + 1)) by lia. replace (Z.to_nat (q + 1)) with (S (Z.to_nat q)) by lia. rewrite Hw'.
      rewrite (high_bits 64 w) by (done || lia). simpl. f_equal. lia.
Qed.

(** * The marks of a block *)

Definition valid_mark_value (m : MarkInCompressedFile) : Prop :=
  in_unsigned 64 (offset_in_compressed_file m) /\ in_unsigned 64 (offset_in_decompressed_block m).

(** The extent holds of all marks, and its minimum is that of one of them. *)
Definition extent_of (e : Extent) (ms : list MarkInCompressedFile) : Prop :=
  0 <= ext_zeros e <= 63 /\
  (forall m, m ∈ ms -> ext_min_x e <= offset_in_compressed_file m <= ext_max_x e /\
     ext_min_y e <= offset_in_decompressed_block m <= ext_max_y e /\ (2 ^ ext_zeros e | offset_in_decompressed_block m)) /\
  (ms <> [] -> (exists m, m ∈ ms /\ ext_min_x e = offset_in_compressed_file m) /\
     (exists m, m ∈ ms /\ ext_max_x e = offset_in_compressed_file m) /\
     (exists m, m ∈ ms /\ ext_min_y e = offset_in_decompressed_block m) /\
     (exists m, m ∈ ms /\ ext_max_y e = offset_in_decompressed_block m)).

Lemma trailing_zeros_spec y : in_unsigned 64 y -> 0 <= getTrailingZeroBits 64 y <= 64 /\ (2 ^ Z.min 63 (getTrailingZeroBits 64 y) | y).
Proof.
  intros Hy. unfold getTrailingZeroBits, in_unsigned in *. destruct y as [|p|p]; [split; [lia|apply Z.divide_0_r]| |lia].
  destruct (ctz_spec p) as [Hd Hr]. assert (Z.log2 (Z.pos p) < 64) by (apply Z.log2_lt_pow2; lia).
  split; [lia|]. by rewrite Z.min_r by lia.
Qed.

Lemma pow2_divide a b z : 0 <= a <= b -> (2 ^ b | z) -> (2 ^ a | z).
Proof.
  intros Hab. apply Z.divide_trans. exists (2 ^ (b - a)). rewrite <- Z.pow_add_r by lia. f_equal. lia.
Qed.

Lemma min_attained (f : MarkInCompressedFile -> Z) (a : Z) ms m :
  (ms = [] -> f m <= a) -> (ms <> [] -> exists m', m' ∈ ms /\ a = f m') -> exists m', m' ∈ ms ++ [m] /\ Z.min a (f m) = f m'.
Proof.
  intros H0 H1. destruct (Z.le_gt_cases (f m) a); [exists m; split; [set_solver|lia]|].
  destruct ms as [|m1 ms]; [specialize (H0 eq_refl); lia|]. destruct H1 as (m' & Hin & E); [done|]. exists m'. split; [set_solver|lia].
Qed.

Lemma max_attained (f : MarkInCompressedFile -> Z) (a : Z) ms m :
  (ms = [] -> a <= f m) -> (ms <> [] -> exists m', m' ∈ ms /\ a = f m') -> exists m', m' ∈ ms ++ [m] /\ Z.max a (f m) = f m'.
Proof.
  intros H0 H1. destruct (Z.le_gt_cases a (f m)); [exists m; split; [set_solver|lia]|].
  destruct ms as [|m1 ms]; [specialize (H0 eq_refl); lia|]. destruct H1 as (m' & Hin & E); [done|]. exists m'. split; [set_solver|lia].
Qed.

Lemma extent_spec ms : Forall valid_mark_value ms -> extent_of (extent ms) ms.
Proof.
  induction ms as [|m ms IH] using rev_ind; intros Hv.
  { split; [simpl; lia|]. split; [|done]. intros m Hm. by apply not_elem_of_nil in Hm. }
  apply Forall_app in Hv as [Hv Hm]. apply Forall_cons in Hm as [[Hx Hy] _].
  destruct (IH Hv) as (Hz & Hall & Hatt). unfold extent. rewrite foldl_app.
  fold (extent ms). cbn [foldl]. set (e := extent ms) in *.
  assert (E0 : ms = [] -> e = {| ext_min_x := 2 ^ 64 - 1; ext_max_x := 0; ext_min_y := 2 ^ 64 - 1; ext_max_y := 0; ext_zeros := 63 |})
    by (by intros ->). clearbody e. unfold in_unsigned in *.
  destruct (trailing_zeros_spec (offset_in_decompressed_block m) Hy) as [Ht Hd].
  set (t := getTrailingZeroBits 64 (offset_in_decompressed_block m)) in *.
  assert (Et : uwrap 8 t = t) by (apply uwrap_small; unfold in_unsigned; lia).
  unfold extent_of. cbn [extend ext_zeros ext_min_x ext_max_x ext_min_y ext_max_y]. fold t. rewrite Et.
  split; [lia|]. split.
  - intros m' [Hin| ->%list_elem_of_singleton]%elem_of_app.
    + destruct (Hall m' Hin) as (H1 & H2 & H3). split_and!; try lia. eapply pow2_divide; [|exact H3]. lia.
    + split_and!; try lia. eapply pow2_divide; [|exact Hd]. lia.
  - intros _. split_and!; [apply min_attained|apply max_attained|apply min_attained|apply max_attained];
      try (intros E; rewrite (E0 E); simpl; lia); intros Hne; by apply Hatt.
Qed.

(** The numbers of bits are enough. *)
Lemma enough_bits d : in_unsigned 64 d ->
  let n := uwrap 8 (8 * 8 - getLeadingZeroBits 64 d) in 0 <= n <= 64 /\ d < 2 ^ n.
Proof.
  intros Hd. unfold getLeadingZeroBits, in_unsigned in *. destruct (Z.eqb_spec d 0) as [E|Hne]; [by rewrite E|].
  assert (0 <= Z.log2 d < 64) by (split; [apply Z.log2_nonneg|apply Z.log2_lt_pow2; lia]).
  rewrite uwrap_small by (unfold in_unsigned; lia). replace (8 * 8 - (64 - 1 - Z.log2 d)) with (Z.succ (Z.log2 d)) by lia.
  pose proof (Z.log2_spec d ltac:(lia)). lia.
Qed.

(** The values that are written fit, and give the mark back. *)
Lemma block_info_spec off ms m :
  Forall valid_mark_value ms -> m ∈ ms -> let b := block_info off ms in
  let dx := uwrap 64 (offset_in_compressed_file m - min_x b) in
  let dy := Z.shiftr (uwrap 64 (offset_in_decompressed_block m - min_y b)) (trailing_zero_bits_in_y b) in
  0 <= bits_for_x b <= 64 /\ 0 <= bits_for_y b <= 64 /\ 0 <= dx < 2 ^ bits_for_x b /\ 0 <= dy < 2 ^ bits_for_y b /\
  uwrap 64 (min_x b + dx) = offset_in_compressed_file m /\
  uwrap 64 (min_y b + uwrap 64 (Z.shiftl dy (trailing_zero_bits_in_y b))) = offset_in_decompressed_block m.
Proof.
  intros Hv Hin b dx dy. destruct (extent_spec ms Hv) as (Hz & Hall & Hatt). rewrite Forall_forall in Hv.
  destruct Hatt as ((m1 & I1 & E1) & (m2 & I2 & E2) & (m3 & I3 & E3) & (m4 & I4 & E4)); [intros ->; by apply not_elem_of_nil in Hin|].
  destruct (Hall m Hin) as (Hx & Hy & Hd). destruct (Hall m3 I3) as (_ & _ & Hd3).
  pose proof (Hv m Hin) as [Vx Vy]. pose proof (Hv m1 I1) as [V1 _]. pose proof (Hv m2 I2) as [V2 _].
  pose proof (Hv m3 I3) as [_ V3]. pose proof (Hv m4 I4) as [_ V4]. unfold in_unsigned in *.
  subst dx dy. unfold b, block_info. cbn [min_x min_y bits_for_x bits_for_y trailing_zero_bits_in_y].
  set (e := extent ms) in *. clearbody e. rewrite <- E3 in Hd3.
  rewrite !(uwrap_small 64 (_ - _)) by (unfold in_unsigned; lia).
  pose proof (enough_bits (ext_max_x e - ext_min_x e) ltac:(unfold in_unsigned; lia)) as [Bx Hbx].
  set (t := ext_zeros e) in *. set (D := ext_max_y e - ext_min_y e) in *. set (d := offset_in_decompressed_block m - ext_min_y e).
  assert (Hd' : (2 ^ t | d)) by (by apply Z.divide_sub_r).
  assert (HD : 0 <= Z.shiftr D t < 2 ^ 64 /\ 0 <= Z.shiftr d t <= Z.shiftr D t).
  { rewrite !Z.shiftr_div_pow2 by lia. assert (1 <= 2 ^ t) by (apply (Z.pow_le_mono_r 2 0); lia). split_and!.
    - apply Z.div_pos; lia.
    - apply Z.div_lt_upper_bound; [lia|]. subst D. nia.
    - apply Z.div_pos; lia.
    - apply Z.div_le_mono; subst d D; lia. }
  pose proof (enough_bits (Z.shiftr D t) ltac:(unfold in_unsigned; lia)) as [By Hby].
  assert (Eback : Z.shiftl (Z.shiftr d t) t = d).
  { rewrite Z.shiftl_mul_pow2, Z.shiftr_div_pow2 by lia. destruct Hd' as [z Ez]. rewrite Ez.
    rewrite Z.div_mul by lia. lia. }
  rewrite Eback, (uwrap_small 64 d) by (unfold in_unsigned; lia). subst d. split_and!; try lia;
    rewrite uwrap_small by (unfold in_unsigned; lia); lia.
Qed.

(** * Packing *)

Section Pack.
Context (marks : list MarkInCompressedFile) (bs : list BlockInfo) (info : nat -> BlockInfo) (off : nat -> Z) (total : Z) (L : nat).

Definition dx_of (i : nat) (m : MarkInCompressedFile) : Z := uwrap 64 (offset_in_compressed_file m - min_x (info i)).
Definition dy_of (i : nat) (m : MarkInCompressedFile) : Z :=
  Z.shiftr (uwrap 64 (offset_in_decompressed_block m - min_y (info i))) (trailing_zero_bits_in_y (info i)).

(** The place of a mark in the array. *)
Record placed (i : nat) (m : MarkInCompressedFile) : Prop := {
  placed_lookup : lookUpMark bs i = Ok (info i, off i);
  placed_range : 0 <= off i /\ off i + mark_width (info i) <= total;
  placed_bits_x : 0 <= bits_for_x (info i) <= 64;
  placed_bits_y : 0 <= bits_for_y (info i) <= 64;
  placed_x : 0 <= dx_of i m < 2 ^ bits_for_x (info i);
  placed_y : 0 <= dy_of i m < 2 ^ bits_for_y (info i) }.

Context (Hplaced : forall i m, marks !! i = Some m -> placed i m).
Context (Hnext : forall i, (S i < length marks)%nat -> off i + mark_width (info i) <= off (S i)).
Context (Htotal : total < 2 ^ 63) (HL : total <= 64 * (Z.of_nat L - 1)).

Lemma off_before i j : (i < j)%nat -> (j < length marks)%nat -> off i + mark_width (info i) <= off j.
Proof.
  intros Hij Hj. induction Hij as [|j Hij IH]; [by apply Hnext|]. specialize (IH ltac:(lia)).
  destruct (lookup_lt_is_Some_2 marks j ltac:(lia)) as [m Hm]. destruct (Hplaced j m Hm) as [_ _ ? ? _ _].
  pose proof (Hnext j Hj). unfold mark_width in *. lia.
Qed.

(** The array holds the mark. *)
Definition holds (p : list Z) (i : nat) (m : MarkInCompressedFile) : Prop :=
  (forall j, 0 <= j < bits_for_x (info i) -> packed_bit p (off i + j) = Z.testbit (dx_of i m) j) /\
  (forall j, 0 <= j < bits_for_y (info i) -> packed_bit p (off i + bits_for_x (info i) + j) = Z.testbit (dy_of i m) j).

(** One iteration of the loop. *)
Lemma pack_step i m p :
  placed i m -> length p = L -> words_ok p -> (forall k, off i <= k -> packed_bit p k = false) ->
  exists p', (let! dest := mark_writeBits p (off i) (dx_of i m) in
      mark_writeBits dest (uwrap 64 (off i + bits_for_x (info i))) (dy_of i m)) = Ok p' /\
    length p' = L /\ words_ok p' /\ holds p' i m /\
    (forall k, 0 <= k < off i -> packed_bit p' k = packed_bit p k) /\
    (forall k, off i + mark_width (info i) <= k -> packed_bit p' k = false).
Proof.
  intros [_ Hr Hx Hy Hdx Hdy] Hl Hp Hzero. unfold mark_width in *.
  assert (H64 : forall n v, 0 <= n <= 64 -> 0 <= v < 2 ^ n -> in_unsigned 64 v).
  { intros n v Hn Hv. pose proof (Z.pow_le_mono_r 2 n 64 ltac:(lia) ltac:(lia)). unfold in_unsigned. lia. }
  destruct (mark_writeBits_spec p (off i) (dx_of i m)) as (p1 & -> & Hl1 & Hp1 & Hb1); [lia|done|exact (H64 _ _ Hx Hdx)|].
  cbn [rbind]. rewrite uwrap_small by (unfold in_unsigned; lia).
  destruct (mark_writeBits_spec p1 (off i + bits_for_x (info i)) (dy_of i m)) as (p2 & -> & Hl2 & Hp2 & Hb2);
    [lia|done|exact (H64 _ _ Hy Hdy)|].
  exists p2. split; [done|]. split; [lia|]. split; [done|].
  assert (Hbit : forall k, 0 <= k -> packed_bit p2 k = packed_bit p k || Z.testbit (dx_of i m) (k - off i) ||
    Z.testbit (dy_of i m) (k - (off i + bits_for_x (info i)))) by (intros k Hk; by rewrite Hb2, Hb1).
  split; [split|split].
  - intros j Hj. rewrite Hbit, Hzero by lia. rewrite (Z.testbit_neg_r (dy_of i m)) by lia. simpl. rewrite orb_false_r.
    f_equal. lia.
  - intros j Hj. rewrite Hbit, Hzero by lia. rewrite (high_bits (bits_for_x (info i)) (dx_of i m)) by (done || lia). simpl.
    f_equal. lia.
  - intros k Hk. rewrite Hbit by lia. rewrite !Z.testbit_neg_r by lia. by rewrite !orb_false_r.
  - intros k Hk. rewrite Hbit, Hzero by lia. rewrite (high_bits (bits_for_x (info i)) (dx_of i m)) by (done || lia).
    rewrite (high_bits (bits_for_y (info i)) (dy_of i m)) by (done || lia). done.
Qed.

Lemma pack_spec rest idx p :
  drop idx marks = rest -> length p = L -> words_ok p ->
  (forall i m, (i < idx)%nat -> marks !! i = Some m -> holds p i m) ->
  ((idx < length marks)%nat -> forall k, off idx <= k -> packed_bit p k = false) ->
  exists p', pack bs idx rest p = Ok p' /\ length p' = L /\ words_ok p' /\ forall i m, marks !! i = Some m -> holds p' i m.
Proof.
  revert idx p. induction rest as [|m rest IH]; intros idx p Hd Hl Hp Hdone Hzero; cbn [pack].
  { exists p. split_and!; try done. intros i m Hm. apply Hdone; [|done]. apply lookup_lt_Some in Hm.
    apply (f_equal length) in Hd. simpl_len. lia. }
  assert (Hm : marks !! idx = Some m) by (rewrite <- (Nat.add_0_r idx), <- lookup_drop, Hd; done).
  assert (Hidx : (idx < length marks)%nat) by (by apply lookup_lt_Some in Hm).
  pose proof (Hplaced idx m Hm) as Hpl. rewrite (placed_lookup idx m Hpl). cbn [rbind].
  destruct (pack_step idx m p Hpl Hl Hp (Hzero Hidx)) as (p1 & E & Hl1 & Hp1 & Hh & Hlow & Hhigh).
  unfold dx_of, dy_of in E. apply rbind_Ok in E as (p0 & -> & E). cbn [rbind]. rewrite E. cbn [rbind].
  apply IH; [|done|done| |].
  - rewrite <- Nat.add_1_r, <- drop_drop, Hd. done.
  - intros i mi Hi Hmi. destruct (Nat.eq_dec i idx) as [->|Hne]; [congruence|]. destruct (Hdone i mi ltac:(lia) Hmi) as [H1 H2].
    pose proof (off_before i idx ltac:(lia) Hidx). destruct (Hplaced i mi Hmi) as [_ ? ? ? _ _]. unfold mark_width in *.
    split; intros j Hj; rewrite Hlow by lia; [by apply H1|by apply H2].
  - intros Hs k Hk. apply Hhigh. pose proof (Hnext idx Hs). lia.
Qed.

(** Reading a mark that the array holds. *)
Lemma read_packed_field p o n v :
  0 <= o -> o + n <= total -> 0 <= n <= 64 -> 0 <= v < 2 ^ n -> length p = L -> words_ok p ->
  (forall j, 0 <= j < n -> packed_bit p (o + j) = Z.testbit v j) -> mark_readBits p o n = Ok v.
Proof.
  intros Ho Hn Hn64 Hv Hl Hp Hb. destruct (mark_readBits_spec p o n) as (v' & -> & Hv'); [lia|done|done|]. f_equal.
  apply Z.bits_inj'. intros j Hj. rewrite Hv' by done. destruct (Z.ltb_spec j n); simpl; [apply Hb; lia|].
  symmetry. apply (high_bits n); [done|lia].
Qed.

End Pack.

(** * The layout *)

Section Layout.
Context (marks : list MarkInCompressedFile) (Hvalid : Forall valid_mark_value marks) (Hcount : Z.of_nat (length marks) < 2 ^ 56).

Definition chunk (b : nat) : list MarkInCompressedFile := take MARKS_PER_BLOCK (drop (b * MARKS_PER_BLOCK) marks).

Definition chunk_width (b : nat) : Z := mark_width (block_info 0 (chunk b)).

Fixpoint start (b : nat) : Z :=
  match b with O => 0 | S b => start b + Z.of_nat (length (chunk b)) * chunk_width b end.

Lemma width_bounds off ms : Forall valid_mark_value ms ->
  0 <= bits_for_x (block_info off ms) <= 64 /\ 0 <= bits_for_y (block_info off ms) <= 64.
Proof.
  intros Hv. destruct (extent_spec ms Hv) as (Hz & _). cbn [block_info bits_for_x bits_for_y].
  split; apply enough_bits; [by apply uwrap_range|].
  pose proof (uwrap_range 64 (ext_max_y (extent ms) - ext_min_y (extent ms)) ltac:(lia)) as Hr. unfold in_unsigned in *.
  rewrite Z.shiftr_div_pow2 by lia. assert (1 <= 2 ^ ext_zeros (extent ms)) by (apply (Z.pow_le_mono_r 2 0); lia).
  split; [apply Z.div_pos; lia|]. apply Z.div_lt_upper_bound; [lia|]. nia.
Qed.

Lemma chunk_valid b : Forall valid_mark_value (chunk b).
Proof. unfold chunk. by apply Forall_take, Forall_drop. Qed.

Lemma chunk_width_bounds b : 0 <= chunk_width b <= 128.
Proof. unfold chunk_width, mark_width. pose proof (width_bounds 0 (chunk b) (chunk_valid b)). lia. Qed.

Lemma start_bounds b : 0 <= start b /\ start b + 128 * Z.of_nat (length (drop (b * MARKS_PER_BLOCK) marks)) <= 128 * Z.of_nat (length marks).
Proof.
  induction b as [|b [IH1 IH2]]; cbn [start]; [rewrite drop_0; lia|]. pose proof (chunk_width_bounds b).
  assert (E : Z.of_nat (length (drop (b * MARKS_PER_BLOCK) marks)) =
    Z.of_nat (length (chunk b)) + Z.of_nat (length (drop (S b * MARKS_PER_BLOCK) marks))) by (unfold chunk, MARKS_PER_BLOCK; simpl_len; lia).
  nia.
Qed.

Lemma start_small b : 0 <= start b < 2 ^ 63.
Proof. pose proof (start_bounds b). lia. Qed.

Lemma layout_spec n b : exists bs, layout n (start b) (drop (b * MARKS_PER_BLOCK) marks) = (bs, start (b + n)) /\
  forall i, (i < n)%nat -> bs !! i = Some (block_info (start (b + i)) (chunk (b + i))).
Proof.
  revert b. induction n as [|n IH]; intros b; cbn [layout].
  { exists []. rewrite Nat.add_0_r. split; [done|]. lia. }
  fold (chunk b). change (mark_width (block_info (start b) (chunk b))) with (chunk_width b).
  change (start b + Z.of_nat (length (chunk b)) * chunk_width b) with (start (S b)).
  rewrite uwrap_small by (unfold in_unsigned; pose proof (start_small (S b)); lia).
  rewrite drop_drop. replace (b * MARKS_PER_BLOCK + MARKS_PER_BLOCK)%nat with (S b * MARKS_PER_BLOCK)%nat by lia.
  destruct (IH (S b)) as (bs & -> & Hbs). eexists. split; [by rewrite Nat.add_succ_r|]. intros [|i] Hi; simpl.
  - by rewrite Nat.add_0_r.
  - rewrite Hbs by lia. by rewrite Nat.add_succ_r.
Qed.

(** The block and the offset of a mark. *)
Definition info_of (i : nat) : BlockInfo := block_info (start (i / MARKS_PER_BLOCK)) (chunk (i / MARKS_PER_BLOCK)).
Definition off_of (i : nat) : Z :=
  start (i / MARKS_PER_BLOCK) + Z.of_nat (i mod MARKS_PER_BLOCK) * chunk_width (i / MARKS_PER_BLOCK).

Lemma info_width i : mark_width (info_of i) = chunk_width (i / MARKS_PER_BLOCK).
Proof. done. Qed.

Lemma in_chunk i m : marks !! i = Some m ->
  m ∈ chunk (i / MARKS_PER_BLOCK) /\ (i mod MARKS_PER_BLOCK < length (chunk (i / MARKS_PER_BLOCK)))%nat.
Proof.
  intros Hm. pose proof (Nat.div_mod_eq i MARKS_PER_BLOCK) as E. pose proof (Nat.mod_upper_bound i MARKS_PER_BLOCK ltac:(done)) as Hr.
  assert (Hc : chunk (i / MARKS_PER_BLOCK) !! (i mod MARKS_PER_BLOCK)%nat = Some m).
  { unfold chunk. rewrite lookup_take_lt, lookup_drop by done. rewrite <- Hm. f_equal. lia. }
  split; [by eapply list_elem_of_lookup_2|by apply lookup_lt_Some in Hc].
Qed.

Lemma off_within i m : marks !! i = Some m -> off_of i + mark_width (info_of i) <= start (S (i / MARKS_PER_BLOCK)).
Proof.
  intros Hm. destruct (in_chunk i m Hm) as [_ Hi]. rewrite info_width. unfold off_of. cbn [start].
  pose proof (chunk_width_bounds (i / MARKS_PER_BLOCK)). nia.
Qed.

Lemma off_next i : (S i < length marks)%nat -> off_of i + mark_width (info_of i) <= off_of (S i).
Proof.
  intros Hi. destruct (lookup_lt_is_Some_2 marks i ltac:(lia)) as [m Hm]. pose proof (off_within i m Hm) as Hw.
  pose proof (Nat.div_mod_eq i MARKS_PER_BLOCK). pose proof (Nat.mod_upper_bound i MARKS_PER_BLOCK ltac:(done)).
  destruct (Nat.eq_dec (S (i mod MARKS_PER_BLOCK)) MARKS_PER_BLOCK) as [E|E].
  - assert (Ed : (S i / MARKS_PER_BLOCK = S (i / MARKS_PER_BLOCK))%nat) by (symmetry; apply (Nat.div_unique _ _ _ 0); unfold MARKS_PER_BLOCK in *; lia).
    assert (Em : (S i mod MARKS_PER_BLOCK = 0)%nat) by (symmetry; apply (Nat.mod_unique _ _ (S (i / MARKS_PER_BLOCK))); unfold MARKS_PER_BLOCK in *; lia).
    unfold off_of at 2. rewrite Ed, Em. lia.
  - assert (Ed : (S i / MARKS_PER_BLOCK = i / MARKS_PER_BLOCK)%nat) by (symmetry; apply (Nat.div_unique _ _ _ (S (i mod MARKS_PER_BLOCK))); lia).
    assert (Em : (S i mod MARKS_PER_BLOCK = S (i mod MARKS_PER_BLOCK))%nat) by (symmetry; apply (Nat.mod_unique _ _ (i / MARKS_PER_BLOCK)); lia).
    unfold off_of. rewrite Ed, Em, info_width. lia.
Qed.

Lemma start_mono a b : (a <= b)%nat -> start a <= start b.
Proof. induction 1 as [|b Hb IH]; [lia|]. cbn [start]. pose proof (chunk_width_bounds b). nia. Qed.

Lemma off_placed bs n i m :
  (forall i, (i < n)%nat -> bs !! i = Some (block_info (start i) (chunk i))) -> (i / MARKS_PER_BLOCK < n)%nat ->
  marks !! i = Some m -> placed bs info_of off_of (start n) i m.
Proof.
  intros Hbs Hn Hm. destruct (in_chunk i m Hm) as [Hin Hlt]. pose proof (off_within i m Hm) as Hw.
  pose proof (start_mono (S (i / MARKS_PER_BLOCK)) n Hn). pose proof (start_small (i / MARKS_PER_BLOCK)). pose proof (start_small n).
  pose proof (chunk_width_bounds (i / MARKS_PER_BLOCK)) as Hc. pose proof (chunk_valid (i / MARKS_PER_BLOCK)) as Hv.
  destruct (block_info_spec (start (i / MARKS_PER_BLOCK)) _ m Hv Hin) as (Hbx & Hby & Hdx & Hdy & _).
  assert (0 <= off_of i) by (unfold off_of; nia). split; try done; [|lia].
  unfold lookUpMark. rewrite Hbs by done. fold (info_of i). rewrite info_width in *. do 2 f_equal.
  pose proof (Nat.div_mod_eq i MARKS_PER_BLOCK).
  replace (i - i / MARKS_PER_BLOCK * MARKS_PER_BLOCK)%nat with (i mod MARKS_PER_BLOCK)%nat by lia.
  apply uwrap_small. unfold in_unsigned. change (bit_offset_in_packed_array (info_of i)) with (start (i / MARKS_PER_BLOCK)).
  fold (off_of i). lia.
Qed.

End Layout.

(** The array that the constructor makes. *)
Lemma make_marks_spec (marks : list MarkInCompressedFile) :
  Forall valid_mark_value marks -> Z.of_nat (length marks) < 2 ^ 56 ->
  exists t, make_marks marks = Ok t /\ forall idx mark, marks !! idx = Some mark -> get_mark t idx = Ok mark.
Proof.
  intros Hv Hc. unfold make_marks.
  destruct (Nat.eqb_spec (length marks) 0) as [E|_]; [destruct marks; [by eexists|done]|]. set (n := ((length marks + MARKS_PER_BLOCK - 1) / MARKS_PER_BLOCK)%nat).
  destruct (layout_spec marks Hv Hc n 0) as (bs & El & Hbs). rewrite drop_0 in El. cbn [start] in El. rewrite El. cbn [Nat.add] in *.
  set (total := start marks n). pose proof (start_small marks Hv Hc n) as Ht. fold total in Ht.
  rewrite (uwrap_small 64 (total + 63)) by (unfold in_unsigned; lia). set (L := Z.to_nat ((total + 63) / 64 + 1)).
  assert (HL : total <= 64 * (Z.of_nat L - 1)) by (unfold L; Z.to_euclidean_division_equations; lia).
  assert (Hn : forall i m, marks !! i = Some m -> (i / MARKS_PER_BLOCK < n)%nat).
  { intros i m Hi%lookup_lt_Some. unfold n. apply Nat.div_lt_upper_bound; [done|].
    pose proof (Nat.div_mod_eq (length marks + MARKS_PER_BLOCK - 1) MARKS_PER_BLOCK).
    pose proof (Nat.mod_upper_bound (length marks + MARKS_PER_BLOCK - 1) MARKS_PER_BLOCK ltac:(done)). unfold MARKS_PER_BLOCK in *. lia. }
  assert (Hpl : forall i m, marks !! i = Some m -> placed bs (info_of marks) (off_of marks) total i m)
    by (intros; eapply off_placed; eauto).
  destruct (pack_spec marks bs (info_of marks) (off_of marks) total L Hpl (off_next marks Hv) ltac:(lia) HL marks 0 (replicate L 0))
    as (p & Ep & Hlen & Hwords & Hholds).
  { done. } { apply length_replicate. } { apply Forall_replicate. done. } { lia. }
  { intros _ k _. unfold packed_bit. destruct (replicate L 0 !! _) eqn:E; [|done]. apply lookup_replicate in E as [-> _]. apply Z.bits_0. }
  rewrite Ep. cbn [rbind]. eexists. split; [done|]. intros idx mark Hm. unfold get_mark. cbn [blocks packed].
  destruct (Hpl idx mark Hm) as [-> Hr Hx Hy Hdx Hdy]. cbn [rbind]. destruct (Hholds idx mark Hm) as [Hbx Hby]. unfold mark_width in Hr.
  rewrite (read_packed_field total L HL p _ _ (dx_of (info_of marks) idx mark)) by (done || lia). cbn [rbind].
  rewrite uwrap_small by (unfold in_unsigned; lia).
  rewrite (read_packed_field total L HL p _ _ (dy_of (info_of marks) idx mark)) by (done || lia). cbn [rbind].
  destruct (in_chunk marks idx mark Hm) as [Hin _].
  destruct (block_info_spec (start marks (idx / MARKS_PER_BLOCK)) _ mark (chunk_valid marks Hv _) Hin) as (_ & _ & _ & _ & Ex & Ey).
  fold (info_of marks idx) in Ex, Ey. unfold dx_of, dy_of. rewrite Ex, Ey. by destruct mark.
Qed.

(** * Theorem *)

(** C23: the packed array of marks, with differences to the minimum of each block of
    256 marks in as few bits as they need, gives back every mark; neither the
    constructor nor [get] accesses memory outside of the arrays. *)
Theorem marks_roundtrip (marks : list MarkInCompressedFile) (idx : nat) (mark : MarkInCompressedFile) :
  Forall valid_mark_value marks -> Z.of_nat (length marks) < 2 ^ 56 -> marks !! idx = Some mark ->
  exists t, make_marks marks = Ok t /\ get_mark t idx = Ok mark.
Proof.
  intros Hv Hc Hm. destruct (make_marks_spec marks Hv Hc) as (t & E & Ht). exists t. split; [done|]. by apply Ht.
Qed.

(** Marks at the ends of the range. *)
Definition example_marks : list MarkInCompressedFile :=
  [{| offset_in_compressed_file := 100; offset_in_decompressed_block := 0 |};
   {| offset_in_compressed_file := 2 ^ 64 - 1; offset_in_decompressed_block := 3 * 2 ^ 20 |};
   {| offset_in_compressed_file := 164; offset_in_decompressed_block := 2 ^ 40 |}].

Lemma marks_roundtrip_witness :
  exists t, make_marks example_marks = Ok t /\
    get_mark t 1 = Ok {| offset_in_compressed_file := 2 ^ 64 - 1; offset_in_decompressed_block := 3 * 2 ^ 20 |}.
Proof.
  apply (marks_roundtrip example_marks 1); [|done|done]. unfold valid_mark_value, in_unsigned.
  repeat (apply Forall_cons_2; [done|]). apply Forall_nil_2.
Defined.
