(* ===== verification/PartStream.v ===== *)
(** The stream of a column in a data part
    (src/Storages/MergeTree/MergeTreeDataPartWriterOnDisk.{h,cpp}): a chain of buffers for
    the file with the data and another for the file with the marks. *)
From S2P Require Import Prelude IntText BinaryIO ReadBuffer ReadBufferFromFile WriteBuffer Codec HashingBuffer.
From S2P Require Import CompressedWriteBuffer CompressedReadBuffer CompressedFile CompressedStream Marks.
Import Binary.

(** * The chain of buffers of one file *)

Abbreviation PlainHashing := (HashingWriteBuffer (S := WriteBufferFromFileDescriptor)).
Abbreviation Compressor := (CompressedWriteBuffer (S := PlainHashing)).
Abbreviation Chain := (WriteBuffer (HashingWriteBuffer (S := Compressor))).

Definition compressor (ch : Chain) : WriteBuffer Compressor := h_out (w_impl ch).
Definition plain_hashing (ch : Chain) : WriteBuffer PlainHashing := out (w_impl (compressor ch)).
Definition plain_file (ch : Chain) : FileWriteBuffer := h_out (w_impl (plain_hashing ch)).

(** An operation on the buffer below a hashing buffer, and on buffers of the chain. *)
Definition on_out {S} (f : WriteBuffer S -> outcome (WriteBuffer S)) (b : WriteBuffer (HashingWriteBuffer (S := S)))
  : outcome (WriteBuffer (HashingWriteBuffer (S := S))) :=
  let (r, o) := f (h_out (w_impl b)) in (r, set_w_impl {| h_out := o; h_hasher := h_hasher (w_impl b) |} b).

Definition on_compressor : (WriteBuffer Compressor -> outcome (WriteBuffer Compressor)) -> Chain -> outcome Chain := on_out.

Definition on_plain_hashing (f : WriteBuffer PlainHashing -> outcome (WriteBuffer PlainHashing)) : Chain -> outcome Chain :=
  on_compressor (fun c => let (r, o) := f (out (w_impl c)) in (r, set_out o c)).

Definition on_plain_file (f : FileWriteBuffer -> outcome FileWriteBuffer) : Chain -> outcome Chain :=
  on_plain_hashing (on_out f).

Section Stream.
(** The hashes of the library cityhash102, and the contents of fresh memory. *)
Context (CityHash128 : bytes -> Z * Z) (CityHash128WithSeed : bytes -> Z * Z -> Z * Z) (fresh : nat -> bytes).

Definition ToPlainHashing : WriteImpl PlainHashing := ToHashing CityHash128WithSeed ToFileDescriptor.
Definition ToCompressor : WriteImpl Compressor := ToCompressed CityHash128 ToPlainHashing.
Definition ToCompressedHashing : WriteImpl (HashingWriteBuffer (S := Compressor)) := ToHashing CityHash128WithSeed ToCompressor.

(** A buffer made by a constructor. *)
Definition constructed {St} (r : outcome St) : result St := match r with (Ok _, s) => Ok s | (Throw e, _) => Throw e end.

Definition new_chain (plain_file_ : FileWriteBuffer) (codec_ : ICompressionCodec) (block_size_ : Z) (adaptive : bool)
    (initial_size : Z) : result Chain :=
  let! plain_hashing_ := constructed (hw_create ToFileDescriptor fresh plain_file_ DBMS_DEFAULT_HASHING_BLOCK_SIZE) in
  let compressor_ := cw_create plain_hashing_ codec_ block_size_ adaptive initial_size in
  constructed (hw_create ToCompressor fresh compressor_ DBMS_DEFAULT_HASHING_BLOCK_SIZE).

(** The calls of [finalize] in [preFinalize] *)
Definition finalize_chain (ch : Chain) : outcome Chain :=
  finalize ToCompressedHashing (w_next ToCompressedHashing) ch >>
  on_compressor (finalize ToCompressor (cw_finalizeImpl CityHash128 ToPlainHashing)) >>
  on_plain_hashing (finalize ToPlainHashing (w_next ToPlainHashing)).

(** The calls of [cancel] up to that of the file *)
Definition cancel_with {S} (I : WriteImpl S) (b : WriteBuffer S) : outcome (WriteBuffer S) := (Ok tt, cancel I b).

Definition cancel_chain (ch : Chain) : Chain :=
  (on_compressor (cancel_with ToCompressor) (cancel ToCompressedHashing ch) >>
   on_plain_hashing (cancel_with ToPlainHashing)).2.

(** * [Stream<false>] *)

Record Stream := {
  compressed_hashing : Chain;
  marks_compressed_hashing : Chain;
  compress_marks : bool;
  is_prefinalized : bool }.

Definition set_data (ch : Chain) (s : Stream) : Stream :=
  {| compressed_hashing := ch; marks_compressed_hashing := marks_compressed_hashing s;
     compress_marks := compress_marks s; is_prefinalized := is_prefinalized s |}.

Definition set_marks (ch : Chain) (s : Stream) : Stream :=
  {| compressed_hashing := compressed_hashing s; marks_compressed_hashing := ch;
     compress_marks := compress_marks s; is_prefinalized := is_prefinalized s |}.

Definition on_data (f : Chain -> outcome Chain) (s : Stream) : outcome Stream :=
  let (r, ch) := f (compressed_hashing s) in (r, set_data ch s).

Definition on_marks (f : Chain -> outcome Chain) (s : Stream) : outcome Stream :=
  let (r, ch) := f (marks_compressed_hashing s) in (r, set_marks ch s).

(** The settings for new streams. *)
Record StreamSettings := {
  compression_codec : ICompressionCodec;
  max_compress_block_size : Z;
  marks_compression_codec : ICompressionCodec;
  marks_compress_block_size : Z;
  use_adaptive_write_buffer : bool;
  adaptive_write_buffer_initial_size : Z;
  marks_compressed : bool }.

(** The constructor; the files are made by [writeFile] of the storage. *)
Definition new_stream (st : StreamSettings) (plain_file_ marks_file_ : FileWriteBuffer) : result Stream :=
  let! data := new_chain plain_file_ (compression_codec st) (max_compress_block_size st)
    (use_adaptive_write_buffer st) (adaptive_write_buffer_initial_size st) in
  let! marks := new_chain marks_file_ (marks_compression_codec st) (marks_compress_block_size st)
    (use_adaptive_write_buffer st) (adaptive_write_buffer_initial_size st) in
  Ok {| compressed_hashing := data; marks_compressed_hashing := marks;
        compress_marks := marks_compressed st; is_prefinalized := false |}.

Definition set_prefinalized (s : Stream) : Stream :=
  {| compressed_hashing := compressed_hashing s; marks_compressed_hashing := marks_compressed_hashing s;
     compress_marks := compress_marks s; is_prefinalized := true |}.

(** [preFinalize]; that of a file is [next]. *)
Definition preFinalize (s : Stream) : outcome Stream :=
  on_data finalize_chain s >> on_marks finalize_chain >>
  on_data (on_plain_file (w_next ToFileDescriptor)) >> on_marks (on_plain_file (w_next ToFileDescriptor)) >>
  fun s => (Ok tt, set_prefinalized s).

(** [finalize] *)
Definition finalize_stream (s : Stream) : outcome Stream :=
  (if is_prefinalized s then (Ok tt, s) else preFinalize s) >>
  on_data (on_plain_file (finalize ToFileDescriptor fd_finalizeImpl)) >>
  on_marks (on_plain_file (finalize ToFileDescriptor fd_finalizeImpl)).

(** [cancel] *)
Definition cancel_stream (s : Stream) : Stream :=
  (on_data (fun ch => (Ok tt, cancel_chain ch)) s >> on_marks (fun ch => (Ok tt, cancel_chain ch)) >>
   on_data (on_plain_file (cancel_with ToFileDescriptor)) >> on_marks (on_plain_file (cancel_with ToFileDescriptor))).2.

(** ** Marks *)

(** The part of [getCurrentMarksForColumn] of MergeTreeDataPartWriterWide.cpp for one
    stream. *)
Definition getCurrentMark (min_compress_block_size : Z) (s : Stream) : outcome Stream * MarkInCompressedFile :=
  let r := on_data (fun ch => if min_compress_block_size <=? w_offset ch then w_next ToCompressedHashing ch else (Ok tt, ch)) s in
  let ch := compressed_hashing r.2 in
  (r, {| offset_in_compressed_file := w_count (plain_hashing ch); offset_in_decompressed_block := w_offset ch |}).

(** [writeBinaryLittleEndian(x, buf)] *)
Definition write_u64 {S} (I : WriteImpl S) (x : Z) (b : WriteBuffer S) : outcome (WriteBuffer S) :=
  write I (le_bytes 8 (uwrap 64 x)) b.

(** [flushMarkToFile] *)
Definition write_mark {S} (I : WriteImpl S) (adaptive : bool) (mark : MarkInCompressedFile) (rows_in_mark : Z) (b : WriteBuffer S)
  : outcome (WriteBuffer S) :=
  write_u64 I (offset_in_compressed_file mark) b >> write_u64 I (offset_in_decompressed_block mark) >>
  fun b => if adaptive then write_u64 I rows_in_mark b else (Ok tt, b).

Definition flushMarkToFile (can_use_adaptive_granularity : bool) (mark : MarkInCompressedFile) (rows_in_mark : Z) (s : Stream)
  : outcome Stream :=
  if compress_marks s then on_marks (write_mark ToCompressedHashing can_use_adaptive_granularity mark rows_in_mark) s
  else on_marks (on_plain_hashing (write_mark ToPlainHashing can_use_adaptive_granularity mark rows_in_mark)) s.

End Stream.

(** * The state of a chain *)

Section Proofs.
Context (CityHash128 : bytes -> Z * Z) (CityHash128WithSeed : bytes -> Z * Z -> Z * Z) (fresh : nat -> bytes).
Context (fresh_length : forall n, length (fresh n) = n).
Context (c : ICompressionCodec) (limit : Z) `{!FitsReserve c limit} (Hlimit : limit < 2 ^ 30).

Abbreviation hashing_block := (Z.to_nat DBMS_DEFAULT_HASHING_BLOCK_SIZE).
Abbreviation I := (ToCompressedHashing CityHash128 CityHash128WithSeed).
Implicit Types ch : Chain.

Definition plain_inv : WriteBuffer PlainHashing -> bytes -> Prop := hw_inv CityHash128WithSeed fdw_inv [] hashing_block.

#[local] Instance plain_writer : WriterSpec (ToPlainHashing CityHash128WithSeed) plain_inv.
Proof. apply hashing_writer, _. Qed.

(** The chain accepted [data], in blocks that are behind [base] in the file, and the
    rest. *)
Definition chain_at (base : bytes) (blocks : list bytes) ch (data : bytes) : Prop :=
  hw_frame CityHash128WithSeed hashing_block ch (mjoin blocks) data /\
  cw_at CityHash128 plain_inv c limit base blocks (compressor ch) (mjoin blocks).

Definition flush (blocks : list bytes) (pend : bytes) : list bytes :=
  if decide (pend = []) then blocks else blocks ++ [pend].

Lemma mjoin_flush (blocks : list bytes) pend : mjoin (flush blocks pend) = mjoin blocks ++ pend.
Proof. unfold flush. destruct (decide (pend = [])) as [->|]; [by rewrite app_nil_r|]. rewrite join_app. simpl. by rewrite app_nil_r. Qed.

Lemma chain_open base blocks ch data : chain_at base blocks ch data ->
  finalized ch = false /\ canceled ch = false /\ w_offset ch <= capacity ch /\ 0 < capacity ch <= limit /\
  data = mjoin blocks ++ pending ch /\ is_bytes (pending ch).
Proof.
  intros [(Hd & _ & _ & Hc & Hcap & Hb & _ & Hf & Hcan & _) (_ & _ & _ & _ & _ & _ & Hl & _)].
  unfold compressor in Hl. rewrite <- Hc in Hl. done.
Qed.

Lemma chain_push base blocks ch data bs :
  chain_at base blocks ch data -> is_bytes bs -> size_of bs <= w_available ch -> chain_at base blocks (push bs ch) (data ++ bs).
Proof. intros [Hf Hc] Hb Ha. split; [by apply hw_push_frame|done]. Qed.

(** [next] makes a block of the data that is pending. *)
Lemma chain_next base blocks ch data : chain_at base blocks ch data ->
  exists ch', w_next I ch = (Ok tt, ch') /\ chain_at base (flush blocks (pending ch)) ch' data /\ pending ch' = [].
Proof.
  intros H. destruct (chain_open _ _ _ _ H) as (_ & Hcan & _). unfold flush. destruct (decide (pending ch = [])) as [E|Hne].
  { exists ch. by rewrite w_next_empty. }
  unfold w_next at 1. rewrite Hcan, offset_nonempty by done.
  destruct H as [Hf Hc]. pose proof Hf as (Hd & _ & Hp & _ & _ & Hb & _). pose proof Hc as (_ & _ & _ & _ & _ & _ & _ & _ & _ & _ & Hcc & _).
  pose proof (cw_push_at _ _ _ _ _ _ _ _ (pending ch) Hc Hb (hw_room _ _ _ _ _ Hf)) as Hc'.
  set (o1 := push (pending ch) (compressor ch)) in *. assert (Ep : pending o1 = pending ch) by (simpl; unfold compressor; by rewrite Hp).
  destruct (cw_next_at CityHash128 (ToPlainHashing CityHash128WithSeed) plain_inv c limit Hlimit base blocks o1 _ Hc')
    as (o2 & E2 & Ho2 & Hp2); [by rewrite Ep|]. rewrite Ep in Ho2.
  assert (En : w_next (ToCompressor CityHash128 CityHash128WithSeed) o1 = (Ok tt, passed (w_offset o1) o2)).
  { unfold w_next. change (canceled o1) with (canceled (compressor ch)). rewrite Hcc. cbn [w_nextImpl ToCompressor ToCompressed].
    rewrite E2, offset_nonempty; [done|by rewrite Ep]. }
  destruct (hw_next_frame CityHash128WithSeed _ _ ch _ data _ Hf En Hp2) as (ch' & E & Hout & Hfr & Hpe).
  { by destruct Ho2 as (_ & _ & _ & _ & _ & _ & [? _] & _). }
  cbn [w_nextImpl ToCompressedHashing ToHashing]. rewrite E. eexists. split; [done|]. split; [|done].
  unfold chain_at. rewrite join_app. simpl. rewrite app_nil_r, <- Hd. split; [done|].
  unfold compressor at 1. cbn [passed w_impl set_w_offset set_pending set_written]. rewrite Hout. by rewrite Hd.
Qed.

(** ** Marks in the chain *)

(** A mark, the position in the data that it is to be, and the number of blocks before
    it. *)
Record Located := {
  lo_mark : MarkInCompressedFile;
  lo_position : Z;
  lo_block : nat }.

(** Marks are flushed from this size of the pending data on. *)
Context (min_compress_block_size : Z).

(** The mark is within a block. *)
Definition in_block (blocks : list bytes) (l : Located) : Prop :=
  exists blk, blocks !! lo_block l = Some blk /\
    offset_in_compressed_file (lo_mark l) = uwrap 64 (size_of (stream CityHash128 c (take (lo_block l) blocks))) /\
    lo_position l = size_of (mjoin (take (lo_block l) blocks)) + offset_in_decompressed_block (lo_mark l) /\
    0 <= offset_in_decompressed_block (lo_mark l) < size_of blk.

(** It is in the data that is pending; if it is at the end, there will be more data in
    the block. *)
Definition in_pending (blocks : list bytes) (pend : bytes) (cap : Z) (l : Located) : Prop :=
  lo_block l = length blocks /\
  offset_in_compressed_file (lo_mark l) = uwrap 64 (size_of (stream CityHash128 c blocks)) /\
  lo_position l = size_of (mjoin blocks) + offset_in_decompressed_block (lo_mark l) /\
  0 <= offset_in_decompressed_block (lo_mark l) <= size_of pend /\
  (offset_in_decompressed_block (lo_mark l) = size_of pend ->
   offset_in_decompressed_block (lo_mark l) = 0 \/
   offset_in_decompressed_block (lo_mark l) < min_compress_block_size /\ offset_in_decompressed_block (lo_mark l) < cap).

Definition located (blocks : list bytes) (pend : bytes) (cap : Z) (l : Located) : Prop :=
  in_block blocks l \/ in_pending blocks pend cap l.

(** The chain accepted [data], and has these marks in it. *)
Definition marked (ms : list Located) ch (data : bytes) : Prop :=
  exists blocks, chain_at [] blocks ch data /\ Forall (located blocks (pending ch) (capacity ch)) ms.

Lemma in_block_more blocks more l : in_block blocks l -> in_block (blocks ++ more) l.
Proof.
  intros (blk & Hb & H). pose proof (lookup_lt_Some _ _ _ Hb). exists blk. rewrite take_app_le by lia.
  split; [by apply lookup_app_l_Some|done].
Qed.

(** A mark before the end of the pending data is in the block that this becomes. *)
Lemma located_flush blocks pend cap l :
  located blocks pend cap l -> lo_position l < size_of (mjoin blocks) + size_of pend -> in_block (flush blocks pend) l.
Proof.
  intros [H|(Hk & Hx & Hp & Hy & _)] Hlt; unfold flush; destruct (decide (pend = [])) as [->|Hne];
    [done|by apply in_block_more|simpl in *; lia|].
  exists pend. rewrite Hk, take_app_length, lookup_app_r, Nat.sub_diag by done. split_and!; try done; lia.
Qed.

(** The block is made of the pending data when the buffer is full, or the data enough. *)
Lemma located_next blocks pend cap cap' l :
  located blocks pend cap l -> 0 < cap <= size_of pend \/ min_compress_block_size <= size_of pend ->
  located (flush blocks pend) [] cap' l.
Proof.
  intros Hp Hc. destruct (decide (pend = [])) as [->|Hne].
  - unfold flush. rewrite decide_True by done. destruct Hp as [|(Hk & Hx & Hp & Hy & _)]; [by left|right].
    simpl in *. split_and!; try done; lia.
  - left. destruct Hp as [Hp|Hp]; [unfold flush; rewrite decide_False by done; by apply in_block_more|].
    apply (located_flush _ _ cap); [by right|]. destruct Hp as (_ & _ & -> & Hy & He). destruct pend; [done|]. simpl in *. lia.
Qed.

(** In the end, a mark is in a block, or at the end of the data. *)
Definition settled (blocks : list bytes) (l : Located) : Prop :=
  (lo_block l <= length blocks)%nat /\
  offset_in_compressed_file (lo_mark l) = uwrap 64 (size_of (stream CityHash128 c (take (lo_block l) blocks))) /\
  lo_position l = size_of (mjoin (take (lo_block l) blocks)) + offset_in_decompressed_block (lo_mark l) /\
  0 <= offset_in_decompressed_block (lo_mark l) /\ lo_position l <= size_of (mjoin blocks) /\
  (lo_position l < size_of (mjoin blocks) -> in_block blocks l) /\
  (lo_position l = size_of (mjoin blocks) -> length blocks <= S (lo_block l))%nat.

Lemma size_take_drop (blocks : list bytes) k :
  size_of (mjoin blocks) = size_of (mjoin (take k blocks)) + size_of (mjoin (drop k blocks)).
Proof. rewrite <- (take_drop k blocks) at 1. rewrite join_app, length_app. lia. Qed.

Lemma in_block_bounds blocks l : in_block blocks l ->
  (lo_block l < length blocks)%nat /\ lo_position l < size_of (mjoin (take (S (lo_block l)) blocks)) /\ lo_position l < size_of (mjoin blocks).
Proof.
  intros (blk & Hb & _ & -> & Hy). pose proof (lookup_lt_Some _ _ _ Hb) as Hlt.
  pose proof (size_take_drop blocks (S (lo_block l))) as E.
  rewrite (take_S_r _ _ _ Hb), join_app, length_app in *. simpl in *. rewrite app_nil_r in *. lia.
Qed.

Lemma located_settled blocks pend cap l : located blocks pend cap l -> settled (flush blocks pend) l.
Proof.
  intros H. assert (Hk : (lo_block l <= length blocks)%nat /\
    offset_in_compressed_file (lo_mark l) = uwrap 64 (size_of (stream CityHash128 c (take (lo_block l) blocks))) /\
    lo_position l = size_of (mjoin (take (lo_block l) blocks)) + offset_in_decompressed_block (lo_mark l) /\
    0 <= offset_in_decompressed_block (lo_mark l) /\ lo_position l <= size_of (mjoin blocks) + size_of pend).
  { destruct H as [H|(-> & Hx & Hp & Hy & _)]; [|rewrite firstn_all; split_and!; try done; lia].
    pose proof (in_block_bounds _ _ H). destruct H as (blk & Hb & Hx & Hp & Hy). split_and!; try done; lia. }
  destruct Hk as (Hk & Hx & Hp & Hy & Hle).
  assert (Et : take (lo_block l) (flush blocks pend) = take (lo_block l) blocks).
  { unfold flush. destruct (decide _); [done|]. by rewrite take_app_le. }
  unfold settled. rewrite Et, mjoin_flush. simpl_len. split_and!; try done; try lia.
  - unfold flush. destruct (decide _); [done|]. simpl_len. lia.
  - intros Hlt. apply (located_flush _ _ cap); [done|lia].
  - intros E. destruct H as [H|(-> & _)]; [apply in_block_bounds in H; lia|].
    unfold flush. destruct (decide _); [lia|]. simpl_len. lia.
Qed.

(** Marks in the order they were made. *)
Definition earlier (l l' : Located) : Prop := (lo_block l <= lo_block l')%nat /\ lo_position l <= lo_position l'.

#[local] Instance marked_appends ms : AppenderSpec I (marked ms).
Proof.
  split.
  - intros ch data (blocks & H & _). by destruct (chain_open _ _ _ _ H) as (? & ? & _).
  - intros ch data bs (blocks & H & Hm) Hb Ha. exists blocks. split; [by apply chain_push|].
    eapply Forall_impl; [exact Hm|]. intros l [Hp|(Hk & Hx & Hp & Hy & He)]; [by left|right]. simpl in *. split_and!; try done; simpl_len; try lia.
  - intros ch data (blocks & H & Hm) Hfull. destruct (chain_next _ _ _ _ H) as (ch' & E & H' & Hp). exists ch'. split; [done|].
    destruct (chain_open _ _ _ _ H) as (_ & _ & _ & Hc & _). destruct (chain_open _ _ _ _ H') as (_ & _ & _ & Hc' & _).
    split; [|by apply empty_available; [|lia]]. exists (flush blocks (pending ch)). split; [done|]. rewrite Hp.
    eapply Forall_impl; [exact Hm|]. intros l Hl. eapply located_next; [done|]. unfold w_available, w_offset in Hfull. lia.
Qed.

(** The buffer is not full, or will be flushed before the next mark. *)
Definition ready ch : Prop := w_offset ch < min_compress_block_size -> 0 < w_available ch.

(** A new mark. *)
Lemma mark_spec ms (s : Stream) data :
  marked ms (compressed_hashing s) data -> ready (compressed_hashing s) ->
  exists ch l, getCurrentMark CityHash128 CityHash128WithSeed min_compress_block_size s = ((Ok tt, set_data ch s), lo_mark l) /\
    marked (ms ++ [l]) ch data /\ 0 < w_available ch /\ valid_mark_value (lo_mark l) /\ lo_position l = size_of data /\
    Forall (fun l' => earlier l' l) ms.
Proof.
  intros (blocks & H & Hm) Hr. unfold getCurrentMark, on_data. assert (Hok : forall ch blocks, chain_at [] blocks ch data ->
    Forall (located blocks (pending ch) (capacity ch)) ms -> 0 < w_available ch -> pending ch = [] \/ w_offset ch < min_compress_block_size ->
    let m := {| offset_in_compressed_file := w_count (plain_hashing ch); offset_in_decompressed_block := w_offset ch |} in
    let l := {| lo_mark := m; lo_position := size_of data; lo_block := length blocks |} in
    marked (ms ++ [l]) ch data /\ 0 < w_available ch /\ valid_mark_value m /\ lo_position l = size_of data /\
    Forall (fun l' => earlier l' l) ms).
  { clear H Hm Hr blocks s. intros ch blocks H Hm Ha Hend m l. destruct (chain_open _ _ _ _ H) as (_ & _ & Ho & Hc & Hd & _).
    assert (Ex : w_count (plain_hashing ch) = uwrap 64 (size_of (stream CityHash128 c blocks)))
      by (destruct H as [_ (_ & _ & _ & Hp & _)]; by apply (winv_count (WriterSpec := plain_writer)) in Hp).
    assert (Hsize : size_of data = size_of (mjoin blocks) + size_of (pending ch)) by (rewrite Hd; simpl_len; lia).
    split_and!; [|done|split; [apply uwrap_range; lia|unfold in_unsigned, m, w_offset in *; simpl; lia]|done|].
    - exists blocks. split; [done|]. apply Forall_app_2; [done|]. apply Forall_singleton. right. unfold in_pending. simpl.
      split_and!; [done|done|done|unfold w_offset; lia|done|]. unfold w_available, w_offset in *.
      intros _. destruct Hend as [->|]; [by left|right; lia].
    - eapply Forall_impl; [exact Hm|]. intros l' Hl'. pose proof (located_settled _ _ _ _ Hl') as (Hk & _ & _ & _ & Hp & _).
      rewrite mjoin_flush in Hp. simpl_len. split; [|simpl; lia]. simpl.
      destruct Hl' as [Hl'|(-> & _)]; [apply in_block_bounds in Hl'; lia|done]. }
  destruct (Z.leb_spec min_compress_block_size (w_offset (compressed_hashing s))) as [Hle|Hgt].
  - destruct (chain_next _ _ _ _ H) as (ch' & -> & H' & Hp). eexists _, {| lo_mark := _ |}. split; [done|]. simpl.
    apply (Hok ch' _ H'); [|apply empty_available; [done|]; by apply chain_open in H' as (_ & _ & _ & [? _] & _)|by left].
    rewrite Hp. eapply Forall_impl; [exact Hm|]. intros l Hl. eapply located_next; [done|]. by right.
  - eexists _, {| lo_mark := _ |}. split; [done|]. apply (Hok _ _ H Hm); [by apply Hr|by right].
Qed.

(** ** Finalization *)

(** All of the data is in the blocks, and all of the blocks were given to the file. *)
Record finished (base : bytes) (blocks : list bytes) ch (data : bytes) : Prop := {
  fin_data : data = mjoin blocks;
  fin_blocks : Forall (is_block limit) blocks;
  fin_pending : pending ch = [];
  fin_count : w_count ch = uwrap 64 (size_of data);
  fin_hashed : hashed CityHash128WithSeed hashing_block (h_hasher (w_impl ch)) data;
  fin_plain_pending : pending (plain_hashing ch) = [];
  fin_plain_count : w_count (plain_hashing ch) = uwrap 64 (size_of (base ++ stream CityHash128 c blocks));
  fin_plain_hashed : hashed CityHash128WithSeed hashing_block (h_hasher (w_impl (plain_hashing ch))) (base ++ stream CityHash128 c blocks);
  fin_file : fdw_inv (plain_file ch) (base ++ stream CityHash128 c blocks) }.

Lemma finalize_chain_spec base blocks ch data : chain_at base blocks ch data ->
  exists ch', finalize_chain CityHash128 CityHash128WithSeed ch = (Ok tt, ch') /\ finished base (flush blocks (pending ch)) ch' data.
Proof.
  intros H. destruct (chain_open _ _ _ _ H) as (Hf & Hcan & _). unfold finalize_chain. unfold finalize at 1. rewrite Hf, Hcan.
  destruct (chain_next _ _ _ _ H) as (ch1 & -> & [Hfr Hc] & Hp). cbn [andthen]. set (blocks' := flush blocks (pending ch)) in *.
  pose proof Hfr as (Hd & Hh & Hpc & _ & _ & _ & _ & _ & _ & Hcnt). rewrite Hp, app_nil_r in Hd.
  pose proof Hc as (_ & Hbl & _ & Ho & _ & _ & _ & _ & _ & Hfc & Hcc & _).
  unfold on_compressor, on_out. cbn [w_impl set_flags]. unfold finalize at 1. unfold compressor in Hfc, Hcc, Hpc, Ho.
  rewrite Hfc, Hcc. unfold cw_finalizeImpl. rewrite w_next_empty by done. cbn [andthen]. rewrite w_next_empty by done. cbn [andthen].
  unfold on_plain_hashing, on_compressor, on_out. cbn [w_impl set_flags set_w_impl h_out out].
  destruct (winv_bounds (WriterSpec := plain_writer) _ _ Ho) as (_ & _ & Hfp & Hcp). unfold finalize. rewrite Hfp, Hcp.
  destruct (w_next_spec (ToPlainHashing CityHash128WithSeed) plain_inv _ _ Ho) as (p & -> & Hpl & Hpp).
  eexists. split; [done|]. destruct Hpl as (before & Hfile & Eb & Hhp & _ & _ & _ & _ & _ & _ & _ & Hcntp).
  rewrite Hpp, app_nil_r in Eb. subst before. split; simpl; try done. by rewrite Hd.
Qed.

(** The file in the end. *)
Lemma finished_close base blocks ch data : finished base blocks ch data ->
  exists ch', on_plain_file (finalize ToFileDescriptor fd_finalizeImpl) ch = (Ok tt, ch') /\
    file (w_fd (w_impl (plain_file ch'))) = base ++ stream CityHash128 c blocks.
Proof.
  intros []. destruct (fd_finalize_spec _ _ fin_file0) as (w' & E & Hw'). unfold on_plain_file, on_plain_hashing, on_compressor, on_out.
  unfold plain_file, plain_hashing, compressor in E. rewrite E. by eexists.
Qed.

Lemma finished_prefinalize base blocks ch data : finished base blocks ch data ->
  exists ch', on_plain_file (w_next ToFileDescriptor) ch = (Ok tt, ch') /\ finished base blocks ch' data.
Proof.
  intros []. destruct (w_next_spec ToFileDescriptor fdw_inv _ _ fin_file0) as (w' & E & Hw & _).
  unfold on_plain_file, on_plain_hashing, on_compressor, on_out. unfold plain_file, plain_hashing, compressor in E. rewrite E.
  eexists. split; [done|]. by split.
Qed.

(** ** Construction *)

Lemma new_chain_spec w block_size_ adaptive initial_size :
  fdw_inv w [] -> 0 < block_size_ <= limit -> 0 < initial_size <= limit ->
  exists ch, new_chain CityHash128 CityHash128WithSeed fresh w c block_size_ adaptive initial_size = Ok ch /\
    chain_at [] [] ch [] /\ 0 < w_available ch.
Proof.
  intros Hw Hb Hi. unfold new_chain.
  destruct (hw_create_inv CityHash128WithSeed ToFileDescriptor fdw_inv fresh hashing_block w [] fresh_length ltac:(compute; lia) Hw)
    as (p & Ep & Hp). rewrite Z2Nat.id in Ep by done. rewrite Ep. cbn [constructed rbind].
  pose proof (cw_create_at CityHash128 plain_inv c limit [] p block_size_ adaptive initial_size Hp Hb Hi) as Hcw.
  set (cp := cw_create p c block_size_ adaptive initial_size) in *. unfold hw_create. rewrite w_next_empty by done.
  cbn [constructed]. eexists. split; [done|]. pose proof Hcw as (_ & _ & _ & _ & _ & _ & Hl & _).
  split; [|apply empty_available; [done|apply Hl]].
  split; [|exact Hcw]. unfold hw_frame, w_offset. simpl. split_and!; try done; [apply new_hasher_hashed; [done|compute; lia]|destruct adaptive; lia|by apply Forall_nil_2].
Qed.

(** Data written directly after the compressor. *)
Lemma chain_plain base base' ch f : chain_at base [] ch [] ->
  (forall p, plain_inv p base -> exists p', f p = (Ok tt, p') /\ plain_inv p' base') ->
  exists ch', on_plain_hashing f ch = (Ok tt, ch') /\ chain_at base' [] ch' [].
Proof.
  intros [Hfr (Hd & Hbl & Hb & Ho & Hc & Hr)] Hf. unfold stream in Ho. simpl in Ho. rewrite app_nil_r in Ho.
  destruct (Hf _ Ho) as (p' & E & Hp'). unfold on_plain_hashing, on_compressor, on_out. unfold compressor in E. rewrite E.
  eexists. split; [done|]. split; [done|]. unfold cw_at, stream. simpl. rewrite app_nil_r. done.
Qed.

End Proofs.

(** * The state of a stream *)

(** What is written to the file of marks. *)
Definition mark_bytes (adaptive : bool) (mark : MarkInCompressedFile) (rows : Z) : bytes :=
  le_bytes 8 (uwrap 64 (offset_in_compressed_file mark)) ++ le_bytes 8 (uwrap 64 (offset_in_decompressed_block mark)) ++
  (if adaptive then le_bytes 8 (uwrap 64 rows) else []).

Lemma write_mark_spec {S} (I : WriteImpl S) inv `{!AppenderSpec I inv} adaptive mark rows b data :
  inv b data -> exists b', write_mark I adaptive mark rows b = (Ok tt, b') /\ inv b' (data ++ mark_bytes adaptive mark rows).
Proof.
  intros H. unfold write_mark, write_u64, mark_bytes.
  destruct (write_spec I inv _ b data H (le_bytes_range 8 (uwrap 64 (offset_in_compressed_file mark)))) as (b1 & -> & H1).
  cbn [andthen].
  destruct (write_spec I inv _ b1 _ H1 (le_bytes_range 8 (uwrap 64 (offset_in_decompressed_block mark)))) as (b2 & -> & H2).
  cbn [andthen]. destruct adaptive.
  - destruct (write_spec I inv _ b2 _ H2 (le_bytes_range 8 (uwrap 64 rows))) as (b3 & -> & H3). exists b3. split; [done|].
    by rewrite <- !app_assoc in H3.
  - exists b2. split; [done|]. by rewrite app_nil_r, <- app_assoc in *.
Qed.

Section StreamState.
Context (CityHash128 : bytes -> Z * Z) (CityHash128WithSeed : bytes -> Z * Z -> Z * Z) (fresh : nat -> bytes).
Context (fresh_length : forall n, length (fresh n) = n).
(** The codecs of the data and of the marks. *)
Context (c mc : ICompressionCodec) (limit mlimit : Z) `{!FitsReserve c limit} `{!FitsReserve mc mlimit}.
Context (Hlimit : limit < 2 ^ 30) (Hmlimit : mlimit < 2 ^ 30) (min_compress_block_size : Z) (compressed : bool).

Abbreviation I := (ToCompressedHashing CityHash128 CityHash128WithSeed).
Implicit Types s : Stream.

(** The file of marks will have [mdata]. *)
Definition marks_state (ch : Chain) (mdata : bytes) : Prop :=
  if compressed then marked CityHash128 CityHash128WithSeed mc mlimit 0 [] ch mdata
  else chain_at CityHash128 CityHash128WithSeed mc mlimit mdata [] ch [].

(** The stream accepted [data] with these marks. *)
Record stream_open (ms : list Located) (mdata : bytes) s (data : bytes) : Prop := {
  open_data : marked CityHash128 CityHash128WithSeed c limit min_compress_block_size ms (compressed_hashing s) data;
  open_marks : marks_state (marks_compressed_hashing s) mdata;
  open_compressed : compress_marks s = compressed;
  open_sorted : StronglySorted earlier ms;
  open_valid : Forall (fun l => valid_mark_value (lo_mark l)) ms;
  open_prefinalized : is_prefinalized s = false }.

Abbreviation stream_ready s := (ready min_compress_block_size (compressed_hashing s)).

Lemma new_stream_spec (st : StreamSettings) w wm :
  compression_codec st = c -> marks_compression_codec st = mc -> marks_compressed st = compressed -> fdw_inv w [] -> fdw_inv wm [] ->
  0 < max_compress_block_size st <= limit -> 0 < marks_compress_block_size st <= mlimit ->
  0 < adaptive_write_buffer_initial_size st <= Z.min limit mlimit ->
  exists s, new_stream CityHash128 CityHash128WithSeed fresh st w wm = Ok s /\ stream_open [] [] s [] /\ stream_ready s.
Proof.
  intros Ec Em Ecm Hw Hwm Hb Hmb Hi. unfold new_stream. rewrite Ec, Em.
  destruct (new_chain_spec CityHash128 CityHash128WithSeed fresh fresh_length c limit w (max_compress_block_size st)
    (use_adaptive_write_buffer st) (adaptive_write_buffer_initial_size st)) as (ch & -> & H & Ha); [done|done|lia|].
  destruct (new_chain_spec CityHash128 CityHash128WithSeed fresh fresh_length mc mlimit wm (marks_compress_block_size st)
    (use_adaptive_write_buffer st) (adaptive_write_buffer_initial_size st)) as (mch & -> & Hm & _); [done|done|lia|].
  eexists. split; [done|]. split; [|by intros ?]. split; simpl; [by exists []| |done|constructor|constructor|done].
  unfold marks_state. destruct compressed; [by exists []|done].
Qed.

Lemma stream_write ms mdata s data bs : stream_open ms mdata s data -> is_bytes bs ->
  exists s', on_data (write I bs) s = (Ok tt, s') /\ stream_open ms mdata s' (data ++ bs).
Proof.
  intros [Hd Hm Hc Hs Hv Ho] Hb. pose proof (marked_appends CityHash128 CityHash128WithSeed c limit Hlimit min_compress_block_size ms) as Happ.
  destruct (write_spec I _ bs _ _ Hd Hb) as (ch & E & H). unfold on_data. rewrite E. eexists. split; [done|]. by split.
Qed.

(** A full buffer is flushed. *)
Lemma stream_nextIfAtEnd ms mdata s data : stream_open ms mdata s data ->
  exists s', on_data (w_nextIfAtEnd I) s = (Ok tt, s') /\ stream_open ms mdata s' data /\ stream_ready s'.
Proof.
  intros [Hd Hm Hc Hs Hv Ho]. pose proof (marked_appends CityHash128 CityHash128WithSeed c limit Hlimit min_compress_block_size ms) as Happ.
  destruct (w_nextIfAtEnd_spec I _ _ _ Hd) as (ch & E & H & Ha). unfold on_data. rewrite E. eexists. split; [done|]. split; [|by intros ?]. by split.
Qed.

Lemma stream_mark ms mdata s data : stream_open ms mdata s data -> stream_ready s ->
  exists s' l, getCurrentMark CityHash128 CityHash128WithSeed min_compress_block_size s = ((Ok tt, s'), lo_mark l) /\
    stream_open (ms ++ [l]) mdata s' data /\ stream_ready s' /\ lo_position l = size_of data.
Proof.
  intros [Hd Hm Hc Hs Hv Ho] Hr. destruct (mark_spec CityHash128 CityHash128WithSeed c limit Hlimit min_compress_block_size ms s data Hd Hr)
    as (ch & l & E & Hch & Ha & Hvl & Hp & Hb). eexists _, l. split; [exact E|]. split_and!; [|by intros ?|done].
  split; [done|done|done| |by apply Forall_app_2; [|apply Forall_singleton]|done]. apply StronglySorted_app_2; [|done|repeat constructor].
  intros l1 l2 H1 ->%list_elem_of_singleton. rewrite Forall_forall in Hb. by apply Hb.
Qed.

Lemma stream_flush_mark ms mdata s data adaptive m rows : stream_open ms mdata s data ->
  exists s', flushMarkToFile CityHash128 CityHash128WithSeed adaptive m rows s = (Ok tt, s') /\
    stream_open ms (mdata ++ mark_bytes adaptive m rows) s' data /\ compressed_hashing s' = compressed_hashing s.
Proof.
  intros [Hd Hm Hc Hs Hv Ho]. unfold flushMarkToFile, on_marks. rewrite Hc.
  assert (Hok : exists ch, marks_state ch (mdata ++ mark_bytes adaptive m rows) /\
    (if compressed then write_mark I adaptive m rows (marks_compressed_hashing s)
     else on_plain_hashing (write_mark (ToPlainHashing CityHash128WithSeed) adaptive m rows) (marks_compressed_hashing s)) = (Ok tt, ch)).
  { unfold marks_state in *. destruct compressed.
    - pose proof (marked_appends CityHash128 CityHash128WithSeed mc mlimit Hmlimit 0 []) as Happ.
      destruct (write_mark_spec I _ adaptive m rows _ _ Hm) as (ch & E & Hch). by exists ch.
    - pose proof (plain_writer CityHash128WithSeed) as Hw.
      destruct (chain_plain CityHash128 CityHash128WithSeed mc mlimit mdata (mdata ++ mark_bytes adaptive m rows) _
        (write_mark (ToPlainHashing CityHash128WithSeed) adaptive m rows) Hm) as (ch & E & Hch); [|by exists ch].
      intros p Hp. apply (write_mark_spec _ (plain_inv CityHash128WithSeed) adaptive m rows p mdata Hp). }
  destruct Hok as (ch & Hch & E). exists (set_marks ch s). split; [by destruct compressed; rewrite E|]. by split; [split|].
Qed.

(** The files of a stream. *)
Definition data_file s : bytes := file (w_fd (w_impl (plain_file (compressed_hashing s)))).
Definition marks_file s : bytes := file (w_fd (w_impl (plain_file (marks_compressed_hashing s)))).

(** The stream is ready for the checksums and for [finalize]. *)
Definition stream_finished (ms : list Located) (mdata : bytes) s (data : bytes) : Prop :=
  exists blocks base mblocks mrest,
    finished CityHash128 CityHash128WithSeed c limit [] blocks (compressed_hashing s) data /\
    finished CityHash128 CityHash128WithSeed mc mlimit base mblocks (marks_compressed_hashing s) mrest /\
    (if compressed then base = [] /\ mrest = mdata else base = mdata /\ mblocks = []) /\ (is_prefinalized s = true /\ compress_marks s = compressed) /\
    Forall (settled CityHash128 c blocks) ms /\ StronglySorted earlier ms.

Lemma preFinalize_spec ms mdata s data : stream_open ms mdata s data ->
  exists s', preFinalize CityHash128 CityHash128WithSeed s = (Ok tt, s') /\ stream_finished ms mdata s' data.
Proof.
  intros [(blocks & Hd & Hms) Hm Hc Hs _ Ho]. unfold preFinalize, on_data, on_marks.
  destruct (finalize_chain_spec CityHash128 CityHash128WithSeed c limit Hlimit [] blocks _ _ Hd) as (ch1 & -> & H1). cbn [andthen].
  assert (Hm' : exists base mblocks mrest, (if compressed then base = [] /\ mrest = mdata else base = mdata /\ mblocks = []) /\
    exists mch, finalize_chain CityHash128 CityHash128WithSeed (marks_compressed_hashing s) = (Ok tt, mch) /\
      finished CityHash128 CityHash128WithSeed mc mlimit base mblocks mch mrest).
  { unfold marks_state in Hm. destruct compressed.
    - destruct Hm as (mblocks & Hm & _). exists []. eexists _, _. split; [done|]. by apply finalize_chain_spec.
    - exists mdata, [], []. split; [done|]. destruct (finalize_chain_spec CityHash128 CityHash128WithSeed mc mlimit Hmlimit _ _ _ _ Hm) as (mch & E & Hf).
      exists mch. split; [done|]. destruct (chain_open _ _ _ _ _ _ _ _ Hm) as (_ & _ & _ & _ & Hp & _).
      simpl in Hp. rewrite <- Hp in Hf. done. }
  destruct Hm' as (base & mblocks & mrest & Hbase & mch & Em & Hmf). cbn [set_data marks_compressed_hashing]. rewrite Em. cbn [andthen].
  cbn [set_marks set_data compressed_hashing marks_compressed_hashing].
  destruct (finished_prefinalize _ _ _ _ _ _ _ _ H1) as (ch2 & -> & H2). cbn [andthen].
  cbn [set_marks set_data compressed_hashing marks_compressed_hashing].
  destruct (finished_prefinalize _ _ _ _ _ _ _ _ Hmf) as (mch2 & -> & Hmf2). cbn [andthen].
  eexists. split; [done|]. exists (flush blocks (pending (compressed_hashing s))), base, mblocks, mrest.
  simpl. split_and!; try done. eapply Forall_impl; [exact Hms|]. intros l Hl. by eapply located_settled.
Qed.

(** The files in the end. *)
Lemma finalize_finished ms mdata s data : stream_finished ms mdata s data ->
  exists s' blocks, finalize_stream CityHash128 CityHash128WithSeed s = (Ok tt, s') /\ data = mjoin blocks /\
    Forall (is_block limit) blocks /\ data_file s' = stream CityHash128 c blocks /\
    Forall (settled CityHash128 c blocks) ms /\ StronglySorted earlier ms /\
    (if compressed then exists mblocks, mdata = mjoin mblocks /\ Forall (is_block mlimit) mblocks /\
       marks_file s' = stream CityHash128 mc mblocks
     else marks_file s' = mdata).
Proof.
  intros (blocks & base & mblocks & mrest & H & Hm & Hb & [Hpre _] & Hms & Hs). unfold finalize_stream. rewrite Hpre. cbn [andthen]. unfold on_data, on_marks.
  destruct (finished_close _ _ _ _ _ _ _ _ H) as (ch & -> & Hf). cbn [andthen set_data marks_compressed_hashing].
  destruct (finished_close _ _ _ _ _ _ _ _ Hm) as (mch & -> & Hmf). eexists _, blocks. split; [done|].
  destruct H as [Hd Hbl _ _ _ _ _ _ _]. destruct Hm as [Hmd Hmbl _ _ _ _ _ _ _]. split_and!; try done.
  unfold marks_file. simpl. rewrite Hmf. destruct compressed; destruct Hb as [-> ->]; [by exists mblocks|].
  unfold stream. simpl. by rewrite app_nil_r.
Qed.

End StreamState.
