(* ===== verification/PartReader.v ===== *)
(** Reading the stream of a column (src/Storages/MergeTree/MergeTreeMarksLoader.cpp,
    MergeTreeReaderStream.{h,cpp}): marks are loaded from their file, and the reader of
    the data moves to a mark, or finds how far it has to read. *)
From S2P Require Import Prelude IntText BinaryIO ReadBuffer ReadBufferFromFile WriteBuffer Codec.
From S2P Require Import CompressedWriteBuffer CompressedReadBuffer CompressedFile CompressedStream Marks.
From S2P Require Import PartStream.
Import Binary.

(** * [MarkType] *)

Record MarkType := {
  mt_adaptive : bool;
  mt_compressed : bool;
  mt_compact : bool }.

(** [getMarkSizeInBytes] *)
Definition getMarkSizeInBytes (t : MarkType) (columns_num : Z) : Z :=
  if mt_compact t then uwrap 64 (8 * (columns_num * 2 + 1))
  else if mt_adaptive t then 8 * 3 else 8 * 2.

(** * [MergeTreeMarksLoader] *)

(** [MarkInCompressedFile] in memory of 16 bytes, and an array of them. *)
Definition parse_mark (bs : bytes) : MarkInCompressedFile := {|
  offset_in_compressed_file := le_value (take 8 bs);
  offset_in_decompressed_block := le_value (take 8 (drop 8 bs)) |}.

Fixpoint parse_marks (n : nat) (bs : bytes) : list MarkInCompressedFile :=
  match n with
  | O => []
  | S n => parse_mark bs :: parse_marks n (drop 16 bs)
  end.

Section Load.
Context {S : Type} (I : ReadImpl S).

(** The loop over marks with numbers of rows. *)
Fixpoint load_adaptive (marks_count num_columns_in_mark : nat) (reader : ReadBuffer S)
  : result (list MarkInCompressedFile * ReadBuffer S) :=
  match marks_count with
  | O => Ok ([], reader)
  | Datatypes.S marks_count =>
      let! (e, reader) := eof I reader in
      if e : bool then Throw CANNOT_READ_ALL_DATA
      else
        let! (bs, reader) := ReadBuffer.readStrict I (Z.of_nat num_columns_in_mark * 16) reader in
        let! (granularity, reader) := ReadBuffer.readStrict I 8 reader in
        let! (marks, reader) := load_adaptive marks_count num_columns_in_mark reader in
        Ok (parse_marks num_columns_in_mark bs ++ marks, reader)
  end.

(** The array [plain_marks] *)
Definition load_plain_marks (adaptive : bool) (expected_uncompressed_size : Z) (marks_count num_columns_in_mark : nat)
    (reader : ReadBuffer S) : result (list MarkInCompressedFile) :=
  let! (marks, reader) :=
    if adaptive then load_adaptive marks_count num_columns_in_mark reader
    else
      let! (bs, reader) := ReadBuffer.readStrict I expected_uncompressed_size reader in
      Ok (parse_marks (marks_count * num_columns_in_mark) bs, reader) in
  let! (e, reader) := eof I reader in
  if e : bool then Ok marks else Throw CANNOT_READ_ALL_DATA.

End Load.

Section Loader.
Context (CityHash128 : bytes -> Z * Z) (factory : Z -> result ICompressionCodec) (fresh : nat -> bytes) (clobber : bytes -> bytes).

(** [loadMarksImpl]; [buffer] reads the file of this size. *)
Definition loadMarksImpl (t : MarkType) (marks_count num_columns_in_mark : nat) (file_size : Z) (buffer : FileBuffer)
  : result MarksInCompressedFile :=
  let mark_size := getMarkSizeInBytes t (Z.of_nat num_columns_in_mark) in
  let expected_uncompressed_size := uwrap 64 (mark_size * Z.of_nat marks_count) in
  if (file_size =? 0) && negb (marks_count =? 0)%nat then Throw CORRUPTED_DATA
  else if negb (mt_compressed t) && negb (expected_uncompressed_size =? file_size) then Throw CORRUPTED_DATA
  else
    let! plain_marks :=
      if mt_compressed t then
        load_plain_marks (FromCompressedFile CityHash128 factory fresh FileDescriptorOperations clobber)
          (mt_adaptive t) expected_uncompressed_size marks_count num_columns_in_mark (cr_create buffer false false)
      else
        load_plain_marks FromFileDescriptor (mt_adaptive t) expected_uncompressed_size marks_count num_columns_in_mark buffer in
    make_marks plain_marks.

End Loader.

(** [MergeTreeMarksGetter::getMark] *)
Definition getMark (marks : MarksInCompressedFile) (num_columns_in_mark row_index column_index : nat) : result MarkInCompressedFile :=
  get_mark marks (row_index * num_columns_in_mark + column_index).

(** ** Proofs *)

(** A mark without the number of rows. *)
Definition plain_mark (m : MarkInCompressedFile) : bytes := mark_bytes false m 0.
Arguments plain_mark : simpl never.

(** A row of the file of marks: one for each column, and the number of rows. *)
Definition row_bytes (adaptive : bool) (row : list MarkInCompressedFile * Z) : bytes :=
  mjoin (plain_mark <$> row.1) ++ (if adaptive then le_bytes 8 (uwrap 64 row.2) else []).

Lemma length_plain_mark m : length (plain_mark m) = 16%nat.
Proof. unfold plain_mark, mark_bytes. simpl_len. by rewrite !length_le_bytes. Qed.

Lemma plain_marks_cons m ms : mjoin (plain_mark <$> m :: ms) = plain_mark m ++ mjoin (plain_mark <$> ms).
Proof. done. Qed.

Lemma length_plain_marks ms : length (mjoin (plain_mark <$> ms)) = (16 * length ms)%nat.
Proof. induction ms as [|m ms IH]; [done|]. rewrite plain_marks_cons, length_app, IH, length_plain_mark. simpl. lia. Qed.

Lemma parse_mark_bytes m rest : valid_mark_value m -> parse_mark (plain_mark m ++ rest) = m.
Proof.
  intros [Hx Hy]. destruct m as [x y]. unfold parse_mark, plain_mark, mark_bytes.
  cbn [offset_in_compressed_file offset_in_decompressed_block] in *. rewrite app_nil_r, <- app_assoc.
  rewrite take_app_length', drop_app_length', take_app_length' by (by rewrite length_le_bytes).
  rewrite !le_value_bytes, !uwrap_small; try done; apply uwrap_range; lia.
Qed.

Lemma parse_marks_bytes ms rest : Forall valid_mark_value ms ->
  parse_marks (length ms) (mjoin (plain_mark <$> ms) ++ rest) = ms.
Proof.
  induction 1 as [|m ms Hm Hms IH]; [done|]. rewrite plain_marks_cons, <- app_assoc. cbn [parse_marks length]. rewrite parse_mark_bytes by done.
  rewrite drop_app_length' by (by rewrite length_plain_mark). by rewrite IH.
Qed.

Section LoadProofs.
Context {S : Type} (I : ReadImpl S) (inv : ReadBuffer S -> bytes -> Prop) `{!ReaderSpec I inv}.

Definition row_ok (n : nat) (row : list MarkInCompressedFile * Z) : Prop := length row.1 = n /\ Forall valid_mark_value row.1.

Lemma load_adaptive_spec n rows reader rest :
  Forall (row_ok n) rows -> inv reader (mjoin (row_bytes true <$> rows) ++ rest) ->
  exists reader', load_adaptive I (length rows) n reader = Ok (mjoin (fst <$> rows), reader') /\ inv reader' rest.
Proof.
  intros Hr. revert reader. induction Hr as [|[ms k] rows [Hn Hv] Hr IH]; intros reader H; [by exists reader|].
  cbn [load_adaptive length]. cbn [fst] in Hn, Hv.
  change (mjoin (row_bytes true <$> (ms, k) :: rows)) with (row_bytes true (ms, k) ++ mjoin (row_bytes true <$> rows)) in H.
  rewrite <- app_assoc in H.
  destruct (eof_spec I inv reader _ H) as (r1 & -> & H1 & _). cbn [rbind].
  rewrite bool_decide_eq_false_2 by (intros E%(f_equal length); unfold row_bytes in E; rewrite !length_app, length_le_bytes in E; cbn [length] in E; lia).
  unfold row_bytes at 1 in H1. cbn [fst snd] in H1. rewrite <- app_assoc in H1. set (mb := mjoin (plain_mark <$> ms)) in H1.
  assert (Hmb : length mb = (16 * n)%nat) by (unfold mb; by rewrite length_plain_marks, Hn).
  destruct (readStrict_spec I inv (Z.of_nat n * 16) r1 _ H1) as (r2 & -> & H2); [simpl_len; lia|]. cbn [rbind].
  rewrite take_app_length' by lia. rewrite drop_app_length' in H2 by lia.
  destruct (readStrict_spec I inv 8 r2 _ H2) as (r3 & -> & H3); [rewrite length_app, length_le_bytes; lia|]. cbn [rbind].
  rewrite drop_app_length' in H3 by (rewrite length_le_bytes; lia).
  destruct (IH r3 H3) as (r4 & -> & H4). cbn [rbind]. exists r4. split; [|done]. simpl. unfold mb.
  rewrite <- (app_nil_r (mjoin (_ <$> ms))), <- Hn, parse_marks_bytes by done. done.
Qed.

Lemma rows_without_numbers (rows : list (list MarkInCompressedFile * Z)) :
  mjoin (row_bytes false <$> rows) = mjoin (plain_mark <$> mjoin (fst <$> rows)).
Proof.
  induction rows as [|[ms k] rows IH]; [done|].
  change (mjoin (row_bytes false <$> (ms, k) :: rows)) with (row_bytes false (ms, k) ++ mjoin (row_bytes false <$> rows)).
  change (mjoin (fst <$> (ms, k) :: rows)) with (ms ++ mjoin (fst <$> rows)).
  rewrite IH, fmap_app, join_app. unfold row_bytes at 1. cbn [fst]. by rewrite app_nil_r.
Qed.

Lemma length_rows n (rows : list (list MarkInCompressedFile * Z)) :
  Forall (row_ok n) rows -> length (mjoin (fst <$> rows)) = (length rows * n)%nat /\ Forall valid_mark_value (mjoin (fst <$> rows)).
Proof.
  induction 1 as [|[ms k] rows [Hn Hv] Hr [IH1 IH2]]; [done|].
  change (mjoin (fst <$> (ms, k) :: rows)) with (ms ++ mjoin (fst <$> rows)). rewrite length_app, IH1, Forall_app.
  cbn [fst length] in *. split; [lia|done].
Qed.

Lemma load_plain_marks_spec adaptive expected n rows reader :
  Forall (row_ok n) rows -> inv reader (mjoin (row_bytes adaptive <$> rows)) ->
  (adaptive = false -> expected = Z.of_nat (length (mjoin (row_bytes adaptive <$> rows)))) ->
  load_plain_marks I adaptive expected (length rows) n reader = Ok (mjoin (fst <$> rows)).
Proof.
  intros Hr H He. unfold load_plain_marks. destruct adaptive.
  - destruct (load_adaptive_spec n rows reader [] Hr) as (r & -> & H1); [by rewrite app_nil_r|]. cbn [rbind].
    by destruct (eof_spec I inv r _ H1) as (r' & -> & _).
  - rewrite (He eq_refl). destruct (readStrict_spec I inv _ reader _ H ltac:(split; [|reflexivity]; lia)) as (r & -> & H1). cbn [rbind].
    rewrite Nat2Z.id, drop_all in H1. destruct (eof_spec I inv r _ H1) as (r' & -> & _). cbn [rbind]. rewrite bool_decide_eq_true_2 by done.
    rewrite Nat2Z.id, firstn_all, rows_without_numbers. destruct (length_rows n rows Hr) as [<- Hv].
    by rewrite <- (app_nil_r (mjoin (plain_mark <$> _))), parse_marks_bytes.
Qed.

End LoadProofs.

(** The mark of a row and a column. *)
Lemma rows_lookup n (rows : list (list MarkInCompressedFile * Z)) i j row m :
  Forall (row_ok n) rows -> rows !! i = Some row -> row.1 !! j = Some m -> mjoin (fst <$> rows) !! (i * n + j)%nat = Some m.
Proof.
  intros Hr. revert i. induction Hr as [|[ms k] rows [Hn Hv] Hr IH]; intros i Hi Hj; [done|].
  change (mjoin (fst <$> (ms, k) :: rows)) with (ms ++ mjoin (fst <$> rows)). cbn [fst] in Hn. destruct i as [|i]; simpl in Hi.
  - injection Hi as <-. by apply lookup_app_l_Some.
  - rewrite lookup_app_r by lia. rewrite Hn. replace (S i * n + j - n)%nat with (i * n + j)%nat by lia. by apply IH.
Qed.

(** The size of the file of marks. *)
Lemma length_rows_bytes t n rows : Forall (row_ok n) rows -> (if mt_compact t then mt_adaptive t = true else n = 1%nat) ->
  size_of (mjoin (row_bytes (mt_adaptive t) <$> rows)) = (if mt_compact t then 8 * (Z.of_nat n * 2 + 1) else getMarkSizeInBytes t 1) * Z.of_nat (length rows).
Proof.
  intros Hr Ht. induction Hr as [|[ms k] rows [Hn Hv] Hr IH]; [simpl; lia|]. cbn [fst] in Hn.
  change (mjoin (row_bytes ?a <$> (ms, k) :: rows)) with (row_bytes a (ms, k) ++ mjoin (row_bytes a <$> rows)).
  rewrite length_app, Nat2Z.inj_add, IH. unfold row_bytes at 1. cbn [fst snd]. rewrite length_app, length_plain_marks, Hn. clear IH.
  unfold getMarkSizeInBytes. destruct (mt_compact t); [rewrite Ht, length_le_bytes; cbn [length]; lia|]. subst n.
  destruct (mt_adaptive t); rewrite ?length_le_bytes; cbn [length]; lia.
Qed.

Lemma expected_size t n rows :
  Forall (row_ok n) rows -> (if mt_compact t then mt_adaptive t = true else n = 1%nat) -> (0 < n)%nat ->
  Z.of_nat (length rows * n) < 2 ^ 56 ->
  uwrap 64 (getMarkSizeInBytes t (Z.of_nat n) * Z.of_nat (length rows)) = size_of (mjoin (row_bytes (mt_adaptive t) <$> rows)).
Proof.
  intros Hr Ht Hn Hc. pose proof (length_rows_bytes t n rows Hr Ht) as ->. unfold getMarkSizeInBytes.
  destruct (mt_compact t); [unfold uwrap at 2; unfold uwrap at 1; rewrite Z.mul_mod_idemp_l by done; apply (uwrap_small 64)
    |apply uwrap_small; subst n]; unfold in_unsigned; [nia|]. destruct (mt_adaptive t); lia.
Qed.

Section LoaderProofs.
Context (CityHash128 : bytes -> Z * Z) (factory : Z -> result ICompressionCodec) (fresh : nat -> bytes).
Context (fresh_length : forall n, length (fresh n) = n).
Context (clobber : bytes -> bytes) (clobber_length : forall bs, length (clobber bs) = length bs).

(** A reader of a file of blocks. *)
Lemma open_stream c dec limit (Hc : Storable factory c dec limit) (Hl : limit < 2 ^ 30) blocks F :
  F = stream CityHash128 c blocks -> Forall (is_block limit) blocks ->
  ReaderSpec (FromCompressedFile CityHash128 factory fresh FileDescriptorOperations clobber)
    (ff_inv CityHash128 factory (stored_block c <$> blocks) (fd_inv F)) /\
  forall i different external, fd_inv F i F ->
    run_inv CityHash128 factory (stored_block c <$> blocks) (fd_inv F) false (cr_create i different external) (mjoin blocks).
Proof.
  intros EF Hb. rewrite <- (stored_stream CityHash128 c) in EF. pose proof (fd_file_spec F) as Hspec. rewrite EF in Hspec at 1.
  split; [by apply compressed_file_reader|]. intros i different external Hi. rewrite <- (stored_data c).
  apply (ff_create_inv CityHash128 factory (stored_block c <$> blocks) (fd_inv F) i different external); [by rewrite <- EF|].
  intros s Hs _ _. by apply (stored_codecs_ok factory c dec limit).
Qed.

Context (mc mdec : ICompressionCodec) (mlimit : Z) (Hmc : Storable factory mc mdec mlimit) (Hmlimit : mlimit < 2 ^ 30).

(** The file of marks [F] has the bytes [mdata]. *)
Definition marks_stored (compressed : bool) (F mdata : bytes) : Prop :=
  if compressed then exists mblocks, mdata = mjoin mblocks /\ Forall (is_block mlimit) mblocks /\ F = stream CityHash128 mc mblocks
  else F = mdata.

Lemma loadMarksImpl_spec t n rows F buf_size alignment pread size cs :
  marks_stored (mt_compressed t) F (mjoin (row_bytes (mt_adaptive t) <$> rows)) ->
  Forall (row_ok n) rows -> (if mt_compact t then mt_adaptive t = true else n = 1%nat) ->
  (0 < n)%nat -> Z.of_nat (length rows * n) < 2 ^ 56 -> size_of F < 2 ^ 63 ->
  0 < buf_size < 2 ^ 63 -> 0 <= alignment -> valid_calls cs -> Failed ∉ cs ->
  match size with Some n => n = size_of F | None => True end ->
  exists marks, loadMarksImpl CityHash128 factory fresh clobber t (length rows) n (size_of F) (open_file F buf_size alignment pread size cs) = Ok marks /\
    forall i j row m, rows !! i = Some row -> row.1 !! j = Some m -> getMark marks n i j = Ok m.
Proof.
  intros HF Hr Ht Hn Hcount Hsize Hbuf Hal Hv Hf Hs. pose proof (length_rows_bytes t n rows Hr Ht) as Hlen.
  set (data := mjoin (row_bytes _ <$> rows)) in *. destruct (length_rows n rows Hr) as [Hl Hmv].
  assert (Hfd : fd_inv F (open_file F buf_size alignment pread size cs) F) by (by apply open_file_inv).
  assert (Hexp : uwrap 64 (getMarkSizeInBytes t (Z.of_nat n) * Z.of_nat (length rows)) = size_of data) by (by apply expected_size).
  assert (Hmarks : exists marks, make_marks (mjoin (fst <$> rows)) = Ok marks /\
    forall i j row m, rows !! i = Some row -> row.1 !! j = Some m -> getMark marks n i j = Ok m).
  { destruct (make_marks_spec _ Hmv) as (marks & E & Hg); [by rewrite Hl|]. exists marks. split; [done|].
    intros i j row m Hi Hj. apply Hg. by apply (rows_lookup n rows i j row m). }
  unfold loadMarksImpl. rewrite Hexp.
  assert (Hempty : (size_of F =? 0) && negb (length rows =? 0)%nat = false).
  { destruct rows as [|row rows]; [by rewrite andb_false_r|]. rewrite andb_true_r. apply Z.eqb_neq. unfold marks_stored in HF.
    assert (size_of data <> 0) by (rewrite Hlen; unfold getMarkSizeInBytes; destruct (mt_compact t), (mt_adaptive t); simpl; lia).
    destruct (mt_compressed t); [|by subst F]. destruct HF as ([|blk mblocks] & E & _ & ->); [by rewrite E in *|].
    change (stream CityHash128 mc (blk :: mblocks)) with (with_checksum CityHash128 (frame mc blk) ++ stream CityHash128 mc mblocks).
    rewrite length_app, length_with_checksum. lia. }
  rewrite Hempty. unfold marks_stored in HF. destruct (mt_compressed t).
  - destruct HF as (mblocks & E & Hbl & HFeq). cbn [negb andb].
    destruct (open_stream mc mdec mlimit Hmc Hmlimit mblocks F HFeq Hbl) as [Hspec Hrd].
    destruct (Hrd _ false false Hfd) as [Hi _]. rewrite <- E in Hi.
    rewrite (load_plain_marks_spec (FromCompressedFile CityHash128 factory fresh FileDescriptorOperations clobber)
      (ff_inv CityHash128 factory (stored_block mc <$> mblocks) (fd_inv F)) _ _ n rows) by done. done.
  - subst F. rewrite Z.eqb_refl. cbn [negb andb]. by rewrite (load_plain_marks_spec FromFileDescriptor (fd_inv data) _ _ n rows).
Qed.

End LoaderProofs.

(** * [MergeTreeReaderStream] *)

Section ReaderStream.
Context (marks : MarksInCompressedFile) (num_columns_in_mark : nat).

Abbreviation Reader := (ReadBuffer (CompressedReadBufferBase (S := ReadBufferFromFileDescriptor))).

(** [seekToMarkAndColumn], once the marks are loaded *)
Definition seekToMarkAndColumn (row_index column_position : nat) (b : Reader) : result Reader :=
  let! mark := getMark marks num_columns_in_mark row_index column_position in
  ff_seek FileDescriptorOperations (offset_in_compressed_file mark) (offset_in_decompressed_block mark) b.

Definition seekToStart (b : Reader) : result Reader := ff_seek FileDescriptorOperations 0 0 b.

End ReaderStream.

(** ** Proofs *)

Section SeekProofs.
Context (CityHash128 : bytes -> Z * Z) (factory : Z -> result ICompressionCodec) (fresh : nat -> bytes).
Context (fresh_length : forall n, length (fresh n) = n).
Context (clobber : bytes -> bytes) (clobber_length : forall bs, length (clobber bs) = length bs).
Context (c dec : ICompressionCodec) (limit : Z) (Hc : Storable factory c dec limit) (Hlimit : limit < 2 ^ 30).
(** The file of the data. *)
Context (blocks : list bytes) (F : bytes) (HF : F = stream CityHash128 c blocks) (Hblocks : Forall (is_block limit) blocks).
Context (Hsize : size_of F < 2 ^ 63).

Abbreviation all := (stored_block c <$> blocks).
Abbreviation reader_inv := (run_inv CityHash128 factory all (fd_inv F) false).

(** The position of a block is not too large for a mark. *)
Lemma block_position k : uwrap 64 (size_of (stream CityHash128 c (take k blocks))) = size_of (stream CityHash128 c (take k blocks)).
Proof.
  apply uwrap_small. rewrite HF, <- (take_drop k blocks), stream_app, length_app in Hsize. unfold in_unsigned. lia.
Qed.

(** The reader moves to a mark within the data. *)
Lemma seek_located b data l : reader_inv b data -> in_block CityHash128 c blocks l ->
  exists b', ff_seek FileDescriptorOperations (offset_in_compressed_file (lo_mark l)) (offset_in_decompressed_block (lo_mark l)) b = Ok b' /\
    reader_inv b' (drop (Z.to_nat (lo_position l)) (mjoin blocks)).
Proof.
  intros [Hb Hcur] (blk & Hk & -> & -> & Hy). set (k := lo_block l) in *. set (y := offset_in_decompressed_block (lo_mark l)) in *.
  rewrite block_position. pose proof (fd_file_spec F) as Hspec. rewrite HF, <- (stored_stream CityHash128 c) in Hspec at 1.
  destruct (ff_seek_spec CityHash128 factory all FileDescriptorOperations (fd_inv F)
    ltac:(by rewrite stored_stream, <- HF) b data (stored_block c <$> take k blocks) (stored_block c <$> drop k blocks) y)
    as (b' & E & Hb'); [done|by rewrite <- fmap_app, take_drop| | |].
  - destruct (Z.eq_dec y 0) as [->|]; [by left|right]. rewrite (drop_S _ _ _ Hk). simpl. eexists _, _. split; [done|]. simpl. lia.
  - intros (Hz & Hne & _). by apply Hne, (Hcur eq_refl).
  - rewrite stored_stream in E. exists b'. split; [done|]. split.
    + rewrite stored_data in Hb'. replace (drop _ (mjoin blocks)) with (drop (Z.to_nat y) (mjoin (drop k blocks))); [done|].
      rewrite <- (take_drop k blocks) at 3. rewrite join_app, drop_app_ge by lia. f_equal. lia.
    + intros _. eapply ff_seek_current; [by apply Hcur|exact E].
Qed.

End SeekProofs.

(** * How far to read *)

Record ReaderStreamSettings := {
  is_low_cardinality_dictionary : bool;
  is_dynamic_or_object_structure : bool }.

(** The order of [asTuple()] *)
Definition tuple_less (a b : MarkInCompressedFile) : bool :=
  (offset_in_compressed_file a <? offset_in_compressed_file b) ||
  (offset_in_compressed_file a =? offset_in_compressed_file b) &&
  (offset_in_decompressed_block a <? offset_in_decompressed_block b).

Section RightOffset.
Context (mark : nat -> result MarkInCompressedFile) (settings : ReaderStreamSettings) (marks_count : nat) (file_size : Z).

(** The end of [getRightOffset], for the mark that was found; [mark] is
    [marks_getter->getMark(_, 0)]. *)
Definition right_offset_of (right_mark : nat) : result Z :=
  if is_dynamic_or_object_structure settings then Ok file_size
  else
    let! m := mark right_mark in
    let! m' := mark (right_mark - 1)%nat in
    if (offset_in_decompressed_block m =? 0) && negb (bool_decide (m = m')) then Ok (offset_in_compressed_file m)
    else
      let! it := partition_point (S marks_count)
        (fun i => let! a := mark right_mark in let! b := mark i in
                  Ok (offset_in_compressed_file a <? offset_in_compressed_file b)) right_mark (marks_count - right_mark) in
      if (it =? marks_count)%nat then Ok file_size else let! m := mark it in Ok (offset_in_compressed_file m).

(** [MergeTreeReaderStreamSingleColumn::getRightOffset] *)
Definition getRightOffset (right_mark : nat) : result Z :=
  if (marks_count =? 0)%nat then Ok 0
  else if (marks_count <? right_mark)%nat then Throw ASSERTION_FAILED
  else if (right_mark =? 0)%nat then let! m := mark right_mark in Ok (offset_in_compressed_file m)
  else if (right_mark =? marks_count)%nat then Ok file_size
  else if is_low_cardinality_dictionary settings then
    let! it := partition_point (S marks_count)
      (fun i => let! a := mark right_mark in let! b := mark i in Ok (tuple_less a b)) right_mark (marks_count - right_mark) in
    if (it =? marks_count)%nat then Ok file_size else right_offset_of it
  else right_offset_of right_mark.

End RightOffset.

(** ** The offset is that of a block, and enough *)

Section RightOffsetProofs.
Context (CityHash128 : bytes -> Z * Z) (c : ICompressionCodec) (blocks : list bytes) (ls : list Located).
Abbreviation F := (stream CityHash128 c blocks).
Context (Hsize : size_of F < 2 ^ 63) (Hsettled : Forall (settled CityHash128 c blocks) ls) (Hsorted : StronglySorted earlier ls).
Context (mark : nat -> result MarkInCompressedFile) (Hmark : forall i l, ls !! i = Some l -> mark i = Ok (lo_mark l)).
Context (settings : ReaderStreamSettings).

(** The part of the file with the first blocks. *)
Definition part (k : nat) : Z := size_of (stream CityHash128 c (take k blocks)).

Lemma part_less k k' : (k < k')%nat -> (k' <= length blocks)%nat -> part k < part k'.
Proof.
  intros Hk Hl. unfold part. rewrite <- (take_drop k (take k' blocks)), take_take, Nat.min_l by lia. rewrite stream_app, length_app.
  destruct (drop k (take k' blocks)) as [|blk rest] eqn:E; [apply (f_equal length) in E; simpl_len; lia|].
  change (stream CityHash128 c (blk :: rest)) with (with_checksum CityHash128 (frame c blk) ++ stream CityHash128 c rest).
  rewrite length_app, length_with_checksum. lia.
Qed.

Lemma part_all : part (length blocks) = size_of F.
Proof. unfold part. by rewrite firstn_all. Qed.

Lemma settled_at i l : ls !! i = Some l ->
  (lo_block l <= length blocks)%nat /\ offset_in_compressed_file (lo_mark l) = part (lo_block l) /\
  lo_position l = size_of (mjoin (take (lo_block l) blocks)) + offset_in_decompressed_block (lo_mark l) /\
  0 <= offset_in_decompressed_block (lo_mark l) /\ lo_position l <= size_of (mjoin (take (S (lo_block l)) blocks)).
Proof.
  intros Hl. destruct (Forall_lookup_1 _ _ _ _ Hsettled Hl) as (Hk & -> & Hp & Hy & Hle & Hin & Hend). split_and!; try done.
  - apply (block_position CityHash128 c blocks F eq_refl Hsize).
  - destruct (decide (lo_position l < size_of (mjoin blocks))) as [Hlt|Hge]; [apply Hin, in_block_bounds in Hlt; lia|].
    rewrite take_ge by (apply Hend; lia). lia.
Qed.

Lemma ls_earlier i j l l' : (i <= j)%nat -> ls !! i = Some l -> ls !! j = Some l' -> earlier l l'.
Proof.
  intros Hij Hl Hl'. destruct (decide (i = j)) as [->|Hne]; [assert (l = l') as -> by congruence; by split|].
  apply (StronglySorted_app_1_elem_of earlier (take j ls) (drop j ls)).
  - by rewrite take_drop.
  - apply list_elem_of_lookup_2 with i. by rewrite lookup_take_lt by lia.
  - apply list_elem_of_lookup_2 with 0%nat. by rewrite lookup_drop, Nat.add_0_r.
Qed.

(** The marks are in order, in the file and as tuples. *)
Lemma marks_ordered i j l l' : (i <= j)%nat -> ls !! i = Some l -> ls !! j = Some l' ->
  offset_in_compressed_file (lo_mark l) <= offset_in_compressed_file (lo_mark l') /\
  (tuple_less (lo_mark l) (lo_mark l') = false -> lo_mark l = lo_mark l') /\
  (offset_in_compressed_file (lo_mark l) < offset_in_compressed_file (lo_mark l') -> (lo_block l < lo_block l')%nat).
Proof.
  intros Hij Hl Hl'. destruct (ls_earlier i j l l' Hij Hl Hl') as [Hk Hp].
  destruct (settled_at i l Hl) as (Hkl & Hx & Hpl & Hy & _). destruct (settled_at j l' Hl') as (Hkl' & Hx' & Hpl' & Hy' & _).
  assert (Hle : offset_in_compressed_file (lo_mark l) <= offset_in_compressed_file (lo_mark l')).
  { rewrite Hx, Hx'. destruct (decide (lo_block l = lo_block l')) as [->|]; [lia|]. pose proof (part_less (lo_block l) (lo_block l')). lia. }
  split_and!; [done| |].
  - unfold tuple_less. intros [H1%Z.ltb_ge H2]%orb_false_iff. assert (E : lo_block l = lo_block l').
    { destruct (decide (lo_block l = lo_block l')) as [|]; [done|]. pose proof (part_less (lo_block l) (lo_block l')). lia. }
    rewrite (proj2 (Z.eqb_eq _ _)) in H2 by lia. apply Z.ltb_ge in H2. rewrite E in Hpl.
    destruct (lo_mark l), (lo_mark l'); simpl in *. f_equal; lia.
  - intros Hlt. destruct (decide (lo_block l < lo_block l')%nat); [done|]. assert (E : lo_block l = lo_block l') by lia.
    rewrite Hx, Hx', E in Hlt. lia.
Qed.

(** The search for the first mark after the right one that is [less]. *)
Lemma search_mark (less : MarkInCompressedFile -> MarkInCompressedFile -> bool) right l :
  ls !! right = Some l ->
  (forall i j li lj, (right <= i <= j)%nat -> ls !! i = Some li -> ls !! j = Some lj ->
     less (lo_mark l) (lo_mark li) = true -> less (lo_mark l) (lo_mark lj) = true) ->
  exists it, partition_point (S (length ls)) (fun i => let! a := mark right in let! b := mark i in Ok (less a b)) right (length ls - right) = Ok it /\
    (right <= it <= length ls)%nat /\ forall l', ls !! it = Some l' -> less (lo_mark l) (lo_mark l') = true.
Proof.
  intros Hl Hm. pose proof (lookup_lt_Some _ _ _ Hl) as Hlt.
  set (p i := match ls !! i with Some li => less (lo_mark l) (lo_mark li) | None => true end).
  destruct (partition_point_spec (S (length ls)) (fun i => let! a := mark right in let! b := mark i in Ok (less a b)) p right (length ls - right))
    as (it & E & Hit & _ & Hafter).
  - lia.
  - intros i Hi. destruct (lookup_lt_is_Some_2 ls i ltac:(lia)) as [li Hli]. unfold p.
    by rewrite (Hmark right l Hl), (Hmark i li Hli), Hli.
  - intros i j Hij Hj. unfold p. destruct (lookup_lt_is_Some_2 ls i ltac:(lia)) as [li Hli].
    destruct (lookup_lt_is_Some_2 ls j ltac:(lia)) as [lj Hlj]. rewrite Hli, Hlj. by apply (Hm i j li lj).
  - exists it. split_and!; [done|lia|lia|]. intros l' Hl'. pose proof (lookup_lt_Some _ _ _ Hl').
    specialize (Hafter it ltac:(lia)). unfold p in Hafter. by rewrite Hl' in Hafter.
Qed.

(** The end of the data to read: that before the right mark. *)
Definition right_position (right : nat) : Z :=
  match ls !! right with Some l => lo_position l | None => size_of (mjoin blocks) end.

(** From a mark on: the next block, or all. *)
Lemma next_block_enough right l :
  ls !! right = Some l ->
  exists it, partition_point (S (length ls)) (fun i => let! a := mark right in let! b := mark i in
      Ok (offset_in_compressed_file a <? offset_in_compressed_file b)) right (length ls - right) = Ok it /\
    exists k, (if (it =? length ls)%nat then Ok (size_of F) else let! m := mark it in Ok (offset_in_compressed_file m)) = Ok (part k) /\
      lo_position l <= size_of (mjoin (take k blocks)).
Proof.
  intros Hl. destruct (search_mark (fun a b => offset_in_compressed_file a <? offset_in_compressed_file b) right l Hl) as (it & E & Hit & Hafter).
  { intros i j li lj Hij Hi Hj Hless%Z.ltb_lt. apply Z.ltb_lt. destruct (marks_ordered i j li lj) as [? _]; [lia|done|done|lia]. }
  exists it. split; [done|]. destruct (settled_at right l Hl) as (Hk & Hx & Hp & Hy & Hle).
  destruct (Nat.eqb_spec it (length ls)) as [->|Hne].
  - exists (length blocks). rewrite part_all, firstn_all. split; [done|].
    pose proof (size_take_drop blocks (S (lo_block l))). lia.
  - destruct (lookup_lt_is_Some_2 ls it ltac:(lia)) as [l' Hl']. rewrite (Hmark it l' Hl'). cbn [rbind].
    destruct (settled_at it l' Hl') as (Hk' & Hx' & _). rewrite Hx'. exists (lo_block l'). split; [done|].
    specialize (Hafter l' Hl'). apply Z.ltb_lt in Hafter.
    destruct (marks_ordered right it l l') as (_ & _ & Hb); [lia|done|done|]. specialize (Hb Hafter).
    pose proof (size_take_drop (take (lo_block l') blocks) (S (lo_block l))) as Es. rewrite take_take, Nat.min_l in Es by lia. lia.
Qed.

(** All of the file is enough for every position. *)
Lemma all_enough p : p <= size_of (mjoin blocks) -> exists k, Ok (size_of F) = Ok (part k) /\ p <= size_of (mjoin (take k blocks)).
Proof. intros Hp. exists (length blocks). by rewrite part_all, firstn_all. Qed.

Lemma position_in_data i l : ls !! i = Some l -> lo_position l <= size_of (mjoin blocks).
Proof.
  intros Hl. destruct (settled_at i l Hl) as (_ & _ & _ & _ & Hb). pose proof (size_take_drop blocks (S (lo_block l))). lia.
Qed.

Lemma right_offset_of_spec r l : ls !! r = Some l -> (0 < r)%nat ->
  exists k, right_offset_of mark settings (length ls) (size_of F) r = Ok (part k) /\ lo_position l <= size_of (mjoin (take k blocks)).
Proof.
  intros Hl Hr. pose proof (position_in_data r l Hl). unfold right_offset_of.
  destruct (is_dynamic_or_object_structure settings); [by apply all_enough|].
  destruct (next_block_enough r l Hl) as (it & -> & k & E & Hk). rewrite (Hmark r l Hl). cbn [rbind].
  destruct (lookup_lt_is_Some_2 ls (r - 1)%nat) as [l1 Hl1]; [apply lookup_lt_Some in Hl; lia|]. rewrite (Hmark _ l1 Hl1). cbn [rbind].
  destruct (Z.eqb_spec (offset_in_decompressed_block (lo_mark l)) 0) as [E0|E0]; [destruct (bool_decide _)|]; cbn [negb andb].
  2: { destruct (settled_at r l Hl) as (_ & -> & Hpos & _). exists (lo_block l). split; [done|]. lia. }
  all: exists k; split; [exact E|lia].
Qed.

Lemma tuple_less_trans a b c' : tuple_less a b = true -> tuple_less b c' = true -> tuple_less a c' = true.
Proof.
  unfold tuple_less. rewrite !orb_true_iff, !andb_true_iff, !Z.ltb_lt, !Z.eqb_eq. lia.
Qed.

Lemma getRightOffset_spec right : (0 < right <= length ls)%nat ->
  exists k, getRightOffset mark settings (length ls) (size_of F) right = Ok (part k) /\
    right_position right <= size_of (mjoin (take k blocks)).
Proof.
  intros Hr. unfold getRightOffset. destruct (Nat.eqb_spec (length ls) 0); [lia|]. destruct (Nat.ltb_spec (length ls) right); [lia|].
  destruct (Nat.eqb_spec right 0); [lia|].
  destruct (Nat.eqb_spec right (length ls)) as [->|Hne]; [apply all_enough; unfold right_position; by rewrite lookup_ge_None_2|].
  destruct (lookup_lt_is_Some_2 ls right ltac:(lia)) as [l Hl]. unfold right_position. rewrite Hl.
  destruct (is_low_cardinality_dictionary settings); [|by apply right_offset_of_spec; [|lia]].
  destruct (search_mark tuple_less right l Hl) as (it & -> & Hit & _).
  { intros i j li lj Hij Hi Hj Hless. destruct (marks_ordered i j li lj) as (_ & Hlt & _); [lia|done|done|].
    destruct (tuple_less (lo_mark li) (lo_mark lj)) eqn:Ej; [by eapply tuple_less_trans|by rewrite <- (Hlt eq_refl)]. }
  cbn [rbind]. destruct (Nat.eqb_spec it (length ls)) as [->|Hnit]; [by apply all_enough, (position_in_data right)|].
  destruct (lookup_lt_is_Some_2 ls it ltac:(lia)) as [lr Hlr].
  destruct (right_offset_of_spec it lr Hlr ltac:(lia)) as (k & E & Hk). exists k. split; [done|].
  destruct (ls_earlier right it l lr) as [_ ?]; [lia|done|done|lia].
Qed.

End RightOffsetProofs.
