(* ===== verification/IndexGranularity.v ===== *)
(** The numbers of rows between the marks of a data part
    (src/Storages/MergeTree/MergeTreeIndexGranularity.{h,cpp}, and its two
    implementations MergeTreeIndexGranularityConstant and
    MergeTreeIndexGranularityAdaptive). *)
From S2P Require Import Prelude IntText.

(** * The interface *)

(** The virtual methods of [MergeTreeIndexGranularity]; a [MarkRange] is its [begin]
    and its [end]. *)
Class MergeTreeIndexGranularity (G : Type) := {
  getConstantGranularity : G -> option Z;
  getRowsCountInRange : G -> Z -> Z -> result Z;
  countMarksForRows : G -> Z -> Z -> result Z;
  countRowsForRows : G -> Z -> Z -> Z -> result Z;
  getMarksCount : G -> Z;
  getTotalRows : G -> Z;
  getMarkRows : G -> Z -> result Z;
  getMarkRangeForRowOffset : G -> Z -> result (Z * Z);
  hasFinalMark : G -> result bool;
  appendMark : Z -> G -> result G;
  adjustLastMark : Z -> G -> result G }.

Section Base.
Context {G : Type} `{!MergeTreeIndexGranularity G}.
Implicit Types g : G.

Definition getMarksCountWithoutFinal g : result Z :=
  let total := getMarksCount g in
  if total =? 0 then Ok total else let! f := hasFinalMark g in Ok (uwrap 64 (total - Z.b2z f)).

Definition getMarkStartingRow g (mark_index : Z) : result Z := getRowsCountInRange g 0 mark_index.

Definition getLastMarkRows g : result Z := getMarkRows g (uwrap 64 (getMarksCount g - 1)).

Definition getLastNonFinalMarkRows g : result Z :=
  let! last_mark_rows := getMarkRows g (uwrap 64 (getMarksCount g - 1)) in
  if negb (last_mark_rows =? 0) then Ok last_mark_rows else getMarkRows g (uwrap 64 (getMarksCount g - 2)).

Definition empty g : bool := getMarksCount g =? 0.

Definition addRowsToLastMark (rows_count : Z) g : result G :=
  let! f := hasFinalMark g in
  if f : bool then Throw LOGICAL_ERROR
  else if empty g then appendMark rows_count g
  else let! last := getLastMarkRows g in adjustLastMark (uwrap 64 (last + rows_count)) g.

(** [getRowsCountInRanges] *)
Fixpoint getRowsCountInRanges g (ranges : list (Z * Z)) (total : Z) : result Z :=
  match ranges with
  | [] => Ok total
  | (begin, end_) :: ranges =>
      let! n := getRowsCountInRange g begin end_ in getRowsCountInRanges g ranges (uwrap 64 (total + n))
  end.

End Base.

(** [computeIndexGranularity]; with adaptive granularity, the block has rows, and
    [index_granularity_bytes] is not 0: the code divides by them. *)
Definition computeIndexGranularity (rows bytes_uncompressed index_granularity_bytes fixed_index_granularity_rows : Z)
    (blocks_are_granules can_use_adaptive_index_granularity : bool) : Z :=
  let index_granularity_for_block :=
    if negb can_use_adaptive_index_granularity then fixed_index_granularity_rows
    else if blocks_are_granules then rows
    else if index_granularity_bytes <=? bytes_uncompressed then
      let granules_in_block := bytes_uncompressed / index_granularity_bytes in rows / granules_in_block
    else
      let size_of_row_in_bytes := Z.max (bytes_uncompressed / rows) 1 in index_granularity_bytes / size_of_row_in_bytes in
  let index_granularity_for_block :=
    if negb blocks_are_granules then Z.min fixed_index_granularity_rows index_granularity_for_block
    else index_granularity_for_block in
  if index_granularity_for_block =? 0 then 1 else index_granularity_for_block.

(** * [MergeTreeIndexGranularityConstant] *)

Record MergeTreeIndexGranularityConstant := {
  constant_granularity : Z;
  last_mark_granularity : Z;
  num_marks_without_final : Z;
  has_final_mark : bool }.

Module Constant.

Implicit Types g : MergeTreeIndexGranularityConstant.

Definition constant_create (constant_granularity_ : Z) : MergeTreeIndexGranularityConstant :=
  {| constant_granularity := constant_granularity_; last_mark_granularity := constant_granularity_;
     num_marks_without_final := 0; has_final_mark := false |}.

Definition constant_set_marks (n : Z) g : MergeTreeIndexGranularityConstant :=
  {| constant_granularity := constant_granularity g; last_mark_granularity := last_mark_granularity g;
     num_marks_without_final := n; has_final_mark := has_final_mark g |}.

Definition constant_count g : Z := uwrap 64 (num_marks_without_final g + Z.b2z (has_final_mark g)).

Definition constant_mark_rows g (mark_index : Z) : result Z :=
  if constant_count g <=? mark_index then Throw LOGICAL_ERROR
  else if uwrap 64 (mark_index + 1) <? num_marks_without_final g then Ok (constant_granularity g)
  else if uwrap 64 (mark_index + 1) =? num_marks_without_final g then Ok (last_mark_granularity g)
  else Ok 0.

Definition constant_mark_range_for_row_offset g (row_offset : Z) : result (Z * Z) :=
  let mark_index :=
    if row_offset <? uwrap 64 (constant_granularity g * uwrap 64 (num_marks_without_final g - 1))
    then row_offset / constant_granularity g else uwrap 64 (num_marks_without_final g - 1) in
  Ok (mark_index, uwrap 64 (mark_index + 1)).

Definition constant_total_rows g : Z :=
  if num_marks_without_final g =? 0 then 0
  else uwrap 64 (constant_granularity g * uwrap 64 (num_marks_without_final g - 1) + last_mark_granularity g).

Definition constant_append_mark (rows_count : Z) g : result MergeTreeIndexGranularityConstant :=
  if has_final_mark g then Throw LOGICAL_ERROR
  else if rows_count =? 0 then
    Ok {| constant_granularity := constant_granularity g; last_mark_granularity := last_mark_granularity g;
          num_marks_without_final := num_marks_without_final g; has_final_mark := true |}
  else if negb (rows_count =? constant_granularity g) then Throw LOGICAL_ERROR
  else Ok (constant_set_marks (uwrap 64 (num_marks_without_final g + 1)) g).

Definition constant_adjust_last_mark (rows_count : Z) g : result MergeTreeIndexGranularityConstant :=
  if has_final_mark g then Throw LOGICAL_ERROR
  else
    let g := if num_marks_without_final g =? 0 then constant_set_marks (uwrap 64 (num_marks_without_final g + 1)) g else g in
    Ok {| constant_granularity := constant_granularity g; last_mark_granularity := rows_count;
          num_marks_without_final := num_marks_without_final g; has_final_mark := has_final_mark g |}.

Definition constant_rows_count_in_range g (begin end_ : Z) : result Z :=
  if constant_count g <? end_ then Throw LOGICAL_ERROR
  else if end_ =? 0 then Ok 0
  else
    let '(total_rows, end_) :=
      if num_marks_without_final g <=? end_
      then (last_mark_granularity g, uwrap 64 (num_marks_without_final g - 1)) else (0, end_) in
    Ok (uwrap 64 (total_rows + uwrap 64 (constant_granularity g * uwrap 64 (end_ - begin)))).

Definition getMarkUpperBoundForRow g (row_index : Z) : Z :=
  let num_rows_with_constant_granularity := uwrap 64 (uwrap 64 (num_marks_without_final g - 1) * constant_granularity g) in
  if constant_total_rows g <=? row_index then constant_count g
  else if num_rows_with_constant_granularity <=? row_index then uwrap 64 (num_marks_without_final g - 1)
  else row_index / constant_granularity g.

Definition constant_count_marks_for_rows g (from_mark number_of_rows : Z) : result Z :=
  let! rows_before_mark := constant_rows_count_in_range g 0 from_mark in
  Ok (uwrap 64 (getMarkUpperBoundForRow g (uwrap 64 (rows_before_mark + number_of_rows)) - from_mark)).

Definition constant_count_rows_for_rows g (from_mark number_of_rows offset_in_rows : Z) : result Z :=
  let! rows_before_mark := constant_rows_count_in_range g 0 from_mark in
  let last_row_pos := uwrap 64 (rows_before_mark + offset_in_rows + number_of_rows) in
  let! n := constant_rows_count_in_range g from_mark (Z.max 1 (getMarkUpperBoundForRow g last_row_pos)) in
  Ok (uwrap 64 (n - offset_in_rows)).

#[global] Instance methods : MergeTreeIndexGranularity MergeTreeIndexGranularityConstant := {|
  getConstantGranularity g := Some (constant_granularity g);
  getRowsCountInRange := constant_rows_count_in_range;
  countMarksForRows := constant_count_marks_for_rows;
  countRowsForRows := constant_count_rows_for_rows;
  getMarksCount := constant_count;
  getTotalRows := constant_total_rows;
  getMarkRows := constant_mark_rows;
  getMarkRangeForRowOffset := constant_mark_range_for_row_offset;
  hasFinalMark g := Ok (has_final_mark g);
  appendMark := constant_append_mark;
  adjustLastMark := constant_adjust_last_mark |}.

End Constant.

(** * [MergeTreeIndexGranularityAdaptive] *)

Record MergeTreeIndexGranularityAdaptive := { marks_rows_partial_sums : list Z }.

Module Adaptive.

Implicit Types g : MergeTreeIndexGranularityAdaptive.

Definition adaptive_count g : Z := Z.of_nat (length (marks_rows_partial_sums g)).

(** [marks_rows_partial_sums[i]] *)
Definition sum_at g (i : Z) : result Z :=
  match marks_rows_partial_sums g !! Z.to_nat i with Some s => Ok s | None => Throw OUT_OF_BOUNDS_ACCESS end.

Definition adaptive_mark_rows g (mark_index : Z) : result Z :=
  if adaptive_count g <=? mark_index then Throw LOGICAL_ERROR
  else if mark_index =? 0 then sum_at g 0
  else
    let! s := sum_at g mark_index in
    let! s' := sum_at g (mark_index - 1) in
    Ok (uwrap 64 (s - s')).

(** [std::lower_bound] and [std::upper_bound] on the sums. *)
Definition lower_bound g (value : Z) : result Z :=
  let sums := marks_rows_partial_sums g in
  let! i := partition_point (S (length sums)) (fun i => let! s := sum_at g (Z.of_nat i) in Ok (negb (s <? value))) 0 (length sums) in
  Ok (Z.of_nat i).

Definition upper_bound g (value : Z) : result Z :=
  let sums := marks_rows_partial_sums g in
  let! i := partition_point (S (length sums)) (fun i => let! s := sum_at g (Z.of_nat i) in Ok (value <? s)) 0 (length sums) in
  Ok (Z.of_nat i).

Definition adaptive_mark_range_for_row_offset g (row_offset : Z) : result (Z * Z) :=
  let! begin_mark := lower_bound g (uwrap 64 (row_offset + 1)) in
  Ok (begin_mark, begin_mark + 1).

Definition has_final g : result bool :=
  if adaptive_count g =? 0 then Ok false else let! last := adaptive_mark_rows g (adaptive_count g - 1) in Ok (last =? 0).

Definition adaptive_total_rows g : Z :=
  match last (marks_rows_partial_sums g) with Some s => s | None => 0 end.

Definition adaptive_append_mark (rows_count : Z) g : result MergeTreeIndexGranularityAdaptive :=
  let! f := has_final g in
  if f : bool then Throw LOGICAL_ERROR
  else match last (marks_rows_partial_sums g) with
  | None => Ok {| marks_rows_partial_sums := [rows_count] |}
  | Some back => Ok {| marks_rows_partial_sums := marks_rows_partial_sums g ++ [uwrap 64 (back + rows_count)] |}
  end.

Definition adaptive_adjust_last_mark (rows_count : Z) g : result MergeTreeIndexGranularityAdaptive :=
  let! f := has_final g in
  if f : bool then Throw LOGICAL_ERROR
  else if adaptive_count g =? 0 then Ok {| marks_rows_partial_sums := [rows_count] |}
  else adaptive_append_mark rows_count {| marks_rows_partial_sums := removelast (marks_rows_partial_sums g) |}.

Definition adaptive_rows_count_in_range g (begin end_ : Z) : result Z :=
  if adaptive_count g <? end_ then Throw LOGICAL_ERROR
  else if end_ =? 0 then Ok 0
  else
    let! subtrahend := if negb (begin =? 0) then sum_at g (begin - 1) else Ok 0 in
    let! s := sum_at g (end_ - 1) in
    Ok (uwrap 64 (s - subtrahend)).

Definition adaptive_count_marks_for_rows g (from_mark number_of_rows : Z) : result Z :=
  let! rows_before_mark := adaptive_rows_count_in_range g 0 from_mark in
  let! to_mark := upper_bound g (uwrap 64 (rows_before_mark + number_of_rows)) in
  Ok (uwrap 64 (to_mark - from_mark)).

Definition adaptive_count_rows_for_rows g (from_mark number_of_rows offset_in_rows : Z) : result Z :=
  let! rows_before_mark := adaptive_rows_count_in_range g 0 from_mark in
  let! to_mark := upper_bound g (uwrap 64 (rows_before_mark + offset_in_rows + number_of_rows)) in
  let! n := adaptive_rows_count_in_range g from_mark (Z.max 1 to_mark) in
  Ok (uwrap 64 (n - offset_in_rows)).

#[global] Instance methods : MergeTreeIndexGranularity MergeTreeIndexGranularityAdaptive := {|
  getConstantGranularity g := None;
  getRowsCountInRange := adaptive_rows_count_in_range;
  countMarksForRows := adaptive_count_marks_for_rows;
  countRowsForRows := adaptive_count_rows_for_rows;
  getMarksCount := adaptive_count;
  getTotalRows := adaptive_total_rows;
  getMarkRows := adaptive_mark_rows;
  getMarkRangeForRowOffset := adaptive_mark_range_for_row_offset;
  hasFinalMark := has_final;
  appendMark := adaptive_append_mark;
  adjustLastMark := adaptive_adjust_last_mark |}.

(** The loop of [optimize] over the marks after the first: all have as many rows. *)
Fixpoint all_equal g (first_mark : Z) (i : Z) (n : nat) : result bool :=
  match n with
  | O => Ok true
  | S n => let! r := adaptive_mark_rows g i in if r =? first_mark then all_equal g first_mark (i + 1) n else Ok false
  end.

Definition optimize g : result (option MergeTreeIndexGranularityConstant) :=
  let! marks_count := getMarksCountWithoutFinal g in
  if marks_count =? 0 then Ok None
  else
    let! first_mark := adaptive_mark_rows g 0 in
    let! same := all_equal g first_mark 1 (Z.to_nat (marks_count - 2)) in
    if negb same then Ok None
    else
      let! last_mark := adaptive_mark_rows g (marks_count - 1) in
      let! f := has_final g in
      Ok (Some {| constant_granularity := first_mark; last_mark_granularity := last_mark;
                  num_marks_without_final := marks_count; has_final_mark := f |}).

End Adaptive.

(** * The reference: the list of numbers of rows *)

Definition Zsum (xs : list Z) : Z := foldr Z.add 0 xs.

Lemma Zsum_app xs ys : Zsum (xs ++ ys) = Zsum xs + Zsum ys.
Proof. induction xs as [|x xs IH]; simpl; [done|]. fold (Zsum (xs ++ ys)) (Zsum xs). lia. Qed.

Lemma Zsum_replicate n x : Zsum (replicate n x) = Z.of_nat n * x.
Proof. induction n as [|n IH]; simpl; [done|]. fold (Zsum (replicate n x)). lia. Qed.

Lemma Zsum_take_le xs m n : Forall (fun x => 0 <= x) xs -> (m <= n)%nat -> Zsum (take m xs) <= Zsum (take n xs).
Proof.
  intros Hx. revert m n. induction Hx as [|x xs Hx' Hx IH]; intros [|m] [|n] Hmn; simpl; try lia.
  - specialize (IH 0%nat n ltac:(lia)). simpl in IH. unfold Zsum in *. lia.
  - specialize (IH m n ltac:(lia)). unfold Zsum in *. lia.
Qed.

Lemma Zsum_take_S xs i x : xs !! i = Some x -> Zsum (take (S i) xs) = Zsum (take i xs) + x.
Proof. intros Hx. rewrite (take_S_r _ _ _ Hx), Zsum_app. simpl. lia. Qed.

(** The mark that a row belongs to. *)
Fixpoint mark_of (rows : list Z) (row : Z) : nat :=
  match rows with
  | [] => 0
  | n :: rows => if row <? n then 0 else S (mark_of rows (row - n))
  end.

(** Rows between two marks. *)
Definition rows_between (rows : list Z) (begin end_ : nat) : Z := Zsum (take end_ rows) - Zsum (take begin rows).

(** All marks have rows, except that there may be a final one without. *)
Record rows_ok (rows : list Z) : Prop := {
  ok_positive : forall i n, rows !! i = Some n -> 0 <= n /\ (n = 0 -> S i = length rows);
  ok_total : Zsum rows < 2 ^ 62;
  ok_length : Z.of_nat (length rows) < 2 ^ 62 }.

Lemma ok_nonneg rows : rows_ok rows -> Forall (fun n => 0 <= n) rows.
Proof. intros [H _ _]. apply Forall_lookup_2. intros i n Hi. by destruct (H i n Hi). Qed.

Lemma ok_prefix rows m : rows_ok rows -> 0 <= Zsum (take m rows) <= Zsum rows.
Proof.
  intros H. pose proof (ok_nonneg rows H) as Hn. pose proof (Zsum_take_le rows 0 m Hn ltac:(lia)) as H0. simpl in H0.
  pose proof (Zsum_take_le rows m (m + length rows) Hn ltac:(lia)) as H1. rewrite (take_ge rows (m + length rows)) in H1 by lia.
  unfold Zsum in *. simpl in *. lia.
Qed.

(** The mark is the first that ends after the row. *)
Lemma mark_of_spec rows row : Forall (fun n => 0 <= n) rows -> 0 <= row ->
  (mark_of rows row <= length rows)%nat /\ Zsum (take (mark_of rows row) rows) <= row /\
  ((mark_of rows row < length rows)%nat -> row < Zsum (take (S (mark_of rows row)) rows)) /\
  (mark_of rows row = length rows -> Zsum rows <= row).
Proof.
  intros Hn. revert row. induction Hn as [|n rows Hn' Hn IH]; intros row Hr; [simpl; split_and!; lia || done|]. cbn [mark_of].
  destruct (Z.ltb_spec row n) as [Hlt|Hge]; [simpl; split_and!; try lia|].
  destruct (IH (row - n) ltac:(lia)) as (H1 & H2 & H3 & H4). cbn [length take Zsum foldr] in *. unfold Zsum in *. cbn [foldr].
  split_and!; [lia|lia|intros; specialize (H3 ltac:(lia)); cbn [foldr]; lia|intros; specialize (H4 ltac:(lia)); lia].
Qed.

Lemma mark_of_unique rows row m : Forall (fun n => 0 <= n) rows -> 0 <= row -> (m <= length rows)%nat ->
  Zsum (take m rows) <= row -> ((m < length rows)%nat -> row < Zsum (take (S m) rows)) -> mark_of rows row = m.
Proof.
  intros Hn Hr Hm H1 H2. destruct (mark_of_spec rows row Hn Hr) as (E1 & E2 & E3 & _). set (k := mark_of rows row) in *.
  destruct (lt_eq_lt_dec k m) as [[Hlt|]|Hgt]; [|done|].
  - pose proof (Zsum_take_le rows (S k) m Hn ltac:(lia)). specialize (E3 ltac:(lia)). lia.
  - pose proof (Zsum_take_le rows (S m) k Hn ltac:(lia)). specialize (H2 ltac:(lia)). lia.
Qed.

Lemma mark_of_ge rows m row : rows_ok rows -> (m <= length rows)%nat -> Zsum (take m rows) <= row -> (m <= mark_of rows row)%nat.
Proof.
  intros H Hm Hr. pose proof (ok_prefix _ m H). destruct (mark_of_spec rows row (ok_nonneg _ H) ltac:(lia)) as (E1 & E2 & E3 & _).
  destruct (decide (m <= mark_of rows row)%nat) as [|Hgt]; [done|].
  pose proof (Zsum_take_le rows (S (mark_of rows row)) m (ok_nonneg _ H) ltac:(lia)). specialize (E3 ltac:(lia)). lia.
Qed.

Lemma rows_ok_snoc rows n : rows_ok rows -> last rows <> Some 0 -> 0 <= n -> Zsum rows + n < 2 ^ 62 ->
  Z.of_nat (length rows) + 1 < 2 ^ 62 -> rows_ok (rows ++ [n]).
Proof.
  intros [Hp Ht Hl] Hlast Hn Ht' Hl'. split.
  - intros i x Hx. rewrite length_app. apply lookup_app_Some in Hx as [Hx|[Hge Hx]].
    + destruct (Hp i x Hx) as [? Hz]. split; [done|]. intros ->. specialize (Hz eq_refl). exfalso. apply Hlast. rewrite last_lookup, <- Hz. done.
    + apply list_lookup_singleton_Some in Hx as [Hi <-]. split; [done|]. intros _. simpl. lia.
  - rewrite Zsum_app. simpl. lia.
  - rewrite length_app. simpl. lia.
Qed.

Lemma rows_ok_prefix rows more : rows_ok (rows ++ more) -> rows_ok rows.
Proof.
  intros H. pose proof (ok_prefix _ (length rows) H) as Hs. rewrite take_app_length in Hs. destruct H as [Hp Ht Hl]. rewrite length_app in *. split.
  - intros i n Hn. destruct (Hp i n (lookup_app_l_Some _ _ _ _ Hn)) as [? Hz]. split; [done|]. intros E. specialize (Hz E).
    apply lookup_lt_Some in Hn. lia.
  - lia.
  - lia.
Qed.

(** What an implementation promises; [growing] allows to append marks. *)
Class GranularityLaws (G : Type) `{!MergeTreeIndexGranularity G} (rows_of : G -> list Z) (wf growing : G -> Prop) : Prop := {
  law_ok g : wf g -> rows_ok (rows_of g);
  law_count g : wf g -> getMarksCount g = Z.of_nat (length (rows_of g));
  law_rows g i : wf g -> getMarkRows g (Z.of_nat i) = match rows_of g !! i with Some n => Ok n | None => Throw LOGICAL_ERROR end;
  law_total g : wf g -> getTotalRows g = Zsum (rows_of g);
  law_final g : wf g -> hasFinalMark g = Ok (bool_decide (last (rows_of g) = Some 0));
  law_starting g m : wf g -> getRowsCountInRange g 0 (Z.of_nat m) =
    if (length (rows_of g) <? m)%nat then Throw LOGICAL_ERROR else Ok (Zsum (take m (rows_of g)));
  law_range g begin end_ n : wf g -> rows_of g !! begin = Some n -> 0 < n -> (begin <= end_ <= length (rows_of g))%nat ->
    getRowsCountInRange g (Z.of_nat begin) (Z.of_nat end_) = Ok (if (end_ =? 0)%nat then 0 else rows_between (rows_of g) begin end_);
  law_row_offset g row : wf g -> 0 <= row < Zsum (rows_of g) ->
    getMarkRangeForRowOffset g row = Ok (Z.of_nat (mark_of (rows_of g) row), Z.of_nat (mark_of (rows_of g) row) + 1);
  law_count_marks g from n : wf g -> 0 <= n < 2 ^ 62 -> (from <= length (rows_of g))%nat ->
    countMarksForRows g (Z.of_nat from) n = Ok (Z.of_nat (mark_of (rows_of g) (Zsum (take from (rows_of g)) + n)) - Z.of_nat from);
  law_count_rows g from n offset r : wf g -> 0 <= n < 2 ^ 61 -> 0 <= offset < 2 ^ 61 -> rows_of g !! from = Some r -> 0 < r ->
    countRowsForRows g (Z.of_nat from) n offset = Ok (uwrap 64 (rows_between (rows_of g) from
      (Nat.max 1 (mark_of (rows_of g) (Zsum (take from (rows_of g)) + offset + n))) - offset));
  law_append g n : wf g -> growing g -> match getConstantGranularity g with Some c => n = c | None => 0 < n end ->
    Zsum (rows_of g) + n < 2 ^ 62 -> Z.of_nat (length (rows_of g)) + 1 < 2 ^ 62 ->
    exists g', appendMark n g = Ok g' /\ rows_of g' = rows_of g ++ [n] /\ wf g' /\ growing g' /\
      getConstantGranularity g' = getConstantGranularity g;
  law_append_final g : wf g -> last (rows_of g) <> Some 0 -> rows_of g <> [] -> Z.of_nat (length (rows_of g)) + 1 < 2 ^ 62 ->
    exists g', appendMark 0 g = Ok g' /\ rows_of g' = rows_of g ++ [0] /\ wf g';
  law_adjust g n before old : wf g -> rows_of g = before ++ [old] -> 0 < old -> 0 < n -> Zsum before + n < 2 ^ 62 ->
    exists g', adjustLastMark n g = Ok g' /\ rows_of g' = before ++ [n] /\ wf g' /\
      getConstantGranularity g' = getConstantGranularity g /\ (getConstantGranularity g = None -> growing g');
  law_growing g : wf g -> growing g -> Forall (fun n => 0 < n) (rows_of g);
  law_constant g c : wf g -> growing g -> getConstantGranularity g = Some c -> 0 < c /\ Forall (fun n => n = c) (rows_of g) }.

(** ** The adaptive granularity *)

Module AdaptiveProofs.
Import Adaptive.

Fixpoint diffs (prev : Z) (sums : list Z) : list Z :=
  match sums with [] => [] | s :: sums => (s - prev) :: diffs s sums end.

Lemma length_diffs p sums : length (diffs p sums) = length sums.
Proof. revert p. induction sums as [|s sums IH]; intros p; simpl; [done|]. by rewrite IH. Qed.

Lemma diffs_sum p sums i s : sums !! i = Some s -> Zsum (take (S i) (diffs p sums)) = s - p.
Proof.
  revert p i. induction sums as [|s0 sums IH]; intros p i Hs; [done|]. destruct i as [|i]; simpl in Hs.
  - injection Hs as ->. unfold Zsum. simpl. lia.
  - specialize (IH s0 i Hs). unfold Zsum in *. cbn [diffs take foldr] in *. lia.
Qed.

Lemma diffs_app p sums s : diffs p (sums ++ [s]) = diffs p sums ++ [s - match last sums with Some q => q | None => p end].
Proof.
  revert p. induction sums as [|s0 sums IH]; intros p; [done|]. cbn [diffs app]. rewrite IH, last_cons. by destruct (last sums).
Qed.

Definition rows_of (g : MergeTreeIndexGranularityAdaptive) : list Z := diffs 0 (marks_rows_partial_sums g).
Definition wf (g : MergeTreeIndexGranularityAdaptive) : Prop := rows_ok (rows_of g).
Definition growing (g : MergeTreeIndexGranularityAdaptive) : Prop := last (rows_of g) <> Some 0.

Implicit Types g : MergeTreeIndexGranularityAdaptive.

Lemma adaptive_length_rows_of g : length (rows_of g) = length (marks_rows_partial_sums g).
Proof. apply length_diffs. Qed.

Lemma sum_at_spec g i : (i < length (rows_of g))%nat -> sum_at g (Z.of_nat i) = Ok (Zsum (take (S i) (rows_of g))).
Proof.
  rewrite adaptive_length_rows_of. intros Hi. unfold sum_at. rewrite Nat2Z.id.
  destruct (lookup_lt_is_Some_2 _ _ Hi) as [s Hs]. rewrite Hs. unfold rows_of. by rewrite (diffs_sum 0 _ i s Hs), Z.sub_0_r.
Qed.

Lemma adaptive_mark_rows_spec g i : wf g ->
  adaptive_mark_rows g (Z.of_nat i) = match rows_of g !! i with Some n => Ok n | None => Throw LOGICAL_ERROR end.
Proof.
  intros H. unfold adaptive_mark_rows, adaptive_count. rewrite <- adaptive_length_rows_of. destruct (Z.leb_spec (Z.of_nat (length (rows_of g))) (Z.of_nat i)).
  { by rewrite lookup_ge_None_2 by lia. }
  destruct (lookup_lt_is_Some_2 (rows_of g) i ltac:(lia)) as [n Hn]. rewrite Hn. pose proof (Zsum_take_S _ _ _ Hn) as Hs.
  destruct (Z.eqb_spec (Z.of_nat i) 0) as [E|E].
  - assert (i = 0)%nat as -> by lia. change 0 with (Z.of_nat 0). rewrite sum_at_spec by lia. by rewrite Hs.
  - replace (Z.of_nat i - 1) with (Z.of_nat (i - 1)) by lia. rewrite !sum_at_spec by lia. cbn [rbind].
    replace (S (i - 1)) with i by lia. f_equal. replace (_ - _) with n by lia. apply uwrap_small.
    destruct (ok_positive _ H i n Hn). pose proof (ok_prefix _ (S i) H). pose proof (ok_prefix _ i H). pose proof (ok_total _ H). unfold in_unsigned. lia.
Qed.

Lemma adaptive_range_spec g begin end_ : wf g -> (begin <= length (rows_of g))%nat -> (end_ <= length (rows_of g))%nat -> (begin <= end_)%nat ->
  adaptive_rows_count_in_range g (Z.of_nat begin) (Z.of_nat end_) = Ok (rows_between (rows_of g) begin end_).
Proof.
  intros H Hb He Hbe. unfold adaptive_rows_count_in_range, adaptive_count. rewrite <- adaptive_length_rows_of. unfold rows_between.
  destruct (Z.ltb_spec (Z.of_nat (length (rows_of g))) (Z.of_nat end_)); [lia|].
  destruct (Z.eqb_spec (Z.of_nat end_) 0) as [E|E].
  { assert (end_ = 0)%nat as -> by lia. assert (begin = 0)%nat as -> by lia. simpl. done. }
  replace (Z.of_nat end_ - 1) with (Z.of_nat (end_ - 1)) by lia. rewrite (sum_at_spec g (end_ - 1)) by lia. replace (S (end_ - 1)) with end_ by lia.
  assert (Eb : (if negb (Z.of_nat begin =? 0) then sum_at g (Z.of_nat begin - 1) else Ok 0) = Ok (Zsum (take begin (rows_of g)))).
  { destruct (Z.eqb_spec (Z.of_nat begin) 0) as [E0|E0]; [by assert (begin = 0)%nat as -> by lia|]. cbn [negb].
    replace (Z.of_nat begin - 1) with (Z.of_nat (begin - 1)) by lia. rewrite sum_at_spec by lia. by replace (S (begin - 1)) with begin by lia. }
  rewrite Eb. cbn [rbind]. f_equal. apply uwrap_small. pose proof (Zsum_take_le _ begin end_ (ok_nonneg _ H) Hbe).
  pose proof (ok_prefix _ end_ H). pose proof (ok_prefix _ begin H). pose proof (ok_total _ H). unfold in_unsigned. lia.
Qed.

(** The searches find the mark of a row. *)
Lemma search_spec g row (has : nat -> result bool) : wf g -> 0 <= row ->
  (forall i, (i < length (rows_of g))%nat -> has i = Ok (row <? Zsum (take (S i) (rows_of g)))) ->
  partition_point (S (length (marks_rows_partial_sums g))) has 0 (length (marks_rows_partial_sums g)) = Ok (mark_of (rows_of g) row).
Proof.
  intros H Hr Hh. rewrite <- adaptive_length_rows_of. pose proof (ok_nonneg _ H) as Hn.
  destruct (partition_point_spec (S (length (rows_of g))) has (fun i => row <? Zsum (take (S i) (rows_of g))) 0 (length (rows_of g)))
    as (r & -> & Hle & Hb & Ha); [lia|intros; apply Hh; lia| |].
  { intros i j Hij Hj Hi%Z.ltb_lt. apply Z.ltb_lt. pose proof (Zsum_take_le (rows_of g) (S i) (S j) Hn ltac:(lia)). lia. }
  f_equal. symmetry. apply mark_of_unique; [done|done|lia| |].
  - destruct r as [|r]; [simpl; lia|]. specialize (Hb r ltac:(lia)). apply Z.ltb_ge in Hb. lia.
  - intros Hlt. specialize (Ha r ltac:(lia)). by apply Z.ltb_lt in Ha.
Qed.

Lemma adaptive_upper_bound_spec g row : wf g -> 0 <= row -> upper_bound g row = Ok (Z.of_nat (mark_of (rows_of g) row)).
Proof.
  intros H Hr. unfold upper_bound. rewrite (search_spec g row); [done|done|done|]. intros i Hi. by rewrite sum_at_spec.
Qed.

Lemma adaptive_has_final_spec g : wf g -> has_final g = Ok (bool_decide (last (rows_of g) = Some 0)).
Proof.
  intros H. unfold has_final, adaptive_count. rewrite <- adaptive_length_rows_of. destruct (Z.eqb_spec (Z.of_nat (length (rows_of g))) 0) as [E|E].
  { by destruct (rows_of g). }
  replace (Z.of_nat (length (rows_of g)) - 1) with (Z.of_nat (length (rows_of g) - 1)) by lia. rewrite adaptive_mark_rows_spec by done.
  rewrite last_lookup. replace (Nat.pred (length (rows_of g))) with (length (rows_of g) - 1)%nat by lia.
  destruct (lookup_lt_is_Some_2 (rows_of g) (length (rows_of g) - 1) ltac:(lia)) as [n Hn]. rewrite Hn. cbn [rbind]. f_equal.
  destruct (Z.eqb_spec n 0) as [->|Hne]; [by rewrite bool_decide_eq_true_2|]. rewrite bool_decide_eq_false_2; congruence.
Qed.

Lemma adaptive_total_spec g : adaptive_total_rows g = Zsum (rows_of g).
Proof.
  unfold adaptive_total_rows. destruct (last (marks_rows_partial_sums g)) as [s|] eqn:E.
  - rewrite last_lookup in E. pose proof (lookup_lt_Some _ _ _ E). pose proof (diffs_sum 0 _ _ s E) as Hs.
    rewrite take_ge in Hs by (rewrite length_diffs; lia). unfold rows_of. lia.
  - apply last_None in E. unfold rows_of. by rewrite E.
Qed.

Lemma adaptive_append_spec g n : wf g -> growing g -> 0 <= n -> Zsum (rows_of g) + n < 2 ^ 62 -> Z.of_nat (length (rows_of g)) + 1 < 2 ^ 62 ->
  exists g', adaptive_append_mark n g = Ok g' /\ rows_of g' = rows_of g ++ [n] /\ wf g' /\ (0 < n -> growing g').
Proof.
  intros H Hg Hn Ht Hl. pose proof (ok_prefix _ 0 H) as [_ H0]. simpl in H0. unfold adaptive_append_mark. rewrite adaptive_has_final_spec by done.
  rewrite bool_decide_eq_false_2 by done. cbn [rbind].
  assert (E : exists g', match last (marks_rows_partial_sums g) with
    | None => Ok {| marks_rows_partial_sums := [n] |}
    | Some back => Ok {| marks_rows_partial_sums := marks_rows_partial_sums g ++ [uwrap 64 (back + n)] |} end = Ok g' /\
    rows_of g' = rows_of g ++ [n]).
  { pose proof (adaptive_total_spec g) as Et. unfold adaptive_total_rows in Et. destruct (last (marks_rows_partial_sums g)) as [s|] eqn:Es; eexists; (split; [done|]).
    - unfold rows_of in *. simpl. rewrite diffs_app, Es, uwrap_small by (unfold in_unsigned; lia). f_equal. f_equal. lia.
    - apply last_None in Es. unfold rows_of. rewrite Es. simpl. f_equal. lia. }
  destruct E as (g' & -> & Er). exists g'. split; [done|]. split; [done|]. unfold wf, growing. rewrite Er. split; [|rewrite last_snoc; intros Hpos [=]; lia].
  apply rows_ok_snoc; [done| |lia|lia|lia]. intros E. by apply Hg.
Qed.

Lemma growing_app g before old : rows_of g = before ++ [old] -> 0 < old -> growing g.
Proof. intros E Ho. unfold growing. rewrite E, last_snoc. intros [=]. lia. Qed.

Lemma adaptive_adjust_spec g n before old : wf g -> rows_of g = before ++ [old] -> 0 < old -> 0 < n -> Zsum before + n < 2 ^ 62 ->
  exists g', adaptive_adjust_last_mark n g = Ok g' /\ rows_of g' = before ++ [n] /\ wf g' /\ growing g'.
Proof.
  intros H E Ho Hn Ht. pose proof (growing_app g before old E Ho) as Hg. unfold adaptive_adjust_last_mark. rewrite adaptive_has_final_spec by done.
  rewrite bool_decide_eq_false_2 by done. cbn [rbind]. unfold adaptive_count. rewrite <- adaptive_length_rows_of, E, length_app.
  destruct (Z.eqb_spec (Z.of_nat (length before + length [old])) 0); [simpl in *; lia|].
  set (g0 := {| marks_rows_partial_sums := removelast (marks_rows_partial_sums g) |}).
  assert (E0 : rows_of g0 = before).
  { unfold rows_of, g0 in *. simpl. destruct (marks_rows_partial_sums g) as [|s sums _] using rev_ind; [by destruct before|].
    rewrite removelast_last. rewrite diffs_app in E. by apply app_inj_tail in E as [? _]. }
  assert (H0 : wf g0) by (unfold wf in *; rewrite E0; rewrite E in H; by apply rows_ok_prefix in H).
  assert (Hg0 : growing g0).
  { unfold growing. rewrite E0, last_lookup. intros Hl. unfold wf in H. rewrite E in H. destruct (ok_positive _ H _ 0 (lookup_app_l_Some _ _ _ _ Hl)) as [_ Hp].
    specialize (Hp eq_refl). pose proof (lookup_lt_Some _ _ _ Hl). rewrite length_app in Hp. simpl in Hp. lia. }
  destruct (adaptive_append_spec g0 n H0 Hg0 ltac:(lia)) as (g' & E' & Er & Hw' & Hgr'); [by rewrite E0| |].
  { rewrite E0. pose proof (ok_length _ H) as Hl. rewrite E, length_app in Hl. simpl in Hl. lia. }
  exists g'. rewrite Er, E0. auto.
Qed.

#[global] Instance adaptive_laws : GranularityLaws MergeTreeIndexGranularityAdaptive rows_of wf growing.
Proof.
  split; unfold wf.
  - done.
  - intros g _. by rewrite adaptive_length_rows_of.
  - intros g i. apply adaptive_mark_rows_spec.
  - intros g _. apply adaptive_total_spec.
  - apply adaptive_has_final_spec.
  - intros g m H. destruct (Nat.ltb_spec (length (rows_of g)) m) as [Hlt|Hge].
    + simpl. unfold adaptive_rows_count_in_range, adaptive_count. rewrite <- adaptive_length_rows_of. by destruct (Z.ltb_spec (Z.of_nat (length (rows_of g))) (Z.of_nat m)); [|lia].
    + simpl. rewrite (adaptive_range_spec g 0) by (done || lia). unfold rows_between. simpl. by rewrite Z.sub_0_r.
  - intros g begin end_ n H Hb Hn Hr. simpl. rewrite adaptive_range_spec by (done || lia). destruct (Nat.eqb_spec end_ 0) as [->|]; [|done].
    by assert (begin = 0)%nat as -> by lia.
  - intros g row H Hr. simpl. pose proof (ok_total _ H). unfold adaptive_mark_range_for_row_offset, lower_bound.
    rewrite uwrap_small by (unfold in_unsigned; lia). rewrite (search_spec g row); [done|done|lia|].
    intros i Hi. rewrite sum_at_spec by done. cbn [rbind]. f_equal.
    destruct (Z.ltb_spec (Zsum (take (S i) (rows_of g))) (row + 1)), (Z.ltb_spec row (Zsum (take (S i) (rows_of g)))); done || lia.
  - intros g from n H Hn Hf. simpl. unfold adaptive_count_marks_for_rows. change 0 with (Z.of_nat 0) at 1. rewrite adaptive_range_spec by (done || lia).
    cbn [rbind]. pose proof (ok_prefix _ from H). pose proof (ok_total _ H). unfold rows_between. simpl. rewrite Z.sub_0_r.
    rewrite uwrap_small by (unfold in_unsigned; lia). rewrite adaptive_upper_bound_spec by (done || lia). cbn [rbind]. f_equal.
    destruct (mark_of_spec (rows_of g) (Zsum (take from (rows_of g)) + n) (ok_nonneg _ H) ltac:(lia)) as (Hle & _).
    pose proof (mark_of_ge (rows_of g) from (Zsum (take from (rows_of g)) + n) H Hf ltac:(lia)). pose proof (ok_length _ H).
    apply uwrap_small. unfold in_unsigned. lia.
  - intros g from n offset r H Hn Ho Hf Hr. simpl. unfold adaptive_count_rows_for_rows. pose proof (lookup_lt_Some _ _ _ Hf) as Hlt.
    change 0 with (Z.of_nat 0) at 1. rewrite adaptive_range_spec by (done || lia).
    cbn [rbind]. pose proof (ok_prefix _ from H). pose proof (ok_total _ H). unfold rows_between at 1. simpl. rewrite Z.sub_0_r.
    rewrite uwrap_small by (unfold in_unsigned; lia). rewrite adaptive_upper_bound_spec by (done || lia). cbn [rbind].
    set (row := Zsum (take from (rows_of g)) + offset + n).
    destruct (mark_of_spec (rows_of g) row (ok_nonneg _ H) ltac:(lia)) as (Hle & _).
    pose proof (mark_of_ge (rows_of g) from row H ltac:(lia) ltac:(lia)).
    replace (Z.max 1 (Z.of_nat (mark_of (rows_of g) row))) with (Z.of_nat (Nat.max 1 (mark_of (rows_of g) row))) by lia.
    by rewrite adaptive_range_spec by (done || lia).
  - intros g n H Hg Hn Ht Hl. simpl in Hn. destruct (adaptive_append_spec g n H Hg ltac:(lia) Ht ltac:(lia)) as (g' & ? & ? & ? & ?). exists g'. split_and!; auto.
  - intros g H Hf _ Hl. pose proof (ok_total _ H). destruct (adaptive_append_spec g 0 H Hf ltac:(lia) ltac:(lia) Hl) as (g' & ? & ? & ? & _). by exists g'.
  - intros g n before old H E Ho Hn Ht. destruct (adaptive_adjust_spec g n before old H E Ho Hn Ht) as (g' & ? & ? & ? & ?). by exists g'.
  - intros g H Hg. apply Forall_lookup_2. intros i n Hn. destruct (ok_positive _ H i n Hn) as [Hp Hz]. unfold growing in Hg. rewrite last_lookup in Hg.
    destruct (Z.eq_dec n 0) as [->|]; [|lia]. specialize (Hz eq_refl). exfalso. apply Hg. by rewrite <- Hz.
  - done.
Qed.

End AdaptiveProofs.

(** ** The constant granularity *)

Module ConstantProofs.
Import Constant.

Implicit Types g : MergeTreeIndexGranularityConstant.

Definition rows_of g : list Z :=
  (if num_marks_without_final g =? 0 then []
   else replicate (Z.to_nat (num_marks_without_final g - 1)) (constant_granularity g) ++ [last_mark_granularity g]) ++
  (if has_final_mark g then [0] else []).

Record wf g : Prop := {
  wf_marks : 0 <= num_marks_without_final g < 2 ^ 62;
  wf_count : num_marks_without_final g + Z.b2z (has_final_mark g) < 2 ^ 62;
  wf_constant : 0 < constant_granularity g < 2 ^ 62;
  wf_last : 0 < last_mark_granularity g < 2 ^ 62;
  wf_final : has_final_mark g = true -> num_marks_without_final g <> 0;
  wf_total : num_marks_without_final g <> 0 ->
    constant_granularity g * (num_marks_without_final g - 1) + last_mark_granularity g < 2 ^ 62 }.

Definition growing g : Prop := has_final_mark g = false /\ last_mark_granularity g = constant_granularity g.

Lemma constant_length_rows_of g : wf g -> Z.of_nat (length (rows_of g)) = num_marks_without_final g + Z.b2z (has_final_mark g).
Proof.
  intros [Hn _ _ _ _ _]. unfold rows_of. destruct (Z.eqb_spec (num_marks_without_final g) 0) as [->|], (has_final_mark g); simpl_len; simpl; lia.
Qed.

Lemma lookup_rows_of g i : wf g -> (i < length (rows_of g))%nat -> rows_of g !! i =
  Some (if Z.of_nat i + 1 <? num_marks_without_final g then constant_granularity g
        else if Z.of_nat i + 1 =? num_marks_without_final g then last_mark_granularity g else 0).
Proof.
  intros H Hi. pose proof (constant_length_rows_of g H) as Hl. destruct H as [Hn _ _ _ _ _]. unfold rows_of in *.
  destruct (Z.eqb_spec (num_marks_without_final g) 0) as [E|E].
  - rewrite E in *. destruct (Z.ltb_spec (Z.of_nat i + 1) 0); [lia|]. destruct (Z.eqb_spec (Z.of_nat i + 1) 0); [lia|].
    destruct (has_final_mark g); [|simpl in Hi; lia]. simpl in Hi. by assert (i = 0)%nat as -> by lia.
  - destruct (Z.ltb_spec (Z.of_nat i + 1) (num_marks_without_final g)).
    { apply lookup_app_l_Some, lookup_app_l_Some. apply lookup_replicate. split; [done|lia]. }
    destruct (Z.eqb_spec (Z.of_nat i + 1) (num_marks_without_final g)).
    { apply lookup_app_l_Some. rewrite lookup_app_r by (rewrite length_replicate; lia). rewrite length_replicate.
      by replace (i - _)%nat with 0%nat by lia. }
    rewrite lookup_app_r by (simpl_len; lia). simpl_len. destruct (has_final_mark g); simpl in *; [|lia].
    by replace (i - _)%nat with 0%nat by lia.
Qed.

Lemma sum_rows_of g m : wf g -> (m <= length (rows_of g))%nat -> Zsum (take m (rows_of g)) =
  if Z.of_nat m <? num_marks_without_final g then constant_granularity g * Z.of_nat m
  else if num_marks_without_final g =? 0 then 0
  else constant_granularity g * (num_marks_without_final g - 1) + last_mark_granularity g.
Proof.
  intros H. induction m as [|m IH]; intros Hm.
  - pose proof (wf_marks _ H). destruct (Z.ltb_spec (Z.of_nat 0) (num_marks_without_final g)), (Z.eqb_spec (num_marks_without_final g) 0); simpl; lia.
  - rewrite (Zsum_take_S _ m _ (lookup_rows_of g m H ltac:(lia))), IH by lia. pose proof (wf_marks _ H).
    destruct (Z.ltb_spec (Z.of_nat m) (num_marks_without_final g)), (Z.ltb_spec (Z.of_nat m + 1) (num_marks_without_final g)),
      (Z.eqb_spec (Z.of_nat m + 1) (num_marks_without_final g)), (Z.ltb_spec (Z.of_nat (S m)) (num_marks_without_final g)),
      (Z.eqb_spec (num_marks_without_final g) 0); lia.
Qed.

Lemma total_sum g : wf g -> Zsum (rows_of g) =
  if num_marks_without_final g =? 0 then 0 else constant_granularity g * (num_marks_without_final g - 1) + last_mark_granularity g.
Proof.
  intros H. pose proof (constant_length_rows_of g H) as Hl. rewrite <- (firstn_all (rows_of g)), sum_rows_of by done.
  destruct (Z.ltb_spec (Z.of_nat (length (rows_of g))) (num_marks_without_final g)); [|done]. destruct (has_final_mark g); simpl in Hl; lia.
Qed.

Lemma rows_of_ok g : wf g -> rows_ok (rows_of g).
Proof.
  intros H. pose proof (constant_length_rows_of g H) as Hl. pose proof H as [Hn Hcnt Hc Hla _ Ht]. split.
  - intros i n Hi. pose proof (lookup_lt_Some _ _ _ Hi) as Hlt. rewrite lookup_rows_of in Hi by done. injection Hi as <-.
    destruct (Z.ltb_spec (Z.of_nat i + 1) (num_marks_without_final g)); [lia|].
    destruct (Z.eqb_spec (Z.of_nat i + 1) (num_marks_without_final g)); [lia|]. split; [done|]. intros _. destruct (has_final_mark g); simpl in Hl; lia.
  - rewrite total_sum by done. destruct (Z.eqb_spec (num_marks_without_final g) 0); [lia|]. by apply Ht.
  - lia.
Qed.

(** The products do not overflow. *)
Lemma constant_product g : wf g -> num_marks_without_final g <> 0 ->
  0 <= constant_granularity g * (num_marks_without_final g - 1) < 2 ^ 62 /\ uwrap 64 (num_marks_without_final g - 1) = num_marks_without_final g - 1.
Proof. intros [Hn _ Hc Hl _ Ht] Hz. specialize (Ht Hz). split; [nia|]. apply uwrap_small. unfold in_unsigned. lia. Qed.

Lemma constant_count_spec g : wf g -> constant_count g = Z.of_nat (length (rows_of g)).
Proof. intros H. rewrite (constant_length_rows_of g H). pose proof (wf_marks _ H). apply uwrap_small. unfold in_unsigned. destruct (has_final_mark g); simpl; lia. Qed.

Lemma constant_total_spec g : wf g -> constant_total_rows g = Zsum (rows_of g).
Proof.
  intros H. rewrite total_sum by done. unfold constant_total_rows. destruct (Z.eqb_spec (num_marks_without_final g) 0) as [|Hz]; [done|].
  destruct (constant_product g H Hz) as [Hp ->]. pose proof (wf_total g H Hz). pose proof (wf_last g H). apply uwrap_small. unfold in_unsigned. lia.
Qed.

Lemma constant_range_spec g begin end_ : wf g -> (Z.of_nat begin < num_marks_without_final g \/ begin = 0%nat) -> (begin <= end_)%nat -> (end_ <= length (rows_of g))%nat ->
  num_marks_without_final g <> 0 \/ end_ = 0%nat ->
  constant_rows_count_in_range g (Z.of_nat begin) (Z.of_nat end_) = Ok (if (end_ =? 0)%nat then 0 else rows_between (rows_of g) begin end_).
Proof.
  intros H Hb Hbe He Hz. unfold constant_rows_count_in_range. rewrite constant_count_spec by done. destruct (Z.ltb_spec (Z.of_nat (length (rows_of g))) (Z.of_nat end_)); [lia|].
  destruct (Nat.eqb_spec end_ 0) as [->|Hne]; [done|]. destruct (Z.eqb_spec (Z.of_nat end_) 0); [lia|]. destruct Hz as [Hz|]; [|done].
  destruct (constant_product g H Hz) as [Hp Hu]. unfold rows_between. rewrite !sum_rows_of by (done || lia). pose proof (wf_total g H Hz).
  pose proof (wf_last g H). pose proof (wf_constant g H). pose proof (wf_marks g H).
  destruct (Z.ltb_spec (Z.of_nat begin) (num_marks_without_final g)); [|lia].
  destruct (Z.eqb_spec (num_marks_without_final g) 0); [done|].
  destruct (Z.leb_spec (num_marks_without_final g) (Z.of_nat end_)), (Z.ltb_spec (Z.of_nat end_) (num_marks_without_final g)); try lia.
  - rewrite Hu. rewrite (uwrap_small 64 (_ - Z.of_nat begin)) by (unfold in_unsigned; lia).
    rewrite (uwrap_small 64 (_ * _)) by (unfold in_unsigned; nia). f_equal. rewrite uwrap_small by (unfold in_unsigned; nia). lia.
  - rewrite (uwrap_small 64 (_ - Z.of_nat begin)) by (unfold in_unsigned; lia).
    rewrite (uwrap_small 64 (_ * _)) by (unfold in_unsigned; nia). f_equal. rewrite uwrap_small by (unfold in_unsigned; nia). lia.
Qed.

Lemma mark_of_row g row : wf g -> 0 <= row < Zsum (rows_of g) -> num_marks_without_final g <> 0 /\ Z.of_nat (mark_of (rows_of g) row) =
  if row <? constant_granularity g * (num_marks_without_final g - 1) then row / constant_granularity g else num_marks_without_final g - 1.
Proof.
  intros H Hr. assert (Hl : num_marks_without_final g <= Z.of_nat (length (rows_of g)))
    by (rewrite (constant_length_rows_of g H); destruct (has_final_mark g); simpl; lia). rewrite total_sum in Hr by done. destruct (Z.eqb_spec (num_marks_without_final g) 0) as [|Hz]; [lia|].
  split; [done|]. pose proof (wf_constant g H) as Hc. pose proof (wf_marks g H) as Hn. pose proof (constant_product g H Hz) as [Hp _].
  set (m := if row <? _ then _ else _). assert (Hm : 0 <= m < num_marks_without_final g /\ constant_granularity g * m <= row /\
    (m + 1 < num_marks_without_final g -> row < constant_granularity g * (m + 1))).
  { unfold m. destruct (Z.ltb_spec row (constant_granularity g * (num_marks_without_final g - 1))).
    - pose proof (Z.div_mod row (constant_granularity g)). pose proof (Z.mod_pos_bound row (constant_granularity g)).
      assert (0 <= row / constant_granularity g) by (apply Z.div_pos; lia). split_and!; [nia|nia|nia|]. intros _. nia.
    - lia. }
  destruct Hm as (Hm & Hle & Hlt). rewrite (mark_of_unique (rows_of g) row (Z.to_nat m)); [lia|apply ok_nonneg; by apply rows_of_ok|lia|lia| |].
  - rewrite sum_rows_of by (done || lia). rewrite Z2Nat.id by lia. destruct (Z.ltb_spec m (num_marks_without_final g)); lia.
  - intros Hml. rewrite sum_rows_of by (done || lia). destruct (Z.ltb_spec (Z.of_nat (S (Z.to_nat m))) (num_marks_without_final g)).
    + specialize (Hlt ltac:(lia)). lia.
    + destruct (Z.eqb_spec (num_marks_without_final g) 0); lia.
Qed.

Lemma constant_upper_bound_spec g row : wf g -> 0 <= row -> getMarkUpperBoundForRow g row = Z.of_nat (mark_of (rows_of g) row).
Proof.
  intros H Hr. unfold getMarkUpperBoundForRow. rewrite constant_total_spec by done. destruct (Z.leb_spec (Zsum (rows_of g)) row) as [Hle|Hlt].
  - rewrite constant_count_spec by done. f_equal. symmetry. apply mark_of_unique; [apply ok_nonneg; by apply rows_of_ok|done|lia| |lia]. by rewrite firstn_all.
  - destruct (mark_of_row g row H ltac:(lia)) as [Hz ->]. destruct (constant_product g H Hz) as [Hp ->]. rewrite Z.mul_comm.
    rewrite uwrap_small by (unfold in_unsigned; lia).
    destruct (Z.leb_spec (constant_granularity g * (num_marks_without_final g - 1)) row), (Z.ltb_spec row (constant_granularity g * (num_marks_without_final g - 1))); lia.
Qed.

Lemma nonempty_marks g : wf g -> rows_of g <> [] <-> num_marks_without_final g <> 0.
Proof.
  intros H. pose proof (constant_length_rows_of g H) as Hl. pose proof (wf_final g H) as Hf. pose proof (wf_marks g H) as Hn. split.
  - intros Hne E. rewrite E in Hl. destruct (has_final_mark g); [by apply Hf|]. simpl in Hl. by destruct (rows_of g).
  - intros Hz E. rewrite E in Hl. destruct (has_final_mark g); simpl in Hl; lia.
Qed.

Lemma last_rows_of g : wf g -> last (rows_of g) = Some 0 <-> has_final_mark g = true.
Proof.
  intros [Hn _ Hc Hla _ _]. unfold rows_of. destruct (has_final_mark g); [by rewrite last_snoc|]. rewrite app_nil_r.
  destruct (Z.eqb_spec (num_marks_without_final g) 0); [done|]. rewrite last_snoc. split; [intros [=]; lia|done].
Qed.

Lemma constant_append_spec g n : wf g -> growing g -> n = constant_granularity g -> Zsum (rows_of g) + n < 2 ^ 62 ->
  Z.of_nat (length (rows_of g)) + 1 < 2 ^ 62 ->
  exists g', constant_append_mark n g = Ok g' /\ rows_of g' = rows_of g ++ [n] /\ wf g' /\ growing g' /\
    Some (constant_granularity g') = Some (constant_granularity g).
Proof.
  intros H [Hf Hg] -> Ht Hl. rewrite total_sum in Ht by done. rewrite (constant_length_rows_of g H), Hf in Hl. pose proof H as [Hn _ Hc Hla _ _]. unfold constant_append_mark.
  rewrite Hf, Z.eqb_refl. destruct (Z.eqb_spec (constant_granularity g) 0); [lia|]. cbn [negb].
  rewrite uwrap_small by (unfold in_unsigned; lia). eexists. split; [done|]. split; [|split; [|done]].
  - unfold rows_of. simpl. rewrite Hf, Hg, !app_nil_r. destruct (Z.eqb_spec (num_marks_without_final g + 1) 0); [lia|].
    destruct (Z.eqb_spec (num_marks_without_final g) 0) as [->|]; [done|].
    f_equal. rewrite <- replicate_cons_app. by replace (Z.to_nat (num_marks_without_final g + 1 - 1)) with (S (Z.to_nat (num_marks_without_final g - 1))) by lia.
  - simpl in Hl. split; simpl; try done; [lia|rewrite Hf; simpl; lia|congruence|]. intros _. rewrite Hg in *.
    destruct (Z.eqb_spec (num_marks_without_final g) 0); nia.
Qed.

Lemma constant_adjust_spec g n before old : wf g -> rows_of g = before ++ [old] -> 0 < old -> 0 < n -> Zsum before + n < 2 ^ 62 ->
  exists g', constant_adjust_last_mark n g = Ok g' /\ rows_of g' = before ++ [n] /\ wf g' /\
    Some (constant_granularity g') = Some (constant_granularity g).
Proof.
  intros H E Ho Hn Ht. assert (Hf : has_final_mark g = false).
  { apply not_true_iff_false. rewrite <- last_rows_of, E, last_snoc by done. intros [=]. lia. }
  assert (Hz : num_marks_without_final g <> 0) by (apply nonempty_marks; [done|]; rewrite E; by destruct before).
  unfold constant_adjust_last_mark. rewrite Hf. destruct (Z.eqb_spec (num_marks_without_final g) 0); [done|]. eexists. split; [done|].
  assert (Eb : before = replicate (Z.to_nat (num_marks_without_final g - 1)) (constant_granularity g)).
  { unfold rows_of in E. rewrite Hf, app_nil_r in E. destruct (Z.eqb_spec (num_marks_without_final g) 0); [done|]. by apply app_inj_tail in E as [? _]. }
  pose proof H as [Hm Hcnt Hc Hla _ _]. rewrite Eb, Zsum_replicate in Ht. rewrite Eb. split; [|split; [|done]].
  - unfold rows_of. simpl. rewrite Hf, app_nil_r. by destruct (Z.eqb_spec (num_marks_without_final g) 0).
  - split; simpl; try done; [|intros _]; nia.
Qed.

Lemma rows_constant g : growing g -> Forall (fun n => n = constant_granularity g) (rows_of g).
Proof.
  intros [Hf Hg]. unfold rows_of. rewrite Hf, Hg, app_nil_r. destruct (_ =? 0); [done|]. apply Forall_app_2; [|by apply Forall_singleton].
  by apply Forall_replicate.
Qed.

(** A mark with rows is not the final one. *)
Lemma constant_before_final g begin n : wf g -> rows_of g !! begin = Some n -> 0 < n -> Z.of_nat begin < num_marks_without_final g.
Proof.
  intros H Hb Hn. pose proof (lookup_lt_Some _ _ _ Hb) as Hlt. rewrite lookup_rows_of in Hb by done. injection Hb as <-.
  destruct (Z.ltb_spec (Z.of_nat begin + 1) (num_marks_without_final g)); [lia|].
  destruct (Z.eqb_spec (Z.of_nat begin + 1) (num_marks_without_final g)); lia.
Qed.

(** The rows before a mark. *)
Lemma constant_start_spec g m : wf g -> (m <= length (rows_of g))%nat ->
  constant_rows_count_in_range g 0 (Z.of_nat m) = Ok (Zsum (take m (rows_of g))).
Proof.
  intros H Hm. change 0 with (Z.of_nat 0) at 1. assert (num_marks_without_final g <> 0 \/ m = 0%nat).
  { destruct m; [by right|left]. apply nonempty_marks; [done|]. intros E. rewrite E in Hm. simpl in Hm. lia. }
  rewrite (constant_range_spec g 0 m) by (done || lia || by right). destruct (Nat.eqb_spec m 0) as [->|]; [done|].
  unfold rows_between. simpl. by rewrite Z.sub_0_r.
Qed.

#[global] Instance constant_laws : GranularityLaws MergeTreeIndexGranularityConstant rows_of wf growing.
Proof.
  split.
  - apply rows_of_ok.
  - apply constant_count_spec.
  - intros g i H. simpl. unfold constant_mark_rows. rewrite constant_count_spec by done. destruct (Z.leb_spec (Z.of_nat (length (rows_of g))) (Z.of_nat i)).
    { by rewrite lookup_ge_None_2 by lia. }
    rewrite lookup_rows_of by (done || lia). pose proof (ok_length _ (rows_of_ok g H)). rewrite uwrap_small by (unfold in_unsigned; lia).
    by destruct (Z.of_nat i + 1 <? num_marks_without_final g), (Z.of_nat i + 1 =? num_marks_without_final g).
  - apply constant_total_spec.
  - intros g H. simpl. f_equal. pose proof (last_rows_of g H) as Hl. destruct (has_final_mark g).
    + symmetry. by apply bool_decide_eq_true_2, Hl.
    + symmetry. apply bool_decide_eq_false_2. intros E. by apply Hl in E.
  - intros g m H. simpl. destruct (Nat.ltb_spec (length (rows_of g)) m) as [Hlt|Hge]; [|by apply constant_start_spec].
    unfold constant_rows_count_in_range. rewrite constant_count_spec by done. by destruct (Z.ltb_spec (Z.of_nat (length (rows_of g))) (Z.of_nat m)); [|lia].
  - intros g begin end_ n H Hb Hn Hr. simpl. pose proof (constant_before_final g begin n H Hb Hn). apply constant_range_spec; try done || lia.
  - intros g row H Hr. simpl. unfold constant_mark_range_for_row_offset. destruct (mark_of_row g row H Hr) as [Hz Hm].
    destruct (constant_product g H Hz) as [Hp ->]. rewrite uwrap_small by (unfold in_unsigned; lia). rewrite <- Hm.
    pose proof (ok_length _ (rows_of_ok g H)). destruct (mark_of_spec (rows_of g) row (ok_nonneg _ (rows_of_ok g H)) ltac:(lia)) as [Hle _].
    rewrite uwrap_small by (unfold in_unsigned; lia). done.
  - intros g from n H Hn Hf. simpl. pose proof (rows_of_ok g H) as Hok. unfold constant_count_marks_for_rows. rewrite constant_start_spec by done. cbn [rbind].
    pose proof (ok_prefix _ from Hok). pose proof (ok_total _ Hok). rewrite (uwrap_small 64 (_ + n)) by (unfold in_unsigned; lia).
    rewrite constant_upper_bound_spec by (done || lia). f_equal. pose proof (mark_of_ge (rows_of g) from (Zsum (take from (rows_of g)) + n) Hok Hf ltac:(lia)).
    destruct (mark_of_spec (rows_of g) (Zsum (take from (rows_of g)) + n) (ok_nonneg _ Hok) ltac:(lia)) as [Hle _].
    pose proof (ok_length _ Hok). apply uwrap_small. unfold in_unsigned. lia.
  - intros g from n offset r H Hn Ho Hf Hr. simpl. pose proof (rows_of_ok g H) as Hok. pose proof (lookup_lt_Some _ _ _ Hf) as Hlt.
    pose proof (constant_before_final g from r H Hf Hr). unfold constant_count_rows_for_rows. rewrite constant_start_spec by (done || lia). cbn [rbind].
    pose proof (ok_prefix _ from Hok). pose proof (ok_total _ Hok). rewrite (uwrap_small 64 (_ + n)) by (unfold in_unsigned; lia).
    rewrite constant_upper_bound_spec by (done || lia). set (row := Zsum (take from (rows_of g)) + offset + n).
    pose proof (mark_of_ge (rows_of g) from row Hok ltac:(lia) ltac:(lia)).
    destruct (mark_of_spec (rows_of g) row (ok_nonneg _ Hok) ltac:(lia)) as [Hle _].
    replace (Z.max 1 (Z.of_nat (mark_of (rows_of g) row))) with (Z.of_nat (Nat.max 1 (mark_of (rows_of g) row))) by lia.
    rewrite constant_range_spec by (done || lia). by destruct (Nat.eqb_spec (Nat.max 1 (mark_of (rows_of g) row)) 0); [lia|].
  - intros g n H Hg Hn Ht Hl. by apply constant_append_spec.
  - intros g H Hf Hne Hl. rewrite (constant_length_rows_of g H) in Hl. apply (nonempty_marks g H) in Hne. assert (Ef : has_final_mark g = false)
      by (apply not_true_iff_false; by rewrite <- last_rows_of).
    simpl. unfold constant_append_mark. rewrite Ef. eexists. split; [done|]. split.
    + unfold rows_of. simpl. by rewrite Ef, app_nil_r.
    + rewrite Ef in Hl. destruct H. split; simpl in *; try done. lia.
  - intros g n before old H E Ho Hn Ht. destruct (constant_adjust_spec g n before old H E Ho Hn Ht) as (g' & E1 & E2 & Hw & Ec). exists g'. simpl in *. by split_and!.
  - intros g H Hg. eapply Forall_impl; [by apply rows_constant|]. intros n ->. by destruct (wf_constant g H).
  - intros g c H Hg [= <-]. split; [by destruct (wf_constant g H)|by apply rows_constant].
Qed.

End ConstantProofs.

(** * [optimize] *)

Section Optimize.
Import AdaptiveProofs.

Lemma all_equal_spec g first i n : wf g -> (Z.to_nat i + n <= length (rows_of g))%nat -> 0 <= i ->
  exists b, Adaptive.all_equal g first i n = Ok b /\
    (b = true -> forall j, (Z.to_nat i <= j < Z.to_nat i + n)%nat -> rows_of g !! j = Some first) /\
    (b = false -> exists j, (Z.to_nat i <= j < Z.to_nat i + n)%nat /\ rows_of g !! j <> Some first).
Proof.
  intros H. revert i. induction n as [|n IH]; intros i Hn Hi; cbn [Adaptive.all_equal]; [exists true; split_and!; [done|intros; lia|done]|].
  pose proof (adaptive_mark_rows_spec g (Z.to_nat i) H) as Em. rewrite Z2Nat.id in Em by lia. rewrite Em.
  destruct (lookup_lt_is_Some_2 (rows_of g) (Z.to_nat i) ltac:(lia)) as [r Hr]. rewrite Hr. cbn [rbind].
  destruct (Z.eqb_spec r first) as [->|].
  2: { exists false. split_and!; [done|done|]. intros _. exists (Z.to_nat i). split; [lia|congruence]. }
  destruct (IH (i + 1)) as (b & -> & Ht & Hf); [lia|lia|]. exists b. split_and!; [done| |].
  - intros E j Hj. destruct (decide (j = Z.to_nat i)) as [->|]; [done|]. apply Ht; [done|lia].
  - intros E. destruct (Hf E) as (j & Hj & Hne). exists j. split; [lia|done].
Qed.

(** The number of marks with rows. *)
Lemma marks_without_final g : wf g -> exists n, getMarksCountWithoutFinal g = Ok (Z.of_nat n) /\
  Z.of_nat (length (rows_of g)) = Z.of_nat n + Z.b2z (bool_decide (last (rows_of g) = Some 0)) /\
  forall i r, rows_of g !! i = Some r -> (i < n)%nat -> 0 < r.
Proof.
  intros H. unfold getMarksCountWithoutFinal. rewrite (law_count g H), (law_final g H). set (f := bool_decide _).
  exists (length (rows_of g) - Z.to_nat (Z.b2z f))%nat. assert (Hf : f = true -> rows_of g <> []) by (intros E%bool_decide_eq_true En; by rewrite En in E).
  assert (Hl : (f = true -> 1 <= length (rows_of g))%nat) by (intros E; specialize (Hf E); destruct (rows_of g); simpl; lia || done).
  split_and!.
  - destruct (Z.eqb_spec (Z.of_nat (length (rows_of g))) 0); [f_equal; lia|]. cbn [rbind]. f_equal.
    pose proof (ok_length _ H). destruct f; simpl; [specialize (Hl eq_refl)|]; rewrite uwrap_small; unfold in_unsigned; lia.
  - destruct f; simpl; [specialize (Hl eq_refl)|]; lia.
  - intros i r Hr Hi. destruct (ok_positive _ H i r Hr) as [H0 Hz]. destruct (Z.eq_dec r 0) as [->|]; [|lia]. specialize (Hz eq_refl).
    assert (E : f = true) by (apply bool_decide_eq_true; rewrite last_lookup, <- Hz; done). rewrite E in Hi. simpl in Hi. lia.
Qed.

Lemma optimize_spec g : wf g ->
  exists o, Adaptive.optimize g = Ok o /\
    match o with
    | Some g' => ConstantProofs.wf g' /\ ConstantProofs.rows_of g' = rows_of g
    | None => getMarksCountWithoutFinal g = Ok 0 \/ exists i, (0 < i)%nat /\ rows_of g !! i <> rows_of g !! 0%nat /\
        exists n, getMarksCountWithoutFinal g = Ok n /\ Z.of_nat i < n - 1
    end.
Proof.
  intros H. unfold Adaptive.optimize. destruct (marks_without_final g H) as (n & Hc & Hl & Hpos). rewrite Hc. cbn [rbind].
  destruct (Z.eqb_spec (Z.of_nat n) 0) as [E0|Hn]; [exists None; split; [done|left; by rewrite E0]|]. pose proof H as Hok. pose proof (ok_length _ Hok) as Hlen.
  set (f := bool_decide (last (rows_of g) = Some 0)) in *. assert (Hnl : (n <= length (rows_of g))%nat) by (destruct f; simpl in Hl; lia).
  destruct (lookup_lt_is_Some_2 (rows_of g) 0 ltac:(lia)) as [first Hfirst].
  destruct (lookup_lt_is_Some_2 (rows_of g) (n - 1) ltac:(lia)) as [lst Hlst].
  rewrite (adaptive_mark_rows_spec g 0 H : Adaptive.adaptive_mark_rows g 0 = _), Hfirst. cbn [rbind].
  destruct (all_equal_spec g first 1 (Z.to_nat (Z.of_nat n - 2)) H ltac:(lia) ltac:(lia)) as (b & -> & Hb & Hdiff). cbn [rbind].
  destruct b; cbn [negb].
  2: { exists None. split; [done|]. right. destruct (Hdiff eq_refl) as (j & Hj & Hne). exists j. split; [lia|]. split; [congruence|].
    exists (Z.of_nat n). split; [done|lia]. }
  replace (Z.of_nat n - 1) with (Z.of_nat (n - 1)) by lia. rewrite adaptive_mark_rows_spec, Hlst by done. cbn [rbind].
  rewrite adaptive_has_final_spec by done. cbn [rbind]. fold f. eexists. split; [done|]. specialize (Hb eq_refl).
  pose proof (Hpos 0%nat first Hfirst ltac:(lia)) as Hf0. pose proof (Hpos (n - 1)%nat lst Hlst ltac:(lia)) as Hl0.
  set (g' := {| constant_granularity := first |}).
  assert (Hat : forall i, (i < n)%nat -> rows_of g !! i = Some (if Z.of_nat i + 1 <? Z.of_nat n then first else lst)).
  { intros i Hi. destruct (Z.ltb_spec (Z.of_nat i + 1) (Z.of_nat n)).
    - destruct i as [|i]; [done|]. apply Hb. lia.
    - by replace i with (n - 1)%nat by lia. }
  assert (Hsum : forall m, (m < n)%nat -> Zsum (take m (rows_of g)) = first * Z.of_nat m).
  { intros m. induction m as [|m IH]; intros Hm; [simpl; lia|]. rewrite (Zsum_take_S _ m _ (Hat m ltac:(lia))), IH by lia.
    destruct (Z.ltb_spec (Z.of_nat m + 1) (Z.of_nat n)); lia. }
  pose proof (Zsum_take_S _ _ _ Hlst) as Hs. replace (S (n - 1)) with n in Hs by lia. rewrite (Hsum (n - 1)%nat) in Hs by lia.
  pose proof (ok_prefix _ n Hok) as Hp. pose proof (ok_total _ Hok) as Ht. pose proof (ok_prefix _ 1 Hok) as Hp1.
  rewrite (Zsum_take_S _ _ _ Hfirst) in Hp1. simpl in Hp1.
  assert (Hw : ConstantProofs.wf g').
  { split; simpl; [lia|lia|lia|nia|lia|intros _]. replace (Z.of_nat n - 1) with (Z.of_nat (n - 1)) by lia. lia. }
  split; [done|]. apply list_eq_same_length with (n := length (rows_of g)); [done|pose proof (ConstantProofs.constant_length_rows_of g' Hw) as E; simpl in E; lia|].
  intros i x y Hi Hx Hy. pose proof (ConstantProofs.constant_length_rows_of g' Hw) as El. simpl in El. rewrite ConstantProofs.lookup_rows_of in Hx by (done || lia).
  injection Hx as <-. simpl. destruct (Nat.lt_ge_cases i n) as [Hin|Hin].
  - rewrite (Hat i Hin) in Hy. injection Hy as <-. destruct (Z.ltb_spec (Z.of_nat i + 1) (Z.of_nat n)); [done|].
    by destruct (Z.eqb_spec (Z.of_nat i + 1) (Z.of_nat n)); [|lia].
  - destruct (Z.ltb_spec (Z.of_nat i + 1) (Z.of_nat n)); [lia|]. destruct (Z.eqb_spec (Z.of_nat i + 1) (Z.of_nat n)); [lia|].
    destruct f eqn:Ef; [|simpl in Hl; lia]. apply bool_decide_eq_true in Ef. rewrite last_lookup in Ef. simpl in Hl.
    replace (Nat.pred (length (rows_of g))) with i in Ef by lia. congruence.
Qed.

End Optimize.



(** * Where the representations differ *)

(** The rows of the final mark are none, but the constant granularity subtracts. *)
Lemma rows_of_final_mark :
  getRowsCountInRange {| marks_rows_partial_sums := [10; 20; 25; 25] |} 3 4 = Ok 0 /\
  getRowsCountInRange {| constant_granularity := 10; last_mark_granularity := 5; num_marks_without_final := 3; has_final_mark := true |} 3 4 =
    Ok (2 ^ 64 - 5).
Proof. done. Qed.

(** A mark appended after the last one was adjusted takes over its number of rows. *)
Lemma append_after_adjust :
  (let! g := adjustLastMark 5 {| marks_rows_partial_sums := [10; 20] |} in
   let! g := appendMark 10 g in let! a := getMarkRows g 1 in let! b := getMarkRows g 2 in Ok (a, b)) = Ok (5, 10) /\
  (let! g := adjustLastMark 5 {| constant_granularity := 10; last_mark_granularity := 10; num_marks_without_final := 2; has_final_mark := false |} in
   let! g := appendMark 10 g in let! a := getMarkRows g 1 in let! b := getMarkRows g 2 in Ok (a, b)) = Ok (10, 5).
Proof. done. Qed.
