(* ===== verification/GranularityPtr.v ===== *)
(** The index granularity that a part owns: [MergeTreeIndexGranularityPtr], which is
    constant or adaptive (src/Storages/MergeTree/MergeTreeIndexGranularity.{h,cpp},
    [createMergeTreeIndexGranularity]). *)
From S2P Require Import Prelude IndexGranularity.

Inductive MergeTreeIndexGranularityPtr :=
| ConstantPtr (g : MergeTreeIndexGranularityConstant)
| AdaptivePtr (g : MergeTreeIndexGranularityAdaptive).

(** The methods are virtual. *)
Definition on_ptr {A} (c : MergeTreeIndexGranularityConstant -> A) (a : MergeTreeIndexGranularityAdaptive -> A)
    (p : MergeTreeIndexGranularityPtr) : A :=
  match p with ConstantPtr g => c g | AdaptivePtr g => a g end.

Definition update_ptr (c : MergeTreeIndexGranularityConstant -> result MergeTreeIndexGranularityConstant)
    (a : MergeTreeIndexGranularityAdaptive -> result MergeTreeIndexGranularityAdaptive)
    (p : MergeTreeIndexGranularityPtr) : result MergeTreeIndexGranularityPtr :=
  match p with
  | ConstantPtr g => let! g := c g in Ok (ConstantPtr g)
  | AdaptivePtr g => let! g := a g in Ok (AdaptivePtr g)
  end.

#[global] Instance ptr_methods : MergeTreeIndexGranularity MergeTreeIndexGranularityPtr := {|
  getConstantGranularity := on_ptr getConstantGranularity getConstantGranularity;
  getRowsCountInRange := on_ptr getRowsCountInRange getRowsCountInRange;
  countMarksForRows := on_ptr countMarksForRows countMarksForRows;
  countRowsForRows := on_ptr countRowsForRows countRowsForRows;
  getMarksCount := on_ptr getMarksCount getMarksCount;
  getTotalRows := on_ptr getTotalRows getTotalRows;
  getMarkRows := on_ptr getMarkRows getMarkRows;
  getMarkRangeForRowOffset := on_ptr getMarkRangeForRowOffset getMarkRangeForRowOffset;
  hasFinalMark := on_ptr hasFinalMark hasFinalMark;
  appendMark rows := update_ptr (appendMark rows) (appendMark rows);
  adjustLastMark rows := update_ptr (adjustLastMark rows) (adjustLastMark rows) |}.

(** [optimize]; there is no other representation of a constant granularity. *)
Definition ptr_optimize (p : MergeTreeIndexGranularityPtr) : result (option MergeTreeIndexGranularityPtr) :=
  match p with
  | ConstantPtr _ => Ok None
  | AdaptivePtr g => let! o := Adaptive.optimize g in Ok (ConstantPtr <$> o)
  end.

(** [createMergeTreeIndexGranularity] *)
Definition createMergeTreeIndexGranularity (rows bytes_uncompressed index_granularity_bytes index_granularity : Z)
    (use_const_adaptive_granularity use_adaptive_granularity is_compact_part blocks_are_granules : bool) : MergeTreeIndexGranularityPtr :=
  if (rows =? 0) || blocks_are_granules || is_compact_part || (use_adaptive_granularity && negb use_const_adaptive_granularity)
  then AdaptivePtr {| marks_rows_partial_sums := [] |}
  else ConstantPtr (Constant.constant_create
    (computeIndexGranularity rows bytes_uncompressed index_granularity_bytes index_granularity blocks_are_granules use_adaptive_granularity)).

(** * The laws *)

Definition rows_of : MergeTreeIndexGranularityPtr -> list Z := on_ptr ConstantProofs.rows_of AdaptiveProofs.rows_of.
Definition wf : MergeTreeIndexGranularityPtr -> Prop := on_ptr ConstantProofs.wf AdaptiveProofs.wf.
Definition growing : MergeTreeIndexGranularityPtr -> Prop := on_ptr ConstantProofs.growing AdaptiveProofs.growing.

Lemma update_constant f a g (P : MergeTreeIndexGranularityPtr -> Prop) :
  (exists g', f g = Ok g' /\ P (ConstantPtr g')) -> exists p, update_ptr f a (ConstantPtr g) = Ok p /\ P p.
Proof. intros (g' & E & H). exists (ConstantPtr g'). simpl. by rewrite E. Qed.

Lemma update_adaptive f c g (P : MergeTreeIndexGranularityPtr -> Prop) :
  (exists g', f g = Ok g' /\ P (AdaptivePtr g')) -> exists p, update_ptr c f (AdaptivePtr g) = Ok p /\ P p.
Proof. intros (g' & E & H). exists (AdaptivePtr g'). simpl. by rewrite E. Qed.

#[global] Instance ptr_laws : GranularityLaws MergeTreeIndexGranularityPtr rows_of wf growing.
Proof.
  pose proof ConstantProofs.constant_laws as HC. pose proof AdaptiveProofs.adaptive_laws as HA. split; intros [g|g].
  - exact (law_ok (GranularityLaws := HC) g).
  - exact (law_ok (GranularityLaws := HA) g).
  - exact (law_count (GranularityLaws := HC) g).
  - exact (law_count (GranularityLaws := HA) g).
  - exact (law_rows (GranularityLaws := HC) g).
  - exact (law_rows (GranularityLaws := HA) g).
  - exact (law_total (GranularityLaws := HC) g).
  - exact (law_total (GranularityLaws := HA) g).
  - exact (law_final (GranularityLaws := HC) g).
  - exact (law_final (GranularityLaws := HA) g).
  - exact (law_starting (GranularityLaws := HC) g).
  - exact (law_starting (GranularityLaws := HA) g).
  - exact (law_range (GranularityLaws := HC) g).
  - exact (law_range (GranularityLaws := HA) g).
  - exact (law_row_offset (GranularityLaws := HC) g).
  - exact (law_row_offset (GranularityLaws := HA) g).
  - exact (law_count_marks (GranularityLaws := HC) g).
  - exact (law_count_marks (GranularityLaws := HA) g).
  - exact (law_count_rows (GranularityLaws := HC) g).
  - exact (law_count_rows (GranularityLaws := HA) g).
  - intros. apply update_constant. by apply (law_append (GranularityLaws := HC)).
  - intros. apply update_adaptive. by apply (law_append (GranularityLaws := HA)).
  - intros. apply update_constant. by apply (law_append_final (GranularityLaws := HC)).
  - intros. apply update_adaptive. by apply (law_append_final (GranularityLaws := HA)).
  - intros. apply update_constant. by apply (law_adjust (GranularityLaws := HC) _ _ _ old).
  - intros. apply update_adaptive. by apply (law_adjust (GranularityLaws := HA) _ _ _ old).
  - exact (law_growing (GranularityLaws := HC) g).
  - exact (law_growing (GranularityLaws := HA) g).
  - exact (law_constant (GranularityLaws := HC) g).
  - exact (law_constant (GranularityLaws := HA) g).
Qed.

(** [optimize] keeps the marks. *)
Lemma ptr_optimize_spec p : wf p -> exists o, ptr_optimize p = Ok o /\ forall p', o = Some p' -> wf p' /\ rows_of p' = rows_of p.
Proof.
  destruct p as [g|g]; simpl; intros H; [by exists None|]. destruct (optimize_spec g H) as (o & -> & Ho). eexists. split; [done|].
  destruct o as [g'|]; intros p'; [|done]. by intros [= <-].
Qed.

(** A new granularity has no marks yet, and can grow. *)
Lemma create_spec rows bytes_uncompressed gran_bytes gran const adaptive :
  0 < rows -> 0 <= bytes_uncompressed -> 0 < gran_bytes -> 0 < gran < 2 ^ 60 ->
  let p := createMergeTreeIndexGranularity rows bytes_uncompressed gran_bytes gran const adaptive false false in
  wf p /\ growing p /\ rows_of p = [] /\ (forall c, getConstantGranularity p = Some c -> c <= gran) /\
  (getConstantGranularity p = None -> adaptive = true).
Proof.
  intros Hr Hb Hg Hi. unfold createMergeTreeIndexGranularity. rewrite (proj2 (Z.eqb_neq rows 0)) by lia. cbn [orb].
  destruct (adaptive && negb const) eqn:E; simpl.
  - apply andb_true_iff in E as [-> _]. by split_and!.
  - set (n := computeIndexGranularity _ _ _ _ _ _). assert (Hn : 0 < n <= gran); [|split_and!; try done; [split; simpl; lia|intros c [= <-]; lia]].
    unfold n, computeIndexGranularity. cbn [negb]. match goal with |- 0 < (if ?x =? 0 then _ else _) <= _ => set (k := x) end.
    assert (0 <= k <= gran).
    { unfold k. assert (forall x, 0 <= x -> 0 <= Z.min gran x <= gran) as Hmin by lia. apply Hmin.
      repeat case_match; try lia; apply Z_div_nonneg_nonneg; try lia; apply Z_div_nonneg_nonneg; lia. }
    destruct (Z.eqb_spec k 0); lia.
Qed.
