(* ===== verification/Granules.v ===== *)
(** How the rows of a block are cut into granules
    (src/Storages/MergeTree/MergeTreeDataPartWriterWide.cpp, [getGranulesToWrite] and
    [fillIndexGranularity]). *)
From S2P Require Import Prelude IndexGranularity.

(** * Granules *)

Record Granule := {
  start_row : Z;
  rows_to_write : Z;
  mark_number : Z;
  mark_on_start : bool;
  is_complete : bool }.

Section Granules.
Context {G : Type} `{!MergeTreeIndexGranularity G}.
Implicit Types g : G.

(** The loop over the granules that begin in the block. *)
Fixpoint granules_loop (fuel : nat) g (block_rows current_row current_mark : Z) : result (list Granule) :=
  if block_rows <=? current_row then Ok []
  else match fuel with
  | O => Throw OUT_OF_FUEL
  | S fuel =>
      let! expected_rows_in_mark := getMarkRows g current_mark in
      let rows_left_in_block := block_rows - current_row in
      let granule := {|
        start_row := current_row;
        rows_to_write := Z.min rows_left_in_block expected_rows_in_mark;
        mark_number := current_mark;
        mark_on_start := true;
        is_complete := expected_rows_in_mark <=? rows_left_in_block |} in
      let! granules := granules_loop fuel g block_rows (current_row + rows_to_write granule) (current_mark + 1) in
      Ok (granule :: granules)
  end.

(** [getGranulesToWrite] *)
Definition getGranulesToWrite g (block_rows current_mark rows_written_in_last_mark : Z) : result (list Granule) :=
  if getMarksCount g <=? current_mark then Throw LOGICAL_ERROR
  else if 0 <? rows_written_in_last_mark then
    let! mark_rows := getMarkRows g current_mark in
    let rows_left_in_last_mark := uwrap 64 (mark_rows - rows_written_in_last_mark) in
    let granule := {|
      start_row := 0;
      rows_to_write := Z.min block_rows rows_left_in_last_mark;
      mark_number := current_mark;
      mark_on_start := false;
      is_complete := rows_left_in_last_mark <=? block_rows |} in
    let! granules := granules_loop (Z.to_nat block_rows) g block_rows (rows_to_write granule) (current_mark + 1) in
    Ok (granule :: granules)
  else granules_loop (Z.to_nat block_rows) g block_rows 0 current_mark.

(** [fillIndexGranularityImpl] *)
Fixpoint fill_loop (fuel : nat) (index_granularity_for_block rows_in_block current_row : Z) g : result G :=
  if rows_in_block <=? current_row then Ok g
  else match fuel with
  | O => Throw OUT_OF_FUEL
  | S fuel =>
      let! g := appendMark index_granularity_for_block g in
      fill_loop fuel index_granularity_for_block rows_in_block (current_row + index_granularity_for_block) g
  end.

(** [fillIndexGranularity] *)
Definition fillIndexGranularity (index_granularity_for_block rows_in_block current_mark rows_written_in_last_mark : Z) g : result G :=
  if (current_mark <? getMarksCount g) && negb (current_mark =? uwrap 64 (getMarksCount g - 1)) then Throw LOGICAL_ERROR
  else
    let! index_offset :=
      if negb (rows_written_in_last_mark =? 0)
      then let! last := getLastMarkRows g in Ok (uwrap 64 (last - rows_written_in_last_mark)) else Ok 0 in
    fill_loop (Z.to_nat rows_in_block) index_granularity_for_block rows_in_block index_offset g.

End Granules.

(** * Proofs *)

(** Granules that cover the rows of a block from [row] to [block_rows], beginning in mark
    [m] after [written] rows of it; in the end there are [written'] rows in mark [m']. *)
Inductive covers (rows : list Z) (block_rows : Z) : nat -> Z -> Z -> list Granule -> nat -> Z -> Prop :=
  | covers_nil m written : covers rows block_rows m written block_rows [] m written
  | covers_complete m written row r granules m' written' :
      rows !! m = Some r -> 0 <= written < r -> row < block_rows -> r - written <= block_rows - row ->
      covers rows block_rows (S m) 0 (row + (r - written)) granules m' written' ->
      covers rows block_rows m written row
        ({| start_row := row; rows_to_write := r - written; mark_number := Z.of_nat m; mark_on_start := written =? 0; is_complete := true |} :: granules)
        m' written'
  | covers_partial m written row r :
      rows !! m = Some r -> 0 <= written < r -> row < block_rows -> block_rows - row < r - written ->
      covers rows block_rows m written row
        [{| start_row := row; rows_to_write := block_rows - row; mark_number := Z.of_nat m; mark_on_start := written =? 0; is_complete := false |}]
        m (written + (block_rows - row)).

(** All rows are written to the marks. *)
Lemma covers_sum rows block_rows m written row granules m' written' :
  covers rows block_rows m written row granules m' written' -> 0 <= written -> (0 < written -> exists r, rows !! m = Some r /\ written < r) ->
  Zsum (take m' rows) + written' = Zsum (take m rows) + written + (block_rows - row) /\ 0 <= written' /\
  (0 < written' -> exists r, rows !! m' = Some r /\ written' < r) /\ ((m <= length rows)%nat -> (m' <= length rows)%nat).
Proof.
  induction 1 as [m written|m written row r granules m' written' Hr Hw Hrow Hfit H IH|m written row r Hr Hw Hrow Hfit]; intros H0 Hm.
  - split_and!; [lia|done|done|done].
  - destruct IH as (IH & ? & ? & Hle); [lia|lia|]. rewrite (Zsum_take_S rows m r Hr) in IH. split_and!; [lia|done|done|].
    intros _. apply Hle. apply lookup_lt_Some in Hr. lia.
  - split_and!; [lia|lia| |done]. intros _. exists r. split; [done|]. lia.
Qed.

(** Where the writer is after the granules. *)
Lemma covers_shift rows block_rows m written row granules m' written' :
  covers rows block_rows m written row granules m' written' -> row < block_rows ->
  exists g, last granules = Some g /\
    (if is_complete g then m' = (m + length granules)%nat /\ written' = 0
     else m' = (m + length granules - 1)%nat /\
       written' = if (Z.of_nat (length granules) =? 1) then written + rows_to_write g else rows_to_write g).
Proof.
  induction 1 as [m written|m written row r granules m' written' Hr Hw Hrow Hfit H IH|m written row r Hr Hw Hrow Hfit]; intros Hlt; [lia| |].
  - destruct granules as [|g0 granules]; [inversion H; subst; eexists; split; [done|]; simpl; lia|].
    destruct IH as (g & Hg & E); [inversion H; subst; lia|]. exists g. rewrite last_cons, Hg. split; [done|].
    destruct (is_complete g); destruct E as [-> E]; (split; [simpl; lia|]); [done|].
    rewrite E. clear E. destruct (Z.eqb_spec (Z.of_nat (length (g0 :: granules))) 1);
      match goal with |- context [?x =? 1] => destruct (Z.eqb_spec x 1) end; simpl in *; lia.
  - eexists. split; [done|]. simpl. split; lia.
Qed.

Section GranulesProofs.
Context {G : Type} `{!MergeTreeIndexGranularity G} (rows_of : G -> list Z) (wf growing : G -> Prop) `{!GranularityLaws G rows_of wf growing}.
Implicit Types g : G.

(** If rows are left, the next mark has some. *)
Lemma next_mark_rows g m : wf g -> Zsum (take m (rows_of g)) < Zsum (rows_of g) -> exists r, rows_of g !! m = Some r /\ 0 < r.
Proof.
  intros Hg Hlt. pose proof (law_ok g Hg) as Hok. destruct (rows_of g !! m) as [r|] eqn:Er; [|apply lookup_ge_None in Er; rewrite take_ge in Hlt by done; lia].
  exists r. split; [done|]. destruct (ok_positive _ Hok m r Er) as [Hr Hz]. destruct (Z.eq_dec r 0) as [->|]; [|lia]. specialize (Hz eq_refl).
  rewrite <- (firstn_all (rows_of g)) in Hlt at 2. rewrite <- Hz, (Zsum_take_S _ _ _ Er) in Hlt. lia.
Qed.

Lemma granules_loop_spec fuel g block_rows row m :
  wf g -> 0 <= row <= block_rows -> block_rows - row <= Z.of_nat fuel -> Zsum (take m (rows_of g)) + (block_rows - row) <= Zsum (rows_of g) ->
  exists granules m' written', granules_loop fuel g block_rows row (Z.of_nat m) = Ok granules /\
    covers (rows_of g) block_rows m 0 row granules m' written'.
Proof.
  intros Hg. revert row m. induction fuel as [|fuel IH]; intros row m Hrow Hf Hfit; cbn [granules_loop];
    destruct (Z.leb_spec block_rows row) as [Hle|Hlt]; try lia;
    try (assert (row = block_rows) as -> by lia; eexists _, _, _; split; [done|]; constructor).
  destruct (next_mark_rows g m Hg ltac:(lia)) as (r & Er & Hr). rewrite law_rows, Er by done. cbn [rbind rows_to_write].
  replace (Z.of_nat m + 1) with (Z.of_nat (S m)) by lia. pose proof (Zsum_take_S _ _ _ Er).
  destruct (Z.leb_spec r (block_rows - row)) as [Hle|Hgt].
  - rewrite Z.min_r by lia. destruct (IH (row + r) (S m)) as (granules & m' & written' & -> & Hc); [lia|lia|lia|].
    eexists _, m', written'. split; [done|]. pose proof (covers_complete (rows_of g) block_rows m 0 row r granules m' written') as Hcc.
    rewrite Z.sub_0_r in Hcc. apply Hcc; done || lia.
  - rewrite Z.min_l by lia. replace (row + (block_rows - row)) with block_rows by lia.
    assert (E : forall g m, granules_loop fuel g block_rows block_rows m = Ok []) by (intros ? ?; destruct fuel; simpl; by rewrite Z.leb_refl).
    rewrite E. cbn [rbind]. eexists _, m, _. split; [done|]. apply (covers_partial _ _ m 0 row r); done || lia.
Qed.

(** [getGranulesToWrite] covers the block, if the granularity has enough marks. *)
Lemma getGranulesToWrite_spec g block_rows m written :
  wf g -> 0 < block_rows -> 0 <= written -> (0 < written -> exists r, rows_of g !! m = Some r /\ written < r) ->
  Zsum (take m (rows_of g)) + written + block_rows <= Zsum (rows_of g) ->
  exists granules m' written', getGranulesToWrite g block_rows (Z.of_nat m) written = Ok granules /\
    covers (rows_of g) block_rows m written 0 granules m' written'.
Proof.
  intros Hg Hb Hw Hm Hfit. unfold getGranulesToWrite. pose proof (law_ok g Hg) as Hok.
  destruct (next_mark_rows g m Hg ltac:(lia)) as (r & Er & Hr). pose proof (lookup_lt_Some _ _ _ Er). rewrite law_count by done.
  destruct (Z.leb_spec (Z.of_nat (length (rows_of g))) (Z.of_nat m)); [lia|].
  destruct (Z.ltb_spec 0 written) as [Hpos|Hz]; [|assert (written = 0) as -> by lia; apply granules_loop_spec; done || lia].
  destruct (Hm Hpos) as (r' & Er' & Hlt). assert (r' = r) as -> by congruence. rewrite law_rows, Er by done. cbn [rbind].
  pose proof (Zsum_take_S _ _ _ Er) as ES. pose proof (ok_prefix _ (S m) Hok). pose proof (ok_prefix _ m Hok). pose proof (ok_total _ Hok).
  rewrite uwrap_small by (unfold in_unsigned; lia). cbn [rows_to_write]. assert (Ew : (written =? 0) = false) by (apply Z.eqb_neq; lia).
  replace (Z.of_nat m + 1) with (Z.of_nat (S m)) by lia. destruct (Z.leb_spec (r - written) block_rows) as [Hle|Hgt].
  - rewrite Z.min_r by lia. destruct (granules_loop_spec (Z.to_nat block_rows) g block_rows (r - written) (S m)) as (granules & m' & written' & -> & Hc);
      [done|lia|lia|lia|]. cbn [rbind]. eexists _, m', written'. split; [done|]. rewrite <- Ew.
    apply (covers_complete _ _ m written 0 r); done || lia.
  - rewrite Z.min_l by lia. assert (E : granules_loop (Z.to_nat block_rows) g block_rows block_rows (Z.of_nat (S m)) = Ok [])
      by (destruct (Z.to_nat block_rows); simpl; by rewrite Z.leb_refl).
    rewrite E. cbn [rbind]. eexists _, m, _. split; [done|].
    pose proof (covers_partial (rows_of g) block_rows m written 0 r Er ltac:(lia) ltac:(lia) ltac:(lia)) as Hc.
    rewrite Z.sub_0_r, Ew in Hc. exact Hc.
Qed.

(** What [appendMark] accepts while the granularity is computed. *)
Definition block_granularity g (n : Z) : Prop := 0 < n /\ match getConstantGranularity g with Some c => n = c | None => True end.

Lemma fill_loop_spec fuel g n block_rows row :
  wf g -> growing g -> block_granularity g n -> 0 <= row -> block_rows - row <= Z.of_nat fuel ->
  (row < block_rows -> Zsum (rows_of g) + (block_rows - row) + n < 2 ^ 62 /\ Z.of_nat (length (rows_of g)) + (block_rows - row) < 2 ^ 62) ->
  exists g' more, fill_loop fuel n block_rows row g = Ok g' /\ rows_of g' = rows_of g ++ more /\ wf g' /\ growing g' /\
    getConstantGranularity g' = getConstantGranularity g /\
    block_rows - row <= Zsum more /\ (forall more' r, more = more' ++ [r] -> Zsum more' < block_rows - row /\ r = n).
Proof.
  intros Hg Hgr Hn Hrow. revert g row Hg Hgr Hn Hrow.
  assert (Hnil : forall g row, wf g -> growing g -> block_rows <= row ->
    exists g' more, Ok g = Ok g' /\ rows_of g' = rows_of g ++ more /\ wf g' /\ growing g' /\ getConstantGranularity g' = getConstantGranularity g /\
    block_rows - row <= Zsum more /\ (forall more' r, more = more' ++ [r] -> Zsum more' < block_rows - row /\ r = n)).
  { intros g row Hg Hgr Hle. exists g, []. rewrite app_nil_r. split_and!; try done; simpl; try lia. by intros [|] ?. }
  induction fuel as [|fuel IH]; intros g row Hg Hgr Hn Hrow Hf Ht; cbn [fill_loop];
    (destruct (Z.leb_spec block_rows row) as [Hle|Hlt]; [by apply Hnil|]); [lia|].
  destruct Hn as [Hpos Hc]. destruct (Ht Hlt) as [Hs Hl]. destruct (law_append g n Hg Hgr) as (g1 & -> & E1 & Hg1 & Hgr1 & Ec1); [by destruct (getConstantGranularity g)|lia|lia|].
  cbn [rbind]. destruct (IH g1 (row + n)) as (g' & more & -> & E & Hg' & Hgr' & Ec & Hsum & Hlast); try done; [by split; [|rewrite Ec1]|lia|lia| |].
  - intros Hmore. rewrite E1, Zsum_app, length_app. simpl. lia.
  - exists g', (n :: more). rewrite E, E1, <- app_assoc. split_and!; try done; [by rewrite Ec, Ec1|simpl; fold (Zsum more); lia|].
    intros [|x more'] r Em; [injection Em as <- _; simpl; lia|]. injection Em as <- Em. specialize (Hlast _ _ Em). simpl. fold (Zsum more'). lia.
Qed.

(** The marks are enough for [total] rows, and without the last one they are not; it
    has at most [most] rows. *)
Definition tight (most : Z) (rows : list Z) (total : Z) : Prop :=
  total <= Zsum rows /\ forall before r, rows = before ++ [r] -> Zsum before < total /\ r <= most.

Lemma tight_bounds most rows total : tight most rows total -> 0 <= most -> 0 <= total -> Forall (fun r => 0 < r) rows ->
  Zsum rows <= total + most /\ Z.of_nat (length rows) <= total.
Proof.
  intros [_ H] Hmost Htot Hp. destruct rows as [|r before _] using rev_ind; [simpl; lia|]. destruct (H _ _ eq_refl) as [Hb Hr].
  rewrite Zsum_app, length_app. apply Forall_app in Hp as [Hp _].
  assert (Z.of_nat (length before) <= Zsum before) by (clear H Hb; induction Hp as [|x xs Hx Hp IH]; simpl; [lia|]; fold (Zsum xs); lia).
  simpl. lia.
Qed.

Lemma tight_last most rows total m written : tight most rows total -> Forall (fun r => 0 <= r) rows -> (m <= length rows)%nat ->
  Zsum (take m rows) + written = total -> 0 <= written -> (0 < written -> exists r, rows !! m = Some r /\ written < r) ->
  if 0 <? written then S m = length rows else m = length rows.
Proof.
  intros [Ht Hl] Hn Hm Hs H0 Hw.
  assert (Hlast : (S m < length rows)%nat -> Zsum (take (S m) rows) < total).
  { intros Hlt. destruct rows as [|r before _] using rev_ind; [simpl in Hlt; lia|]. destruct (Hl _ _ eq_refl). rewrite length_app in Hlt. simpl in Hlt.
    rewrite take_app_le by lia. apply Forall_app in Hn as [Hn _]. pose proof (Zsum_take_le before (S m) (length before) Hn ltac:(lia)) as Hle.
    rewrite firstn_all in Hle. lia. }
  destruct (Z.ltb_spec 0 written) as [Hp|Hz].
  - destruct (Hw Hp) as (r & Er & Hr). pose proof (lookup_lt_Some _ _ _ Er). pose proof (Zsum_take_S _ _ _ Er).
    destruct (decide (S m = length rows)); [done|]. specialize (Hlast ltac:(lia)). lia.
  - destruct (decide (m = length rows)) as [|Hne]; [done|]. exfalso. destruct (lookup_lt_is_Some_2 rows m ltac:(lia)) as [r Er].
    pose proof (Zsum_take_S _ _ _ Er). pose proof (Forall_lookup_1 _ _ _ _ Hn Er). simpl in *.
    destruct (decide (S m = length rows)) as [E|]; [|specialize (Hlast ltac:(lia)); lia].
    assert (Eb : rows = take m rows ++ [r]) by (rewrite <- (take_S_r _ _ _ Er), E; by rewrite firstn_all). destruct (Hl _ _ Eb). lia.
Qed.

(** [fillIndexGranularity] adds just the marks for the rows of the block. *)
Lemma fillIndexGranularity_spec most g n block_rows m written total :
  wf g -> growing g -> block_granularity g n -> n <= most -> tight most (rows_of g) total -> (m <= length (rows_of g))%nat ->
  Zsum (take m (rows_of g)) + written = total -> 0 <= written -> (0 < written -> exists r, rows_of g !! m = Some r /\ written < r) ->
  0 < block_rows -> total + block_rows + most < 2 ^ 60 ->
  exists g' more, fillIndexGranularity n block_rows (Z.of_nat m) written g = Ok g' /\ rows_of g' = rows_of g ++ more /\ wf g' /\ growing g' /\
    getConstantGranularity g' = getConstantGranularity g /\ tight most (rows_of g') (total + block_rows).
Proof.
  intros Hg Hgr Hn Hmost Ht Hm Hs H0 Hw Hb Hmax. pose proof (law_ok g Hg) as Hok. pose proof Hn as [Hpos _].
  pose proof (ok_prefix _ m Hok) as Hpre. destruct (tight_bounds _ _ _ Ht ltac:(lia) ltac:(lia) (law_growing g Hg Hgr)) as [Hsum Hlen].
  pose proof (tight_last _ _ _ _ _ Ht (ok_nonneg _ Hok) Hm Hs H0 Hw) as Hlast. pose proof Ht as [Htot Htl].
  unfold fillIndexGranularity. rewrite law_count by done.
  assert (Hcheck : (Z.of_nat m <? Z.of_nat (length (rows_of g))) && negb (Z.of_nat m =? uwrap 64 (Z.of_nat (length (rows_of g)) - 1)) = false).
  { destruct (Z.ltb_spec (Z.of_nat m) (Z.of_nat (length (rows_of g)))); [|done]. rewrite uwrap_small by (unfold in_unsigned; lia).
    destruct (0 <? written); [|lia]. by rewrite (proj2 (Z.eqb_eq _ _)) by lia. }
  rewrite Hcheck.
  assert (Hoff : exists offset, (if negb (written =? 0) then let! last := getLastMarkRows g in Ok (uwrap 64 (last - written)) else Ok 0) = Ok offset /\
    0 <= offset /\ offset = Zsum (rows_of g) - total /\ (offset = 0 \/ rows_of g <> [])).
  { destruct (Z.eqb_spec written 0) as [->|Hne]; cbn [negb].
    - exists 0. simpl in Hlast. subst m. rewrite firstn_all in Hs. split_and!; auto; lia.
    - destruct (Z.ltb_spec 0 written) as [Hp|]; [|lia]. destruct (Hw Hp) as (r & Er & Hr). exists (r - written).
      unfold getLastMarkRows. rewrite law_count by done. rewrite uwrap_small by (unfold in_unsigned; lia).
      replace (Z.of_nat (length (rows_of g)) - 1) with (Z.of_nat m) by lia. rewrite law_rows, Er by done. cbn [rbind].
      pose proof (ok_total _ Hok). pose proof (ok_prefix _ m Hok). pose proof (Zsum_take_S _ _ _ Er) as ES. rewrite Hlast, firstn_all in ES.
      rewrite uwrap_small by (unfold in_unsigned; lia). split_and!; [done|lia|lia|]. right. intros E. by rewrite E in Er. }
  destruct Hoff as (offset & -> & Ho & Eo & Hne). cbn [rbind].
  destruct (fill_loop_spec (Z.to_nat block_rows) g n block_rows offset) as (g' & more & -> & E & Hg' & Hgr' & Ec & Hmore & Hml); try done; [lia|lia|].
  exists g', more. split_and!; try done. rewrite E. split; [rewrite Zsum_app; lia|].
  intros before r Eb. destruct more as [|x more _] using rev_ind.
  - rewrite app_nil_r in Eb. destruct (Htl _ _ Eb). lia.
  - rewrite app_assoc in Eb. apply app_inj_tail in Eb as [<- <-]. destruct (Hml _ _ eq_refl). rewrite Zsum_app. lia.
Qed.

End GranulesProofs.
