(* ===== verification/WidePart.v ===== *)
(** Writing a data part with files for each column
    (src/Storages/MergeTree/MergeTreeDataPartWriterWide.cpp): blocks of rows are cut at
    the marks of the index granularity, and serialized into the streams of the columns. *)
From S2P Require Import Prelude IntText BinaryIO ReadBuffer ReadBufferFromFile WriteBuffer Codec HashingBuffer.
From S2P Require Import CompressedWriteBuffer CompressedReadBuffer CompressedFile CompressedStream Marks.
From S2P Require Import PartStream IndexGranularity Granules.
Import Binary.

(** * Serialization *)

(** What the writer uses of [ISerialization]: the prefix, the data of a range of rows and
    the suffix, as pieces written to the streams of the column. *)
Record ISerialization (Row SState : Type) := {
  serializeBinaryBulkStatePrefix : list Row -> list (nat * bytes) * SState;
  serializeBinaryBulkWithMultipleStreams : list Row -> Z -> Z -> SState -> list (nat * bytes) * SState;
  serializeBinaryBulkStateSuffix : SState -> list (nat * bytes) }.
Arguments serializeBinaryBulkStatePrefix {_ _}.
Arguments serializeBinaryBulkWithMultipleStreams {_ _}.
Arguments serializeBinaryBulkStateSuffix {_ _}.

(** * The writer *)

(** An operation on all elements in turn. *)
Fixpoint for_each {A} (f : A -> outcome A) (xs : list A) : outcome (list A) :=
  match xs with
  | [] => (Ok tt, [])
  | x :: xs =>
      match f x with
      | (Throw e, x) => (Throw e, x :: xs)
      | (Ok _, x) => let (r, xs) := for_each f xs in (r, x :: xs)
      end
  end.

(** The same with an argument for each; both lists are as long. *)
Fixpoint for_each2 {A B} (f : B -> A -> outcome A) (ys : list B) (xs : list A) : outcome (list A) :=
  match ys, xs with
  | y :: ys, x :: xs =>
      match f y x with
      | (Throw e, x) => (Throw e, x :: xs)
      | (Ok _, x) => let (r, xs) := for_each2 f ys xs in (r, x :: xs)
      end
  | [], [] => (Ok tt, [])
  | _, xs => (Throw LOGICAL_ERROR, xs)
  end.

Section Writer.
Context (CityHash128 : bytes -> Z * Z) (CityHash128WithSeed : bytes -> Z * Z -> Z * Z).
Context {G : Type} `{!MergeTreeIndexGranularity G} {Row SState : Type}.

Abbreviation I := (ToCompressedHashing CityHash128 CityHash128WithSeed).

Record WriterSettings := {
  can_use_adaptive_granularity : bool;
  blocks_are_granules_size : bool;
  compute_granularity : bool;
  index_granularity_bytes : Z;
  fixed_index_granularity : Z;
  min_compress_block_size : Z }.

Record ColumnWriter := {
  serialization : ISerialization Row SState;
  column_streams : list Stream;
  last_non_written_marks : option (list MarkInCompressedFile);
  serialization_state : option SState }.

Record PartWriter := {
  index_granularity : G;
  current_mark : Z;
  rows_written_in_last_mark : Z;
  data_written : bool;
  columns : list ColumnWriter }.

Record Block := {
  block_columns : list (list Row);
  block_rows : Z;
  block_bytes : Z }.

(** [addStreams]: the streams of a column with their settings and files. *)
Fixpoint new_streams (fresh : nat -> bytes) (streams : list (StreamSettings * FileWriteBuffer * FileWriteBuffer)) : result (list Stream) :=
  match streams with
  | [] => Ok []
  | (settings, file, marks) :: streams =>
      let! s := new_stream CityHash128 CityHash128WithSeed fresh settings file marks in
      let! ss := new_streams fresh streams in
      Ok (s :: ss)
  end.

Definition addStreams (fresh : nat -> bytes) (ser : ISerialization Row SState)
    (streams : list (StreamSettings * FileWriteBuffer * FileWriteBuffer)) : result ColumnWriter :=
  let! ss := new_streams fresh streams in
  Ok {| serialization := ser; column_streams := ss; last_non_written_marks := None; serialization_state := None |}.

(** The constructor *)
Fixpoint add_columns (fresh : nat -> bytes) (cs : list (ISerialization Row SState * list (StreamSettings * FileWriteBuffer * FileWriteBuffer)))
  : result (list ColumnWriter) :=
  match cs with
  | [] => Ok []
  | (ser, streams) :: cs =>
      let! c := addStreams fresh ser streams in
      let! rest := add_columns fresh cs in
      Ok (c :: rest)
  end.

Definition new_writer (fresh : nat -> bytes) (g : G) (cs : list (ISerialization Row SState * list (StreamSettings * FileWriteBuffer * FileWriteBuffer)))
  : result PartWriter :=
  let! columns := add_columns fresh cs in
  Ok {| index_granularity := g; current_mark := 0; rows_written_in_last_mark := 0; data_written := false; columns := columns |}.

Definition set_streams (ss : list Stream) (c : ColumnWriter) : ColumnWriter :=
  {| serialization := serialization c; column_streams := ss; last_non_written_marks := last_non_written_marks c;
     serialization_state := serialization_state c |}.

Definition set_last_marks (ms : option (list MarkInCompressedFile)) (c : ColumnWriter) : ColumnWriter :=
  {| serialization := serialization c; column_streams := column_streams c; last_non_written_marks := ms;
     serialization_state := serialization_state c |}.

Definition set_state (st : SState) (c : ColumnWriter) : ColumnWriter :=
  {| serialization := serialization c; column_streams := column_streams c; last_non_written_marks := last_non_written_marks c;
     serialization_state := Some st |}.

Definition set_columns (cs : list ColumnWriter) (w : PartWriter) : PartWriter :=
  {| index_granularity := index_granularity w; current_mark := current_mark w;
     rows_written_in_last_mark := rows_written_in_last_mark w; data_written := data_written w; columns := cs |}.

Definition set_granularity (g : G) (w : PartWriter) : PartWriter :=
  {| index_granularity := g; current_mark := current_mark w;
     rows_written_in_last_mark := rows_written_in_last_mark w; data_written := data_written w; columns := columns w |}.

Definition set_mark (mark rows : Z) (w : PartWriter) : PartWriter :=
  {| index_granularity := index_granularity w; current_mark := mark;
     rows_written_in_last_mark := rows; data_written := data_written w; columns := columns w |}.

Definition set_data_written (w : PartWriter) : PartWriter :=
  {| index_granularity := index_granularity w; current_mark := current_mark w;
     rows_written_in_last_mark := rows_written_in_last_mark w; data_written := true; columns := columns w |}.

Definition on_streams (f : list Stream -> outcome (list Stream)) (c : ColumnWriter) : outcome ColumnWriter :=
  let (r, ss) := f (column_streams c) in (r, set_streams ss c).

Definition on_columns (f : list ColumnWriter -> outcome (list ColumnWriter)) (w : PartWriter) : outcome PartWriter :=
  let (r, cs) := f (columns w) in (r, set_columns cs w).

(** A piece of data for one of the streams. *)
Definition write_stream (piece : nat * bytes) (ss : list Stream) : outcome (list Stream) :=
  match ss !! piece.1 with
  | None => (Throw OUT_OF_BOUNDS_ACCESS, ss)
  | Some s => let (r, s) := on_data (write I piece.2) s in (r, <[piece.1 := s]> ss)
  end.

Fixpoint write_streams (pieces : list (nat * bytes)) (ss : list Stream) : outcome (list Stream) :=
  match pieces with
  | [] => (Ok tt, ss)
  | piece :: pieces => write_stream piece ss >> write_streams pieces
  end.

(** [getCurrentMarksForColumn] *)
Fixpoint getCurrentMarksForColumn (min_size : Z) (ss : list Stream) : outcome (list Stream) * list MarkInCompressedFile :=
  match ss with
  | [] => ((Ok tt, []), [])
  | s :: ss =>
      match getCurrentMark CityHash128 CityHash128WithSeed min_size s with
      | ((Throw e, s), _) => ((Throw e, s :: ss), [])
      | ((Ok _, s), m) => let '((r, ss), ms) := getCurrentMarksForColumn min_size ss in ((r, s :: ss), m :: ms)
      end
  end.

(** [flushMarkToFile] for the marks of a column *)
Definition flush_marks (adaptive : bool) (rows_in_mark : Z) (ms : list MarkInCompressedFile) : list Stream -> outcome (list Stream) :=
  for_each2 (fun m => flushMarkToFile CityHash128 CityHash128WithSeed adaptive m rows_in_mark) ms.

(** [writeSingleMark] *)
Definition writeSingleMark (st : WriterSettings) (number_of_rows : Z) (c : ColumnWriter) : outcome ColumnWriter :=
  let '((r, ss), ms) := getCurrentMarksForColumn (min_compress_block_size st) (column_streams c) in
  (r, set_streams ss c) >> on_streams (flush_marks (can_use_adaptive_granularity st) number_of_rows ms).

(** [writeSingleGranule] *)
Definition writeSingleGranule (data : list Row) (granule : Granule) (state : SState) (c : ColumnWriter) : outcome ColumnWriter :=
  let (pieces, state) := serializeBinaryBulkWithMultipleStreams (serialization c) data (start_row granule) (rows_to_write granule) state in
  on_streams (write_streams pieces) (set_state state c) >> on_streams (for_each (on_data (w_nextIfAtEnd I))).

(** The loop of [writeColumn]: the mark at the beginning of a granule, *)
Definition take_marks (st : WriterSettings) (granule : Granule) (c : ColumnWriter) : outcome ColumnWriter :=
  if mark_on_start granule then
    match last_non_written_marks c with
    | Some _ => (Throw LOGICAL_ERROR, c)
    | None =>
        let '((r, ss), ms) := getCurrentMarksForColumn (min_compress_block_size st) (column_streams c) in
        (r, set_last_marks (Some ms) (set_streams ss c))
    end
  else (Ok tt, c).

(** and one iteration. *)
Definition write_granule (st : WriterSettings) (g : G) (data : list Row) (granule : Granule) (c : ColumnWriter) : outcome ColumnWriter :=
  take_marks st granule c >> fun c =>
  match serialization_state c with
  | None => (Throw LOGICAL_ERROR, c)
  | Some state =>
      writeSingleGranule data granule state c >> fun c =>
      if is_complete granule then
        match last_non_written_marks c, getMarkRows g (mark_number granule) with
        | None, _ => (Throw LOGICAL_ERROR, c)
        | _, Throw e => (Throw e, c)
        | Some ms, Ok rows =>
            on_streams (flush_marks (can_use_adaptive_granularity st) rows ms) c >> fun c => (Ok tt, set_last_marks None c)
        end
      else (Ok tt, c)
  end.

Fixpoint write_granules (st : WriterSettings) (g : G) (data : list Row) (granules : list Granule) (c : ColumnWriter) : outcome ColumnWriter :=
  match granules with
  | [] => (Ok tt, c)
  | granule :: granules => write_granule st g data granule c >> write_granules st g data granules
  end.

(** The beginning of [writeColumn] *)
Definition write_prefix (data : list Row) (c : ColumnWriter) : outcome ColumnWriter :=
  match serialization_state c with
  | Some _ => (Ok tt, c)
  | None =>
      let (pieces, state) := serializeBinaryBulkStatePrefix (serialization c) data in
      on_streams (write_streams pieces) (set_state state c)
  end.

(** [writeColumn] *)
Definition writeColumn (st : WriterSettings) (g : G) (granules : list Granule) (data : list Row) (c : ColumnWriter) : outcome ColumnWriter :=
  if (length granules =? 0)%nat then (Throw LOGICAL_ERROR, c)
  else
    write_prefix data c >> write_granules st g data granules.

(** [shiftCurrentMark] *)
Definition shiftCurrentMark (st : WriterSettings) (granules_written : list Granule) (w : PartWriter) : outcome PartWriter :=
  match last granules_written with
  | None => (Throw LOGICAL_ERROR, w)
  | Some last_granule =>
      let n := Z.of_nat (length granules_written) in
      if negb (is_complete last_granule) then
        if can_use_adaptive_granularity st && blocks_are_granules_size st then (Throw LOGICAL_ERROR, w)
        else
          (Ok tt, set_mark (current_mark w + n - 1)
             (if n =? 1 then rows_written_in_last_mark w + rows_to_write last_granule else rows_to_write last_granule) w)
      else (Ok tt, set_mark (current_mark w + n) 0 w)
  end.

(** The marks of all columns that were not written yet. *)
Definition flush_last_marks (st : WriterSettings) (rows : Z) (c : ColumnWriter) : outcome ColumnWriter :=
  match last_non_written_marks c with
  | None => (Ok tt, c)
  | Some ms => on_streams (flush_marks (can_use_adaptive_granularity st) rows ms) c >> fun c => (Ok tt, set_last_marks None c)
  end.

(** [adjustLastMarkIfNeedAndFlushToDisk] *)
Definition adjustLastMarkIfNeedAndFlushToDisk (st : WriterSettings) (new_rows_in_last_mark : Z) (w : PartWriter) : outcome PartWriter :=
  if new_rows_in_last_mark <? rows_written_in_last_mark w then (Throw LOGICAL_ERROR, w)
  else
    (if compute_granularity st && can_use_adaptive_granularity st then
       if negb (current_mark w =? uwrap 64 (getMarksCount (index_granularity w) - 1)) then (Throw LOGICAL_ERROR, w)
       else match adjustLastMark new_rows_in_last_mark (index_granularity w) with
            | Throw e => (Throw e, w)
            | Ok g => (Ok tt, set_granularity g w)
            end
     else (Ok tt, w)) >> fun w =>
    if forallb (fun c => match last_non_written_marks c with None => true | Some _ => false end) (columns w) then (Throw LOGICAL_ERROR, w)
    else if rows_written_in_last_mark w =? new_rows_in_last_mark then
      match getMarkRows (index_granularity w) (current_mark w) with
      | Throw e => (Throw e, w)
      | Ok rows =>
          on_columns (for_each (flush_last_marks st rows)) w >> fun w =>
          if compute_granularity st && can_use_adaptive_granularity st then (Ok tt, set_mark (current_mark w + 1) 0 w) else (Ok tt, w)
      end
    else (Ok tt, w).

(** The part of [write] that computes the granularity of a block: that of the marks, *)
Definition granularity_for_block (st : WriterSettings) (block : Block) (g : G) : Z :=
  match getConstantGranularity g with
  | Some constant_granularity => constant_granularity
  | None => computeIndexGranularity (block_rows block) (block_bytes block) (index_granularity_bytes st) (fixed_index_granularity st)
              (blocks_are_granules_size st) (can_use_adaptive_granularity st)
  end.

(** and the marks, after the last one was adjusted. *)
Definition adjust_for_block (st : WriterSettings) (index_granularity_for_block : Z) (w : PartWriter) : outcome PartWriter :=
  if 0 <? rows_written_in_last_mark w then
    match getMarkRows (index_granularity w) (current_mark w) with
    | Throw e => (Throw e, w)
    | Ok mark_rows =>
        if index_granularity_for_block <? uwrap 64 (mark_rows - rows_written_in_last_mark w) then
          if index_granularity_for_block <=? rows_written_in_last_mark w
          then adjustLastMarkIfNeedAndFlushToDisk st (rows_written_in_last_mark w) w
          else adjustLastMarkIfNeedAndFlushToDisk st index_granularity_for_block w
        else (Ok tt, w)
    end
  else (Ok tt, w).

Definition compute_granularity_for (st : WriterSettings) (block : Block) (w : PartWriter) : outcome PartWriter :=
  let index_granularity_for_block := granularity_for_block st block (index_granularity w) in
  adjust_for_block st index_granularity_for_block w >> fun w =>
  match fillIndexGranularity index_granularity_for_block (block_rows block) (current_mark w) (rows_written_in_last_mark w) (index_granularity w) with
  | Throw e => (Throw e, w)
  | Ok g => (Ok tt, set_granularity g w)
  end.

(** [write] *)
Definition write_block_rows (st : WriterSettings) (block : Block) (w : PartWriter) : outcome PartWriter :=
  (if compute_granularity st then compute_granularity_for st block w else (Ok tt, w)) >> fun w =>
  match getGranulesToWrite (index_granularity w) (block_rows block) (current_mark w) (rows_written_in_last_mark w) with
  | Throw e => (Throw e, w)
  | Ok granules_to_write =>
      on_columns (for_each2 (writeColumn st (index_granularity w) granules_to_write) (block_columns block))
        (if (length (columns w) =? 0)%nat then w else set_data_written w) >>
      shiftCurrentMark st granules_to_write
  end.

(** The part of [fillDataChecksums] before the checksums: the last mark, the suffixes
    and the final marks. *)
Definition finish_column (st : WriterSettings) (write_final_mark : bool) (c : ColumnWriter) : outcome ColumnWriter :=
  (match serialization_state c with
   | None => (Ok tt, c)
   | Some state => on_streams (write_streams (serializeBinaryBulkStateSuffix (serialization c) state)) c
   end) >> fun c => if write_final_mark then writeSingleMark st 0 c else (Ok tt, c).

Definition fillDataChecksums (st : WriterSettings) (w : PartWriter) : outcome PartWriter :=
  (if 0 <? rows_written_in_last_mark w then
     if can_use_adaptive_granularity st && blocks_are_granules_size st then (Throw LOGICAL_ERROR, w)
     else adjustLastMarkIfNeedAndFlushToDisk st (rows_written_in_last_mark w) w
   else (Ok tt, w)) >> fun w =>
  on_columns (for_each (finish_column st (can_use_adaptive_granularity st && data_written w))) w >>
  on_columns (for_each (on_streams (for_each (preFinalize CityHash128 CityHash128WithSeed)))).

(** [finishDataSerialization] *)
Definition finishDataSerialization (w : PartWriter) : outcome PartWriter :=
  on_columns (for_each (on_streams (for_each (finalize_stream CityHash128 CityHash128WithSeed)))) w.

(** [cancel]; the streams are destroyed after it. *)
Definition cancel_writer (w : PartWriter) : PartWriter :=
  set_columns ((fun c => set_streams (cancel_stream CityHash128 CityHash128WithSeed <$> column_streams c) c) <$> columns w) w.

End Writer.

(** * Proofs *)

(** ** Loops *)

Definition all_at {A} (P : nat -> A -> Prop) (xs : list A) : Prop := forall k x, xs !! k = Some x -> P k x.

Lemma all_at_cons {A} (P : nat -> A -> Prop) x xs : all_at P (x :: xs) <-> P 0%nat x /\ all_at (fun k => P (S k)) xs.
Proof.
  unfold all_at. split.
  - intros H. split; [by apply (H 0%nat)|]. intros k y Hy. by apply (H (S k)).
  - intros [H0 H] [|k] y Hy; simpl in Hy; [by injection Hy as <-|by apply H].
Qed.

Lemma for_each_spec {A} (f : A -> outcome A) (P Q : nat -> A -> Prop) xs :
  (forall k x, P k x -> exists x', f x = (Ok tt, x') /\ Q k x') -> all_at P xs ->
  exists xs', for_each f xs = (Ok tt, xs') /\ length xs' = length xs /\ all_at Q xs'.
Proof.
  revert P Q. induction xs as [|x xs IH]; intros P Q Hf Hp; [by exists []|]. apply all_at_cons in Hp as [H0 Hp]. cbn [for_each].
  destruct (Hf 0%nat x H0) as (x' & -> & Hx). destruct (IH _ (fun k => Q (S k)) (fun k => Hf (S k)) Hp) as (xs' & -> & Hl & Hq).
  exists (x' :: xs'). split_and!; [done|simpl; lia|]. by apply all_at_cons.
Qed.

Lemma for_each2_spec {A B} (f : B -> A -> outcome A) (P : nat -> B -> A -> Prop) (Q : nat -> A -> Prop) ys xs :
  (forall k y x, P k y x -> exists x', f y x = (Ok tt, x') /\ Q k x') -> length ys = length xs ->
  (forall k y x, ys !! k = Some y -> xs !! k = Some x -> P k y x) ->
  exists xs', for_each2 f ys xs = (Ok tt, xs') /\ length xs' = length xs /\ all_at Q xs'.
Proof.
  revert P Q ys. induction xs as [|x xs IH]; intros P Q [|y ys] Hf Hl Hp; try done; [by exists []|]. cbn [for_each2].
  destruct (Hf 0%nat y x (Hp 0%nat y x eq_refl eq_refl)) as (x' & -> & Hx).
  destruct (IH (fun k => P (S k)) (fun k => Q (S k)) ys (fun k => Hf (S k))) as (xs' & -> & Hl' & Hq);
    [simpl in Hl; lia|intros k y' x0 Hy H0; by apply (Hp (S k))|].
  exists (x' :: xs'). split_and!; [done|simpl; lia|]. by apply all_at_cons.
Qed.

(** ** The streams of a column *)

Lemma get_marks_spec CityHash128 CityHash128WithSeed min_size (P : nat -> Stream -> Prop) (Q : nat -> Stream -> Located -> Prop) ss :
  (forall k s, P k s -> exists s' l, getCurrentMark CityHash128 CityHash128WithSeed min_size s = ((Ok tt, s'), lo_mark l) /\ Q k s' l) ->
  all_at P ss -> exists ss' ls, getCurrentMarksForColumn CityHash128 CityHash128WithSeed min_size ss = ((Ok tt, ss'), lo_mark <$> ls) /\
    length ss' = length ss /\ length ls = length ss /\ forall k s l, ss' !! k = Some s -> ls !! k = Some l -> Q k s l.
Proof.
  revert P Q. induction ss as [|s ss IH]; intros P Q Hf H; [by exists [], []|]. apply all_at_cons in H as [H0 H]. cbn [getCurrentMarksForColumn].
  destruct (Hf 0%nat s H0) as (s' & l & -> & Hq).
  destruct (IH (fun k => P (S k)) (fun k => Q (S k)) (fun k => Hf (S k)) H) as (ss' & ls & -> & Hl & Hll & Ha).
  exists (s' :: ss'), (l :: ls). split_and!; [done|simpl; lia|simpl; lia|].
  intros [|k] s1 l1 Hs1 Hl1; simpl in *; [by simplify_eq|by apply Ha].
Qed.

(** What the pieces write to a stream. *)
Definition pieces_of (k : nat) (pieces : list (nat * bytes)) : bytes :=
  mjoin ((fun p => if decide (p.1 = k) then p.2 else []) <$> pieces).

Section Streams.
Context (CityHash128 : bytes -> Z * Z) (CityHash128WithSeed : bytes -> Z * Z -> Z * Z).
(** The codecs of the streams, and the codec of the marks. *)
Context (c : nat -> ICompressionCodec) (mc : ICompressionCodec) (limit : nat -> Z) (mlimit : Z).
Context {Hfits : forall k, FitsReserve (c k) (limit k)} `{!FitsReserve mc mlimit}.
Context (Hlimit : forall k, limit k < 2 ^ 30) (Hmlimit : mlimit < 2 ^ 30) (min_size : Z) (compressed : bool).

Abbreviation I := (ToCompressedHashing CityHash128 CityHash128WithSeed).
Abbreviation opened k := (stream_open CityHash128 CityHash128WithSeed (c k) mc (limit k) mlimit min_size compressed).
Abbreviation readied s := (ready min_size (compressed_hashing s)).

(** The state of each stream: its marks, their file and the data. *)
Implicit Types (ms : nat -> list Located) (mdata D : nat -> bytes).

Lemma write_streams_spec ms mdata D pieces ss :
  all_at (fun k s => opened k (ms k) (mdata k) s (D k)) ss -> Forall (fun p => (p.1 < length ss)%nat /\ is_bytes p.2) pieces ->
  exists ss', write_streams CityHash128 CityHash128WithSeed pieces ss = (Ok tt, ss') /\ length ss' = length ss /\
    all_at (fun k s => opened k (ms k) (mdata k) s (D k ++ pieces_of k pieces)) ss'.
Proof.
  intros H Hp. revert D ss H Hp. induction pieces as [|[k bs] pieces IH]; intros D ss H Hp.
  { exists ss. split_and!; try done. intros k s Hs. unfold pieces_of. simpl. rewrite app_nil_r. by apply H. }
  apply Forall_cons in Hp as [[Hk Hb] Hp]. cbn [write_streams]. unfold write_stream. simpl in Hk, Hb. cbn [fst snd].
  destruct (lookup_lt_is_Some_2 ss k Hk) as [s Hs]. rewrite Hs.
  destruct (stream_write _ _ _ _ _ _ (Hlimit _) _ _ _ _ _ _ _ (H k s Hs) Hb) as (s' & -> & Hs'). cbn [andthen].
  destruct (IH (fun j => D j ++ (if decide (k = j) then bs else [])) (<[k := s']> ss)) as (ss' & -> & Hl & Ha).
  - intros j t Ht. apply list_lookup_insert_Some in Ht as [(-> & -> & _)|[Hne Ht]].
    + by rewrite decide_True.
    + rewrite decide_False, app_nil_r by done. by apply H.
  - rewrite length_insert. done.
  - exists ss'. rewrite length_insert in Hl. split_and!; [done|done|]. intros j t Ht. unfold pieces_of. cbn [fmap list_fmap mjoin list_join fst snd].
    rewrite app_assoc. by apply Ha.
Qed.

Lemma next_streams_spec ms mdata D ss : all_at (fun k s => opened k (ms k) (mdata k) s (D k)) ss ->
  exists ss', for_each (on_data (w_nextIfAtEnd I)) ss = (Ok tt, ss') /\ length ss' = length ss /\
    all_at (fun k s => opened k (ms k) (mdata k) s (D k) /\ readied s) ss'.
Proof.
  intros H. apply (for_each_spec _ (fun k s => opened k (ms k) (mdata k) s (D k))); [|done]. intros k s Hs.
  destruct (stream_nextIfAtEnd _ _ _ _ _ _ (Hlimit _) _ _ _ _ _ _ Hs) as (s' & E & Ho & Hr). by exists s'.
Qed.

Lemma mark_streams_spec ms mdata D ss : all_at (fun k s => opened k (ms k) (mdata k) s (D k) /\ readied s) ss ->
  exists ss' ls, getCurrentMarksForColumn CityHash128 CityHash128WithSeed min_size ss = ((Ok tt, ss'), lo_mark <$> ls) /\
    length ss' = length ss /\ length ls = length ss /\
    forall k s l, ss' !! k = Some s -> ls !! k = Some l ->
      opened k (ms k ++ [l]) (mdata k) s (D k) /\ readied s /\ lo_position l = size_of (D k).
Proof.
  intros H. apply (get_marks_spec _ _ _ (fun k s => opened k (ms k) (mdata k) s (D k) /\ readied s)
    (fun k s l => opened k (ms k ++ [l]) (mdata k) s (D k) /\ readied s /\ lo_position l = size_of (D k))); [|done].
  intros k s [Ho Hr]. destruct (stream_mark _ _ _ _ _ _ (Hlimit _) _ _ _ _ _ _ Ho Hr) as (s' & l & E & ? & ? & ?). exists s', l. done.
Qed.

Lemma flush_streams_spec adaptive rows ms mdata D (marks : list MarkInCompressedFile) ss :
  all_at (fun k s => opened k (ms k) (mdata k) s (D k) /\ readied s) ss -> length marks = length ss ->
  exists ss', flush_marks CityHash128 CityHash128WithSeed adaptive rows marks ss = (Ok tt, ss') /\ length ss' = length ss /\
    all_at (fun k s => opened k (ms k) (mdata k ++ from_option (fun m => mark_bytes adaptive m rows) [] (marks !! k)) s (D k) /\ readied s) ss'.
Proof.
  intros H Hl. apply (for_each2_spec _ (fun k m s => marks !! k = Some m /\ opened k (ms k) (mdata k) s (D k) /\ readied s)); [|done|].
  - intros k m s (Hm & Ho & Hr). destruct (stream_flush_mark CityHash128 CityHash128WithSeed (c k) mc (limit k) mlimit Hmlimit min_size compressed
      _ _ _ _ adaptive m rows Ho) as (s' & E & Ho' & Ec). exists s'. split; [done|]. rewrite Hm. simpl. by rewrite Ec.
  - intros k m s Hm Hs. destruct (H k s Hs). done.
Qed.

Lemma prefinalize_streams_spec ms mdata D ss : all_at (fun k s => opened k (ms k) (mdata k) s (D k)) ss ->
  exists ss', for_each (preFinalize CityHash128 CityHash128WithSeed) ss = (Ok tt, ss') /\ length ss' = length ss /\
    all_at (fun k s => stream_finished CityHash128 CityHash128WithSeed (c k) mc (limit k) mlimit compressed (ms k) (mdata k) s (D k) /\
      Forall (fun l => valid_mark_value (lo_mark l)) (ms k)) ss'.
Proof.
  intros H. apply (for_each_spec _ (fun k s => opened k (ms k) (mdata k) s (D k))); [|done]. intros k s Hs.
  destruct (preFinalize_spec _ _ _ _ _ _ (Hlimit _) Hmlimit _ _ _ _ _ _ Hs) as (s' & E & Hf). exists s'. split_and!; [done|done|by destruct Hs].
Qed.

End Streams.

(** ** A column *)

(** The numbers of rows of the marks of a file. *)
Definition marks_data (adaptive : bool) (ls : list Located) (rows : list Z) : bytes :=
  mjoin (zip_with (fun l r => mark_bytes adaptive (lo_mark l) r) ls rows).

(** The first row of a mark. *)
Definition start_of (rows : list Z) (i : nat) : nat := Z.to_nat (Zsum (take i rows)).

(** What a serialization writes for rows, whatever the granules: the streams of the
    column have the encodings of all rows one after another. *)
Class RowWise {Row SState} (ser : ISerialization Row SState) (n : nat) (enc : nat -> list Row -> bytes) : Prop := {
  rw_prefix data : (serializeBinaryBulkStatePrefix ser data).1 = [];
  rw_suffix state : serializeBinaryBulkStateSuffix ser state = [];
  rw_nil k : enc k [] = [];
  rw_app k xs ys : enc k (xs ++ ys) = enc k xs ++ enc k ys;
  rw_pieces data start rows state : 0 <= start -> 0 < rows -> start + rows <= Z.of_nat (length data) ->
    let pieces := (serializeBinaryBulkWithMultipleStreams ser data start rows state).1 in
    Forall (fun p => (p.1 < n)%nat /\ is_bytes p.2) pieces /\
    forall k, (k < n)%nat -> pieces_of k pieces = enc k (take (Z.to_nat rows) (drop (Z.to_nat start) data)) }.

(** A column: its streams, their codecs and encodings. *)
Record ColumnSpec (Row SState : Type) := {
  cs_serialization : ISerialization Row SState;
  cs_streams : nat;
  cs_enc : nat -> list Row -> bytes;
  cs_codec : nat -> ICompressionCodec;
  cs_limit : nat -> Z }.
Arguments cs_serialization {_ _}.
Arguments cs_streams {_ _}.
Arguments cs_enc {_ _}.
Arguments cs_codec {_ _}.
Arguments cs_limit {_ _}.

Section Column.
Context (CityHash128 : bytes -> Z * Z) (CityHash128WithSeed : bytes -> Z * Z -> Z * Z).
Context (mc : ICompressionCodec) (mlimit : Z) `{!FitsReserve mc mlimit} (Hmlimit : mlimit < 2 ^ 30).
Context (st : WriterSettings) (compressed : bool).
Context {Row SState : Type} (sp : ColumnSpec Row SState).

Class ColumnOk : Prop := {
  co_serialization : RowWise (cs_serialization sp) (cs_streams sp) (cs_enc sp);
  co_fits k : FitsReserve (cs_codec sp k) (cs_limit sp k);
  co_limit k : cs_limit sp k < 2 ^ 30 }.
Context {Hok : ColumnOk}.
#[local] Existing Instance co_serialization.
#[local] Existing Instance co_fits.

Abbreviation opened k := (stream_open CityHash128 CityHash128WithSeed (cs_codec sp k) mc (cs_limit sp k) mlimit (min_compress_block_size st) compressed).
Abbreviation readied s := (ready (min_compress_block_size st) (compressed_hashing s)).
Abbreviation n := (cs_streams sp).
Abbreviation enc := (cs_enc sp).
Abbreviation adaptive := (can_use_adaptive_granularity st).
Implicit Types (xs ys : list Row) (col : ColumnWriter (Row := Row) (SState := SState)) (rows : list Z).

(** The marks are at the beginnings of their granules. *)
Definition positions (k : nat) (ls : list Located) rows xs : Prop :=
  forall i l, ls !! i = Some l -> lo_position l = size_of (enc k (take (start_of rows i) xs)).

(** The column has the rows [xs], of marks of [rows] rows that were written; the mark of
    the next granule may be pending. *)
Definition col_at rows (pend : bool) xs col : Prop :=
  serialization col = cs_serialization sp /\ length (column_streams col) = n /\ exists M : nat -> list Located,
    all_at (fun k s => opened k (M k) (marks_data adaptive (M k) rows) s (enc k xs) /\ readied s) (column_streams col) /\
    (forall k, (k < n)%nat -> length (M k) = (length rows + Nat.b2n pend)%nat /\ positions k (M k) rows xs) /\
    (if pend then exists ms, last_non_written_marks col = Some ms /\ length ms = n /\
       forall k m, ms !! k = Some m -> exists l, M k !! length rows = Some l /\ lo_mark l = m
     else last_non_written_marks col = None).

Lemma start_of_le rows i : Forall (fun r => 0 <= r) rows -> (start_of rows i <= Z.to_nat (Zsum rows))%nat.
Proof.
  intros H. unfold start_of. pose proof (Zsum_take_le rows i (i + length rows) H ltac:(lia)) as Hle.
  rewrite (take_ge rows (i + length rows)) in Hle by lia. lia.
Qed.

Lemma positions_app k ls rows xs ys : Forall (fun r => 0 <= r) rows -> Zsum rows <= Z.of_nat (length xs) ->
  positions k ls rows xs -> positions k ls rows (xs ++ ys).
Proof.
  intros Hr Hs H i l Hl. rewrite (H i l Hl). pose proof (start_of_le rows i Hr). by rewrite take_app_le by lia.
Qed.

Lemma start_of_app rows more i : (i <= length rows)%nat -> start_of (rows ++ more) i = start_of rows i.
Proof. intros Hi. unfold start_of. by rewrite take_app_le. Qed.

Lemma positions_snoc k ls rows xs r : (length ls <= S (length rows))%nat -> positions k ls rows xs -> positions k ls (rows ++ [r]) xs.
Proof. intros Hl H i l Hi. pose proof (lookup_lt_Some _ _ _ Hi). rewrite start_of_app by lia. by apply H. Qed.

Lemma marks_data_more ls l rows : length ls = length rows -> marks_data adaptive (ls ++ [l]) rows = marks_data adaptive ls rows.
Proof.
  intros H. unfold marks_data. rewrite <- (app_nil_r rows) at 1. rewrite zip_with_app by done. simpl. by rewrite app_nil_r.
Qed.

Lemma marks_data_snoc ls l rows r : length ls = length rows ->
  marks_data adaptive (ls ++ [l]) (rows ++ [r]) = marks_data adaptive ls rows ++ mark_bytes adaptive (lo_mark l) r.
Proof. intros H. unfold marks_data. rewrite zip_with_app, join_app by done. simpl. by rewrite app_nil_r. Qed.

(** The mark of a granule is taken. *)
Lemma col_mark rows xs col : col_at rows false xs col -> Zsum rows = Z.of_nat (length xs) ->
  exists ss ls, getCurrentMarksForColumn CityHash128 CityHash128WithSeed (min_compress_block_size st) (column_streams col) = ((Ok tt, ss), lo_mark <$> ls) /\
    col_at rows true xs (set_last_marks (Some (lo_mark <$> ls)) (set_streams ss col)).
Proof.
  intros (Hser & Hn & M & Hs & HM & Hlast) Hsum.
  destruct (mark_streams_spec CityHash128 CityHash128WithSeed (cs_codec sp) mc (cs_limit sp) mlimit co_limit
    (min_compress_block_size st) compressed _ _ _ _ Hs) as (ss & ls & -> & Hl & Hll & Ha).
  exists ss, ls. split; [done|]. split_and!; [done|simpl; lia|].
  exists (fun k => M k ++ from_option (fun l => [l]) [] (ls !! k)). cbn [column_streams set_last_marks set_streams last_non_written_marks]. split_and!.
  - intros k s Hk. destruct (lookup_lt_is_Some_2 ls k) as [l El]; [apply lookup_lt_Some in Hk; lia|]. rewrite El. simpl.
    destruct (HM k) as [Hlk _]; [apply lookup_lt_Some in Hk; lia|]. rewrite marks_data_more by (rewrite Hlk; simpl; lia).
    destruct (Ha k s l Hk El) as (? & ? & _). done.
  - intros k Hk. destruct (lookup_lt_is_Some_2 ls k ltac:(lia)) as [l El]. destruct (lookup_lt_is_Some_2 ss k ltac:(lia)) as [s Es].
    rewrite El. cbn [from_option]. destruct (HM k Hk) as [Hlk Hp]. rewrite length_app, Hlk. split; [simpl; lia|].
    intros i l' [Hi|[Hge Hi]]%lookup_app_Some; [by apply Hp|]. apply list_lookup_singleton_Some in Hi as [Hi <-].
    destruct (Ha k s l Es El) as (_ & _ & ->). unfold start_of. rewrite (take_ge rows i) by (simpl in *; lia).
    by rewrite Hsum, Nat2Z.id, firstn_all.
  - eexists. split; [done|]. split; [rewrite length_fmap; lia|]. intros k m Hm. rewrite list_lookup_fmap in Hm.
    destruct (ls !! k) as [l|] eqn:El; [|done]. simpl in Hm. injection Hm as <-. exists l. split; [|done]. simpl.
    destruct (HM k) as [Hlk _]; [apply lookup_lt_Some in El; lia|]. simpl in Hlk.
    rewrite lookup_app_r by lia. by rewrite Hlk, Nat.add_0_r, Nat.sub_diag.
Qed.

(** The rows of a granule are written. *)
Lemma col_write rows pend xs col data granule state :
  col_at rows pend xs col -> Forall (fun r => 0 <= r) rows -> Zsum rows <= Z.of_nat (length xs) ->
  0 <= start_row granule -> 0 < rows_to_write granule -> start_row granule + rows_to_write granule <= Z.of_nat (length data) ->
  exists col', writeSingleGranule CityHash128 CityHash128WithSeed data granule state col = (Ok tt, col') /\
    col_at rows pend (xs ++ take (Z.to_nat (rows_to_write granule)) (drop (Z.to_nat (start_row granule)) data)) col' /\
    last_non_written_marks col' = last_non_written_marks col /\ serialization_state col' <> None.
Proof.
  intros (Hser & Hn & M & Hs & HM & Hlast) Hrows Hsum H0 Hpos Hend. set (new := take _ _). unfold writeSingleGranule. rewrite Hser.
  pose proof (rw_pieces (ser := cs_serialization sp) data (start_row granule) (rows_to_write granule) state H0 Hpos Hend) as [Hp Henc].
  destruct (serializeBinaryBulkWithMultipleStreams _ _ _ _ _) as [pieces state']. simpl in Hp, Henc. rewrite <- Hn in Hp.
  assert (Ho : all_at (fun k s => opened k (M k) (marks_data adaptive (M k) rows) s (enc k xs)) (column_streams col))
    by (intros k s Hk; by destruct (Hs k s Hk)).
  destruct (write_streams_spec CityHash128 CityHash128WithSeed (cs_codec sp) mc (cs_limit sp) mlimit co_limit
    (min_compress_block_size st) compressed M _ _ pieces (column_streams col) Ho Hp) as (ss & E & Hl & Ha).
  unfold on_streams. cbn [set_state column_streams]. rewrite E. cbn [andthen set_streams column_streams].
  destruct (next_streams_spec CityHash128 CityHash128WithSeed (cs_codec sp) mc (cs_limit sp) mlimit co_limit
    (min_compress_block_size st) compressed M _ _ ss Ha) as (ss' & -> & Hl' & Ha').
  eexists. split; [done|]. split; [|by split]. split; [done|]. split; [simpl; lia|]. exists M. split_and!; [|intros k Hk|done].
  - intros k s Hk. simpl in Hk. pose proof (lookup_lt_Some _ _ _ Hk). rewrite rw_app. unfold new. rewrite <- Henc by lia. by apply Ha'.
  - destruct (HM k Hk) as [Hlk Hpk]. split; [done|]. by apply positions_app.
Qed.

(** The mark that is pending is written to the file. *)
Lemma col_flush rows xs col r ms : col_at rows true xs col -> last_non_written_marks col = Some ms ->
  exists ss, flush_marks CityHash128 CityHash128WithSeed adaptive r ms (column_streams col) = (Ok tt, ss) /\
    col_at (rows ++ [r]) false xs (set_last_marks None (set_streams ss col)).
Proof.
  intros (Hser & Hn & M & Hs & HM & (ms' & Hlast & Hlm & Hms)) E. rewrite Hlast in E. injection E as ->.
  destruct (flush_streams_spec CityHash128 CityHash128WithSeed (cs_codec sp) mc (cs_limit sp) mlimit Hmlimit
    (min_compress_block_size st) compressed adaptive r _ _ _ ms _ Hs ltac:(lia)) as (ss & -> & Hl & Ha).
  exists ss. split; [done|]. split; [done|]. split; [simpl; lia|]. exists M. cbn [column_streams set_last_marks set_streams last_non_written_marks]. split_and!.
  - intros k s Hk. pose proof (lookup_lt_Some _ _ _ Hk) as Hlt. destruct (Ha k s Hk) as [Ho Hr]. split; [|done].
    destruct (lookup_lt_is_Some_2 ms k ltac:(lia)) as [m Hm]. rewrite Hm in Ho. simpl in Ho. destruct (Hms k m Hm) as (l & Hlk & <-).
    destruct (HM k) as [Hlen _]; [lia|]. assert (EM : M k = take (length rows) (M k) ++ [l]).
    { rewrite <- (firstn_all (M k)) at 1. rewrite Hlen. simpl. rewrite Nat.add_1_r. by apply take_S_r. }
    replace (marks_data adaptive (M k) (rows ++ [r])) with (marks_data adaptive (M k) rows ++ mark_bytes adaptive (lo_mark l) r); [done|].
    rewrite EM, marks_data_snoc, marks_data_more by (rewrite length_take, Hlen; simpl; lia). done.
  - intros k Hk. destruct (HM k Hk) as [Hlen Hp]. rewrite length_app. simpl in *. split; [lia|]. apply positions_snoc; [lia|done].
  - done.
Qed.

(** A granule of the block, with its mark before and after it where it has them. *)
Context {G : Type} `{!MergeTreeIndexGranularity G} (rows_of : G -> list Z) (wf growing : G -> Prop) `{!GranularityLaws G rows_of wf growing}.

Lemma write_granule_spec (g : G) data granule m written xs col r :
  wf g -> rows_of g !! m = Some r -> 0 <= written -> mark_number granule = Z.of_nat m -> mark_on_start granule = (written =? 0) ->
  Zsum (take m (rows_of g)) + written = Z.of_nat (length xs) ->
  0 <= start_row granule -> 0 < rows_to_write granule -> start_row granule + rows_to_write granule <= Z.of_nat (length data) ->
  col_at (take m (rows_of g)) (0 <? written) xs col -> serialization_state col <> None ->
  exists col', write_granule CityHash128 CityHash128WithSeed st g data granule col = (Ok tt, col') /\ serialization_state col' <> None /\
    let xs' := xs ++ take (Z.to_nat (rows_to_write granule)) (drop (Z.to_nat (start_row granule)) data) in
    if is_complete granule then col_at (take (S m) (rows_of g)) false xs' col' else col_at (take m (rows_of g)) true xs' col'.
Proof.
  intros Hg Er Hw Hnum Hstart Hsum H0 Hpos Hend Hcol Hst. unfold write_granule.
  assert (Hmark : exists col1, take_marks CityHash128 CityHash128WithSeed st granule col = (Ok tt, col1) /\ col_at (take m (rows_of g)) true xs col1 /\ serialization_state col1 <> None).
  { unfold take_marks. rewrite Hstart. destruct (Z.eqb_spec written 0) as [->|Hne].
    - destruct (col_mark _ _ _ Hcol ltac:(lia)) as (ss & ls & -> & Hc). destruct Hcol as (_ & _ & M & _ & _ & Hlast). simpl in Hlast.
      rewrite Hlast. eauto.
    - destruct (Z.ltb_spec 0 written); [|lia]. eauto. }
  destruct Hmark as (col1 & -> & Hc1 & Hst1). cbn [andthen]. destruct (serialization_state col1) as [state|]; [|done].
  pose proof (ok_nonneg _ (law_ok g Hg)) as Hn.
  destruct (col_write _ _ _ _ data granule state Hc1) as (col2 & -> & Hc2 & Hlast & Hst2); [by apply Forall_take|lia|done|done|done|].
  cbn [andthen]. destruct (is_complete granule); [|by exists col2]. rewrite Hnum, law_rows, Er by done.
  pose proof Hc2 as (_ & _ & M & _ & _ & (ms & Hms & _)). rewrite Hms.
  destruct (col_flush _ _ _ r ms Hc2 Hms) as (ss & E & Hc3). unfold on_streams. rewrite E. cbn [andthen]. eexists. split; [done|]. split; [done|].
  by rewrite (take_S_r _ _ _ Er).
Qed.

Lemma write_granules_spec (g : G) data granules m written row m' written' xs col :
  wf g -> covers (rows_of g) (Z.of_nat (length data)) m written row granules m' written' -> 0 <= row -> 0 <= written ->
  Zsum (take m (rows_of g)) + written = Z.of_nat (length xs) ->
  col_at (take m (rows_of g)) (0 <? written) xs col -> serialization_state col <> None ->
  exists col', write_granules CityHash128 CityHash128WithSeed st g data granules col = (Ok tt, col') /\
    col_at (take m' (rows_of g)) (0 <? written') (xs ++ drop (Z.to_nat row) data) col'.
Proof.
  intros Hg H. revert xs col.
  induction H as [m written|m written row r granules m' written' Hr Hw Hrow Hfit H IH|m written row r Hr Hw Hrow Hfit];
    intros xs col Hrow0 Hw0 Hsum Hcol Hst; cbn [write_granules].
  - exists col. rewrite Nat2Z.id, drop_all, app_nil_r. done.
  - destruct (write_granule_spec g data {| start_row := row; rows_to_write := r - written; mark_number := Z.of_nat m;
      mark_on_start := written =? 0; is_complete := true |} m written xs col r) as (col1 & -> & Hst1 & Hc1); try done; cbn [start_row rows_to_write]; [lia|lia|].
    cbn [andthen is_complete start_row rows_to_write] in *. edestruct IH as (col2 & -> & Hc2); [| | |exact Hc1|done|]; [lia|lia| |].
    { rewrite (Zsum_take_S _ _ _ Hr), length_app, length_take, length_drop. lia. }
    exists col2. split; [done|]. rewrite <- app_assoc in Hc2.
    replace (Z.to_nat (row + (r - written))) with (Z.to_nat row + Z.to_nat (r - written))%nat in Hc2 by lia.
    by rewrite <- drop_drop, take_drop in Hc2.
  - destruct (write_granule_spec g data {| start_row := row; rows_to_write := Z.of_nat (length data) - row; mark_number := Z.of_nat m;
      mark_on_start := written =? 0; is_complete := false |} m written xs col r) as (col1 & -> & Hst1 & Hc1); try done; cbn [start_row rows_to_write]; [lia|lia|].
    cbn [andthen is_complete start_row rows_to_write] in *. exists col1. split; [done|]. rewrite (proj2 (Z.ltb_lt 0 _)) by lia.
    by rewrite (take_ge (drop _ data)) in Hc1 by (rewrite length_drop; lia).
Qed.

(** [writeColumn] *)
Lemma writeColumn_spec (g : G) data granules m written m' written' xs col :
  wf g -> covers (rows_of g) (Z.of_nat (length data)) m written 0 granules m' written' -> 0 <= written -> data <> [] ->
  Zsum (take m (rows_of g)) + written = Z.of_nat (length xs) -> col_at (take m (rows_of g)) (0 <? written) xs col ->
  exists col', writeColumn CityHash128 CityHash128WithSeed st g granules data col = (Ok tt, col') /\
    col_at (take m' (rows_of g)) (0 <? written') (xs ++ data) col'.
Proof.
  intros Hg Hc Hw Hd Hsum Hcol. unfold writeColumn.
  destruct (covers_shift _ _ _ _ _ _ _ _ Hc) as (gr & Hlast & _); [destruct data; simpl; [done|lia]|].
  destruct granules as [|gr0 granules]; [done|]. cbn [length Nat.eqb].
  assert (Hpre : exists col1, write_prefix CityHash128 CityHash128WithSeed data col = (Ok tt, col1) /\ col_at (take m (rows_of g)) (0 <? written) xs col1 /\ serialization_state col1 <> None).
  { unfold write_prefix. destruct (serialization_state col) eqn:E; [exists col; rewrite E; done|]. destruct Hcol as (Hser & Hrest). rewrite Hser.
    pose proof (rw_prefix (ser := cs_serialization sp) data) as Hp. destruct (serializeBinaryBulkStatePrefix _ _) as [pieces state]. simpl in Hp. subst pieces.
    eexists. split; [done|]. done. }
  destruct Hpre as (col1 & -> & Hc1 & Hst1). cbn [andthen].
  by apply (write_granules_spec g data _ m written 0 m' written' xs col1).
Qed.

End Column.
