(* ===== verification/WideWriter.v ===== *)
(** The writer of wide parts (src/Storages/MergeTree/MergeTreeDataPartWriterWide.cpp)
    is correct: whatever the blocks, the streams of a column have the encodings of all
    its rows, and a mark for the beginning of each granule. *)
From S2P Require Import Prelude IntText BinaryIO ReadBuffer ReadBufferFromFile WriteBuffer Codec HashingBuffer.
From S2P Require Import CompressedWriteBuffer CompressedReadBuffer CompressedFile CompressedStream Marks.
From S2P Require Import PartStream IndexGranularity Granules WidePart.
Import Binary.

Section WriterProofs.
Context (CityHash128 : bytes -> Z * Z) (CityHash128WithSeed : bytes -> Z * Z -> Z * Z).
Context (mc : ICompressionCodec) (mlimit : Z) `{!FitsReserve mc mlimit} (Hmlimit : mlimit < 2 ^ 30).
Context (st : WriterSettings) (compressed : bool).
Context {Row SState : Type} (specs : list (ColumnSpec Row SState)).
Context {G : Type} `{!MergeTreeIndexGranularity G} (rows_of : G -> list Z) (wf growing : G -> Prop) `{!GranularityLaws G rows_of wf growing}.

Abbreviation Writer := (PartWriter (G := G) (Row := Row) (SState := SState)).
Abbreviation rows w := (rows_of (index_granularity w)).
Abbreviation adaptive := (can_use_adaptive_granularity st).
Implicit Types (w : Writer) (xss : list (list Row)) (block : Block (Row := Row)).

(** * The invariant *)

(** The column with this number. *)
Definition column_at (rows : list Z) (pend : bool) (total : Z) xss (j : nat) (col : ColumnWriter (Row := Row) (SState := SState)) : Prop :=
  exists sp xs, specs !! j = Some sp /\ ColumnOk sp /\ xss !! j = Some xs /\ Z.of_nat (length xs) = total /\
    col_at CityHash128 CityHash128WithSeed mc mlimit st compressed sp rows pend xs col.

(** The columns have the rows [xss], [total] of them, and the writer is in mark [m]. *)
Record writer_at xss (total : Z) (m : nat) w : Prop := {
  wa_wf : wf (index_granularity w);
  wa_mark : current_mark w = Z.of_nat m;
  wa_bound : (m <= length (rows w))%nat;
  wa_sum : Zsum (take m (rows w)) + rows_written_in_last_mark w = total;
  wa_written : 0 <= rows_written_in_last_mark w;
  wa_partial : 0 < rows_written_in_last_mark w -> exists r, rows w !! m = Some r /\ rows_written_in_last_mark w < r;
  wa_count : length (columns w) = length specs;
  wa_columns : all_at (column_at (take m (rows w)) (0 <? rows_written_in_last_mark w) total xss) (columns w) }.

(** The rows of a block. *)
Record block_ok block : Prop := {
  bo_count : length (block_columns block) = length specs;
  bo_rows : Forall (fun data => Z.of_nat (length data) = block_rows block) (block_columns block);
  bo_positive : 0 < block_rows block }.

Definition add_rows xss block : list (list Row) := zip_with app xss (block_columns block).

Lemma column_write g granules m written m' written' total xss block cols :
  wf g -> block_ok block -> covers (rows_of g) (block_rows block) m written 0 granules m' written' -> 0 <= written ->
  Zsum (take m (rows_of g)) + written = total -> length cols = length specs ->
  all_at (column_at (take m (rows_of g)) (0 <? written) total xss) cols ->
  exists cols', for_each2 (writeColumn CityHash128 CityHash128WithSeed st g granules) (block_columns block) cols = (Ok tt, cols') /\
    length cols' = length cols /\
    all_at (column_at (take m' (rows_of g)) (0 <? written') (total + block_rows block) (add_rows xss block)) cols'.
Proof.
  intros Hg [Hcount Hrows Hpos] Hc Hw Hsum Hl Hcols.
  apply (for_each2_spec _ (fun j data col => block_columns block !! j = Some data /\ column_at (take m (rows_of g)) (0 <? written) total xss j col));
    [|lia|intros j data col Hd Hcol; split; [done|by apply Hcols]].
  intros j data col [Hd (sp & xs & Hsp & Hok & Hx & Hlen & Hcol)]. pose proof (Forall_lookup_1 _ _ _ _ Hrows Hd) as Hdl. simpl in Hdl.
  rewrite <- Hdl in Hc.
  destruct (writeColumn_spec CityHash128 CityHash128WithSeed mc mlimit Hmlimit st compressed sp rows_of wf growing g data granules m written m' written' xs col)
    as (col' & E & Hcol'); try done; [by intros ->; simpl in *; lia|lia|].
  exists col'. split; [done|]. exists sp, (xs ++ data). split_and!; try done; [|rewrite length_app; lia].
  unfold add_rows. rewrite lookup_zip_with, Hx. simpl. by rewrite Hd.
Qed.

(** Blocks that are not granules of their own. *)
Context (Hblocks : adaptive && blocks_are_granules_size st = false).

(** The rows of a block are written, if there are marks for them. *)
Lemma write_rows_spec xss total m w block :
  writer_at xss total m w -> block_ok block -> specs <> [] ->
  total + block_rows block <= Zsum (rows w) ->
  exists granules w' m', getGranulesToWrite (index_granularity w) (block_rows block) (current_mark w) (rows_written_in_last_mark w) = Ok granules /\
    (on_columns (for_each2 (writeColumn CityHash128 CityHash128WithSeed st (index_granularity w) granules) (block_columns block))
        (if (length (columns w) =? 0)%nat then w else set_data_written w) >> shiftCurrentMark st granules) = (Ok tt, w') /\
    writer_at (add_rows xss block) (total + block_rows block) m' w' /\ index_granularity w' = index_granularity w /\ data_written w' = true.
Proof.
  intros [Hg Hm Hb Hs Hw Hp Hcnt Hcols] Hbl Hne Hfit. pose proof (bo_positive _ Hbl) as Hpos.
  destruct (getGranulesToWrite_spec rows_of wf growing (index_granularity w) (block_rows block) m (rows_written_in_last_mark w))
    as (gs & m' & written' & E & Hc); [done|done|done|done|lia|].
  exists gs. rewrite Hm, E. destruct (Nat.eqb_spec (length (columns w)) 0) as [E0|_]; [destruct specs; simpl in *; [done|lia]|].
  destruct (column_write _ _ _ _ _ _ _ _ block _ Hg Hbl Hc Hw Hs Hcnt Hcols) as (cols & Ec & Hl & Hcols'). unfold on_columns. simpl. rewrite Ec. cbn [andthen].
  destruct (covers_shift _ _ _ _ _ _ _ _ Hc Hpos) as (gr & Hlast & Hshift). unfold shiftCurrentMark. rewrite Hlast.
  destruct (covers_sum _ _ _ _ _ _ _ _ Hc Hw Hp) as (Hs' & Hw' & Hp' & Hb'). specialize (Hb' Hb). rewrite Hblocks.
  assert (Hlen : (0 < length gs)%nat) by (destruct gs; simpl in *; [done|lia]).
  destruct (is_complete gr); destruct Hshift as [Em Ew]; cbn [negb]; eexists _, m'; (split; [done|]); (split; [done|]); (split; [|done]);
    cbn [set_mark set_columns set_data_written current_mark rows_written_in_last_mark]; try rewrite <- Ew; (split; simpl; try done; lia).
Qed.

(** * The granularity of a block *)

Lemma flush_columns rows total xss r cols : all_at (column_at rows true total xss) cols ->
  exists cols', for_each (flush_last_marks CityHash128 CityHash128WithSeed st r) cols = (Ok tt, cols') /\ length cols' = length cols /\
    all_at (column_at (rows ++ [r]) false total xss) cols'.
Proof.
  intros H. apply (for_each_spec _ (column_at rows true total xss)); [|done]. intros j col (sp & xs & Hsp & Hok & Hx & Hl & Hcol).
  pose proof Hcol as (_ & _ & M & _ & _ & (ms & Hms & _)). unfold flush_last_marks. rewrite Hms.
  destruct (col_flush CityHash128 CityHash128WithSeed mc mlimit Hmlimit st compressed sp _ _ _ r ms Hcol Hms) as (ss & E & Hc). unfold on_streams. rewrite E.
  cbn [andthen]. eexists. split; [done|]. by exists sp, xs.
Qed.

(** Some column has a mark that was not written. *)
Lemma marks_pending rows total xss cols : all_at (column_at rows true total xss) cols -> length cols = length specs -> specs <> [] ->
  forallb (fun c => match last_non_written_marks c with None => true | Some _ => false end) cols = false.
Proof.
  intros H Hl Hne. destruct cols as [|col cols]; [destruct specs; [done|simpl in Hl; lia]|].
  destruct (H 0%nat col eq_refl) as (sp & xs & _ & _ & _ & _ & _ & _ & M & _ & _ & (ms & Hms & _)). simpl. by rewrite Hms.
Qed.

(** The last mark gets another number of rows, and is written if it has all of them. *)
Lemma adjust_spec xss total m w n :
  writer_at xss total m w -> specs <> [] -> compute_granularity st && adaptive = true -> 0 < rows_written_in_last_mark w <= n ->
  S m = length (rows w) -> total + n < 2 ^ 62 ->
  exists w' m', adjustLastMarkIfNeedAndFlushToDisk CityHash128 CityHash128WithSeed st n w = (Ok tt, w') /\ writer_at xss total m' w' /\
    rows w' = take m (rows w) ++ [n] /\ data_written w' = data_written w /\
    getConstantGranularity (index_granularity w') = getConstantGranularity (index_granularity w) /\
    (getConstantGranularity (index_granularity w) = None -> growing (index_granularity w')) /\
    (n = rows_written_in_last_mark w -> m' = length (rows w') /\ rows_written_in_last_mark w' = 0).
Proof.
  intros [Hg Hm Hb Hs Hw Hp Hcnt Hcols] Hne Hca Hn Hlast Hmax. pose proof (law_ok _ Hg) as Hok. pose proof (ok_length _ Hok).
  destruct (Hp ltac:(lia)) as (old & Eold & Hold). assert (ER : rows w = take m (rows w) ++ [old]).
  { rewrite <- (take_S_r _ _ _ Eold), Hlast. by rewrite firstn_all. }
  destruct (law_adjust (index_granularity w) n _ _ Hg ER) as (g' & Ea & Er' & Hg' & Ec & Hgr); [lia|lia|lia|].
  unfold adjustLastMarkIfNeedAndFlushToDisk. destruct (Z.ltb_spec n (rows_written_in_last_mark w)); [lia|].
  rewrite Hca, Hm, law_count, uwrap_small by (done || unfold in_unsigned; lia).
  rewrite (proj2 (Z.eqb_eq _ _)) by lia. cbn [negb]. rewrite Ea. cbn [andthen]. unfold set_granularity at 1. cbn [columns].
  assert (Hlt : (0 <? rows_written_in_last_mark w) = true) by (apply Z.ltb_lt; lia). rewrite Hlt in Hcols.
  assert (Etake : take m (rows_of g') = take m (rows w)) by (rewrite Er'; apply take_app_length'; rewrite length_take; lia).
  assert (Elook : rows_of g' !! m = Some n) by (rewrite Er', lookup_app_r by (rewrite length_take; lia); by rewrite length_take, Nat.min_l, Nat.sub_diag by lia).
  rewrite (marks_pending _ _ _ _ Hcols Hcnt Hne). cbn [set_granularity rows_written_in_last_mark index_granularity current_mark].
  assert (Hlen : length (rows_of g') = S m) by (rewrite Er', length_app, length_take; simpl; lia).
  destruct (Z.eqb_spec (rows_written_in_last_mark w) n) as [En|En].
  - rewrite Hm, law_rows, Elook by done. destruct (flush_columns _ _ _ n _ Hcols) as (cols & Ef & Hl & Hcols').
    unfold on_columns. cbn [set_granularity columns]. rewrite Ef. cbn [andthen]. eexists _, (S m). split; [done|]. split; [|split_and!; done].
    split; cbn [set_mark set_columns set_granularity index_granularity current_mark rows_written_in_last_mark columns]; try done; try lia.
    + rewrite <- Hlen, firstn_all, Er', Zsum_app. simpl. lia.
    + rewrite <- Hlen, firstn_all, Er'. done.
  - eexists _, m. split; [done|]. split; [|split_and!; try done; intros; lia].
    split; cbn [set_granularity index_granularity current_mark rows_written_in_last_mark columns]; try done; try lia.
    + by rewrite Etake.
    + intros _. exists n. split; [done|lia].
    + by rewrite Etake, Hlt.
Qed.

(** While the granularity is computed. *)
Record computing (most total : Z) w : Prop := {
  cg_growing : growing (index_granularity w);
  cg_tight : tight most (rows w) total;
  cg_constant c : getConstantGranularity (index_granularity w) = Some c -> c <= most;
  cg_adaptive : getConstantGranularity (index_granularity w) = None -> adaptive = true }.

Lemma granularity_bounds most block w :
  0 < block_rows block -> 0 <= block_bytes block -> 0 < index_granularity_bytes st -> 0 < fixed_index_granularity st <= most ->
  wf (index_granularity w) -> growing (index_granularity w) ->
  (forall c, getConstantGranularity (index_granularity w) = Some c -> c <= most) ->
  (getConstantGranularity (index_granularity w) = None -> adaptive = true) ->
  block_granularity (index_granularity w) (granularity_for_block st block (index_granularity w)) /\
  granularity_for_block st block (index_granularity w) <= most.
Proof.
  intros Hr Hb Hi Hf Hg Hgr Hconst Had. unfold block_granularity, granularity_for_block.
  destruct (getConstantGranularity (index_granularity w)) as [c|] eqn:Ec.
  - destruct (law_constant _ _ Hg Hgr Ec). split; [done|]. by apply Hconst.
  - rewrite (Had eq_refl) in *. simpl in Hblocks. unfold computeIndexGranularity. rewrite Hblocks. cbn [negb].
    set (n := if index_granularity_bytes st <=? block_bytes block then _ else _).
    assert (0 <= n) by (unfold n; case_match; apply Z_div_nonneg_nonneg; try lia; apply Z_div_nonneg_nonneg; lia).
    destruct (Z.eqb_spec (Z.min (fixed_index_granularity st) n) 0); lia.
Qed.

(** The last mark is cut if it is much larger than the granules of the block. *)
Lemma adjust_for_block_spec most xss total m w n :
  writer_at xss total m w -> computing most total w -> specs <> [] -> compute_granularity st = true ->
  block_granularity (index_granularity w) n -> n <= most -> total + most < 2 ^ 60 ->
  exists w' m', adjust_for_block CityHash128 CityHash128WithSeed st n w = (Ok tt, w') /\ writer_at xss total m' w' /\ computing most total w' /\
    data_written w' = data_written w /\ getConstantGranularity (index_granularity w') = getConstantGranularity (index_granularity w).
Proof.
  intros Hw Hc Hne Hcg [Hpos Hn] Hmost Hmax. pose proof Hw as [Hg Hm Hb Hs Hwr Hp _ _]. pose proof Hc as [Hgr Ht Hcst Had]. pose proof (law_ok _ Hg) as Hok.
  unfold adjust_for_block. destruct (Z.ltb_spec 0 (rows_written_in_last_mark w)) as [Hlt|]; [|by exists w, m].
  destruct (Hp Hlt) as (r & Er & Hr). rewrite Hm, law_rows, Er by done. pose proof (ok_prefix _ m Hok). pose proof (ok_prefix _ (S m) Hok).
  pose proof (Zsum_take_S _ _ _ Er). pose proof (ok_total _ Hok). rewrite uwrap_small by (unfold in_unsigned; lia).
  pose proof (tight_last _ _ _ _ _ Ht (ok_nonneg _ Hok) Hb Hs Hwr Hp) as Hlast. rewrite (proj2 (Z.ltb_lt _ _) Hlt) in Hlast.
  destruct (Z.ltb_spec n (r - rows_written_in_last_mark w)) as [Hbig|]; [|by exists w, m].
  destruct (getConstantGranularity (index_granularity w)) as [c|] eqn:Ec.
  { destruct (law_constant _ _ Hg Hgr Ec) as [_ Hall]. pose proof (Forall_lookup_1 _ _ _ _ Hall Er). simpl in *. lia. }
  assert (Hca : compute_granularity st && adaptive = true) by (by rewrite Hcg, Had).
  assert (Hadj : forall k, rows_written_in_last_mark w <= k <= most \/ k = rows_written_in_last_mark w -> k < 2 ^ 60 ->
    k <= most ->
    exists w' m', adjustLastMarkIfNeedAndFlushToDisk CityHash128 CityHash128WithSeed st k w = (Ok tt, w') /\ writer_at xss total m' w' /\ computing most total w' /\
      data_written w' = data_written w /\ getConstantGranularity (index_granularity w') = None).
  { intros k Hk Hk' Hkm. destruct (adjust_spec xss total m w k) as (w' & m' & E & Hw' & Er' & Hd & Ec' & Hgr' & _); try done; [lia|lia|].
    exists w', m'. rewrite Ec in Ec'. split_and!; try done. split; [by apply Hgr'| |by rewrite Ec'|by rewrite Ec'].
    rewrite Er'. split; [rewrite Zsum_app; simpl; lia|]. intros before x [<- <-]%app_inj_tail. lia. }
  destruct Ht as [_ Htl]. assert (ER : rows w = take m (rows w) ++ [r]).
  { rewrite <- (take_S_r _ _ _ Er), Hlast. by rewrite firstn_all. }
  destruct (Htl _ _ ER). destruct (Z.leb_spec n (rows_written_in_last_mark w)); apply Hadj; lia.
Qed.

Lemma compute_granularity_for_spec most xss total m w block :
  writer_at xss total m w -> computing most total w -> specs <> [] -> compute_granularity st = true -> block_ok block ->
  0 <= block_bytes block -> 0 < index_granularity_bytes st -> 0 < fixed_index_granularity st <= most -> total + block_rows block + most < 2 ^ 60 ->
  exists w' m', compute_granularity_for CityHash128 CityHash128WithSeed st block w = (Ok tt, w') /\ writer_at xss total m' w' /\
    computing most (total + block_rows block) w' /\ data_written w' = data_written w.
Proof.
  intros Hw Hc Hne Hcg Hbl Hbytes Hi Hf Hmax. pose proof (bo_positive _ Hbl) as Hpos. unfold compute_granularity_for.
  pose proof Hc as [Hgr _ Hcst Had]. pose proof Hw as [Hg _ _ _ _ _ _ _].
  destruct (granularity_bounds most block w Hpos Hbytes Hi Hf Hg Hgr Hcst Had) as [Hn Hnm]. set (n := granularity_for_block st block _) in *.
  destruct (adjust_for_block_spec most xss total m w n Hw Hc Hne Hcg Hn Hnm ltac:(lia)) as (w1 & m1 & -> & Hw1 & [Hgr1 Ht1 Hcst1 Had1] & Hd & Ec). cbn [andthen].
  destruct Hw1 as [Hg1 Hm1 Hb1 Hs1 Hwr1 Hp1 Hcnt1 Hcols1].
  destruct (fillIndexGranularity_spec rows_of wf growing most (index_granularity w1) n (block_rows block) m1 (rows_written_in_last_mark w1) total)
    as (g' & more & E & Er & Hg' & Hgr' & Ec' & Ht'); try done; [by unfold block_granularity; rewrite Ec|].
  rewrite Hm1, E. eexists _, m1. split; [done|]. split; [|split; [|done]].
  - assert (Et : take m1 (rows_of g') = take m1 (rows w1)) by (rewrite Er; by apply take_app_le).
    split; cbn [set_granularity index_granularity current_mark rows_written_in_last_mark columns]; try done; rewrite ?Et; try done.
    + rewrite Er, length_app. lia.
    + intros Hlt. destruct (Hp1 Hlt) as (r & Hr & ?). exists r. split; [|done]. rewrite Er. by apply lookup_app_l_Some.
  - split; simpl; try done; by rewrite Ec'.
Qed.

(** * Blocks *)

(** Blocks are written one after another. *)
Fixpoint write_blocks (blocks : list (Block (Row := Row))) w : outcome Writer :=
  match blocks with
  | [] => (Ok tt, w)
  | block :: blocks => write_block_rows CityHash128 CityHash128WithSeed st block w >> write_blocks blocks
  end.

Definition all_rows (blocks : list (Block (Row := Row))) : Z := Zsum (block_rows <$> blocks).
Definition all_columns xss (blocks : list (Block (Row := Row))) : list (list Row) := foldl add_rows xss blocks.

(** If the granularity is given, it has marks for the rows; otherwise it is computed. *)
Definition marks_for (most total : Z) w : Prop :=
  if compute_granularity st then computing most total w else True.
Definition room_for (most total : Z) w : Prop :=
  if compute_granularity st then total + most < 2 ^ 60 /\ 0 < index_granularity_bytes st /\ 0 < fixed_index_granularity st <= most
  else total <= Zsum (rows w).

Lemma write_block_rows_spec most xss total m w block :
  writer_at xss total m w -> marks_for most total w -> specs <> [] -> block_ok block -> 0 <= block_bytes block ->
  room_for most (total + block_rows block) w ->
  exists w' m', write_block_rows CityHash128 CityHash128WithSeed st block w = (Ok tt, w') /\
    writer_at (add_rows xss block) (total + block_rows block) m' w' /\ marks_for most (total + block_rows block) w' /\ data_written w' = true /\
    (compute_granularity st = false -> index_granularity w' = index_granularity w).
Proof.
  intros Hw Hm Hne Hbl Hby Hroom. unfold write_block_rows, marks_for, room_for in *. destruct (compute_granularity st) eqn:Ecg.
  - destruct Hroom as (Hmax & Hi & Hf).
    destruct (compute_granularity_for_spec most xss total m w block) as (w1 & m1 & -> & Hw1 & Hc1 & _); try done. cbn [andthen].
    destruct (write_rows_spec _ _ _ _ block Hw1 Hbl Hne ltac:(apply Hc1)) as (gs & w2 & m2 & -> & E & Hw2 & Eg & Hd).
    exists w2, m2. split; [exact E|]. destruct Hc1 as [? ? ? ?]. split_and!; try done. split; by rewrite Eg.
  - cbn [andthen]. destruct (write_rows_spec _ _ _ _ block Hw Hbl Hne Hroom) as (gs & w2 & m2 & -> & E & Hw2 & Eg & Hd).
    exists w2, m2. by split_and!.
Qed.

Lemma write_blocks_spec most blocks xss total m w :
  writer_at xss total m w -> marks_for most total w -> specs <> [] -> Forall (fun b => block_ok b /\ 0 <= block_bytes b) blocks ->
  room_for most (total + all_rows blocks) w ->
  exists w' m', write_blocks blocks w = (Ok tt, w') /\
    writer_at (all_columns xss blocks) (total + all_rows blocks) m' w' /\ marks_for most (total + all_rows blocks) w' /\
    (blocks <> [] -> data_written w' = true) /\ (compute_granularity st = false -> index_granularity w' = index_granularity w).
Proof.
  intros Hw Hm Hne Hbl. revert xss total m w Hw Hm. induction Hbl as [|b blocks [Hb Hby] Hbl IH]; intros xss total m w Hw Hm Hroom.
  { exists w, m. unfold all_rows, all_columns. simpl. rewrite Z.add_0_r. done. }
  assert (Hpos : 0 <= all_rows blocks).
  { clear -Hbl. induction Hbl as [|b blocks [Hb _] _ IH]; [done|]. pose proof (bo_positive _ Hb).
    change (all_rows (b :: blocks)) with (block_rows b + all_rows blocks). lia. }
  assert (Eall : all_rows (b :: blocks) = block_rows b + all_rows blocks) by done. rewrite Eall in *. cbn [write_blocks].
  destruct (write_block_rows_spec most xss total m w b) as (w1 & m1 & -> & Hw1 & Hm1 & Hd1 & Eg1); try done.
  { unfold room_for in *. destruct (compute_granularity st); lia. }
  cbn [andthen]. destruct (IH _ _ _ _ Hw1 Hm1) as (w2 & m2 & E2 & Hw2 & Hm2 & Hd2 & Eg2).
  { unfold room_for in *. destruct (compute_granularity st); [lia|]. rewrite Eg1 by done. lia. }
  exists w2, m2. rewrite <- Z.add_assoc in Hw2, Hm2. split_and!; try done.
  - intros _. destruct blocks; [|by apply Hd2]. injection E2 as <-. done.
  - intros Ef. by rewrite Eg2, Eg1.
Qed.

(** * The end of a part *)

(** The final mark has no rows. *)
Definition with_final (final : bool) (done_rows : list Z) : list Z := if final then done_rows ++ [0] else done_rows.

Lemma final_ok done_rows total : rows_ok done_rows -> Forall (fun r => 0 < r) done_rows -> (adaptive = true -> Zsum done_rows = total) -> total < 2 ^ 60 ->
  rows_ok (with_final adaptive done_rows).
Proof.
  intros Hok Hp Hs Ht. unfold with_final. destruct adaptive; [|done]. specialize (Hs eq_refl).
  assert (Hlen : Z.of_nat (length done_rows) <= Zsum done_rows) by (clear -Hp; induction Hp as [|x xs Hx Hp IH]; simpl; [lia|]; fold (Zsum xs); lia).
  apply rows_ok_snoc; try done; try lia. rewrite last_lookup. intros Hz. pose proof (Forall_lookup_1 _ _ _ _ Hp Hz). simpl in *. lia.
Qed.

(** The marks that are complete, with the rows in the file of marks. *)
Record complete_at xss (total : Z) (done_rows : list Z) w : Prop := {
  ca_wf : wf (index_granularity w);
  ca_prefix : done_rows `prefix_of` rows w;
  ca_sum : adaptive = true -> Zsum done_rows = total;
  ca_all : compute_granularity st = true -> done_rows = rows w;
  ca_ok : compute_granularity st = true -> rows_ok (with_final adaptive done_rows);
  ca_total : total <= Zsum done_rows;
  ca_count : length (columns w) = length specs;
  ca_columns : all_at (column_at done_rows false total xss) (columns w) }.

(** The last mark of [fillDataChecksums]. *)
Definition finish_last_mark w : outcome Writer :=
  if 0 <? rows_written_in_last_mark w then
    if adaptive && blocks_are_granules_size st then (Throw LOGICAL_ERROR, w)
    else adjustLastMarkIfNeedAndFlushToDisk CityHash128 CityHash128WithSeed st (rows_written_in_last_mark w) w
  else (Ok tt, w).

Lemma finish_last_mark_spec most xss total m w :
  writer_at xss total m w -> marks_for most total w -> specs <> [] -> total < 2 ^ 60 ->
  (compute_granularity st = false -> adaptive = true -> total = Zsum (rows w)) ->
  exists w' done_rows, finish_last_mark w = (Ok tt, w') /\ complete_at xss total done_rows w' /\ data_written w' = data_written w.
Proof.
  intros Hw Hm Hne Hmax Hall. pose proof Hw as [Hg Hmk Hb Hs Hwr Hp Hcnt Hcols]. pose proof (law_ok _ Hg) as Hok. unfold finish_last_mark, marks_for in *.
  assert (Hlast : compute_granularity st = true -> if 0 <? rows_written_in_last_mark w then S m = length (rows w) else m = length (rows w)).
  { intros E. rewrite E in Hm. destruct Hm as [_ Ht _ _]. by apply (tight_last most _ total _ _ Ht (ok_nonneg _ Hok)). }
  assert (Hpos : compute_granularity st = true -> Forall (fun r => 0 < r) (rows w)) by (intros E; rewrite E in Hm; destruct Hm; by apply law_growing).
  rewrite Hblocks. destruct (Z.ltb_spec 0 (rows_written_in_last_mark w)) as [Hlt|Hge].
  2: { exists w, (take m (rows w)). split; [done|]. split; [|done].
       assert (Eall : compute_granularity st = true -> take m (rows w) = rows w) by (intros E; by rewrite (Hlast E), firstn_all).
       split; try done; [by exists (drop m (rows w)); rewrite take_drop|lia| |lia].
       intros E. apply (final_ok _ total); [by rewrite Eall|rewrite Eall; auto|intros; lia|done]. }
  destruct (Hp Hlt) as (r & Er & Hr). pose proof (Zsum_take_S _ _ _ Er). pose proof (ok_prefix _ (S m) Hok). pose proof (ok_prefix _ m Hok).
  destruct (compute_granularity st && adaptive) eqn:Eca.
  - pose proof Eca as [Ec Ea]%andb_true_iff. rewrite Ec in Hm. destruct (adjust_spec xss total m w (rows_written_in_last_mark w)) as
      (w' & m' & E & Hw' & Er' & Hd & _ & _ & Hall'); try done; [by apply Hlast|lia|].
    destruct (Hall' eq_refl) as [Em' Ew']. destruct Hw' as [Hg' _ _ Hs' _ _ Hcnt' Hcols']. rewrite Em', firstn_all, Ew' in Hs', Hcols'.
    exists w', (rows w'). split; [done|]. split; [|done]. split; try done; try lia. intros _. apply (final_ok _ total); try done; [by apply law_ok| |lia].
    rewrite Er'. apply Forall_app_2; [apply Forall_take; auto|by apply Forall_singleton].
  - unfold adjustLastMarkIfNeedAndFlushToDisk. rewrite Z.ltb_irrefl, Eca. cbn [andthen].
    rewrite (marks_pending _ _ _ _ Hcols Hcnt Hne), Z.eqb_refl, Hmk, law_rows, Er by done.
    destruct (flush_columns _ _ _ r _ Hcols) as (cols & Ef & Hl & Hcols'). unfold on_columns. rewrite Ef. cbn [andthen].
    rewrite <- (take_S_r _ _ _ Er) in Hcols'. eexists _, (take (S m) (rows w)). split; [done|]. split; [|done].
    assert (Eall : compute_granularity st = true -> take (S m) (rows w) = rows w) by (intros Ec; specialize (Hlast Ec); by rewrite Hlast, firstn_all).
    assert (Hsum : adaptive = true -> Zsum (take (S m) (rows w)) = total) by (intros Ea; rewrite Ea, andb_true_r in Eca; specialize (Hall Eca Ea); lia).
    split; simpl; try done; [by exists (drop (S m) (rows w)); rewrite take_drop| |lia|lia].
    intros Ec. apply (final_ok _ total); try done; rewrite Eall; auto.
Qed.

(** The streams of a column are complete. *)
Definition column_finished (all_rows : list Z) total xss (j : nat) (col : ColumnWriter (Row := Row) (SState := SState)) : Prop :=
  exists sp xs, specs !! j = Some sp /\ ColumnOk sp /\ xss !! j = Some xs /\ Z.of_nat (length xs) = total /\
    length (column_streams col) = cs_streams sp /\
    all_at (fun k s => exists ls, length ls = length all_rows /\ positions sp k ls all_rows xs /\
      stream_finished CityHash128 CityHash128WithSeed (cs_codec sp k) mc (cs_limit sp k) mlimit compressed ls (marks_data adaptive ls all_rows) s (cs_enc sp k xs) /\
      Forall (fun l => valid_mark_value (lo_mark l)) ls) (column_streams col).

Lemma finish_column_spec final done_rows total xss cols :
  (final = true -> Zsum done_rows = total) -> all_at (column_at done_rows false total xss) cols ->
  exists cols', for_each (finish_column CityHash128 CityHash128WithSeed st final) cols = (Ok tt, cols') /\ length cols' = length cols /\
    all_at (column_at (with_final final done_rows) false total xss) cols'.
Proof.
  intros Hsum H. apply (for_each_spec _ (column_at done_rows false total xss)); [|done]. intros j col (sp & xs & Hsp & Hok & Hx & Hl & Hcol).
  unfold finish_column. pose proof Hcol as (Hser & _ & M & _ & _ & Hlast). simpl in Hlast.
  assert (Hsuf : match serialization_state col with
    | None => (Ok tt, col)
    | Some state => on_streams (write_streams CityHash128 CityHash128WithSeed (serializeBinaryBulkStateSuffix (serialization col) state)) col
    end = (Ok tt, col)).
  { destruct (serialization_state col); [|done]. rewrite Hser, (rw_suffix (RowWise := co_serialization sp)). by destruct col. }
  rewrite Hsuf. cbn [andthen]. destruct final; [|exists col; split; [done|]; by exists sp, xs]. unfold writeSingleMark.
  destruct (col_mark CityHash128 CityHash128WithSeed mc mlimit st compressed sp _ _ _ Hcol ltac:(rewrite Hsum by done; lia)) as (ss & ls & -> & Hc).
  cbn [andthen]. destruct (col_flush CityHash128 CityHash128WithSeed mc mlimit Hmlimit st compressed sp _ _ _ 0 _ Hc eq_refl) as (ss' & E & Hc').
  unfold on_streams. cbn [set_streams set_last_marks column_streams] in *. rewrite E. eexists. split; [done|]. exists sp, xs. split_and!; try done.
  destruct col. simpl in *. subst. exact Hc'.
Qed.

Lemma prefinalize_columns_spec all_rows total xss cols : all_at (column_at all_rows false total xss) cols ->
  exists cols', for_each (on_streams (for_each (preFinalize CityHash128 CityHash128WithSeed))) cols = (Ok tt, cols') /\ length cols' = length cols /\
    all_at (column_finished all_rows total xss) cols'.
Proof.
  intros H. apply (for_each_spec _ (column_at all_rows false total xss)); [|done]. intros j col (sp & xs & Hsp & Hok & Hx & Hl & Hcol).
  destruct Hcol as (_ & Hn & M & Hs & HM & _). unfold on_streams.
  destruct (prefinalize_streams_spec CityHash128 CityHash128WithSeed (cs_codec sp) mc (cs_limit sp) mlimit (Hfits := co_fits sp) (co_limit sp) Hmlimit (min_compress_block_size st) compressed
    M (fun k => marks_data adaptive (M k) all_rows) (fun k => cs_enc sp k xs) (column_streams col)) as (ss & -> & Hls & Ha);
    [by intros k s Hk; destruct (Hs k s Hk)|].
  eexists. split; [done|]. exists sp, xs. split_and!; try done; [simpl; lia|]. intros k s Hk. exists (M k).
  destruct (HM k) as [Hlen Hp]; [apply lookup_lt_Some in Hk; simpl in Hk; lia|]. destruct (Ha k s Hk). split_and!; try done. simpl in Hlen. lia.
Qed.

Lemma fillDataChecksums_spec most xss total m w :
  writer_at xss total m w -> marks_for most total w -> specs <> [] -> total < 2 ^ 60 ->
  (compute_granularity st = false -> adaptive = true -> total = Zsum (rows w)) ->
  exists w' done_rows, fillDataChecksums CityHash128 CityHash128WithSeed st w = (Ok tt, w') /\
    done_rows `prefix_of` rows w' /\ (compute_granularity st = true -> done_rows = rows w' /\ rows_ok (with_final adaptive done_rows)) /\ total <= Zsum done_rows /\
    length (columns w') = length specs /\ all_at (column_finished (with_final (adaptive && data_written w) done_rows) total xss) (columns w').
Proof.
  intros Hw Hm Hne Hmax Hall. destruct (finish_last_mark_spec most xss total m w Hw Hm Hne Hmax Hall) as (w1 & done_rows & E1 & [Hg Hpre Hsum Hcomp Hfok Htot Hcnt Hcols] & Hd).
  unfold fillDataChecksums. change (if 0 <? rows_written_in_last_mark w then _ else _) with (finish_last_mark w). rewrite E1. cbn [andthen]. unfold on_columns.
  destruct (finish_column_spec (adaptive && data_written w1) done_rows total xss (columns w1)) as (cols & -> & Hl & Hcols1); [|done|].
  { intros [Ha _]%andb_true_iff. by apply Hsum. }
  cbn [andthen set_columns columns]. destruct (prefinalize_columns_spec _ _ _ _ Hcols1) as (cols' & -> & Hl' & Hcols2).
  eexists _, done_rows. split; [done|]. rewrite <- Hd. simpl. split_and!; try done; [by split; [apply Hcomp|apply Hfok]|lia].
Qed.

End WriterProofs.
