(* ===== verification/WideRead.v ===== *)
(** The streams of wide parts are read back
    (src/Storages/MergeTree/MergeTreeReaderStream.cpp, MergeTreeDataPartWide.cpp): marks
    lead to the rows of their granules, and the granularity is that of the writer. *)
From S2P Require Import Prelude IntText BinaryIO ReadBuffer ReadBufferFromFile WriteBuffer Codec HashingBuffer.
From S2P Require Import CompressedWriteBuffer CompressedReadBuffer CompressedFile CompressedStream Marks.
From S2P Require Import PartStream PartReader IndexGranularity GranularityPtr Granules WidePart WideWriter.
Import Binary.

(** * New columns *)

Section NewColumns.
Context (CityHash128 : bytes -> Z * Z) (CityHash128WithSeed : bytes -> Z * Z -> Z * Z).
Context (fresh : nat -> bytes) (fresh_length : forall n, length (fresh n) = n).
Context (mc : ICompressionCodec) (mlimit : Z) `{!FitsReserve mc mlimit}.
Context (st : WriterSettings) (compressed : bool) {Row SState : Type}.
Implicit Types (sp : ColumnSpec Row SState).

Abbreviation StreamArgs := (StreamSettings * FileWriteBuffer * FileWriteBuffer)%type.

(** The settings and the empty files of a stream. *)
Record stream_setup (c : ICompressionCodec) (limit : Z) (a : StreamArgs) : Prop := {
  ss_codec : compression_codec a.1.1 = c;
  ss_marks_codec : marks_compression_codec a.1.1 = mc;
  ss_compressed : marks_compressed a.1.1 = compressed;
  ss_file : fdw_inv a.1.2 [];
  ss_marks_file : fdw_inv a.2 [];
  ss_block : 0 < max_compress_block_size a.1.1 <= limit;
  ss_marks_block : 0 < marks_compress_block_size a.1.1 <= mlimit;
  ss_initial : 0 < adaptive_write_buffer_initial_size a.1.1 <= Z.min limit mlimit }.

Definition column_setup sp (args : list StreamArgs) : Prop :=
  length args = cs_streams sp /\ all_at (fun k a => stream_setup (cs_codec sp k) (cs_limit sp k) a) args.

Lemma new_streams_spec (c : nat -> ICompressionCodec) (limit : nat -> Z) args :
  (forall k, FitsReserve (c k) (limit k)) -> all_at (fun k a => stream_setup (c k) (limit k) a) args ->
  exists ss, new_streams CityHash128 CityHash128WithSeed fresh args = Ok ss /\ length ss = length args /\
    all_at (fun k s => stream_open CityHash128 CityHash128WithSeed (c k) mc (limit k) mlimit (min_compress_block_size st) compressed [] [] s [] /\
      ready (min_compress_block_size st) (compressed_hashing s)) ss.
Proof.
  revert c limit. induction args as [|[[se f] fm] args IH]; intros c limit Hf H; [by exists []|]. apply all_at_cons in H as [H0 H]. cbn [new_streams].
  destruct H0 as [H1 H2 H3 H4 H5 H6 H7 H8]. simpl in *. pose proof (Hf 0%nat) as Hf0.
  destruct (new_stream_spec CityHash128 CityHash128WithSeed fresh fresh_length (c 0%nat) mc (limit 0%nat) mlimit (min_compress_block_size st) compressed
    se f fm) as (s & -> & Ho & Hr); try done.
  destruct (IH (fun k => c (S k)) (fun k => limit (S k)) (fun k => Hf (S k)) H) as (ss & -> & Hl & Ha). cbn [rbind].
  exists (s :: ss). split_and!; [done|simpl; lia|]. by apply all_at_cons.
Qed.

Lemma addStreams_spec sp args : ColumnOk sp -> column_setup sp args ->
  exists col, addStreams CityHash128 CityHash128WithSeed fresh (cs_serialization sp) args = Ok col /\
    col_at CityHash128 CityHash128WithSeed mc mlimit st compressed sp [] false [] col.
Proof.
  intros Hok [Hl Ha]. destruct (new_streams_spec _ _ args (co_fits sp) Ha) as (ss & E & Hls & Hs). unfold addStreams. rewrite E. cbn [rbind].
  eexists. split; [done|]. split; [done|]. split; [simpl; lia|]. exists (fun _ => []). cbn [column_streams]. split_and!; [|done|done].
  intros k s Hk. pose proof Hok as [Hrw _ _]. rewrite rw_nil. by apply Hs.
Qed.

Lemma add_columns_spec specs argss : Forall ColumnOk specs -> length argss = length specs ->
  (forall j sp args, specs !! j = Some sp -> argss !! j = Some args -> column_setup sp args) ->
  exists cols, add_columns CityHash128 CityHash128WithSeed fresh (zip (cs_serialization <$> specs) argss) = Ok cols /\ length cols = length specs /\
    forall j sp col, specs !! j = Some sp -> cols !! j = Some col -> col_at CityHash128 CityHash128WithSeed mc mlimit st compressed sp [] false [] col.
Proof.
  intros Hok. revert argss. induction Hok as [|sp specs Hsp Hok IH]; intros [|args argss] Hl H; try done; [by exists []|].
  change (zip (cs_serialization <$> sp :: specs) (args :: argss)) with ((cs_serialization sp, args) :: zip (cs_serialization <$> specs) argss).
  cbn [add_columns]. destruct (addStreams_spec sp args Hsp (H 0%nat _ _ eq_refl eq_refl)) as (col & -> & Hcol).
  destruct (IH argss ltac:(simpl in Hl; lia) (fun j => H (S j))) as (cols & E & Hlc & Hcols). cbn [rbind]. rewrite E. cbn [rbind].
  exists (col :: cols). split_and!; [done|simpl; lia|]. intros [|j] sp' col' Hj Hc; simpl in *; [by simplify_eq|by apply (Hcols j)].
Qed.

End NewColumns.

Section WideRead.
Context (CityHash128 : bytes -> Z * Z) (CityHash128WithSeed : bytes -> Z * Z -> Z * Z) (factory : Z -> result ICompressionCodec).
Context (fresh : nat -> bytes) (fresh_length : forall n, length (fresh n) = n).
Context (clobber : bytes -> bytes) (clobber_length : forall bs, length (clobber bs) = length bs).
Context (mc mdec : ICompressionCodec) (mlimit : Z) (Hmc : Storable factory mc mdec mlimit) (Hmlimit : mlimit < 2 ^ 30).
Context (adaptive compressed : bool) {Row SState : Type}.
Implicit Types (sp : ColumnSpec Row SState) (xs : list Row) (rows : list Z).

(** * The files of a stream *)

Definition stream_files sp (k : nat) rows xs (s : Stream) : Prop :=
  exists ls blocks, length ls = length rows /\ positions sp k ls rows xs /\ Forall (fun l => valid_mark_value (lo_mark l)) ls /\
    cs_enc sp k xs = mjoin blocks /\ Forall (is_block (cs_limit sp k)) blocks /\ data_file s = stream CityHash128 (cs_codec sp k) blocks /\
    Forall (settled CityHash128 (cs_codec sp k) blocks) ls /\ StronglySorted earlier ls /\
    marks_stored CityHash128 mc mlimit compressed (marks_file s) (marks_data adaptive ls rows).

Lemma finalize_files sp k rows xs s ls :
  length ls = length rows -> positions sp k ls rows xs -> Forall (fun l => valid_mark_value (lo_mark l)) ls ->
  stream_finished CityHash128 CityHash128WithSeed (cs_codec sp k) mc (cs_limit sp k) mlimit compressed ls (marks_data adaptive ls rows) s (cs_enc sp k xs) ->
  exists s', finalize_stream CityHash128 CityHash128WithSeed s = (Ok tt, s') /\ stream_files sp k rows xs s'.
Proof.
  intros Hl Hp Hv H. destruct (finalize_finished _ _ _ _ _ _ _ _ _ _ _ H) as (s' & blocks & E & Ed & Hb & Ef & Hs & Ho & Hm).
  exists s'. split; [done|]. exists ls, blocks. split_and!; try done.
Qed.

(** ** The marks *)

Definition mark_type : MarkType := {| mt_adaptive := adaptive; mt_compressed := compressed; mt_compact := false |}.

Definition mark_rows (ls : list Located) rows : list (list MarkInCompressedFile * Z) := zip_with (fun l r => ([lo_mark l], r)) ls rows.

Lemma marks_data_rows ls rows : marks_data adaptive ls rows = mjoin (row_bytes adaptive <$> mark_rows ls rows).
Proof.
  unfold marks_data, mark_rows. revert rows. induction ls as [|l ls IH]; intros [|r rows]; try done.
  change (mark_bytes adaptive (lo_mark l) r ++ mjoin (zip_with (fun l r => mark_bytes adaptive (lo_mark l) r) ls rows) =
    row_bytes adaptive ([lo_mark l], r) ++ mjoin (row_bytes adaptive <$> zip_with (fun l r => ([lo_mark l], r)) ls rows)).
  by rewrite IH.
Qed.

(** The environment of a reader of a file. *)
Record readable_file (F : bytes) (read_buf alignment : Z) (size : option Z) (calls : list Syscall) : Prop := {
  rf_size : size_of F < 2 ^ 63;
  rf_buffer : 0 < read_buf < 2 ^ 63;
  rf_alignment : 0 <= alignment;
  rf_calls : valid_calls calls;
  rf_no_failure : Failed ∉ calls;
  rf_known : match size with Some n => n = size_of F | None => True end }.

Lemma load_marks_spec ls rows F read_buf alignment pread size calls :
  length ls = length rows -> Forall (fun l => valid_mark_value (lo_mark l)) ls ->
  marks_stored CityHash128 mc mlimit compressed F (marks_data adaptive ls rows) -> Z.of_nat (length rows) < 2 ^ 56 ->
  readable_file F read_buf alignment size calls ->
  exists marks, loadMarksImpl CityHash128 factory fresh clobber mark_type (length rows) 1 (size_of F)
      (open_file F read_buf alignment pread size calls) = Ok marks /\
    forall i l, ls !! i = Some l -> getMark marks 1 i 0 = Ok (lo_mark l).
Proof.
  intros Hl Hv Hm Hn [Hs Hb Ha Hc Hf Hk]. rewrite marks_data_rows in Hm.
  assert (Hlen : length (mark_rows ls rows) = length rows) by (unfold mark_rows; rewrite length_zip_with; lia).
  destruct (loadMarksImpl_spec CityHash128 factory fresh fresh_length clobber clobber_length mc mdec mlimit Hmc Hmlimit mark_type 1 (mark_rows ls rows)
    F read_buf alignment pread size calls) as (marks & E & Hg); try done; [|lia|lia|].
  - clear -Hv. unfold mark_rows. revert rows. induction Hv as [|l ls Hv _ IH]; intros [|r rows]; simpl; try constructor; [|apply IH].
    split; [done|]. by apply Forall_singleton.
  - rewrite Hlen in E. exists marks. split; [done|]. intros i l Hi. destruct (lookup_lt_is_Some_2 rows i) as [r Hr]; [apply lookup_lt_Some in Hi; lia|].
    apply (Hg i 0%nat ([lo_mark l], r)); [|done]. unfold mark_rows. by rewrite lookup_zip_with, Hi; simpl; rewrite Hr.
Qed.

(** ** The data from a mark on *)

Definition from_mark sp (k : nat) rows xs (i : nat) : bytes := cs_enc sp k (drop (start_of rows i) xs).

Lemma position_from_mark sp k rows xs i l : ColumnOk sp -> lo_position l = size_of (cs_enc sp k (take (start_of rows i) xs)) ->
  drop (Z.to_nat (lo_position l)) (cs_enc sp k xs) = from_mark sp k rows xs i /\
  (from_mark sp k rows xs i <> [] -> lo_position l < size_of (cs_enc sp k xs)).
Proof.
  intros [Hrw _ _] Hp. unfold from_mark. rewrite <- (take_drop (start_of rows i) xs) at 1 4. rewrite rw_app, Hp, Nat2Z.id, drop_app_length, length_app. split; [done|].
  intros Hne. assert (length (cs_enc sp k (drop (start_of rows i) xs)) <> 0)%nat by (by intros ?%nil_length_inv). lia.
Qed.

Abbreviation Reader := (ReadBuffer (CompressedReadBufferBase (S := ReadBufferFromFileDescriptor))).

Abbreviation C := (FromCompressedFile CityHash128 factory fresh FileDescriptorOperations clobber).

(** What the reader of a stream can do: move to marks while it did not [readBig], and
    read in both ways. *)
Record stream_reader sp (k : nat) rows xs (marks : MarksInCompressedFile) (at_ after : Reader -> bytes -> Prop) : Prop := {
  sr_seek b data i : at_ b data -> (i < length rows)%nat -> from_mark sp k rows xs i <> [] ->
    exists b', seekToMarkAndColumn marks 1 i 0 b = Ok b' /\ at_ b' (from_mark sp k rows xs i);
  sr_operate op b data : at_ b data -> valid_operation op -> simulates at_ (operate C op b) (flat op data);
  sr_after b data : at_ b data -> after b data;
  sr_reader :: ReaderSpec C after;
  sr_readBig to n b data : after b data -> 0 <= n <= size_of to ->
    exists b', ff_readBig CityHash128 factory fresh FileDescriptorOperations clobber to n b = Ok (take (Z.to_nat n) data, b') /\
      after b' (drop (Z.to_nat n) data) }.

Lemma stream_reader_spec sp k rows xs s marks_buf marks_align mpread msize mcalls read_buf alignment pread size calls different external :
  ColumnOk sp -> (exists dec, Storable factory (cs_codec sp k) dec (cs_limit sp k)) -> stream_files sp k rows xs s -> Z.of_nat (length rows) < 2 ^ 56 ->
  readable_file (marks_file s) marks_buf marks_align msize mcalls -> readable_file (data_file s) read_buf alignment size calls ->
  exists marks at_ after, loadMarksImpl CityHash128 factory fresh clobber mark_type (length rows) 1 (size_of (marks_file s))
      (open_file (marks_file s) marks_buf marks_align mpread msize mcalls) = Ok marks /\
    stream_reader sp k rows xs marks at_ after /\
    at_ (cr_create (open_file (data_file s) read_buf alignment pread size calls) different external) (cs_enc sp k xs).
Proof.
  intros Hok [dec Hdec] (ls & blocks & Hl & Hp & Hv & Hx & Hb & HF & Hset & _ & Hm) Hn Hmf [Hs Hbuf Hal Hca Hfail Hk].
  destruct (load_marks_spec ls rows _ _ _ mpread _ _ Hl Hv Hm Hn Hmf) as (marks & E & Hg). exists marks.
  set (F := data_file s) in *. set (all := stored_block (cs_codec sp k) <$> blocks).
  pose proof (co_limit sp k) as Hlim. destruct (open_stream CityHash128 factory fresh fresh_length clobber clobber_length (cs_codec sp k) dec (cs_limit sp k) Hdec Hlim blocks F HF Hb) as [Hspec Hnew].
  exists (run_inv CityHash128 factory all (fd_inv F) false), (ff_inv CityHash128 factory all (fd_inv F)). split; [done|]. split.
  2: { rewrite Hx. apply Hnew. by apply open_file_inv. }
  pose proof (fd_file_spec F) as Hfile. assert (EF : F = stored_bytes CityHash128 all) by (by rewrite HF, <- (stored_stream CityHash128 (cs_codec sp k))). split.
  - intros b data i Hat Hi Hne. destruct (lookup_lt_is_Some_2 ls i ltac:(lia)) as [l El].
    destruct (position_from_mark sp k rows xs i l Hok (Hp i l El)) as [Hd Hlt]. rewrite Hx in Hd, Hlt. specialize (Hlt Hne).
    destruct (Forall_lookup_1 _ _ _ _ Hset El) as (_ & _ & _ & _ & _ & Hin & _).
    destruct (seek_located CityHash128 factory (cs_codec sp k) blocks F HF Hs b data l Hat (Hin Hlt)) as (b' & Es & Hb').
    exists b'. unfold seekToMarkAndColumn. rewrite (Hg i l El). cbn [rbind]. rewrite <- Hd. done.
  - intros op b data Hat Hop. rewrite EF in Hfile at 1.
    apply (serve_file_flat CityHash128 factory fresh fresh_length clobber clobber_length all FileDescriptorOperations (fd_inv F) ltac:(by rewrite <- EF) false (Plain op) b data Hat Hop).
  - by intros b data [? _].
  - done.
  - intros to n b data Hafter Hto. rewrite EF in Hfile at 1. by apply (ff_readBig_spec CityHash128 factory fresh fresh_length clobber clobber_length all).
Qed.

(** * A part *)

Context (st : WriterSettings) (Hadaptive : can_use_adaptive_granularity st = adaptive) (Hnot_granules : adaptive && blocks_are_granules_size st = false).
Context (specs : list (ColumnSpec Row SState)) (Hspecs : Forall ColumnOk specs) (Hne : specs <> []).

Abbreviation Writer := (PartWriter (G := MergeTreeIndexGranularityPtr) (Row := Row) (SState := SState)).

(** The calls of [MergedBlockOutputStream]: blocks, [fillChecksums] and [finish]. *)
Definition write_part (blocks : list (Block (Row := Row))) (w : Writer) : outcome Writer :=
  write_blocks CityHash128 CityHash128WithSeed st blocks w >> fillDataChecksums CityHash128 CityHash128WithSeed st >>
  finishDataSerialization CityHash128 CityHash128WithSeed.

(** The rows of a column. *)
Definition column_of (blocks : list (Block (Row := Row))) (j : nat) : list Row := mjoin (omap (fun b => block_columns b !! j) blocks).

Lemma all_columns_lookup blocks xss j xs : Forall (fun b => block_ok specs b) blocks -> (j < length specs)%nat -> xss !! j = Some xs ->
  all_columns xss blocks !! j = Some (xs ++ column_of blocks j).
Proof.
  intros Hb Hj. revert xss xs. induction Hb as [|b blocks [Hc _ _] _ IH]; intros xss xs Hx; [unfold column_of; simpl; by rewrite app_nil_r|].
  destruct (lookup_lt_is_Some_2 (block_columns b) j ltac:(lia)) as [ys Hy]. unfold column_of, all_columns. simpl. rewrite Hy. simpl.
  fold (all_columns (add_rows xss b) blocks) (column_of blocks j).
  rewrite (IH _ (xs ++ ys)) by (unfold add_rows; by rewrite lookup_zip_with, Hx; simpl; rewrite Hy). by rewrite <- app_assoc.
Qed.

Definition column_files rows (blocks : list (Block (Row := Row))) (j : nat) (col : ColumnWriter (Row := Row) (SState := SState)) : Prop :=
  exists sp, specs !! j = Some sp /\ length (column_streams col) = cs_streams sp /\
    all_at (fun k s => stream_files sp k rows (column_of blocks j) s) (column_streams col).

Lemma finish_columns rows total blocks cols : Forall (fun b => block_ok specs b) blocks -> length cols = length specs ->
  all_at (column_finished CityHash128 CityHash128WithSeed mc mlimit st compressed specs rows total (all_columns (replicate (length specs) []) blocks)) cols ->
  exists cols', for_each (on_streams (for_each (finalize_stream CityHash128 CityHash128WithSeed))) cols = (Ok tt, cols') /\ length cols' = length cols /\
    all_at (column_files rows blocks) cols'.
Proof.
  intros Hb Hl H. eapply for_each_spec; [|exact H]. intros j col (sp & xs & Hsp & _ & Hx & _ & Hn & Hs).
  pose proof (lookup_lt_Some _ _ _ Hsp) as Hj. rewrite (all_columns_lookup blocks _ j [] Hb Hj) in Hx by (by apply lookup_replicate_2). injection Hx as <-.
  assert (Hfin : exists ss, for_each (finalize_stream CityHash128 CityHash128WithSeed) (column_streams col) = (Ok tt, ss) /\
    length ss = length (column_streams col) /\ all_at (fun k s => stream_files sp k rows (column_of blocks j) s) ss).
  { eapply for_each_spec; [|exact Hs]. intros k s (ls & Hll & Hp & Hf & Hv). rewrite Hadaptive in Hf. by apply (finalize_files sp k rows _ s ls). }
  destruct Hfin as (ss & E & Hls & Ha).
  unfold on_streams. rewrite E. eexists. split; [done|]. exists sp. simpl. split_and!; [done|lia|done].
Qed.

(** The granularity that the writer starts with: it is computed if it has no marks, and
    otherwise it has those for all rows. *)
Record granularity_ready (most total : Z) (g : MergeTreeIndexGranularityPtr) : Prop := {
  gr_wf : wf g;
  gr_computed : compute_granularity st = empty g;
  gr_growing : compute_granularity st = true -> growing g /\ (forall c, getConstantGranularity g = Some c -> c <= most) /\
    (getConstantGranularity g = None -> adaptive = true) /\ total + most < 2 ^ 60 /\ 0 < index_granularity_bytes st /\ 0 < fixed_index_granularity st <= most;
  gr_given : compute_granularity st = false -> total < 2 ^ 60 /\ total <= Zsum (rows_of g) /\ (adaptive = true -> total = Zsum (rows_of g)) }.

(** Before the files are closed. *)
Lemma fill_part_spec most blocks argss g :
  length argss = length specs -> (forall j sp args, specs !! j = Some sp -> argss !! j = Some args -> column_setup mc mlimit compressed sp args) ->
  Forall (fun b => block_ok specs b /\ 0 <= block_bytes b) blocks -> blocks <> [] -> granularity_ready most (all_rows blocks) g ->
  exists w0 w done_rows, new_writer CityHash128 CityHash128WithSeed fresh g (zip (cs_serialization <$> specs) argss) = Ok w0 /\
    (write_blocks CityHash128 CityHash128WithSeed st blocks w0 >> fillDataChecksums CityHash128 CityHash128WithSeed st) = (Ok tt, w) /\
    done_rows `prefix_of` rows_of (index_granularity w) /\
    (compute_granularity st = true -> done_rows = rows_of (index_granularity w) /\ rows_ok (with_final adaptive done_rows)) /\
    all_rows blocks <= Zsum done_rows /\ length (columns w) = length specs /\
    all_at (column_finished CityHash128 CityHash128WithSeed mc mlimit st compressed specs (with_final adaptive done_rows) (all_rows blocks)
      (all_columns (replicate (length specs) []) blocks)) (columns w).
Proof.
  intros Hla Hset Hbl Hbn [Hg Hcomp Hgrow Hgiven]. pose proof (storable_fits _ _ _ _ Hmc) as Hfits.
  destruct (add_columns_spec CityHash128 CityHash128WithSeed fresh fresh_length mc mlimit st compressed specs argss Hspecs Hla Hset) as (cols & E0 & Hlc & Hcols).
  unfold new_writer. rewrite E0. cbn [rbind]. set (w0 := {| index_granularity := g |}). exists w0.
  assert (Hw0 : writer_at CityHash128 CityHash128WithSeed mc mlimit st compressed specs rows_of wf (replicate (length specs) []) 0 0 w0).
  { split; try done; [lia|]. intros j col Hj. destruct (lookup_lt_is_Some_2 specs j) as [sp Hsp]; [apply lookup_lt_Some in Hj; simpl in Hj; lia|].
    exists sp, []. split_and!; try done; [by apply (Forall_lookup_1 _ _ _ _ Hspecs Hsp)|apply lookup_replicate_2; by apply lookup_lt_Some in Hsp|by apply (Hcols j)]. }
  pose proof (law_count g Hg) as Hcount. unfold empty in Hcomp. rewrite Hcount in Hcomp.
  assert (Hm0 : marks_for st rows_of growing most 0 w0).
  { unfold marks_for. destruct (compute_granularity st); [|done]. destruct (Hgrow eq_refl) as (? & ? & ? & _).
    symmetry in Hcomp. apply Z.eqb_eq in Hcomp. assert (Er : rows_of g = []) by (apply nil_length_inv; lia).
    split; simpl; try done; [|by rewrite Hadaptive]. rewrite Er. split; [done|]. by intros [|]. }
  assert (Hmax : all_rows blocks < 2 ^ 60 /\ 0 <= most \/ compute_granularity st = false /\ all_rows blocks < 2 ^ 60).
  { destruct (compute_granularity st); [destruct (Hgrow eq_refl) as (_ & _ & _ & ? & _ & ?); left; lia|right; split; [done|]; by apply Hgiven]. }
  rewrite <- Hadaptive in Hnot_granules.
  destruct (write_blocks_spec CityHash128 CityHash128WithSeed mc mlimit Hmlimit st compressed specs rows_of wf growing Hnot_granules most blocks _ _ _ w0 Hw0 Hm0 Hne Hbl)
    as (w1 & m1 & E1 & Hw1 & Hm1 & Hd1 & Eg1).
  { unfold room_for. destruct (compute_granularity st); [by destruct (Hgrow eq_refl) as (_ & _ & _ & ?)|]. by destruct (Hgiven eq_refl) as (_ & ? & _). }
  destruct (fillDataChecksums_spec CityHash128 CityHash128WithSeed mc mlimit Hmlimit st compressed specs rows_of wf growing Hnot_granules most _ _ _ w1 Hw1 Hm1 Hne)
    as (w2 & done_rows & E2 & Hpre & Hall & Htot & Hl2 & Hfin); [lia| |].
  { intros Ec Ha. rewrite Eg1 by done. apply (Hgiven Ec). by rewrite <- Hadaptive. }
  rewrite Hd1, andb_true_r, Hadaptive in Hfin by done. rewrite Hadaptive in Hall.
  exists w2, done_rows. split; [done|]. rewrite E1. cbn [andthen]. by split_and!.
Qed.

Lemma write_part_spec most blocks argss g :
  length argss = length specs -> (forall j sp args, specs !! j = Some sp -> argss !! j = Some args -> column_setup mc mlimit compressed sp args) ->
  Forall (fun b => block_ok specs b /\ 0 <= block_bytes b) blocks -> blocks <> [] -> granularity_ready most (all_rows blocks) g ->
  exists w0 w done_rows, new_writer CityHash128 CityHash128WithSeed fresh g (zip (cs_serialization <$> specs) argss) = Ok w0 /\
    write_part blocks w0 = (Ok tt, w) /\
    done_rows `prefix_of` rows_of (index_granularity w) /\ (compute_granularity st = true -> done_rows = rows_of (index_granularity w) /\ rows_ok (with_final adaptive done_rows)) /\
    all_rows blocks <= Zsum done_rows /\ length (columns w) = length specs /\
    all_at (column_files (with_final adaptive done_rows) blocks) (columns w).
Proof.
  intros Hla Hset Hbl Hbn Hgr.
  destruct (fill_part_spec most blocks argss g Hla Hset Hbl Hbn Hgr) as (w0 & w2 & done_rows & E0 & E2 & Hpre & Hall & Htot & Hl2 & Hfin).
  assert (Hbl' : Forall (fun b => block_ok specs b) blocks) by (eapply Forall_impl; [exact Hbl|]; by intros b [? _]).
  destruct (finish_columns _ _ blocks (columns w2) Hbl' Hl2 Hfin) as (cols' & E3 & Hl3 & Hf).
  exists w0. eexists _, done_rows. split; [done|]. unfold write_part. rewrite E2. cbn [andthen].
  unfold finishDataSerialization, on_columns. rewrite E3. split; [done|]. simpl. split_and!; try done; lia.
Qed.

End WideRead.
