(* ===== verification/PartRoundtrip.v ===== *)
(** Wide parts are read back: the data of all columns from any mark on, and the values of
    columns of numbers (src/DataTypes/Serializations/SerializationNumber.cpp). *)
From S2P Require Import Prelude IntText BinaryIO BitIO ReadBuffer ReadBufferFromFile WriteBuffer Codec.
From S2P Require Import CodecDelta CodecLZ4 CodecZSTD CodecFactory HashingBuffer CompressedWriteBuffer.
From S2P Require Import CompressedReadBuffer CompressedFile CompressedStream Marks PartStream PartReader.
From S2P Require Import IndexGranularity GranularityPtr Granules WidePart WideWriter WideRead.
Import Binary.

(** * [SerializationNumber], for numbers of [w] bytes on a little-endian machine *)

Definition number_bytes (w : nat) (xs : list Z) : bytes := mjoin (le_bytes w <$> xs).

Definition serializeBinaryBulk (w : nat) (x : list Z) (offset limit : Z) : bytes :=
  let size := Z.of_nat (length x) in
  let limit := if (limit =? 0) || (size <? offset + limit) then uwrap 64 (size - offset) else limit in
  if limit =? 0 then [] else number_bytes w (take (Z.to_nat limit) (drop (Z.to_nat offset) x)).

(** There is one stream, [Substream::Regular], and no state. *)
Definition SerializationNumber (w : nat) : ISerialization Z unit := {|
  serializeBinaryBulkStatePrefix _ := ([], tt);
  serializeBinaryBulkWithMultipleStreams x offset limit state := ([(0%nat, serializeBinaryBulk w x offset limit)], state);
  serializeBinaryBulkStateSuffix _ := [] |}.

(** An array of values in memory. *)
Fixpoint values_of (w n : nat) (bs : bytes) : list Z :=
  match n with
  | O => []
  | S n => le_value (take w bs) :: values_of w n (drop w bs)
  end.

Section Deserialize.
Context {S : Type} (I : ReadImpl S) (readBig : bytes -> Z -> ReadBuffer S -> result (bytes * ReadBuffer S)) (fresh : nat -> bytes).

Definition deserializeBinaryBulk (w : nat) (rows_offset limit : Z) (x : list Z) (istr : ReadBuffer S) : result (list Z * ReadBuffer S) :=
  let! istr := ignore I (Z.of_nat w * rows_offset) istr in
  let! (bs, istr) := readBig (fresh (Z.to_nat (Z.of_nat w * limit))) (Z.of_nat w * limit) istr in
  Ok (x ++ values_of w (Z.to_nat (size_of bs / Z.of_nat w)) bs, istr).

(** Ranges of rows that follow one another, each with rows to skip before it. *)
Fixpoint read_ranges (w : nat) (ranges : list (Z * Z)) (istr : ReadBuffer S) : result (list (list Z)) :=
  match ranges with
  | [] => Ok []
  | (rows_offset, limit) :: ranges =>
      let! (x, istr) := deserializeBinaryBulk w rows_offset limit [] istr in
      let! rest := read_ranges w ranges istr in
      Ok (x :: rest)
  end.

End Deserialize.

(** ** Proofs *)

Lemma number_bytes_app w xs ys : number_bytes w (xs ++ ys) = number_bytes w xs ++ number_bytes w ys.
Proof. unfold number_bytes. by rewrite fmap_app, join_app. Qed.

Lemma length_number_bytes w xs : length (number_bytes w xs) = (w * length xs)%nat.
Proof.
  induction xs as [|x xs IH]; [simpl; lia|]. change (number_bytes w (x :: xs)) with (le_bytes w x ++ number_bytes w xs).
  rewrite length_app, IH, length_le_bytes. simpl. lia.
Qed.

Lemma number_bytes_ok w xs : is_bytes (number_bytes w xs).
Proof.
  induction xs as [|x xs IH]; [constructor|]. change (number_bytes w (x :: xs)) with (le_bytes w x ++ number_bytes w xs).
  apply Forall_app_2; [apply le_bytes_range|done].
Qed.

Lemma take_number_bytes w n xs : take (w * n) (number_bytes w xs) = number_bytes w (take n xs).
Proof.
  destruct (decide (n <= length xs)%nat) as [Hn|Hn].
  - rewrite <- (take_drop n xs) at 1. rewrite number_bytes_app. apply take_app_length'. rewrite length_number_bytes, length_take. f_equal. lia.
  - rewrite !take_ge; [done|lia|rewrite length_number_bytes; nia].
Qed.

Lemma drop_number_bytes w n xs : drop (w * n) (number_bytes w xs) = number_bytes w (drop n xs).
Proof.
  destruct (decide (n <= length xs)%nat) as [Hn|Hn].
  - rewrite <- (take_drop n xs) at 1. rewrite number_bytes_app. apply drop_app_length'. rewrite length_number_bytes, length_take. f_equal. lia.
  - rewrite !drop_ge; [done|lia|rewrite length_number_bytes; nia].
Qed.

(** Numbers of [w] bytes. *)
Definition numbers (w : nat) (xs : list Z) : Prop := Forall (fun x => 0 <= x < 2 ^ (8 * Z.of_nat w)) xs.

Lemma values_of_bytes w xs : numbers w xs -> values_of w (length xs) (number_bytes w xs) = xs.
Proof.
  induction 1 as [|x xs Hx _ IH]; [done|]. change (number_bytes w (x :: xs)) with (le_bytes w x ++ number_bytes w xs). cbn [length values_of].
  rewrite take_app_length', drop_app_length' by (by rewrite length_le_bytes). by rewrite le_value_bytes, IH.
Qed.

(** The numbers of a column, compressed by a codec. *)
Definition number_column (w : nat) (codec : ICompressionCodec) (limit : Z) : ColumnSpec Z unit := {|
  cs_serialization := SerializationNumber w;
  cs_streams := 1;
  cs_enc _ := number_bytes w;
  cs_codec _ := codec;
  cs_limit _ := limit |}.

#[export] Instance number_row_wise w : RowWise (SerializationNumber w) 1 (fun _ => number_bytes w).
Proof.
  split; try done; [intros k xs ys; apply number_bytes_app|]. intros data start rows state H0 Hr Hend. simpl.
  assert (E : serializeBinaryBulk w data start rows = number_bytes w (take (Z.to_nat rows) (drop (Z.to_nat start) data))).
  { unfold serializeBinaryBulk. rewrite (proj2 (Z.eqb_neq rows 0)) by lia. destruct (Z.ltb_spec (Z.of_nat (length data)) (start + rows)); [lia|].
    cbn [orb]. by rewrite (proj2 (Z.eqb_neq rows 0)) by lia. }
  rewrite E. split; [apply Forall_singleton; split; [simpl; lia|apply number_bytes_ok]|].
  intros k Hk. assert (k = 0%nat) as -> by lia. unfold pieces_of. simpl. apply app_nil_r.
Qed.

Lemma number_column_ok w codec limit : FitsReserve codec limit -> limit < 2 ^ 30 -> ColumnOk (number_column w codec limit).
Proof. intros Hf Hl. split; [apply number_row_wise|done|done]. Qed.

(** The rows of ranges. *)
Fixpoint rows_in_ranges (ranges : list (Z * Z)) (xs : list Z) : list (list Z) :=
  match ranges with
  | [] => []
  | (rows_offset, limit) :: ranges =>
      take (Z.to_nat limit) (drop (Z.to_nat rows_offset) xs) :: rows_in_ranges ranges (drop (Z.to_nat limit) (drop (Z.to_nat rows_offset) xs))
  end.

(** No range skips more rows than there are. *)
Fixpoint valid_ranges (ranges : list (Z * Z)) (xs : list Z) : Prop :=
  match ranges with
  | [] => True
  | (rows_offset, limit) :: ranges =>
      0 <= rows_offset <= Z.of_nat (length xs) /\ 0 <= limit /\
      valid_ranges ranges (drop (Z.to_nat limit) (drop (Z.to_nat rows_offset) xs))
  end.

Section DeserializeProofs.
Context {S : Type} (I : ReadImpl S) (readBig : bytes -> Z -> ReadBuffer S -> result (bytes * ReadBuffer S)) (fresh : nat -> bytes).
Context (inv : ReadBuffer S -> bytes -> Prop) `{!ReaderSpec I inv} (fresh_length : forall n, length (fresh n) = n).
Context (readBig_spec : forall to n b data, inv b data -> 0 <= n <= size_of to ->
  exists b', readBig to n b = Ok (take (Z.to_nat n) data, b') /\ inv b' (drop (Z.to_nat n) data)).

Lemma deserialize_spec w rows_offset limit x b xs : (0 < w)%nat -> numbers w xs -> inv b (number_bytes w xs) ->
  0 <= rows_offset <= Z.of_nat (length xs) -> 0 <= limit ->
  exists b', deserializeBinaryBulk I readBig fresh w rows_offset limit x b =
      Ok (x ++ take (Z.to_nat limit) (drop (Z.to_nat rows_offset) xs), b') /\
    inv b' (number_bytes w (drop (Z.to_nat limit) (drop (Z.to_nat rows_offset) xs))).
Proof.
  intros Hw Hx Hb Ho Hl. unfold deserializeBinaryBulk.
  assert (Eo : Z.to_nat (Z.of_nat w * rows_offset) = (w * Z.to_nat rows_offset)%nat) by lia.
  assert (El : Z.to_nat (Z.of_nat w * limit) = (w * Z.to_nat limit)%nat) by lia.
  pose proof (ignore_spec I inv (Z.of_nat w * rows_offset) b _ Hb ltac:(lia)) as Hi.
  rewrite length_number_bytes in Hi. destruct (Z.leb_spec (Z.of_nat w * rows_offset) (Z.of_nat (w * length xs))); [|nia].
  destruct Hi as (b1 & -> & Hb1). cbn [rbind]. rewrite Eo, drop_number_bytes in Hb1. set (ys := drop (Z.to_nat rows_offset) xs) in *.
  destruct (readBig_spec (fresh (Z.to_nat (Z.of_nat w * limit))) (Z.of_nat w * limit) b1 _ Hb1) as (b2 & -> & Hb2); [rewrite fresh_length; lia|].
  rewrite El, drop_number_bytes in Hb2. cbn [rbind]. rewrite El, take_number_bytes. exists b2. split; [|done]. do 3 f_equal.
  rewrite length_number_bytes, Nat2Z.inj_mul, Z.mul_comm, Z.div_mul, Nat2Z.id by lia.
  apply values_of_bytes. unfold numbers, ys. by apply Forall_take, Forall_drop.
Qed.

Lemma read_ranges_spec w ranges b xs : (0 < w)%nat -> numbers w xs -> inv b (number_bytes w xs) -> valid_ranges ranges xs ->
  read_ranges I readBig fresh w ranges b = Ok (rows_in_ranges ranges xs).
Proof.
  intros Hw. revert b xs. induction ranges as [|[o l] ranges IH]; intros b xs Hx Hb Hv; [done|]. destruct Hv as (Ho & Hl & Hv). cbn [read_ranges].
  destruct (deserialize_spec w o l [] b xs Hw Hx Hb Ho Hl) as (b' & -> & Hb'). cbn [rbind]. rewrite (IH b' _ ltac:(by apply Forall_drop, Forall_drop) Hb' Hv). done.
Qed.

End DeserializeProofs.

(** * [loadIndexGranularityImpl] *)

Section LoadGranularity.
Context {S : Type} (I : ReadImpl S).

(** The loop over the marks of the file. *)
Fixpoint load_granularity_loop (fuel : nat) (adaptive : bool) (marks_count : Z) (p : MergeTreeIndexGranularityPtr) (marks_reader : ReadBuffer S)
  : result (Z * MergeTreeIndexGranularityPtr) :=
  match fuel with
  | O => Throw OUT_OF_FUEL
  | Datatypes.S fuel =>
      let! (e, marks_reader) := eof I marks_reader in
      if e : bool then Ok (marks_count, p)
      else
        let! (_, marks_reader) := ReadBuffer.readStrict I 8 marks_reader in
        let! (_, marks_reader) := ReadBuffer.readStrict I 8 marks_reader in
        if adaptive then
          let! (granularity, marks_reader) := ReadBuffer.readStrict I 8 marks_reader in
          let! p := appendMark (le_value granularity) p in
          load_granularity_loop fuel adaptive (marks_count + 1) p marks_reader
        else load_granularity_loop fuel adaptive (marks_count + 1) p marks_reader
  end.

End LoadGranularity.

Section LoadIndexGranularity.
Context (CityHash128 : bytes -> Z * Z) (factory : Z -> result ICompressionCodec) (fresh : nat -> bytes) (clobber : bytes -> bytes).

(** The file of marks has this size; the granularity is empty before. *)
Definition loadIndexGranularityImpl (fuel : nat) (t : MarkType) (fixed_granularity : Z) (enable_index_granularity_compression : bool)
    (marks_file_size : Z) (marks_file : FileBuffer) (p : MergeTreeIndexGranularityPtr) : result MergeTreeIndexGranularityPtr :=
  let constant marks_count := ConstantPtr {| constant_granularity := fixed_granularity; last_mark_granularity := fixed_granularity;
    num_marks_without_final := marks_count; has_final_mark := false |} in
  if negb (mt_adaptive t) && negb (mt_compressed t) then Ok (constant (marks_file_size / getMarkSizeInBytes t 1))
  else
    let! (marks_count, p) :=
      if mt_compressed t then
        load_granularity_loop (FromCompressedFile CityHash128 factory fresh FileDescriptorOperations clobber) fuel (mt_adaptive t) 0 p
          (cr_create marks_file false false)
      else load_granularity_loop FromFileDescriptor fuel (mt_adaptive t) 0 p marks_file in
    if negb (mt_adaptive t) then Ok (constant marks_count)
    else if enable_index_granularity_compression then
      let! o := ptr_optimize p in Ok (match o with Some p => p | None => p end)
    else Ok p.

End LoadIndexGranularity.

(** ** Proofs *)

Section LoadGranularityProofs.
Context {S : Type} (I : ReadImpl S) (inv : ReadBuffer S -> bytes -> Prop) `{!ReaderSpec I inv}.

Lemma read_word z rest reader : inv reader (le_bytes 8 z ++ rest) ->
  exists reader', ReadBuffer.readStrict I 8 reader = Ok (le_bytes 8 z, reader') /\ inv reader' rest.
Proof.
  intros H. destruct (readStrict_spec I inv 8 reader _ H) as (r & E & Hr); [rewrite length_app, length_le_bytes; lia|].
  exists r. rewrite E. change (Z.to_nat 8) with 8%nat in *. rewrite drop_app_length' in Hr by (by rewrite length_le_bytes).
  by rewrite take_app_length' by (by rewrite length_le_bytes).
Qed.

(** A mark of the file. *)
Lemma read_mark adaptive l r rest reader {A} (ended : ReadBuffer S -> result A) (k : Z -> ReadBuffer S -> result A) :
  inv reader (mark_bytes adaptive l r ++ rest) -> 0 <= r < 2 ^ 64 ->
  exists reader', inv reader' rest /\
    (let! (e, b) := eof I reader in
     if e : bool then ended b
     else
       let! (_, b) := ReadBuffer.readStrict I 8 b in
       let! (_, b) := ReadBuffer.readStrict I 8 b in
       if adaptive then let! (granularity, b) := ReadBuffer.readStrict I 8 b in k (le_value granularity) b else k 0 b) =
    k (if adaptive then r else 0) reader'.
Proof.
  intros H Hr. destruct (eof_spec I inv reader _ H) as (b & -> & Hb & _). cbn [rbind]. unfold mark_bytes in Hb. rewrite <- !app_assoc in Hb.
  rewrite bool_decide_eq_false_2 by (intros E%(f_equal length); unfold mark_bytes in E; rewrite !length_app, !length_le_bytes in E; cbn [length] in E; lia).
  destruct (read_word _ _ _ Hb) as (b1 & -> & Hb1). cbn [rbind]. destruct (read_word _ _ _ Hb1) as (b2 & -> & Hb2). cbn [rbind].
  destruct adaptive; [|by exists b2]. destruct (read_word _ _ _ Hb2) as (b3 & -> & Hb3). cbn [rbind]. exists b3. split; [done|].
  rewrite uwrap_small by done. by rewrite le_value_bytes.
Qed.

Lemma load_constant_spec fuel marks count p reader : (length marks < fuel)%nat ->
  inv reader (mjoin ((fun m => mark_bytes false m 0) <$> marks)) ->
  load_granularity_loop I fuel false count p reader = Ok (count + Z.of_nat (length marks), p).
Proof.
  revert fuel count reader. induction marks as [|m marks IH]; intros [|fuel] count reader Hf H; simpl in Hf; try lia; cbn [load_granularity_loop].
  - destruct (eof_spec I inv reader _ H) as (b & -> & _). simpl. do 2 f_equal. lia.
  - change (mjoin (?f <$> m :: marks)) with (f m ++ mjoin (f <$> marks)) in H. cbv beta in H.
    destruct (read_mark false m 0 _ reader (fun _ => Ok (count, p)) (fun n b => load_granularity_loop I fuel false (count + 1) p b) H ltac:(lia))
      as (b & Hb & ->). rewrite IH by (done || lia). do 2 f_equal. simpl. lia.
Qed.

Lemma load_adaptive_marks_spec fuel (marks : list (MarkInCompressedFile * Z)) count g reader : (length marks < fuel)%nat ->
  AdaptiveProofs.wf g -> rows_ok (AdaptiveProofs.rows_of g ++ marks.*2) -> inv reader (mjoin ((fun m => mark_bytes true m.1 m.2) <$> marks)) ->
  exists g', load_granularity_loop I fuel true count (AdaptivePtr g) reader = Ok (count + Z.of_nat (length marks), AdaptivePtr g') /\
    AdaptiveProofs.wf g' /\ AdaptiveProofs.rows_of g' = AdaptiveProofs.rows_of g ++ marks.*2.
Proof.
  revert fuel count g reader. induction marks as [|[m r] marks IH]; intros [|fuel] count g reader Hf Hg Hok H; simpl in Hf; try lia; cbn [load_granularity_loop].
  - destruct (eof_spec I inv reader _ H) as (b & -> & _). simpl. exists g. rewrite app_nil_r. split_and!; [|done|done]. do 2 f_equal. lia.
  - change (mjoin (?f <$> (m, r) :: marks)) with (f (m, r) ++ mjoin (f <$> marks)) in H. cbv beta in H. cbn [fst snd] in H.
    change (((m, r) :: marks).*2) with ([r] ++ marks.*2) in *. rewrite app_assoc in Hok. pose proof (rows_ok_prefix _ _ Hok) as Hok1.
    destruct (ok_positive _ Hok1 (length (AdaptiveProofs.rows_of g)) r) as [Hr _]; [by rewrite lookup_app_r, Nat.sub_diag by lia|].
    pose proof (ok_prefix _ (length (AdaptiveProofs.rows_of g)) Hok1) as Hpre. rewrite take_app_length, Zsum_app in Hpre.
    pose proof (ok_total _ Hok1) as Ht. pose proof (ok_length _ Hok1) as Hl. rewrite Zsum_app in Ht. rewrite length_app in Hl. simpl in Hpre, Ht, Hl.
    destruct (AdaptiveProofs.adaptive_append_spec g r Hg) as (g1 & Ea & Er & Hg1 & _); [|lia|lia|lia|].
    { unfold AdaptiveProofs.growing. rewrite last_lookup. intros Hz. destruct (ok_positive _ Hok1 _ 0 (lookup_app_l_Some _ _ _ _ Hz)) as [_ Hz'].
      specialize (Hz' eq_refl). rewrite length_app in Hz'. apply lookup_lt_Some in Hz. simpl in Hz'. lia. }
    destruct (read_mark true m r _ reader (fun _ => Ok (count, AdaptivePtr g))
      (fun n b => let! p := appendMark n (AdaptivePtr g) in load_granularity_loop I fuel true (count + 1) p b) H ltac:(lia)) as (b & Hb & ->).
    cbn [appendMark ptr_methods update_ptr Adaptive.methods]. rewrite Ea. cbn [rbind].
    destruct (IH fuel (count + 1) g1 b) as (g' & E' & Hg' & Er'); [lia|done|by rewrite Er|done|].
    exists g'. rewrite E'. split_and!; [|done|by rewrite Er', Er, <- app_assoc]. do 2 f_equal. simpl. lia.
Qed.

End LoadGranularityProofs.

Lemma marks_data_pairs adaptive ls rows :
  marks_data adaptive ls rows = mjoin ((fun m => mark_bytes adaptive m.1 m.2) <$> zip (lo_mark <$> ls) rows).
Proof.
  unfold marks_data. f_equal. revert rows. induction ls as [|l ls IH]; intros [|r rows]; try done.
  change (zip (lo_mark <$> l :: ls) (r :: rows)) with ((lo_mark l, r) :: zip (lo_mark <$> ls) rows). simpl. f_equal. apply IH.
Qed.

Lemma marks_data_plain ls rows : length ls = length rows ->
  marks_data false ls rows = mjoin ((fun m => mark_bytes false m 0) <$> (lo_mark <$> ls)).
Proof.
  unfold marks_data. intros Hl. f_equal. revert rows Hl. induction ls as [|l ls IH]; intros [|r rows] Hl; try done. simpl. f_equal. apply IH. simpl in Hl. lia.
Qed.

Lemma length_marks_data ls rows : length ls = length rows -> length (marks_data false ls rows) = (16 * length rows)%nat.
Proof.
  unfold marks_data. revert rows. induction ls as [|l ls IH]; intros [|r rows] Hl; try done. simpl in Hl.
  change (length (mark_bytes false (lo_mark l) r ++ mjoin (zip_with (fun l r => mark_bytes false (lo_mark l) r) ls rows)) = (16 * S (length rows))%nat).
  rewrite length_app, IH by lia. unfold mark_bytes. rewrite !length_app, !length_le_bytes. cbn [length]. lia.
Qed.

(** The granularity of non-adaptive marks. *)
Lemma constant_rows fixed n : 0 < fixed -> fixed * (Z.of_nat n + 1) < 2 ^ 62 -> Z.of_nat n < 2 ^ 62 ->
  let p := ConstantPtr {| constant_granularity := fixed; last_mark_granularity := fixed; num_marks_without_final := Z.of_nat n; has_final_mark := false |} in
  wf p /\ rows_of p = replicate n fixed.
Proof.
  intros Hf Hn Hl. simpl. split.
  - split; simpl; try lia; done || nia.
  - unfold ConstantProofs.rows_of. simpl. rewrite app_nil_r. destruct (Z.eqb_spec (Z.of_nat n) 0); [by destruct n|]. rewrite <- replicate_cons_app.
    by replace (Z.to_nat (Z.of_nat n - 1)) with (n - 1)%nat by lia; destruct n; [lia|]; simpl; rewrite Nat.sub_0_r.
Qed.

Section LoadIndexGranularityProofs.
Context (CityHash128 : bytes -> Z * Z) (factory : Z -> result ICompressionCodec).
Context (fresh : nat -> bytes) (fresh_length : forall n, length (fresh n) = n).
Context (clobber : bytes -> bytes) (clobber_length : forall bs, length (clobber bs) = length bs).
Context (mc mdec : ICompressionCodec) (mlimit : Z) (Hmc : Storable factory mc mdec mlimit) (Hmlimit : mlimit < 2 ^ 30).

Lemma load_index_granularity_spec adaptive compressed fuel fixed optimize ls rows F read_buf alignment pread size calls :
  length ls = length rows -> marks_stored CityHash128 mc mlimit compressed F (marks_data adaptive ls rows) ->
  readable_file F read_buf alignment size calls -> (length rows < fuel)%nat ->
  (adaptive = true -> rows_ok rows) -> 0 < fixed -> fixed * (Z.of_nat (length rows) + 1) < 2 ^ 62 ->
  exists p, loadIndexGranularityImpl CityHash128 factory fresh clobber fuel (mark_type adaptive compressed) fixed optimize (size_of F)
      (open_file F read_buf alignment pread size calls) (AdaptivePtr {| marks_rows_partial_sums := [] |}) = Ok p /\
    wf p /\ rows_of p = if adaptive then rows else replicate (length rows) fixed.
Proof.
  intros Hl Hm [Hs Hb Ha Hc Hf Hk] Hfuel Hok Hfix Hmax.
  assert (Hfd : fd_inv F (open_file F read_buf alignment pread size calls) F) by (by apply open_file_inv).
  assert (Hconst : forall n, n = Z.of_nat (length rows) -> let p := ConstantPtr {| constant_granularity := fixed; last_mark_granularity := fixed;
    num_marks_without_final := n; has_final_mark := false |} in wf p /\ rows_of p = replicate (length rows) fixed).
  { intros n ->. apply constant_rows; [done|done|nia]. }
  assert (Hload : forall S (I : ReadImpl S) inv reader, ReaderSpec I inv -> inv reader (marks_data adaptive ls rows) ->
    exists p, (let! (marks_count, p) := load_granularity_loop I fuel adaptive 0 (AdaptivePtr {| marks_rows_partial_sums := [] |}) reader in
      if negb adaptive then Ok (ConstantPtr {| constant_granularity := fixed; last_mark_granularity := fixed; num_marks_without_final := marks_count; has_final_mark := false |})
      else if optimize then let! o := ptr_optimize p in Ok (match o with Some p => p | None => p end) else Ok p) = Ok p /\
    wf p /\ rows_of p = if adaptive then rows else replicate (length rows) fixed).
  { intros S I inv reader Hspec Hr. destruct adaptive.
    - rewrite marks_data_pairs in Hr. assert (E2 : (zip (lo_mark <$> ls) rows).*2 = rows) by (apply snd_zip; rewrite length_fmap; lia).
      destruct (load_adaptive_marks_spec I inv fuel (zip (lo_mark <$> ls) rows) 0 {| marks_rows_partial_sums := [] |} reader) as (g & -> & Hg & Eg);
        [rewrite length_zip, length_fmap; lia|split; [by intros i n Hn; destruct i|done|done]|rewrite E2; by apply Hok|done|].
      rewrite E2 in Eg. cbn [rbind negb]. destruct optimize; [|by exists (AdaptivePtr g)].
      destruct (ptr_optimize_spec (AdaptivePtr g) Hg) as (o & -> & Ho). cbn [rbind]. eexists. split; [done|].
      destruct o as [p'|]; [|done]. destruct (Ho p' eq_refl) as [? ->]. done.
    - rewrite marks_data_plain in Hr by done. rewrite (load_constant_spec I inv fuel (lo_mark <$> ls)) by (done || rewrite length_fmap; lia).
      cbn [rbind negb]. eexists. split; [done|]. apply Hconst. rewrite length_fmap. lia. }
  unfold loadIndexGranularityImpl. cbn [mt_adaptive mt_compressed mark_type]. unfold marks_stored in Hm. destruct compressed.
  - rewrite andb_false_r. destruct Hm as (mblocks & E & Hbl & HF). rewrite E in Hload.
    destruct (open_stream CityHash128 factory fresh fresh_length clobber clobber_length mc mdec mlimit Hmc Hmlimit mblocks F HF Hbl) as [Hspec Hnew].
    destruct (Hnew _ false false Hfd) as [Hi _]. by eapply Hload.
  - subst F. destruct adaptive; cbn [negb andb].
    + apply (Hload _ FromFileDescriptor (fd_inv (marks_data true ls rows))); [apply _|done].
    + eexists. split; [done|]. apply Hconst. rewrite length_marks_data by done. unfold getMarkSizeInBytes.
      cbn [mt_compact mt_adaptive mark_type]. change (8 * 2) with 16. rewrite Nat2Z.inj_mul, Z.mul_comm. by apply Z.div_mul.
Qed.

End LoadIndexGranularityProofs.

(** * Parts *)

(** How a file is opened for reading: sizes, flags and the system calls. *)
Record ReadEnv := {
  re_buffer : Z;
  re_alignment : Z;
  re_pread : bool;
  re_size : option Z;
  re_calls : list Syscall }.

Definition open_with (F : bytes) (e : ReadEnv) : FileBuffer := open_file F (re_buffer e) (re_alignment e) (re_pread e) (re_size e) (re_calls e).
Definition readable_with (F : bytes) (e : ReadEnv) : Prop := readable_file F (re_buffer e) (re_alignment e) (re_size e) (re_calls e).

(** What a writer of a part is given. *)
Record part_input (factory : Z -> result ICompressionCodec) (fresh : nat -> bytes) (clobber : bytes -> bytes) (mc mdec : ICompressionCodec) (mlimit : Z)
    (st : WriterSettings) (compressed : bool) {Row SState : Type} (specs : list (ColumnSpec Row SState))
    (argss : list (list (StreamSettings * FileWriteBuffer * FileWriteBuffer))) (blocks : list (Block (Row := Row)))
    (most : Z) (g : MergeTreeIndexGranularityPtr) : Prop := {
  pi_fresh n : length (fresh n) = n;
  pi_clobber bs : length (clobber bs) = length bs;
  pi_marks : Storable factory mc mdec mlimit;
  pi_marks_limit : mlimit < 2 ^ 30;
  pi_not_granules : can_use_adaptive_granularity st && blocks_are_granules_size st = false;
  pi_columns : Forall ColumnOk specs;
  pi_storable : Forall (fun sp => forall k, exists dec, Storable factory (cs_codec sp k) dec (cs_limit sp k)) specs;
  pi_some_columns : specs <> [];
  pi_streams : length argss = length specs;
  pi_setup j sp args : specs !! j = Some sp -> argss !! j = Some args -> column_setup mc mlimit compressed sp args;
  pi_blocks : Forall (fun b => block_ok specs b /\ 0 <= block_bytes b) blocks;
  pi_some_blocks : blocks <> [];
  pi_granularity : granularity_ready (can_use_adaptive_granularity st) st most (all_rows blocks) g }.

(** ** A small part *)

(** Two columns, of UInt8 and of UInt16, and two blocks; the rows of the second one are
    so large that the granule the first one began is cut. *)
Definition small_columns : list (ColumnSpec Z unit) := [number_column 1 delta_lz4 64; number_column 2 CompressionCodecNone 64].

Definition small_settings (c : ICompressionCodec) : StreamSettings := {|
  compression_codec := c; max_compress_block_size := 5; marks_compression_codec := CompressionCodecNone; marks_compress_block_size := 40;
  use_adaptive_write_buffer := false; adaptive_write_buffer_initial_size := 4; marks_compressed := true |}.

Definition small_files : list (list (StreamSettings * FileWriteBuffer * FileWriteBuffer)) :=
  [[(small_settings delta_lz4, create_file 16 false 16 [Transfer 3; Interrupted], create_file 16 false 16 [])];
   [(small_settings CompressionCodecNone, create_file 16 false 16 [], create_file 16 false 16 [])]].

Definition small_blocks : list (Block (Row := Z)) :=
  [{| block_columns := [[1; 2; 3; 4; 5]; [10; 20; 30; 40; 50]]; block_rows := 5; block_bytes := 5 |};
   {| block_columns := [[6; 7]; [60; 60000]]; block_rows := 2; block_bytes := 20 |}].

Definition small_writer : WriterSettings := {|
  can_use_adaptive_granularity := true; blocks_are_granules_size := false; compute_granularity := true;
  index_granularity_bytes := 10; fixed_index_granularity := 4; min_compress_block_size := 4 |}.

Definition small_granularity : MergeTreeIndexGranularityPtr := createMergeTreeIndexGranularity 7 25 10 4 false true false false.
Definition small_factory : Z -> result ICompressionCodec := plain_lookup (plain_lookup none_factory).
Definition seeded_sum (bs : bytes) (seed : Z * Z) : Z * Z := let (a, b) := sum_hash bs in (uwrap 64 (a + seed.1), uwrap 64 (b + seed.2)).
Definition plain_env : ReadEnv := {| re_buffer := 64; re_alignment := 0; re_pread := false; re_size := None; re_calls := [Interrupted] |}.

Lemma small_none : Storable small_factory CompressionCodecNone CompressionCodecNone 64.
Proof. by apply none_storable. Qed.

Lemma small_input : part_input small_factory zero_memory id CompressionCodecNone CompressionCodecNone 64 small_writer true
  small_columns small_files small_blocks 4 small_granularity.
Proof.
  destruct delta_lz4_storable as [dec Hd]. pose proof small_none as Hn.
  assert (Hcalls : forall cs, cs = [] \/ cs = [Transfer 3; Interrupted] -> fdw_inv (create_file 16 false 16 cs) []).
  { intros cs Hcs. apply create_file_inv; try done; [destruct Hcs as [->| ->]; repeat (apply Forall_cons_2; [done|]); apply Forall_nil_2|].
    destruct Hcs as [->| ->]; by apply (bool_decide_unpack _). }
  split; try done.
  - intros. apply length_replicate.
  - repeat apply Forall_cons_2; try apply Forall_nil_2; apply number_column_ok; try done; [by destruct Hd|by destruct Hn].
  - repeat apply Forall_cons_2; try apply Forall_nil_2; intros k; by eexists.
  - intros [|[|j]] sp args Hsp Hargs; try done; simpl in Hsp, Hargs; injection Hsp as <-; injection Hargs as <-;
      (split; [done|]); intros [|k] a Ha; try done; injection Ha as <-; split; try done; apply Hcalls; auto.
  - by repeat (apply Forall_cons_2; [split; [split; [done|by repeat (apply Forall_cons_2; [done|])|done]|done]|]).
Qed.
(** Both steps of writing it. *)
Definition small_part : result (outcome (PartWriter (G := MergeTreeIndexGranularityPtr) (Row := Z) (SState := unit))) :=
  let! w := new_writer sum_hash seeded_sum zero_memory small_granularity (zip (cs_serialization <$> small_columns) small_files) in
  Ok (write_part sum_hash seeded_sum small_writer small_blocks w).

(** The files of its first column are small, and what the granularity is. *)
Definition small_check (w : PartWriter (G := MergeTreeIndexGranularityPtr) (Row := Z) (SState := unit)) : bool :=
  match columns w with
  | col :: _ =>
      match column_streams col with
      | s :: _ => (size_of (marks_file s) <? 2 ^ 63) && (size_of (data_file s) <? 2 ^ 63)
      | [] => false
      end
  | [] => false
  end && bool_decide (rows_of (index_granularity w) = [4; 1; 1; 1]).

Lemma small_checked w0 w :
  new_writer sum_hash seeded_sum zero_memory small_granularity (zip (cs_serialization <$> small_columns) small_files) = Ok w0 ->
  write_part sum_hash seeded_sum small_writer small_blocks w0 = (Ok tt, w) ->
  rows_of (index_granularity w) = [4; 1; 1; 1] /\
  exists col s, columns w !! 0%nat = Some col /\ column_streams col !! 0%nat = Some s /\
    readable_with (marks_file s) plain_env /\ readable_with (data_file s) plain_env.
Proof.
  intros E0 E. assert (Hc : small_check w = true).
  { assert (Er : small_part = Ok (Ok tt, w)) by (unfold small_part; rewrite E0; cbn [rbind]; by rewrite E).
    apply (f_equal (fun r => match r with Ok (_, w) => small_check w | Throw _ => false end)) in Er. rewrite <- Er. vm_compute. reflexivity. }
  clear E0 E. unfold small_check in Hc. apply andb_true_iff in Hc as [Hc Hr%bool_decide_eq_true]. split; [done|].
  destruct (columns w) as [|col cols]; [done|]. destruct (column_streams col) as [|s ss] eqn:Es; [done|].
  apply andb_true_iff in Hc as [Hm%Z.ltb_lt Hd%Z.ltb_lt]. exists col, s. rewrite Es.
  assert (Hcalls : valid_calls [Interrupted] /\ Failed ∉ [Interrupted]) by (split; [by repeat (apply Forall_cons_2; [done|])|by apply (bool_decide_unpack _)]).
  destruct Hcalls. split_and!; try done; by split.
Qed.

(** Reads, and moves to marks with data after them. *)
Definition valid_part_request (marks : nat) (from : nat -> bytes) (q : Request) : Prop :=
  match q with
  | Plain op => valid_operation op
  | OpReadBig _ _ => False
  | OpSeek i _ => (i < marks)%nat /\ from i <> []
  end.



(** C12: the values of columns of numbers are read back from wide parts. After a move to a
    mark, bulks of rows that follow one another have the rows of the column from the
    first row of the granule on, up to the end of the data. *)
Theorem number_column_roundtrip (CityHash128 : bytes -> Z * Z) (CityHash128WithSeed : bytes -> Z * Z -> Z * Z)
    (factory : Z -> result ICompressionCodec) (fresh : nat -> bytes) (clobber : bytes -> bytes) (mc mdec : ICompressionCodec) (mlimit : Z)
    (st : WriterSettings) (compressed : bool) (specs : list (ColumnSpec Z unit))
    (argss : list (list (StreamSettings * FileWriteBuffer * FileWriteBuffer))) (blocks : list (Block (Row := Z)))
    (most : Z) (g : MergeTreeIndexGranularityPtr) :
  part_input factory fresh clobber mc mdec mlimit st compressed specs argss blocks most g ->
  exists w0 w rows,
    new_writer CityHash128 CityHash128WithSeed fresh g (zip (cs_serialization <$> specs) argss) = Ok w0 /\
    write_part CityHash128 CityHash128WithSeed st blocks w0 = (Ok tt, w) /\ all_rows blocks <= Zsum rows /\
    (compute_granularity st = true -> rows = with_final (can_use_adaptive_granularity st) (rows_of (index_granularity w))) /\
    forall j bytes_of_number codec limit, specs !! j = Some (number_column bytes_of_number codec limit) ->
      (0 < bytes_of_number)%nat -> numbers bytes_of_number (column_of blocks j) ->
      exists col s, columns w !! j = Some col /\ column_streams col = [s] /\
        forall menv env different external i ranges,
          Z.of_nat (length rows) < 2 ^ 56 -> readable_with (marks_file s) menv -> readable_with (data_file s) env ->
          (i < length rows)%nat -> (start_of rows i < length (column_of blocks j))%nat -> valid_ranges ranges (drop (start_of rows i) (column_of blocks j)) ->
          (let! marks := loadMarksImpl CityHash128 factory fresh clobber (mark_type (can_use_adaptive_granularity st) compressed) (length rows) 1
             (size_of (marks_file s)) (open_with (marks_file s) menv) in
           let! b := seekToMarkAndColumn marks 1 i 0 (cr_create (open_with (data_file s) env) different external) in
           read_ranges (FromCompressedFile CityHash128 factory fresh FileDescriptorOperations clobber)
             (ff_readBig CityHash128 factory fresh FileDescriptorOperations clobber) fresh bytes_of_number ranges b) =
          Ok (rows_in_ranges ranges (drop (start_of rows i) (column_of blocks j))).
Proof.
  intros [Hfresh Hclob Hmc Hml Hng Hcols Hst Hsc Hsl Hset Hbl Hsb Hgr]. set (adaptive := can_use_adaptive_granularity st) in *.
  destruct (write_part_spec CityHash128 CityHash128WithSeed factory fresh Hfresh mc mdec mlimit Hmc Hml adaptive compressed st eq_refl Hng specs Hcols Hsc
    most blocks argss g Hsl Hset Hbl Hsb Hgr) as (w0 & w & done_rows & E0 & E & _ & Hcomp & Htot & Hl & Hfiles).
  exists w0, w, (with_final adaptive done_rows). split_and!; try done; [unfold with_final; destruct adaptive; [rewrite Zsum_app; simpl; lia|done]|
    intros Ec; by destruct (Hcomp Ec) as [-> _]|].
  intros j wd codec limit Hsp Hwd Hnum. destruct (lookup_lt_is_Some_2 (columns w) j) as [col Hcol]; [apply lookup_lt_Some in Hsp; lia|].
  destruct (Hfiles j col Hcol) as (sp & Hsp' & Hn & Ha). assert (sp = number_column wd codec limit) as -> by congruence.
  destruct (column_streams col) as [|s [|]] eqn:Es; try done. exists col, s. split_and!; [done|done|].
  intros menv env different external i ranges Hlen Hrm Hrd Hi Hstart Hv.
  pose proof (Forall_lookup_1 _ _ _ _ Hcols Hsp) as Hok. pose proof (Forall_lookup_1 _ _ _ _ Hst Hsp 0%nat) as Hdec.
  destruct (stream_reader_spec CityHash128 factory fresh Hfresh clobber Hclob mc mdec mlimit Hmc Hml adaptive compressed _ _ _ _ s _ _ (re_pread menv) _ _ _ _ (re_pread env) _ _
    different external Hok Hdec (Ha 0%nat s eq_refl) Hlen Hrm Hrd) as (marks & at_ & after & Em & [Hseek _ Hafter Hreader Hbig] & Hnew).
  unfold open_with at 1. rewrite Em. cbn [rbind]. destruct (Hseek _ _ i Hnew Hi) as (b & Eb & Hb).
  { unfold from_mark. simpl. intros Hz%(f_equal length). rewrite length_number_bytes, length_drop in Hz. simpl in Hz. nia. }
  unfold open_with. rewrite Eb. cbn [rbind]. apply (read_ranges_spec _ _ _ after Hfresh Hbig); [done|by apply Forall_drop|by apply Hafter|done].
Qed.

Lemma number_column_roundtrip_witness :
  exists s, (let! marks := loadMarksImpl sum_hash small_factory zero_memory id (mark_type true true) 5 1 (size_of (marks_file s)) (open_with (marks_file s) plain_env) in
     let! b := seekToMarkAndColumn marks 1 1 0 (cr_create (open_with (data_file s) plain_env) false false) in
     read_ranges (FromCompressedFile sum_hash small_factory zero_memory FileDescriptorOperations id)
       (ff_readBig sum_hash small_factory zero_memory FileDescriptorOperations id) zero_memory 1 [(0, 1); (1, 1); (0, 7)] b) =
    Ok [[5]; [7]; []].
Proof.
  destruct (number_column_roundtrip sum_hash seeded_sum small_factory zero_memory id CompressionCodecNone CompressionCodecNone 64 small_writer true
    small_columns small_files small_blocks 4 small_granularity small_input) as (w0 & w & rows & E0 & E & _ & Hr & H).
  destruct (small_checked w0 w E0 E) as (Eg & col & s & Hcol & Hs & Hm & Hd). rewrite (Hr eq_refl), Eg in H. clear Hr.
  destruct (H 0%nat 1%nat delta_lz4 64 eq_refl) as (col' & s' & Hcol' & Hs' & Hread); [lia|by repeat (apply Forall_cons_2; [done|])|].
  rewrite Hcol in Hcol'. injection Hcol' as <-. rewrite Hs' in Hs. injection Hs as ->. exists s.
  apply (Hread plain_env plain_env false false 1%nat [(0, 1); (1, 1); (0, 7)] eq_refl Hm Hd); [apply (bool_decide_unpack _); reflexivity..|].
  vm_compute. intuition (done || lia).
Defined.

(** C20: the granularity of a wide part can be computed from the marks of any of its
    streams: that of a part with adaptive marks is the granularity that the writer
    computed, with the final mark; otherwise it has the fixed granularity for each mark. *)
Theorem granularity_roundtrip (CityHash128 : bytes -> Z * Z) (CityHash128WithSeed : bytes -> Z * Z -> Z * Z)
    (factory : Z -> result ICompressionCodec) (fresh : nat -> bytes) (clobber : bytes -> bytes) (mc mdec : ICompressionCodec) (mlimit : Z)
    (st : WriterSettings) (compressed : bool) (Row SState : Type) (specs : list (ColumnSpec Row SState))
    (argss : list (list (StreamSettings * FileWriteBuffer * FileWriteBuffer))) (blocks : list (Block (Row := Row)))
    (most : Z) (g : MergeTreeIndexGranularityPtr) :
  part_input factory fresh clobber mc mdec mlimit st compressed specs argss blocks most g -> compute_granularity st = true ->
  exists w0 w,
    new_writer CityHash128 CityHash128WithSeed fresh g (zip (cs_serialization <$> specs) argss) = Ok w0 /\
    write_part CityHash128 CityHash128WithSeed st blocks w0 = (Ok tt, w) /\
    let rows := rows_of (index_granularity w) in
    forall j col k s menv fuel fixed optimize,
      columns w !! j = Some col -> column_streams col !! k = Some s -> readable_with (marks_file s) menv ->
      (S (length rows) < fuel)%nat -> 0 < fixed -> fixed * (Z.of_nat (length rows) + 2) < 2 ^ 62 ->
      exists p, loadIndexGranularityImpl CityHash128 factory fresh clobber fuel (mark_type (can_use_adaptive_granularity st) compressed) fixed optimize
          (size_of (marks_file s)) (open_with (marks_file s) menv) (AdaptivePtr {| marks_rows_partial_sums := [] |}) = Ok p /\
        wf p /\ rows_of p = if can_use_adaptive_granularity st then rows ++ [0] else replicate (length rows) fixed.
Proof.
  intros [Hfresh Hclob Hmc Hml Hng Hcols Hst Hsc Hsl Hset Hbl Hsb Hgr] Hc. set (adaptive := can_use_adaptive_granularity st) in *.
  destruct (write_part_spec CityHash128 CityHash128WithSeed factory fresh Hfresh mc mdec mlimit Hmc Hml adaptive compressed st eq_refl Hng specs Hcols Hsc
    most blocks argss g Hsl Hset Hbl Hsb Hgr) as (w0 & w & done_rows & E0 & E & _ & Hcomp & _ & _ & Hfiles).
  destruct (Hcomp Hc) as [-> Hok]. exists w0, w. split; [done|]. split; [done|]. intros rows j col k s menv fuel fixed optimize Hcol Hs Hr Hfuel Hfix Hmax.
  destruct (Hfiles j col Hcol) as (sp & _ & _ & Ha). destruct (Ha k s Hs) as (ls & bl & Hl & _ & _ & _ & _ & _ & _ & _ & Hm).
  assert (Hlen : (length (with_final adaptive rows) <= S (length rows))%nat) by (unfold with_final; destruct adaptive; rewrite ?length_app; simpl; lia).
  destruct (load_index_granularity_spec CityHash128 factory fresh Hfresh clobber Hclob mc mdec mlimit Hmc Hml adaptive compressed fuel fixed optimize ls
    (with_final adaptive rows) (marks_file s) _ _ (re_pread menv) _ _ Hl Hm Hr) as (p & Ep & Hp & Er); [lia|done|done|unfold rows in *; nia|].
  exists p. split; [exact Ep|]. split; [done|]. rewrite Er. by destruct adaptive.
Qed.

Lemma granularity_roundtrip_witness :
  exists s p, loadIndexGranularityImpl sum_hash small_factory zero_memory id 7 (mark_type true true) 4 true (size_of (marks_file s))
      (open_with (marks_file s) plain_env) (AdaptivePtr {| marks_rows_partial_sums := [] |}) = Ok p /\ rows_of p = [4; 1; 1; 1; 0].
Proof.
  destruct (granularity_roundtrip sum_hash seeded_sum small_factory zero_memory id CompressionCodecNone CompressionCodecNone 64 small_writer true Z unit
    small_columns small_files small_blocks 4 small_granularity small_input eq_refl) as (w0 & w & E0 & E & H).
  destruct (small_checked w0 w E0 E) as (Eg & col & s & Hcol & Hs & Hm & Hd). rewrite Eg in H.
  destruct (H 0%nat col 0%nat s plain_env 7%nat 4 true Hcol Hs Hm) as (p & Ep & _ & Er); [simpl; lia|done|done|].
  exists s, p. split; [exact Ep|exact Er].
Defined.
