(* ===== verification/PartChecksums.v ===== *)
(** Checksums of the files of a part (src/Storages/MergeTree/MergeTreeDataPartChecksum.{h,cpp},
    [addToChecksums] of MergeTreeDataPartWriterOnDisk.cpp, checkDataPart.cpp): what the
    writer of a part stores, and what the check of a part computes from the files. *)
From S2P Require Import Prelude IntText BinaryIO ReadBuffer ReadBufferFromFile WriteBuffer Codec HashingBuffer.
From S2P Require Import CompressedWriteBuffer CompressedReadBuffer CompressedFile CompressedStream Marks.
From S2P Require Import PartStream PartReader IndexGranularity GranularityPtr Granules WidePart WideWriter.
From S2P Require Import WideRead PartRoundtrip.
Import Binary.

(** * [MergeTreeDataPartChecksum] *)

Record MergeTreeDataPartChecksum := {
  file_size : Z;
  file_hash : Z * Z;
  is_compressed : bool;
  uncompressed_size : Z;
  uncompressed_hash : Z * Z }.

#[global] Instance checksum_eq_dec : EqDecision MergeTreeDataPartChecksum.
Proof. solve_decision. Defined.

(** The constructors *)
Definition no_checksum : MergeTreeDataPartChecksum :=
  {| file_size := 0; file_hash := (0, 0); is_compressed := false; uncompressed_size := 0; uncompressed_hash := (0, 0) |}.

Definition file_checksum (file_size_ : Z) (file_hash_ : Z * Z) : MergeTreeDataPartChecksum :=
  {| file_size := file_size_; file_hash := file_hash_; is_compressed := false; uncompressed_size := 0; uncompressed_hash := (0, 0) |}.

Definition compressed_checksum (file_size_ : Z) (file_hash_ : Z * Z) (uncompressed_size_ : Z) (uncompressed_hash_ : Z * Z) : MergeTreeDataPartChecksum :=
  {| file_size := file_size_; file_hash := file_hash_; is_compressed := true; uncompressed_size := uncompressed_size_; uncompressed_hash := uncompressed_hash_ |}.

(** [checkEqual] *)
Definition checkEqual (c rhs : MergeTreeDataPartChecksum) (have_uncompressed : bool) : result unit :=
  if is_compressed c && have_uncompressed then
    if negb (is_compressed rhs) then Throw CHECKSUM_DOESNT_MATCH
    else if negb (uncompressed_size rhs =? uncompressed_size c) then Throw BAD_SIZE_OF_FILE_IN_DATA_PART
    else if negb (bool_decide (uncompressed_hash rhs = uncompressed_hash c)) then Throw CHECKSUM_DOESNT_MATCH
    else Ok tt
  else if negb (file_size rhs =? file_size c) then Throw BAD_SIZE_OF_FILE_IN_DATA_PART
  else if negb (bool_decide (file_hash rhs = file_hash c)) then Throw CHECKSUM_DOESNT_MATCH
  else Ok tt.

(** * [MergeTreeDataPartChecksums] *)

(** [std::map<String, Checksum>]: files by name, in the order of the names. *)
Abbreviation FileChecksums := (gmap bytes MergeTreeDataPartChecksum).

Fixpoint name_le (a b : bytes) : bool :=
  match a, b with
  | [], _ => true
  | _ :: _, [] => false
  | x :: a, y :: b => if x =? y then name_le a b else x <? y
  end.

Definition name_order {A} (p q : bytes * A) : Prop := name_le p.1 q.1 = true.
#[global] Instance name_order_dec {A} : RelDecision (@name_order A) := fun p q => bool_eq_dec _ _.

Definition in_order {A} (m : gmap bytes A) : list (bytes * A) := merge_sort name_order (map_to_list m).

Definition has (file_name : bytes) (files : FileChecksums) : bool := bool_decide (is_Some (files !! file_name)).
Definition addFile (file_name : bytes) (size : Z) (hash : Z * Z) (files : FileChecksums) : FileChecksums :=
  <[file_name := file_checksum size hash]> files.
Definition remove (file_name : bytes) (files : FileChecksums) : FileChecksums := delete file_name files.

(** [add]: the other checksums replace those of the same files. *)
Definition add (rhs files : FileChecksums) : FileChecksums := foldl (fun fs p => <[p.1 := p.2]> fs) files (in_order rhs).

Definition getTotalSizeOnDisk (files : FileChecksums) : Z := foldl (fun res p => uwrap 64 (res + file_size p.2)) 0 (in_order files).
Definition getTotalSizeUncompressedOnDisk (files : FileChecksums) : Z :=
  foldl (fun res p => uwrap 64 (res + uncompressed_size p.2)) 0 (in_order files).

(** [name.ends_with(suffix)] *)
Definition ends_with (suffix name : bytes) : bool := bool_decide (drop (length name - length suffix) name = suffix).
Definition isGinFile (name : bytes) : bool :=
  ends_with (bytes_of ".gin_dict") name || ends_with (bytes_of ".gin_post") name || ends_with (bytes_of ".gin_seg") name ||
  ends_with (bytes_of ".gin_sid") name.

(** [checkEqual] *)
Fixpoint check_unexpected (files : FileChecksums) (rhs : list (bytes * MergeTreeDataPartChecksum)) : result unit :=
  match rhs with
  | [] => Ok tt
  | (name, _) :: rhs => if has name files then check_unexpected files rhs else Throw UNEXPECTED_FILE_IN_DATA_PART
  end.

Fixpoint check_files (files : list (bytes * MergeTreeDataPartChecksum)) (rhs : FileChecksums) (have_uncompressed : bool) : result unit :=
  match files with
  | [] => Ok tt
  | (name, checksum) :: files =>
      if isGinFile name then check_files files rhs have_uncompressed
      else match rhs !! name with
      | None => Throw NO_FILE_IN_DATA_PART
      | Some c => let! _ := checkEqual checksum c have_uncompressed in check_files files rhs have_uncompressed
      end
  end.

Definition checkEqualFiles (files rhs : FileChecksums) (have_uncompressed : bool) : result unit :=
  let! _ := check_unexpected files (in_order rhs) in check_files (in_order files) rhs have_uncompressed.

Definition isBadChecksumsErrorCode (e : ErrorCode) : bool :=
  match e with
  | CHECKSUM_DOESNT_MATCH | BAD_SIZE_OF_FILE_IN_DATA_PART | NO_FILE_IN_DATA_PART | UNEXPECTED_FILE_IN_DATA_PART => true
  | _ => false
  end.

(** ** What is equal *)

(** The checksums agree as far as they are compared. *)
Definition agrees (have_uncompressed : bool) (c rhs : MergeTreeDataPartChecksum) : Prop :=
  if is_compressed c && have_uncompressed
  then is_compressed rhs = true /\ uncompressed_size rhs = uncompressed_size c /\ uncompressed_hash rhs = uncompressed_hash c
  else file_size rhs = file_size c /\ file_hash rhs = file_hash c.

Lemma checkEqual_spec c rhs have : 
  (checkEqual c rhs have = Ok tt /\ agrees have c rhs) \/
  (exists e, checkEqual c rhs have = Throw e /\ isBadChecksumsErrorCode e = true /\ ~ agrees have c rhs).
Proof.
  unfold checkEqual, agrees. destruct (is_compressed c && have).
  - destruct (is_compressed rhs); [|right; eexists; split_and!; try done; by intros [? _]].
    destruct (Z.eqb_spec (uncompressed_size rhs) (uncompressed_size c)); [|right; eexists; split_and!; try done; by intros (_ & ? & _)].
    case_bool_decide; [by left|right; eexists; split_and!; try done; by intros (_ & _ & ?)].
  - destruct (Z.eqb_spec (file_size rhs) (file_size c)); [|right; eexists; split_and!; try done; by intros (? & _)].
    case_bool_decide; [by left|right; eexists; split_and!; try done; by intros (_ & ?)].
Qed.

Lemma in_order_elem {A} (m : gmap bytes A) name x : (name, x) ∈ in_order m <-> m !! name = Some x.
Proof. unfold in_order. rewrite merge_sort_Permutation. apply elem_of_map_to_list. Qed.

Lemma check_unexpected_spec files rhs :
  (check_unexpected files rhs = Ok tt /\ Forall (fun p => is_Some (files !! p.1)) rhs) \/
  (check_unexpected files rhs = Throw UNEXPECTED_FILE_IN_DATA_PART /\ ~ Forall (fun p => is_Some (files !! p.1)) rhs).
Proof.
  induction rhs as [|[name c] rhs IH]; simpl; [by left|]. unfold has. case_bool_decide as E.
  - destruct IH as [[-> H]|[-> H]]; [left|right]; (split; [done|]); [by constructor|]. intros [_ ?]%Forall_cons. done.
  - right. split; [done|]. by intros [? _]%Forall_cons.
Qed.

Definition file_agrees (have : bool) (rhs : FileChecksums) (p : bytes * MergeTreeDataPartChecksum) : Prop :=
  isGinFile p.1 = true \/ exists c, rhs !! p.1 = Some c /\ agrees have p.2 c.

Lemma check_files_spec files rhs have :
  (check_files files rhs have = Ok tt /\ Forall (file_agrees have rhs) files) \/
  (exists e, check_files files rhs have = Throw e /\ isBadChecksumsErrorCode e = true /\ ~ Forall (file_agrees have rhs) files).
Proof.
  induction files as [|[name c] files IH]; simpl; [by left|].
  assert (Hstep : file_agrees have rhs (name, c) ->
    (check_files files rhs have = Ok tt /\ Forall (file_agrees have rhs) ((name, c) :: files)) \/
    (exists e, check_files files rhs have = Throw e /\ isBadChecksumsErrorCode e = true /\ ~ Forall (file_agrees have rhs) ((name, c) :: files))).
  { intros Ha. destruct IH as [[-> H]|(e & -> & He & H)]; [left; split; [done|by constructor]|right].
    exists e. split_and!; [done|done|]. by intros [_ ?]%Forall_cons. }
  destruct (isGinFile name) eqn:Eg; [apply Hstep; by left|]. destruct (rhs !! name) as [c'|] eqn:Ec.
  - destruct (checkEqual_spec c c' have) as [[-> Ha]|(e & -> & He & Hna)]; [apply Hstep; right; by exists c'|].
    right. exists e. split_and!; [done|done|]. intros [[Hg|(c2 & Hc2 & Ha)] _]%Forall_cons; simpl in *; congruence.
  - right. eexists. split_and!; [done|done|]. intros [[Hg|(c2 & Hc2 & Ha)] _]%Forall_cons; simpl in *; congruence.
Qed.

(** [checkEqual] accepts exactly the sets of the same files with checksums that agree,
    the files of full-text indices aside; otherwise it throws one of the errors that
    mean a broken part. *)
Lemma checkEqualFiles_spec files rhs have :
  let same := (forall name c, rhs !! name = Some c -> is_Some (files !! name)) /\
    (forall name c, files !! name = Some c -> isGinFile name = true \/ exists c', rhs !! name = Some c' /\ agrees have c c') in
  (checkEqualFiles files rhs have = Ok tt /\ same) \/ (exists e, checkEqualFiles files rhs have = Throw e /\ isBadChecksumsErrorCode e = true /\ ~ same).
Proof.
  intros same. unfold checkEqualFiles. pose proof (fun A m => @in_order_elem A m) as Hel.
  destruct (check_unexpected_spec files (in_order rhs)) as [[-> H1]|[-> H1]]; cbn [rbind].
  - rewrite Forall_forall in H1. destruct (check_files_spec (in_order files) rhs have) as [[-> H2]|(e & -> & He & H2)].
    + left. rewrite Forall_forall in H2. split; [done|]. split.
      * intros name c Hc. apply (H1 (name, c)). by apply Hel.
      * intros name c Hc. apply (H2 (name, c)). by apply Hel.
    + right. exists e. split_and!; [done|done|]. intros [_ H]. apply H2, Forall_forall. intros [name c] Hin. apply H. by apply Hel.
  - right. eexists. split_and!; [done|done|]. intros [H _]. apply H1, Forall_forall. intros [name c] Hin. apply (H name c). by apply Hel.
Qed.

(** * What the writer stores *)

(** [checksums.files[name]], which is made if it is missing. *)
Definition update_checksum (name : bytes) (f : MergeTreeDataPartChecksum -> MergeTreeDataPartChecksum) (files : FileChecksums) : FileChecksums :=
  <[name := f (default no_checksum (files !! name))]> files.

Definition set_uncompressed (size : Z) (hash : Z * Z) (c : MergeTreeDataPartChecksum) : MergeTreeDataPartChecksum :=
  {| file_size := file_size c; file_hash := file_hash c; is_compressed := true; uncompressed_size := size; uncompressed_hash := hash |}.

Definition set_file (size : Z) (hash : Z * Z) (c : MergeTreeDataPartChecksum) : MergeTreeDataPartChecksum :=
  {| file_size := size; file_hash := hash; is_compressed := is_compressed c; uncompressed_size := uncompressed_size c;
     uncompressed_hash := uncompressed_hash c |}.

Section AddToChecksums.
Context (CityHash128 : bytes -> Z * Z) (CityHash128WithSeed : bytes -> Z * Z -> Z * Z).

(** [count()] and [getHash()] of the hashing buffer of a chain, *)
Definition chain_hash (ch : Chain) : outcome Chain * (Z * (Z * Z)) :=
  let '((r, ch'), hash) := hw_getHash CityHash128WithSeed (ToCompressor CityHash128 CityHash128WithSeed) ch in
  ((r, ch'), (w_count ch, hash)).

(** and of that for its file. *)
Definition chain_file_hash (ch : Chain) : outcome Chain * (Z * (Z * Z)) :=
  let '((r, p), hash) := hw_getHash CityHash128WithSeed ToFileDescriptor (plain_hashing ch) in
  (on_plain_hashing (fun _ => (r, p)) ch, (w_count (plain_hashing ch), hash)).

(** The checksum of a chain is added for the file [name]; the size is there before the
    hash, which can throw. *)
Definition add_uncompressed (name : bytes) (st : outcome Chain * FileChecksums) : outcome Chain * FileChecksums :=
  match st with
  | ((Throw e, ch), files) => ((Throw e, ch), files)
  | ((Ok _, ch), files) =>
      let (r, sum) := chain_hash ch in
      (r, update_checksum name (fun c => set_uncompressed sum.1 (match r.1 with Throw _ => uncompressed_hash c | Ok _ => sum.2 end) c) files)
  end.

Definition add_file_hash (name : bytes) (st : outcome Chain * FileChecksums) : outcome Chain * FileChecksums :=
  match st with
  | ((Throw e, ch), files) => ((Throw e, ch), files)
  | ((Ok _, ch), files) =>
      let (r, sum) := chain_file_hash ch in
      (r, update_checksum name (fun c => set_file sum.1 (match r.1 with Throw _ => file_hash c | Ok _ => sum.2 end) c) files)
  end.

(** [addToChecksums] for a stream with marks *)
Definition addToChecksums (data_name marks_name : bytes) (s : Stream) (files : FileChecksums) : outcome Stream * FileChecksums :=
  let '((r, ch), files) := add_file_hash data_name (add_uncompressed data_name ((Ok tt, compressed_hashing s), files)) in
  match r with
  | Throw e => ((Throw e, set_data ch s), files)
  | Ok _ =>
      let s := set_data ch s in
      let st := ((Ok tt, marks_compressed_hashing s), files) in
      let '((r, mch), files) := add_file_hash marks_name (if compress_marks s then add_uncompressed marks_name st else st) in
      ((r, set_marks mch s), files)
  end.

End AddToChecksums.

(** * What the check of a part computes *)

Section CheckDataPart.
Context (CityHash128 : bytes -> Z * Z) (CityHash128WithSeed : bytes -> Z * Z -> Z * Z) (factory : Z -> result ICompressionCodec).
Context (fresh : nat -> bytes) (clobber : bytes -> bytes) (fuel : nat).

Abbreviation HashedFile := (FromHashing CityHash128WithSeed FromFileDescriptor).
Abbreviation Uncompressing := (FromCompressed CityHash128 factory fresh HashedFile clobber).

(** [checksum_compressed_file] *)
Definition checksum_compressed_file (file_buf : FileBuffer) : result MergeTreeDataPartChecksum :=
  let compressed_hashing_buf := hr_create fresh file_buf DBMS_DEFAULT_HASHING_BLOCK_SIZE in
  let uncompressing_buf := cr_create compressed_hashing_buf false false in
  let uncompressed_hashing_buf := hr_create fresh uncompressing_buf DBMS_DEFAULT_HASHING_BLOCK_SIZE in
  let! uncompressed_hashing_buf := ignoreAll (FromHashing CityHash128WithSeed Uncompressing) fuel uncompressed_hashing_buf in
  let compressed_hashing_buf := compressed_in (impl (hr_in (impl uncompressed_hashing_buf))) in
  Ok (compressed_checksum (count compressed_hashing_buf) (hr_getHash CityHash128WithSeed compressed_hashing_buf).1
        (count uncompressed_hashing_buf) (hr_getHash CityHash128WithSeed uncompressed_hashing_buf).1).

(** [checksum_file] *)
Definition checksum_file (file_buf : FileBuffer) : result MergeTreeDataPartChecksum :=
  let! hashing_buf := ignoreAll HashedFile fuel (hr_create fresh file_buf DBMS_DEFAULT_HASHING_BLOCK_SIZE) in
  Ok (file_checksum (count hashing_buf) (hr_getHash CityHash128WithSeed hashing_buf).1).

(** The files of the part, and how they are opened. *)
Context (dir : gmap bytes bytes) (env : ReadEnv).

(** The data of the columns: the streams have these names. *)
Definition bin_file (name : bytes) : bytes := name ++ bytes_of ".bin".

Fixpoint check_columns (stream_names : list bytes) (data : FileChecksums) : result FileChecksums :=
  match stream_names with
  | [] => Ok data
  | name :: names =>
      let file_name := bin_file name in
      match dir !! file_name with
      | None => Throw NO_FILE_IN_DATA_PART
      | Some F => let! c := checksum_compressed_file (open_with F env) in check_columns names (<[file_name := c]> data)
      end
  end.

(** The other files. *)
Fixpoint check_others (files_without_checksums : list bytes) (checksums_txt : FileChecksums) (files : list (bytes * bytes)) (data : FileChecksums)
  : result FileChecksums :=
  match files with
  | [] => Ok data
  | (name, F) :: files =>
      if isGinFile name || has name data || bool_decide (name ∈ files_without_checksums)
      then check_others files_without_checksums checksums_txt files data
      else
        let! c :=
          match checksums_txt !! name with
          | Some txt => if is_compressed txt then checksum_compressed_file (open_with F env) else checksum_file (open_with F env)
          | None => checksum_file (open_with F env)
          end in
        check_others files_without_checksums checksums_txt files (<[name := c]> data)
  end.

(** The check of a wide part without projections. *)
Definition checkDataPart (stream_names files_without_checksums : list bytes) (checksums_txt : FileChecksums) (require_checksums : bool)
  : result FileChecksums :=
  let! data := check_columns stream_names ∅ in
  let! data := check_others files_without_checksums checksums_txt (in_order dir) data in
  let! _ :=
    if require_checksums || negb (bool_decide (checksums_txt = ∅)) then checkEqualFiles checksums_txt data true else Ok tt in
  Ok data.

End CheckDataPart.

(** * The checksums are those of the files *)

Section Checksums.
Context (CityHash128 : bytes -> Z * Z) (CityHash128WithSeed : bytes -> Z * Z -> Z * Z) (factory : Z -> result ICompressionCodec).
Context (fresh : nat -> bytes) (fresh_length : forall n, length (fresh n) = n).
Context (clobber : bytes -> bytes) (clobber_length : forall bs, length (clobber bs) = length bs).

Abbreviation hash := (hash_of CityHash128WithSeed (Z.to_nat DBMS_DEFAULT_HASHING_BLOCK_SIZE)).

(** The checksums of contents. *)
Definition plain_sum (F : bytes) : MergeTreeDataPartChecksum := file_checksum (uwrap 64 (size_of F)) (hash F).
Definition compressed_sum (F data : bytes) : MergeTreeDataPartChecksum :=
  compressed_checksum (uwrap 64 (size_of F)) (hash F) (uwrap 64 (size_of data)) (hash data).

Lemma checksum_file_spec fuel F env : readable_with F env -> (length F < fuel)%nat ->
  checksum_file CityHash128WithSeed fresh fuel (open_with F env) = Ok (plain_sum F).
Proof.
  intros [Hs Hb Ha Hc Hf Hk] Hfuel. unfold checksum_file, plain_sum. set (bs := Z.to_nat DBMS_DEFAULT_HASHING_BLOCK_SIZE).
  assert (Hi : fd_inv F (open_with F env) F) by (by apply open_file_inv).
  pose proof (hr_create_inv CityHash128WithSeed (fd_inv F) F bs fresh (open_with F env) fresh_length (proj1 (Nat.ltb_lt 0 bs) eq_refl) Hi eq_refl) as H0.
  change (Z.of_nat bs) with DBMS_DEFAULT_HASHING_BLOCK_SIZE in H0.
  destruct (ignoreAll_spec (FromHashing CityHash128WithSeed FromFileDescriptor) (hr_inv CityHash128WithSeed (fd_inv F) F bs) fuel _ F H0 ltac:(lia) Hfuel)
    as (b & -> & Hb'). cbn [rbind]. destruct (hr_getHash_spec CityHash128WithSeed (fd_inv F) F bs b Hb') as [-> ->]. done.
Qed.

Lemma checksum_compressed_spec fuel c dec limit blocks F env :
  Storable factory c dec limit -> limit < 2 ^ 30 -> F = stream CityHash128 c blocks -> Forall (is_block limit) blocks ->
  readable_with F env -> size_of (mjoin blocks) < 2 ^ 64 -> (length (mjoin blocks) < fuel)%nat ->
  checksum_compressed_file CityHash128 CityHash128WithSeed factory fresh clobber fuel (open_with F env) = Ok (compressed_sum F (mjoin blocks)).
Proof.
  intros Hc Hl HF Hbl [Hs Hb Ha Hca Hf Hk] Hsz Hfuel. unfold checksum_compressed_file, compressed_sum. set (bs := Z.to_nat DBMS_DEFAULT_HASHING_BLOCK_SIZE).
  set (all := stored_block c <$> blocks). assert (Hi : fd_inv F (open_with F env) F) by (by apply open_file_inv).
  pose proof (hr_create_inv CityHash128WithSeed (fd_inv F) F bs fresh (open_with F env) fresh_length (proj1 (Nat.ltb_lt 0 bs) eq_refl) Hi eq_refl) as H0.
  change (Z.of_nat bs) with DBMS_DEFAULT_HASHING_BLOCK_SIZE in H0.
  set (h1 := hr_create fresh (open_with F env) _) in *. set (inv1 := hr_inv CityHash128WithSeed (fd_inv F) F bs) in *.
  assert (H1 : cr_inv CityHash128 factory inv1 (cr_create h1 false false) (mjoin blocks)).
  { exists all. unfold all. rewrite stored_data, stored_stream, <- HF. unfold size_working. simpl. split_and!; try done; try lia.
    by apply (stored_codecs_ok factory c dec limit). }
  set (C := FromCompressed CityHash128 factory fresh (FromHashing CityHash128WithSeed FromFileDescriptor) clobber).
  set (inv2 := cr_inv CityHash128 factory inv1) in *.
  assert (Hspec2 : ReaderSpec C inv2) by (apply compressed_reader; [done|apply _|apply _|done]).
  assert (Hwhole2 : WholePieces C inv2) by (by apply compressed_whole_pieces).
  pose proof (hr_create_inv CityHash128WithSeed inv2 (mjoin blocks) bs fresh (cr_create h1 false false) fresh_length (proj1 (Nat.ltb_lt 0 bs) eq_refl) H1 eq_refl) as H2.
  change (Z.of_nat bs) with DBMS_DEFAULT_HASHING_BLOCK_SIZE in H2.
  destruct (ignoreAll_spec (FromHashing CityHash128WithSeed C) (hr_inv CityHash128WithSeed inv2 (mjoin blocks) bs) fuel _ (mjoin blocks) H2 ltac:(lia) Hfuel)
    as (b & -> & Hb'). cbn [rbind]. destruct (hr_getHash_spec CityHash128WithSeed inv2 (mjoin blocks) bs b Hb') as [-> ->].
  destruct Hb' as [Hin _]. apply (cr_inv_end CityHash128 factory inv1) in Hin. simpl in Hin.
  destruct (hr_getHash_spec CityHash128WithSeed (fd_inv F) F bs _ Hin) as [-> ->]. done.
Qed.

(** ** The checksums of a stream *)

Section Stream.
Context (c mc dec mdec : ICompressionCodec) (limit mlimit : Z).
Context (Hc : Storable factory c dec limit) (Hmc : Storable factory mc mdec mlimit) (Hlimit : limit < 2 ^ 30) (Hmlimit : mlimit < 2 ^ 30).

Lemma chain_sums base c' limit' blocks ch data : finished CityHash128 CityHash128WithSeed c' limit' base blocks ch data ->
  chain_hash CityHash128 CityHash128WithSeed ch = ((Ok tt, ch), (uwrap 64 (size_of data), hash data)) /\
  chain_file_hash CityHash128WithSeed ch =
    ((Ok tt, ch), (uwrap 64 (size_of (base ++ stream CityHash128 c' blocks)), hash (base ++ stream CityHash128 c' blocks))).
Proof.
  intros [_ _ Hp Hcnt Hh Hpp Hpc Hph _]. unfold chain_hash, chain_file_hash, hw_getHash. rewrite !w_next_empty by done. cbn [snd].
  rewrite (hashed_getHash _ _ _ _ Hh), (hashed_getHash _ _ _ _ Hph), Hcnt, Hpc. split; [done|].
  unfold on_plain_hashing, on_compressor, on_out, plain_hashing, compressor. f_equal. f_equal.
  destruct ch as [? ? ? ? ? ? [[? ? ? ? ? ? []] ?]]. done.
Qed.

(** The checksum of the marks. *)
Definition marks_sum (compressed : bool) (F mdata : bytes) : MergeTreeDataPartChecksum :=
  if compressed then compressed_sum F mdata else plain_sum F.

Lemma stream_checksums compressed ms mdata s data :
  stream_finished CityHash128 CityHash128WithSeed c mc limit mlimit compressed ms mdata s data ->
  exists s', finalize_stream CityHash128 CityHash128WithSeed s = (Ok tt, s') /\
    (forall dn mn files, dn <> mn -> files !! mn = None -> addToChecksums CityHash128 CityHash128WithSeed dn mn s files =
      ((Ok tt, s), <[mn := marks_sum compressed (marks_file s') mdata]> (<[dn := compressed_sum (data_file s') data]> files))) /\
    forall fuel env, readable_with (data_file s') env -> readable_with (marks_file s') env ->
      size_of data < 2 ^ 64 -> size_of mdata < 2 ^ 64 -> (length data < fuel)%nat -> (length mdata < fuel)%nat ->
      checksum_compressed_file CityHash128 CityHash128WithSeed factory fresh clobber fuel (open_with (data_file s') env) =
        Ok (compressed_sum (data_file s') data) /\
      (if compressed then checksum_compressed_file CityHash128 CityHash128WithSeed factory fresh clobber fuel (open_with (marks_file s') env)
       else checksum_file CityHash128WithSeed fresh fuel (open_with (marks_file s') env)) = Ok (marks_sum compressed (marks_file s') mdata).
Proof.
  intros (blocks & base & mblocks & mrest & H & Hm & Hb & [Hpre Ecm] & _). unfold finalize_stream. rewrite Hpre. cbn [andthen]. unfold on_data, on_marks.
  destruct (finished_close _ _ _ _ _ _ _ _ H) as (ch & -> & Hf). cbn [andthen set_data marks_compressed_hashing].
  destruct (finished_close _ _ _ _ _ _ _ _ Hm) as (mch & -> & Hmf). eexists. split; [done|]. unfold data_file, marks_file. simpl. rewrite Hf, Hmf. simpl.
  destruct (chain_sums _ _ _ _ _ _ H) as [E1 E2]. destruct (chain_sums _ _ _ _ _ _ Hm) as [E3 E4]. split.
  - intros dn mn files Hne Hno. unfold addToChecksums, add_uncompressed, add_file_hash. rewrite E1. cbn [fst]. rewrite E2. cbn [fst snd].
    assert (Es : set_data (compressed_hashing s) s = s) by (by destruct s). rewrite Es.
    unfold update_checksum. rewrite insert_insert_eq, lookup_insert_eq. cbn [default]. rewrite Ecm. unfold marks_sum. destruct compressed; destruct Hb as [-> ->].
    + rewrite E3. cbn [fst]. rewrite E4. cbn [fst snd]. rewrite insert_insert_eq, !lookup_insert_eq. cbn [default]. by destruct s.
    + rewrite E4. cbn [fst snd]. rewrite lookup_insert_ne, Hno by done. cbn [default]. by destruct s.
  - intros fuel env Hd Hmd Hs Hms Hf1 Hf2. pose proof (fin_data _ _ _ _ _ _ _ _ H) as Ed. pose proof (fin_blocks _ _ _ _ _ _ _ _ H) as Hbl.
    pose proof (fin_data _ _ _ _ _ _ _ _ Hm) as Emd. pose proof (fin_blocks _ _ _ _ _ _ _ _ Hm) as Hmbl. subst data. split.
    + by apply (checksum_compressed_spec fuel c dec limit).
    + unfold marks_sum. destruct compressed; destruct Hb as [-> ->]; [subst mdata; by apply (checksum_compressed_spec fuel mc mdec mlimit)|].
      unfold stream in *. simpl in *. rewrite app_nil_r in *. by apply checksum_file_spec.
Qed.

End Stream.

(** ** The loops of the check *)

(** How a file is checked, if the writer stored [txt] for it. *)
Definition recompute (fuel : nat) (env : ReadEnv) (txt : option MergeTreeDataPartChecksum) (F : bytes) : result MergeTreeDataPartChecksum :=
  match txt with
  | Some t => if is_compressed t then checksum_compressed_file CityHash128 CityHash128WithSeed factory fresh clobber fuel (open_with F env)
              else checksum_file CityHash128WithSeed fresh fuel (open_with F env)
  | None => checksum_file CityHash128WithSeed fresh fuel (open_with F env)
  end.

(** Files with good checksums. *)
Lemma check_columns_good (fuel : nat) (dir : gmap bytes bytes) (env : ReadEnv) (txt : FileChecksums) (names : list bytes) (data : FileChecksums) :
  (forall name, name ∈ names -> exists (F : bytes) (c : MergeTreeDataPartChecksum), dir !! (bin_file name) = Some F /\ txt !! (bin_file name) = Some c /\
    checksum_compressed_file CityHash128 CityHash128WithSeed factory fresh clobber fuel (open_with F env) = Ok c) ->
  exists data', check_columns CityHash128 CityHash128WithSeed factory fresh clobber fuel dir env names data = Ok data' /\
    forall f, data' !! f = if bool_decide (f ∈ bin_file <$> names) then txt !! f else data !! f.
Proof.
  revert data. induction names as [|name names IH]; intros data H; [by exists data|]. cbn [check_columns].
  destruct (H name ltac:(left)) as (F & c & HF & Ht & Hsum). rewrite HF, Hsum. cbn [rbind].
  destruct (IH (<[bin_file name := c]> data)) as (data' & -> & Hd); [intros n Hn; apply H; by right|].
  exists data'. split; [done|]. intros f. rewrite Hd.
  destruct (decide (f = bin_file name)) as [->|Hne].
  - rewrite lookup_insert_eq, (bool_decide_eq_true_2 (_ ∈ _ <$> name :: names)) by (rewrite fmap_cons; left). by case_bool_decide.
  - rewrite lookup_insert_ne by done. assert (Hiff : bool_decide (f ∈ bin_file <$> name :: names) = bool_decide (f ∈ bin_file <$> names));
      [apply bool_decide_ext; rewrite fmap_cons, elem_of_cons; naive_solver|]. by rewrite Hiff.
Qed.

Lemma other_key (g f F : bytes) files : g <> f -> bool_decide (g ∈ ((f, F) :: files).*1) = bool_decide (g ∈ files.*1).
Proof. intros Hne. apply bool_decide_ext. rewrite fmap_cons, elem_of_cons. naive_solver. Qed.

Lemma check_others_good (fuel : nat) (env : ReadEnv) (without : list bytes) (txt : FileChecksums) (files : list (bytes * bytes)) (data : FileChecksums) :
  NoDup (files.*1) ->
  (forall f F, (f, F) ∈ files -> isGinFile f = true \/ f ∈ without \/ is_Some (data !! f) \/
    exists c, txt !! f = Some c /\ recompute fuel env (Some c) F = Ok c) ->
  exists data', check_others CityHash128 CityHash128WithSeed factory fresh clobber fuel env without txt files data = Ok data' /\
    forall f, data' !! f = match data !! f with
      | Some c => Some c
      | None => if bool_decide (f ∈ files.*1) && negb (isGinFile f) && negb (bool_decide (f ∈ without)) then txt !! f else None
      end.
Proof.
  revert data. induction files as [|[f F] files IH]; intros data Hnd H; [exists data; split; [done|]; intros f; by destruct (data !! f)|].
  rewrite fmap_cons in Hnd. apply NoDup_cons in Hnd as [Hnot Hnd]. simpl in Hnot. cbn [check_others].
  destruct (isGinFile f || has f data || bool_decide (f ∈ without)) eqn:Eskip.
  - destruct (IH data Hnd) as (data' & -> & Hd); [intros g F' Hg; apply (H g F'); by right|]. exists data'. split; [done|]. intros g. rewrite Hd.
    destruct (data !! g) eqn:Eg; [done|]. destruct (decide (g = f)) as [->|Hne].
    + unfold has in Eskip. rewrite Eg, (bool_decide_eq_false_2 (is_Some None)) in Eskip by (by intros []). rewrite orb_false_r in Eskip.
      destruct (isGinFile f), (bool_decide (f ∈ without)); try done; by rewrite !andb_false_r.
    + by rewrite (other_key g f F files).
  - apply orb_false_iff in Eskip as [[Egin Ehas%bool_decide_eq_false]%orb_false_iff Ewo%bool_decide_eq_false].
    destruct (H f F ltac:(left)) as [Hg|[Hw|[Hs|(c & Ht & Hrec)]]]; [congruence|done|done|].
    unfold recompute in Hrec. rewrite Ht, Hrec. cbn [rbind].
    destruct (IH (<[f := c]> data) Hnd) as (data' & -> & Hd).
    { intros g F' Hg. destruct (H g F' ltac:(by right)) as [?|[?|[?|?]]]; auto. right. right. left. destruct (decide (g = f)) as [->|];
        [rewrite lookup_insert_eq; eauto|by rewrite lookup_insert_ne]. }
    exists data'. split; [done|]. intros g. rewrite Hd. destruct (decide (g = f)) as [->|Hne].
    + rewrite lookup_insert_eq. destruct (data !! f) eqn:Ef; [exfalso; by apply Ehas; eauto|].
      rewrite (bool_decide_eq_true_2 (f ∈ ((f, F) :: files).*1)) by (rewrite fmap_cons; left). rewrite Egin, (bool_decide_eq_false_2 (f ∈ without)) by done. by rewrite Ht.
    + rewrite lookup_insert_ne by done. destruct (data !! g); [done|].
      by rewrite (other_key g f F files).
Qed.

(** The check accepts a part if the files have the checksums of [txt], and there are no
    others. *)
Lemma checkDataPart_good (fuel : nat) (dir : gmap bytes bytes) (env : ReadEnv) (names without : list bytes) (txt : FileChecksums) (required : bool) :
  (forall f c, txt !! f = Some c -> exists F, dir !! f = Some F /\ recompute fuel env (Some c) F = Ok c /\ isGinFile f = false /\ f ∉ without) ->
  (forall f F, dir !! f = Some F -> is_Some (txt !! f) \/ isGinFile f = true \/ f ∈ without) ->
  (forall name, name ∈ names -> exists c, txt !! (bin_file name) = Some c /\ is_compressed c = true) ->
  checkDataPart CityHash128 CityHash128WithSeed factory fresh clobber fuel dir env names without txt required = Ok txt.
Proof.
  intros Htxt Hdir Hnames. unfold checkDataPart.
  destruct (check_columns_good fuel dir env txt names ∅) as (data1 & -> & H1).
  { intros name Hn. destruct (Hnames name Hn) as (c & Hc & Hcomp). destruct (Htxt _ c Hc) as (F & HF & Hr & _). exists F, c. split_and!; try done.
    unfold recompute in Hr. by rewrite Hcomp in Hr. }
  cbn [rbind]. assert (Hkeys : (in_order dir).*1 ≡ₚ (map_to_list dir).*1) by (apply fmap_Permutation, merge_sort_Permutation).
  destruct (check_others_good fuel env without txt (in_order dir) data1) as (data2 & -> & H2).
  { rewrite Hkeys. apply NoDup_fst_map_to_list. }
  { intros f F Hf%in_order_elem. destruct (Hdir f F Hf) as [[c Hc]|[?|?]]; auto. right. right. right. destruct (Htxt f c Hc) as (F' & HF' & Hr & _).
    exists c. split; [done|]. congruence. }
  cbn [rbind]. assert (E : data2 = txt).
  { apply map_eq. intros f. rewrite H2, H1, lookup_empty. destruct (txt !! f) as [c|] eqn:Ef.
    - case_bool_decide; [done|]. destruct (Htxt f c Ef) as (F & HF & _ & Hg & Hw). rewrite bool_decide_eq_true_2.
      + by rewrite Hg, (bool_decide_eq_false_2 (f ∈ without)).
      + rewrite Hkeys. apply list_elem_of_fmap. exists (f, F). split; [done|]. by apply elem_of_map_to_list.
    - by repeat case_match. }
  rewrite E. destruct (checkEqualFiles_spec txt txt true) as [[-> _]|(e & _ & _ & Hno)]; [by destruct (_ || _)|].
  exfalso. apply Hno. split; [by intros name c ->; eauto|]. intros name c Hc. right. exists c. split; [done|]. unfold agrees. by destruct (is_compressed c).
Qed.

End Checksums.
