(* ===== verification/PartCheck.v ===== *)
(** The check of a written part (fillDataChecksums of MergeTreeDataPartWriterWide.cpp,
    checkDataPart.cpp): the checksums that the writer of a wide part collects are those
    that the check computes from the files, and a part that the check accepts has the
    files of its checksums. *)
From S2P Require Import Prelude IntText BinaryIO ReadBuffer ReadBufferFromFile WriteBuffer Codec HashingBuffer.
From S2P Require Import CompressedWriteBuffer CompressedReadBuffer CompressedFile CompressedStream Marks.
From S2P Require Import PartStream PartReader IndexGranularity GranularityPtr Granules WidePart WideWriter.
From S2P Require Import WideRead PartRoundtrip PartChecksums.
Import Binary.

(** * The checksums of all streams *)

(** The end of [fillDataChecksums]: the loop over the streams, which have been
    prefinalized. *)
Fixpoint addAllToChecksums (CityHash128 : bytes -> Z * Z) (CityHash128WithSeed : bytes -> Z * Z -> Z * Z) (marks_file_extension : bytes)
    (names : list bytes) (streams : list Stream) (checksums : FileChecksums) : outcome (list Stream) * FileChecksums :=
  match names, streams with
  | name :: names, stream :: streams =>
      match addToChecksums CityHash128 CityHash128WithSeed (bin_file name) (name ++ marks_file_extension) stream checksums with
      | ((Throw e, stream), checksums) => ((Throw e, stream :: streams), checksums)
      | ((Ok _, stream), checksums) =>
          let '((r, streams), checksums) := addAllToChecksums CityHash128 CityHash128WithSeed marks_file_extension names streams checksums in
          ((r, stream :: streams), checksums)
      end
  | _, _ => ((Ok tt, streams), checksums)
  end.

(** The streams of a writer. *)
Definition part_streams {G Row SState} (w : PartWriter (G := G) (Row := Row) (SState := SState)) : list Stream :=
  mjoin (column_streams <$> columns w).

(** * Proofs *)

Lemma for_each_related {A} (f : A -> outcome A) (R : A -> A -> Prop) xs :
  (forall x, x ∈ xs -> exists x', f x = (Ok tt, x') /\ R x x') -> exists xs', for_each f xs = (Ok tt, xs') /\ Forall2 R xs xs'.
Proof.
  induction xs as [|x xs IH]; intros H; [by exists []|]. cbn [for_each]. destruct (H x ltac:(left)) as (x' & -> & Hx).
  destruct IH as (xs' & -> & Hxs); [intros y Hy; apply H; by right|]. exists (x' :: xs'). split; [done|by constructor].
Qed.

(** The names and the contents of the files of streams. *)
Definition file_names (ext : bytes) (names : list bytes) : list bytes := mjoin ((fun n => [bin_file n; n ++ ext]) <$> names).
Definition part_files (ext : bytes) (names : list bytes) (streams : list Stream) : list (bytes * bytes) :=
  mjoin (zip_with (fun n s => [(bin_file n, data_file s); (n ++ ext, marks_file s)]) names streams).

Lemma file_names_cons ext n names f : f ∈ file_names ext (n :: names) <-> f = bin_file n \/ f = n ++ ext \/ f ∈ file_names ext names.
Proof. change (file_names ext (n :: names)) with (bin_file n :: (n ++ ext) :: file_names ext names). by rewrite !elem_of_cons. Qed.

(** A directory has these files, and others only if they have no checksums. *)
Record part_directory (ext : bytes) (names : list bytes) (streams : list Stream) (without : list bytes) (dir : gmap bytes bytes) : Prop := {
  pd_streams : length names = length streams;
  pd_distinct : NoDup (file_names ext names);
  pd_summed f : f ∈ file_names ext names -> isGinFile f = false /\ f ∉ without;
  pd_files f F : (f, F) ∈ part_files ext names streams -> dir !! f = Some F;
  pd_others f F : dir !! f = Some F -> f ∈ file_names ext names \/ isGinFile f = true \/ f ∈ without }.

Section PartCheck.
Context (CityHash128 : bytes -> Z * Z) (CityHash128WithSeed : bytes -> Z * Z -> Z * Z) (factory : Z -> result ICompressionCodec).
Context (fresh : nat -> bytes) (fresh_length : forall n, length (fresh n) = n).
Context (clobber : bytes -> bytes) (clobber_length : forall bs, length (clobber bs) = length bs).

Abbreviation recompute := (recompute CityHash128 CityHash128WithSeed factory fresh clobber).
Abbreviation addAll := (addAllToChecksums CityHash128 CityHash128WithSeed).

Definition files_readable (env : ReadEnv) (s : Stream) : Prop := readable_with (data_file s) env /\ readable_with (marks_file s) env.

(** A stream before it is closed and after it: what it adds is what is computed from its
    files. *)
Definition stream_checks (fuel : nat) (s s' : Stream) : Prop :=
  exists dsum msum, is_compressed dsum = true /\
    (forall dn mn files, dn <> mn -> files !! mn = None ->
      addToChecksums CityHash128 CityHash128WithSeed dn mn s files = ((Ok tt, s), <[mn := msum]> (<[dn := dsum]> files))) /\
    forall env, files_readable env s' ->
      recompute fuel env (Some dsum) (data_file s') = Ok dsum /\ recompute fuel env (Some msum) (marks_file s') = Ok msum.

(** What is known of collected checksums. *)
Record collected (fuel : nat) (ext : bytes) (names : list bytes) (streams : list Stream) (files txt : FileChecksums) : Prop := {
  col_sums env f c : Forall (files_readable env) streams -> txt !! f = Some c -> f ∈ file_names ext names ->
    exists F, (f, F) ∈ part_files ext names streams /\ recompute fuel env (Some c) F = Ok c;
  col_all f : f ∈ file_names ext names -> is_Some (txt !! f);
  col_others f : f ∉ file_names ext names -> txt !! f = files !! f;
  col_data n : n ∈ names -> exists c, txt !! (bin_file n) = Some c /\ is_compressed c = true }.

Lemma addAll_spec (fuel : nat) (ext : bytes) names ss ss' files :
  Forall2 (stream_checks fuel) ss ss' -> length names = length ss -> NoDup (file_names ext names) ->
  (forall f, f ∈ file_names ext names -> files !! f = None) ->
  exists txt, addAll ext names ss files = ((Ok tt, ss), txt) /\ collected fuel ext names ss' files txt.
Proof.
  intros H. revert names files. induction H as [|s s' ss ss' (dsum & msum & Hd & Hadd & Hrec) _ IH]; intros [|n names] files Hl Hnd Hno; try done.
  { exists files. split; [done|]. split; try done; [intros env f c _ _ Hf|intros f Hf|intros n Hf]; by apply elem_of_nil in Hf. }
  change (file_names ext (n :: names)) with (bin_file n :: (n ++ ext) :: file_names ext names) in *.
  apply NoDup_cons in Hnd as [Hn1 Hnd]. apply NoDup_cons in Hnd as [Hn2 Hnd]. apply not_elem_of_cons in Hn1 as [Hne Hn1].
  cbn [addAllToChecksums]. rewrite (Hadd _ _ files Hne) by (apply Hno; right; left).
  set (files1 := <[n ++ ext := msum]> (<[bin_file n := dsum]> files)).
  destruct (IH names files1) as (txt & -> & [Hsums Hall Hoth Hdata]); [simpl in Hl; lia|done| |].
  { intros f Hf. unfold files1. rewrite !lookup_insert_ne by (by intros <-). apply Hno. by do 2 right. }
  assert (E1 : txt !! (bin_file n) = Some dsum) by (rewrite Hoth by done; unfold files1; by rewrite lookup_insert_ne, lookup_insert_eq by done).
  assert (E2 : txt !! (n ++ ext) = Some msum) by (rewrite Hoth by done; unfold files1; by rewrite lookup_insert_eq).
  exists txt. split; [done|]. split.
  - intros env f c [Hr Hrs]%Forall_cons Hc Hf. change (part_files ext (n :: names) (s' :: ss')) with
      ((bin_file n, data_file s') :: (n ++ ext, marks_file s') :: part_files ext names ss'). destruct (Hrec env Hr) as [R1 R2].
    apply file_names_cons in Hf as [->|[->|Hf]].
    + exists (data_file s'). split; [left|]. congruence.
    + exists (marks_file s'). split; [right; left|]. congruence.
    + destruct (Hsums env f c Hrs Hc Hf) as (F & HF & HR). exists F. split; [by do 2 right|done].
  - intros f Hf. apply file_names_cons in Hf as [->|[->|Hf]]; [by eexists..|by apply Hall].
  - intros f Hf. rewrite file_names_cons in Hf. rewrite Hoth by tauto. unfold files1. rewrite !lookup_insert_ne; naive_solver.
  - intros m Hm. rewrite elem_of_cons in Hm. destruct Hm as [->|Hm]; [by exists dsum|by apply Hdata].
Qed.

(** The check of a directory with such files. *)
Lemma collected_check (fuel : nat) (ext : bytes) names streams without dir txt env required :
  collected fuel ext names streams ∅ txt -> part_directory ext names streams without dir -> Forall (files_readable env) streams ->
  checkDataPart CityHash128 CityHash128WithSeed factory fresh clobber fuel dir env names without txt required = Ok txt.
Proof.
  intros [Hsums Hall Hoth Hdata] [_ _ Hsummed Hfiles Hothers] Hr. apply checkDataPart_good.
  - intros f c Hc. destruct (decide (f ∈ file_names ext names)) as [Hf|Hf]; [|by rewrite Hoth, lookup_empty in Hc].
    destruct (Hsums env f c Hr Hc Hf) as (F & HF & HR). exists F. destruct (Hsummed f Hf). by split_and!; [apply Hfiles|..].
  - intros f F [Hf|Hf]%Hothers; [left; by apply Hall|by right].
  - done.
Qed.

(** The steps that the check needs: the sizes of the streams and of the marks. *)
Definition enough_fuel {Row SState} (specs : list (ColumnSpec Row SState)) (blocks : list (Block (Row := Row))) (rows : list Z) (fuel : nat) : Prop :=
  (forall j sp k, specs !! j = Some sp -> (length (cs_enc sp k (column_of blocks j)) < fuel)%nat) /\ (24 * length rows < fuel)%nat /\ Z.of_nat fuel <= 2 ^ 64.

Lemma marks_data_bound adaptive ls rows : (length (marks_data adaptive ls rows) <= 24 * length rows)%nat.
Proof.
  revert rows. induction ls as [|l ls IH]; intros [|r rows]; try (simpl; lia). specialize (IH rows).
  change (marks_data adaptive (l :: ls) (r :: rows)) with (mark_bytes adaptive (lo_mark l) r ++ marks_data adaptive ls rows).
  rewrite length_app. unfold mark_bytes. destruct adaptive; rewrite !length_app, !length_le_bytes; simpl; lia.
Qed.

Lemma finish_checks mc mdec mlimit st compressed {Row SState} (specs : list (ColumnSpec Row SState)) (blocks : list (Block (Row := Row))) rows total
    (cols : list (ColumnWriter (Row := Row) (SState := SState))) :
  Storable factory mc mdec mlimit -> mlimit < 2 ^ 30 ->
  Forall (fun sp => forall k, exists dec, Storable factory (cs_codec sp k) dec (cs_limit sp k)) specs ->
  Forall (fun b => block_ok specs b) blocks ->
  all_at (column_finished CityHash128 CityHash128WithSeed mc mlimit st compressed specs rows total (all_columns (replicate (length specs) []) blocks)) cols ->
  exists cols', for_each (on_streams (for_each (finalize_stream CityHash128 CityHash128WithSeed))) cols = (Ok tt, cols') /\
    Forall2 (fun s s' => forall fuel, enough_fuel specs blocks rows fuel -> stream_checks fuel s s') (mjoin (column_streams <$> cols)) (mjoin (column_streams <$> cols')).
Proof.
  intros Hmc Hml Hst Hbl H. set (R := fun s s' => forall fuel, enough_fuel specs blocks rows fuel -> stream_checks fuel s s').
  assert (Hcols : exists cols', for_each (on_streams (for_each (finalize_stream CityHash128 CityHash128WithSeed))) cols = (Ok tt, cols') /\
    Forall2 (fun c c' => Forall2 R (column_streams c) (column_streams c')) cols cols').
  2: { destruct Hcols as (cols' & E & HF). exists cols'. split; [done|]. apply Forall2_join, Forall2_fmap. exact HF. }
  apply for_each_related. intros col [j Hj]%list_elem_of_lookup. destruct (H j col Hj) as (sp & xs & Hsp & Hok & Hx & _ & _ & Hs).
  pose proof (lookup_lt_Some _ _ _ Hsp) as Hjl. rewrite (all_columns_lookup specs blocks _ j [] Hbl Hjl) in Hx by (by apply lookup_replicate_2). injection Hx as <-.
  destruct (for_each_related (finalize_stream CityHash128 CityHash128WithSeed) R (column_streams col)) as (ss & E & HF).
  2: { unfold on_streams. rewrite E. eexists. split; [done|]. exact HF. }
  intros s [k Hk]%list_elem_of_lookup. destruct (Hs k s Hk) as (ls & Hll & _ & Hf & _). destruct (Forall_lookup_1 _ _ _ _ Hst Hsp k) as [dec Hdec].
  destruct (stream_checksums CityHash128 CityHash128WithSeed factory fresh fresh_length clobber clobber_length _ mc dec mdec _ mlimit Hdec Hmc (co_limit sp k) Hml _ _ _ s _ Hf)
    as (s' & E & Hadd & Hsum). exists s'. split; [done|]. intros fuel (Hf1 & Hf2 & Hf3). specialize (Hf1 j sp k Hsp).
  pose proof (marks_data_bound (can_use_adaptive_granularity st) ls rows) as Hm.
  eexists _, _. split; [|split; [exact Hadd|]]; [done|]. intros env [Hrd Hrm]. destruct (Hsum fuel env Hrd Hrm) as [S1 S2]; [lia..|].
  unfold PartChecksums.recompute. cbn [is_compressed compressed_sum compressed_checksum marks_sum]. split; [done|].
  destruct compressed; exact S2.
Qed.

End PartCheck.

(** C6: the check of a part accepts what the writer wrote. The checksums that the
    writer of a wide part collects are the ones that the check computes from the files,
    whatever the blocks, the codecs, the buffers and the system calls: the check returns
    them, if the directory has the files of the streams, and others only that have no
    checksums. *)
Theorem written_part_checks (CityHash128 : bytes -> Z * Z) (CityHash128WithSeed : bytes -> Z * Z -> Z * Z)
    (factory : Z -> result ICompressionCodec) (fresh : nat -> bytes) (clobber : bytes -> bytes) (mc mdec : ICompressionCodec) (mlimit : Z)
    (st : WriterSettings) (compressed : bool) (Row SState : Type) (specs : list (ColumnSpec Row SState))
    (argss : list (list (StreamSettings * FileWriteBuffer * FileWriteBuffer))) (blocks : list (Block (Row := Row)))
    (most : Z) (g : MergeTreeIndexGranularityPtr) :
  part_input factory fresh clobber mc mdec mlimit st compressed specs argss blocks most g ->
  exists w0 w1 w rows,
    new_writer CityHash128 CityHash128WithSeed fresh g (zip (cs_serialization <$> specs) argss) = Ok w0 /\
    (write_blocks CityHash128 CityHash128WithSeed st blocks w0 >> fillDataChecksums CityHash128 CityHash128WithSeed st) = (Ok tt, w1) /\
    finishDataSerialization CityHash128 CityHash128WithSeed w1 = (Ok tt, w) /\
    (compute_granularity st = true -> rows = with_final (can_use_adaptive_granularity st) (rows_of (index_granularity w))) /\
    forall fuel ext names without dir env required,
      enough_fuel specs blocks rows fuel -> part_directory ext names (part_streams w) without dir -> Forall (files_readable env) (part_streams w) ->
      exists txt, addAllToChecksums CityHash128 CityHash128WithSeed ext names (part_streams w1) ∅ = ((Ok tt, part_streams w1), txt) /\
        (forall f, is_Some (txt !! f) <-> f ∈ file_names ext names) /\
        checkDataPart CityHash128 CityHash128WithSeed factory fresh clobber fuel dir env names without txt required = Ok txt.
Proof.
  intros [Hfresh Hclob Hmc Hml Hng Hcols Hst Hsc Hsl Hset Hbl Hsb Hgr]. set (adaptive := can_use_adaptive_granularity st) in *.
  destruct (fill_part_spec CityHash128 CityHash128WithSeed factory fresh Hfresh mc mdec mlimit Hmc Hml adaptive compressed st eq_refl Hng specs Hcols Hsc
    most blocks argss g Hsl Hset Hbl Hsb Hgr) as (w0 & w1 & done_rows & E0 & E1 & _ & Hcomp & _ & _ & Hfin).
  assert (Hbl' : Forall (fun b => block_ok specs b) blocks) by (eapply Forall_impl; [exact Hbl|]; by intros b [? _]).
  destruct (finish_checks CityHash128 CityHash128WithSeed factory fresh Hfresh clobber Hclob mc mdec mlimit st compressed specs blocks _ _ _ Hmc Hml Hst Hbl' Hfin)
    as (cols' & E2 & HF).
  exists w0, w1. eexists _, (with_final adaptive done_rows). split; [done|]. split; [done|]. unfold finishDataSerialization, on_columns. rewrite E2. split; [done|].
  split; [intros Ec; by destruct (Hcomp Ec) as [-> _]|]. intros fuel ext names without dir env required Hfuel Hdir Hr.
  pose proof (Forall2_impl _ _ _ _ HF (fun s s' Hs => Hs fuel Hfuel)) as HF'. pose proof (Forall2_length _ _ _ HF') as Hlen.
  destruct (addAll_spec CityHash128 CityHash128WithSeed factory fresh clobber fuel ext names (part_streams w1) _ ∅ HF') as (txt & E & Hc);
    [rewrite (pd_streams _ _ _ _ _ Hdir); unfold part_streams at 2; by rewrite Hlen|apply Hdir|done|].
  exists txt. split; [done|]. split; [|by apply (collected_check _ _ _ _ _ fuel ext names _ without dir txt env required Hc)].
  intros f. split; [|apply Hc]. intros [c Hf]. destruct (decide (f ∈ file_names ext names)) as [|Hn]; [done|].
  by rewrite (col_others _ _ _ _ _ _ _ _ _ _ _ Hc) in Hf.
Qed.

(** ** The witness *)

Lemma part_files_names ext names (streams : list Stream) : length names = length streams -> (part_files ext names streams).*1 = file_names ext names.
Proof.
  revert streams. induction names as [|n names IH]; intros [|s streams] Hl; try done.
  change ((part_files ext (n :: names) (s :: streams)).*1) with (bin_file n :: (n ++ ext) :: (part_files ext names streams).*1).
  rewrite IH by (simpl in Hl; lia). done.
Qed.

(** A directory with the files of the streams only. *)
Lemma files_directory ext names (streams : list Stream) without : length names = length streams ->
  NoDup (file_names ext names) -> Forall (fun f => isGinFile f = false /\ f ∉ without) (file_names ext names) ->
  part_directory ext names streams without (list_to_map (part_files ext names streams)).
Proof.
  intros Hl Hnd Hs. pose proof (part_files_names ext names streams Hl) as E. split; try done.
  - by rewrite Forall_forall in Hs.
  - intros f F HF. apply elem_of_list_to_map_1; [by rewrite E|done].
  - intros f F HF%elem_of_list_to_map_2. left. rewrite <- E. apply list_elem_of_fmap. by exists (f, F).
Qed.

Definition small_names : list bytes := [bytes_of "a"; bytes_of "b"].
Definition small_ext : bytes := bytes_of ".cmrk2".

Definition small_sizes (w : PartWriter (G := MergeTreeIndexGranularityPtr) (Row := Z) (SState := unit)) : bool :=
  bool_decide (length (part_streams w) = 2%nat) && forallb (fun s => (size_of (data_file s) <? 2 ^ 63) && (size_of (marks_file s) <? 2 ^ 63)) (part_streams w) &&
  bool_decide (rows_of (index_granularity w) = [4; 1; 1; 1]).

Lemma small_part_sizes w0 w1 w :
  new_writer sum_hash seeded_sum zero_memory small_granularity (zip (cs_serialization <$> small_columns) small_files) = Ok w0 ->
  (write_blocks sum_hash seeded_sum small_writer small_blocks w0 >> fillDataChecksums sum_hash seeded_sum small_writer) = (Ok tt, w1) ->
  finishDataSerialization sum_hash seeded_sum w1 = (Ok tt, w) ->
  length (part_streams w) = 2%nat /\ Forall (files_readable plain_env) (part_streams w) /\ rows_of (index_granularity w) = [4; 1; 1; 1].
Proof.
  intros E0 E1 E2. assert (Hc : small_sizes w = true).
  { assert (Er : small_part = Ok (Ok tt, w)) by (unfold small_part; rewrite E0; cbn [rbind]; unfold write_part; rewrite E1; cbn [andthen]; by rewrite E2).
    apply (f_equal (fun r => match r with Ok (_, w) => small_sizes w | Throw _ => false end)) in Er. rewrite <- Er. vm_compute. reflexivity. }
  clear E0 E1 E2. unfold small_sizes in Hc. rewrite !andb_true_iff, !bool_decide_eq_true in Hc. destruct Hc as [[Hl Hs] Hr]. split_and!; try done.
  apply Forall_forall. intros s Hin. rewrite forallb_forall in Hs. specialize (Hs s). rewrite <- list_elem_of_In, andb_true_iff, !Z.ltb_lt in Hs.
  destruct (Hs Hin). split; split; try done; (by apply (bool_decide_unpack _)) || by repeat (apply Forall_cons_2; [done|]).
Qed.

Lemma written_part_checks_witness :
  exists streams w txt,
    addAllToChecksums sum_hash seeded_sum small_ext small_names streams ∅ = ((Ok tt, streams), txt) /\
    checkDataPart sum_hash seeded_sum small_factory zero_memory id 200 (list_to_map (part_files small_ext small_names (part_streams w)))
      plain_env small_names [bytes_of "checksums.txt"] txt true = Ok txt /\ small_part = Ok (Ok tt, w) /\
    Forall (fun f => is_Some (txt !! bytes_of f)) ["a.bin"; "a.cmrk2"; "b.bin"; "b.cmrk2"]%string.
Proof.
  destruct (written_part_checks sum_hash seeded_sum small_factory zero_memory id CompressionCodecNone CompressionCodecNone 64 small_writer true Z unit
    small_columns small_files small_blocks 4 small_granularity small_input) as (w0 & w1 & w & rows & E0 & E1 & E2 & Hr & H).
  destruct (small_part_sizes w0 w1 w E0 E1 E2) as (Hl & Hread & Eg). specialize (Hr eq_refl). rewrite Eg in Hr. simpl in Hr. subst rows.
  destruct (H 200%nat small_ext small_names [bytes_of "checksums.txt"] (list_to_map (part_files small_ext small_names (part_streams w))) plain_env true)
    as (txt & Ea & Hdom & Ec); [| |done|].
  - split; [|split; [simpl; lia|done]]. intros [|[|j]] sp k Hsp; try done; injection Hsp as <-; apply (bool_decide_unpack _); vm_compute; reflexivity.
  - apply files_directory; [by rewrite Hl|apply (bool_decide_unpack _); vm_compute; reflexivity..].
  - exists (part_streams w1), w, txt. split_and!; [exact Ea|exact Ec| |].
    + unfold small_part. rewrite E0. cbn [rbind]. unfold write_part. rewrite E1. cbn [andthen]. by rewrite E2.
    + repeat (apply Forall_cons_2; [apply Hdom, (bool_decide_unpack _); vm_compute; reflexivity|]). apply Forall_nil_2.
Defined.

(** * What an accepted part has *)

Section CheckSound.
Context (CityHash128 : bytes -> Z * Z) (CityHash128WithSeed : bytes -> Z * Z -> Z * Z) (factory : Z -> result ICompressionCodec).
Context (fresh : nat -> bytes) (clobber : bytes -> bytes) (fuel : nat) (env : ReadEnv).

Abbreviation sum_compressed F := (checksum_compressed_file CityHash128 CityHash128WithSeed factory fresh clobber fuel (open_with F env)).
Abbreviation recomputed := (recompute CityHash128 CityHash128WithSeed factory fresh clobber fuel env).

Lemma check_columns_computed (dir : gmap bytes bytes) (names : list bytes) (data data' : FileChecksums) :
  check_columns CityHash128 CityHash128WithSeed factory fresh clobber fuel dir env names data = Ok data' ->
  forall f c, data' !! f = Some c -> data !! f = Some c \/
    exists F, f ∈ bin_file <$> names /\ dir !! f = Some F /\ sum_compressed F = Ok c.
Proof.
  revert data. induction names as [|name names IH]; intros data; [intros [= <-]; by left|]. cbn [check_columns].
  destruct (dir !! (bin_file name)) as [F|] eqn:EF; [|done]. destruct (sum_compressed F) as [c0|] eqn:Es; [|done]. cbn [rbind].
  intros H f c Hf. rewrite fmap_cons. setoid_rewrite elem_of_cons. destruct (IH _ H f c Hf) as [Hd|(F' & Hin & HF' & Hs)]; [|right; exists F'; auto].
  destruct (decide (f = bin_file name)) as [->|Hne]; [|rewrite lookup_insert_ne in Hd by done; by left].
  rewrite lookup_insert_eq in Hd. injection Hd as <-. right. exists F. auto.
Qed.

Lemma check_others_computed (without : list bytes) (txt : FileChecksums) (files : list (bytes * bytes)) (data data' : FileChecksums) :
  check_others CityHash128 CityHash128WithSeed factory fresh clobber fuel env without txt files data = Ok data' ->
  (forall f c, data' !! f = Some c -> data !! f = Some c \/ exists F, (f, F) ∈ files /\ recomputed (txt !! f) F = Ok c) /\
  (forall f, is_Some (data !! f) \/ f ∈ files.*1 -> isGinFile f = true \/ f ∈ without \/ is_Some (data' !! f)).
Proof.
  revert data. induction files as [|[f0 F0] files IH]; intros data.
  { intros [= <-]. split; [by left|]. intros f [Hf|Hf]; [auto|by apply elem_of_nil in Hf]. }
  cbn [check_others]. rewrite fmap_cons. destruct (isGinFile f0 || has f0 data || bool_decide (f0 ∈ without)) eqn:Eskip.
  - intros H. destruct (IH _ H) as [H1 H2]. split.
    + intros f c Hf. destruct (H1 f c Hf) as [|(F & HF & Hr)]; [by left|right; exists F; split; [by right|done]].
    + intros f [Hf|[->|Hf]%elem_of_cons]; [apply H2; by left| |apply H2; by right]. simpl.
      unfold has in Eskip. rewrite !orb_true_iff, !bool_decide_eq_true in Eskip. destruct Eskip as [[?|?]|?]; [by left|apply H2; by left|by right; left].
  - change (match txt !! f0 with Some _ => _ | None => _ end) with (recomputed (txt !! f0) F0).
    destruct (recomputed (txt !! f0) F0) as [c0|] eqn:Ec; [|done]. cbn [rbind]. intros H. destruct (IH _ H) as [H1 H2]. split.
    + intros f c Hf. destruct (H1 f c Hf) as [Hd|(F & HF & Hr)]; [|right; exists F; split; [by right|done]].
      destruct (decide (f = f0)) as [->|Hne]; [|rewrite lookup_insert_ne in Hd by done; by left].
      rewrite lookup_insert_eq in Hd. injection Hd as <-. right. exists F0. split; [left|done].
    + intros f Hf. apply H2. destruct (decide (f = f0)) as [->|Hne]; [left; rewrite lookup_insert_eq; eauto|]. rewrite lookup_insert_ne by done.
      destruct Hf as [Hf|[->|Hf]%elem_of_cons]; auto. done.
Qed.

(** The files of a part with the checksum [c] for [f]. *)
Definition file_verified (dir : gmap bytes bytes) (names : list bytes) (f : bytes) (c : MergeTreeDataPartChecksum) : Prop :=
  exists F, dir !! f = Some F /\
    if is_compressed c
    then exists c', sum_compressed F = Ok c' /\ uncompressed_size c' = uncompressed_size c /\ uncompressed_hash c' = uncompressed_hash c
    else f ∉ bin_file <$> names -> readable_with F env -> (length F < fuel)%nat ->
      file_size c = uwrap 64 (size_of F) /\ file_hash c = hash_of CityHash128WithSeed (Z.to_nat DBMS_DEFAULT_HASHING_BLOCK_SIZE) F.

Lemma accepted_file (fresh_length : forall n, length (fresh n) = n) dir names f F c c' : dir !! f = Some F -> agrees true c c' ->
  (f ∈ bin_file <$> names /\ sum_compressed F = Ok c') \/ recomputed (Some c) F = Ok c' -> file_verified dir names f c.
Proof.
  intros HF Ha Hr. exists F. split; [done|]. unfold agrees in Ha. rewrite andb_true_r in Ha. unfold recompute in Hr. destruct (is_compressed c).
  - destruct Ha as (_ & H1 & H2). exists c'. destruct Hr as [[_ ?]|?]; by split_and!.
  - intros Hn Hread Hfuel. destruct Hr as [[Hin _]|Hr]; [done|]. rewrite checksum_file_spec in Hr by done. injection Hr as <-. destruct Ha as [<- <-]. done.
Qed.

End CheckSound.


(** A part with a column and a file that is not compressed. *)
Definition tiny_bin : bytes := stream sum_hash CompressionCodecNone [[1; 2; 3]; [4]].
Definition tiny_dir : gmap bytes bytes :=
  list_to_map [(bytes_of "a.bin", tiny_bin); (bytes_of "count.txt", [52]); (bytes_of "checksums.txt", []); (bytes_of "i.gin_sid", [0])].
Definition tiny_sums : FileChecksums :=
  list_to_map [(bytes_of "a.bin", compressed_sum seeded_sum tiny_bin [1; 2; 3; 4]); (bytes_of "count.txt", plain_sum seeded_sum [52])].


(** Damage is found: a changed byte of the data, a changed plain file, a missing file, and
    a file that is not listed. *)
Example damage_is_found :
  let check dir := match checkDataPart sum_hash seeded_sum small_factory zero_memory id 10 dir plain_env [bytes_of "a"] [bytes_of "checksums.txt"] tiny_sums true with
    | Ok _ => None | Throw e => Some e end in
  check tiny_dir = None /\
  check (<[bytes_of "a.bin" := <[25%nat := 9]> tiny_bin]> tiny_dir) = Some CHECKSUM_DOESNT_MATCH /\
  check (<[bytes_of "count.txt" := [53]]> tiny_dir) = Some CHECKSUM_DOESNT_MATCH /\
  check (<[bytes_of "count.txt" := [52; 52]]> tiny_dir) = Some BAD_SIZE_OF_FILE_IN_DATA_PART /\
  check (delete (bytes_of "count.txt") tiny_dir) = Some NO_FILE_IN_DATA_PART /\
  check (<[bytes_of "b.bin" := [1]]> tiny_dir) = Some UNEXPECTED_FILE_IN_DATA_PART.
Proof. vm_compute. repeat split. Qed.
