(* ===== verification/ChecksumsFormat.v ===== *)
(** The formats of checksums (src/Storages/MergeTree/MergeTreeDataPartChecksum.cpp): the
    binary format 3, which format 4 has compressed, is written and read; the text format 2
    is read. *)
From S2P Require Import Prelude IntText BinaryIO ReadBuffer ReadBufferFromFile WriteBuffer IOHelpers Codec.
From S2P Require Import HashingBuffer CompressedWriteBuffer CompressedReadBuffer CompressedFile Elements.
From S2P Require Import CodecLZ4 CodecFactory CompressedStream PartRoundtrip PartChecksums.
Import Binary.

(** * Reading *)

(** [files.emplace], [files.insert]: what is there is kept. *)
Definition emplace (name : bytes) (sum : MergeTreeDataPartChecksum) (files : FileChecksums) : FileChecksums :=
  match files !! name with Some _ => files | None => <[name := sum]> files end.

Section Read.
Context {B : Type} `{Source B}.

(** [readBinaryLittleEndian(uint128 &)] and [readBinaryLittleEndian(bool &)] *)
Definition read_uint128 (b : B) : result ((Z * Z) * B) :=
  let! (low64, b) := src_readPODBinary UInt64 b in
  let! (high64, b) := src_readPODBinary UInt64 b in
  Ok ((low64, high64), b).

Definition read_bool (b : B) : result (bool * B) :=
  let! (x, b) := src_readPODBinary UInt8 b in Ok (negb (x =? 0), b).

(** A file of [readV3] *)
Definition read_entry (b : B) : result ((bytes * MergeTreeDataPartChecksum) * B) :=
  let! (name, b) := src_readStringBinary b in
  let! (size, b) := src_readVarUInt b in
  let! (hash, b) := read_uint128 b in
  let! (compressed, b) := read_bool b in
  if compressed : bool then
    let! (usize, b) := src_readVarUInt b in
    let! (uhash, b) := read_uint128 b in
    Ok ((name, compressed_checksum size hash usize uhash), b)
  else Ok ((name, file_checksum size hash), b).

(** A file of [readV2] *)
Definition read_text_hash (b : B) : result ((Z * Z) * B) :=
  let! (low64, b) := src_readIntText UInt64 b in
  let! (_, b) := src_assertString (bytes_of " ") b in
  let! (high64, b) := src_readIntText UInt64 b in
  Ok ((low64, high64), b).

(** A line after [s], [\n\t] and the title. *)
Definition assert_title (title : string) (b : B) : result (unit * B) := src_assertString ([10; 9] ++ bytes_of title) b.

Definition read_text_entry (b : B) : result ((bytes * MergeTreeDataPartChecksum) * B) :=
  let! (name, b) := src_readString b in
  let! (_, b) := assert_title "size: " b in
  let! (size, b) := src_readIntText UInt64 b in
  let! (_, b) := assert_title "hash: " b in
  let! (hash, b) := read_text_hash b in
  let! (_, b) := assert_title "compressed: " b in
  let! (compressed, b) := src_readBoolText b in
  let! (sum, b) :=
    if compressed : bool then
      let! (_, b) := assert_title "uncompressed size: " b in
      let! (usize, b) := src_readIntText UInt64 b in
      let! (_, b) := assert_title "uncompressed hash: " b in
      let! (uhash, b) := read_text_hash b in
      Ok (compressed_checksum size hash usize uhash, b)
    else Ok (file_checksum size hash, b) in
  let! (_, b) := src_assertChar 10 b in
  Ok ((name, sum), b).

(** The loops of [readV2] and [readV3]; a file takes a byte at least. *)
Fixpoint read_entries (entry : B -> result ((bytes * MergeTreeDataPartChecksum) * B)) (fuel : nat) (count : Z) (files : FileChecksums) (b : B)
  : result (FileChecksums * B) :=
  if count <=? 0 then Ok (files, b)
  else match fuel with
  | O => Throw OUT_OF_FUEL
  | S fuel =>
      let! (e, b) := entry b in
      read_entries entry fuel (count - 1) (emplace e.1 e.2 files) b
  end.

Definition readV2 (fuel : nat) (files : FileChecksums) (b : B) : result (FileChecksums * B) :=
  let! (count, b) := src_readIntText UInt64 b in
  let! (_, b) := src_assertString (bytes_of " files:" ++ [10]) b in
  read_entries read_text_entry fuel count files b.

Definition readV3 (fuel : nat) (files : FileChecksums) (b : B) : result (FileChecksums * B) :=
  let! (count, b) := src_readVarUInt b in
  read_entries read_entry fuel count files b.

End Read.

Definition format_title : bytes := bytes_of "checksums format version: ".

Section ReadBuffers.
Context (CityHash128 : bytes -> Z * Z) (factory : Z -> result ICompressionCodec) (fresh : nat -> bytes) (clobber : bytes -> bytes) (fuel : nat).
Context {S : Type} (I : ReadImpl S).
#[local] Existing Instance buffer_source.
#[local] Instance from_source : Source (ReadBuffer S) := buffer_source I fuel.
#[local] Instance in_source : Source (ReadBuffer (CompressedReadBufferBase (S := S))) :=
  buffer_source (FromCompressed CityHash128 factory fresh I clobber) fuel.

(** [readV4]: [from] is where the compressed buffer left it. *)
Definition readV4 (files : FileChecksums) (from : ReadBuffer S) : result (FileChecksums * ReadBuffer S) :=
  let! (files, b) := readV3 fuel files (cr_create from false false) in
  Ok (files, compressed_in (impl b)).

(** [read(in, format_version)] *)
Definition read_format (format_version : Z) (files : FileChecksums) (b : ReadBuffer S) : result ((bool * FileChecksums) * ReadBuffer S) :=
  if format_version =? 1 then Ok ((false, files), b)
  else
    let! (files, b) :=
      if format_version =? 2 then readV2 fuel files b
      else if format_version =? 3 then readV3 fuel files b
      else if format_version =? 4 then readV4 files b
      else Throw UNKNOWN_FORMAT in
    Ok ((true, files), b).

(** [read(in)] *)
Definition read_checksums (b : ReadBuffer S) : result ((bool * FileChecksums) * ReadBuffer S) :=
  let! (_, b) := src_assertString format_title b in
  let! (format_version, b) := src_readIntText UInt64 b in
  let! (_, b) := src_assertChar 10 b in
  let! (r, b) := read_format format_version ∅ b in
  Ok ((true, r.2), b).

(** [assertEOF] *)
Definition assertEOF (b : ReadBuffer S) : result (ReadBuffer S) :=
  let! (e, b) := eof I b in if e : bool then Ok b else Throw CANNOT_PARSE_INPUT_ASSERTION_FAILED.

End ReadBuffers.

(** * Writing *)

Section Write.
Context (CityHash128 : bytes -> Z * Z) {S : Type} (W : WriteImpl S).

(** [writeBinaryLittleEndian(uint128)] *)
Definition write_uint128 {T} (O : WriteImpl T) (x : Z * Z) (b : WriteBuffer T) : outcome (WriteBuffer T) :=
  wb_writePODBinary O UInt64 x.1 b >> wb_writePODBinary O UInt64 x.2.

Definition write_entry {T} (O : WriteImpl T) (p : bytes * MergeTreeDataPartChecksum) (b : WriteBuffer T) : outcome (WriteBuffer T) :=
  let '(name, sum) := p in
  wb_writeStringBinary O name b >>
  wb_writeVarUInt O (file_size sum) >>
  write_uint128 O (file_hash sum) >>
  wb_writePODBinary O UInt8 (Z.b2z (is_compressed sum)) >> fun b =>
  if is_compressed sum then wb_writeVarUInt O (uncompressed_size sum) b >> write_uint128 O (uncompressed_hash sum) else (Ok tt, b).

Fixpoint write_entries {T} (O : WriteImpl T) (ps : list (bytes * MergeTreeDataPartChecksum)) (b : WriteBuffer T) : outcome (WriteBuffer T) :=
  match ps with
  | [] => (Ok tt, b)
  | p :: ps => write_entry O p b >> write_entries O ps
  end.

Definition DBMS_DEFAULT_INITIAL_ADAPTIVE_BUFFER_SIZE : Z := 16384.

(** [write]; [default_codec] is that of the factory. *)
Definition write_checksums (default_codec : ICompressionCodec) (files : FileChecksums) (to : WriteBuffer S) : outcome (WriteBuffer S) :=
  write W (format_title ++ bytes_of "4" ++ [10]) to >> fun to =>
  let O := ToCompressed CityHash128 W in
  let '(r, out_buf) :=
    wb_writeVarUInt O (Z.of_nat (size files)) (cw_create to default_codec (Z.shiftl 1 16) false DBMS_DEFAULT_INITIAL_ADAPTIVE_BUFFER_SIZE) >>
    write_entries O (in_order files) >>
    finalize O (cw_finalizeImpl CityHash128 W) in
  (r, out (w_impl out_buf)).

End Write.

(** A new [checksums.txt], closed in the end. *)
Definition store_checksums (CityHash128 : bytes -> Z * Z) (default_codec : ICompressionCodec) (files : FileChecksums) (w : FileWriteBuffer)
  : outcome FileWriteBuffer :=
  write_checksums CityHash128 ToFileDescriptor default_codec files w >> finalize ToFileDescriptor fd_finalizeImpl.

(** [read], and then [assertEOF], as checkDataPart.cpp does. *)
Definition load_checksums (CityHash128 : bytes -> Z * Z) (factory : Z -> result ICompressionCodec) (fresh : nat -> bytes) (clobber : bytes -> bytes)
    (fuel : nat) {S} (I : ReadImpl S) (buf : ReadBuffer S) : result FileChecksums :=
  let! (r, buf) := read_checksums CityHash128 factory fresh clobber fuel I buf in
  let! _ := assertEOF I buf in
  Ok r.2.

(** * Proofs *)

(** ** On buffers as on bytes *)

Section Simulated.
Context {S : Type} (src : Source (ReadBuffer S)) (inv : ReadBuffer S -> bytes -> Prop) `{!SimulatedSource src inv}.
Implicit Types b : ReadBuffer S.

Lemma read_uint128_sim b data : inv b data -> simulates inv (read_uint128 b) (read_uint128 data).
Proof.
  intros H. unfold read_uint128. sim_step (sim_readPODBinary UInt64 b data H).
  sim_step (sim_readPODBinary UInt64 _ _ Hinv). by apply simulates_ok.
Qed.

Lemma read_entry_sim b data : inv b data -> simulates inv (read_entry b) (read_entry data).
Proof.
  intros H. unfold read_entry, read_bool. sim_step (sim_readStringBinary b data H). sim_step (sim_readVarUInt _ _ Hinv).
  sim_step (read_uint128_sim _ _ Hinv0). sim_step (sim_readPODBinary UInt8 _ _ Hinv1). destruct (negb _); [|by apply simulates_ok].
  sim_step (sim_readVarUInt _ _ Hinv2). sim_step (read_uint128_sim _ _ Hinv3). by apply simulates_ok.
Qed.

Lemma read_entries_sim entry entry' fuel count files b data :
  (forall b data, inv b data -> simulates inv (entry b) (entry' data)) -> inv b data ->
  simulates inv (read_entries entry fuel count files b) (read_entries entry' fuel count files data).
Proof.
  intros He. revert count files b data. induction fuel as [|fuel IH]; intros count files b data H; cbn [read_entries];
    (destruct (count <=? 0); [by apply simulates_ok|]); [done|].
  sim_step (He b data H). by apply IH.
Qed.

Lemma readV3_sim fuel files b data : inv b data -> simulates inv (readV3 fuel files b) (readV3 fuel files data).
Proof. intros H. unfold readV3. sim_step (sim_readVarUInt b data H). apply read_entries_sim; [apply read_entry_sim|done]. Qed.

End Simulated.

(** ** The binary format *)

Definition hash_bytes (x : Z * Z) : bytes := writePODBinary UInt64 x.1 ++ writePODBinary UInt64 x.2.

Definition entry_bytes (p : bytes * MergeTreeDataPartChecksum) : bytes :=
  writeStringBinary p.1 ++ VarInt.writeVarUInt (file_size p.2) ++ hash_bytes (file_hash p.2) ++
  writePODBinary UInt8 (Z.b2z (is_compressed p.2)) ++
  if is_compressed p.2 then VarInt.writeVarUInt (uncompressed_size p.2) ++ hash_bytes (uncompressed_hash p.2) else [].

Definition files_bytes (ps : list (bytes * MergeTreeDataPartChecksum)) : bytes :=
  VarInt.writeVarUInt (Z.of_nat (length ps)) ++ mjoin (entry_bytes <$> ps).

(** What has its own bytes: 64 bits, and nothing of the uncompressed data when the file is
    not compressed. *)
Definition is_uint64 (x : Z) : Prop := 0 <= x < 2 ^ 64.
Definition is_uint128 (x : Z * Z) : Prop := is_uint64 x.1 /\ is_uint64 x.2.

Definition storable_checksum (sum : MergeTreeDataPartChecksum) : Prop :=
  is_uint64 (file_size sum) /\ is_uint128 (file_hash sum) /\ is_uint64 (uncompressed_size sum) /\ is_uint128 (uncompressed_hash sum) /\
  (is_compressed sum = false -> uncompressed_size sum = 0 /\ uncompressed_hash sum = (0, 0)).

Definition storable_entry (p : bytes * MergeTreeDataPartChecksum) : Prop :=
  is_bytes p.1 /\ size_of p.1 <= DEFAULT_MAX_STRING_SIZE /\ storable_checksum p.2.

Lemma fits_uint64 x : is_uint64 x -> fits UInt64 x = true.
Proof. intros H. apply fits_spec. unfold is_uint64, int_min, int_max in *. simpl. lia. Qed.

Lemma read_hash_bytes x rest : is_uint128 x -> read_uint128 (hash_bytes x ++ rest) = Ok (x, rest).
Proof.
  intros [H1 H2]. unfold read_uint128, hash_bytes. cbn [src_readPODBinary bytes_source]. rewrite <- app_assoc.
  rewrite readPOD_writePOD by (done || by apply fits_uint64). cbn [rbind].
  rewrite readPOD_writePOD by (done || by apply fits_uint64). by destruct x.
Qed.


Lemma read_entry_bytes p rest : storable_entry p -> read_entry (entry_bytes p ++ rest) = Ok (p, rest).
Proof.
  destruct p as [name sum]. intros (Hn & Hl & Hs & Hh & Hu & Huh & Hc). simpl in *. unfold read_entry, entry_bytes, read_bool.
  cbn [src_readStringBinary src_readVarUInt src_readPODBinary bytes_source fst snd]. rewrite <- !app_assoc.
  rewrite readString_writeString by done. cbn [rbind]. rewrite VarInt.read_write_VarUInt by done. cbn [rbind].
  rewrite read_hash_bytes by done. cbn [rbind]. rewrite readPOD_writePOD by (done || by destruct (is_compressed sum)). cbn [rbind].
  destruct sum as [size hash [|] usize uhash]; simpl in *.
  - rewrite <- app_assoc, VarInt.read_write_VarUInt by done. cbn [rbind]. by rewrite read_hash_bytes.
  - by destruct (Hc eq_refl) as [-> ->].
Qed.

Lemma read_entries_bytes ps fuel files rest :
  Forall storable_entry ps -> NoDup ps.*1 -> (forall name, name ∈ ps.*1 -> files !! name = None) -> (length ps <= fuel)%nat ->
  read_entries read_entry fuel (Z.of_nat (length ps)) files (mjoin (entry_bytes <$> ps) ++ rest) = Ok (list_to_map ps ∪ files, rest).
Proof.
  intros Hp. revert fuel files. induction Hp as [|p ps Hp _ IH]; intros fuel files Hnd Hf Hl.
  { assert (E : list_to_map [] ∪ files = files) by apply (left_id_L ∅ _). destruct fuel; simpl in *; by rewrite E. }
  destruct fuel as [|fuel]; simpl in *; [lia|]. rewrite <- app_assoc, read_entry_bytes by done. cbn [rbind].
  apply NoDup_cons in Hnd as [Hnin Hnd]. replace (Z.of_nat (S (length ps)) - 1) with (Z.of_nat (length ps)) by lia.
  assert (E : emplace p.1 p.2 files = <[p.1 := p.2]> files) by (unfold emplace; rewrite Hf; [done|set_solver]).
  rewrite E, IH by (done || lia || (intros name Hin; rewrite lookup_insert_ne by set_solver; set_solver)).
  do 2 f_equal. destruct p as [name sum]. simpl. rewrite <- insert_union_r; [by rewrite insert_union_l|].
  by apply not_elem_of_list_to_map_1.
Qed.

Lemma in_order_map {A} (files : gmap bytes A) : list_to_map (in_order files) = files.
Proof.
  rewrite <- (list_to_map_to_list files) at 2. apply list_to_map_proper; [|apply merge_sort_Permutation].
  unfold in_order. rewrite merge_sort_Permutation. apply NoDup_fst_map_to_list.
Qed.

Lemma in_order_length {A} (files : gmap bytes A) : length (in_order files) = size files.
Proof. unfold in_order. rewrite merge_sort_Permutation. apply length_map_to_list. Qed.

Lemma readV3_bytes files fuel : map_Forall (fun name sum => storable_entry (name, sum)) files -> (size files <= fuel)%nat -> Z.of_nat (size files) < 2 ^ 64 ->
  readV3 fuel ∅ (files_bytes (in_order files)) = Ok (files, []).
Proof.
  intros Hf Hl Hs. unfold readV3, files_bytes. cbn [src_readVarUInt bytes_source]. rewrite in_order_length, VarInt.read_write_VarUInt by lia. cbn [rbind].
  rewrite <- (app_nil_r (mjoin _)), <- (in_order_length files), read_entries_bytes.
  - by rewrite in_order_map, (right_id_L ∅ (∪)).
  - apply Forall_forall. intros [name sum] Hin%in_order_elem. by apply Hf.
  - unfold in_order. rewrite merge_sort_Permutation. apply NoDup_fst_map_to_list.
  - done.
  - by rewrite in_order_length.
Qed.

(** ** Writing *)

Section Writing.
Context {S : Type} (W : WriteImpl S) (inv : WriteBuffer S -> bytes -> Prop) `{!AppenderSpec W inv}.
Implicit Types b : WriteBuffer S.

Lemma write_uint128_spec x b data : inv b data -> exists b', write_uint128 W x b = (Ok tt, b') /\ inv b' (data ++ hash_bytes x).
Proof.
  intros H. unfold write_uint128, hash_bytes. destruct (wb_writePODBinary_spec W inv UInt64 x.1 b data H) as (b1 & -> & H1). cbn [andthen].
  destruct (wb_writePODBinary_spec W inv UInt64 x.2 b1 _ H1) as (b2 & -> & H2). exists b2. by rewrite <- app_assoc in H2.
Qed.

Lemma write_entry_spec p b data : storable_entry p -> inv b data ->
  exists b', write_entry W p b = (Ok tt, b') /\ inv b' (data ++ entry_bytes p).
Proof.
  destruct p as [name sum]. intros (Hn & Hl & Hs & Hh & Hu & Huh & Hc) H. unfold write_entry, entry_bytes, DEFAULT_MAX_STRING_SIZE in *. cbn [fst snd] in *.
  destruct (wb_writeStringBinary_spec W inv name b data H Hn ltac:(lia)) as (b1 & -> & H1). cbn [andthen].
  destruct (wb_writeVarUInt_spec W inv (file_size sum) b1 _ H1 Hs) as (b2 & -> & H2). cbn [andthen].
  destruct (write_uint128_spec (file_hash sum) b2 _ H2) as (b3 & -> & H3). cbn [andthen].
  destruct (wb_writePODBinary_spec W inv UInt8 (Z.b2z (is_compressed sum)) b3 _ H3) as (b4 & -> & H4). cbn [andthen].
  destruct (is_compressed sum); [|exists b4; by rewrite <- !app_assoc in H4; rewrite app_nil_r].
  destruct (wb_writeVarUInt_spec W inv (uncompressed_size sum) b4 _ H4 Hu) as (b5 & -> & H5). cbn [andthen].
  destruct (write_uint128_spec (uncompressed_hash sum) b5 _ H5) as (b6 & -> & H6). exists b6. by rewrite <- !app_assoc in H6.
Qed.

Lemma write_entries_spec ps b data : Forall storable_entry ps -> inv b data ->
  exists b', write_entries W ps b = (Ok tt, b') /\ inv b' (data ++ mjoin (entry_bytes <$> ps)).
Proof.
  intros Hp. revert b data. induction Hp as [|p ps Hp _ IH]; intros b data H; [exists b; by rewrite app_nil_r|]. cbn [write_entries].
  destruct (write_entry_spec p b data Hp H) as (b1 & -> & H1). cbn [andthen]. destruct (IH b1 _ H1) as (b2 & -> & H2).
  exists b2. by rewrite <- app_assoc in H2.
Qed.

End Writing.

Section Files.
Context (CityHash128 : bytes -> Z * Z) (c dec : ICompressionCodec) (factory : Z -> result ICompressionCodec) (limit : Z).
Context (Hc : Storable factory c dec limit) (Hlimit : 2 ^ 16 <= limit < 2 ^ 30).
Context (files : FileChecksums) (Hfiles : map_Forall (fun name sum => storable_entry (name, sum)) files) (Hsize : Z.of_nat (size files) < 2 ^ 64).

Definition title_bytes : bytes := format_title ++ bytes_of "4" ++ [10].

Lemma write_checksums_spec {S} (W : WriteImpl S) (inv : WriteBuffer S -> bytes -> Prop) `{!WriterSpec W inv} to : inv to [] ->
  exists to' blocks, write_checksums CityHash128 W c files to = (Ok tt, to') /\ files_bytes (in_order files) = mjoin blocks /\
    Forall (is_block limit) blocks /\ inv to' (title_bytes ++ stream CityHash128 c blocks).
Proof.
  intros H. unfold write_checksums. fold title_bytes.
  destruct (write_spec W inv title_bytes to [] H) as (to1 & -> & H1); [by apply (bool_decide_unpack _)|]. cbn [andthen app] in *.
  set (O := ToCompressed CityHash128 W). set (cinv := cw_inv CityHash128 inv c limit title_bytes).
  pose proof (storable_fits _ _ _ _ Hc) as Hf. assert (Hspec : WriterSpec O cinv) by (apply compressed_writer; [done|done|lia]).
  assert (H2 : cinv (cw_create to1 c (Z.shiftl 1 16) false DBMS_DEFAULT_INITIAL_ADAPTIVE_BUFFER_SIZE) []).
  { exists []. assert (Z.shiftl 1 16 = 2 ^ 16) by done. unfold DBMS_DEFAULT_INITIAL_ADAPTIVE_BUFFER_SIZE. apply cw_create_at; done || lia. }
  destruct (wb_writeVarUInt_spec O cinv (Z.of_nat (size files)) _ _ H2 (conj (Nat2Z.is_nonneg _) Hsize)) as (b1 & -> & H3). cbn [andthen app] in *.
  assert (Hall : Forall storable_entry (in_order files)) by (apply Forall_forall; intros [name sum] Hin%in_order_elem; by apply Hfiles).
  destruct (write_entries_spec O cinv (in_order files) b1 _ Hall H3) as (b2 & -> & H4).
  cbn [andthen]. destruct (cw_finalize_spec CityHash128 W inv c limit ltac:(lia) title_bytes b2 _ H4) as (b3 & blocks & Efin & Ed & Hbl & Ho & _).
  fold O in Efin. rewrite Efin. exists (out (w_impl b3)), blocks. split_and!; try done. unfold files_bytes. by rewrite in_order_length.
Qed.

Context (fresh : nat -> bytes) (fresh_length : forall n, length (fresh n) = n).
Context (clobber : bytes -> bytes) (clobber_length : forall bs, length (clobber bs) = length bs).
Context {S : Type} (I : ReadImpl S) (iinv : ReadBuffer S -> bytes -> Prop) `{!ReaderSpec I iinv} `{!WholePieces I iinv}.
Context (fuel : nat).

(** All blocks are read from the buffer below, and nothing else. *)
Lemma readV4_spec blocks from :
  files_bytes (in_order files) = mjoin blocks -> Forall (is_block limit) blocks -> iinv from (stream CityHash128 c blocks) ->
  (length (mjoin blocks) < fuel)%nat -> (size files <= fuel)%nat ->
  exists from', readV4 CityHash128 factory fresh clobber fuel I ∅ from = Ok (files, from') /\ iinv from' [].
Proof.
  intros Ed Hb Hi Hl Hs. unfold readV4. set (C := FromCompressed CityHash128 factory fresh I clobber).
  set (inv := bounded fuel (cr_inv CityHash128 factory iinv)).
  assert (Hspec : ReaderSpec C (cr_inv CityHash128 factory iinv)) by (by apply compressed_reader).
  assert (H : inv (cr_create from false false) (files_bytes (in_order files))).
  { rewrite Ed. split; [|done]. by apply (cr_create_inv _ _ iinv c dec limit); try done; lia. }
  assert (Hsrc : SimulatedSource (in_source CityHash128 factory fresh clobber fuel I) inv) by (by apply (buffer_simulated C)).
  pose proof (readV3_sim (in_source CityHash128 factory fresh clobber fuel I) inv fuel ∅ _ _ H) as Hsim. rewrite readV3_bytes in Hsim by done.
  destruct Hsim as (b & -> & Hb' & _). cbn [rbind]. eexists. split; [done|]. by eapply cr_inv_end.
Qed.

Lemma load_checksums_spec blocks buf :
  files_bytes (in_order files) = mjoin blocks -> Forall (is_block limit) blocks -> iinv buf (title_bytes ++ stream CityHash128 c blocks) ->
  (length (mjoin blocks) < fuel)%nat -> (size files <= fuel)%nat -> (length (title_bytes ++ stream CityHash128 c blocks) < fuel)%nat ->
  load_checksums CityHash128 factory fresh clobber fuel I buf = Ok files.
Proof.
  intros Ed Hb Hi Hl Hs Hf. unfold load_checksums, read_checksums. set (rest := stream CityHash128 c blocks) in *.
  assert (Et : title_bytes ++ rest = format_title ++ bytes_of "4" ++ [10] ++ rest) by (unfold title_bytes; by rewrite <- !app_assoc).
  rewrite Et in *. assert (H : bounded fuel iinv buf (format_title ++ bytes_of "4" ++ [10] ++ rest)) by done.
  assert (Hsrc : SimulatedSource (from_source fuel I) (bounded fuel iinv)) by (by apply (buffer_simulated I)).
  pose proof (sim_assertString (SimulatedSource := Hsrc) format_title _ _ H) as H1. cbn [src_assertString bytes_source] in H1. rewrite assertString_app in H1.
  destruct H1 as (b1 & -> & H1). cbn [rbind]. pose proof (sim_readIntText (SimulatedSource := Hsrc) UInt64 _ _ H1) as H2. cbn [src_readIntText bytes_source] in H2.
  change (bytes_of "4") with (Decimal.decimal 4) in H2. rewrite readIntText_decimal in H2 by done. destruct H2 as (b2 & -> & H2). cbn [rbind].
  pose proof (sim_assertChar (SimulatedSource := Hsrc) 10 _ _ H2) as H3. cbn [src_assertChar bytes_source app] in H3. rewrite assertChar_app in H3.
  destruct H3 as (b3 & -> & H3 & _). cbn [rbind]. unfold read_format.
  destruct (readV4_spec blocks b3 Ed Hb H3 Hl Hs) as (b4 & E4 & H4). change (uwrap 64 4) with 4. cbn [Z.eqb Pos.eqb]. rewrite E4. cbn [rbind].
  unfold assertEOF. destruct (eof_spec I iinv b4 [] H4) as (b5 & -> & _). done.
Qed.

End Files.

Lemma entry_bytes_length ps : (length ps <= length (mjoin (entry_bytes <$> ps)))%nat.
Proof.
  induction ps as [|p ps IH]; [done|]. change (mjoin (entry_bytes <$> p :: ps)) with (entry_bytes p ++ mjoin (entry_bytes <$> ps)).
  rewrite length_app. unfold entry_bytes at 1. rewrite !length_app. unfold hash_bytes. rewrite !length_app. unfold writePODBinary.
  rewrite !length_le_bytes. simpl. lia.
Qed.

(** * Theorem *)

(** C21: the checksums of a part are read back from [checksums.txt] as they were written,
    in the compressed format, whatever the buffers and the system calls: the reader finds
    the version, the files with their checksums, and then the end of the file. *)
Theorem checksums_roundtrip (CityHash128 : bytes -> Z * Z) (factory : Z -> result ICompressionCodec) (fresh : nat -> bytes) (clobber : bytes -> bytes)
    (c dec : ICompressionCodec) (limit file_buf : Z) (file_adaptive : bool) (file_max : Z) (writes : list Syscall) (files : FileChecksums) :
  (forall n, length (fresh n) = n) -> (forall bs, length (clobber bs) = length bs) ->
  Storable factory c dec limit -> 2 ^ 16 <= limit < 2 ^ 30 ->
  0 < file_buf < 2 ^ 62 -> file_max < 2 ^ 62 -> valid_calls writes -> Failed ∉ writes ->
  map_Forall (fun name sum => storable_entry (name, sum)) files -> Z.of_nat (size files) < 2 ^ 64 ->
  exists w, store_checksums CityHash128 c files (create_file file_buf file_adaptive file_max writes) = (Ok tt, w) /\
    forall fuel read_buf alignment pread reads,
      let F := file (w_fd (w_impl w)) in
      (length F < fuel)%nat -> (length (files_bytes (in_order files)) < fuel)%nat ->
      size_of F < 2 ^ 63 -> 0 < read_buf < 2 ^ 63 -> 0 <= alignment -> valid_calls reads -> Failed ∉ reads ->
      load_checksums CityHash128 factory fresh clobber fuel FromFileDescriptor (open_file F read_buf alignment pread None reads) = Ok files.
Proof.
  intros Hfresh Hclob Hc Hl Hfb Hfm Hv Hf Hfiles Hs. unfold store_checksums.
  destruct (write_checksums_spec CityHash128 c dec factory limit Hc Hl files Hfiles Hs ToFileDescriptor fdw_inv _ (create_file_inv file_buf file_adaptive file_max writes Hfb Hfm Hv Hf))
    as (w1 & blocks & -> & Ed & Hbl & H1). cbn [andthen]. destruct (fd_finalize_spec _ _ H1) as (w & E & HF). exists w. split; [done|].
  intros fuel read_buf alignment pread reads Hfuel Hfuel2 HF2 Hrb Ha Hr Hrf. rewrite HF in *.
  eapply (load_checksums_spec CityHash128 c dec factory limit Hc Hl files Hfiles Hs fresh Hfresh clobber Hclob FromFileDescriptor (fd_inv _)); try done.
  - by apply open_file_inv.
  - by rewrite <- Ed.
  - pose proof (entry_bytes_length (in_order files)) as He. unfold files_bytes in Hfuel2. rewrite length_app in Hfuel2. rewrite in_order_length in He. lia.
Qed.

(** Two files, one of them compressed. *)
Definition two_files : FileChecksums :=
  <[bytes_of "a.bin" := compressed_checksum 40 (1, 2 ^ 63) 300 (3, 4)]> {[bytes_of "a.cmrk2" := file_checksum 24 (7, 8)]}.

Lemma lz4_storable : Storable small_factory (CompressionCodecLZ4 literal_library plain_surroundings)
  (CompressionCodecLZ4 literal_library plain_surroundings) (2 ^ 20).
Proof.
  apply lossless_storable; try done; [apply (lossless_LZ4 literal_library plain_surroundings)|by apply (fits_LZ4 literal_library plain_surroundings)].
Qed.

Lemma checksums_roundtrip_witness :
  exists w, store_checksums sum_hash (CompressionCodecLZ4 literal_library plain_surroundings) two_files
      (create_file 10 false 10 [Transfer 3; Interrupted]) = (Ok tt, w) /\
    load_checksums sum_hash small_factory zero_memory id 200 FromFileDescriptor
      (open_file (file (w_fd (w_impl w))) 7 0 true None [Interrupted; Transfer 2]) = Ok two_files.
Proof.
  destruct (checksums_roundtrip sum_hash small_factory zero_memory id (CompressionCodecLZ4 literal_library plain_surroundings)
    (CompressionCodecLZ4 literal_library plain_surroundings) (2 ^ 20) 10 false 10 [Transfer 3; Interrupted] two_files) as (w & E & H);
    [intros; apply length_replicate|done|apply lz4_storable|done|done|done|by repeat (apply Forall_cons_2; [done|])
    |by apply (bool_decide_unpack _)| |done|].
  { repeat (apply map_Forall_insert_2; [split; [by apply (bool_decide_unpack _)|by split_and!]|]). apply map_Forall_empty. }
  exists w. split; [exact E|]. assert (Hl : length (file (w_fd (w_impl w))) = 124%nat).
  { apply (f_equal snd) in E. cbn [snd] in E. rewrite <- E. vm_compute. reflexivity. }
  assert (Hd : length (files_bytes (in_order two_files)) = 69%nat) by (vm_compute; reflexivity).
  apply (H 200%nat 7 0 true [Interrupted; Transfer 2]); rewrite ?Hl, ?Hd; clear;
    [lia|lia|done|done|done|by repeat (apply Forall_cons_2; [done|])|by apply (bool_decide_unpack _)].
Defined.
