(* ===== verification/RWLock.v ===== *)
(** The phase-fair readers-writer lock (src/Common/RWLock.{h,cpp}): its internal
    state, the critical sections of its methods, and the system of the threads
    that use it as a step relation. *)
From S2P Require Import Prelude.
From stdpp Require Import gmap strings.
Open Scope Z_scope.

(** * The lock *)

(** [RWLockImpl::Type] *)
Inductive LockType := Read | Write.

#[global] Instance LockType_eq_dec : EqDecision LockType.
Proof. solve_decision. Defined.

(** [RWLockImpl::Group]; the node of the list it lives in is its identity, as
    iterators of a list stay valid. *)
Record Group := {
  gid : nat;
  gtype : LockType;
  requests : nat;
  ownership : bool }.

(** [RWLockImpl]; [None] for an iterator that is [end()].  [fresh_gid] names the
    next node of a list. *)
Record RWLockImpl := {
  readers_queue : list Group;
  writers_queue : list Group;
  rdlock_owner : option nat;
  wrlock_owner : option nat;
  owner_queries : gmap string nat;
  fresh_gid : nat }.

Definition create : RWLockImpl := {|
  readers_queue := []; writers_queue := []; rdlock_owner := None; wrlock_owner := None;
  owner_queries := ∅; fresh_gid := 0 |}.

Definition NO_QUERY : string := "".

(** ** Lists of groups *)

Definition with_requests (f : nat -> nat) (g : Group) : Group :=
  {| gid := gid g; gtype := gtype g; requests := f (requests g); ownership := ownership g |}.

Definition with_ownership (g : Group) : Group :=
  {| gid := gid g; gtype := gtype g; requests := requests g; ownership := true |}.

(** The change of one node. *)
Definition update (it : nat) (f : Group -> Group) (q : list Group) : list Group :=
  map (fun g => if (gid g =? it)%nat then f g else g) q.

Definition erase (it : nat) (q : list Group) : list Group :=
  filter (fun g => gid g <> it) q.

Fixpoint find_group (it : nat) (q : list Group) : option Group :=
  match q with
  | [] => None
  | g :: q => if (gid g =? it)%nat then Some g else find_group it q
  end.

(** [begin()], and [next] and [prev] of a node. *)
Definition begin_of (q : list Group) : option nat := gid <$> head q.

Fixpoint next_of (it : nat) (q : list Group) : option nat :=
  match q with
  | [] => None
  | g :: q => if (gid g =? it)%nat then begin_of q else next_of it q
  end.

Fixpoint prev_of (it : nat) (q : list Group) : option nat :=
  match q with
  | g :: ((g' :: _) as q) => if (gid g' =? it)%nat then Some (gid g) else prev_of it q
  | _ => None
  end.

(** ** Changes of the state *)

Definition set_readers (q : list Group) (l : RWLockImpl) : RWLockImpl := {|
  readers_queue := q; writers_queue := writers_queue l; rdlock_owner := rdlock_owner l;
  wrlock_owner := wrlock_owner l; owner_queries := owner_queries l; fresh_gid := fresh_gid l |}.

Definition set_writers (q : list Group) (l : RWLockImpl) : RWLockImpl := {|
  readers_queue := readers_queue l; writers_queue := q; rdlock_owner := rdlock_owner l;
  wrlock_owner := wrlock_owner l; owner_queries := owner_queries l; fresh_gid := fresh_gid l |}.

Definition set_owners (rd wr : option nat) (l : RWLockImpl) : RWLockImpl := {|
  readers_queue := readers_queue l; writers_queue := writers_queue l; rdlock_owner := rd;
  wrlock_owner := wr; owner_queries := owner_queries l; fresh_gid := fresh_gid l |}.

Definition set_queries (qs : gmap string nat) (l : RWLockImpl) : RWLockImpl := {|
  readers_queue := readers_queue l; writers_queue := writers_queue l; rdlock_owner := rdlock_owner l;
  wrlock_owner := wrlock_owner l; owner_queries := qs; fresh_gid := fresh_gid l |}.

Definition update_group (it : nat) (f : Group -> Group) (l : RWLockImpl) : RWLockImpl :=
  set_writers (update it f (writers_queue l)) (set_readers (update it f (readers_queue l)) l).

Definition group_of (it : nat) (l : RWLockImpl) : option Group :=
  match find_group it (readers_queue l) with Some g => Some g | None => find_group it (writers_queue l) end.

Definition queue_of (type : LockType) (l : RWLockImpl) : list Group :=
  match type with Read => readers_queue l | Write => writers_queue l end.

Definition erase_group (type : LockType) (it : nat) (l : RWLockImpl) : RWLockImpl :=
  match type with
  | Read => set_readers (erase it (readers_queue l)) l
  | Write => set_writers (erase it (writers_queue l)) l
  end.

Definition owns (it : nat) (l : RWLockImpl) : bool :=
  match group_of it l with Some g => ownership g | None => false end.

Definition requests_of (it : nat) (l : RWLockImpl) : nat :=
  match group_of it l with Some g => requests g | None => 0 end.

(** ** Passing ownership *)

(** [cv.notify_all] goes with the change of the flag, and is not modelled apart from it:
    the flag is the predicate of the wait, and enables the step in which a waiting thread
    goes on. *)
Definition grantOwnership (it : nat) (l : RWLockImpl) : RWLockImpl := update_group it with_ownership l.

(** The loop of [grantOwnershipToAllReaders]; it ends at the last group, so as
    many iterations as there are groups are enough. *)
Fixpoint grant_loop (fuel : nat) (it : nat) (l : RWLockImpl) : RWLockImpl :=
  match fuel with
  | O => l
  | S fuel =>
      let l := grantOwnership it l in
      match next_of it (readers_queue l) with
      | None => l
      | Some next => grant_loop fuel next (set_owners (Some next) (wrlock_owner l) l)
      end
  end.

Definition grantOwnershipToAllReaders (l : RWLockImpl) : RWLockImpl :=
  match rdlock_owner l with
  | None => l
  | Some it => grant_loop (length (readers_queue l)) it l
  end.

Definition dropOwnerGroupAndPassOwnership (it : nat) (type : LockType) (l : RWLockImpl) : RWLockImpl :=
  if bool_decide (type = Read) && negb (bool_decide (rdlock_owner l = begin_of (readers_queue l)))
     && negb (bool_decide (rdlock_owner l = None)) then
    let rd := if bool_decide (rdlock_owner l = Some it) then prev_of it (readers_queue l) else rdlock_owner l in
    let l := erase_group Read it (set_owners rd (wrlock_owner l) l) in
    if (length (writers_queue l) =? 0)%nat then grantOwnershipToAllReaders l else l
  else
    let l := erase_group type it (set_owners None None l) in
    let l :=
      match type with
      | Read =>
          match begin_of (writers_queue l) with
          | Some w => set_owners None (Some w) l
          | None => set_owners (begin_of (readers_queue l)) None l
          end
      | Write =>
          match begin_of (readers_queue l) with
          | Some r => set_owners (Some r) None l
          | None => set_owners None (begin_of (writers_queue l)) l
          end
      end in
    match rdlock_owner l, wrlock_owner l with
    | Some _, _ => grantOwnershipToAllReaders l
    | None, Some w => grantOwnership w l
    | None, None => l
    end.

(** ** Locking *)

Definition bindWith (it : nat) (l : RWLockImpl) : RWLockImpl := update_group it (with_requests S) l.

(** From the end of the wait on: the query is listed and the holder is bound. *)
Definition own_query (query_id : string) (l : RWLockImpl) : RWLockImpl :=
  if bool_decide (query_id = NO_QUERY) then l
  else set_queries (<[ query_id := S (default 0%nat (owner_queries l !! query_id)) ]> (owner_queries l)) l.

Definition persist (it : nat) (query_id : string) (l : RWLockImpl) : RWLockImpl :=
  bindWith it (own_query query_id l).

(** [emplace_back] of a new group. *)
Definition new_group (type : LockType) (l : RWLockImpl) : Group :=
  {| gid := fresh_gid l; gtype := type; requests := 0; ownership := false |}.

Definition emplace_group (type : LockType) (l : RWLockImpl) : RWLockImpl := {|
  readers_queue := match type with Read => readers_queue l ++ [new_group type l] | Write => readers_queue l end;
  writers_queue := match type with Read => writers_queue l | Write => writers_queue l ++ [new_group type l] end;
  rdlock_owner := rdlock_owner l; wrlock_owner := wrlock_owner l;
  owner_queries := owner_queries l; fresh_gid := S (fresh_gid l) |}.

(** Joining the last group or making a new one: the group and the state. *)
Definition join_group (type : LockType) (l : RWLockImpl) : nat * RWLockImpl :=
  match type with
  | Write => (fresh_gid l, emplace_group Write l)
  | Read =>
      match last (readers_queue l) with
      | Some back =>
          if negb (ownership back) || (length (writers_queue l) =? 0)%nat then (gid back, l)
          else (fresh_gid l, emplace_group Read l)
      | None => (fresh_gid l, emplace_group Read l)
      end
  end.

(** The slow path of [getLock] up to its wait: the group of the request is an
    owner already, or the request waits in its group. *)
Inductive Entry :=
| Granted (it : nat) (l : RWLockImpl)
| Waits (it : nat) (l : RWLockImpl).

Definition enter (type : LockType) (l : RWLockImpl) : Entry :=
  let '(it, l) := join_group type l in
  match rdlock_owner l, wrlock_owner l with
  | None, None =>
      let l := match type with
               | Read => set_owners (Some it) (wrlock_owner l) l
               | Write => set_owners (rdlock_owner l) (Some it) l
               end in
      Granted it (grantOwnership it l)
  | _, _ =>
      let l := update_group it (with_requests S) l in
      if owns it l then Granted it (update_group it (with_requests Nat.pred) l) else Waits it l
  end.

(** What [getLock] does up to its wait. *)
Inductive Outcome :=
| Acquired (it : nat) (l : RWLockImpl)
| Waiting (it : nat) (l : RWLockImpl)
| Refused
| EndDereferenced.

(** [getLock] up to the wait.  [Refused] is a null pointer or an exception,
    depending on [throw_in_fast_path]. *)
Definition getLock (type : LockType) (query_id : string) (l : RWLockImpl) : Outcome :=
  match (if bool_decide (query_id = NO_QUERY) then None else owner_queries l !! query_id) with
  | Some num_owners =>
      if negb (bool_decide (wrlock_owner l = None)) then Refused
      else match type with
           | Write => Refused
           | Read =>
               match rdlock_owner l with
               | None => EndDereferenced
               | Some it =>
                   Acquired it (bindWith it (set_queries (<[ query_id := S num_owners ]> (owner_queries l)) l))
               end
           end
  | None =>
      match enter type l with
      | Granted it l => Acquired it (persist it query_id l)
      | Waits it l => Waiting it l
      end
  end.

(** The end of the wait, with ownership and by timeout. *)
Definition getLock_woken (it : nat) (query_id : string) (l : RWLockImpl) : RWLockImpl :=
  persist it query_id (update_group it (with_requests Nat.pred) l).

Definition getLock_timed_out (it : nat) (type : LockType) (l : RWLockImpl) : RWLockImpl :=
  let l := update_group it (with_requests Nat.pred) l in
  let l := if (requests_of it l =? 0)%nat then erase_group type it l else l in
  if negb (bool_decide (rdlock_owner l = None)) && (length (writers_queue l) =? 0)%nat
  then grantOwnershipToAllReaders l else l.

(** The rollback when listing the query throws, and its two places. *)
Definition rollback (it : nat) (type : LockType) (l : RWLockImpl) : RWLockImpl :=
  if (requests_of it l =? 0)%nat then dropOwnerGroupAndPassOwnership it type l else l.

Definition getLock_woken_throws (it : nat) (type : LockType) (l : RWLockImpl) : RWLockImpl :=
  rollback it type (update_group it (with_requests Nat.pred) l).

Definition getLock_throws (type : LockType) (query_id : string) (l : RWLockImpl) : option RWLockImpl :=
  if bool_decide (query_id = NO_QUERY) || bool_decide (is_Some (owner_queries l !! query_id)) then None
  else match enter type l with
       | Granted it l => Some (rollback it type l)
       | Waits _ _ => None
       end.

(** ** Unlocking *)

Definition release_query (query_id : string) (l : RWLockImpl) : RWLockImpl :=
  if bool_decide (query_id = NO_QUERY) then l
  else match owner_queries l !! query_id with
       | None => l
       | Some n =>
           set_queries (if (n - 1 =? 0)%nat then delete query_id (owner_queries l)
                        else <[ query_id := (n - 1)%nat ]> (owner_queries l)) l
       end.

(** The checks of [unlock], which leave the lock as it is when they fail. *)
Definition consistent (g : Group) (l : RWLockImpl) : bool :=
  ownership g &&
  match gtype g with
  | Read => negb (bool_decide (rdlock_owner l = None)) && bool_decide (wrlock_owner l = None)
  | Write => bool_decide (wrlock_owner l = Some (gid g)) && bool_decide (rdlock_owner l = None)
  end.

Definition unlock (it : nat) (query_id : string) (l : RWLockImpl) : RWLockImpl :=
  match group_of it l with
  | None => l
  | Some g =>
      if negb (consistent g l) then l
      else
        let l := update_group it (with_requests Nat.pred) (release_query query_id l) in
        if (requests_of it l =? 0)%nat then dropOwnerGroupAndPassOwnership it (gtype g) l else l
  end.

(** * The threads *)

(** A thread inside of the wait of [getLock]. *)
Record Waiter := { w_group : nat; w_type : LockType; w_query : string; w_timed : bool }.

(** A bound [LockHolderImpl]. *)
Record Holder := { h_group : nat; h_query : string }.

Record System := { lock : RWLockImpl; waiting : list Waiter; holders : list Holder }.

Definition init : System := {| lock := create; waiting := []; holders := [] |}.

(** The critical sections of the threads, in any order.  A call that is
    [Refused] changes nothing; the insertion into [owner_queries] may throw. *)
Inductive step : System -> System -> Prop :=
| step_acquired type query it l s :
    getLock type query (lock s) = Acquired it l ->
    step s {| lock := l; waiting := waiting s; holders := {| h_group := it; h_query := query |} :: holders s |}
| step_waiting type query timed it l s :
    getLock type query (lock s) = Waiting it l ->
    step s {| lock := l; holders := holders s;
              waiting := {| w_group := it; w_type := type; w_query := query; w_timed := timed |} :: waiting s |}
| step_throws type query l s :
    getLock_throws type query (lock s) = Some l ->
    step s {| lock := l; waiting := waiting s; holders := holders s |}
| step_woken ws1 w ws2 s :
    waiting s = ws1 ++ w :: ws2 -> owns (w_group w) (lock s) = true ->
    step s {| lock := getLock_woken (w_group w) (w_query w) (lock s); waiting := ws1 ++ ws2;
              holders := {| h_group := w_group w; h_query := w_query w |} :: holders s |}
| step_woken_throws ws1 w ws2 s :
    waiting s = ws1 ++ w :: ws2 -> owns (w_group w) (lock s) = true -> w_query w <> NO_QUERY ->
    step s {| lock := getLock_woken_throws (w_group w) (w_type w) (lock s); waiting := ws1 ++ ws2; holders := holders s |}
| step_timed_out ws1 w ws2 s :
    waiting s = ws1 ++ w :: ws2 -> w_timed w = true -> owns (w_group w) (lock s) = false ->
    step s {| lock := getLock_timed_out (w_group w) (w_type w) (lock s); waiting := ws1 ++ ws2; holders := holders s |}
| step_unlock hs1 h hs2 s :
    holders s = hs1 ++ h :: hs2 ->
    step s {| lock := unlock (h_group h) (h_query h) (lock s); waiting := waiting s; holders := hs1 ++ hs2 |}.

Definition reachable (s : System) : Prop := rtc step init s.

(** * Groups as a finite map *)

Section ListLemmas.
#[local] Abbreviation ids q := (gid <$> q).

Lemma update_absent it f q : it ∉ ids q -> update it f q = q.
Proof.
  induction q as [|g q IH]; [done|]. rewrite fmap_cons, not_elem_of_cons. intros [Hne Hni].
  cbn. rewrite (proj2 (Nat.eqb_neq _ _)) by congruence. f_equal. by apply IH.
Qed.

Lemma update_app it f q1 q2 : update it f (q1 ++ q2) = update it f q1 ++ update it f q2.
Proof. apply map_app. Qed.

Lemma update_middle f q1 g q2 :
  NoDup (ids (q1 ++ g :: q2)) -> update (gid g) f (q1 ++ g :: q2) = q1 ++ f g :: q2.
Proof.
  rewrite fmap_app, fmap_cons, NoDup_app, NoDup_cons. intros (_ & Hd & Hg & _).
  rewrite update_app, update_absent by (intros Hin; eapply Hd; [exact Hin | left]).
  f_equal. cbn. rewrite Nat.eqb_refl. f_equal. by apply update_absent.
Qed.

Lemma erase_absent it q : it ∉ ids q -> erase it q = q.
Proof.
  induction q as [|g q IH]; [done|]. rewrite fmap_cons, not_elem_of_cons. intros [Hne Hni].
  unfold erase. rewrite filter_cons_True by congruence. f_equal. by apply IH.
Qed.

Lemma erase_middle q1 g q2 :
  NoDup (ids (q1 ++ g :: q2)) -> erase (gid g) (q1 ++ g :: q2) = q1 ++ q2.
Proof.
  rewrite fmap_app, fmap_cons, NoDup_app, NoDup_cons. intros (_ & Hd & Hg & _).
  unfold erase. rewrite filter_app, filter_cons_False by (intros []; done).
  f_equal; apply erase_absent; [intros Hin; eapply Hd; [exact Hin | left] | done].
Qed.

Lemma next_middle q1 g q2 : NoDup (ids (q1 ++ g :: q2)) -> next_of (gid g) (q1 ++ g :: q2) = begin_of q2.
Proof.
  induction q1 as [|a q1 IH]; cbn; [by rewrite Nat.eqb_refl|].
  rewrite NoDup_cons. intros [Hni Hnd]. rewrite (proj2 (Nat.eqb_neq _ _)); [by apply IH|].
  intros Heq. apply Hni. rewrite Heq, fmap_app. apply elem_of_app. right. left.
Qed.

Lemma prev_middle q1 a g q2 : NoDup (ids (q1 ++ a :: g :: q2)) -> prev_of (gid g) (q1 ++ a :: g :: q2) = Some (gid a).
Proof.
  induction q1 as [|b q1 IH]; [cbn; by rewrite Nat.eqb_refl|].
  cbn [app]. rewrite fmap_cons, NoDup_cons. intros [Hni Hnd]. specialize (IH Hnd).
  destruct q1 as [|c q1]; cbn in *.
  - rewrite Nat.eqb_refl in IH. rewrite (proj2 (Nat.eqb_neq _ _)); [by rewrite Nat.eqb_refl|].
    intros Heq. apply NoDup_cons in Hnd as [Hna _]. apply Hna. rewrite Heq. left.
  - rewrite (proj2 (Nat.eqb_neq _ _)); [done|].
    intros Heq. apply NoDup_cons in Hnd as [Hna _]. apply Hna. rewrite Heq, fmap_app.
    apply elem_of_app. right. right. left.
Qed.

Lemma find_group_elem it q g : NoDup (ids q) -> find_group it q = Some g <-> gid g = it /\ g ∈ q.
Proof.
  induction q as [|a q IH]; cbn; [intros _; split; [done | intros [_ H]; by apply elem_of_nil in H]|].
  rewrite NoDup_cons. intros [Hni Hnd]. specialize (IH Hnd).
  destruct (gid a =? it)%nat eqn:E; [apply Nat.eqb_eq in E | apply Nat.eqb_neq in E].
  - split; [intros [= <-]; split; [done | left]|]. intros [He Hin].
    apply elem_of_cons in Hin as [->|Hin]; [done|]. destruct Hni. rewrite E, <- He.
    apply list_elem_of_fmap. by exists g.
  - rewrite IH. split; intros [He Hin]; (split; [done|]); [by right|].
    apply elem_of_cons in Hin as [->|Hin]; [done|done].
Qed.

Lemma find_group_None it q : find_group it q = None <-> it ∉ ids q.
Proof.
  induction q as [|a q IH]; cbn; [split; [intros _ H; by apply elem_of_nil in H | done]|].
  rewrite not_elem_of_cons, <- IH. destruct (gid a =? it)%nat eqn:E.
  - apply Nat.eqb_eq in E. split; [done | intros [[] _]; done].
  - apply Nat.eqb_neq in E. split; [intros H; split; [congruence|done] | by intros [_ H]].
Qed.

Lemma find_group_app it q1 q2 :
  find_group it (q1 ++ q2) = match find_group it q1 with Some g => Some g | None => find_group it q2 end.
Proof. induction q1 as [|a q1 IH]; cbn; [done|]. destruct (_ =? _)%nat; [done|apply IH]. Qed.

Lemma find_group_update i it f q :
  (forall g, gid (f g) = gid g) ->
  find_group i (update it f q) = (if (i =? it)%nat then f else id) <$> find_group i q.
Proof.
  intros Hf. induction q as [|a q IH]; cbn; [by destruct (i =? it)%nat|].
  destruct (gid a =? it)%nat eqn:E1; rewrite ?Hf; destruct (gid a =? i)%nat eqn:E2; try apply IH; cbn; f_equal;
    destruct (i =? it)%nat eqn:E3; try done;
    rewrite ?Nat.eqb_eq, ?Nat.eqb_neq in *; congruence.
Qed.

Lemma find_group_erase i it q : find_group i (erase it q) = if (i =? it)%nat then None else find_group i q.
Proof.
  unfold erase. induction q as [|a q IH]; [by destruct (i =? it)%nat|]. rewrite filter_cons.
  destruct (decide (gid a <> it)) as [E|E]; cbn; rewrite IH.
  - destruct (i =? it)%nat eqn:E3; [|done]. apply Nat.eqb_eq in E3. subst.
    by rewrite (proj2 (Nat.eqb_neq _ _)) by done.
  - apply dec_stable in E. subst. destruct (i =? gid a)%nat eqn:E3; [done|].
    apply Nat.eqb_neq in E3. by rewrite (proj2 (Nat.eqb_neq _ _)) by congruence.
Qed.
End ListLemmas.

#[global] Arguments update : simpl never.
#[global] Arguments erase : simpl never.
#[global] Arguments next_of : simpl never.
#[global] Arguments prev_of : simpl never.
#[global] Arguments find_group : simpl never.

Definition groups (l : RWLockImpl) : list Group := readers_queue l ++ writers_queue l.

Lemma group_of_find it l : group_of it l = find_group it (groups l).
Proof. symmetry. apply find_group_app. Qed.

Lemma group_of_update i it f l :
  (forall g, gid (f g) = gid g) ->
  group_of i (update_group it f l) = (if (i =? it)%nat then f else id) <$> group_of i l.
Proof.
  intros Hf. rewrite !group_of_find. unfold groups, update_group. cbn. rewrite <- update_app. by apply find_group_update.
Qed.

Lemma update_update it f f' q :
  (forall g, gid (f g) = gid g) -> update it f' (update it f q) = update it (fun g => f' (f g)) q.
Proof.
  intros Hf. unfold update. rewrite map_map. apply map_ext. intros g.
  destruct (gid g =? it)%nat eqn:E; rewrite ?Hf, E; done.
Qed.

Lemma update_id it f q : (forall g, f g = g) -> update it f q = q.
Proof. intros Hf. unfold update. rewrite <- (map_id q) at 2. apply map_ext. intros g. by destruct (_ =? _)%nat. Qed.

Lemma requests_back it l :
  update_group it (with_requests Nat.pred) (update_group it (with_requests S) l) = l.
Proof.
  destruct l. unfold update_group. cbn. rewrite !update_update by done.
  rewrite !update_id by (intros []; reflexivity). reflexivity.
Qed.

(** * The invariant of the lock *)

Record WF (l : RWLockImpl) : Prop := {
  wf_nodup : NoDup (gid <$> groups l);
  wf_fresh : Forall (fun g => gid g < fresh_gid l)%nat (groups l);
  wf_readers : Forall (fun g => gtype g = Read) (readers_queue l);
  wf_writers : Forall (fun g => gtype g = Write) (writers_queue l) }.

Definition owner (g : Group) : Prop := ownership g = true.
Definition nonowner (g : Group) : Prop := ownership g = false.

(** The phases: nobody asks for the lock; the reader groups up to
    [rdlock_owner] own it, and at most one more waits, only behind a writer; the
    first writer owns it, and at most one reader group waits. *)
Inductive Phase : RWLockImpl -> Prop :=
| Free qs n : Phase (Build_RWLockImpl [] [] None None qs n)
| Reading own r rest ws qs n :
    Forall owner (own ++ [r]) -> Forall nonowner rest -> (length rest <= 1)%nat -> Forall nonowner ws ->
    (ws = [] -> rest = []) ->
    Phase (Build_RWLockImpl (own ++ r :: rest) ws (Some (gid r)) None qs n)
| Writing rs w ws qs n :
    owner w -> Forall nonowner ws -> Forall nonowner rs -> (length rs <= 1)%nat ->
    Phase (Build_RWLockImpl rs (w :: ws) None (Some (gid w)) qs n).

(** What passing ownership does to the groups: one group may go, and groups may
    become owners. *)
Definition raised (g g' : Group) : Prop :=
  gtype g' = gtype g /\ requests g' = requests g /\ (owner g -> owner g').

Record Later (gone : option nat) (l l' : RWLockImpl) : Prop := {
  later_kept i : gone <> Some i -> option_Forall2 raised (group_of i l) (group_of i l');
  later_gone i : gone = Some i -> group_of i l' = None;
  later_queries : owner_queries l' = owner_queries l;
  later_fresh : fresh_gid l' = fresh_gid l }.

#[global] Instance raised_preorder : PreOrder raised.
Proof. split; [by intros g | intros g1 g2 g3 (?&?&?) (?&?&?); repeat split; [congruence | congruence | auto]]. Qed.

Lemma later_refl l : Later None l l.
Proof. by split. Qed.

Lemma later_trans gone l1 l2 l3 : Later gone l1 l2 -> Later None l2 l3 -> Later gone l1 l3.
Proof.
  intros [K1 G1 Q1 F1] [K2 G2 Q2 F2]. split; [| |congruence|congruence].
  - intros i Hi. specialize (K1 i Hi). specialize (K2 i ltac:(done)).
    destruct K1; inversion K2; subst; constructor. by eapply transitivity.
  - intros i Hi. specialize (G1 i Hi). specialize (K2 i ltac:(done)). rewrite G1 in K2. by inversion K2.
Qed.

Lemma wf_update it f l :
  (forall g, gid (f g) = gid g /\ gtype (f g) = gtype g) -> WF l -> WF (update_group it f l).
Proof.
  intros Hf [Hn Hfr Hr Hw].
  assert (forall q, gid <$> update it f q = gid <$> q) as Hid.
  { intros q. unfold update. induction q as [|g q IH]; [done|]. cbn. rewrite <- IH. f_equal.
    destruct (_ =? _)%nat; [apply Hf | done]. }
  assert (forall (P : nat -> LockType -> Prop) q,
    Forall (fun g => P (gid g) (gtype g)) q -> Forall (fun g => P (gid g) (gtype g)) (update it f q)) as Hall.
  { intros P q Hq. apply Forall_map. eapply Forall_impl; [exact Hq|]. intros g. cbn.
    destruct (_ =? _)%nat; [|done]. by destruct (Hf g) as [-> ->]. }
  split; unfold groups in *; cbn.
  - rewrite <- update_app. by rewrite Hid.
  - rewrite <- update_app. by apply (Hall (fun i _ => i < fresh_gid l)%nat).
  - by apply (Hall (fun _ t => t = Read)).
  - by apply (Hall (fun _ t => t = Write)).
Qed.

Lemma wf_owners rd wr l : WF l -> WF (set_owners rd wr l).
Proof. intros [? ? ? ?]. by split. Qed.

Lemma wf_erase type it l : WF l -> WF (erase_group type it l).
Proof.
  intros [Hn Hfr Hr Hw].
  assert (groups (erase_group type it l) `sublist_of` groups l) as Hsub.
  { unfold groups, erase. destruct type; cbn; [apply sublist_app; [apply sublist_filter | done]
      | apply sublist_app; [done | apply sublist_filter]]. }
  split.
  - eapply sublist_NoDup; [exact Hn|]. by apply fmap_sublist.
  - replace (fresh_gid (erase_group type it l)) with (fresh_gid l) by by destruct type.
    rewrite Forall_forall in *. intros g Hg. apply Hfr. by eapply elem_of_sublist.
  - destruct type; [|done]. cbn. unfold erase. rewrite Forall_forall in *. intros g [_ Hg]%list_elem_of_filter. auto.
  - destruct type; [done|]. cbn. unfold erase. rewrite Forall_forall in *. intros g [_ Hg]%list_elem_of_filter. auto.
Qed.

Lemma group_of_elem it l g : WF l -> group_of it l = Some g <-> gid g = it /\ g ∈ groups l.
Proof. intros Hwf. rewrite group_of_find. apply find_group_elem, Hwf. Qed.

Lemma group_of_queue it l g : WF l -> group_of it l = Some g -> gid g = it /\ g ∈ queue_of (gtype g) l.
Proof.
  intros Hwf Hg. pose proof Hwf as [Hn Hf Hr Hw]. apply group_of_elem in Hg as [Hid Hin]; [|done].
  split; [done|]. rewrite Forall_forall in Hr, Hw.
  apply elem_of_app in Hin as [Hin|Hin]; [rewrite (Hr _ Hin) | rewrite (Hw _ Hin)]; done.
Qed.

(** The two queues have no group in common. *)
Lemma queues_disjoint g l : WF l -> g ∈ readers_queue l -> gid g ∉ gid <$> writers_queue l.
Proof.
  intros [Hn _ _ _] Hg. unfold groups in Hn. rewrite fmap_app in Hn. apply NoDup_app in Hn as (_ & Hd & _).
  apply Hd. apply list_elem_of_fmap. by exists g.
Qed.

Lemma queues_disjoint' g l : WF l -> g ∈ writers_queue l -> gid g ∉ gid <$> readers_queue l.
Proof.
  intros Hwf Hg (r & Heq & Hr)%list_elem_of_fmap. apply (queues_disjoint r l Hwf Hr).
  rewrite <- Heq. apply list_elem_of_fmap. by exists g.
Qed.

Lemma later_erase it l g :
  WF l -> group_of it l = Some g -> Later (Some it) l (erase_group (gtype g) it l).
Proof.
  intros Hwf Hg. destruct (group_of_queue _ _ _ Hwf Hg) as [<- Hin].
  split; [| |by destruct (gtype g) ..].
  - intros i Hi. assert (i <> gid g) as Hne by congruence. apply Nat.eqb_neq in Hne.
    replace (group_of i (erase_group (gtype g) (gid g) l)) with (group_of i l);
      [destruct (group_of i l); by constructor|].
    unfold group_of. destruct (gtype g); cbn; by rewrite find_group_erase, Hne.
  - intros i [= <-]. unfold group_of. destruct (gtype g); cbn in *;
      rewrite find_group_erase, Nat.eqb_refl.
    + apply find_group_None. by apply queues_disjoint.
    + rewrite (proj2 (find_group_None _ _)); [done|]. by apply queues_disjoint'.
Qed.

Lemma later_grant it l : Later None l (grantOwnership it l).
Proof.
  split; [| |done ..]; [|done]. intros i _. unfold grantOwnership. rewrite group_of_update by done.
  destruct (group_of i l) as [g|]; [|constructor]. constructor. by destruct (_ =? _)%nat.
Qed.

Lemma later_owners gone rd wr l l' : Later gone l l' -> Later gone l (set_owners rd wr l').
Proof. by intros [? ? ? ?]. Qed.

Lemma grant_loop_sound fuel it l : WF l -> WF (grant_loop fuel it l) /\ Later None l (grant_loop fuel it l).
Proof.
  revert it l. induction fuel as [|fuel IH]; intros it l Hwf; [split; [done | apply later_refl]|].
  assert (WF (grantOwnership it l)) as Hwf' by by apply wf_update.
  cbn. destruct (next_of _ _) as [next|]; [|split; [done | apply later_grant]].
  destruct (IH next (set_owners (Some next) (wrlock_owner (grantOwnership it l)) (grantOwnership it l)))
    as [Hw Hl]; [by apply wf_owners|]. split; [exact Hw|].
  eapply later_trans; [|exact Hl]. apply later_owners, later_grant.
Qed.

Lemma grant_all_sound l :
  WF l -> WF (grantOwnershipToAllReaders l) /\ Later None l (grantOwnershipToAllReaders l).
Proof.
  intros Hwf. unfold grantOwnershipToAllReaders.
  destruct (rdlock_owner l); [by apply grant_loop_sound | split; [done | apply later_refl]].
Qed.

(** ** Every phase is followed by a phase *)

Lemma grant_loop_phase rest : forall fuel own r ws qs n,
  NoDup (gid <$> (own ++ r :: rest) ++ ws) -> Forall owner own -> Forall nonowner ws -> (length rest < fuel)%nat ->
  Phase (grant_loop fuel (gid r) (Build_RWLockImpl (own ++ r :: rest) ws (Some (gid r)) None qs n)).
Proof.
  induction rest as [|r' rest IH]; intros [|fuel] own r ws qs n Hnd Hown Hws Hfuel; try (cbn in Hfuel; lia).
  all: pose proof Hnd as Hnd0; rewrite fmap_app in Hnd0; apply NoDup_app in Hnd0 as (Hnd1 & Hd & _).
  all: assert (gid r ∉ gid <$> ws) as Hr by
    (apply Hd, list_elem_of_fmap; exists r; split; [done | apply elem_of_app; right; left]).
  all: cbn [grant_loop]; unfold grantOwnership, update_group; cbn.
  all: rewrite update_middle, (update_absent _ _ ws) by done.
  all: change (gid r) with (gid (with_ownership r)) at 1; rewrite next_middle
    by (rewrite fmap_app, fmap_cons in *; exact Hnd1); cbn.
  - change (gid r) with (gid (with_ownership r)). constructor; try done; [|cbn; lia].
    apply Forall_app_2; [done | by repeat constructor].
  - rewrite (cons_middle (with_ownership r)), app_assoc in *. apply IH; [|..|done|cbn in Hfuel; lia].
    + rewrite <- (app_assoc own). revert Hnd. cbn. by rewrite !fmap_app, !fmap_cons.
    + apply Forall_app_2; [done | by repeat constructor].
Qed.

Lemma grant_all_phase own r rest ws qs n :
  NoDup (gid <$> (own ++ r :: rest) ++ ws) -> Forall owner own -> Forall nonowner ws ->
  Phase (grantOwnershipToAllReaders (Build_RWLockImpl (own ++ r :: rest) ws (Some (gid r)) None qs n)).
Proof.
  intros Hnd Hown Hws. apply grant_loop_phase; [done..|]. cbn. rewrite length_app. cbn. lia.
Qed.

Lemma drop_sound it l g :
  WF l -> group_of it l = Some g ->
  WF (dropOwnerGroupAndPassOwnership it (gtype g) l) /\
  Later (Some it) l (dropOwnerGroupAndPassOwnership it (gtype g) l).
Proof.
  intros Hwf Hg. unfold dropOwnerGroupAndPassOwnership.
  assert (forall rd wr, let l' := erase_group (gtype g) it (set_owners rd wr l) in WF l' /\ Later (Some it) l l') as Herase.
  { intros rd wr. split; [by apply wf_erase, wf_owners|].
    replace (erase_group (gtype g) it (set_owners rd wr l)) with (set_owners rd wr (erase_group (gtype g) it l))
      by by destruct (gtype g). by apply later_owners, later_erase. }
  assert (forall l', WF l' /\ Later (Some it) l l' ->
    WF (grantOwnershipToAllReaders l') /\ Later (Some it) l (grantOwnershipToAllReaders l')) as Hgrant.
  { intros l' [Hw Hl]. destruct (grant_all_sound l' Hw). split; [done | by eapply later_trans]. }
  destruct (bool_decide (gtype g = Read)) eqn:Et; cbn [andb].
  1: apply bool_decide_eq_true in Et; rewrite Et in *.
  1: case_match; [case_match; [apply Hgrant | ]; apply Herase|].
  all: specialize (Herase None None).
  all: set (e := erase_group _ it (set_owners None None l)) in *; cbn zeta in Herase.
  all: match goal with |- context [match rdlock_owner ?x with _ => _ end] => set (l2 := x) end.
  all: assert (WF l2 /\ Later (Some it) l l2) as [Hw2 Hl2] by
    (unfold l2; repeat case_match; (split; [apply wf_owners, Herase | apply later_owners, Herase])).
  all: destruct (rdlock_owner l2); [by apply Hgrant|]; destruct (wrlock_owner l2); [|done].
  all: split; [by apply wf_update | eapply later_trans; [exact Hl2 | apply later_grant]].
Qed.

(** The owners of a phase. *)
Lemma nonowner_not g q : Forall nonowner q -> g ∈ q -> ~ owner g.
Proof. rewrite Forall_forall. intros H Hin Ho. specialize (H _ Hin). unfold owner, nonowner in *. congruence. Qed.

Lemma begin_writer_phase rs w ws qs n :
  WF (Build_RWLockImpl rs (w :: ws) None None qs n) ->
  Forall nonowner ws -> Forall nonowner rs -> (length rs <= 1)%nat ->
  Phase (grantOwnership (gid w) (Build_RWLockImpl rs (w :: ws) None (Some (gid w)) qs n)).
Proof.
  intros Hwf Hws Hrs Hlen. unfold grantOwnership, update_group. cbn.
  rewrite (update_absent _ _ rs) by (eapply (queues_disjoint' w _ Hwf); cbn; left).
  destruct Hwf as [Hn _ _ _]. unfold groups in Hn. cbn in Hn. rewrite fmap_app in Hn. apply NoDup_app in Hn as (_ & _ & Hn).
  pose proof (update_middle with_ownership [] w ws Hn) as Hu. cbn in Hu. rewrite Hu.
  change (gid w) with (gid (with_ownership w)). by constructor.
Qed.

(** Owners remain when a reader group leaves. *)
Lemma readers_remain own r rest ws qs n :
  let l := Build_RWLockImpl (own ++ r :: rest) ws (Some (gid r)) None qs n in
  WF l -> Forall owner (own ++ [r]) -> Forall nonowner rest -> (length rest <= 1)%nat -> Forall nonowner ws ->
  (ws = [] -> rest = []) ->
  Phase (if (length (writers_queue l) =? 0)%nat then grantOwnershipToAllReaders l else l).
Proof.
  intros l Hwf Hown Hrest Hlen Hws Hempty. case_match; [|by constructor].
  apply grant_all_phase; [apply Hwf | by apply Forall_app in Hown as [? _] | done].
Qed.

Lemma wf_readers_nodup l : WF l -> NoDup (gid <$> readers_queue l).
Proof. intros [Hn _ _ _]. unfold groups in Hn. rewrite fmap_app in Hn. by apply NoDup_app in Hn as [? _]. Qed.

Lemma distinct_ids q1 a q2 b q3 : NoDup (gid <$> q1 ++ a :: q2 ++ b :: q3) -> gid a <> gid b.
Proof.
  rewrite fmap_app, fmap_cons, fmap_app, fmap_cons. intros (_ & _ & Hn)%NoDup_app He.
  apply NoDup_cons in Hn as [Hn _]. apply Hn. rewrite He. apply elem_of_app. right. left.
Qed.

Lemma drop_reader_eq it l :
  rdlock_owner l <> begin_of (readers_queue l) -> rdlock_owner l <> None ->
  dropOwnerGroupAndPassOwnership it Read l =
  let rd := if bool_decide (rdlock_owner l = Some it) then prev_of it (readers_queue l) else rdlock_owner l in
  let l := erase_group Read it (set_owners rd (wrlock_owner l) l) in
  if (length (writers_queue l) =? 0)%nat then grantOwnershipToAllReaders l else l.
Proof. intros Hb He. unfold dropOwnerGroupAndPassOwnership. by rewrite (bool_decide_eq_false_2 _ Hb), (bool_decide_eq_false_2 _ He). Qed.

Section Drop.
Context (r : Group) (rest ws : list Group) (qs : gmap string nat) (n : nat).
#[local] Abbreviation reading own := (Build_RWLockImpl (own ++ r :: rest) ws (Some (gid r)) None qs n).

Hypothesis Hrest : Forall nonowner rest.
Hypothesis Hlen : (length rest <= 1)%nat.
Hypothesis Hws : Forall nonowner ws.
Hypothesis Hempty : ws = [] -> rest = [].

Lemma drop_earlier_reader o1 g o2 :
  WF (reading (o1 ++ g :: o2)) -> Forall owner ((o1 ++ g :: o2) ++ [r]) ->
  Phase (dropOwnerGroupAndPassOwnership (gid g) Read (reading (o1 ++ g :: o2))).
Proof.
  intros Hwf Hown0. assert (Forall owner ((o1 ++ o2) ++ [r])) as Hown.
  { rewrite !Forall_app, Forall_cons in Hown0. rewrite !Forall_app. tauto. }
  pose proof (wf_readers_nodup _ Hwf) as Hnd. cbn in Hnd. rewrite <- app_assoc in Hnd. cbn in Hnd.
  pose proof (distinct_ids _ _ _ _ _ Hnd) as Hgr.
  rewrite drop_reader_eq; [| |done].
  2: { destruct o1 as [|a o1]; cbn; intros [= He]; [congruence|].
       apply (distinct_ids [] a (o1 ++ g :: o2) r rest); [by rewrite <- app_assoc | done]. }
  pose proof (wf_erase Read (gid g) _ Hwf) as Hwf'. cbn in Hwf' |- *.
  rewrite bool_decide_eq_false_2 by congruence. rewrite <- app_assoc in *. cbn in *.
  unfold set_readers in *. cbn in *. rewrite erase_middle, (app_assoc o1 o2) in * by done.
  by apply (readers_remain (o1 ++ o2)).
Qed.

Lemma drop_latest_reader o p :
  WF (reading (o ++ [p])) -> Forall owner ((o ++ [p]) ++ [r]) ->
  Phase (dropOwnerGroupAndPassOwnership (gid r) Read (reading (o ++ [p]))).
Proof.
  intros Hwf [Hown _]%Forall_app. pose proof (wf_readers_nodup _ Hwf) as Hnd. cbn in Hnd.
  rewrite drop_reader_eq; [| |done].
  2: { destruct o as [|a o]; cbn; intros [= He];
         [by apply (distinct_ids [] p [] r rest) | by apply (distinct_ids [] a (o ++ [p]) r rest)]. }
  pose proof (wf_erase Read (gid r) _ Hwf) as Hwf'. cbn in Hwf' |- *.
  rewrite bool_decide_eq_true_2 by done. unfold set_readers in *. cbn in *.
  rewrite erase_middle in * by done. rewrite <- !(app_assoc o [p]) in *. cbn in *. rewrite prev_middle by done.
  apply (readers_remain o p); try done. by destruct Hwf'.
Qed.

Lemma drop_only_reader :
  WF (reading []) -> Phase (dropOwnerGroupAndPassOwnership (gid r) Read (reading [])).
Proof.
  intros Hwf. unfold dropOwnerGroupAndPassOwnership.
  pose proof (wf_erase Read (gid r) _ (wf_owners None None _ Hwf)) as Hwf'.
  pose proof (erase_middle [] r rest (wf_readers_nodup _ Hwf)) as He. cbn in He, Hwf' |- *.
  rewrite (bool_decide_eq_true_2 (Some (gid r) = Some (gid r))) by done. cbn.
  unfold set_readers in *. cbn in *. rewrite He in *. destruct ws as [|w ws']; cbn.
  - rewrite Hempty by done. constructor.
  - unfold set_owners. cbn. apply begin_writer_phase; try done. by apply Forall_cons in Hws as [? ?].
Qed.
End Drop.

Lemma drop_writer_phase rs w ws qs n :
  let l := Build_RWLockImpl rs (w :: ws) None (Some (gid w)) qs n in
  WF l -> Forall nonowner ws -> Forall nonowner rs -> (length rs <= 1)%nat ->
  Phase (dropOwnerGroupAndPassOwnership (gid w) Write l).
Proof.
  intros l Hwf Hws Hrs Hlen. unfold dropOwnerGroupAndPassOwnership. cbn.
  pose proof (wf_erase Write (gid w) _ (wf_owners None None _ Hwf)) as Hwf'.
  assert (NoDup (gid <$> w :: ws)) as Hnd.
  { destruct Hwf as [Hn _ _ _]. unfold groups in Hn. rewrite fmap_app in Hn. by apply NoDup_app in Hn as (_ & _ & ?). }
  pose proof (erase_middle [] w ws Hnd) as He. cbn in He, Hwf'. unfold set_writers, set_owners in *. cbn in *. rewrite He in *.
  destruct rs as [|r rs]; cbn.
  - destruct ws as [|w' ws]; cbn; [constructor|]. apply begin_writer_phase; try done. by apply Forall_cons in Hws as [? ?].
  - apply (grant_all_phase [] r rs); [apply Hwf' | done | done].
Qed.

Lemma drop_phase it l g :
  WF l -> Phase l -> group_of it l = Some g -> owner g ->
  Phase (dropOwnerGroupAndPassOwnership it (gtype g) l).
Proof.
  intros Hwf Hph Hg Ho. destruct (group_of_queue _ _ _ Hwf Hg) as [<- Hin].
  apply group_of_elem in Hg as [_ Hel]; [|done]. pose proof (wf_readers _ Hwf) as Hr. pose proof (wf_writers _ Hwf) as Hw.
  rewrite Forall_forall in Hr, Hw.
  destruct Hph as [qs n|own r rest ws qs n Hown Hrest Hlen Hws Hempty|rs w ws qs n Hown Hws Hrs Hlen].
  - by apply elem_of_nil in Hel.
  - unfold groups in Hel. cbn in *. apply elem_of_app in Hel as [Hel|Hel]; [|by apply nonowner_not in Hel].
    rewrite (Hr _ Hel). rewrite cons_middle, app_assoc in Hel.
    apply elem_of_app in Hel as [Hel|Hel]; [|by apply nonowner_not in Hel].
    apply elem_of_app in Hel as [Hel | ->%list_elem_of_singleton].
    + apply list_elem_of_split in Hel as (o1 & o2 & ->). by apply drop_earlier_reader.
    + destruct (decide (own = [])) as [->|Hne]; [by apply drop_only_reader|].
      destruct (exists_last Hne) as (o & p & ->). by apply drop_latest_reader.
  - unfold groups in Hel. cbn in *. apply elem_of_app in Hel as [Hel|Hel]; [by apply nonowner_not in Hel|].
    rewrite (Hw _ Hel). apply elem_of_cons in Hel as [-> | Hel]; [|by apply nonowner_not in Hel].
    by apply drop_writer_phase.
Qed.

(** ** Requests come and go *)

Lemma phase_map h rs ws rd wr qs n :
  (forall g, gid (h g) = gid g /\ ownership (h g) = ownership g) ->
  Phase (Build_RWLockImpl rs ws rd wr qs n) -> Phase (Build_RWLockImpl (map h rs) (map h ws) rd wr qs n).
Proof.
  intros Hh Hph.
  assert (forall b q, Forall (fun g => ownership g = b) q -> Forall (fun g => ownership g = b) (map h q)) as Hmap.
  { intros b q Hq. apply Forall_map. eapply Forall_impl; [exact Hq|]. intros g Hg. cbn. by rewrite (proj2 (Hh g)). }
  inversion Hph as [|own r rest ? ? ? Hown Hrest Hlen Hws Hempty|? w ws0 ? ? Hown Hws Hrs Hlen]; subst.
  - constructor.
  - rewrite map_app. cbn. rewrite <- (proj1 (Hh r)). apply Reading.
    + pose proof (Hmap true _ Hown) as Hm. by rewrite map_app in Hm.
    + by apply Hmap.
    + by rewrite length_map.
    + by apply Hmap.
    + intros Hnil. rewrite Hempty; [done | by destruct ws].
  - cbn. rewrite <- (proj1 (Hh w)). apply Writing; [by unfold owner; rewrite (proj2 (Hh w)) | by apply Hmap .. | by rewrite length_map].
Qed.

Lemma phase_requests it f l : Phase l -> Phase (update_group it (with_requests f) l).
Proof. destruct l. apply phase_map. intros g. by destruct (_ =? _)%nat. Qed.

Lemma phase_queries qs l : Phase l -> Phase (set_queries qs l).
Proof. by intros []; constructor. Qed.

Lemma erase_forall P it q : Forall P q -> Forall P (erase it q).
Proof. rewrite !Forall_forall. intros H g [_ Hg]%list_elem_of_filter. auto. Qed.

Lemma erase_length it q : (length (erase it q) <= length q)%nat.
Proof. apply length_filter. Qed.

Lemma erase_cons_ne it g q : gid g <> it -> erase it (g :: q) = g :: erase it q.
Proof. intros. unfold erase. by rewrite filter_cons_True. Qed.

(** A group without ownership leaves the lock. *)
Lemma leave_phase it l g :
  WF l -> Phase l -> group_of it l = Some g -> nonowner g ->
  let l := erase_group (gtype g) it l in
  Phase (if negb (bool_decide (rdlock_owner l = None)) && (length (writers_queue l) =? 0)%nat
         then grantOwnershipToAllReaders l else l).
Proof.
  intros Hwf Hph Hg Hno. destruct (group_of_queue _ _ _ Hwf Hg) as [<- Hin]. intros l'.
  assert (WF l') as Hwf' by by apply wf_erase.
  destruct Hph as [qs n|own r rest ws qs n Hown Hrest Hlen Hws Hempty|rs w ws qs n Hown Hws Hrs Hlen].
  - unfold l'. by destruct (gtype g).
  - unfold l' in *. clear l'. destruct (gtype g); cbn in *.
    + assert (g ∈ rest) as Hr.
      { rewrite cons_middle, app_assoc in Hin. apply elem_of_app in Hin as [Hin|Hin]; [|done].
        rewrite Forall_forall in Hown. apply Hown in Hin. unfold owner, nonowner in *. congruence. }
      destruct ws as [|w ws]; [rewrite Hempty in Hr by done; by apply elem_of_nil in Hr|].
      destruct rest as [|x [|]]; cbn in Hlen; [by apply elem_of_nil in Hr| |lia].
      apply list_elem_of_singleton in Hr as ->. cbn. unfold set_readers. cbn.
      pose proof (wf_readers_nodup _ Hwf) as Hnd. cbn in Hnd. rewrite cons_middle, app_assoc in Hnd |- *.
      rewrite erase_middle, app_nil_r by done. apply Reading; try done. cbn. lia.
    + unfold set_writers in *. cbn in *. case_match eqn:El.
      * apply grant_all_phase; [apply Hwf' | by apply Forall_app in Hown as [? _] | by apply erase_forall].
      * constructor; try done; [by apply erase_forall|]. intros Hnil. by rewrite Hnil in El.
  - unfold l' in *. clear l'. destruct (gtype g); cbn in *.
    + constructor; try done; [by apply erase_forall | pose proof (erase_length (gid g) rs); lia].
    + apply elem_of_cons in Hin as [->|Hin]; [unfold owner, nonowner in *; congruence|].
      unfold set_writers. cbn. rewrite erase_cons_ne; [by constructor; try done; apply erase_forall|].
      destruct Hwf as [Hn _ _ _]. unfold groups in Hn. rewrite fmap_app in Hn. apply NoDup_app in Hn as (_ & _ & Hn).
      apply NoDup_cons in Hn as [Hn _]. intros He. apply Hn. rewrite He. apply list_elem_of_fmap. by exists g.
Qed.

Lemma timed_out_phase it l g :
  WF l -> Phase l -> group_of it l = Some g -> nonowner g -> Phase (getLock_timed_out it (gtype g) l).
Proof.
  intros Hwf Hph Hg Hno. unfold getLock_timed_out.
  apply (phase_requests it Nat.pred) in Hph. apply (wf_update it (with_requests Nat.pred)) in Hwf; [|done].
  assert (group_of it (update_group it (with_requests Nat.pred) l) = Some (with_requests Nat.pred g)) as Hg'
    by by rewrite group_of_update, Nat.eqb_refl, Hg.
  set (l' := update_group it _ l) in *.
  destruct (requests_of it l' =? 0)%nat; [exact (leave_phase _ _ _ Hwf Hph Hg' Hno)|].
  destruct Hph as [qs n|own r rest ws qs n Hown Hrest Hlen Hws Hempty|rs w ws qs n Hown Hws Hrs Hlen]; cbn; [constructor| |by constructor].
  case_match; [|by constructor]. apply grant_all_phase; [apply Hwf | by apply Forall_app in Hown as [? _] | done].
Qed.

(** What joining a group does to the groups: the request joins a group of
    readers, or its group is new. *)
Record Joined (it : nat) (type : LockType) (b : bool) (l l' : RWLockImpl) : Prop := {
  joined_other i : i <> it -> group_of i l' = group_of i l;
  joined_group :
    (group_of it l = None /\
     group_of it l' = Some {| gid := it; gtype := type; requests := 0; ownership := b |}) \/
    (type = Read /\ exists g, group_of it l = Some g /\ group_of it l' = Some g /\ gtype g = Read /\ ownership g = b);
  joined_queries : owner_queries l' = owner_queries l }.

Lemma fresh_absent l : WF l -> fresh_gid l ∉ gid <$> groups l.
Proof.
  intros [_ Hf _ _] (g & Heq & Hin)%list_elem_of_fmap. rewrite Forall_forall in Hf. apply Hf in Hin. lia.
Qed.

Lemma emplace_groups type l : groups (emplace_group type l) ≡ₚ new_group type l :: groups l.
Proof. unfold groups. destruct type; cbn; [rewrite <- app_assoc; symmetry; apply Permutation_middle | rewrite app_assoc; symmetry; apply Permutation_cons_append]. Qed.

Lemma emplace_wf type l : WF l -> WF (emplace_group type l).
Proof.
  intros Hwf. pose proof Hwf as [Hn Hf Hr Hw]. split.
  - rewrite emplace_groups. cbn. apply NoDup_cons. split; [by apply fresh_absent | done].
  - rewrite emplace_groups. constructor; [cbn; lia|]. eapply Forall_impl; [exact Hf|]. cbn. lia.
  - destruct type; [|done]. apply Forall_app_2; [done | by repeat constructor].
  - destruct type; [done|]. apply Forall_app_2; [done | by repeat constructor].
Qed.

Lemma emplace_joined type l : WF l -> Joined (fresh_gid l) type false l (emplace_group type l).
Proof.
  intros Hwf. pose proof (emplace_wf type _ Hwf) as Hwf'. split; [|left; split|done].
  - intros i Hi. apply option_eq. intros g. rewrite !group_of_elem, emplace_groups, elem_of_cons by done.
    split; [intros [<- [->|?]]; [by destruct Hi | done] | intros [? ?]; auto].
  - rewrite group_of_find. apply find_group_None. by apply fresh_absent.
  - apply group_of_elem; [done|]. split; [done|]. rewrite emplace_groups. left.
Qed.

Lemma grant_joined it type l l' :
  group_of it l = None -> Joined it type false l l' -> Joined it type true l (grantOwnership it l').
Proof.
  intros Hnone [Ho Hj Hq]. split; [|left; split; [done|]|done].
  - intros i Hi. unfold grantOwnership. rewrite group_of_update by done.
    rewrite (proj2 (Nat.eqb_neq _ _) Hi), option_fmap_id. by apply Ho.
  - unfold grantOwnership. rewrite group_of_update, Nat.eqb_refl by done.
    destruct Hj as [[_ ->] | (_ & g & Hg & _)]; [done | congruence].
Qed.

Definition entry_ok (type : LockType) (l : RWLockImpl) (e : Entry) : Prop :=
  match e with
  | Granted it l' => WF l' /\ Phase l' /\ Joined it type true l l'
  | Waits it l'' =>
      exists l', l'' = update_group it (with_requests S) l' /\ WF l' /\ Phase l' /\ Joined it type false l l'
  end.

Lemma wait_entry it type b l l' :
  WF l' -> Phase l' -> Joined it type b l l' ->
  entry_ok type l (let l2 := update_group it (with_requests S) l' in
                   if owns it l2 then Granted it (update_group it (with_requests Nat.pred) l2) else Waits it l2).
Proof.
  intros Hwf Hph Hj. cbn zeta.
  assert (owns it (update_group it (with_requests S) l') = b) as ->.
  { unfold owns. rewrite group_of_update, Nat.eqb_refl by done.
    by destruct Hj as [_ [[_ ->] | (_ & g & _ & -> & _ & <-)] _]. }
  destruct b; [|by exists l']. cbn. by rewrite requests_back.
Qed.

Lemma joined_refl g l : WF l -> g ∈ readers_queue l -> Joined (gid g) Read (ownership g) l l.
Proof.
  intros Hwf Hg. split; [done|right|done]. split; [done|]. exists g.
  assert (group_of (gid g) l = Some g) as Hgo by (apply group_of_elem; [done|]; split; [done | apply elem_of_app; by left]).
  split_and!; [done..| |done]. pose proof (wf_readers _ Hwf) as Hr. rewrite Forall_forall in Hr. auto.
Qed.

(** A request that finds the lock taken. *)
Lemma join_taken type l it l' :
  WF l -> Phase l -> (rdlock_owner l <> None \/ wrlock_owner l <> None) -> join_group type l = (it, l') ->
  WF l' /\ Phase l' /\ (exists b, Joined it type b l l') /\ (rdlock_owner l' <> None \/ wrlock_owner l' <> None).
Proof.
  intros Hwf Hph Htaken Hjoin.
  assert (forall it l', join_group type l = (it, l') -> WF l' /\ exists b, Joined it type b l l') as Hsound.
  { intros it0 l0. unfold join_group. destruct type.
    - destruct (last (readers_queue l)) as [back|] eqn:Eb; [destruct (_ || _)|]; intros [= <- <-].
      + split; [done|]. exists (ownership back). apply joined_refl; [done|]. by apply last_Some_elem_of.
      + split; [by apply emplace_wf | exists false; by apply emplace_joined].
      + split; [by apply emplace_wf | exists false; by apply emplace_joined].
    - intros [= <- <-]. split; [by apply emplace_wf | exists false; by apply emplace_joined]. }
  destruct (Hsound _ _ Hjoin) as [Hwf' Hj]. split; [done|]. clear Hsound Hwf'. split; [|split; [exact Hj|]].
  - clear Hj. destruct Hph as [qs n|own r rest ws qs n Hown Hrest Hlen Hws Hempty|rs w ws qs n Hown Hws Hrs Hlen];
      [by destruct Htaken| |]; unfold join_group in Hjoin; destruct type; cbn in Hjoin.
    + destruct rest as [|x [|]]; cbn in Hlen; [| |lia].
      * rewrite last_snoc in Hjoin. assert (owner r) as Hr by (apply Forall_app in Hown as [_ Hr]; by inversion Hr).
        rewrite Hr in Hjoin. destruct ws as [|w ws]; cbn in Hjoin; injection Hjoin as <- <-; [by apply Reading|].
        unfold emplace_group. cbn. rewrite <- app_assoc. cbn. apply Reading; [done | by repeat constructor | done..].
      * rewrite cons_middle, app_assoc, last_snoc in Hjoin. assert (nonowner x) as Hx by by inversion Hrest.
        rewrite Hx in Hjoin. injection Hjoin as <- <-. rewrite <- app_assoc. by apply Reading.
    + injection Hjoin as <- <-. unfold emplace_group. cbn. apply Reading; try done;
        [apply Forall_app_2; [done | by repeat constructor] | by destruct ws].
    + destruct rs as [|x [|]]; cbn in Hlen, Hjoin; [| |lia].
      * injection Hjoin as <- <-. unfold emplace_group. cbn. apply Writing; try done. by repeat constructor.
      * assert (nonowner x) as Hx by by inversion Hrs. rewrite Hx in Hjoin. injection Hjoin as <- <-. by apply Writing.
    + injection Hjoin as <- <-. unfold emplace_group. cbn. apply Writing; try done.
      apply Forall_app_2; [done | by repeat constructor].
  - unfold join_group in Hjoin. repeat case_match; injection Hjoin as <- <-; exact Htaken.
Qed.

Lemma enter_sound type l : WF l -> Phase l -> entry_ok type l (enter type l).
Proof.
  intros Hwf Hph. unfold enter. destruct (join_group type l) as [it l'] eqn:Ej.
  destruct (decide (rdlock_owner l = None /\ wrlock_owner l = None)) as [[Hr Hw]|Htaken].
  - inversion Hph; subst; cbn in Hr, Hw; [|done..].
    pose proof (emplace_joined type _ Hwf) as Hj. pose proof (emplace_wf type _ Hwf) as Hwf'.
    assert ((it, l') = (n, emplace_group type (Build_RWLockImpl [] [] None None qs n))) as [= -> ->]
      by (rewrite <- Ej; by destruct type). clear Ej. cbn.
    split_and!.
    + apply wf_update; [done|]. destruct type; by apply wf_owners.
    + unfold grantOwnership, update_group, update. destruct type; cbn; rewrite Nat.eqb_refl.
      * apply (Reading [] (with_ownership {| gid := n; gtype := Read; requests := 0; ownership := false |}) []);
          try done; [by repeat constructor | cbn; lia].
      * by apply (Writing [] (with_ownership {| gid := n; gtype := Write; requests := 0; ownership := false |}) []); cbn; try lia.
    + apply grant_joined; [done|]. destruct Hj as [H1 H2 H3]. destruct type; by split.
  - destruct (join_taken type l it l' Hwf Hph) as (Hwf' & Hph' & [b Hj] & Ht); [|done|].
    { destruct (rdlock_owner l), (wrlock_owner l); auto. }
    pose proof (wait_entry _ _ _ _ _ Hwf' Hph' Hj) as He. cbn zeta in He |- *.
    destruct (rdlock_owner l'), (wrlock_owner l'); [done..|by destruct Ht].
Qed.

(** * The invariant of the system *)

(** The requests that refer to a group. *)
Definition refs (ws : list Waiter) (hs : list Holder) (i : nat) : nat :=
  count_if (fun h => h_group h =? i)%nat hs + count_if (fun w => w_group w =? i)%nat ws.

Record Groups (l : RWLockImpl) (ws : list Waiter) (hs : list Holder) : Prop := {
  inv_wf : WF l;
  inv_phase : Phase l;
  inv_requests i g : group_of i l = Some g ->
    requests g = refs ws hs i /\ (0 < refs ws hs i)%nat /\ (gtype g = Write -> refs ws hs i = 1%nat);
  inv_holders h : h ∈ hs -> exists g, group_of (h_group h) l = Some g /\ owner g;
  inv_waiting w : w ∈ ws -> exists g, group_of (w_group w) l = Some g /\ gtype g = w_type w }.

(** The query of each holder is listed, with the number of its holders. *)
Definition listed (n : nat) : option nat := if (n =? 0)%nat then None else Some n.

Definition Queries (l : RWLockImpl) (hs : list Holder) : Prop :=
  forall q, q <> NO_QUERY -> owner_queries l !! q = listed (count_if (fun h => bool_decide (h_query h = q)) hs).

Record Inv (s : System) : Prop := {
  inv_groups : Groups (lock s) (waiting s) (holders s);
  inv_queries : Queries (lock s) (holders s) }.

Lemma refs_pos ws hs i :
  (0 < refs ws hs i)%nat <-> (exists h, h ∈ hs /\ h_group h = i) \/ (exists w, w ∈ ws /\ w_group w = i).
Proof.
  unfold refs. setoid_rewrite <- Nat.eqb_eq. rewrite <- !count_if_pos. lia.
Qed.

Lemma groups_queries qs l ws hs : Groups l ws hs -> Groups (set_queries qs l) ws hs.
Proof. intros [[? ? ? ?] Hp Hr Hh Hw]. split; [done | by apply phase_queries | exact Hr | exact Hh | exact Hw]. Qed.

Lemma refs_absent it l ws hs : Groups l ws hs -> group_of it l = None -> refs ws hs it = 0%nat.
Proof.
  intros [_ _ _ HH HW] Hn. destruct (decide (refs ws hs it = 0%nat)) as [|Hne]; [done|].
  assert (0 < refs ws hs it)%nat as [(h & Hh & <-) | (w & Hw & <-)]%refs_pos by lia.
  - apply HH in Hh as (g & Hg & _). congruence.
  - apply HW in Hw as (g & Hg & _). congruence.
Qed.

(** A group that gets one request more. *)
Lemma groups_add it type b l l1 ws hs ws' hs' :
  Groups l ws hs -> WF l1 -> Phase l1 -> Joined it type b l l1 ->
  (forall i, refs ws' hs' i = (if (i =? it)%nat then 1 else 0) + refs ws hs i)%nat ->
  (forall h, h ∈ hs' -> h ∈ hs \/ h_group h = it /\ b = true) ->
  (forall w, w ∈ ws' -> w ∈ ws \/ w_group w = it /\ w_type w = type) ->
  Groups (update_group it (with_requests S) l1) ws' hs'.
Proof.
  intros HG Hwf Hph [Ho Hj Hq] Hrefs Hhs Hws. pose proof HG as [_ _ HR HH HW].
  pose proof (refs_absent it _ _ _ HG) as Hzero.
  assert (exists g, group_of it l1 = Some g /\ gtype g = type /\ ownership g = b /\ requests g = refs ws hs it /\
    (type = Write -> refs ws hs it = 0%nat) /\ forall g0, group_of it l = Some g0 -> g0 = g) as (g & Hg & Ht & Hb & Hreq & Hw & Hold).
  { destruct Hj as [[Hn Hs] | (-> & g & Hg & Hs & Hgt & Hb)]; rewrite Hs; eexists; split; [done| |done|].
    - rewrite (Hzero Hn). split_and!; try done. intros g0. by rewrite Hn.
    - split_and!; try done; [by apply HR in Hg as [? _]|]. intros g0. rewrite Hg. by intros [= ->]. }
  assert (forall i g', group_of i l = Some g' -> exists g'', group_of i (update_group it (with_requests S) l1) = Some g'' /\
    gtype g'' = gtype g' /\ (owner g' -> owner g'')) as Hkeep.
  { intros i g' Hg'. rewrite group_of_update by done. destruct (i =? it)%nat eqn:E.
    - apply Nat.eqb_eq in E as ->. rewrite Hg. rewrite (Hold _ Hg'). eexists. done.
    - apply Nat.eqb_neq in E. rewrite Ho, Hg' by done. eexists. done. }
  split; [by apply wf_update | by apply phase_requests | | |].
  - intros i g'. rewrite group_of_update, Hrefs by done. destruct (i =? it)%nat eqn:E.
    + apply Nat.eqb_eq in E as ->. rewrite Hg. intros [= <-]. cbn. rewrite Hreq, Ht.
      split_and!; [done | lia | intros HW'; rewrite (Hw HW'); lia].
    + apply Nat.eqb_neq in E. rewrite Ho by done. destruct (group_of i l) eqn:El; [|done]. intros [= <-]. by apply HR.
  - intros h Hh. destruct (Hhs _ Hh) as [Hin | [-> ->]].
    + apply HH in Hin as (g' & Hg' & Hown). destruct (Hkeep _ _ Hg') as (g'' & ? & _ & ?). eauto.
    + rewrite group_of_update, Nat.eqb_refl, Hg by done. by eexists.
  - intros w Hin. destruct (Hws _ Hin) as [Hin' | [-> ->]].
    + apply HW in Hin' as (g' & Hg' & Htg). destruct (Hkeep _ _ Hg') as (g'' & ? & ? & _). exists g''. split; [done | congruence].
    + rewrite group_of_update, Nat.eqb_refl, Hg by done. by eexists.
Qed.

(** A group that loses a request, and with the last one the lock. *)
Lemma groups_remove it l l2 ws hs ws' hs' :
  let l1 := update_group it (with_requests Nat.pred) l in
  Groups l ws hs -> (0 < refs ws hs it)%nat ->
  (forall i, refs ws hs i = (if (i =? it)%nat then 1 else 0) + refs ws' hs' i)%nat ->
  ws' ⊆ ws -> hs' ⊆ hs ->
  WF l2 -> Phase l2 -> Later (if (requests_of it l1 =? 0)%nat then Some it else None) l1 l2 ->
  Groups l2 ws' hs'.
Proof.
  intros l1 HG Hpos Hrefs Hws Hhs Hwf Hph [Hk Hgone _ _]. pose proof HG as [_ _ HR HH HW].
  assert (requests_of it l1 = refs ws' hs' it) as Hreq.
  { destruct (group_of it l) as [g|] eqn:Eg; [|rewrite (refs_absent _ _ _ _ HG Eg) in Hpos; lia].
    unfold requests_of, l1. rewrite group_of_update, Nat.eqb_refl, Eg by done. cbn.
    rewrite (proj1 (HR _ _ Eg)), Hrefs, Nat.eqb_refl. done. }
  rewrite Hreq in *.
  assert (forall i, (0 < refs ws' hs' i)%nat -> option_Forall2 raised (group_of i l1) (group_of i l2)) as Hkeep.
  { intros i Hi. apply Hk. destruct (refs ws' hs' it =? 0)%nat eqn:E; [|done]. apply Nat.eqb_eq in E. intros [= ->]. lia. }
  assert (forall i g, group_of i l = Some g -> (0 < refs ws' hs' i)%nat ->
    exists g2, group_of i l2 = Some g2 /\ gtype g2 = gtype g /\ (owner g -> owner g2)) as Hold.
  { intros i g Hg Hi. specialize (Hkeep i Hi). unfold l1 in Hkeep. rewrite group_of_update, Hg in Hkeep by done.
    inversion Hkeep as [? g2 (Ht & _ & Ho)|]; subst. exists g2.
    destruct (i =? it)%nat; split_and!; done. }
  split; [done | done | | |].
  - intros i g2 Hg2.
    assert (0 < refs ws' hs' i)%nat as Hi.
    { destruct (decide (i = it)) as [->|Hne].
      - destruct (refs ws' hs' it =? 0)%nat eqn:E; [|apply Nat.eqb_neq in E; lia]. rewrite Hgone in Hg2; done.
      - assert (option_Forall2 raised (group_of i l1) (group_of i l2)) as Hr by (apply Hk; case_match; congruence).
        rewrite Hg2 in Hr. unfold l1 in Hr. rewrite group_of_update in Hr by done. inversion Hr as [g0 ? _ Hg0|]; subst.
        destruct (group_of i l) eqn:El; [|done]. pose proof (Hrefs i) as Hri. apply Nat.eqb_neq in Hne. rewrite Hne in Hri.
        apply HR in El as (_ & ? & _). lia. }
    specialize (Hkeep i Hi). rewrite Hg2 in Hkeep. unfold l1 in Hkeep. rewrite group_of_update in Hkeep by done.
    inversion Hkeep as [g0 ? (Ht & Hq & _) Hg0|]; subst. destruct (group_of i l) as [g|] eqn:El; [|done].
    destruct (HR _ _ El) as (Hrg & _ & Hw). pose proof (Hrefs i) as Hri.
    destruct (i =? it)%nat; injection Hg0 as Hg0; subst g0; cbn in *; rewrite Hq, Ht, Hrg; (split_and!; [lia | done | intros HT; specialize (Hw HT); lia]).
  - intros h Hh. destruct (HH h) as (g & Hg & Ho); [by apply Hhs|].
    destruct (Hold _ _ Hg) as (g2 & ? & _ & ?); [apply refs_pos; eauto | eauto].
  - intros w Hw. destruct (HW w) as (g & Hg & Ht); [by apply Hws|].
    destruct (Hold _ _ Hg) as (g2 & ? & ? & _); [apply refs_pos; eauto | exists g2; split; [done | congruence]].
Qed.

(** ** The holders and the listed queries *)

Lemma queries_ext l l' hs : owner_queries l' = owner_queries l -> Queries l hs -> Queries l' hs.
Proof. intros He Hq q. rewrite He. apply Hq. Qed.

Lemma own_query_groups q l ws hs : Groups l ws hs -> Groups (own_query q l) ws hs.
Proof. unfold own_query. case_match; [done | apply groups_queries]. Qed.

Lemma own_query_list h hs l : Queries l hs -> Queries (own_query (h_query h) l) (h :: hs).
Proof.
  intros Hq q Hne. unfold own_query. rewrite count_if_cons. destruct (decide (h_query h = q)) as [He|He].
  - rewrite He, (bool_decide_eq_false_2 (q = NO_QUERY)), (bool_decide_eq_true_2 (q = q)) by done.
    cbn. rewrite lookup_insert_eq, Hq by done. f_equal. unfold listed. by case_match eqn:E; [apply Nat.eqb_eq in E as -> | ].
  - rewrite (bool_decide_eq_false_2 (h_query h = q)) by done. case_match; cbn; [by apply Hq|].
    rewrite lookup_insert_ne by done. by apply Hq.
Qed.

Lemma release_query_list h hs1 hs2 l :
  Queries l (hs1 ++ h :: hs2) -> Queries (release_query (h_query h) l) (hs1 ++ hs2).
Proof.
  intros Hq q Hne. pose proof (Hq q Hne) as Hl. rewrite count_if_middle in Hl. unfold release_query.
  destruct (decide (h_query h = q)) as [He|He].
  - rewrite He, (bool_decide_eq_false_2 (q = NO_QUERY)) by done. rewrite He, (bool_decide_eq_true_2 (q = q)) in Hl by done.
    cbn in Hl. rewrite Hl. cbn. rewrite Nat.sub_0_r. set (n := count_if _ _) in *. unfold listed.
    destruct (n =? 0)%nat; [apply lookup_delete_eq | apply lookup_insert_eq].
  - rewrite (bool_decide_eq_false_2 (h_query h = q)) in Hl by done. cbn in Hl.
    repeat case_match; cbn; rewrite ?lookup_delete_ne, ?lookup_insert_ne by done; done.
Qed.

Lemma release_query_groups q l ws hs : Groups l ws hs -> Groups (release_query q l) ws hs.
Proof. unfold release_query. repeat case_match; try done; apply groups_queries. Qed.

(** ** Giving a request up *)

Lemma owner_consistent it l g :
  WF l -> Phase l -> group_of it l = Some g -> owner g -> consistent g l = true.
Proof.
  intros Hwf Hph Hg Ho. destruct (group_of_queue _ _ _ Hwf Hg) as [<- Hin]. unfold consistent. rewrite Ho. cbn.
  destruct Hph as [qs n|own r rest ws qs n Hown Hrest Hlen Hws Hempty|rs w ws qs n Hown Hws Hrs Hlen].
  - destruct (gtype g); by apply elem_of_nil in Hin.
  - destruct (gtype g); [done|]. by apply nonowner_not in Hin.
  - destruct (gtype g); [by apply nonowner_not in Hin|]. cbn in *.
    apply elem_of_cons in Hin as [->|Hin]; [|by apply nonowner_not in Hin].
    by rewrite bool_decide_eq_true_2.
Qed.

Lemma rollback_sound it l g :
  WF l -> Phase l -> group_of it l = Some g -> owner g ->
  let l' := rollback it (gtype g) l in
  WF l' /\ Phase l' /\ Later (if (requests_of it l =? 0)%nat then Some it else None) l l'.
Proof.
  intros Hwf Hph Hg Ho. unfold rollback. destruct (_ =? 0)%nat; [|split_and!; [done | done | apply later_refl]].
  destruct (drop_sound it l g Hwf Hg). split_and!; [done | by apply drop_phase | done].
Qed.

Lemma timed_out_sound it l g :
  WF l -> Phase l -> group_of it l = Some g -> nonowner g ->
  let l1 := update_group it (with_requests Nat.pred) l in
  let l' := getLock_timed_out it (gtype g) l in
  WF l' /\ Phase l' /\ Later (if (requests_of it l1 =? 0)%nat then Some it else None) l1 l'.
Proof.
  intros Hwf Hph Hg Ho l1 l'.
  enough (WF l' /\ Later (if (requests_of it l1 =? 0)%nat then Some it else None) l1 l') as [? ?]
    by (split_and!; [done | by apply timed_out_phase | done]).
  assert (WF l1) as Hwf1 by by apply wf_update.
  assert (group_of it l1 = Some (with_requests Nat.pred g)) as Hg1
    by by unfold l1; rewrite group_of_update, Nat.eqb_refl, Hg.
  unfold l', getLock_timed_out. fold l1.
  set (l2 := if (requests_of it l1 =? 0)%nat then _ else _).
  assert (WF l2 /\ Later (if (requests_of it l1 =? 0)%nat then Some it else None) l1 l2) as [Hw2 Hl2].
  { unfold l2. destruct (_ =? 0)%nat; [|split; [done | apply later_refl]].
    split; [by apply wf_erase | exact (later_erase it l1 _ Hwf1 Hg1)]. }
  destruct (_ && _); [|done]. destruct (grant_all_sound l2 Hw2). split; [done | by eapply later_trans].
Qed.

(** ** Every step *)

Lemma refs_holder ws h hs i : refs ws (h :: hs) i = ((if (i =? h_group h)%nat then 1 else 0) + refs ws hs i)%nat.
Proof. unfold refs. rewrite count_if_cons, Nat.eqb_sym. lia. Qed.

Lemma refs_waiter w ws hs i : refs (w :: ws) hs i = ((if (i =? w_group w)%nat then 1 else 0) + refs ws hs i)%nat.
Proof. unfold refs. rewrite count_if_cons, Nat.eqb_sym. lia. Qed.

Lemma refs_holders_middle ws hs1 h hs2 i :
  refs ws (hs1 ++ h :: hs2) i = ((if (i =? h_group h)%nat then 1 else 0) + refs ws (hs1 ++ hs2) i)%nat.
Proof. unfold refs. rewrite count_if_middle, Nat.eqb_sym. lia. Qed.

Lemma refs_waiting_middle ws1 w ws2 hs i :
  refs (ws1 ++ w :: ws2) hs i = ((if (i =? w_group w)%nat then 1 else 0) + refs (ws1 ++ ws2) hs i)%nat.
Proof. unfold refs. rewrite count_if_middle, Nat.eqb_sym. lia. Qed.

Lemma persist_inv it type q l l1 ws hs :
  Groups l ws hs -> Queries l hs -> WF l1 -> Phase l1 -> Joined it type true l l1 ->
  Inv {| lock := persist it q l1; waiting := ws; holders := {| h_group := it; h_query := q |} :: hs |}.
Proof.
  intros HG HQ Hwf Hph HJ. split; cbn.
  - unfold persist, bindWith. replace (update_group it (with_requests S) (own_query q l1))
      with (own_query q (update_group it (with_requests S) l1)) by (unfold own_query; by case_match).
    apply own_query_groups. eapply groups_add; try done.
    + intros i. by rewrite refs_holder.
    + intros h. rewrite elem_of_cons. intros [->|?]; [by right | by left].
    + by left.
  - apply (queries_ext (own_query q l1)); [done|]. apply (own_query_list {| h_group := it; h_query := q |}).
    eapply queries_ext; [|exact HQ]. apply HJ.
Qed.

Lemma getLock_inv type q timed l ws hs :
  Groups l ws hs -> Queries l hs ->
  match getLock type q l with
  | Acquired it l' => Inv {| lock := l'; waiting := ws; holders := {| h_group := it; h_query := q |} :: hs |}
  | Waiting it l' =>
      Inv {| lock := l'; holders := hs;
             waiting := {| w_group := it; w_type := type; w_query := q; w_timed := timed |} :: ws |}
  | Refused => True
  | EndDereferenced => False
  end.
Proof.
  intros HG HQ. pose proof HG as [Hwf Hph _ HH _]. unfold getLock.
  destruct (if bool_decide (q = NO_QUERY) then None else owner_queries l !! q) as [n|] eqn:Eq.
  - case_bool_decide as Hne; [done|]. destruct (bool_decide (wrlock_owner l = None)) eqn:Ew; [|done].
    apply bool_decide_eq_true in Ew. destruct type; [|done]. cbn.
    assert (exists h, h ∈ hs) as [h Hh].
    { rewrite (HQ q Hne) in Eq. unfold listed in Eq. case_match eqn:E; [done|]. apply Nat.eqb_neq in E.
      destruct hs as [|h ?]; [done | exists h; left]. }
    apply HH in Hh as (g & Hg & _). apply group_of_elem in Hg as [_ Hg]; [|done].
    pose proof (fun g => joined_refl g l Hwf) as Hj.
    assert (own_query q l = set_queries (<[q:=S n]> (owner_queries l)) l) as Hown
      by (unfold own_query; rewrite bool_decide_eq_false_2, Eq by done; done).
    rewrite <- Hown. destruct Hph as [qs m|own r rest ws' qs m Hown' Hrest Hlen Hws Hempty|]; cbn in Ew; [by apply elem_of_nil in Hg| |done].
    assert (owner r) as Hr by (apply Forall_app in Hown' as [_ Hr]; by inversion Hr).
    eapply (persist_inv (gid r) Read); try done; [by constructor|]. rewrite <- Hr. apply Hj. apply elem_of_app. right. left.
  - pose proof (enter_sound type l Hwf Hph) as He. destruct (enter type l) as [it l1|it l2].
    + destruct He as (Hwf1 & Hph1 & HJ). by eapply persist_inv.
    + destruct He as (l1 & -> & Hwf1 & Hph1 & HJ). split; cbn.
      * eapply groups_add; try done; [intros i; by rewrite refs_waiter | by left|].
        intros w. rewrite elem_of_cons. intros [->|?]; [by right | by left].
      * eapply queries_ext; [|exact HQ]. apply HJ.
Qed.

Lemma joined_owner it type l l1 :
  Joined it type true l l1 -> exists g, group_of it l1 = Some g /\ gtype g = type /\ owner g.
Proof. intros [_ [[_ Hg] | (-> & g & _ & Hg & Ht & Ho)] _]; eexists; (split; [exact Hg|]); done. Qed.

Lemma throws_inv type q l l' ws hs :
  Groups l ws hs -> Queries l hs -> getLock_throws type q l = Some l' ->
  Inv {| lock := l'; waiting := ws; holders := hs |}.
Proof.
  intros HG HQ Ht. pose proof HG as [Hwf Hph _ _ _]. unfold getLock_throws in Ht. case_match; [done|].
  pose proof (enter_sound type l Hwf Hph) as He. destruct (enter type l) as [it l1|]; [|done]. injection Ht as <-.
  destruct He as (Hwf1 & Hph1 & HJ). destruct (joined_owner _ _ _ _ HJ) as (g & Hg & <- & Ho).
  destruct (rollback_sound it l1 g Hwf1 Hph1 Hg Ho) as (Hwf2 & Hph2 & Hl2). split; cbn.
  - pose (h := {| h_group := it; h_query := q |}).
    assert (Groups (update_group it (with_requests S) l1) ws (h :: hs)) as HG1.
    { eapply groups_add; try done; [intros i; by rewrite refs_holder | | by left].
      intros h'. rewrite elem_of_cons. intros [->|?]; [by right | by left]. }
    eapply (groups_remove it); [exact HG1 | | | done | | done | done |].
    + rewrite refs_holder. cbn. rewrite Nat.eqb_refl. lia.
    + intros i. by rewrite refs_holder.
    + by apply list_subseteq_cons.
    + by rewrite requests_back.
  - eapply queries_ext; [|exact HQ]. rewrite (later_queries _ _ _ Hl2). apply HJ.
Qed.

Lemma group_requests it l g :
  group_of it l = Some g ->
  group_of it (update_group it (with_requests Nat.pred) l) = Some (with_requests Nat.pred g).
Proof. intros Hg. by rewrite group_of_update, Nat.eqb_refl, Hg. Qed.

Lemma owns_owner it l g : group_of it l = Some g -> owns it l = ownership g.
Proof. unfold owns. by intros ->. Qed.

(** A waiter gives up: its request goes, and its group with the last one. *)
Lemma waiter_leaves_inv l l' ws1 w ws2 hs :
  let l1 := update_group (w_group w) (with_requests Nat.pred) l in
  Groups l (ws1 ++ w :: ws2) hs -> Queries l hs ->
  WF l' /\ Phase l' /\ Later (if (requests_of (w_group w) l1 =? 0)%nat then Some (w_group w) else None) l1 l' ->
  Inv {| lock := l'; waiting := ws1 ++ ws2; holders := hs |}.
Proof.
  intros l1 HG HQ (Hwf' & Hph' & Hl). split; cbn.
  - eapply (groups_remove (w_group w)); [exact HG | | | apply middle_subseteq | done | done | done | exact Hl].
    + rewrite refs_waiting_middle, Nat.eqb_refl. lia.
    + intros i. apply refs_waiting_middle.
  - eapply queries_ext; [|exact HQ]. by rewrite (later_queries _ _ _ Hl).
Qed.

Lemma update_fixed it f q : (forall g, g ∈ q -> gid g = it -> f g = g) -> update it f q = q.
Proof.
  intros Hf. unfold update. rewrite <- (map_id q) at 2. apply map_ext_in. intros g Hin%list_elem_of_In.
  case_match eqn:E; [|done]. apply Nat.eqb_eq in E. auto.
Qed.

Lemma requests_forth it l ws hs :
  Groups l ws hs -> update_group it (with_requests S) (update_group it (with_requests Nat.pred) l) = l.
Proof.
  intros [Hwf _ HR _ _].
  assert (forall g, g ∈ groups l -> gid g = it -> with_requests S (with_requests Nat.pred g) = g) as Hfix.
  { intros g Hin He. destruct (HR it g) as (Hreq & Hpos & _); [by apply group_of_elem|].
    destruct g as [i t r o]. cbn in *. subst r. unfold with_requests. cbn. f_equal. lia. }
  destruct l. unfold update_group, groups in *. cbn in *. rewrite !update_update by done.
  unfold set_writers, set_readers. cbn.
  f_equal; (apply update_fixed; intros g Hin; apply Hfix, elem_of_app; auto).
Qed.

Lemma woken_inv l ws1 w ws2 hs :
  Groups l (ws1 ++ w :: ws2) hs -> Queries l hs -> owns (w_group w) l = true ->
  Inv {| lock := getLock_woken (w_group w) (w_query w) l; waiting := ws1 ++ ws2;
         holders := {| h_group := w_group w; h_query := w_query w |} :: hs |}.
Proof.
  intros HG HQ Hown. pose (h := {| h_group := w_group w; h_query := w_query w |}).
  assert (getLock_woken (w_group w) (w_query w) l = own_query (w_query w) l) as ->.
  { rewrite <- (requests_forth (w_group w) _ _ _ HG) at 2. unfold getLock_woken, persist, own_query. by case_match. }
  split; cbn; [apply own_query_groups | by apply (own_query_list h)].
  pose proof HG as [Hwf Hph HR HH HW]. split; [done | done | | |].
  - intros i g Hg. rewrite refs_holder. cbn. rewrite <- refs_waiting_middle. by apply HR.
  - intros h'. rewrite elem_of_cons. intros [->|Hh]; [|by apply HH]. cbn.
    destruct (HW w) as (g & Hg & _); [apply elem_of_app; right; left|].
    rewrite (owns_owner _ _ _ Hg) in Hown. eauto.
  - intros w' Hw. apply HW. by eapply middle_subseteq.
Qed.

Lemma unlock_inv l ws hs1 h hs2 :
  Groups l ws (hs1 ++ h :: hs2) -> Queries l (hs1 ++ h :: hs2) ->
  Inv {| lock := unlock (h_group h) (h_query h) l; waiting := ws; holders := hs1 ++ hs2 |}.
Proof.
  intros HG HQ. pose proof HG as [Hwf Hph _ HH _].
  destruct (HH h) as (g & Hg & Ho); [apply elem_of_app; right; left|].
  unfold unlock. rewrite Hg, (owner_consistent _ _ _ Hwf Hph Hg Ho). cbn [negb].
  apply (release_query_groups (h_query h)) in HG. apply release_query_list in HQ.
  assert (group_of (h_group h) (release_query (h_query h) l) = Some g) as Hg'
    by (rewrite <- Hg; unfold release_query; by repeat case_match).
  clear Hwf Hph HH Hg. set (l0 := release_query _ _) in *. pose proof HG as [Hwf Hph _ _ _].
  destruct (rollback_sound (h_group h) (update_group (h_group h) (with_requests Nat.pred) l0) (with_requests Nat.pred g))
    as (Hwf2 & Hph2 & Hl2); [by apply wf_update | by apply phase_requests | by apply group_requests | done|].
  split; cbn.
  - eapply (groups_remove (h_group h)); [exact HG | | | done | apply middle_subseteq | exact Hwf2 | exact Hph2 | exact Hl2].
    + rewrite refs_holders_middle, Nat.eqb_refl. lia.
    + intros i. apply refs_holders_middle.
  - eapply queries_ext; [|exact HQ]. exact (later_queries _ _ _ Hl2).
Qed.

Lemma step_inv s s' : step s s' -> Inv s -> Inv s'.
Proof.
  intros Hstep [HG HQ]. pose proof HG as [Hwf Hph _ HH HW].
  destruct Hstep as [type q it l s Hget|type q timed it l s Hget|type q l s Hget|ws1 w ws2 s Hs Hown
    |ws1 w ws2 s Hs Hown Hq|ws1 w ws2 s Hs Htimed Hown|hs1 h hs2 s Hs].
  - pose proof (getLock_inv type q false _ _ _ HG HQ) as H. by rewrite Hget in H.
  - pose proof (getLock_inv type q timed _ _ _ HG HQ) as H. by rewrite Hget in H.
  - by eapply throws_inv.
  - rewrite Hs in HG. by apply woken_inv.
  - rewrite Hs in HG, HW. destruct (HW w) as (g & Hg & Ht); [apply elem_of_app; right; left|].
    rewrite (owns_owner _ _ _ Hg) in Hown. eapply waiter_leaves_inv; [exact HG | exact HQ|]. rewrite <- Ht.
    apply (rollback_sound _ _ (with_requests Nat.pred g)); [by apply wf_update | by apply phase_requests | by apply group_requests | done].
  - rewrite Hs in HG, HW. destruct (HW w) as (g & Hg & Ht); [apply elem_of_app; right; left|].
    rewrite (owns_owner _ _ _ Hg) in Hown. eapply waiter_leaves_inv; [exact HG | exact HQ|]. rewrite <- Ht.
    by apply timed_out_sound.
  - rewrite Hs in HG, HQ. by apply unlock_inv.
Qed.

Lemma init_inv : Inv init.
Proof.
  split; [split|].
  - split; constructor.
  - constructor.
  - done.
  - intros h Hh. by apply elem_of_nil in Hh.
  - intros w Hw. by apply elem_of_nil in Hw.
  - intros q Hq. apply lookup_empty.
Qed.

Lemma reachable_inv s : reachable s -> Inv s.
Proof. intros Hr. unfold reachable in Hr. apply (rtc_ind_r Inv init init_inv) in Hr; [done|]. intros y z _ Hyz Hy. by eapply step_inv. Qed.

(** * What the lock promises *)

Definition holder_type (s : System) (h : Holder) : option LockType := gtype <$> group_of (h_group h) (lock s).

(** Owners of different types never meet, and a writer is the only request of its group. *)
Lemma writer_alone s h h' :
  Inv s -> h ∈ holders s -> h' ∈ holders s -> holder_type s h = Some Write -> h_group h' = h_group h.
Proof.
  intros [[Hwf Hph _ HH _] _] Hh Hh' Ht. unfold holder_type in Ht.
  destruct (HH _ Hh) as (g & Hg & Ho). destruct (HH _ Hh') as (g' & Hg' & Ho'). rewrite Hg in Ht. injection Ht as Ht.
  destruct (group_of_queue _ _ _ Hwf Hg) as [<- Hin]. rewrite Ht in Hin.
  apply group_of_elem in Hg' as [<- Hin']; [|done]. unfold groups in Hin'.
  destruct Hph as [qs n|own r rest ws qs n Hown Hrest Hlen Hws Hempty|rs w ws qs n Hown Hws Hrs Hlen]; cbn in *.
  - by apply elem_of_nil in Hin.
  - by apply nonowner_not in Hin.
  - apply elem_of_cons in Hin as [->|Hin]; [|by apply nonowner_not in Hin].
    apply elem_of_app in Hin' as [Hin'|Hin']; [by apply nonowner_not in Hin'|].
    apply elem_of_cons in Hin' as [->|Hin']; [done | by apply nonowner_not in Hin'].
Qed.

(** C2: In every state that threads can bring a lock into, whatever the order of
    their critical sections, a holder of the exclusive lock is the only holder;
    [unlock] finds its group an owner and the state consistent, so its assertions
    hold; the fast path of [getLock] never dereferences [readers_queue.end()]; and
    [grantOwnershipToAllReaders] has at most one group to make an owner. *)
Theorem rwlock_exclusive s :
  reachable s ->
  (forall h, h ∈ holders s -> holder_type s h = Some Write -> holders s = [h]) /\
  (forall h, h ∈ holders s -> exists g, group_of (h_group h) (lock s) = Some g /\ consistent g (lock s) = true) /\
  (forall type query, getLock type query (lock s) <> EndDereferenced) /\
  (count_if (fun g => negb (ownership g)) (readers_queue (lock s)) <= 1)%nat.
Proof.
  intros Hr. pose proof (reachable_inv s Hr) as HI. pose proof HI as [[Hwf Hph HR HH HW] HQ]. split_and!.
  - intros h Hh Ht.
    assert (length (holders s) <= 1)%nat as Hlen.
    { rewrite <- (count_if_all (fun h' => h_group h' =? h_group h)%nat)
        by (intros h' Hh'; apply Nat.eqb_eq; by eapply writer_alone).
      destruct (HH _ Hh) as (g & Hg & _). unfold holder_type in Ht. rewrite Hg in Ht. injection Ht as Ht.
      destruct (HR _ _ Hg) as (_ & _ & Hone). specialize (Hone Ht). unfold refs in Hone. lia. }
    destruct (holders s) as [|h0 [|]]; [by apply elem_of_nil in Hh | by apply list_elem_of_singleton in Hh as -> | cbn in Hlen; lia].
  - intros h Hh. destruct (HH _ Hh) as (g & Hg & Ho). exists g. split; [done | by eapply owner_consistent].
  - intros type q He. pose proof (getLock_inv type q false _ _ _ (inv_groups _ HI) HQ) as Hget. by rewrite He in Hget.
  - assert (forall q, Forall owner q -> count_if (fun g => negb (ownership g)) q = 0%nat) as Hzero.
    { intros q Hq. induction Hq as [|g q Hg _ IH]; [done|]. by rewrite count_if_cons, Hg, IH. }
    assert (forall q, count_if (fun g => negb (ownership g)) q <= length q)%nat as Hle
      by (intros q; apply List.filter_length_le).
    destruct Hph as [qs n|own r rest ws qs n Hown Hrest Hlen Hws Hempty|rs w ws qs n Hown Hws Hrs Hlen]; cbn.
    + unfold count_if. cbn. lia.
    + rewrite cons_middle, app_assoc. rewrite count_if_app, (Hzero _ Hown).
      specialize (Hle rest). lia.
    + specialize (Hle rs). lia.
Qed.

(** The steps that serve requests: a thread whose group owns the lock leaves its
    wait, and a holder unlocks. *)
Inductive serve : System -> System -> Prop :=
| serve_woken ws1 w ws2 s :
    waiting s = ws1 ++ w :: ws2 -> owns (w_group w) (lock s) = true ->
    serve s {| lock := getLock_woken (w_group w) (w_query w) (lock s); waiting := ws1 ++ ws2;
               holders := {| h_group := w_group w; h_query := w_query w |} :: holders s |}
| serve_unlock hs1 h hs2 s :
    holders s = hs1 ++ h :: hs2 ->
    serve s {| lock := unlock (h_group h) (h_query h) (lock s); waiting := waiting s; holders := hs1 ++ hs2 |}.

Lemma serve_step s s' : serve s s' -> step s s'.
Proof. intros []; [by apply step_woken | by apply step_unlock]. Qed.

Definition work (s : System) : nat := 2 * length (waiting s) + length (holders s).

Lemma serve_work s s' : serve s s' -> work s = S (work s').
Proof. intros [ws1 w ws2 s0 Hs _|hs1 h hs2 s0 Hs]; unfold work; cbn; rewrite Hs, !length_app; cbn; lia. Qed.

Lemma serve_chain n s s' : nsteps serve n s s' -> Inv s -> Inv s' /\ work s = (n + work s')%nat.
Proof.
  induction 1 as [s|n s1 s2 s3 H12 H23 IH]; intros HI; [done|].
  destruct IH as [HI3 Hw]; [by eapply step_inv; [apply serve_step|]|]. split; [done|].
  rewrite (serve_work _ _ H12), Hw. done.
Qed.

(** No lost wake-up: while there is a request, someone can be served. *)
Lemma serve_progress s : Inv s -> groups (lock s) <> [] -> exists s', serve s s'.
Proof.
  intros [[Hwf Hph HR HH HW] HQ] Hne.
  assert (exists g, g ∈ groups (lock s) /\ owner g) as (g & Hin & Ho).
  { destruct Hph as [qs n|own r rest ws qs n Hown Hrest Hlen Hws Hempty|rs w ws qs n Hown Hws Hrs Hlen]; [done|..].
    - exists r. split; [unfold groups; cbn; rewrite elem_of_app, elem_of_app; left; right; left|].
      apply Forall_app in Hown as [_ Hr]. by inversion Hr.
    - exists w. split; [apply elem_of_app; right; left | done]. }
  assert (group_of (gid g) (lock s) = Some g) as Hg by by apply group_of_elem.
  destruct (HR _ _ Hg) as (_ & [(h & Hh & _) | (w & Hw & Hwg)]%refs_pos & _).
  - apply list_elem_of_split in Hh as (hs1 & hs2 & Hs). eexists. by eapply serve_unlock.
  - apply list_elem_of_split in Hw as (ws1 & ws2 & Hs). eexists. eapply serve_woken; [exact Hs|].
    by rewrite Hwg, (owns_owner _ _ _ Hg).
Qed.

(** C8: Requests are served: from any reachable state, if holders unlock and
    threads whose group got ownership run, in any order, no more than
    [2 * waiting + holders] such steps are possible, and they only stop when
    nobody waits and the lock is free; no wake-up is lost and no request starves
    once requests stop coming. *)
Theorem rwlock_served s n s' :
  reachable s -> nsteps serve n s s' ->
  (n <= 2 * length (waiting s) + length (holders s))%nat /\
  ((exists s'', serve s' s'') \/
   (waiting s' = [] /\ holders s' = [] /\ readers_queue (lock s') = [] /\ writers_queue (lock s') = [] /\
    rdlock_owner (lock s') = None /\ wrlock_owner (lock s') = None /\
    n = (2 * length (waiting s) + length (holders s))%nat)).
Proof.
  intros Hr Hs. destruct (serve_chain n s s' Hs (reachable_inv s Hr)) as [HI Hw]. unfold work in Hw.
  split; [lia|]. destruct (groups (lock s')) as [|g gs] eqn:Eg; [right|left; apply serve_progress; [done | by rewrite Eg]].
  destruct HI as [[Hwf Hph HR HH HW] _].
  assert (forall i, group_of i (lock s') = None) as Hnone by (intros i; by rewrite group_of_find, Eg).
  assert (waiting s' = []) as Ew.
  { destruct (waiting s') as [|w]; [done|]. destruct (HW w) as (g & Hg & _); [left|]. by rewrite Hnone in Hg. }
  assert (holders s' = []) as Eh.
  { destruct (holders s') as [|h]; [done|]. destruct (HH h) as (g & Hg & _); [left|]. by rewrite Hnone in Hg. }
  rewrite Ew, Eh in *. cbn in Hw. unfold groups in Eg. apply app_eq_nil in Eg as [Er Ewr].
  split_and!; try done; [| |lia]; destruct Hph as [|own ? ? ? ? ? ?|]; try done; by destruct own.
Qed.

(** ** Phase fairness *)

(** A request to read that finds a writer in the queue waits. *)
Lemma enter_behind_writer l :
  WF l -> Phase l -> writers_queue l <> [] -> exists it l', enter Read l = Waits it l'.
Proof.
  intros Hwf Hph Hw. pose proof (enter_sound Read l Hwf Hph) as He.
  destruct (enter Read l) as [it l1|it l1] eqn:Ee; [exfalso | by eauto].
  destruct He as (Hwf1 & Hph1 & [_ Hj _]). unfold enter in Ee.
  assert (rdlock_owner l <> None \/ wrlock_owner l <> None) as Htaken by (destruct Hph; [done | by left | by right]).
  destruct (join_group Read l) as [it' l'] eqn:Ej.
  assert (owns it' (update_group it' (with_requests S) l') = false) as Hno.
  { unfold owns. rewrite group_of_update, Nat.eqb_refl by done. unfold join_group in Ej.
    destruct (writers_queue l) as [|w ws] eqn:Ew; [done|].
    assert (group_of (fresh_gid l) (emplace_group Read l) = Some (new_group Read l)) as Hnew.
    { destruct (emplace_joined Read l Hwf) as [_ [[_ ->] | (_ & g & Hg & _)] _]; [done|].
      rewrite group_of_find, (proj2 (find_group_None _ _)) in Hg; [done | by apply fresh_absent]. }
    destruct (last (readers_queue l)) as [back|] eqn:Eb; [|injection Ej as <- <-; by rewrite Hnew].
    destruct (ownership back) eqn:Eo; cbn in Ej; injection Ej as <- <-; [by rewrite Hnew|].
    rewrite (proj2 (group_of_elem (gid back) l back Hwf)); [exact Eo|]. split; [done|].
    apply elem_of_app. left. by apply last_Some_elem_of. }
  destruct (join_taken Read l it' l' Hwf Hph Htaken Ej) as (_ & _ & _ & Htaken'). rewrite Hno in Ee.
  destruct (rdlock_owner l'), (wrlock_owner l'); try done. by destruct Htaken'.
Qed.

Lemma drop_only_reader_eq r rest w ws qs n :
  NoDup (gid <$> r :: rest) ->
  dropOwnerGroupAndPassOwnership (gid r) Read (Build_RWLockImpl (r :: rest) (w :: ws) (Some (gid r)) None qs n) =
  grantOwnership (gid w) (Build_RWLockImpl rest (w :: ws) None (Some (gid w)) qs n).
Proof.
  intros Hnd. unfold dropOwnerGroupAndPassOwnership. pose proof (erase_middle [] r rest Hnd) as He. cbn in He |- *.
  rewrite (bool_decide_eq_true_2 (Some (gid r) = Some (gid r))) by done. cbn.
  unfold set_readers, set_owners. cbn. by rewrite He.
Qed.

Lemma drop_writer_eq x w ws qs n :
  NoDup (gid <$> w :: ws) ->
  dropOwnerGroupAndPassOwnership (gid w) Write (Build_RWLockImpl [x] (w :: ws) None (Some (gid w)) qs n) =
  grantOwnership (gid x) (Build_RWLockImpl [x] ws (Some (gid x)) None qs n).
Proof.
  intros Hnd. unfold dropOwnerGroupAndPassOwnership. pose proof (erase_middle [] w ws Hnd) as He. cbn in He |- *.
  unfold set_writers, set_owners. cbn. rewrite He. unfold grantOwnership, update_group, update, next_of. cbn.
  by rewrite !Nat.eqb_refl, andb_false_r.
Qed.

Lemma grant_owns it l g : group_of it l = Some g -> owns it (grantOwnership it l) = true.
Proof. intros Hg. unfold owns, grantOwnership. by rewrite group_of_update, Nat.eqb_refl, Hg. Qed.

(** Unlocking by the only request of a group drops the group. *)
Lemma unlock_last it q l g :
  WF l -> Phase l -> group_of it l = Some g -> owner g -> requests g = 1%nat ->
  unlock it q l =
  dropOwnerGroupAndPassOwnership it (gtype g) (update_group it (with_requests Nat.pred) (release_query q l)).
Proof.
  intros Hwf Hph Hg Ho Hreq. unfold unlock. rewrite Hg, (owner_consistent _ _ _ Hwf Hph Hg Ho). cbn [negb].
  unfold requests_of. rewrite group_of_update, Nat.eqb_refl by done.
  assert (group_of it (release_query q l) = Some g) as -> by (rewrite <- Hg; unfold release_query; by repeat case_match).
  cbn. by rewrite Hreq.
Qed.

Lemma drop_writer_grants it l g j x :
  WF l -> Phase l -> group_of it l = Some g -> owner g -> gtype g = Write ->
  group_of j l = Some x -> gtype x = Read ->
  owns j (dropOwnerGroupAndPassOwnership it Write l) = true.
Proof.
  intros Hwf Hph Hg Ho Ht Hx Htx. destruct (group_of_queue _ _ _ Hwf Hg) as [<- Hin].
  destruct (group_of_queue _ _ _ Hwf Hx) as [<- Hinx]. rewrite Ht in Hin. rewrite Htx in Hinx.
  destruct Hph as [qs n|own r rest ws qs n Hown Hrest Hlen Hws Hempty|rs w ws qs n Hown Hws Hrs Hlen]; cbn in Hin, Hinx.
  - by apply elem_of_nil in Hin.
  - by apply nonowner_not in Hin.
  - apply elem_of_cons in Hin as [->|Hin]; [|by apply nonowner_not in Hin].
    destruct rs as [|x' [|]]; cbn in Hlen; [by apply elem_of_nil in Hinx| |lia].
    apply list_elem_of_singleton in Hinx as ->. rewrite drop_writer_eq.
    + eapply grant_owns. unfold group_of, find_group. cbn. by rewrite Nat.eqb_refl.
    + pose proof (wf_nodup _ Hwf) as Hn. unfold groups in Hn. rewrite fmap_app in Hn. by apply NoDup_app in Hn as (_ & _ & ?).
Qed.

Lemma drop_reader_grants it l g i :
  WF l -> Phase l -> group_of it l = Some g -> owner g -> gtype g = Read ->
  (forall g', g' ∈ groups l -> owner g' -> gid g' = it) -> begin_of (writers_queue l) = Some i ->
  owns i (dropOwnerGroupAndPassOwnership it Read l) = true.
Proof.
  intros Hwf Hph Hg Ho Ht Hall Hi. destruct (group_of_queue _ _ _ Hwf Hg) as [<- Hin]. rewrite Ht in Hin.
  pose proof (wf_readers_nodup _ Hwf) as Hnd.
  destruct Hph as [qs n|own r rest ws qs n Hown Hrest Hlen Hws Hempty|rs w ws qs n Hown Hws Hrs Hlen]; cbn in Hin, Hnd, Hi.
  - done.
  - destruct ws as [|w ws]; [done|]. injection Hi as <-.
    assert (owner r) as Hr by (apply Forall_app in Hown as [_ Hr]; by inversion Hr).
    assert (gid r = gid g) as Hrg by (apply Hall; [unfold groups; cbn; rewrite !elem_of_app; left; right; left | done]).
    rewrite <- Hrg in *.
    destruct own as [|a own].
    + cbn. rewrite drop_only_reader_eq by done. eapply grant_owns, group_of_elem; [|split; [done|]].
      * pose proof (wf_erase Read (gid r) _ Hwf) as Hwf'. pose proof (erase_middle [] r rest Hnd) as He. cbn in He, Hwf'.
        rewrite He in Hwf'. destruct Hwf' as [H1 H2 H3 H4]. by split.
      * apply elem_of_app. right. left.
    + exfalso. cbn in Hnd. apply NoDup_cons in Hnd as [Hni _]. apply Hni.
      rewrite (Hall a); [|left | by inversion Hown]. apply list_elem_of_fmap. exists r.
      split; [done | apply elem_of_app; right; left].
  - by apply nonowner_not in Hin.
Qed.

(** The state of the lock when its only holder starts to drop its group. *)
Lemma last_holder s h type :
  Inv s -> holders s = [h] -> holder_type s h = Some type ->
  (type = Read -> forall w, w ∈ waiting s -> owns (w_group w) (lock s) = false) ->
  let l := update_group (h_group h) (with_requests Nat.pred) (release_query (h_query h) (lock s)) in
  WF l /\ Phase l /\
  unlock (h_group h) (h_query h) (lock s) = dropOwnerGroupAndPassOwnership (h_group h) type l /\
  (exists g, group_of (h_group h) l = Some g /\ owner g /\ gtype g = type) /\
  (forall i, i <> h_group h -> group_of i l = group_of i (lock s)) /\
  writers_queue l = update (h_group h) (with_requests Nat.pred) (writers_queue (lock s)).
Proof.
  intros [HG _] Hs Ht Hw l. pose proof HG as [Hwf Hph HR HH HW].
  destruct (HH h) as (g & Hg & Ho); [rewrite Hs; left|]. unfold holder_type in Ht. rewrite Hg in Ht. injection Ht as Ht.
  assert (forall i, group_of i (release_query (h_query h) (lock s)) = group_of i (lock s)) as Hrel
    by (intros i; unfold release_query; by repeat case_match).
  destruct (release_query_groups (h_query h) _ _ _ HG) as [Hwf0 Hph0 _ _ _].
  assert (requests g = 1%nat) as Hone.
  { destruct (HR _ _ Hg) as (-> & Hpos & Hwr). destruct type; [|by apply Hwr].
    unfold refs. rewrite Hs, count_if_cons, Nat.eqb_refl.
    destruct (decide (count_if (fun w => w_group w =? h_group h)%nat (waiting s) = 0)%nat) as [->|Hne]; [done|].
    assert (0 < count_if (fun w => w_group w =? h_group h)%nat (waiting s))%nat as (w & Hin & He%Nat.eqb_eq)%count_if_pos by lia.
    specialize (Hw eq_refl w Hin). rewrite He, (owns_owner _ _ _ Hg) in Hw. unfold owner in Ho. congruence. }
  split_and!.
  - by apply wf_update.
  - by apply phase_requests.
  - rewrite <- Ht. by apply unlock_last.
  - exists (with_requests Nat.pred g). split_and!; [|done|done]. unfold l. by rewrite group_of_update, Nat.eqb_refl, Hrel, Hg.
  - intros i Hi. unfold l. rewrite group_of_update, (proj2 (Nat.eqb_neq _ _) Hi), option_fmap_id by done. apply Hrel.
  - unfold l, release_query. by repeat case_match.
Qed.

(** C24: The lock is phase-fair.  While a writer waits, a request to read of a
    query that does not own the lock waits as well.  When the writer that holds
    the lock unlocks, all the readers that wait get ownership at once, even if
    more writers wait.  When the last reader unlocks, the first writer of the
    queue gets ownership, even if readers wait. *)
Theorem rwlock_phase_fair s :
  reachable s ->
  (forall w query, w ∈ waiting s -> w_type w = Write ->
     query = NO_QUERY \/ owner_queries (lock s) !! query = None ->
     exists it l, getLock Read query (lock s) = Waiting it l) /\
  (forall h w, holders s = [h] -> holder_type s h = Some Write -> w ∈ waiting s -> w_type w = Read ->
     owns (w_group w) (unlock (h_group h) (h_query h) (lock s)) = true) /\
  (forall h i, holders s = [h] -> holder_type s h = Some Read ->
     (forall w, w ∈ waiting s -> owns (w_group w) (lock s) = false) ->
     begin_of (writers_queue (lock s)) = Some i ->
     owns i (unlock (h_group h) (h_query h) (lock s)) = true).
Proof.
  intros Hr. pose proof (reachable_inv s Hr) as HI. pose proof HI as [[Hwf Hph HR HH HW] HQ]. split_and!.
  - intros w q Hw Ht Hq. destruct (HW _ Hw) as (g & Hg & Htg).
    destruct (group_of_queue _ _ _ Hwf Hg) as [_ Hin]. rewrite Htg, Ht in Hin. cbn in Hin.
    destruct (enter_behind_writer _ Hwf Hph) as (it & l & He); [intros Hn; rewrite Hn in Hin; by apply elem_of_nil in Hin|].
    exists it, l. unfold getLock. rewrite He. destruct Hq as [-> | ->]; [done | by case_bool_decide].
  - intros h w Hs Ht Hw Htw. destruct (last_holder s h Write HI Hs Ht) as (Hwf' & Hph' & -> & (g & Hg & Ho & Htg) & Hother & _); [done|].
    destruct (HW _ Hw) as (x & Hx & Htx). eapply drop_writer_grants; try done; [|by rewrite Htx].
    rewrite Hother; [done|]. intros He. rewrite He in Hx. unfold holder_type in Ht. rewrite Hx in Ht. cbn in Ht. congruence.
  - intros h i Hs Ht Hno Hi. destruct (last_holder s h Read HI Hs Ht) as (Hwf' & Hph' & -> & (g & Hg & Ho & Htg) & Hother & Hwq); [done|].
    eapply drop_reader_grants; try done.
    + intros g' Hin Hog. destruct (decide (gid g' = h_group h)) as [|Hne]; [done|]. exfalso.
      assert (group_of (gid g') (lock s) = Some g') as Hg' by (rewrite <- Hother by done; by apply group_of_elem).
      destruct (HR _ _ Hg') as (_ & [(h' & Hh & He) | (w & Hw & He)]%refs_pos & _).
      * rewrite Hs in Hh. apply list_elem_of_singleton in Hh as ->. done.
      * specialize (Hno w Hw). rewrite He, (owns_owner _ _ _ Hg') in Hno. unfold owner in Hog. congruence.
    + rewrite Hwq. destruct (writers_queue (lock s)) as [|w ws]; [done|].
      unfold update. cbn in Hi |- *. by case_match.
Qed.

(** ** A lock in use *)

Definition lock_after (o : Outcome) : RWLockImpl :=
  match o with Acquired _ l | Waiting _ l => l | _ => create end.

(** A query reads, a second one waits to write, a third one waits to read. *)
Definition busy_lock : RWLockImpl :=
  lock_after (getLock Read "c" (lock_after (getLock Write "b" (lock_after (getLock Read "a" create))))).

Definition busy : System := {|
  lock := busy_lock;
  waiting := [ {| w_group := 2; w_type := Read; w_query := "c"; w_timed := true |};
               {| w_group := 1; w_type := Write; w_query := "b"; w_timed := true |} ];
  holders := [ {| h_group := 0; h_query := "a" |} ] |}.

Lemma busy_reachable : reachable busy.
Proof.
  eapply rtc_l; [eapply (step_acquired Read "a"); reflexivity|].
  eapply rtc_l; [eapply (step_waiting Write "b" true); reflexivity|].
  eapply rtc_l; [eapply (step_waiting Read "c" true); reflexivity|].
  apply rtc_refl.
Qed.

Lemma rwlock_exclusive_witness :
  exists g, group_of 0 (lock busy) = Some g /\ consistent g (lock busy) = true.
Proof.
  destruct (rwlock_exclusive busy busy_reachable) as (_ & Hc & _).
  apply (Hc {| h_group := 0; h_query := "a" |}). left.
Defined.

Lemma rwlock_served_witness : exists s', serve busy s'.
Proof.
  destruct (rwlock_served busy 0 busy busy_reachable (nsteps_O _ _)) as [_ [Hs | (Hw & _)]]; [exact Hs | discriminate Hw].
Defined.

Lemma rwlock_phase_fair_witness :
  (exists it l, getLock Read "d" (lock busy) = Waiting it l) /\ owns 1 (unlock 0 "a" (lock busy)) = true.
Proof.
  destruct (rwlock_phase_fair busy busy_reachable) as (H1 & _ & H3). split.
  - apply (H1 {| w_group := 1; w_type := Write; w_query := "b"; w_timed := true |}); [right; left | done | by right].
  - apply (H3 {| h_group := 0; h_query := "a" |}); [done | done | | done].
    intros w Hw. repeat (apply elem_of_cons in Hw as [->|Hw]; [done|]). by apply elem_of_nil in Hw.
Defined.
