(* ===== verification/CachePolicy.v ===== *)
(** What a cache policy promises (src/Common/ICachePolicy.h): the operations of
    the interface as a class, the laws its clients rely on as a second class, and
    the lemmas on total weights and queues that the policies share. *)
From S2P Require Import Prelude.
Open Scope Z_scope.

(** * Total weights *)

Section Totals.
Context {K A : Type} `{Countable K}.
Implicit Types (f : A -> Z) (m : gmap K A).

Definition total f m : Z := foldr Z.add 0 ((fun p => f p.2) <$> map_to_list m).

Lemma sum_perm (xs ys : list Z) : xs ≡ₚ ys -> foldr Z.add 0 xs = foldr Z.add 0 ys.
Proof. induction 1; cbn; lia. Qed.

Lemma total_empty f : total f ∅ = 0.
Proof. unfold total. by rewrite map_to_list_empty. Qed.

Lemma total_insert_new f m k a : m !! k = None -> total f (<[k := a]> m) = f a + total f m.
Proof. intros Hn. unfold total. by rewrite (sum_perm _ _ (fmap_Permutation _ _ _ (map_to_list_insert m k a Hn))). Qed.

Lemma total_delete f m k a : m !! k = Some a -> total f m = f a + total f (delete k m).
Proof.
  intros Hk. rewrite <- (total_insert_new f (delete k m) k a) by apply lookup_delete_eq.
  by rewrite insert_delete_eq, insert_id.
Qed.

Lemma total_insert f m k a :
  total f (<[k := a]> m) = f a + total f m - match m !! k with Some b => f b | None => 0 end.
Proof.
  destruct (m !! k) as [b|] eqn:E; [|rewrite total_insert_new by done; lia].
  rewrite <- insert_delete_eq, total_insert_new, (total_delete f m k b) by (done || apply lookup_delete_eq). lia.
Qed.

Lemma total_nonneg f m : (forall k a, m !! k = Some a -> 0 <= f a) -> 0 <= total f m.
Proof.
  intros Hf. unfold total. assert (Forall (fun p : K * A => 0 <= f p.2) (map_to_list m)) as Hall.
  { apply Forall_forall. intros [k a] Hin. apply elem_of_map_to_list in Hin. by eapply Hf. }
  induction Hall; cbn; lia.
Qed.

Lemma total_le f g m : (forall k a, m !! k = Some a -> f a <= g a) -> total f m <= total g m.
Proof.
  intros Hf. unfold total. assert (Forall (fun p : K * A => f p.2 <= g p.2) (map_to_list m)) as Hall.
  { apply Forall_forall. intros [k a] Hin. apply elem_of_map_to_list in Hin. by eapply Hf. }
  induction Hall; cbn; lia.
Qed.

Lemma total_ext f g m : (forall k a, m !! k = Some a -> f a = g a) -> total f m = total g m.
Proof. intros Hf. apply Z.le_antisymm; apply total_le; intros k a Hk; rewrite (Hf k a Hk); lia. Qed.

Lemma total_zero f m : (forall k a, m !! k = Some a -> f a = 0) -> total f m = 0.
Proof. intros Hf. apply Z.le_antisymm; [|apply total_nonneg; intros k a Hk; rewrite (Hf k a Hk); lia].
  unfold total. assert (Forall (fun p : K * A => f p.2 = 0) (map_to_list m)) as Hall.
  { apply Forall_forall. intros [k a] Hin. apply elem_of_map_to_list in Hin. by eapply Hf. }
  induction Hall; cbn; lia.
Qed.
End Totals.

Lemma total_fmap {K A B} `{Countable K} (g : A -> B) (f : B -> Z) (m : gmap K A) :
  total f (g <$> m) = total (fun a => f (g a)) m.
Proof. unfold total. rewrite map_to_list_fmap. by rewrite <- list_fmap_compose. Qed.

(** * Queues of keys *)

Section Queues.
Context {K A : Type} `{Countable K}.
Implicit Types (q : list K) (k : K) (m : gmap K A).

(** [std::list::erase] of the node that holds a key. *)
Definition queue_erase k q : list K := filter (fun k' => k' <> k) q.

(** [splice] of the node that holds a key to the end of its own list. *)
Definition move_to_end k q : list K := queue_erase k q ++ [k].

(** The queue holds the keys of the map, each once. *)
Definition enumerates q m : Prop := NoDup q /\ forall k, k ∈ q <-> is_Some (m !! k).

Lemma enumerates_length q m : enumerates q m -> length q = size m.
Proof.
  intros [Hnd Hel]. rewrite <- size_dom. replace (dom m) with (list_to_set q : gset K).
  - symmetry. by apply size_list_to_set.
  - apply leibniz_equiv. intros k. by rewrite elem_of_list_to_set, elem_of_dom.
Qed.

Lemma enumerates_empty : enumerates [] (∅ : gmap K A).
Proof. split; [constructor|]. intros k. rewrite lookup_empty. split; [intros Hk; by apply elem_of_nil in Hk | intros []; done]. Qed.

Lemma enumerates_pop k q m : enumerates (k :: q) m -> enumerates q (delete k m).
Proof.
  intros [[Hni Hnd]%NoDup_cons Hel]. split; [done|]. intros k'. destruct (decide (k' = k)) as [->|Hne].
  - rewrite lookup_delete_eq. split; [done | intros []; done].
  - rewrite lookup_delete_ne, <- Hel, elem_of_cons by done. intuition congruence.
Qed.

Lemma enumerates_erase k q m : enumerates q m -> enumerates (queue_erase k q) (delete k m).
Proof.
  intros [Hnd Hel]. split; [by apply NoDup_filter|]. intros k'. unfold queue_erase. rewrite list_elem_of_filter, Hel.
  destruct (decide (k' = k)) as [->|Hne].
  - rewrite lookup_delete_eq. split; [intros [[] _]; done | intros []; done].
  - rewrite lookup_delete_ne by done. tauto.
Qed.

Lemma enumerates_push k a q m : enumerates q m -> enumerates (move_to_end k q) (<[k := a]> m).
Proof.
  intros He. apply (enumerates_erase k) in He as [Hnd Hel]. split.
  - apply NoDup_app. split_and!; [done | | apply NoDup_singleton].
    intros k' Hin ->%list_elem_of_singleton. unfold queue_erase in Hin. by apply list_elem_of_filter in Hin as [[] _].
  - intros k'. unfold move_to_end. rewrite elem_of_app, list_elem_of_singleton, Hel. destruct (decide (k' = k)) as [->|Hne].
    + rewrite lookup_insert_eq. split; [by eexists | by right].
    + rewrite lookup_delete_ne, lookup_insert_ne by done. intuition congruence.
Qed.

Lemma queue_erase_absent k q : k ∉ q -> queue_erase k q = q.
Proof.
  intros Hni. unfold queue_erase. induction q as [|x q IH]; [done|].
  rewrite not_elem_of_cons in Hni. destruct Hni as [Hne Hni]. rewrite filter_cons_True by congruence. f_equal. auto.
Qed.

Lemma enumerates_perm q q' m : q ≡ₚ q' -> enumerates q m -> enumerates q' m.
Proof. intros Hp [Hnd Hel]. split; [by rewrite <- Hp|]. intros k. by rewrite <- Hp. Qed.

Lemma enumerates_update k a q m : is_Some (m !! k) -> enumerates q m -> enumerates q (<[k := a]> m).
Proof.
  intros Hk [Hnd Hel]. split; [done|]. intros k'. rewrite Hel. destruct (decide (k' = k)) as [->|Hne].
  - rewrite lookup_insert_eq. split; [by eexists | done].
  - by rewrite lookup_insert_ne.
Qed.

Lemma enumerates_new k a q m : m !! k = None -> enumerates q m -> enumerates (k :: q) (<[k := a]> m).
Proof.
  intros Hk He. apply (enumerates_perm (move_to_end k q)); [|by apply enumerates_push].
  unfold move_to_end. rewrite queue_erase_absent; [symmetry; apply Permutation_cons_append|].
  rewrite (proj2 He), Hk. by intros [].
Qed.

Lemma move_to_end_perm k q : NoDup q -> k ∈ q -> move_to_end k q ≡ₚ q.
Proof.
  intros Hnd Hk. apply list_elem_of_split in Hk as (q1 & q2 & ->). apply NoDup_app in Hnd as (_ & Hd & Hnd).
  apply NoDup_cons in Hnd as [Hni _]. unfold move_to_end, queue_erase.
  rewrite filter_app, filter_cons_False by tauto.
  change (filter (fun k' => k' <> k)) with (queue_erase k).
  rewrite !queue_erase_absent; [|done | intros Hk; apply (Hd k Hk); left].
  rewrite <- app_assoc. apply Permutation_app_head. symmetry. apply Permutation_cons_append.
Qed.

Lemma queue_erase_app k q1 q2 : queue_erase k (q1 ++ q2) = queue_erase k q1 ++ queue_erase k q2.
Proof. apply filter_app. Qed.

Lemma elem_of_queue_erase k k' q : k' ∈ queue_erase k q <-> k' <> k /\ k' ∈ q.
Proof. unfold queue_erase. by rewrite list_elem_of_filter. Qed.

(** The entries of the keys of a queue. *)
Definition restrict q m : gmap K A := filter (fun e => e.1 ∈ q) m.

Lemma restrict_lookup q m k : restrict q m !! k = if decide (k ∈ q) then m !! k else None.
Proof.
  unfold restrict. rewrite map_lookup_filter. case_decide; destruct (m !! k) as [a|]; cbn; try done.
  - by rewrite option_guard_True.
  - by rewrite option_guard_False.
Qed.

Lemma restrict_all q m : enumerates q m -> restrict q m = m.
Proof.
  intros [_ Hel]. apply map_eq. intros k. rewrite restrict_lookup. case_decide as Hin; [done|].
  rewrite Hel in Hin. destruct (m !! k); [by destruct Hin | done].
Qed.

Lemma restrict_pop k q m : enumerates (k :: q) m -> delete k m = restrict q m.
Proof.
  intros He. pose proof (enumerates_pop _ _ _ He) as He'. rewrite <- (restrict_all _ _ He') at 1.
  apply map_eq. intros k'. rewrite !restrict_lookup. case_decide as Hin; [|done].
  apply lookup_delete_ne. destruct He as [[Hni _]%NoDup_cons _]. congruence.
Qed.

Lemma restrict_restrict q q' m : q ⊆ q' -> restrict q (restrict q' m) = restrict q m.
Proof.
  intros Hsub. apply map_eq. intros k. rewrite !restrict_lookup. repeat case_decide; try done. exfalso. auto.
Qed.

Lemma restrict_subseteq q m : restrict q m ⊆ m.
Proof. apply map_filter_subseteq. Qed.
End Queues.

Lemma fmap_restrict {K A B} `{Countable K} (g : A -> B) (q : list K) (m : gmap K A) :
  g <$> restrict q m = restrict q (g <$> m).
Proof. apply map_eq. intros k. rewrite lookup_fmap, !restrict_lookup, lookup_fmap. by case_decide. Qed.

(** The total along a queue. *)
Lemma total_restrict {K A} `{Countable K} (f : A -> Z) (q : list K) (m : gmap K A) :
  NoDup q -> total f (restrict q m) = foldr Z.add 0 ((fun k => default 0 (f <$> m !! k)) <$> q).
Proof.
  induction 1 as [|k q Hni Hnd IH]; cbn.
  - apply total_zero. intros k a. rewrite restrict_lookup, decide_False by (intros Hk; by apply elem_of_nil in Hk). done.
  - rewrite <- IH. destruct (m !! k) as [a|] eqn:Ek; cbn.
    + rewrite <- (total_insert_new f (restrict q m) k a) by (by rewrite restrict_lookup, decide_False). f_equal. apply map_eq. intros k'.
      rewrite restrict_lookup. destruct (decide (k' = k)) as [->|Hne].
      * by rewrite lookup_insert_eq, decide_True by left.
      * rewrite lookup_insert_ne, restrict_lookup by done. apply decide_ext. rewrite elem_of_cons. tauto.
    + rewrite Z.add_0_l. f_equal. apply map_eq. intros k'. rewrite !restrict_lookup. destruct (decide (k' = k)) as [->|Hne].
      * rewrite Ek. by repeat case_decide.
      * apply decide_ext. rewrite elem_of_cons. tauto.
Qed.

Lemma total_split {K A} `{Countable K} (f : A -> Z) (q1 q2 : list K) (m : gmap K A) :
  enumerates (q1 ++ q2) m -> total f m = total f (restrict q1 m) + total f (restrict q2 m).
Proof.
  intros He. rewrite <- (restrict_all _ _ He) at 1. destruct He as [Hnd _]. pose proof Hnd as (H1 & _ & H2)%NoDup_app.
  rewrite !total_restrict, fmap_app by done. induction q1 as [|k q1 IH]; cbn; [done|].
  apply NoDup_cons in Hnd as [_ Hnd]. apply NoDup_cons in H1 as [_ H1]. rewrite (IH Hnd H1). lia.
Qed.

(** A loop over the entries that removes those a predicate picks. *)
Section RemoveLoop.
Context {K A P : Type} `{Countable K}.
Context (cells : P -> gmap K A) (inv : P -> Prop) (rem : K -> P -> P) (pick : K -> A -> bool).
Hypothesis rem_law : forall k p, inv p -> inv (rem k p) /\ cells (rem k p) = delete k (cells p).

#[local] Abbreviation loop := (foldl (fun p '(k, c) => if pick k c then rem k p else p)).

Lemma remove_loop_lookup l : forall p,
  inv p -> NoDup l.*1 -> (forall k c, (k, c) ∈ l -> cells p !! k = Some c) ->
  inv (loop p l) /\
  forall k, cells (loop p l) !! k =
    match cells p !! k with
    | Some c => if bool_decide (k ∈ l.*1) && pick k c then None else Some c
    | None => None
    end.
Proof.
  induction l as [|[k0 c0] l IH]; intros p Hinv Hnd Hl; cbn [foldl].
  - split; [done|]. intros k. destruct (cells p !! k); [|done]. by rewrite bool_decide_eq_false_2 by (intros Hk; by apply elem_of_nil in Hk).
  - apply NoDup_cons in Hnd as [Hni Hnd]. pose proof (Hl k0 c0 ltac:(left)) as H0.
    destruct (pick k0 c0) eqn:Ep.
    + destruct (rem_law k0 p Hinv) as [Hinv' Hcells]. destruct (IH (rem k0 p) Hinv' Hnd) as [Hi Hk].
      { intros k c Hin. rewrite Hcells, lookup_delete_ne; [apply Hl; by right|].
        intros ->. apply Hni. apply list_elem_of_fmap. by exists (k, c). }
      split; [exact Hi|]. intros k. rewrite Hk, Hcells. cbn. destruct (decide (k = k0)) as [->|Hne].
      * rewrite lookup_delete_eq, H0, (bool_decide_eq_true_2 (k0 ∈ _)) by left. cbn. by rewrite Ep.
      * rewrite lookup_delete_ne by done. destruct (cells p !! k); [|done].
        by rewrite (bool_decide_ext (k ∈ k0 :: l.*1) (k ∈ l.*1)) by (rewrite elem_of_cons; tauto).
    + destruct (IH p Hinv Hnd) as [Hi Hk]; [intros k c Hin; apply Hl; by right|].
      split; [exact Hi|]. intros k. rewrite Hk. cbn. destruct (decide (k = k0)) as [->|Hne].
      * rewrite H0, Ep, !andb_false_r. done.
      * destruct (cells p !! k); [|done].
        by rewrite (bool_decide_ext (k ∈ k0 :: l.*1) (k ∈ l.*1)) by (rewrite elem_of_cons; tauto).
Qed.

Lemma remove_loop_spec p :
  inv p ->
  inv (loop p (map_to_list (cells p))) /\
  cells (loop p (map_to_list (cells p))) = filter (fun e => pick e.1 e.2 = false) (cells p).
Proof.
  intros Hinv. destruct (remove_loop_lookup (map_to_list (cells p)) p Hinv) as [Hi Hk].
  - apply NoDup_fst_map_to_list.
  - intros k c. apply elem_of_map_to_list.
  - split; [exact Hi|]. apply map_eq. intros k. rewrite Hk, map_lookup_filter.
    destruct (cells p !! k) as [c|] eqn:Ec; [|done]. cbn.
    rewrite bool_decide_eq_true_2 by (apply list_elem_of_fmap; exists (k, c); split; [done | by apply elem_of_map_to_list]).
    cbn. destruct (pick k c); [by rewrite option_guard_False | by rewrite option_guard_True].
Qed.
End RemoveLoop.

Lemma fmap_filter_values {K A B} `{Countable K} (g : A -> B) (f : K -> B -> bool) (m : gmap K A) :
  g <$> filter (fun e => f e.1 (g e.2) = false) m = filter (fun e => f e.1 e.2 = false) (g <$> m).
Proof.
  apply map_eq. intros k. rewrite lookup_fmap, !map_lookup_filter, lookup_fmap.
  destruct (m !! k) as [a|]; [|done]. cbn. destruct (f k (g a)) eqn:E;
    [by rewrite !option_guard_False by (rewrite ?E; done) | by rewrite !option_guard_True by (rewrite ?E; done)].
Qed.

(** * The interface *)

(** [std::shared_ptr<Mapped>] *)
Definition MappedPtr (V : Type) : Type := option V.

(** [cell.value ? weight_function( *cell.value) : 0] *)
Definition ptr_weight {V} (weight : V -> Z) (p : MappedPtr V) : Z :=
  match p with Some v => weight v | None => 0 end.

(** The operations that can evict return the weight they report to
    [on_weight_loss_function]; [None] is [std::terminate]. *)
Class ICachePolicy (K V P : Type) := {
  sizeInBytes : P -> Z;
  count : P -> Z;
  maxSizeInBytes : P -> Z;
  setMaxCount : Z -> P -> option (Z * P);
  setMaxSizeInBytes : Z -> P -> option (Z * P);
  clear : P -> P;
  remove : K -> P -> P;
  remove_if : (K -> MappedPtr V -> bool) -> P -> P;
  get : K -> P -> option (MappedPtr V * P);
  getWithKey : K -> P -> option (option (K * MappedPtr V) * P);
  contains : K -> P -> bool;
  set : K -> MappedPtr V -> P -> option (Z * P);
  dump : P -> list (K * MappedPtr V) }.

(** Sizes a cache is used with: the limits and the weight of a value. *)
Definition size_limit : Z := 2 ^ 62.

(** What the clients of a policy rely on.  The contents of a cache are a map; an
    operation that inserts may lose entries, and reports their weight. *)
Class CachePolicyLaws (K V P : Type) `{Countable K, ICachePolicy K V P} (weight : V -> Z) := {
  policy_inv : P -> Prop;
  contents : P -> gmap K (MappedPtr V);
  size_law p : policy_inv p -> sizeInBytes p = total (ptr_weight weight) (contents p);
  count_law p : policy_inv p -> count p = Z.of_nat (size (contents p));
  contains_law p k : policy_inv p -> contains k p = bool_decide (is_Some (contents p !! k));
  dump_law p : policy_inv p -> dump p = map_to_list (contents p);
  get_law p k : policy_inv p ->
    exists p', get k p = Some (default None (contents p !! k), p') /\ policy_inv p' /\ contents p' = contents p;
  getWithKey_law p k : policy_inv p ->
    exists p', getWithKey k p = Some (pair k <$> contents p !! k, p') /\ policy_inv p' /\ contents p' = contents p;
  set_law p k v : policy_inv p -> 0 <= ptr_weight weight v <= size_limit ->
    exists lost p', set k v p = Some (lost, p') /\ policy_inv p' /\ contents p' ⊆ <[k := v]> (contents p) /\
      lost = total (ptr_weight weight) (<[k := v]> (contents p)) - total (ptr_weight weight) (contents p');
  remove_law p k : policy_inv p -> policy_inv (remove k p) /\ contents (remove k p) = delete k (contents p);
  remove_if_law p f : policy_inv p ->
    policy_inv (remove_if f p) /\ contents (remove_if f p) = filter (fun e => f e.1 e.2 = false) (contents p);
  clear_law p : policy_inv p -> policy_inv (clear p) /\ contents (clear p) = ∅;
  setMaxCount_law p n : policy_inv p -> 0 <= n ->
    exists lost p', setMaxCount n p = Some (lost, p') /\ policy_inv p' /\ contents p' ⊆ contents p /\
      lost = total (ptr_weight weight) (contents p) - total (ptr_weight weight) (contents p');
  setMaxSizeInBytes_law p n : policy_inv p -> 0 <= n <= size_limit ->
    exists lost p', setMaxSizeInBytes n p = Some (lost, p') /\ policy_inv p' /\ contents p' ⊆ contents p /\
      lost = total (ptr_weight weight) (contents p) - total (ptr_weight weight) (contents p') }.
