(* ===== verification/LRUCache.v ===== *)
(** The least recently used policy (src/Common/LRUCachePolicy.h): its state and
    operations, its invariant, and that it keeps the promises of a cache policy. *)
From S2P Require Import Prelude CachePolicy.
Open Scope Z_scope.

Section LRU.
Context {K V : Type} `{Countable K} (weight : V -> Z).

(** [LRUCachePolicy::Cell]; the node its [queue_iterator] points to is the one
    that holds the key. *)
Record Cell := { value : MappedPtr V; cell_size : Z }.

Record LRUCachePolicy := {
  queue : list K;
  cells : gmap K Cell;
  current_size_in_bytes : Z;
  max_size_in_bytes : Z;
  max_count : Z }.

(** A change of the three fields that follow the entries. *)
Definition with_entries (q : list K) (cs : gmap K Cell) (current : Z) (p : LRUCachePolicy) : LRUCachePolicy := {|
  queue := q; cells := cs; current_size_in_bytes := current;
  max_size_in_bytes := max_size_in_bytes p; max_count := max_count p |}.

Definition lru_new (max_size_in_bytes_ max_count_ : Z) : LRUCachePolicy := {|
  queue := []; cells := ∅; current_size_in_bytes := 0;
  max_size_in_bytes := max_size_in_bytes_; max_count := max_count_ |}.

(** The loop of [removeOverflow], by its variable [queue_size]. *)
Fixpoint overflow_loop (queue_size : nat) (current_weight_lost : Z) (p : LRUCachePolicy) : option (Z * LRUCachePolicy) :=
  if (current_size_in_bytes p >? max_size_in_bytes p)
     || (negb (max_count p =? 0) && (Z.of_nat queue_size >? max_count p)) then
    match queue_size with
    | O => Some (current_weight_lost, p)
    | S queue_size =>
        match queue p with
        | [] => None
        | key :: rest =>
            match cells p !! key with
            | None => None
            | Some cell =>
                overflow_loop queue_size (uwrap 64 (current_weight_lost + cell_size cell))
                  (with_entries rest (delete key (cells p)) (uwrap 64 (current_size_in_bytes p - cell_size cell)) p)
            end
        end
    end
  else Some (current_weight_lost, p).

Definition removeOverflow (p : LRUCachePolicy) : option (Z * LRUCachePolicy) :=
  match overflow_loop (size (cells p)) 0 p with
  | None => None
  | Some (lost, p) => if current_size_in_bytes p >? 2 ^ 63 then None else Some (lost, p)
  end.

Definition lru_setMaxCount (max_count_ : Z) (p : LRUCachePolicy) : option (Z * LRUCachePolicy) :=
  removeOverflow {| queue := queue p; cells := cells p; current_size_in_bytes := current_size_in_bytes p;
                    max_size_in_bytes := max_size_in_bytes p; max_count := max_count_ |}.

Definition lru_setMaxSizeInBytes (max_size_in_bytes_ : Z) (p : LRUCachePolicy) : option (Z * LRUCachePolicy) :=
  removeOverflow {| queue := queue p; cells := cells p; current_size_in_bytes := current_size_in_bytes p;
                    max_size_in_bytes := max_size_in_bytes_; max_count := max_count p |}.

Definition lru_clear (p : LRUCachePolicy) : LRUCachePolicy := with_entries [] ∅ 0 p.

Definition lru_remove (key : K) (p : LRUCachePolicy) : LRUCachePolicy :=
  match cells p !! key with
  | None => p
  | Some cell =>
      with_entries (queue_erase key (queue p)) (delete key (cells p))
        (uwrap 64 (current_size_in_bytes p - cell_size cell)) p
  end.

(** The loop over the cells; their order does not matter. *)
Definition lru_remove_if (predicate : K -> MappedPtr V -> bool) (p : LRUCachePolicy) : LRUCachePolicy :=
  foldl (fun p '(key, cell) => if predicate key (value cell) then lru_remove key p else p) p (map_to_list (cells p)).

Definition lru_get (key : K) (p : LRUCachePolicy) : MappedPtr V * LRUCachePolicy :=
  match cells p !! key with
  | None => (None, p)
  | Some cell => (value cell, with_entries (move_to_end key (queue p)) (cells p) (current_size_in_bytes p) p)
  end.

Definition lru_getWithKey (key : K) (p : LRUCachePolicy) : option (K * MappedPtr V) * LRUCachePolicy :=
  match cells p !! key with
  | None => (None, p)
  | Some cell => (Some (key, value cell), with_entries (move_to_end key (queue p)) (cells p) (current_size_in_bytes p) p)
  end.

(** The entry of [set], before the overflow is removed. *)
Definition lru_insert (key : K) (mapped : MappedPtr V) (p : LRUCachePolicy) : LRUCachePolicy :=
  let '(q, current) :=
    match cells p !! key with
    | None => (queue p ++ [key], current_size_in_bytes p)
    | Some cell => (move_to_end key (queue p), uwrap 64 (current_size_in_bytes p - cell_size cell))
    end in
  let cell := {| value := mapped; cell_size := ptr_weight weight mapped |} in
  with_entries q (<[key := cell]> (cells p)) (uwrap 64 (current + cell_size cell)) p.

Definition lru_set (key : K) (mapped : MappedPtr V) (p : LRUCachePolicy) : option (Z * LRUCachePolicy) :=
  removeOverflow (lru_insert key mapped p).

#[global] Instance LRU : ICachePolicy K V LRUCachePolicy := {
  sizeInBytes := current_size_in_bytes;
  count p := Z.of_nat (size (cells p));
  maxSizeInBytes := max_size_in_bytes;
  setMaxCount := lru_setMaxCount;
  setMaxSizeInBytes := lru_setMaxSizeInBytes;
  clear := lru_clear;
  remove := lru_remove;
  remove_if := lru_remove_if;
  get k p := Some (lru_get k p);
  getWithKey k p := Some (lru_getWithKey k p);
  contains k p := negb (bool_decide (cells p !! k = None));
  set := lru_set;
  dump p := (fun e => (e.1, value e.2)) <$> map_to_list (cells p) }.

(** * The invariant *)

Record Entries (p : LRUCachePolicy) : Prop := {
  entries_queue : enumerates (queue p) (cells p);
  entries_cells k c : cells p !! k = Some c -> cell_size c = ptr_weight weight (value c) /\ 0 <= cell_size c <= size_limit;
  entries_total : current_size_in_bytes p = total cell_size (cells p) }.

(** The cells are within the limits. *)
Definition fits_limits (p : LRUCachePolicy) (cs : gmap K Cell) : Prop :=
  total cell_size cs <= max_size_in_bytes p /\ (max_count p = 0 \/ Z.of_nat (size cs) <= max_count p).

Definition same_limits (p p' : LRUCachePolicy) : Prop :=
  max_size_in_bytes p' = max_size_in_bytes p /\ max_count p' = max_count p.

Record lru_inv (p : LRUCachePolicy) : Prop := {
  lru_entries : Entries p;
  lru_max_size : 0 <= max_size_in_bytes p <= size_limit;
  lru_max_count : 0 <= max_count p;
  lru_fits : fits_limits p (cells p) }.

Lemma entries_nonneg p : Entries p -> 0 <= current_size_in_bytes p.
Proof. intros [_ Hc ->]. apply total_nonneg. intros k c Hk. by apply Hc in Hk as [_ [? _]]. Qed.

Lemma entries_remove key cell p q :
  Entries p -> current_size_in_bytes p < 2 ^ 64 -> cells p !! key = Some cell ->
  enumerates q (delete key (cells p)) ->
  let p' := with_entries q (delete key (cells p)) (uwrap 64 (current_size_in_bytes p - cell_size cell)) p in
  Entries p' /\ current_size_in_bytes p' = current_size_in_bytes p - cell_size cell.
Proof.
  intros HE Hlt Hk Hq. pose proof HE as [_ Hc Ht]. cbn.
  assert (forall k c, delete key (cells p) !! k = Some c ->
    cell_size c = ptr_weight weight (value c) /\ 0 <= cell_size c <= size_limit) as Hc'.
  { intros k c. rewrite lookup_delete_Some. intros [_ ?]. by eapply Hc. }
  assert (0 <= total cell_size (delete key (cells p))) as Hpos
    by (apply total_nonneg; intros k c Hkc; by apply Hc' in Hkc as [_ [? _]]).
  assert (uwrap 64 (current_size_in_bytes p - cell_size cell) = current_size_in_bytes p - cell_size cell) as Hw.
  { apply uwrap_small. unfold in_unsigned. rewrite Ht, (total_delete cell_size _ _ _ Hk) in *.
    destruct (Hc _ _ Hk) as [_ [? _]]. lia. }
  rewrite Hw. split; [|done]. split; [done | done|]. cbn. rewrite Ht, (total_delete cell_size _ _ _ Hk). lia.
Qed.

(** The loop evicts the oldest entries, as many as it takes. *)
Lemma overflow_loop_spec n : forall lost p,
  Entries p -> size (cells p) = n -> 0 <= lost -> lost + current_size_in_bytes p <= 2 ^ 63 ->
  0 <= max_size_in_bytes p -> 0 <= max_count p ->
  exists i p', overflow_loop n lost p = Some (lost + (current_size_in_bytes p - current_size_in_bytes p'), p') /\
    Entries p' /\ fits_limits p (cells p') /\ same_limits p p' /\
    queue p' = drop i (queue p) /\ cells p' = restrict (queue p') (cells p) /\
    forall j, (j < i)%nat -> ~ fits_limits p (restrict (drop j (queue p)) (cells p)).
Proof.
  induction n as [|n IH]; intros lost p HE Hn Hlost Hsum Hms Hmc; pose proof HE as [Hq Hc Ht]; cbn [overflow_loop].
  - apply map_size_empty_inv in Hn. rewrite Hn, total_empty in Ht.
    assert (fits_limits p (cells p)) as Hfit by (split; rewrite Hn; [rewrite total_empty; lia | rewrite map_size_empty; lia]).
    exists 0%nat, p. rewrite drop_0, restrict_all by done. split_and!; try done; [|lia].
    replace (lost + _) with lost by lia. by case_match.
  - case_match eqn:Eover; rewrite <- Hn in Eover; set (z := Z.of_nat (size (cells p))) in *.
    + assert (~ fits_limits p (cells p)) as Hover.
      { intros [Hsz Hcnt]. rewrite <- Ht in Hsz. fold z in Hcnt. lia. }
      pose proof (enumerates_length _ _ Hq) as Hlen. rewrite Hn in Hlen.
      destruct (queue p) as [|key rest] eqn:Eq; [done|].
      destruct (proj1 (proj2 Hq key)) as [cell Hcell]; [left|]. rewrite Hcell.
      assert (current_size_in_bytes p < 2 ^ 64) as Hlt by lia.
      destruct (entries_remove key cell p rest HE Hlt Hcell (enumerates_pop _ _ _ Hq)) as [HE' Hcur].
      set (p1 := with_entries rest _ _ p) in *.
      assert (size (cells p1) = n) as Hn1.
      { cbn. rewrite map_size_delete_Some by (by eexists). lia. }
      destruct (Hc _ _ Hcell) as [_ Hcs]. pose proof (entries_nonneg _ HE') as Hnn.
      assert (uwrap 64 (lost + cell_size cell) = lost + cell_size cell) as Hw by (apply uwrap_small; unfold in_unsigned; lia).
      rewrite Hw. destruct (IH (lost + cell_size cell) p1) as (i & p' & -> & HEp' & Hfit & [Hl1 Hl2] & Hqp & Hcp & Hmin); try done; [lia..|].
      exists (S i), p'. split_and!; try done.
      * f_equal. f_equal. rewrite Hcur. lia.
      * rewrite Hcp. cbn [cells p1 with_entries]. rewrite (restrict_pop _ _ _ Hq). apply restrict_restrict.
        rewrite Hqp. apply sublist_subseteq, sublist_drop.
      * intros [|j] Hj; [by rewrite drop_0, restrict_all|]. cbn [drop].
        specialize (Hmin j ltac:(lia)). cbn [cells queue p1 with_entries] in Hmin.
        rewrite (restrict_pop _ _ _ Hq), restrict_restrict in Hmin; [exact Hmin|].
        apply sublist_subseteq, sublist_drop.
    + exists 0%nat, p. rewrite drop_0, restrict_all by done. split_and!; try done; [| |lia].
      * f_equal. f_equal. lia.
      * split; [rewrite <- Ht; lia | fold z; lia].
Qed.

Lemma removeOverflow_spec p :
  Entries p -> current_size_in_bytes p <= 2 ^ 63 -> 0 <= max_size_in_bytes p <= size_limit -> 0 <= max_count p ->
  exists i p', removeOverflow p = Some (current_size_in_bytes p - current_size_in_bytes p', p') /\
    lru_inv p' /\ same_limits p p' /\ queue p' = drop i (queue p) /\ cells p' = restrict (queue p') (cells p) /\
    forall j, (j < i)%nat -> ~ fits_limits p (restrict (drop j (queue p)) (cells p)).
Proof.
  intros HE Hcur Hms Hmc. unfold removeOverflow.
  destruct (overflow_loop_spec (size (cells p)) 0 p) as (i & p' & -> & HE' & Hfit & [Hl1 Hl2] & Hq & Hc & Hmin); try done; [lia..|].
  assert (current_size_in_bytes p' <= size_limit) as Hle.
  { rewrite (entries_total _ HE'). destruct Hfit as [Hf _]. lia. }
  assert ((current_size_in_bytes p' >? 2 ^ 63) = false) as -> by (unfold size_limit in Hle; lia).
  exists i, p'. split_and!; try done. split; [done | lia | lia|]. unfold fits_limits in *. by rewrite Hl1, Hl2.
Qed.

Lemma lru_insert_entries key mapped p :
  lru_inv p -> 0 <= ptr_weight weight mapped <= size_limit ->
  let p' := lru_insert key mapped p in
  Entries p' /\ current_size_in_bytes p' <= 2 ^ 63 /\ same_limits p p' /\
  queue p' = move_to_end key (queue p) /\ value <$> cells p' = <[key := mapped]> (value <$> cells p).
Proof.
  intros [HE Hms Hmc [Hfit _]] Hw. pose proof HE as [Hq Hc Ht]. pose proof (entries_nonneg _ HE) as Hnn.
  set (cell := {| value := mapped; cell_size := ptr_weight weight mapped |}).
  assert (lru_insert key mapped p = with_entries (move_to_end key (queue p)) (<[key := cell]> (cells p))
    (total cell_size (<[key := cell]> (cells p))) p) as ->.
  { unfold lru_insert. rewrite total_insert. fold cell. unfold size_limit in *. destruct (cells p !! key) as [old|] eqn:Ek.
    - f_equal. pose proof (total_delete cell_size _ _ _ Ek) as Hd.
      assert (0 <= total cell_size (delete key (cells p))) as Hpos
        by (apply total_nonneg; intros k c; rewrite lookup_delete_Some; intros [_ Hkc]; by apply Hc in Hkc as [_ [? _]]).
      destruct (Hc _ _ Ek) as [_ ?]. cbn [cell_size cell].
      rewrite (uwrap_small 64 (_ - _)), uwrap_small by (unfold in_unsigned; lia). lia.
    - unfold move_to_end. rewrite queue_erase_absent by (rewrite (proj2 Hq), Ek; by intros []).
      f_equal. cbn [cell_size cell]. rewrite uwrap_small by (unfold in_unsigned; lia). lia. }
  cbn zeta. split_and!; try done.
  - split; cbn; [by apply enumerates_push | | done].
    intros k c. rewrite lookup_insert_Some. intros [[_ <-] | [_ Hk]]; [done | by eapply Hc].
  - cbn. rewrite total_insert. cbn [cell_size cell]. unfold size_limit in *. case_match eqn:Ek; [apply Hc in Ek as [_ ?]|]; lia.
  - cbn. by rewrite fmap_insert.
Qed.

Lemma lru_remove_spec key p :
  lru_inv p -> lru_inv (lru_remove key p) /\ cells (lru_remove key p) = delete key (cells p).
Proof.
  intros [HE Hms Hmc [Hf1 Hf2]]. pose proof HE as [Hq Hc Ht]. unfold lru_remove. unfold size_limit in Hms.
  destruct (cells p !! key) as [cell|] eqn:Ek; [|by rewrite delete_id].
  destruct (entries_remove key cell p (queue_erase key (queue p)) HE) as [HE' Hcur];
    [lia | done | by apply enumerates_erase|]. split; [|done].
  split; [done | done | done|]. split; cbn.
  - rewrite (total_delete cell_size _ _ _ Ek) in Hf1. destruct (Hc _ _ Ek) as [_ [? _]]. lia.
  - rewrite map_size_delete_Some by by eexists. destruct Hf2; [by left | right; lia].
Qed.

Lemma lru_contents_total p : Entries p -> total (ptr_weight weight) (value <$> cells p) = current_size_in_bytes p.
Proof. intros [_ Hc ->]. rewrite total_fmap. apply total_ext. intros k c Hk. by apply Hc in Hk as [-> _]. Qed.

Lemma lru_touch key p :
  lru_inv p -> is_Some (cells p !! key) ->
  lru_inv (with_entries (move_to_end key (queue p)) (cells p) (current_size_in_bytes p) p).
Proof.
  intros [[Hq Hc Ht] Hms Hmc Hf] [c Hk]. split; [|done..]. split; [|done..]. cbn.
  rewrite <- (insert_id _ _ _ Hk). by apply enumerates_push.
Qed.

Lemma lru_shrink p :
  Entries p -> current_size_in_bytes p <= 2 ^ 63 -> 0 <= max_size_in_bytes p <= size_limit -> 0 <= max_count p ->
  exists lost p', removeOverflow p = Some (lost, p') /\ lru_inv p' /\ value <$> cells p' ⊆ value <$> cells p /\
    lost = total (ptr_weight weight) (value <$> cells p) - total (ptr_weight weight) (value <$> cells p').
Proof.
  intros HE Hcur Hms Hmc. destruct (removeOverflow_spec p HE Hcur Hms Hmc) as (i & p' & Heq & Hinv & _ & _ & Hc & _).
  do 2 eexists. split; [exact Heq|]. split; [done|]. split.
  - rewrite Hc. apply map_fmap_mono, restrict_subseteq.
  - by rewrite !lru_contents_total by (done || apply Hinv).
Qed.

#[global] Instance LRU_laws : CachePolicyLaws K V LRUCachePolicy weight.
Proof.
  refine {| policy_inv := lru_inv; contents p := value <$> cells p |}.
  - intros p [HE _ _ _]. by rewrite lru_contents_total.
  - intros p _. cbn. by rewrite map_size_fmap.
  - intros p k _. cbn. rewrite lookup_fmap. by destruct (cells p !! k).
  - intros p _. cbn. rewrite map_to_list_fmap. apply list_fmap_ext. by intros i [k c] _.
  - intros p k Hinv. cbn. unfold lru_get. rewrite lookup_fmap. destruct (cells p !! k) eqn:Ek; cbn; eexists;
      (split; [reflexivity|]); [|done]. split; [apply lru_touch; [done | by eexists] | done].
  - intros p k Hinv. cbn. unfold lru_getWithKey. rewrite lookup_fmap. destruct (cells p !! k) eqn:Ek; cbn; eexists;
      (split; [reflexivity|]); [|done]. split; [apply lru_touch; [done | by eexists] | done].
  - intros p k v Hinv Hw. destruct (lru_insert_entries k v p Hinv Hw) as (HE & Hcur & [Hl1 Hl2] & _ & <-).
    apply lru_shrink; [done | done | rewrite Hl1; apply Hinv | rewrite Hl2; apply Hinv].
  - intros p k Hinv. destruct (lru_remove_spec k p Hinv) as [Hi Hc]. split; [done|]. cbn. by rewrite Hc, fmap_delete.
  - intros p f Hinv.
    destruct (remove_loop_spec cells lru_inv lru_remove (fun k c => f k (value c)) lru_remove_spec p Hinv) as [Hi Hc].
    split; [exact Hi|]. cbn. unfold lru_remove_if. rewrite Hc. apply fmap_filter_values.
  - intros p [HE Hms Hmc _]. split; [|cbn; by rewrite fmap_empty]. split; [|done..|].
    + split; cbn; [apply enumerates_empty | intros k c; by rewrite lookup_empty | by rewrite total_empty].
    + split; cbn; [rewrite total_empty; lia | rewrite map_size_empty; lia].
  - intros p n [[Hq Hc Ht] Hms Hmc [Hf _]] Hn. rewrite <- Ht in Hf. unfold size_limit in *.
    destruct (lru_shrink {| queue := queue p; cells := cells p; current_size_in_bytes := current_size_in_bytes p;
      max_size_in_bytes := max_size_in_bytes p; max_count := n |}) as (lost & p' & ?); [done | cbn; lia | done | done|].
    by exists lost, p'.
  - intros p n [[Hq Hc Ht] Hms Hmc [Hf _]] Hn. rewrite <- Ht in Hf. unfold size_limit in *.
    destruct (lru_shrink {| queue := queue p; cells := cells p; current_size_in_bytes := current_size_in_bytes p;
      max_size_in_bytes := n; max_count := max_count p |}) as (lost & p' & ?); [done | cbn; lia | done | done|].
    by exists lost, p'.
Defined.

(** * Which entries leave *)

(** A map within the limits of a cache. *)
Definition within_limits (p : LRUCachePolicy) (m : gmap K (MappedPtr V)) : Prop :=
  total (ptr_weight weight) m <= max_size_in_bytes p /\ (max_count p = 0 \/ Z.of_nat (size m) <= max_count p).

Lemma within_fits p q cs :
  (forall k c, cs !! k = Some c -> cell_size c = ptr_weight weight (value c)) ->
  within_limits p (restrict q (value <$> cs)) <-> fits_limits p (restrict q cs).
Proof.
  intros Hc. unfold within_limits, fits_limits. rewrite <- fmap_restrict, map_size_fmap, total_fmap.
  rewrite (total_ext (fun c => ptr_weight weight (value c)) cell_size); [done|].
  intros k c. rewrite restrict_lookup. case_decide; [|done]. intros Hk. by rewrite (Hc _ _ Hk).
Qed.

(** C25: [set] of the LRU policy stores the entry as the newest one and evicts
    the least recently used entries, only them, and just as many as it takes to
    be within the limits of size and count again: with one eviction less the
    cache is over a limit.  It reports the weight of what it evicts, and neither
    of its calls of [std::terminate] is reached. *)
Theorem lru_evicts_oldest key mapped p :
  lru_inv p -> 0 <= ptr_weight weight mapped <= size_limit ->
  let q := move_to_end key (queue p) in
  let m := <[key := mapped]> (value <$> cells p) in
  exists i p', lru_set key mapped p = Some (total (ptr_weight weight) (restrict (take i q) m), p') /\ lru_inv p' /\
    queue p' = drop i q /\ value <$> cells p' = restrict (drop i q) m /\ within_limits p (value <$> cells p') /\
    forall j, (j < i)%nat -> ~ within_limits p (restrict (drop j q) m).
Proof.
  intros Hinv Hw q m. destruct (lru_insert_entries key mapped p Hinv Hw) as (HE & Hcur & [Hl1 Hl2] & Hq & Hm).
  unfold lru_set. set (p1 := lru_insert key mapped p) in *.
  destruct (removeOverflow_spec p1) as (i & p' & -> & Hinv' & Hl' & Hqp & Hcp & Hmin);
    [done | done | rewrite Hl1; apply Hinv | rewrite Hl2; apply Hinv|].
  assert (forall q', within_limits p (restrict q' m) <-> fits_limits p1 (restrict q' (cells p1))) as Hwf.
  { intros q'. unfold m. rewrite <- Hm, <- within_fits by (intros k c Hk; by apply HE in Hk as [? _]).
    unfold within_limits. by rewrite Hl1, Hl2. }
  assert (value <$> cells p' = restrict (drop i q) m) as Hc by by unfold m, q; rewrite <- Hm, Hcp, Hqp, Hq, fmap_restrict.
  rewrite Hq in *. fold q in Hqp, Hmin. exists i, p'. split_and!; [|done|done|exact Hc| |].
  - f_equal. f_equal. rewrite <- !lru_contents_total by (done || apply Hinv').
    rewrite Hc, Hm. fold m.
    rewrite (total_split (ptr_weight weight) (take i q) (drop i q) m); [lia|].
    rewrite take_drop. unfold m, q. rewrite <- Hm, <- Hq. destruct HE as [[Hnd Hel] _ _]. split; [done|].
    intros k. rewrite lookup_fmap, fmap_is_Some. apply Hel.
  - rewrite Hc. apply Hwf. rewrite <- Hqp, <- Hcp. destruct Hinv' as [_ _ _ Hf]. destruct Hl' as [Hl3 Hl4].
    unfold fits_limits in *. by rewrite <- Hl3, <- Hl4.
  - intros j Hj Hfit. apply (Hmin j Hj). by apply Hwf.
Qed.
End LRU.

Arguments Cell : clear implicits.
Arguments LRUCachePolicy _ _ {_ _}.

Lemma lru_new_inv {K V} `{Countable K} (weight : V -> Z) max_size max_cnt :
  0 <= max_size <= size_limit -> 0 <= max_cnt -> lru_inv weight (lru_new max_size max_cnt : LRUCachePolicy K V).
Proof.
  intros Hs Hc. split; [|done|done|].
  - split; [apply enumerates_empty | intros k c Hk; cbn in Hk; by rewrite lookup_empty in Hk | cbn; by rewrite total_empty].
  - split; cbn; [rewrite total_empty; lia | rewrite map_size_empty; lia].
Qed.

(** In a cache for ten bytes, a value of seven bytes evicts one of six. *)
Lemma lru_evicts_oldest_witness :
  exists lost p, lru_set (fun v => v) 2 (Some 7)
      {| queue := [1]; cells := {[ 1 := {| value := Some 6; cell_size := 6 |} ]};
         current_size_in_bytes := 6; max_size_in_bytes := 10; max_count := 0 |} = Some (lost, p) /\
    queue p = [2] /\ within_limits (fun v => v) p (value <$> cells p).
Proof.
  destruct (lru_evicts_oldest (fun v : Z => v) 2 (Some 7)
    {| queue := [1]; cells := {[ 1 := {| value := Some 6; cell_size := 6 |} ]};
       current_size_in_bytes := 6; max_size_in_bytes := 10; max_count := 0 |}) as (i & p & Heq & [_ _ _ _] & Hq & _ & Hw & _).
  - split; [|by split; vm_compute | done |].
    + split; cbn.
      * apply (enumerates_push 1 _ [] ∅), enumerates_empty.
      * intros k c. rewrite lookup_singleton_Some. intros [_ <-]. by vm_compute.
      * by vm_compute.
    + split; [by vm_compute | by left].
  - by vm_compute.
  - eexists _, p. split; [exact Heq|]. assert (Some p = Some (with_entries [2] {[ 2 := {| value := Some 7; cell_size := 7 |} ]} 7 (lru_new 10 0))) as [= ->].
    { transitivity (snd <$> lru_set (fun v => v) 2 (Some 7)
        {| queue := [1]; cells := {[ 1 := {| value := Some 6; cell_size := 6 |} ]};
           current_size_in_bytes := 6; max_size_in_bytes := 10; max_count := 0 |}); [by rewrite Heq | by vm_compute]. }
    split; [done | exact Hw].
Defined.
