(* ===== verification/SLRUCache.v ===== *)
(** The segmented least recently used policy (src/Common/SLRUCachePolicy.h): its
    two queues and operations, its invariant, that it keeps the promises of a
    cache policy, and that a scan leaves its protected segment alone. *)
From S2P Require Import Prelude CachePolicy.
From Stdlib Require Import Floats.SpecFloat.
Open Scope Z_scope.

(** * The protected share of the size *)

(** A nonnegative double as a significand and an exponent of two: [m * 2 ^ e]. *)
Definition round53 (m e : Z) : Z * Z :=
  if m <? 2 ^ 53 then (m, e)
  else
    let d := Z.log2 m - 52 in
    let q := m / 2 ^ d in
    let r := m mod 2 ^ d in
    let up := (2 ^ (d - 1) <? r) || ((2 ^ (d - 1) =? r) && Z.odd q) in
    (if up then q + 1 else q, e + d).

(** [std::max(0.0, std::min(1.0, size_ratio))] *)
Definition clamp_ratio (size_ratio : spec_float) : Z * Z :=
  match size_ratio with
  | S754_finite false m e => if (e <? 0) && (Zpos m <? 2 ^ (- e)) then (Zpos m, e) else (1, 0)
  | S754_infinity false | S754_nan => (1, 0)
  | _ => (0, 0)
  end.

(** [static_cast<size_t>] *)
Definition to_size_t (m e : Z) : Z := if 0 <=? e then m * 2 ^ e else m / 2 ^ (- e).

Definition calculateMaxProtectedSize (max_size_in_bytes : Z) (size_ratio : spec_float) : Z :=
  let '(a, ea) := round53 max_size_in_bytes 0 in
  let '(b, eb) := clamp_ratio size_ratio in
  let '(c, ec) := round53 (a * b) (ea + eb) in
  to_size_t c ec.

(** A rounded product of a size by a ratio stays within a power of two. *)
Lemma round53_le m e L :
  0 <= m -> e <= L -> m <= 2 ^ (L - e) ->
  let '(q, e') := round53 m e in 0 <= q /\ e' <= L /\ q <= 2 ^ (L - e').
Proof.
  intros Hm He Hle. unfold round53. destruct (m <? 2 ^ 53) eqn:Ebig; [done|]. apply Z.ltb_ge in Ebig.
  set (d := Z.log2 m - 52). assert (0 < 2 ^ 53) as H53 by lia.
  assert (53 <= Z.log2 m) as Hlog by (rewrite <- (Z.log2_pow2 53) by lia; by apply Z.log2_le_mono).
  assert (2 ^ Z.log2 m <= m) as Hpow by (apply Z.log2_spec; lia).
  assert (Z.log2 m <= L - e) as Hd by (apply (Z.pow_le_mono_r_iff 2); lia).
  assert (2 ^ (L - e) = 2 ^ d * 2 ^ (L - (e + d))) as Hsplit by (rewrite <- Z.pow_add_r by lia; f_equal; lia).
  assert (0 < 2 ^ d /\ 0 < 2 ^ (d - 1) /\ 0 < 2 ^ (L - (e + d))) as (Hd0 & Hd1 & HL) by (split_and!; apply Z.pow_pos_nonneg; lia).
  assert (0 <= m / 2 ^ d) as Hq by (apply Z.div_pos; lia).
  destruct (decide (m = 2 ^ (L - e))) as [Heq|Hne].
  - rewrite Heq, Hsplit, (Z.mul_comm (2 ^ d)), Z.mod_mul, Z.div_mul by lia.
    rewrite (proj2 (Z.ltb_ge _ _)), (proj2 (Z.eqb_neq _ _)) by lia. cbn. split_and!; lia.
  - assert (m / 2 ^ d < 2 ^ (L - (e + d))) by (apply Z.div_lt_upper_bound; lia).
    case_match; split_and!; lia.
Qed.

Lemma clamp_ratio_le r : let '(b, eb) := clamp_ratio r in 0 <= b /\ eb <= 0 /\ b <= 2 ^ (0 - eb).
Proof.
  destruct r as [|[]| |[] m e]; cbn [clamp_ratio]; try (split_and!; [lia | lia | by vm_compute]).
  destruct ((e <? 0) && (Z.pos m <? 2 ^ (- e))) eqn:E; [|split_and!; [lia | lia | by vm_compute]]. rewrite Z.sub_0_l. lia.
Qed.

Lemma calculateMaxProtectedSize_le n r :
  0 <= n <= size_limit -> 0 <= calculateMaxProtectedSize n r <= size_limit.
Proof.
  intros Hn. unfold calculateMaxProtectedSize, size_limit in *.
  pose proof (round53_le n 0 62) as Ha. destruct (round53 n 0) as [a ea]. destruct Ha as (Ha0 & Hea & Ha); [lia | lia | exact (proj2 Hn)|].
  pose proof (clamp_ratio_le r) as Hb. destruct (clamp_ratio r) as [b eb]. destruct Hb as (Hb0 & Heb & Hb).
  pose proof (round53_le (a * b) (ea + eb) 62) as Hc. destruct (round53 (a * b) (ea + eb)) as [c ec].
  destruct Hc as (Hc0 & Hec & Hc); [nia | lia | |].
  { replace (62 - (ea + eb)) with ((62 - ea) + (0 - eb)) by lia. rewrite Z.pow_add_r by lia. by apply Z.mul_le_mono_nonneg. }
  unfold to_size_t. case_match eqn:E.
  - replace (2 ^ 62) with (2 ^ (62 - ec) * 2 ^ ec) by (rewrite <- Z.pow_add_r by lia; f_equal; lia).
    assert (0 < 2 ^ ec) by (apply Z.pow_pos_nonneg; lia). nia.
  - assert (0 < 2 ^ (- ec)) by (apply Z.pow_pos_nonneg; lia). split; [by apply Z.div_pos|].
    apply Z.div_le_upper_bound; [done|]. rewrite <- Z.pow_add_r by lia. by replace (- ec + 62) with (62 - ec) by lia.
Qed.

Section SLRU.
Context {K V : Type} `{Countable K} (weight : V -> Z).

(** * The policy *)

(** [SLRUCachePolicy::Cell]; the node its [queue_iterator] points to is the one
    that holds the key, in the queue that [is_protected] tells. *)
Record Cell := { is_protected : bool; value : MappedPtr V; cell_size : Z }.

Record SLRUCachePolicy := {
  probationary_queue : list K;
  protected_queue : list K;
  cells : gmap K Cell;
  current_protected_size : Z;
  current_size_in_bytes : Z;
  max_size_in_bytes : Z;
  max_protected_size : Z;
  max_count : Z;
  size_ratio : spec_float }.

(** A change of the fields that follow the entries, and one of the limits. *)
Definition with_entries (prob prot : list K) (cs : gmap K Cell) (cur_prot cur : Z) (p : SLRUCachePolicy) : SLRUCachePolicy := {|
  probationary_queue := prob; protected_queue := prot; cells := cs;
  current_protected_size := cur_prot; current_size_in_bytes := cur;
  max_size_in_bytes := max_size_in_bytes p; max_protected_size := max_protected_size p;
  max_count := max_count p; size_ratio := size_ratio p |}.

Definition with_limits (max_size max_prot max_cnt : Z) (p : SLRUCachePolicy) : SLRUCachePolicy := {|
  probationary_queue := probationary_queue p; protected_queue := protected_queue p; cells := cells p;
  current_protected_size := current_protected_size p; current_size_in_bytes := current_size_in_bytes p;
  max_size_in_bytes := max_size; max_protected_size := max_prot; max_count := max_cnt; size_ratio := size_ratio p |}.

Definition slru_new (max_size_in_bytes_ max_count_ : Z) (size_ratio_ : spec_float) : SLRUCachePolicy := {|
  probationary_queue := []; protected_queue := []; cells := ∅;
  current_protected_size := 0; current_size_in_bytes := 0;
  max_size_in_bytes := max_size_in_bytes_;
  max_protected_size := calculateMaxProtectedSize max_size_in_bytes_ size_ratio_;
  max_count := max_count_; size_ratio := size_ratio_ |}.

(** [need_remove] of [removeOverflow], without its condition on [queue_size].  The
    difference is one of sizes of containers, the second part of the first. *)
Definition need_remove (protect : bool) (p : SLRUCachePolicy) : bool :=
  if protect then
    (negb (max_count p =? 0)
     && (max_count p <? Z.of_nat (size (cells p)) - Z.of_nat (length (probationary_queue p))))
    || (max_protected_size p <? current_protected_size p)
  else
    (negb (max_count p =? 0) && (max_count p <? Z.of_nat (size (cells p))))
    || (max_size_in_bytes p <? current_size_in_bytes p).

Definition queue_of (protect : bool) (p : SLRUCachePolicy) : list K :=
  if protect then protected_queue p else probationary_queue p.

(** One iteration, for the front of the queue and its cell.  [protect] tells
    which queue and which current weight the function got by reference. *)
Definition demote_or_evict (protect : bool) (key : K) (rest : list K) (cell : Cell)
    (lost : Z) (p : SLRUCachePolicy) : Z * SLRUCachePolicy :=
  let cur_prot :=
    if protect then uwrap 64 (current_protected_size p - cell_size cell) else current_protected_size p in
  let cur :=
    if protect then current_size_in_bytes p else uwrap 64 (current_size_in_bytes p - cell_size cell) in
  if is_protected cell then
    let cell' := {| is_protected := false; value := value cell; cell_size := cell_size cell |} in
    (lost,
     with_entries (if protect then probationary_queue p ++ [key] else rest ++ [key])
       (if protect then rest else protected_queue p) (<[key := cell']> (cells p)) cur_prot cur p)
  else
    (uwrap 64 (lost + cell_size cell),
     with_entries (if protect then probationary_queue p else rest)
       (if protect then rest else protected_queue p) (delete key (cells p)) cur_prot cur p).

(** The loop of [removeOverflow], by its variable [queue_size]. *)
Fixpoint overflow_loop (protect : bool) (queue_size : nat) (lost : Z) (p : SLRUCachePolicy)
    : option (Z * SLRUCachePolicy) :=
  match queue_size with
  | O => Some (lost, p)
  | S queue_size =>
      if need_remove protect p then
        match queue_of protect p with
        | [] => None
        | key :: rest =>
            match cells p !! key with
            | None => None
            | Some cell =>
                let '(lost, p) := demote_or_evict protect key rest cell lost p in
                overflow_loop protect queue_size lost p
            end
        end
      else Some (lost, p)
  end.

Definition removeOverflow (protect : bool) (p : SLRUCachePolicy) : option (Z * SLRUCachePolicy) :=
  match overflow_loop protect (length (queue_of protect p)) 0 p with
  | None => None
  | Some (lost, p) => if 2 ^ 63 <? current_size_in_bytes p then None else Some (lost, p)
  end.

(** Both calls, one after the other; only the second one reports its loss. *)
Definition removeOverflows (p : SLRUCachePolicy) : option (Z * SLRUCachePolicy) :=
  match removeOverflow true p with
  | None => None
  | Some (_, p) => removeOverflow false p
  end.

Definition slru_setMaxCount (max_count_ : Z) (p : SLRUCachePolicy) : option (Z * SLRUCachePolicy) :=
  removeOverflows (with_limits (max_size_in_bytes p) (max_protected_size p) max_count_ p).

Definition slru_setMaxSizeInBytes (max_size_in_bytes_ : Z) (p : SLRUCachePolicy) : option (Z * SLRUCachePolicy) :=
  removeOverflows
    (with_limits max_size_in_bytes_ (calculateMaxProtectedSize max_size_in_bytes_ (size_ratio p)) (max_count p) p).

Definition slru_clear (p : SLRUCachePolicy) : SLRUCachePolicy := with_entries [] [] ∅ 0 0 p.

Definition slru_remove (key : K) (p : SLRUCachePolicy) : SLRUCachePolicy :=
  match cells p !! key with
  | None => p
  | Some cell =>
      with_entries
        (if is_protected cell then probationary_queue p else queue_erase key (probationary_queue p))
        (if is_protected cell then queue_erase key (protected_queue p) else protected_queue p)
        (delete key (cells p))
        (if is_protected cell then uwrap 64 (current_protected_size p - cell_size cell) else current_protected_size p)
        (uwrap 64 (current_size_in_bytes p - cell_size cell)) p
  end.

(** The loop over the cells; their order does not matter. *)
Definition slru_remove_if (predicate : K -> MappedPtr V -> bool) (p : SLRUCachePolicy) : SLRUCachePolicy :=
  foldl (fun p '(key, cell) => if predicate key (value cell) then slru_remove key p else p) p (map_to_list (cells p)).

(** The access to an entry that [get] and [getWithKey] make. *)
Definition access (key : K) (cell : Cell) (p : SLRUCachePolicy) : option SLRUCachePolicy :=
  if is_protected cell then
    Some (with_entries (probationary_queue p) (move_to_end key (protected_queue p)) (cells p)
            (current_protected_size p) (current_size_in_bytes p) p)
  else
    let cell' := {| is_protected := true; value := value cell; cell_size := cell_size cell |} in
    snd <$> removeOverflow true
      (with_entries (queue_erase key (probationary_queue p)) (protected_queue p ++ [key]) (<[key := cell']> (cells p))
         (uwrap 64 (current_protected_size p + cell_size cell)) (current_size_in_bytes p) p).

Definition slru_get (key : K) (p : SLRUCachePolicy) : option (MappedPtr V * SLRUCachePolicy) :=
  match cells p !! key with
  | None => Some (None, p)
  | Some cell => pair (value cell) <$> access key cell p
  end.

Definition slru_getWithKey (key : K) (p : SLRUCachePolicy) : option (option (K * MappedPtr V) * SLRUCachePolicy) :=
  match cells p !! key with
  | None => Some (None, p)
  | Some cell => pair (Some (key, value cell)) <$> access key cell p
  end.

(** The entry of [set], before the overflow is removed: a new entry is on
    probation, and an entry that is set again is protected. *)
Definition slru_insert (key : K) (mapped : MappedPtr V) (p : SLRUCachePolicy) : SLRUCachePolicy :=
  let w := ptr_weight weight mapped in
  match cells p !! key with
  | None =>
      with_entries (probationary_queue p ++ [key]) (protected_queue p)
        (<[key := {| is_protected := false; value := mapped; cell_size := w |}]> (cells p))
        (uwrap 64 (current_protected_size p + 0)) (uwrap 64 (current_size_in_bytes p + w)) p
  | Some cell =>
      let cur := uwrap 64 (current_size_in_bytes p - cell_size cell) in
      let cur_prot :=
        if is_protected cell then uwrap 64 (current_protected_size p - cell_size cell) else current_protected_size p in
      with_entries
        (if is_protected cell then probationary_queue p else queue_erase key (probationary_queue p))
        (if is_protected cell then move_to_end key (protected_queue p) else protected_queue p ++ [key])
        (<[key := {| is_protected := true; value := mapped; cell_size := w |}]> (cells p))
        (uwrap 64 (cur_prot + w)) (uwrap 64 (cur + w)) p
  end.

Definition slru_set (key : K) (mapped : MappedPtr V) (p : SLRUCachePolicy) : option (Z * SLRUCachePolicy) :=
  removeOverflows (slru_insert key mapped p).

#[global] Instance SLRU : ICachePolicy K V SLRUCachePolicy := {
  sizeInBytes := current_size_in_bytes;
  count p := Z.of_nat (size (cells p));
  maxSizeInBytes := max_size_in_bytes;
  setMaxCount := slru_setMaxCount;
  setMaxSizeInBytes := slru_setMaxSizeInBytes;
  clear := slru_clear;
  remove := slru_remove;
  remove_if := slru_remove_if;
  get := slru_get;
  getWithKey := slru_getWithKey;
  contains k p := negb (bool_decide (cells p !! k = None));
  set := slru_set;
  dump p := (fun e => (e.1, value e.2)) <$> map_to_list (cells p) }.

(** * The invariant *)

Definition prot_size (c : Cell) : Z := if is_protected c then cell_size c else 0.

Record Entries (p : SLRUCachePolicy) : Prop := {
  entries_queue : enumerates (probationary_queue p ++ protected_queue p) (cells p);
  entries_flag k c : cells p !! k = Some c -> (is_protected c = true <-> k ∈ protected_queue p);
  entries_cells k c : cells p !! k = Some c -> cell_size c = ptr_weight weight (value c) /\ 0 <= cell_size c <= size_limit;
  entries_total : current_size_in_bytes p = total cell_size (cells p);
  entries_protected : current_protected_size p = total prot_size (cells p) }.

Definition same_limits (p p' : SLRUCachePolicy) : Prop :=
  max_size_in_bytes p' = max_size_in_bytes p /\ max_protected_size p' = max_protected_size p /\
  max_count p' = max_count p /\ size_ratio p' = size_ratio p.

Record Limits (p : SLRUCachePolicy) : Prop := {
  limits_size : 0 <= max_size_in_bytes p <= size_limit;
  limits_protected : 0 <= max_protected_size p <= size_limit;
  limits_count : 0 <= max_count p }.

(** The protected segment is within its limits. *)
Definition protected_fits (p : SLRUCachePolicy) : Prop :=
  current_protected_size p <= max_protected_size p /\
  (max_count p = 0 \/ Z.of_nat (length (protected_queue p)) <= max_count p).

(** The whole cache is within its limits; what is protected may stay when the
    limit of the protected segment is the larger one. *)
Definition cache_fits (p : SLRUCachePolicy) : Prop :=
  current_size_in_bytes p <= Z.max (max_size_in_bytes p) (max_protected_size p) /\
  (max_count p = 0 \/ Z.of_nat (size (cells p)) <= max_count p).

Record slru_inv (p : SLRUCachePolicy) : Prop := {
  slru_entries : Entries p;
  slru_limits : Limits p;
  slru_protected_fits : protected_fits p;
  slru_fits : cache_fits p }.

Lemma prot_size_range p k c : Entries p -> cells p !! k = Some c -> 0 <= prot_size c <= cell_size c.
Proof. intros HE Hk. destruct (entries_cells _ HE _ _ Hk) as [_ ?]. unfold prot_size. case_match; lia. Qed.

Lemma entries_sizes p : Entries p -> 0 <= current_protected_size p <= current_size_in_bytes p.
Proof.
  intros HE. rewrite (entries_total _ HE), (entries_protected _ HE). split.
  - apply total_nonneg. intros k c Hk. by apply (prot_size_range p) in Hk as [? _].
  - apply total_le. intros k c Hk. by apply (prot_size_range p) in Hk as [_ ?].
Qed.

Lemma entries_counts p :
  Entries p -> size (cells p) = (length (probationary_queue p) + length (protected_queue p))%nat.
Proof. intros [Hq _ _ _ _]. by rewrite <- (enumerates_length _ _ Hq), length_app. Qed.

Lemma need_remove_protected p :
  Entries p -> (need_remove true p = false <-> protected_fits p).
Proof.
  intros HE. unfold need_remove, protected_fits. rewrite (entries_counts _ HE) in *.
  replace (Z.of_nat (_ + _) - _) with (Z.of_nat (length (protected_queue p))) by lia.
  set (n := Z.of_nat (length (protected_queue p))) in *. lia.
Qed.

(** The entry of a queue. *)
Lemma queued_protected key p :
  Entries p -> key ∈ protected_queue p -> exists cell, cells p !! key = Some cell /\ is_protected cell = true.
Proof.
  intros HE Hin. destruct (proj1 (proj2 (entries_queue _ HE) key)) as [cell Hc]; [apply elem_of_app; by right|].
  exists cell. split; [done|]. by apply (entries_flag _ HE _ _ Hc).
Qed.

Lemma queued_probationary key p :
  Entries p -> key ∈ probationary_queue p ->
  (key ∉ protected_queue p) /\ exists cell, cells p !! key = Some cell /\ is_protected cell = false.
Proof.
  intros HE Hin. destruct (entries_queue _ HE) as [(_ & Hd & _)%NoDup_app Hel]. pose proof (Hd _ Hin) as Hni.
  split; [done|]. destruct (proj1 (Hel key)) as [cell Hc]; [apply elem_of_app; by left|].
  exists cell. split; [done|]. apply not_true_iff_false. by rewrite (entries_flag _ HE _ _ Hc).
Qed.

Lemma demote_spec key rest lost p :
  Entries p -> current_size_in_bytes p <= 2 ^ 63 -> protected_queue p = key :: rest ->
  exists cell p', cells p !! key = Some cell /\ demote_or_evict true key rest cell lost p = (lost, p') /\
    Entries p' /\ same_limits p p' /\ current_size_in_bytes p' = current_size_in_bytes p /\
    probationary_queue p' = probationary_queue p ++ [key] /\ protected_queue p' = rest /\
    value <$> cells p' = value <$> cells p.
Proof.
  intros HE Hcur Hq. destruct (queued_protected key p HE) as (cell & Hc & Hprot); [rewrite Hq; left|].
  exists cell. unfold demote_or_evict. rewrite Hprot. eexists. split; [done|]. split; [reflexivity|].
  pose proof HE as [[Hnd Hel] Hflag Hcells Htot Hptot]. rewrite Hq in Hnd, Hel.
  assert (key ∉ rest) as Hni by (apply NoDup_app in Hnd as (_ & _ & Hnd); by apply NoDup_cons in Hnd as [? _]).
  pose proof (entries_sizes _ HE) as Hsz. destruct (Hcells _ _ Hc) as [Hw Hrange].
  assert (cell_size cell <= current_protected_size p) as Hle.
  { rewrite Hptot, (total_delete prot_size _ _ _ Hc). unfold prot_size at 1. rewrite Hprot.
    assert (0 <= total prot_size (delete key (cells p))); [|lia]. apply total_nonneg. intros k c.
    rewrite lookup_delete_Some. intros [_ Hk]. by apply (prot_size_range p) in Hk as [? _]. }
  split; [|split_and!; try done; cbn; rewrite fmap_insert; cbn; apply insert_id; by rewrite lookup_fmap, Hc].
  split; cbn.
  - apply enumerates_update; [by eexists|]. rewrite <- app_assoc. by split.
  - intros k c. rewrite lookup_insert_Some. intros [[<- <-] | [Hne Hk]]; cbn; [done|].
    rewrite (Hflag _ _ Hk), Hq, elem_of_cons. intuition congruence.
  - intros k c. rewrite lookup_insert_Some. intros [[<- <-] | [Hne Hk]]; cbn; [done | by eapply Hcells].
  - rewrite total_insert, Hc. cbn. lia.
  - rewrite total_insert, Hc, <- Hptot, uwrap_small by (unfold in_unsigned; lia).
    unfold prot_size. cbn. rewrite Hprot. lia.
Qed.

Lemma evict_spec key rest lost p :
  Entries p -> 0 <= lost -> lost + current_size_in_bytes p <= 2 ^ 63 -> probationary_queue p = key :: rest ->
  exists cell p', cells p !! key = Some cell /\
    demote_or_evict false key rest cell lost p = (lost + (current_size_in_bytes p - current_size_in_bytes p'), p') /\
    Entries p' /\ same_limits p p' /\ 0 <= current_size_in_bytes p' <= current_size_in_bytes p /\
    current_protected_size p' = current_protected_size p /\
    probationary_queue p' = rest /\ protected_queue p' = protected_queue p /\ cells p' = delete key (cells p).
Proof.
  intros HE Hlost Hcur Hq. destruct (queued_probationary key p HE) as (Hni & cell & Hc & Hprot); [rewrite Hq; left|].
  exists cell. unfold demote_or_evict. rewrite Hprot. pose proof HE as [Hen Hflag Hcells Htot Hptot]. rewrite Hq in Hen.
  destruct (Hcells _ _ Hc) as [Hw Hrange]. pose proof (entries_sizes _ HE) as Hsz.
  assert (cell_size cell <= current_size_in_bytes p) as Hle.
  { rewrite Htot, (total_delete cell_size _ _ _ Hc). assert (0 <= total cell_size (delete key (cells p))); [|lia].
    apply total_nonneg. intros k c. rewrite lookup_delete_Some. intros [_ Hk]. by apply Hcells in Hk as [_ [? _]]. }
  rewrite !uwrap_small by (unfold in_unsigned; lia). eexists. split; [done|]. split; [f_equal; cbn; lia|].
  split; [|split_and!; try done; cbn; lia]. split; cbn.
  - exact (enumerates_pop _ _ _ Hen).
  - intros k c. rewrite lookup_delete_Some. intros [_ Hk]. by apply Hflag.
  - intros k c. rewrite lookup_delete_Some. intros [_ Hk]. by eapply Hcells.
  - rewrite Htot, (total_delete cell_size _ _ _ Hc). lia.
  - rewrite Hptot, (total_delete prot_size _ _ _ Hc). unfold prot_size at 1. rewrite Hprot. lia.
Qed.

Lemma protected_empty_size p : Entries p -> protected_queue p = [] -> current_protected_size p = 0.
Proof.
  intros HE Hq. rewrite (entries_protected _ HE). apply total_zero. intros k c Hk. unfold prot_size.
  destruct (is_protected c) eqn:E; [|done]. apply (entries_flag _ HE _ _ Hk) in E. rewrite Hq in E. by apply elem_of_nil in E.
Qed.

Lemma probationary_empty_size p :
  Entries p -> probationary_queue p = [] ->
  current_size_in_bytes p = current_protected_size p /\ size (cells p) = length (protected_queue p).
Proof.
  intros HE Hq. split; [|by rewrite (entries_counts _ HE), Hq].
  rewrite (entries_total _ HE), (entries_protected _ HE). apply total_ext. intros k c Hk. unfold prot_size.
  rewrite (proj2 (entries_flag _ HE _ _ Hk)); [done|].
  pose proof (proj2 (proj2 (entries_queue _ HE) k) (mk_is_Some _ _ Hk)) as Hin. by rewrite Hq in Hin.
Qed.

(** The first pass moves the oldest protected entries to the probationary
    segment and loses nothing. *)
Lemma protected_pass n : forall lost p,
  Entries p -> Limits p -> current_size_in_bytes p <= 2 ^ 63 -> length (protected_queue p) = n ->
  exists i p', overflow_loop true n lost p = Some (lost, p') /\ Entries p' /\ same_limits p p' /\ protected_fits p' /\
    current_size_in_bytes p' = current_size_in_bytes p /\ value <$> cells p' = value <$> cells p /\
    probationary_queue p' = probationary_queue p ++ take i (protected_queue p) /\
    protected_queue p' = drop i (protected_queue p).
Proof.
  induction n as [|n IH]; intros lost p HE HL Hcur Hn; cbn [overflow_loop].
  - apply nil_length_inv in Hn. pose proof (protected_empty_size p HE Hn) as H0. exists 0%nat, p.
    rewrite drop_0, app_nil_r. split_and!; try done. split; [rewrite H0; apply HL|]. rewrite Hn. right. apply HL.
  - destruct (need_remove true p) eqn:En.
    + cbn [queue_of]. destruct (protected_queue p) as [|key rest] eqn:Eq; [done|]. cbn in Hn.
      destruct (demote_spec key rest lost p HE Hcur Eq) as (cell & p1 & -> & -> & HE1 & (Hl1&Hl2&Hl3&Hl4) & Hc1 & Hb1 & Hp1 & Hv1).
      destruct (IH lost p1 HE1) as (i & p' & -> & HE' & (Hm1&Hm2&Hm3&Hm4) & Hf' & Hc' & Hv' & Hb' & Hp');
        [by destruct HL; split; rewrite ?Hl1, ?Hl2, ?Hl3 | lia | rewrite Hp1; lia|].
      exists (S i), p'. split_and!; try done; [split_and!; congruence | lia | congruence | | by rewrite Hp', Hp1].
      rewrite Hb', Hb1, Hp1, <- app_assoc. done.
    + exists 0%nat, p. rewrite drop_0, app_nil_r. split_and!; try done; by apply need_remove_protected.
Qed.

(** The second pass evicts the oldest entries on probation. *)
Lemma probationary_pass n : forall lost p,
  Entries p -> Limits p -> protected_fits p -> 0 <= lost -> lost + current_size_in_bytes p <= 2 ^ 63 ->
  length (probationary_queue p) = n ->
  exists i p', overflow_loop false n lost p = Some (lost + (current_size_in_bytes p - current_size_in_bytes p'), p') /\
    Entries p' /\ same_limits p p' /\ cache_fits p' /\ current_protected_size p' = current_protected_size p /\
    probationary_queue p' = drop i (probationary_queue p) /\ protected_queue p' = protected_queue p /\
    cells p' = restrict (probationary_queue p' ++ protected_queue p') (cells p).
Proof.
  induction n as [|n IH]; intros lost p HE HL HP Hlost Hcur Hn; cbn [overflow_loop].
  - apply nil_length_inv in Hn. destruct (probationary_empty_size p HE Hn) as [Hs Hc]. exists 0%nat, p.
    rewrite drop_0, (restrict_all _ _ (entries_queue _ HE)), Z.sub_diag, Z.add_0_r. destruct HP as [HP1 HP2].
    split_and!; try done. split; [lia | by rewrite Hc].
  - destruct (need_remove false p) eqn:En.
    + cbn [queue_of]. destruct (probationary_queue p) as [|key rest] eqn:Eq; [done|]. cbn in Hn.
      destruct (evict_spec key rest lost p HE Hlost Hcur Eq)
        as (cell & p1 & -> & -> & HE1 & (Hl1&Hl2&Hl3&Hl4) & Hc1 & Hs1 & Hb1 & Hp1 & Hcells).
      destruct (IH (lost + (current_size_in_bytes p - current_size_in_bytes p1)) p1 HE1)
        as (i & p' & -> & HE' & (Hm1&Hm2&Hm3&Hm4) & Hf' & Hs' & Hb' & Hp' & Hc').
      { by destruct HL; split; rewrite ?Hl1, ?Hl2, ?Hl3. }
      { unfold protected_fits in *. by rewrite Hs1, Hl2, Hl3, Hp1. }
      { lia. }
      { lia. }
      { rewrite Hb1. lia. }
      exists (S i), p'. rewrite Hb1 in Hb'. rewrite Hp1 in Hp'.
      split_and!; try done; [f_equal; f_equal; lia | split_and!; congruence | lia|].
      pose proof (entries_queue _ HE) as Hen. rewrite Eq in Hen. cbn in Hen.
      rewrite Hc', Hcells, (restrict_pop _ _ _ Hen). apply restrict_restrict.
      rewrite Hb', Hp'. apply list_subseteq_app_iff_l. split; [|by apply list_subseteq_app_r].
      apply list_subseteq_app_l, subseteq_drop.
    + exists 0%nat, p. rewrite drop_0, (restrict_all _ _ (entries_queue _ HE)), Z.sub_diag, Z.add_0_r.
      split_and!; try done. unfold need_remove in En. unfold cache_fits.
      set (z := Z.of_nat (size (cells p))) in *. lia.
Qed.

Lemma removeOverflow_protected p :
  Entries p -> Limits p -> current_size_in_bytes p <= 2 ^ 63 ->
  exists i p', removeOverflow true p = Some (0, p') /\ Entries p' /\ same_limits p p' /\ protected_fits p' /\
    current_size_in_bytes p' = current_size_in_bytes p /\ value <$> cells p' = value <$> cells p /\
    probationary_queue p' = probationary_queue p ++ take i (protected_queue p) /\
    protected_queue p' = drop i (protected_queue p).
Proof.
  intros HE HL Hcur. unfold removeOverflow. cbn [queue_of].
  destruct (protected_pass _ 0 p HE HL Hcur eq_refl) as (i & p' & -> & HE' & Hl & Hf & Hc & Hrest).
  exists i, p'. rewrite Hc. replace (2 ^ 63 <? current_size_in_bytes p) with false by lia. done.
Qed.

Lemma same_limits_limits p p' : same_limits p p' -> Limits p -> Limits p'.
Proof. intros (H1&H2&H3&_) []. by split; rewrite ?H1, ?H2, ?H3. Qed.

Lemma same_limits_trans p1 p2 p3 : same_limits p1 p2 -> same_limits p2 p3 -> same_limits p1 p3.
Proof. intros (?&?&?&?) (?&?&?&?). repeat split; congruence. Qed.

Lemma removeOverflow_probationary p :
  Entries p -> Limits p -> protected_fits p -> current_size_in_bytes p <= 2 ^ 63 ->
  exists i p', removeOverflow false p = Some (current_size_in_bytes p - current_size_in_bytes p', p') /\
    slru_inv p' /\ same_limits p p' /\
    probationary_queue p' = drop i (probationary_queue p) /\ protected_queue p' = protected_queue p /\
    cells p' = restrict (probationary_queue p' ++ protected_queue p') (cells p).
Proof.
  intros HE HL HP Hcur. unfold removeOverflow. cbn [queue_of].
  destruct (probationary_pass _ 0 p HE HL HP ltac:(lia) ltac:(lia) eq_refl)
    as (i & p' & -> & HE' & Hl & Hf & Hc & Hb & Hp & Hcells).
  pose proof (same_limits_limits _ _ Hl HL) as HL'. exists i, p'.
  replace (2 ^ 63 <? current_size_in_bytes p') with false.
  - split_and!; try done. split; try done. destruct Hl as (H1&H2&H3&_).
    unfold protected_fits in *. by rewrite Hc, H2, H3, Hp.
  - destruct Hf as [Hf _]. destruct HL' as [H1 H2 _]. unfold size_limit in *. lia.
Qed.

Lemma slru_contents_total p : Entries p -> total (ptr_weight weight) (value <$> cells p) = current_size_in_bytes p.
Proof. intros HE. rewrite (entries_total _ HE), total_fmap. apply total_ext. intros k c Hk. by apply HE in Hk as [-> _]. Qed.

Lemma removeOverflows_spec p :
  Entries p -> Limits p -> current_size_in_bytes p <= 2 ^ 63 ->
  exists lost p', removeOverflows p = Some (lost, p') /\ slru_inv p' /\ same_limits p p' /\
    value <$> cells p' ⊆ value <$> cells p /\
    lost = total (ptr_weight weight) (value <$> cells p) - total (ptr_weight weight) (value <$> cells p').
Proof.
  intros HE HL Hcur. unfold removeOverflows.
  destruct (removeOverflow_protected p HE HL Hcur) as (i & p1 & -> & HE1 & Hl1 & Hf1 & Hc1 & Hv1 & _).
  destruct (removeOverflow_probationary p1 HE1) as (j & p2 & -> & Hinv & Hl2 & _ & _ & Hcells);
    [by eapply same_limits_limits | done | lia|].
  do 2 eexists. split; [reflexivity|]. split_and!; [done | by eapply same_limits_trans | |].
  - rewrite <- Hv1, Hcells. apply map_fmap_mono, restrict_subseteq.
  - rewrite !slru_contents_total by (done || apply Hinv). lia.
Qed.

(** ** Entries that are set or used *)

Lemma entries_new key v p :
  Entries p -> cells p !! key = None -> 0 <= ptr_weight weight v <= size_limit ->
  Entries (with_entries (probationary_queue p ++ [key]) (protected_queue p)
    (<[key := {| is_protected := false; value := v; cell_size := ptr_weight weight v |}]> (cells p))
    (current_protected_size p) (current_size_in_bytes p + ptr_weight weight v) p).
Proof.
  intros [Hq Hflag Hcells Htot Hptot] Hk Hw. split; cbn.
  - eapply enumerates_perm; [|by apply enumerates_new]. rewrite <- app_assoc. apply Permutation_middle.
  - intros k c. rewrite lookup_insert_Some. intros [[<- <-] | [_ Hc]]; cbn; [|by apply Hflag]. split; [done|].
    intros Hin. destruct (proj1 (proj2 Hq key)) as [c Hc]; [apply elem_of_app; by right|]. by rewrite Hk in Hc.
  - intros k c. rewrite lookup_insert_Some. intros [[_ <-] | [_ Hc]]; [done | by eapply Hcells].
  - rewrite total_insert, Hk. cbn. lia.
  - rewrite total_insert, Hk. unfold prot_size at 1. cbn. lia.
Qed.

(** An entry on probation becomes protected, with a value. *)
Lemma entries_promote key cell v p :
  Entries p -> cells p !! key = Some cell -> is_protected cell = false -> 0 <= ptr_weight weight v <= size_limit ->
  Entries (with_entries (queue_erase key (probationary_queue p)) (protected_queue p ++ [key])
    (<[key := {| is_protected := true; value := v; cell_size := ptr_weight weight v |}]> (cells p))
    (current_protected_size p + ptr_weight weight v) (current_size_in_bytes p - cell_size cell + ptr_weight weight v) p).
Proof.
  intros [[Hnd Hel] Hflag Hcells Htot Hptot] Hk Hp Hw.
  assert (key ∉ protected_queue p) as Hni by (rewrite <- (Hflag _ _ Hk); congruence).
  split; cbn.
  - apply enumerates_update; [by eexists|]. eapply enumerates_perm; [|exact (conj Hnd Hel)].
    rewrite (Permutation_app_comm (protected_queue p)), app_assoc. apply Permutation_app_tail. symmetry. apply move_to_end_perm.
    + by apply NoDup_app in Hnd as [? _].
    + pose proof (proj2 (Hel key) (mk_is_Some _ _ Hk)) as [?|?]%elem_of_app; done.
  - intros k c. rewrite lookup_insert_Some, elem_of_app, list_elem_of_singleton.
    intros [[<- <-] | [Hne Hc]]; cbn; [tauto|]. rewrite (Hflag _ _ Hc). intuition congruence.
  - intros k c. rewrite lookup_insert_Some. intros [[_ <-] | [_ Hc]]; [done | by eapply Hcells].
  - rewrite total_insert, Hk. cbn. lia.
  - rewrite total_insert, Hk. unfold prot_size at 1 3. cbn. rewrite Hp. lia.
Qed.

(** A protected entry becomes the newest one, with a value. *)
Lemma entries_refresh key cell v p :
  Entries p -> cells p !! key = Some cell -> is_protected cell = true -> 0 <= ptr_weight weight v <= size_limit ->
  Entries (with_entries (probationary_queue p) (move_to_end key (protected_queue p))
    (<[key := {| is_protected := true; value := v; cell_size := ptr_weight weight v |}]> (cells p))
    (current_protected_size p - cell_size cell + ptr_weight weight v)
    (current_size_in_bytes p - cell_size cell + ptr_weight weight v) p).
Proof.
  intros [[Hnd Hel] Hflag Hcells Htot Hptot] Hk Hp Hw.
  assert (key ∈ protected_queue p) as Hin by by apply (Hflag _ _ Hk).
  assert (move_to_end key (protected_queue p) ≡ₚ protected_queue p) as Hperm
    by (apply move_to_end_perm; [by apply NoDup_app in Hnd as (_ & _ & ?) | done]).
  split; cbn.
  - apply enumerates_update; [by eexists|]. eapply enumerates_perm; [|exact (conj Hnd Hel)].
    by apply Permutation_app_head.
  - intros k c. rewrite lookup_insert_Some. setoid_rewrite Hperm. intros [[<- <-] | [_ Hc]]; [done | by apply Hflag].
  - intros k c. rewrite lookup_insert_Some. intros [[_ <-] | [_ Hc]]; [done | by eapply Hcells].
  - rewrite total_insert, Hk. cbn. lia.
  - rewrite total_insert, Hk. unfold prot_size at 1 3. cbn. rewrite Hp. lia.
Qed.

Lemma cell_bounds key cell p :
  Entries p -> cells p !! key = Some cell ->
  0 <= cell_size cell <= current_size_in_bytes p /\ (is_protected cell = true -> cell_size cell <= current_protected_size p).
Proof.
  intros HE Hk. destruct (entries_cells _ HE _ _ Hk) as [_ Hr]. split.
  - rewrite (entries_total _ HE), (total_delete cell_size _ _ _ Hk).
    assert (0 <= total cell_size (delete key (cells p))); [|lia]. apply total_nonneg. intros k c.
    rewrite lookup_delete_Some. intros [_ Hc]. by apply HE in Hc as [_ [? _]].
  - intros Hp. rewrite (entries_protected _ HE), (total_delete prot_size _ _ _ Hk). unfold prot_size at 1. rewrite Hp.
    assert (0 <= total prot_size (delete key (cells p))); [|lia]. apply total_nonneg. intros k c.
    rewrite lookup_delete_Some. intros [_ Hc]. by apply (prot_size_range p) in Hc as [? _].
Qed.

Lemma slru_insert_spec key v p :
  slru_inv p -> 0 <= ptr_weight weight v <= size_limit ->
  let p' := slru_insert key v p in
  Entries p' /\ current_size_in_bytes p' <= 2 ^ 63 /\ same_limits p p' /\
  value <$> cells p' = <[key := v]> (value <$> cells p).
Proof.
  intros [HE [HL1 HL2 _] _ [Hf _]] Hw. pose proof (entries_sizes _ HE) as Hs. unfold slru_insert, size_limit in *.
  destruct (cells p !! key) as [cell|] eqn:Ek.
  - destruct (cell_bounds _ _ _ HE Ek) as [Hb Hbp].
    rewrite (uwrap_small 64 (current_size_in_bytes p - _)), (uwrap_small 64 (_ - _ + _)) by (unfold in_unsigned; lia).
    destruct (is_protected cell) eqn:Ep.
    + specialize (Hbp eq_refl). rewrite (uwrap_small 64 (_ - cell_size cell)), uwrap_small by (unfold in_unsigned; lia).
      split_and!; [by apply entries_refresh | cbn; lia | done | cbn; by rewrite fmap_insert].
    + rewrite uwrap_small by (unfold in_unsigned; lia).
      split_and!; [by apply entries_promote | cbn; lia | done | cbn; by rewrite fmap_insert].
  - rewrite Z.add_0_r, !uwrap_small by (unfold in_unsigned; lia).
    split_and!; [by apply entries_new | cbn; lia | done | cbn; by rewrite fmap_insert].
Qed.

Lemma access_spec key cell p :
  slru_inv p -> cells p !! key = Some cell ->
  exists p', access key cell p = Some p' /\ slru_inv p' /\ value <$> cells p' = value <$> cells p.
Proof.
  intros [HE HL [HP1 HP2] HF] Hk. destruct (entries_cells _ HE _ _ Hk) as [Hcs Hw]. destruct (cell_bounds _ _ _ HE Hk) as [Hb Hbp].
  pose proof (entries_sizes _ HE) as Hs. rewrite Hcs in Hw. unfold access.
  assert (forall b, value <$> <[key := {| is_protected := b; value := value cell; cell_size := cell_size cell |}]> (cells p)
    = value <$> cells p) as Hv by (intros b; rewrite fmap_insert; apply insert_id; by rewrite lookup_fmap, Hk).
  destruct (is_protected cell) eqn:Ep.
  - eexists. split; [reflexivity|]. split; [|done]. pose proof (entries_refresh key cell (value cell) p HE Hk Ep Hw) as HE'.
    rewrite <- Hcs, !Z.sub_add, insert_id in HE' by (rewrite Hk; by destruct cell; cbn in *; subst).
    split; [done | by destruct HL | | by destruct HF]. split; [done|]. cbn. unfold move_to_end. rewrite length_app. cbn.
    destruct HP2 as [?|HP2]; [by left | right].
    assert (key ∈ protected_queue p) as Hin by by apply (entries_flag _ HE _ _ Hk).
    destruct (entries_queue _ HE) as [(_ & _ & Hnd)%NoDup_app _].
    pose proof (Permutation_length (move_to_end_perm _ _ Hnd Hin)) as Hlen. unfold move_to_end in Hlen. rewrite length_app in Hlen. cbn in Hlen. lia.
  - pose proof (entries_promote key cell (value cell) p HE Hk Ep Hw) as HE'. rewrite <- Hcs, Z.sub_add in HE'.
    destruct HF as [HF1 HF2]. pose proof HL as [HL1 HL2 _]. unfold size_limit in *.
    rewrite uwrap_small by (unfold in_unsigned; lia).
    destruct (removeOverflow_protected _ HE') as (i & p' & -> & HE2 & Hl & Hf & Hc & Hv' & Hrest); [by destruct HL | cbn; lia|].
    exists p'. split; [done|]. split; [|by rewrite Hv'; cbn].
    split; [done | by eapply same_limits_limits; [exact Hl | destruct HL] | done|].
    destruct Hl as (Hl1 & Hl2 & Hl3 & _). unfold cache_fits. rewrite Hc, Hl1, Hl2, Hl3. split; [exact HF1|]. cbn in *.
    rewrite <- (map_size_fmap value (cells p')), Hv', Hv, map_size_fmap. done.
Qed.

Lemma slru_remove_spec key p :
  slru_inv p -> slru_inv (slru_remove key p) /\ cells (slru_remove key p) = delete key (cells p).
Proof.
  intros [HE HL [HP1 HP2] [HF1 HF2]]. unfold slru_remove. destruct (cells p !! key) as [cell|] eqn:Ek; [|by rewrite delete_id].
  pose proof HE as [Hq Hflag Hcells Htot Hptot]. destruct (cell_bounds _ _ _ HE Ek) as [Hb Hbp].
  pose proof (entries_sizes _ HE) as Hs. pose proof HL as [HL1 HL2 _]. unfold size_limit in *.
  assert (forall q, (length (queue_erase key q) <= length q)%nat) as Hlen by (intros q; apply length_filter).
  assert (size (delete key (cells p)) <= size (cells p))%nat as Hsize
    by (rewrite map_size_delete_Some by (by eexists); lia).
  rewrite (uwrap_small 64 (current_size_in_bytes p - _)) by (unfold in_unsigned; lia).
  split; [|done]. split; [|by destruct HL| |].
  - pose proof (enumerates_erase key _ _ Hq) as Hq'. rewrite queue_erase_app in Hq'.
    pose proof (Hflag _ _ Ek) as Hf. split; cbn.
    + destruct (is_protected cell) eqn:Ep.
      * rewrite (queue_erase_absent key (probationary_queue p)) in Hq'; [done|]. intros Hin.
        by apply (queued_probationary key p HE) in Hin as [[] _]; apply Hf.
      * rewrite (queue_erase_absent key (protected_queue p)) in Hq'; [done|]. rewrite <- Hf. done.
    + intros k c. rewrite lookup_delete_Some. intros [Hne Hc]. rewrite (Hflag _ _ Hc).
      destruct (is_protected cell); [|done]. rewrite elem_of_queue_erase. intuition congruence.
    + intros k c. rewrite lookup_delete_Some. intros [_ Hc]. by eapply Hcells.
    + rewrite Htot, (total_delete cell_size _ _ _ Ek). lia.
    + rewrite Hptot, (total_delete prot_size _ _ _ Ek) in *. unfold prot_size at 1 3. destruct (is_protected cell) eqn:Ep; [|lia].
      specialize (Hbp eq_refl). unfold prot_size at 1 in Hbp. unfold prot_size at 1 3 in Hs. rewrite Ep in *.
      rewrite uwrap_small by (unfold in_unsigned; lia). lia.
  - split; cbn; destruct (is_protected cell).
    + specialize (Hbp eq_refl). rewrite uwrap_small by (unfold in_unsigned; lia). lia.
    + lia.
    + specialize (Hlen (protected_queue p)). lia.
    + done.
  - split; cbn; lia.
Qed.

Lemma entries_limits a b c p : Entries p -> Entries (with_limits a b c p).
Proof. intros []. by split. Qed.

Lemma slru_current_le p : slru_inv p -> current_size_in_bytes p <= 2 ^ 63.
Proof. intros [_ [H1 H2 _] _ [Hf _]]. unfold size_limit in *. lia. Qed.

#[global] Instance SLRU_laws : CachePolicyLaws K V SLRUCachePolicy weight.
Proof.
  refine {| policy_inv := slru_inv; contents p := value <$> cells p |}.
  - intros p [HE _ _ _]. by rewrite slru_contents_total.
  - intros p _. cbn. by rewrite map_size_fmap.
  - intros p k _. cbn. rewrite lookup_fmap. by destruct (cells p !! k).
  - intros p _. cbn. rewrite map_to_list_fmap. apply list_fmap_ext. by intros i [k c] _.
  - intros p k Hinv. cbn. unfold slru_get. rewrite lookup_fmap. destruct (cells p !! k) as [c|] eqn:Ek; cbn; [|by exists p].
    destruct (access_spec k c p Hinv Ek) as (p' & -> & Hi & Hv). by exists p'.
  - intros p k Hinv. cbn. unfold slru_getWithKey. rewrite lookup_fmap. destruct (cells p !! k) as [c|] eqn:Ek; cbn; [|by exists p].
    destruct (access_spec k c p Hinv Ek) as (p' & -> & Hi & Hv). by exists p'.
  - intros p k v Hinv Hw. destruct (slru_insert_spec k v p Hinv Hw) as (HE & Hcur & Hl & <-).
    destruct (removeOverflows_spec (slru_insert k v p) HE) as (lost & p' & ? & ? & _ & ? & ?);
      [eapply same_limits_limits; [exact Hl | apply Hinv] | done|]. by exists lost, p'.
  - intros p k Hinv. destruct (slru_remove_spec k p Hinv) as [Hi Hc]. split; [done|]. cbn. by rewrite Hc, fmap_delete.
  - intros p f Hinv.
    destruct (remove_loop_spec cells slru_inv slru_remove (fun k c => f k (value c)) slru_remove_spec p Hinv) as [Hi Hc].
    split; [exact Hi|]. cbn. unfold slru_remove_if. rewrite Hc. apply fmap_filter_values.
  - intros p [HE HL HP HF]. split; [|cbn; by rewrite fmap_empty]. pose proof HL as [H1 H2 H3]. split; [| by destruct HL | |].
    + split; cbn; [apply enumerates_empty | intros k c; by rewrite lookup_empty | intros k c; by rewrite lookup_empty
        | by rewrite total_empty ..].
    + split; cbn; [lia | right; lia].
    + split; cbn; [lia | rewrite map_size_empty; right; lia].
  - intros p n Hinv Hn. pose proof Hinv as [HE [H1 H2 H3] _ _]. pose proof (slru_current_le p Hinv).
    destruct (removeOverflows_spec (with_limits (max_size_in_bytes p) (max_protected_size p) n p))
      as (lost & p' & ? & ? & _ & ? & ?); [by apply entries_limits | by split | done|]. by exists lost, p'.
  - intros p n Hinv Hn. pose proof Hinv as [HE [H1 H2 H3] _ _]. pose proof (slru_current_le p Hinv).
    destruct (removeOverflows_spec (with_limits n (calculateMaxProtectedSize n (size_ratio p)) (max_count p) p))
      as (lost & p' & ? & ? & _ & ? & ?);
      [by apply entries_limits | split; [done | by apply calculateMaxProtectedSize_le | done] | done|]. by exists lost, p'.
Defined.

(** * Scans *)

(** A sequence of calls of [set]. *)
Fixpoint scan (entries : list (K * MappedPtr V)) (p : SLRUCachePolicy) : option SLRUCachePolicy :=
  match entries with
  | [] => Some p
  | (key, mapped) :: entries =>
      match slru_set key mapped p with
      | None => None
      | Some (_, p) => scan entries p
      end
  end.

(** The pass over a protected segment within its limits does nothing. *)
Lemma protected_pass_idle n lost p : Entries p -> protected_fits p -> overflow_loop true n lost p = Some (lost, p).
Proof. intros HE HP. apply (need_remove_protected p HE) in HP. destruct n; [done|]. cbn [overflow_loop]. by rewrite HP. Qed.

Lemma set_new_spec key v p :
  slru_inv p -> cells p !! key = None -> 0 <= ptr_weight weight v <= size_limit ->
  exists lost p', slru_set key v p = Some (lost, p') /\ slru_inv p' /\ same_limits p p' /\
    protected_queue p' = protected_queue p /\
    (forall k, k ∈ protected_queue p -> cells p' !! k = cells p !! k) /\
    (forall k, k <> key -> cells p !! k = None -> cells p' !! k = None).
Proof.
  intros Hinv Hk Hw. pose proof Hinv as [HE HL HP HF]. pose proof (entries_sizes _ HE) as Hs.
  destruct (slru_insert_spec key v p Hinv Hw) as (HE1 & Hcur & Hl1 & Hv).
  assert (protected_queue (slru_insert key v p) = protected_queue p /\
    current_protected_size (slru_insert key v p) = current_protected_size p /\
    forall k, k <> key -> cells (slru_insert key v p) !! k = cells p !! k) as (Hpq & Hps & Hkeep).
  { unfold slru_insert. rewrite Hk. cbn. rewrite Z.add_0_r. split_and!; [done | |intros k Hne; by rewrite lookup_insert_ne].
    apply uwrap_small. destruct HP as [HP1 _]. destruct HL as [_ HL2 _]. unfold in_unsigned, size_limit in *. lia. }
  unfold slru_set, removeOverflows. set (p1 := slru_insert key v p) in *.
  assert (protected_fits p1) as HP1.
  { unfold protected_fits. destruct Hl1 as (_ & -> & -> & _). by rewrite Hps, Hpq. }
  assert (Limits p1) as HL1 by by eapply same_limits_limits.
  unfold removeOverflow at 1. rewrite protected_pass_idle by done. replace (2 ^ 63 <? current_size_in_bytes p1) with false by lia.
  destruct (removeOverflow_probationary p1 HE1 HL1 HP1 Hcur) as (i & p' & -> & Hinv' & Hl' & Hb & Hp & Hc).
  do 2 eexists. split; [reflexivity|]. split_and!; [done | by eapply same_limits_trans | congruence | |].
  - intros k Hin. assert (k <> key) as Hne.
    { intros ->. destruct (queued_protected key p HE Hin) as (c & Hc' & _). congruence. }
    rewrite Hc, restrict_lookup, decide_True by (apply elem_of_app; right; congruence). by apply Hkeep.
  - intros k Hne Hn. rewrite Hc, restrict_lookup, Hkeep, Hn by done. by case_decide.
Qed.

(** C26: A scan does not flush the frequently used entries: setting any number
    of new entries, however large, succeeds and leaves the protected segment as it
    is, keys, order and cells, while the cache stays within its limits. *)
Theorem slru_scan_resistant entries : forall p,
  slru_inv p -> NoDup entries.*1 -> (forall key, key ∈ entries.*1 -> cells p !! key = None) ->
  (forall v, v ∈ entries.*2 -> 0 <= ptr_weight weight v <= size_limit) ->
  exists p', scan entries p = Some p' /\ slru_inv p' /\ same_limits p p' /\
    protected_queue p' = protected_queue p /\ forall key, key ∈ protected_queue p -> cells p' !! key = cells p !! key.
Proof.
  induction entries as [|[key v] entries IH]; intros p Hinv Hnd Hnew Hw; cbn [scan]; [by exists p|].
  apply NoDup_cons in Hnd as [Hni Hnd].
  destruct (set_new_spec key v p Hinv) as (lost & p1 & -> & Hinv1 & Hl1 & Hp1 & Hc1 & Hn1);
    [apply Hnew; left | apply Hw; left|].
  destruct (IH p1 Hinv1 Hnd) as (p' & -> & Hinv' & Hl' & Hp' & Hc').
  { intros k Hk. apply Hn1; [by intros -> | apply Hnew; by right]. }
  { intros w Hwin. apply Hw. by right. }
  exists p'. split_and!; [done | done | by eapply same_limits_trans | congruence|].
  intros k Hk. rewrite Hc' by (by rewrite Hp1). by apply Hc1.
Qed.
End SLRU.

Arguments Cell : clear implicits.
Arguments SLRUCachePolicy _ _ {_ _}.

Lemma slru_new_inv {K V} `{Countable K} (weight : V -> Z) max_size max_cnt ratio :
  0 <= max_size <= size_limit -> 0 <= max_cnt -> slru_inv weight (slru_new max_size max_cnt ratio : SLRUCachePolicy K V).
Proof.
  intros Hs Hc. pose proof (calculateMaxProtectedSize_le max_size ratio Hs) as Hp. split; [| by split | |].
  - split; cbn; [apply enumerates_empty | intros k c; by rewrite lookup_empty | intros k c; by rewrite lookup_empty
      | by rewrite total_empty ..].
  - split; cbn; [lia | right; lia].
  - split; cbn; [lia | rewrite map_size_empty; right; lia].
Qed.

(** A cache for ten bytes, half of them protected, with one protected entry. *)
Definition half : spec_float := S754_finite false 4503599627370496 (-53).

Definition small_cache : SLRUCachePolicy Z Z :=
  with_entries [] [1] {[ 1 := {| is_protected := true; value := Some 3; cell_size := 3 |} ]} 3 3 (slru_new 10 0 half).

Lemma small_cache_inv : slru_inv (fun v => v) small_cache.
Proof.
  split.
  - split.
    + apply (enumerates_push 1 _ [] ∅), enumerates_empty.
    + intros k c. cbn. rewrite lookup_singleton_Some. intros [<- <-]. cbn. by rewrite list_elem_of_singleton.
    + intros k c. cbn. rewrite lookup_singleton_Some. intros [_ <-]. by vm_compute.
    + by vm_compute.
    + by vm_compute.
  - split; by vm_compute.
  - split; [by vm_compute | by left].
  - split; [by vm_compute | by left].
Qed.

(** Two values of nine bytes pass through it. *)
Lemma slru_scan_resistant_witness :
  exists p', scan (fun v => v) [(2, Some 9); (3, Some 9)] small_cache = Some p' /\ protected_queue p' = [1].
Proof.
  destruct (slru_scan_resistant (fun v : Z => v) [(2, Some 9); (3, Some 9)] small_cache small_cache_inv)
    as (p' & Heq & _ & _ & Hp & _).
  - by apply (bool_decide_unpack (NoDup [2; 3])).
  - intros key Hk. cbn in Hk. rewrite !elem_of_cons in Hk.
    destruct Hk as [->|[->|Hk]]; [by vm_compute | by vm_compute | by apply elem_of_nil in Hk].
  - intros v Hv. cbn in Hv. rewrite !elem_of_cons in Hv.
    destruct Hv as [->|[->|Hv]]; [by vm_compute | by vm_compute | by apply elem_of_nil in Hv].
  - by exists p'.
Defined.
