(* ===== verification/CacheBase.v ===== *)
(** The thread-safe cache (src/Common/CacheBase.h): its operations over any cache
    policy, the insertion tokens by which concurrent calls of [getOrSet] share one
    load, and the system of the threads that use the cache as a step relation. *)
From S2P Require Import Prelude CachePolicy LRUCache SLRUCache.
From Stdlib Require Import Floats.SpecFloat.
Open Scope Z_scope.

(** * The policies by name *)

(** The object [cache_policy] points to. *)
Inductive AnyPolicy (K V : Type) `{Countable K} :=
| AnyLRU (p : LRUCachePolicy K V)
| AnySLRU (p : SLRUCachePolicy K V).
Arguments AnyLRU {_ _ _ _} _.
Arguments AnySLRU {_ _ _ _} _.

Section Dispatch.
Context {K V : Type} `{Countable K} (weight : V -> Z).

#[local] Abbreviation dispatch f g p :=
  (match p with
   | AnyLRU p => (fun r => (r.1, AnyLRU r.2)) <$> f p
   | AnySLRU p => (fun r => (r.1, AnySLRU r.2)) <$> g p
   end).

(** The calls of virtual methods. *)
#[global] Instance Any : ICachePolicy K V (AnyPolicy K V) := {
  sizeInBytes p := match p with AnyLRU p => sizeInBytes (ICachePolicy := LRU weight) p
                              | AnySLRU p => sizeInBytes (ICachePolicy := SLRU weight) p end;
  count p := match p with AnyLRU p => count (ICachePolicy := LRU weight) p
                        | AnySLRU p => count (ICachePolicy := SLRU weight) p end;
  maxSizeInBytes p := match p with AnyLRU p => maxSizeInBytes (ICachePolicy := LRU weight) p
                                 | AnySLRU p => maxSizeInBytes (ICachePolicy := SLRU weight) p end;
  setMaxCount n p := dispatch (setMaxCount (ICachePolicy := LRU weight) n) (setMaxCount (ICachePolicy := SLRU weight) n) p;
  setMaxSizeInBytes n p :=
    dispatch (setMaxSizeInBytes (ICachePolicy := LRU weight) n) (setMaxSizeInBytes (ICachePolicy := SLRU weight) n) p;
  clear p := match p with AnyLRU p => AnyLRU (clear (ICachePolicy := LRU weight) p)
                        | AnySLRU p => AnySLRU (clear (ICachePolicy := SLRU weight) p) end;
  remove k p := match p with AnyLRU p => AnyLRU (remove (ICachePolicy := LRU weight) k p)
                           | AnySLRU p => AnySLRU (remove (ICachePolicy := SLRU weight) k p) end;
  remove_if f p := match p with AnyLRU p => AnyLRU (remove_if (ICachePolicy := LRU weight) f p)
                              | AnySLRU p => AnySLRU (remove_if (ICachePolicy := SLRU weight) f p) end;
  get k p := dispatch (get (ICachePolicy := LRU weight) k) (get (ICachePolicy := SLRU weight) k) p;
  getWithKey k p := dispatch (getWithKey (ICachePolicy := LRU weight) k) (getWithKey (ICachePolicy := SLRU weight) k) p;
  contains k p := match p with AnyLRU p => contains (ICachePolicy := LRU weight) k p
                             | AnySLRU p => contains (ICachePolicy := SLRU weight) k p end;
  set k v p := dispatch (set (ICachePolicy := LRU weight) k v) (set (ICachePolicy := SLRU weight) k v) p;
  dump p := match p with AnyLRU p => dump (ICachePolicy := LRU weight) p
                       | AnySLRU p => dump (ICachePolicy := SLRU weight) p end }.

(** The constructor of [CacheBase] that takes the name of the policy. *)
Definition make_policy (name : string) (max_size_in_bytes max_count : Z) (size_ratio : spec_float)
    : result (AnyPolicy K V) :=
  let name := if String.eqb name "" then "SLRU"%string else name in
  if String.eqb name "LRU" then Ok (AnyLRU (lru_new max_size_in_bytes max_count))
  else if String.eqb name "SLRU" then Ok (AnySLRU (slru_new max_size_in_bytes max_count size_ratio))
  else Throw BAD_ARGUMENTS.

Definition any_contents (p : AnyPolicy K V) : gmap K (MappedPtr V) :=
  match p with
  | AnyLRU p => LRUCache.value <$> LRUCache.cells p
  | AnySLRU p => SLRUCache.value <$> SLRUCache.cells p
  end.

Definition any_inv (p : AnyPolicy K V) : Prop :=
  match p with AnyLRU p => lru_inv weight p | AnySLRU p => slru_inv weight p end.

(** A law of an operation of a policy, for the object that wraps the policy. *)
Ltac lift_result He wrap Hr :=
  split; [exact (f_equal (fmap (M := option) (fun r => (r.1, wrap r.2))) He) | exact Hr].
Ltac lift_law law wrap :=
  let p' := fresh in let He := fresh in let Hr := fresh in
  destruct law as (p' & He & Hr); exists (wrap p'); lift_result He wrap Hr.
Ltac lift_loss law wrap :=
  let l := fresh in let p' := fresh in let He := fresh in let Hr := fresh in
  destruct law as (l & p' & He & Hr); exists l, (wrap p'); lift_result He wrap Hr.

#[global] Instance Any_laws : CachePolicyLaws K V (AnyPolicy K V) weight.
Proof.
  refine {| policy_inv := any_inv; contents := any_contents |}.
  - intros [p|p] Hp; [exact (size_law (CachePolicyLaws := LRU_laws weight) p Hp) | exact (size_law (CachePolicyLaws := SLRU_laws weight) p Hp)].
  - intros [p|p] Hp; [exact (count_law (CachePolicyLaws := LRU_laws weight) p Hp) | exact (count_law (CachePolicyLaws := SLRU_laws weight) p Hp)].
  - intros [p|p] k Hp; [exact (contains_law (CachePolicyLaws := LRU_laws weight) p k Hp) | exact (contains_law (CachePolicyLaws := SLRU_laws weight) p k Hp)].
  - intros [p|p] Hp; [exact (dump_law (CachePolicyLaws := LRU_laws weight) p Hp) | exact (dump_law (CachePolicyLaws := SLRU_laws weight) p Hp)].
  - intros [p|p] k Hp; [lift_law (get_law (CachePolicyLaws := LRU_laws weight) p k Hp) (@AnyLRU K V _ _)
      | lift_law (get_law (CachePolicyLaws := SLRU_laws weight) p k Hp) (@AnySLRU K V _ _)].
  - intros [p|p] k Hp; [lift_law (getWithKey_law (CachePolicyLaws := LRU_laws weight) p k Hp) (@AnyLRU K V _ _)
      | lift_law (getWithKey_law (CachePolicyLaws := SLRU_laws weight) p k Hp) (@AnySLRU K V _ _)].
  - intros [p|p] k v Hp Hw; [lift_loss (set_law (CachePolicyLaws := LRU_laws weight) p k v Hp Hw) (@AnyLRU K V _ _)
      | lift_loss (set_law (CachePolicyLaws := SLRU_laws weight) p k v Hp Hw) (@AnySLRU K V _ _)].
  - intros [p|p] k Hp; [exact (remove_law (CachePolicyLaws := LRU_laws weight) p k Hp)
      | exact (remove_law (CachePolicyLaws := SLRU_laws weight) p k Hp)].
  - intros [p|p] f Hp; [exact (remove_if_law (CachePolicyLaws := LRU_laws weight) p f Hp)
      | exact (remove_if_law (CachePolicyLaws := SLRU_laws weight) p f Hp)].
  - intros [p|p] Hp; [exact (clear_law (CachePolicyLaws := LRU_laws weight) p Hp)
      | exact (clear_law (CachePolicyLaws := SLRU_laws weight) p Hp)].
  - intros [p|p] n Hp Hn; [lift_loss (setMaxCount_law (CachePolicyLaws := LRU_laws weight) p n Hp Hn) (@AnyLRU K V _ _)
      | lift_loss (setMaxCount_law (CachePolicyLaws := SLRU_laws weight) p n Hp Hn) (@AnySLRU K V _ _)].
  - intros [p|p] n Hp Hn; [lift_loss (setMaxSizeInBytes_law (CachePolicyLaws := LRU_laws weight) p n Hp Hn) (@AnyLRU K V _ _)
      | lift_loss (setMaxSizeInBytes_law (CachePolicyLaws := SLRU_laws weight) p n Hp Hn) (@AnySLRU K V _ _)].
Defined.

Lemma make_policy_inv name max_size max_cnt ratio p :
  0 <= max_size <= size_limit -> 0 <= max_cnt -> make_policy name max_size max_cnt ratio = Ok p ->
  any_inv p /\ any_contents p = ∅.
Proof.
  intros Hs Hc. unfold make_policy. repeat case_match; try done; intros [= <-];
    (split; [by apply lru_new_inv || by apply slru_new_inv | cbn; apply fmap_empty]).
Qed.
End Dispatch.

(** * The cache *)

Section CacheBase.
Context {K V P : Type} `{Countable K} `{!ICachePolicy K V P}.

(** [CacheBase::InsertToken], with whether its mutex is locked. *)
Record InsertToken := {
  t_locked : bool;
  t_cleaned_up : bool;
  t_value : MappedPtr V;
  t_refcount : Z }.

(** The tokens are objects of a heap, as threads and the cache share them. *)
Record CacheBase := {
  cache_policy : P;
  hits : Z;
  misses : Z;
  insert_tokens : gmap K nat;
  heap : gmap nat InsertToken;
  next_token : nat }.

Definition cache_new (p : P) : CacheBase :=
  {| cache_policy := p; hits := 0; misses := 0; insert_tokens := ∅; heap := ∅; next_token := 0 |}.

Definition with_policy (p : P) (c : CacheBase) : CacheBase := {|
  cache_policy := p; hits := hits c; misses := misses c;
  insert_tokens := insert_tokens c; heap := heap c; next_token := next_token c |}.

Definition with_tokens (ts : gmap K nat) (h : gmap nat InsertToken) (c : CacheBase) : CacheBase := {|
  cache_policy := cache_policy c; hits := hits c; misses := misses c;
  insert_tokens := ts; heap := h; next_token := next_token c |}.

Definition hit (c : CacheBase) : CacheBase := {|
  cache_policy := cache_policy c; hits := uwrap 64 (hits c + 1); misses := misses c;
  insert_tokens := insert_tokens c; heap := heap c; next_token := next_token c |}.

Definition miss (c : CacheBase) : CacheBase := {|
  cache_policy := cache_policy c; hits := hits c; misses := uwrap 64 (misses c + 1);
  insert_tokens := insert_tokens c; heap := heap c; next_token := next_token c |}.

(** ** Operations under the mutex of the cache *)

Definition cache_get (key : K) (c : CacheBase) : option (MappedPtr V * CacheBase) :=
  match get key (cache_policy c) with
  | None => None
  | Some (res, p) =>
      let c := with_policy p c in
      Some (res, match res with Some _ => hit c | None => miss c end)
  end.

(** The key that is found is the given one: keys are compared as a whole here, while the
    code allows keys with data that their comparison leaves out. *)
Definition cache_getWithKey (key : K) (c : CacheBase) : option (option (K * MappedPtr V) * CacheBase) :=
  match getWithKey key (cache_policy c) with
  | None => None
  | Some (res, p) =>
      let c := with_policy p c in
      Some (res, match res with Some _ => hit c | None => miss c end)
  end.

Definition cache_set (key : K) (mapped : MappedPtr V) (c : CacheBase) : option CacheBase :=
  (fun r => with_policy r.2 c) <$> set key mapped (cache_policy c).

Definition cache_clear (c : CacheBase) : CacheBase := {|
  cache_policy := clear (cache_policy c); hits := 0; misses := 0;
  insert_tokens := ∅; heap := heap c; next_token := next_token c |}.

Definition cache_remove (key : K) (c : CacheBase) : CacheBase := with_policy (remove key (cache_policy c)) c.

Definition cache_remove_if (predicate : K -> MappedPtr V -> bool) (c : CacheBase) : CacheBase :=
  with_policy (remove_if predicate (cache_policy c)) c.

Definition cache_setMaxCount (n : Z) (c : CacheBase) : option CacheBase :=
  (fun r => with_policy r.2 c) <$> setMaxCount n (cache_policy c).

Definition cache_setMaxSizeInBytes (n : Z) (c : CacheBase) : option CacheBase :=
  (fun r => with_policy r.2 c) <$> setMaxSizeInBytes n (cache_policy c).

(** ** The parts of [getOrSet] *)

Definition token_new : InsertToken := {| t_locked := false; t_cleaned_up := false; t_value := None; t_refcount := 0 |}.

Definition update_token (tok : nat) (f : InsertToken -> InsertToken) (c : CacheBase) : CacheBase :=
  with_tokens (insert_tokens c) (alter f tok (heap c)) c.

(** [InsertTokenHolder::acquire] *)
Definition acquire (tok : nat) (c : CacheBase) : CacheBase :=
  update_token tok (fun t => {| t_locked := t_locked t; t_cleaned_up := t_cleaned_up t; t_value := t_value t;
                                t_refcount := uwrap 64 (t_refcount t + 1) |}) c.

(** [InsertTokenHolder::cleanup] *)
Definition cleanup (key : K) (tok : nat) (c : CacheBase) : CacheBase :=
  update_token tok (fun t => {| t_locked := t_locked t; t_cleaned_up := true; t_value := t_value t;
                                t_refcount := t_refcount t |})
    (with_tokens (delete key (insert_tokens c)) (heap c) c).

(** The first critical section: a value of the cache, or the token to wait for. *)
Definition getOrSet_enter (key : K) (c : CacheBase) : option ((V + nat) * CacheBase) :=
  match get key (cache_policy c) with
  | None => None
  | Some (Some v, p) => Some (inl v, hit (with_policy p c))
  | Some (None, p) =>
      let c := with_policy p c in
      let '(tok, c) :=
        match insert_tokens c !! key with
        | Some tok => (tok, c)
        | None =>
            let tok := next_token c in
            (tok, {| cache_policy := cache_policy c; hits := hits c; misses := misses c;
                     insert_tokens := <[key := tok]> (insert_tokens c); heap := <[tok := token_new]> (heap c);
                     next_token := S tok |})
        end in
      Some (inr tok, acquire tok c)
  end.

(** The mutex of the token is taken: the value another thread left in it, or
    [None] to call the load function with the mutex locked. *)
Definition getOrSet_lock (tok : nat) (t : InsertToken) (c : CacheBase) : MappedPtr V * CacheBase :=
  match t_value t with
  | Some v => (Some v, hit c)
  | None =>
      (None, miss (update_token tok (fun t => {| t_locked := true; t_cleaned_up := t_cleaned_up t; t_value := t_value t;
                                                 t_refcount := t_refcount t |}) c))
  end.

(** The load function returned; the second part of the result tells whether the
    value is now in the cache. *)
Definition getOrSet_store (key : K) (tok : nat) (v : MappedPtr V) (c : CacheBase) : option (bool * CacheBase) :=
  let c := update_token tok (fun t => {| t_locked := false; t_cleaned_up := t_cleaned_up t; t_value := v;
                                         t_refcount := t_refcount t |}) c in
  let stored :=
    if bool_decide (insert_tokens c !! key = Some tok) then
      (fun c => (true, c)) <$> cache_set key v c
    else Some (false, c) in
  match stored, heap c !! tok with
  | Some (result, c), Some t => Some (result, if t_cleaned_up t then c else cleanup key tok c)
  | _, _ => None
  end.

(** The load function threw. *)
Definition getOrSet_throw (tok : nat) (c : CacheBase) : CacheBase :=
  update_token tok (fun t => {| t_locked := false; t_cleaned_up := t_cleaned_up t; t_value := t_value t;
                                t_refcount := t_refcount t |}) c.

(** The destructor of [InsertTokenHolder], from its locks on. *)
Definition holder_release (key : K) (tok : nat) (t : InsertToken) (c : CacheBase) : CacheBase :=
  if t_cleaned_up t then c
  else
    let c := update_token tok (fun t => {| t_locked := t_locked t; t_cleaned_up := t_cleaned_up t; t_value := t_value t;
                                           t_refcount := uwrap 64 (t_refcount t - 1) |}) c in
    if uwrap 64 (t_refcount t - 1) =? 0 then cleanup key tok c else c.

(** * The threads *)

(** A thread inside of [getOrSet]: before it locks the token, in the load
    function, and before the destructor of its holder; the last two with
    [InsertTokenHolder::cleaned_up]. *)
Inductive Thread :=
| Waits (key : K) (tok : nat)
| Loads (key : K) (tok : nat) (cleaned_up : bool)
| Leaves (key : K) (tok : nat) (cleaned_up : bool).

Record System := { cache : CacheBase; threads : list Thread }.

(** What a step shows; a process has fewer than [2 ^ 63] threads. *)
Inductive Event :=
| Got (key : K) (res : MappedPtr V)
| Set_ (key : K) (mapped : MappedPtr V)
| Removed (key : K)
| RemovedIf (predicate : K -> MappedPtr V -> bool)
| Cleared
| Resized
| Returned (key : K) (v : V)
| Loaded (key : K) (mapped : MappedPtr V) (result : bool)
| Silent.

Inductive step (weight : V -> Z) : System -> Event -> System -> Prop :=
| step_get key res c' s :
    cache_get key (cache s) = Some (res, c') ->
    step weight s (Got key res) {| cache := c'; threads := threads s |}
| step_getWithKey key res c' s :
    cache_getWithKey key (cache s) = Some (res, c') ->
    step weight s (Got key (default None (snd <$> res))) {| cache := c'; threads := threads s |}
| step_set key v c' s :
    0 <= ptr_weight weight v <= size_limit -> cache_set key v (cache s) = Some c' ->
    step weight s (Set_ key v) {| cache := c'; threads := threads s |}
| step_remove key s :
    step weight s (Removed key) {| cache := cache_remove key (cache s); threads := threads s |}
| step_remove_if f s :
    step weight s (RemovedIf f) {| cache := cache_remove_if f (cache s); threads := threads s |}
| step_clear s :
    step weight s Cleared {| cache := cache_clear (cache s); threads := threads s |}
| step_setMaxCount n c' s :
    0 <= n -> cache_setMaxCount n (cache s) = Some c' ->
    step weight s Resized {| cache := c'; threads := threads s |}
| step_setMaxSizeInBytes n c' s :
    0 <= n <= size_limit -> cache_setMaxSizeInBytes n (cache s) = Some c' ->
    step weight s Resized {| cache := c'; threads := threads s |}
| step_enter_hit key v c' s :
    getOrSet_enter key (cache s) = Some (inl v, c') ->
    step weight s (Returned key v) {| cache := c'; threads := threads s |}
| step_enter key tok c' s :
    Z.of_nat (length (threads s)) < 2 ^ 63 -> getOrSet_enter key (cache s) = Some (inr tok, c') ->
    step weight s Silent {| cache := c'; threads := Waits key tok :: threads s |}
| step_lock_hit key tok t v c' ts1 ts2 s :
    threads s = ts1 ++ Waits key tok :: ts2 -> heap (cache s) !! tok = Some t -> t_locked t = false ->
    getOrSet_lock tok t (cache s) = (Some v, c') ->
    step weight s (Returned key v) {| cache := c'; threads := ts1 ++ Leaves key tok (t_cleaned_up t) :: ts2 |}
| step_lock_load key tok t c' ts1 ts2 s :
    threads s = ts1 ++ Waits key tok :: ts2 -> heap (cache s) !! tok = Some t -> t_locked t = false ->
    getOrSet_lock tok t (cache s) = (None, c') ->
    step weight s Silent {| cache := c'; threads := ts1 ++ Loads key tok (t_cleaned_up t) :: ts2 |}
| step_store key tok b v result c' ts1 ts2 s :
    threads s = ts1 ++ Loads key tok b :: ts2 -> 0 <= ptr_weight weight v <= size_limit ->
    getOrSet_store key tok v (cache s) = Some (result, c') ->
    step weight s (Loaded key v result) {| cache := c'; threads := ts1 ++ ts2 |}
| step_throw key tok b ts1 ts2 s :
    threads s = ts1 ++ Loads key tok b :: ts2 ->
    step weight s Silent {| cache := getOrSet_throw tok (cache s); threads := ts1 ++ Leaves key tok b :: ts2 |}
| step_leave_clean key tok ts1 ts2 s :
    threads s = ts1 ++ Leaves key tok true :: ts2 ->
    step weight s Silent {| cache := cache s; threads := ts1 ++ ts2 |}
| step_leave key tok t ts1 ts2 s :
    threads s = ts1 ++ Leaves key tok false :: ts2 -> heap (cache s) !! tok = Some t -> t_locked t = false ->
    step weight s Silent {| cache := holder_release key tok t (cache s); threads := ts1 ++ ts2 |}.

(** The runs of a cache that starts with a policy, with their events, the last
    one first. *)
Inductive runs (weight : V -> Z) (p : P) : list Event -> System -> Prop :=
| runs_init : runs weight p [] {| cache := cache_new p; threads := [] |}
| runs_step tr s e s' : runs weight p tr s -> step weight s e s' -> runs weight p (e :: tr) s'.

Definition thread_key (th : Thread) : K := match th with Waits k _ | Loads k _ _ | Leaves k _ _ => k end.
Definition thread_tok (th : Thread) : nat := match th with Waits _ t | Loads _ t _ | Leaves _ t _ => t end.

(** * Coherence *)

(** The last value stored for each key, without evictions. *)
Fixpoint written (tr : list Event) : gmap K (MappedPtr V) :=
  match tr with
  | [] => ∅
  | e :: tr =>
      match e with
      | Set_ key v | Loaded key v true => <[key := v]> (written tr)
      | Removed key => delete key (written tr)
      | RemovedIf f => filter (fun e => f e.1 e.2 = false) (written tr)
      | Cleared => ∅
      | _ => written tr
      end
  end.

Section Coherence.
Context (weight : V -> Z) `{!CachePolicyLaws K V P weight}.

(** The tokens belong to keys, and the values in them were loaded for the keys. *)
Record Tokens (tr : list Event) (ks : gmap nat K) (s : System) : Prop := {
  tokens_fresh i : (next_token (cache s) <= i)%nat -> ks !! i = None;
  tokens_map key tok : insert_tokens (cache s) !! key = Some tok -> ks !! tok = Some key;
  tokens_threads th : th ∈ threads s -> ks !! thread_tok th = Some (thread_key th);
  tokens_heap tok t : heap (cache s) !! tok = Some t -> is_Some (ks !! tok);
  tokens_present key tok : insert_tokens (cache s) !! key = Some tok -> is_Some (heap (cache s) !! tok);
  tokens_alive th : th ∈ threads s -> is_Some (heap (cache s) !! thread_tok th);
  tokens_loaded tok t v key : heap (cache s) !! tok = Some t -> t_value t = Some v -> ks !! tok = Some key ->
    exists r, Loaded key (Some v) r ∈ tr }.

Record Coherent (tr : list Event) (s : System) : Prop := {
  coherent_policy : policy_inv (cache_policy (cache s));
  coherent_contents : contents (cache_policy (cache s)) ⊆ written tr;
  coherent_tokens : exists ks, Tokens tr ks s }.

Lemma tokens_more e tr ks s : Tokens tr ks s -> Tokens (e :: tr) ks s.
Proof.
  intros [H1 H2 H3 H4 H6 H7 H5]. split; try done. intros tok t v key Ht Hv Hk.
  destruct (H5 _ _ _ _ Ht Hv Hk) as [r Hr]. exists r. by right.
Qed.

(** Steps that leave the tokens alone. *)
Lemma tokens_same tr ks s s' :
  Tokens tr ks s -> insert_tokens (cache s') ⊆ insert_tokens (cache s) -> heap (cache s') = heap (cache s) ->
  next_token (cache s') = next_token (cache s) ->
  (forall th, th ∈ threads s' -> exists th', th' ∈ threads s /\ thread_key th' = thread_key th /\ thread_tok th' = thread_tok th) ->
  Tokens tr ks s'.
Proof.
  intros [H1 H2 H3 H4 H6 H7 H5] Hm Hh Hn Hth. split; rewrite ?Hh, ?Hn; try done.
  - intros key tok Hk. apply H2. by eapply lookup_weaken.
  - intros th Hin. destruct (Hth th Hin) as (th' & Hin' & <- & <-). by apply H3.
  - intros key tok Hk. apply (H6 key). by eapply lookup_weaken.
  - intros th Hin. destruct (Hth th Hin) as (th' & Hin' & _ & <-). by apply H7.
Qed.

(** A change of a token that keeps its value or stores one just loaded. *)
Lemma tokens_update tok f tr ks s s' :
  Tokens tr ks s ->
  (forall t v key, ks !! tok = Some key -> t_value (f t) = Some v ->
     t_value t = Some v \/ exists r, Loaded key (Some v) r ∈ tr) ->
  insert_tokens (cache s') ⊆ insert_tokens (cache s) -> heap (cache s') = alter f tok (heap (cache s)) ->
  next_token (cache s') = next_token (cache s) ->
  (forall th, th ∈ threads s' -> exists th', th' ∈ threads s /\ thread_key th' = thread_key th /\ thread_tok th' = thread_tok th) ->
  Tokens tr ks s'.
Proof.
  intros [H1 H2 H3 H4 H6 H7 H5] Hf Hm Hh Hn Hth. split; rewrite ?Hh, ?Hn; try done.
  - intros key tok' Hk. apply H2. by eapply lookup_weaken.
  - intros th Hin. destruct (Hth th Hin) as (th' & Hin' & <- & <-). by apply H3.
  - intros tok' t. rewrite lookup_alter_Some. intros [(-> & t0 & Ht & _) | [_ Ht]]; by eapply H4.
  - intros key tok' Hk. rewrite lookup_alter_is_Some. apply (H6 key). by eapply lookup_weaken.
  - intros th Hin. destruct (Hth th Hin) as (th' & Hin' & _ & <-). rewrite lookup_alter_is_Some. by apply H7.
  - intros tok' t v key. rewrite lookup_alter_Some. intros [(-> & t0 & Ht & ->) | [_ Ht]] Hv Hk; [|by eapply H5].
    destruct (Hf t0 v key Hk Hv) as [Hv'|?]; [by eapply H5 | done].
Qed.

Lemma threads_replace ts1 (th th' : Thread) ts2 :
  thread_key th' = thread_key th -> thread_tok th' = thread_tok th ->
  forall x, x ∈ ts1 ++ th' :: ts2 ->
    exists y, y ∈ ts1 ++ th :: ts2 /\ thread_key y = thread_key x /\ thread_tok y = thread_tok x.
Proof.
  intros Hk Ht x. rewrite elem_of_app, elem_of_cons. intros [Hx|[->|Hx]];
    [exists x | exists th | exists x]; (split; [rewrite elem_of_app, elem_of_cons; tauto | done]).
Qed.

Lemma threads_drop ts1 (th : Thread) ts2 x :
  x ∈ ts1 ++ ts2 -> exists y, y ∈ ts1 ++ th :: ts2 /\ thread_key y = thread_key x /\ thread_tok y = thread_tok x.
Proof. intros Hx. exists x. split; [by apply (middle_subseteq ts1 th ts2) | done]. Qed.

Lemma threads_same (ts : list Thread) x :
  x ∈ ts -> exists y, y ∈ ts /\ thread_key y = thread_key x /\ thread_tok y = thread_tok x.
Proof. intros Hx. by exists x. Qed.

Lemma enter_tokens tr ks key tok c' s :
  Tokens tr ks s -> getOrSet_enter key (cache s) = Some (inr tok, c') ->
  exists ks', Tokens tr ks' {| cache := c'; threads := Waits key tok :: threads s |}.
Proof.
  intros HT He. unfold getOrSet_enter in He. destruct (get key (cache_policy (cache s))) as [[[v|] p]|]; [done| |done].
  pose proof HT as [H1 H2 H3 H4 H6 H7 H5]. cbn in He. destruct (insert_tokens (cache s) !! key) as [tok'|] eqn:Ek.
  - injection He as <- <-. exists ks. split; cbn; try done.
    + intros th. rewrite elem_of_cons. intros [->|Hin]; [by apply H2 | by apply H3].
    + intros tok t. rewrite lookup_alter_Some. intros [(-> & t0 & Ht & _) | [_ Ht]]; by eapply H4.
    + intros k tok Hk. rewrite lookup_alter_is_Some. by apply (H6 k).
    + intros th. rewrite elem_of_cons, lookup_alter_is_Some. intros [->|Hin]; [by apply (H6 key) | by apply H7].
    + intros tok t v k. rewrite lookup_alter_Some. intros [(-> & t0 & Ht & ->) | [_ Ht]]; exact (H5 _ _ v k Ht).
  - injection He as <- <-. set (n := next_token (cache s)) in *. exists (<[n := key]> ks).
    assert (forall i k, ks !! i = Some k -> i <> n) as Hne.
    { intros i k Hi ->. by rewrite (H1 n) in Hi by done. }
    split; cbn.
    + intros i Hi. rewrite lookup_insert_ne by lia. apply H1. lia.
    + intros k tok. rewrite lookup_insert_Some. intros [[<- <-] | [_ Hk]]; [by rewrite lookup_insert_eq|].
      apply H2 in Hk. by rewrite lookup_insert_ne by (intros ->; by eapply Hne).
    + intros th. rewrite elem_of_cons. intros [->|Hin]; cbn; [by rewrite lookup_insert_eq|].
      apply H3 in Hin. by rewrite lookup_insert_ne by (intros He; eapply Hne; [exact Hin | done]).
    + intros tok t. rewrite lookup_alter_Some, lookup_insert_is_Some'. intros [(-> & _) | [Hne' Ht]]; [by left | right].
      rewrite lookup_insert_ne in Ht by done. by eapply H4.
    + intros k tok. rewrite lookup_insert_Some, lookup_alter_is_Some, lookup_insert_is_Some'.
      intros [[<- <-] | [_ Hk]]; [by left | right; by apply (H6 k)].
    + intros th. rewrite elem_of_cons, lookup_alter_is_Some, lookup_insert_is_Some'. intros [->|Hin]; [by left | right; by apply H7].
    + intros tok t v k. rewrite lookup_alter_Some. intros [(-> & t0 & Ht & ->) | [Hne' Ht]].
      * rewrite lookup_insert_eq in Ht. by injection Ht as <-.
      * rewrite lookup_insert_ne in Ht by done. rewrite lookup_insert_ne by done. by apply H5.
Qed.

(** A step on the policy alone. *)
Lemma coherent_policy_step e tr c' s :
  Coherent tr s ->
  insert_tokens c' ⊆ insert_tokens (cache s) -> heap c' = heap (cache s) -> next_token c' = next_token (cache s) ->
  policy_inv (cache_policy c') -> contents (cache_policy c') ⊆ written (e :: tr) ->
  Coherent (e :: tr) {| cache := c'; threads := threads s |}.
Proof.
  intros [Hp Hc [ks HT]] Hm Hh Hn Hp' Hc'. split; [done | done|]. exists ks. apply tokens_more.
  eapply tokens_same; [exact HT | done | done | done | apply threads_same].
Qed.

(** A step of a thread inside of [getOrSet]. *)
Lemma coherent_thread_step tok f tr c' ts s :
  Coherent tr s -> (forall t, t_value (f t) = t_value t) ->
  insert_tokens c' ⊆ insert_tokens (cache s) -> heap c' = alter f tok (heap (cache s)) ->
  next_token c' = next_token (cache s) -> cache_policy c' = cache_policy (cache s) ->
  (forall th, th ∈ ts -> exists th', th' ∈ threads s /\ thread_key th' = thread_key th /\ thread_tok th' = thread_tok th) ->
  Coherent (Silent :: tr) {| cache := c'; threads := ts |}.
Proof.
  intros [Hp Hc [ks HT]] Hf Hm Hh Hn Hpol Hts. split; cbn; [by rewrite Hpol | by rewrite Hpol|].
  exists ks. apply tokens_more. eapply tokens_update; try done. intros t v key _ Hv. left. by rewrite <- Hf.
Qed.

Lemma store_coherent tr key tok b v result c' ts1 ts2 s :
  Coherent tr s -> threads s = ts1 ++ Loads key tok b :: ts2 -> 0 <= ptr_weight weight v <= size_limit ->
  getOrSet_store key tok v (cache s) = Some (result, c') ->
  Coherent (Loaded key v result :: tr) {| cache := c'; threads := ts1 ++ ts2 |}.
Proof.
  intros [Hp Hc [ks HT]] Hts Hw Hs. unfold getOrSet_store in Hs.
  set (f := fun t => {| t_locked := false; t_cleaned_up := t_cleaned_up t; t_value := v; t_refcount := t_refcount t |}) in *.
  assert (exists c1, cache_policy c' = cache_policy c1 /\ policy_inv (cache_policy c1) /\
    contents (cache_policy c1) ⊆ written (Loaded key v result :: tr) /\
    insert_tokens c' ⊆ insert_tokens (cache s) /\ next_token c' = next_token (cache s) /\
    exists g, (forall t, t_value (g t) = t_value t) /\ heap c' = alter g tok (alter f tok (heap (cache s)))) as Hc1.
  { case_bool_decide as Hin; cbn in Hs, Hin.
    - destruct (set_law _ key v Hp Hw) as (lost & p' & Hset & Hp' & Hsub & _).
      unfold cache_set in Hs. cbn in Hs. rewrite Hset in Hs. cbn in Hs.
      destruct (alter f tok (heap (cache s)) !! tok) as [t|]; [|done]. injection Hs as <- <-.
      exists (with_policy p' (cache s)). cbn.
      assert (contents p' ⊆ <[key := v]> (written tr)) by (etrans; [exact Hsub | by apply insert_mono]).
      destruct (t_cleaned_up t); cbn; (split_and!; [done | done | done | | done |]).
      + done.
      + exists id. split; [done | symmetry; by apply alter_id].
      + apply delete_subseteq.
      + eexists. split; [|reflexivity]. done.
    - destruct (alter f tok (heap (cache s)) !! tok) as [t|]; [|done]. injection Hs as <- <-.
      exists (cache s). destruct (t_cleaned_up t); cbn; (split_and!; [done | done | done | | done |]).
      + done.
      + exists id. split; [done | symmetry; by apply alter_id].
      + apply delete_subseteq.
      + eexists. split; [|reflexivity]. done. }
  destruct Hc1 as (c1 & Hpol & Hp1 & Hsub & Hm & Hn & g & Hg & Hh).
  split; cbn [cache]; [by rewrite Hpol | by rewrite Hpol|]. exists ks.
  eapply (tokens_update tok (fun t => g (f t))); [apply tokens_more; exact HT | | done | | done|].
  - intros t v' k Hk. rewrite Hg. cbn. intros ->. right. exists result.
    assert (ks !! tok = Some key) as Hk' by (apply (tokens_threads _ _ _ HT (Loads key tok b)); rewrite Hts; apply elem_of_app; right; left).
    rewrite Hk in Hk'. injection Hk' as ->. left.
  - cbn [cache]. by rewrite Hh, alter_alter_eq.
  - cbn [threads]. intros th Hth. rewrite Hts. by apply threads_drop.
Qed.

Lemma release_shape key tok t c :
  exists f, (forall t, t_value (f t) = t_value t) /\ heap (holder_release key tok t c) = alter f tok (heap c) /\
    insert_tokens (holder_release key tok t c) ⊆ insert_tokens c /\
    next_token (holder_release key tok t c) = next_token c /\ cache_policy (holder_release key tok t c) = cache_policy c.
Proof.
  unfold holder_release. destruct (t_cleaned_up t); [|case_match]; cbn.
  - exists id. split_and!; try done. symmetry. by apply alter_id.
  - rewrite alter_alter_eq. eexists. split; [|split; [reflexivity|]]; [done|]. split_and!; try done. apply delete_subseteq.
  - eexists. split; [|split; [reflexivity|]]; done.
Qed.

Lemma lock_shape tok t c r c' :
  getOrSet_lock tok t c = (r, c') ->
  r = t_value t /\ exists f, (forall t, t_value (f t) = t_value t) /\ heap c' = alter f tok (heap c) /\
    insert_tokens c' = insert_tokens c /\ next_token c' = next_token c /\ cache_policy c' = cache_policy c.
Proof.
  unfold getOrSet_lock. destruct (t_value t); intros [= <- <-]; (split; [done|]).
  - exists id. split_and!; try done. symmetry. by apply alter_id.
  - eexists. split; [|split; [reflexivity|]]; done.
Qed.

(** What a read may return. *)
Definition read_ok (tr : list Event) (e : Event) : Prop :=
  match e with
  | Got key (Some v) => written tr !! key = Some (Some v)
  | Returned key v => written tr !! key = Some (Some v) \/ exists r, Loaded key (Some v) r ∈ tr
  | _ => True
  end.

Lemma get_coherent tr key c p res :
  policy_inv (cache_policy c) -> contents (cache_policy c) ⊆ written tr -> get key (cache_policy c) = Some (res, p) ->
  policy_inv p /\ contents p ⊆ written tr /\ forall v, res = Some v -> written tr !! key = Some (Some v).
Proof.
  intros Hp Hc Hg. destruct (get_law _ key Hp) as (p' & Hg' & Hp' & Hc'). rewrite Hg in Hg'. injection Hg' as -> ->.
  split_and!; [done | by rewrite Hc'|]. intros v Hv. destruct (contents (cache_policy c) !! key) as [o|] eqn:Ek; [|done].
  cbn in Hv. subst o. by eapply lookup_weaken.
Qed.

Lemma getWithKey_coherent tr key c p res :
  policy_inv (cache_policy c) -> contents (cache_policy c) ⊆ written tr -> getWithKey key (cache_policy c) = Some (res, p) ->
  policy_inv p /\ contents p ⊆ written tr /\
  forall v, default None (snd <$> res) = Some v -> written tr !! key = Some (Some v).
Proof.
  intros Hp Hc Hg. destruct (getWithKey_law _ key Hp) as (p' & Hg' & Hp' & Hc'). rewrite Hg in Hg'. injection Hg' as -> ->.
  split_and!; [done | by rewrite Hc'|]. intros v Hv. destruct (contents (cache_policy c) !! key) as [o|] eqn:Ek; [|done].
  cbn in Hv. subst o. by eapply lookup_weaken.
Qed.

Lemma enter_coherent key r c' tr s :
  Coherent tr s -> getOrSet_enter key (cache s) = Some (r, c') ->
  policy_inv (cache_policy c') /\ contents (cache_policy c') ⊆ written tr /\
  forall v, r = inl v ->
    written tr !! key = Some (Some v) /\ insert_tokens c' = insert_tokens (cache s) /\ heap c' = heap (cache s) /\
    next_token c' = next_token (cache s).
Proof.
  intros [Hp Hc _] He. unfold getOrSet_enter in He. destruct (get key (cache_policy (cache s))) as [[o p]|] eqn:Eg; [|done].
  destruct (get_coherent _ _ _ _ _ Hp Hc Eg) as (Hp' & Hc' & Hv). destruct o as [v|].
  - injection He as <- <-. cbn. split_and!; [done | done|]. intros v' [= <-]. by split_and!; [apply Hv|..].
  - cbn in He. destruct (insert_tokens (cache s) !! key); injection He as <- <-; done.
Qed.

Lemma coherent_step tr s e s' : Coherent tr s -> step weight s e s' -> Coherent (e :: tr) s' /\ read_ok tr e.
Proof.
  intros HC Hstep. pose proof HC as [Hp Hc [ks HT]]. destruct Hstep as
    [key res c' s Hg|key res c' s Hg|key v c' s Hw Hset|key s|f s|s|n c' s Hn Hset|n c' s Hn Hset|key v c' s He|key tok c' s Hmany He
    |key tok t v c' ts1 ts2 s Hts Ht Hfree Hl|key tok t c' ts1 ts2 s Hts Ht Hfree Hl|key tok b v r c' ts1 ts2 s Hts Hw Hst
    |key tok b ts1 ts2 s Hts|key tok ts1 ts2 s Hts|key tok t ts1 ts2 s Hts Ht Hfree].
  - unfold cache_get in Hg. destruct (get key _) as [[o p]|] eqn:Eg; [|done]. injection Hg as <- <-.
    destruct (get_coherent _ _ _ _ _ Hp Hc Eg) as (Hp' & Hc' & Hv).
    split; [apply coherent_policy_step; by destruct o | destruct o; [by apply Hv | done]].
  - unfold cache_getWithKey in Hg. destruct (getWithKey key _) as [[o p]|] eqn:Eg; [|done]. injection Hg as <- <-.
    destruct (getWithKey_coherent _ _ _ _ _ Hp Hc Eg) as (Hp' & Hc' & Hv).
    split; [apply coherent_policy_step; by destruct o|]. cbn. destruct (default None (snd <$> o)) eqn:Ed; [by apply Hv | done].
  - destruct (set_law _ key v Hp Hw) as (lost & p' & Hs & Hp' & Hsub & _). unfold cache_set in Hset. rewrite Hs in Hset.
    injection Hset as <-. split; [|done]. apply coherent_policy_step; try done. cbn.
    etrans; [exact Hsub | by apply insert_mono].
  - destruct (remove_law _ key Hp) as [Hp' Hr]. split; [|done]. apply coherent_policy_step; try done. cbn. rewrite Hr.
    by apply delete_mono.
  - destruct (remove_if_law _ f Hp) as [Hp' Hr]. split; [|done]. apply coherent_policy_step; try done. cbn. rewrite Hr.
    apply map_subseteq_spec. intros k o. rewrite !map_lookup_filter_Some. intros [Hk Hf].
    split; [by eapply lookup_weaken | done].
  - destruct (clear_law _ Hp) as [Hp' Hr]. split; [|done]. apply coherent_policy_step; try done; cbn; [apply map_empty_subseteq|].
    by rewrite Hr.
  - destruct (setMaxCount_law _ n Hp Hn) as (lost & p' & Hs & Hp' & Hsub & _). unfold cache_setMaxCount in Hset. rewrite Hs in Hset.
    injection Hset as <-. split; [|done]. apply coherent_policy_step; try done. cbn. by etrans.
  - destruct (setMaxSizeInBytes_law _ n Hp Hn) as (lost & p' & Hs & Hp' & Hsub & _). unfold cache_setMaxSizeInBytes in Hset.
    rewrite Hs in Hset. injection Hset as <-. split; [|done]. apply coherent_policy_step; try done. cbn. by etrans.
  - destruct (enter_coherent _ _ _ _ _ HC He) as (Hp' & Hc' & Hv). destruct (Hv v eq_refl) as (Hwr & Hm & Hh & Hn).
    split; [apply coherent_policy_step; try done; by rewrite Hm | by left].
  - destruct (enter_coherent _ _ _ _ _ HC He) as (Hp' & Hc' & _). destruct (enter_tokens _ _ _ _ _ _ HT He) as [ks' HT'].
    split; [|done]. split; [done | done|]. exists ks'. by apply tokens_more.
  - destruct (lock_shape _ _ _ _ _ Hl) as (Hv & f & Hf & Hh & Hm & Hn & Hpol).
    assert (ks !! tok = Some key) as Hk by (apply (tokens_threads _ _ _ HT (Waits key tok)); rewrite Hts; apply elem_of_app; right; left).
    split; [|right; by eapply (tokens_loaded _ _ _ HT)].
    split; cbn; [by rewrite Hpol | by rewrite Hpol|]. exists ks. apply tokens_more.
    eapply (tokens_update tok f); try done; [intros t' v' k' _ Hv'; left; by rewrite <- Hf | by cbn; rewrite Hm|].
    cbn. rewrite Hts. by apply threads_replace.
  - destruct (lock_shape _ _ _ _ _ Hl) as (Hv & f & Hf & Hh & Hm & Hn & Hpol). split; [|done].
    eapply (coherent_thread_step tok f); try done; [by rewrite Hm|]. rewrite Hts. by apply threads_replace.
  - split; [|done]. by eapply store_coherent.
  - split; [|done]. eapply (coherent_thread_step tok (fun t => {| t_locked := false; t_cleaned_up := t_cleaned_up t;
      t_value := t_value t; t_refcount := t_refcount t |})); try done. rewrite Hts. by apply threads_replace.
  - split; [|done]. eapply (coherent_thread_step tok id); try done; [symmetry; by apply alter_id|].
    intros th Hth. rewrite Hts. by apply threads_drop.
  - split; [|done]. destruct (release_shape key tok t (cache s)) as (f & Hf & Hh & Hm & Hn & Hpol).
    eapply (coherent_thread_step tok f); try done. intros th Hth. rewrite Hts. by apply threads_drop.
Qed.

Lemma runs_coherent p tr s :
  policy_inv p -> contents p = ∅ -> runs weight p tr s -> Coherent tr s.
Proof.
  intros Hp Hc Hr. induction Hr as [|tr s e s' _ IH Hstep]; [|by apply (coherent_step _ _ _ _ IH)].
  split; cbn; [done | by rewrite Hc|]. exists ∅. split; cbn; try (intros *; by rewrite lookup_empty).
  all: intros th Hth; by apply elem_of_nil in Hth.
Qed.

(** The operations of a policy never run into [std::terminate]. *)
Lemma coherent_returns tr s : Coherent tr s ->
  (forall key, is_Some (cache_get key (cache s)) /\ is_Some (cache_getWithKey key (cache s)) /\ is_Some (getOrSet_enter key (cache s))) /\
  (forall key v, 0 <= ptr_weight weight v <= size_limit -> is_Some (cache_set key v (cache s))) /\
  (forall n, 0 <= n -> is_Some (cache_setMaxCount n (cache s))) /\
  (forall n, 0 <= n <= size_limit -> is_Some (cache_setMaxSizeInBytes n (cache s))) /\
  (forall key tok b v, Loads key tok b ∈ threads s -> 0 <= ptr_weight weight v <= size_limit -> is_Some (getOrSet_store key tok v (cache s))).
Proof.
  intros [Hp _ [ks HT]].
  assert (Hset : forall key v, 0 <= ptr_weight weight v <= size_limit -> exists r, set key v (cache_policy (cache s)) = Some r).
  { intros key v Hw. destruct (set_law _ key v Hp Hw) as (lost & p' & Hs & _). by eexists. }
  split_and!.
  - intros key. destruct (get_law _ key Hp) as (p1 & Hg & _). destruct (getWithKey_law _ key Hp) as (p2 & Hk & _).
    unfold cache_get, cache_getWithKey, getOrSet_enter. rewrite Hg, Hk. split_and!; [by eexists..|]. repeat case_match; by eexists.
  - intros key v Hw. destruct (Hset key v Hw) as [r Hs]. unfold cache_set. rewrite Hs. by eexists.
  - intros n Hn. destruct (setMaxCount_law _ n Hp Hn) as (lost & p' & Hs & _). unfold cache_setMaxCount. rewrite Hs. by eexists.
  - intros n Hn. destruct (setMaxSizeInBytes_law _ n Hp Hn) as (lost & p' & Hs & _). unfold cache_setMaxSizeInBytes. rewrite Hs. by eexists.
  - intros key tok b v Hin Hw. destruct (tokens_alive _ _ _ HT _ Hin) as [t Ht]. cbn in Ht. destruct (Hset key v Hw) as [r Hs].
    unfold getOrSet_store, cache_set. cbn. rewrite Hs. cbn. case_bool_decide; cbn; rewrite lookup_alter_eq, Ht; by eexists.
Qed.
End Coherence.

(** * Single flight *)

Definition on_token (tok : nat) (th : Thread) : bool := (thread_tok th =? tok)%nat.
Definition loading (tok : nat) (th : Thread) : bool := match th with Loads _ t _ => (t =? tok)%nat | _ => false end.
Definition loading_key (key : K) (th : Thread) : bool := match th with Loads k _ _ => bool_decide (k = key) | _ => false end.

(** The count of references of a token is right until it is cleaned up, it is
    cleaned up with a value or without threads, and its mutex is locked by the
    thread that loads. *)
Record TokenOk (ts : list Thread) (tok : nat) (t : InsertToken) : Prop := {
  token_refs : t_cleaned_up t = false -> t_refcount t = Z.of_nat (count_if (on_token tok) ts);
  token_cleaned : t_cleaned_up t = true -> is_Some (t_value t) \/ count_if (on_token tok) ts = 0%nat;
  token_locked : count_if (loading tok) ts = if t_locked t then 1%nat else 0%nat }.

Definition ThreadOk (m : gmap K nat) (h : gmap nat InsertToken) (th : Thread) : Prop :=
  exists t, h !! thread_tok th = Some t /\ (t_cleaned_up t = false -> m !! thread_key th = Some (thread_tok th)) /\
    match th with
    | Waits _ _ => True
    | Loads _ _ b => t_cleaned_up t = false /\ b = false
    | Leaves _ _ b => b = true -> t_cleaned_up t = true
    end.

Record Flight (s : System) : Prop := {
  flight_map key tok : insert_tokens (cache s) !! key = Some tok ->
    exists t, heap (cache s) !! tok = Some t /\ t_cleaned_up t = false;
  flight_inj k1 k2 tok : insert_tokens (cache s) !! k1 = Some tok -> insert_tokens (cache s) !! k2 = Some tok -> k1 = k2;
  flight_tokens tok t : heap (cache s) !! tok = Some t -> TokenOk (threads s) tok t;
  flight_threads th : th ∈ threads s -> ThreadOk (insert_tokens (cache s)) (heap (cache s)) th;
  flight_fresh tok : (next_token (cache s) <= tok)%nat -> heap (cache s) !! tok = None;
  flight_many : Z.of_nat (length (threads s)) <= 2 ^ 63 }.

Lemma alter_found {A} (f : A -> A) (i : nat) (m : gmap nat A) x : m !! i = Some x -> alter f i m = <[i := f x]> m.
Proof.
  intros Hx. apply map_eq. intros j. destruct (decide (i = j)) as [<-|Hne].
  - by rewrite lookup_alter_eq, lookup_insert_eq, Hx.
  - by rewrite lookup_alter_ne, lookup_insert_ne.
Qed.

Lemma loading_on_token tok ts : (count_if (loading tok) ts <= count_if (on_token tok) ts)%nat.
Proof.
  induction ts as [|th ts IH]; [done|]. rewrite !count_if_cons. unfold on_token at 1.
  destruct th as [k t|k t b|k t b]; cbn; repeat case_match; lia.
Qed.

Lemma no_loads tok ts key b : count_if (loading tok) ts = 0%nat -> Loads key tok b ∈ ts -> False.
Proof.
  intros H0 Hin. assert (0 < count_if (loading tok) ts)%nat; [|lia].
  apply count_if_pos. exists (Loads key tok b). split; [done | cbn; apply Nat.eqb_refl].
Qed.

Lemma count_if_replace (p : Thread -> bool) ts1 th now ts2 :
  (length now <= 1)%nat -> p th = false -> (forall th', th' ∈ now -> p th' = false) ->
  count_if p (ts1 ++ now ++ ts2) = count_if p (ts1 ++ th :: ts2).
Proof.
  intros Hlen Hp Hpn. rewrite !count_if_app, count_if_cons, Hp. destruct now as [|th' [|]]; cbn in Hlen; [done| |lia].
  rewrite count_if_cons, Hpn by left. done.
Qed.

(** The step of one thread on its token: the thread goes or gets a new state,
    and the token is the same for the other threads, or is cleaned up. *)
Lemma flight_update th now ts1 ts2 t t' c' s :
  Flight s -> threads s = ts1 ++ th :: ts2 -> heap (cache s) !! thread_tok th = Some t ->
  heap c' = <[thread_tok th := t']> (heap (cache s)) -> next_token c' = next_token (cache s) ->
  (length now <= 1)%nat -> (forall th', th' ∈ now -> thread_tok th' = thread_tok th) ->
  (insert_tokens c' = insert_tokens (cache s) /\ t_cleaned_up t' = t_cleaned_up t \/
   insert_tokens c' = delete (thread_key th) (insert_tokens (cache s)) /\
     insert_tokens (cache s) !! thread_key th = Some (thread_tok th) /\ t_cleaned_up t' = true) ->
  (t_cleaned_up t' = t_cleaned_up t \/ count_if (loading (thread_tok th)) (ts1 ++ ts2) = 0%nat) ->
  TokenOk (ts1 ++ now ++ ts2) (thread_tok th) t' ->
  (forall th', th' ∈ now -> ThreadOk (insert_tokens c') (heap c') th') ->
  Flight {| cache := c'; threads := ts1 ++ now ++ ts2 |}.
Proof.
  intros [Hmap Hinj Htok Hth Hfresh Hmany] Hts Ht Hheap Hnext Hlen Hnow Hm Hload HT Hnew. set (tok := thread_tok th) in *.
  assert (insert_tokens c' ⊆ insert_tokens (cache s)) as Hsub
    by (destruct Hm as [[-> _] | [-> _]]; [done | apply delete_subseteq]).
  split; cbn.
  - intros key tok' Hk. destruct (Hmap key tok') as (t0 & Ht0 & Hc0); [by eapply lookup_weaken|].
    rewrite Hheap. destruct (decide (tok' = tok)) as [->|Hne]; [|exists t0; by rewrite lookup_insert_ne].
    exists t'. rewrite lookup_insert_eq. split; [done|]. destruct Hm as [[_ ->] | (Hdel & Hown & _)]; [congruence|].
    rewrite Hdel in Hk. apply lookup_delete_Some in Hk as [Hne Hk]. destruct Hne. by eapply Hinj.
  - intros k1 k2 tok' H1 H2. eapply Hinj; by eapply lookup_weaken.
  - intros tok' t0. rewrite Hheap, lookup_insert_Some. intros [[<- <-] | [Hne Ht0]]; [done|].
    destruct (Htok tok' t0 Ht0) as [Hr Hcl Hlk]. rewrite Hts in Hr, Hcl, Hlk.
    assert (on_token tok' th = false) as Hoff by (apply Nat.eqb_neq; unfold tok in Hne; congruence).
    assert (forall th', th' ∈ now -> on_token tok' th' = false) as Hoffn
      by (intros th' Hin; apply Nat.eqb_neq; rewrite Hnow by done; congruence).
    assert (forall x, on_token tok' x = false -> loading tok' x = false) as Hlo by by intros [].
    split; rewrite (count_if_replace _ ts1 th now ts2) by auto; done.
  - intros th'. rewrite !elem_of_app. intros Hin.
    assert (th' ∈ now \/ th' ∈ ts1 ++ ts2) as [Hin'|Hold] by (rewrite elem_of_app; tauto); [by apply Hnew|].
    destruct (Hth th') as (t0 & Ht0 & Hown0 & Hst); [rewrite Hts; by apply (middle_subseteq ts1 th ts2)|].
    unfold ThreadOk. rewrite Hheap. destruct (decide (thread_tok th' = tok)) as [He|Hne].
    + exists t'. rewrite He, lookup_insert_eq in *. rewrite Ht in Ht0. injection Ht0 as <-. split; [done|].
      destruct Hm as [[-> ->] | (Hdel & Hown & Hcl)]; [done|]. split; [congruence|].
      destruct th' as [|k tok' b|k tok' b]; [done| |done]. cbn in He. subst tok'.
      destruct Hload as [Heq|H0]; [destruct Hst; congruence | by destruct (no_loads _ _ _ _ H0 Hold)].
    + exists t0. rewrite lookup_insert_ne by done. split; [done|]. split; [|done]. intros Hc0. specialize (Hown0 Hc0).
      destruct Hm as [[-> _] | (-> & Hown & _)]; [done|]. rewrite lookup_delete_ne; [done|]. intros Hk. rewrite <- Hk, Hown in Hown0. congruence.
  - intros tok' Hge. rewrite Hheap. rewrite Hnext in Hge. rewrite lookup_insert_ne; [by apply Hfresh|].
    intros <-. rewrite (Hfresh tok Hge) in Ht. done.
  - rewrite Hts in Hmany. rewrite !length_app in *. cbn in Hmany. lia.
Qed.

(** Steps that touch neither tokens nor threads. *)
Lemma flight_same c' s :
  Flight s -> insert_tokens c' = insert_tokens (cache s) -> heap c' = heap (cache s) ->
  next_token c' = next_token (cache s) -> Flight {| cache := c'; threads := threads s |}.
Proof. intros [H1 H2 H3 H4 H5 H6] Hm Hh Hn. split; cbn; rewrite ?Hm, ?Hh, ?Hn; done. Qed.

Lemma refs_bound tok s : Flight s -> Z.of_nat (count_if (on_token tok) (threads s)) <= 2 ^ 63.
Proof. intros HF. pose proof (flight_many _ HF). pose proof (List.filter_length_le (on_token tok) (threads s)). unfold count_if. lia. Qed.

Lemma acquire_flight key tok t m h n p hs ms ts :
  let s := {| cache := {| cache_policy := p; hits := hs; misses := ms; insert_tokens := m; heap := h; next_token := n |};
              threads := ts |} in
  Flight s -> Z.of_nat (length ts) < 2 ^ 63 -> m !! key = Some tok -> h !! tok = Some t -> t_cleaned_up t = false ->
  Flight {| cache := acquire tok (cache s); threads := Waits key tok :: ts |}.
Proof.
  intros s HF Hmany Hk Ht Hc. pose proof HF as [Hmap Hinj Htok Hth Hfresh _]. pose proof (refs_bound tok s HF) as Hrb.
  unfold acquire, update_token. cbn in *. rewrite (alter_found _ _ _ _ Ht). split; cbn.
  - intros k tok' Hk'. destruct (Hmap k tok' Hk') as (t0 & Ht0 & Hc0). destruct (decide (tok = tok')) as [<-|Hne].
    + rewrite Ht in Ht0. injection Ht0 as <-. rewrite lookup_insert_eq. by eexists.
    + rewrite lookup_insert_ne by done. by exists t0.
  - done.
  - intros tok' t0. rewrite lookup_insert_Some. intros [[<- <-] | [Hne Ht0]].
    + destruct (Htok tok t Ht) as [Hr Hcl Hlk]. assert (on_token tok (Waits key tok) = true) as Hon by apply Nat.eqb_refl.
      split; cbn [t_cleaned_up t_refcount t_value t_locked]; rewrite ?count_if_cons, ?Hon; [|congruence | done].
      intros _. rewrite (Hr Hc), uwrap_small by (unfold in_unsigned; lia). lia.
    + destruct (Htok tok' t0 Ht0) as [Hr Hcl Hlk]. assert (on_token tok' (Waits key tok) = false) as Hoff by by apply Nat.eqb_neq.
      split; rewrite count_if_cons, ?Hoff; done.
  - intros th. rewrite elem_of_cons. intros [->|Hin].
    + eexists. cbn. rewrite lookup_insert_eq. done.
    + destruct (Hth th Hin) as (t0 & Ht0 & Hown & Hst). destruct (decide (thread_tok th = tok)) as [He|Hne].
      * rewrite He in Ht0. rewrite Ht in Ht0. injection Ht0 as <-. eexists. rewrite He, lookup_insert_eq. split; [done|].
        split; [by rewrite <- He | exact Hst].
      * exists t0. by rewrite lookup_insert_ne.
  - intros tok' Hge. rewrite lookup_insert_ne; [by apply Hfresh|]. intros <-. rewrite (Hfresh tok Hge) in Ht. done.
  - lia.
Qed.

(** A new token has no threads. *)
Lemma fresh_flight key s :
  let n := next_token (cache s) in
  Flight s -> insert_tokens (cache s) !! key = None ->
  Flight {| cache := {| cache_policy := cache_policy (cache s); hits := hits (cache s); misses := misses (cache s);
                        insert_tokens := <[key := n]> (insert_tokens (cache s)); heap := <[n := token_new]> (heap (cache s));
                        next_token := S n |}; threads := threads s |}.
Proof.
  intros n HF Ek. pose proof HF as [Hmap Hinj Htok Hth Hfresh Hm].
  assert (forall th, th ∈ threads s -> thread_tok th <> n) as Hne.
  { intros th Hin Heq. destruct (Hth th Hin) as (t & Ht & _). by rewrite Heq, (Hfresh n) in Ht. }
  assert (forall q, (forall th, thread_tok th <> n -> q th = false) -> count_if q (threads s) = 0%nat) as Hzero.
  { intros q Hq. destruct (decide (count_if q (threads s) = 0%nat)) as [|Hpos]; [done|].
    assert (0 < count_if q (threads s))%nat as (th & Hin & Hqt)%count_if_pos by lia. rewrite Hq in Hqt; [done | by apply Hne]. }
  assert (forall k tok, insert_tokens (cache s) !! k = Some tok -> tok <> n) as Hold.
  { intros k tok Hk ->. destruct (Hmap k n Hk) as (t & Ht & _). by rewrite (Hfresh n) in Ht. }
  split; cbn.
  - intros k tok. rewrite lookup_insert_Some. intros [[<- <-] | [_ Hk]]; [exists token_new; by rewrite lookup_insert_eq|].
    rewrite lookup_insert_ne by (intros <-; by eapply Hold). by eapply Hmap.
  - intros k1 k2 tok. rewrite !lookup_insert_Some. intros [[<- <-] | [Hne1 H1]] [[<- Hn] | [Hne2 H2]]; try done.
    + by destruct (Hold _ _ H2).
    + subst tok. by destruct (Hold _ _ H1).
    + by eapply Hinj.
  - intros tok t. rewrite lookup_insert_Some. intros [[<- <-] | [_ Ht]]; [|by apply Htok].
    split; cbn; [intros _; rewrite Hzero; [done|] | done | apply Hzero].
    + intros th Hth'. by apply Nat.eqb_neq.
    + intros [] Hth'; cbn; try done. by apply Nat.eqb_neq.
  - intros th Hin. destruct (Hth th Hin) as (t & Ht & Hown & Hst). specialize (Hne th Hin).
    exists t. rewrite lookup_insert_ne by done. split; [done|]. split; [|done]. intros Hc. specialize (Hown Hc).
    rewrite lookup_insert_ne; [done|]. congruence.
  - intros tok Hge. rewrite lookup_insert_ne by lia. apply Hfresh. lia.
  - done.
Qed.

Lemma enter_flight key tok c' s :
  Flight s -> Z.of_nat (length (threads s)) < 2 ^ 63 -> getOrSet_enter key (cache s) = Some (inr tok, c') ->
  Flight {| cache := c'; threads := Waits key tok :: threads s |}.
Proof.
  intros HF Hmany He. unfold getOrSet_enter in He.
  destruct (get key (cache_policy (cache s))) as [[[v|] p]|]; [done| |done]. cbn in He.
  apply (flight_same (with_policy p (cache s))) in HF; [|done..]. destruct (insert_tokens (cache s) !! key) as [tok'|] eqn:Ek.
  - injection He as <- <-. destruct (flight_map _ HF key tok' Ek) as (t & Ht & Hc). by eapply acquire_flight.
  - injection He as <- <-. apply (fresh_flight key) in HF; [|done].
    eapply acquire_flight; [exact HF | done | by rewrite lookup_insert_eq | by rewrite lookup_insert_eq | done].
Qed.

(** The thread of a step, with its token. *)
Lemma flight_thread th ts1 ts2 s :
  Flight s -> threads s = ts1 ++ th :: ts2 ->
  exists t, heap (cache s) !! thread_tok th = Some t /\ TokenOk (ts1 ++ th :: ts2) (thread_tok th) t /\
    ThreadOk (insert_tokens (cache s)) (heap (cache s)) th.
Proof.
  intros HF Hts. assert (th ∈ threads s) as Hin by (rewrite Hts; apply elem_of_app; right; left).
  pose proof (flight_threads _ HF th Hin) as (t & Ht & Hok). exists t. rewrite <- Hts.
  split_and!; [done | by apply HF | by exists t].
Qed.

Lemma on_token_self tok th : thread_tok th = tok -> on_token tok th = true.
Proof. intros <-. apply Nat.eqb_refl. Qed.

Lemma lock_flight key tok t r c' ts1 ts2 s :
  Flight s -> threads s = ts1 ++ Waits key tok :: ts2 -> heap (cache s) !! tok = Some t -> t_locked t = false ->
  getOrSet_lock tok t (cache s) = (r, c') ->
  Flight {| cache := c'; threads :=
    ts1 ++ match r with Some _ => Leaves key tok (t_cleaned_up t) | None => Loads key tok (t_cleaned_up t) end :: ts2 |}.
Proof.
  intros HF Hts Ht Hfree Hl. destruct (flight_thread _ _ _ _ HF Hts) as (t0 & Ht0 & [Hr Hcl Hlk] & (t1 & Ht1 & Hown & _)).
  cbn in Ht0, Ht1, Hr, Hcl, Hlk, Hown. rewrite Ht in Ht0, Ht1. injection Ht0 as <-. injection Ht1 as <-.
  rewrite count_if_middle in Hr, Hcl. rewrite (on_token_self tok (Waits key tok) eq_refl) in Hr, Hcl.
  rewrite count_if_middle in Hlk. cbn in Hlk. rewrite Hfree in Hlk.
  unfold getOrSet_lock in Hl. destruct (t_value t) as [v|] eqn:Ev; injection Hl as <- <-.
  - apply (flight_update (Waits key tok) [Leaves key tok (t_cleaned_up t)] ts1 ts2 t t (hit (cache s)) s); try done; cbn.
    + by rewrite insert_id.
    + by intros th' ->%list_elem_of_singleton.
    + by left.
    + by left.
    + split; rewrite count_if_middle; [by rewrite (on_token_self tok (Leaves key tok _) eq_refl) | by rewrite Ev; left | by rewrite Hfree].
    + intros th' ->%list_elem_of_singleton. by exists t.
  - assert (t_cleaned_up t = false) as Hc.
    { destruct (t_cleaned_up t); [|done]. destruct Hcl as [[? ?]|?]; [done | done | lia]. }
    eapply (flight_update (Waits key tok) [Loads key tok (t_cleaned_up t)] ts1 ts2 t); try done; cbn.
    + by apply alter_found.
    + by intros th' ->%list_elem_of_singleton.
    + by left.
    + by left.
    + split; cbn; rewrite count_if_middle; [by rewrite (on_token_self tok (Loads key tok _) eq_refl) | congruence|].
      cbn. rewrite Nat.eqb_refl. lia.
    + intros th' ->%list_elem_of_singleton. eexists. cbn. rewrite (alter_found _ _ _ _ Ht), lookup_insert_eq.
      split; [done|]. cbn. split_and!; [exact Hown | done | done].
Qed.

Lemma store_flight key tok b v result c' ts1 ts2 s :
  Flight s -> threads s = ts1 ++ Loads key tok b :: ts2 -> getOrSet_store key tok (Some v) (cache s) = Some (result, c') ->
  Flight {| cache := c'; threads := ts1 ++ ts2 |}.
Proof.
  intros HF Hts Hs. destruct (flight_thread _ _ _ _ HF Hts) as (t & Ht & [Hr Hcl Hlk] & (t1 & Ht1 & Hown & Hc & ->)).
  cbn in Ht, Ht1, Hr, Hcl, Hlk, Hown. rewrite Ht in Ht1. injection Ht1 as <-. specialize (Hown Hc).
  rewrite count_if_middle in Hlk. cbn in Hlk. rewrite Nat.eqb_refl in Hlk.
  assert (count_if (loading tok) (ts1 ++ ts2) = 0%nat) as Hnone by (destruct (t_locked t); lia).
  unfold getOrSet_store in Hs. cbn in Hs. rewrite bool_decide_eq_true_2 in Hs by done. unfold cache_set in Hs. cbn in Hs.
  rewrite (alter_found _ _ _ _ Ht), lookup_insert_eq in Hs. cbn in Hs. rewrite Hc in Hs.
  destruct (set key (Some v) (cache_policy (cache s))) as [[lost p]|]; [|done]. cbn in Hs. injection Hs as <- <-.
  set (t' := {| t_locked := false; t_cleaned_up := true; t_value := Some v; t_refcount := t_refcount t |}).
  eapply (flight_update (Loads key tok false) [] ts1 ts2 t t'); try done; cbn.
  - rewrite alter_alter_eq. exact (alter_found _ _ _ _ Ht).
  - lia.
  - intros th Hth. by apply elem_of_nil in Hth.
  - by right.
  - by right.
  - split; cbn; [done | by left; eexists | done].
  - intros th Hth. by apply elem_of_nil in Hth.
Qed.

Lemma throw_flight key tok b ts1 ts2 s :
  Flight s -> threads s = ts1 ++ Loads key tok b :: ts2 ->
  Flight {| cache := getOrSet_throw tok (cache s); threads := ts1 ++ Leaves key tok b :: ts2 |}.
Proof.
  intros HF Hts. destruct (flight_thread _ _ _ _ HF Hts) as (t & Ht & [Hr Hcl Hlk] & (t1 & Ht1 & Hown & Hc & ->)).
  cbn in Ht, Ht1, Hr, Hcl, Hlk, Hown. rewrite Ht in Ht1. injection Ht1 as <-.
  rewrite count_if_middle in Hr, Hcl, Hlk. rewrite (on_token_self tok (Loads key tok _) eq_refl) in Hr. cbn in Hlk. rewrite Nat.eqb_refl in Hlk.
  assert (count_if (loading tok) (ts1 ++ ts2) = 0%nat) as Hnone by (destruct (t_locked t); lia).
  eapply (flight_update (Loads key tok false) [Leaves key tok false] ts1 ts2 t); try done; cbn.
  - by apply alter_found.
  - by intros th' ->%list_elem_of_singleton.
  - by left.
  - by left.
  - split; cbn; rewrite count_if_middle; [by rewrite (on_token_self tok (Leaves key tok _) eq_refl) | congruence | done].
  - intros th' ->%list_elem_of_singleton. eexists. cbn. rewrite (alter_found _ _ _ _ Ht), lookup_insert_eq. done.
Qed.

(** A thread leaves a token that is cleaned up. *)
Lemma leave_clean_flight key tok b t ts1 ts2 s :
  Flight s -> threads s = ts1 ++ Leaves key tok b :: ts2 -> heap (cache s) !! tok = Some t -> t_cleaned_up t = true ->
  Flight {| cache := cache s; threads := ts1 ++ ts2 |}.
Proof.
  intros HF Hts Ht Hc. destruct (flight_thread _ _ _ _ HF Hts) as (t0 & Ht0 & [Hr Hcl Hlk] & _).
  cbn in Ht0, Hr, Hcl, Hlk. rewrite Ht in Ht0. injection Ht0 as <-. rewrite count_if_middle in Hcl, Hlk.
  eapply (flight_update (Leaves key tok b) [] ts1 ts2 t t); try done; cbn.
  - by rewrite insert_id.
  - lia.
  - intros th Hth. by apply elem_of_nil in Hth.
  - by left.
  - by left.
  - split; cbn; [congruence | intros _; destruct (Hcl Hc); [by left | right; lia] | exact Hlk].
  - intros th Hth. by apply elem_of_nil in Hth.
Qed.

Lemma leave_flight key tok t ts1 ts2 s :
  Flight s -> threads s = ts1 ++ Leaves key tok false :: ts2 -> heap (cache s) !! tok = Some t -> t_locked t = false ->
  Flight {| cache := holder_release key tok t (cache s); threads := ts1 ++ ts2 |}.
Proof.
  intros HF Hts Ht Hfree. unfold holder_release. destruct (t_cleaned_up t) eqn:Hc; [by eapply leave_clean_flight|].
  pose proof (refs_bound tok s HF) as Hrb. rewrite Hts in Hrb.
  destruct (flight_thread _ _ _ _ HF Hts) as (t0 & Ht0 & [Hr Hcl Hlk] & (t1 & Ht1 & Hown & _)).
  cbn in Ht0, Ht1, Hr, Hcl, Hlk, Hown. rewrite Ht in Ht0, Ht1. injection Ht0 as <-. injection Ht1 as <-.
  rewrite count_if_middle in Hr, Hlk, Hrb. rewrite (on_token_self tok (Leaves key tok _) eq_refl) in Hr, Hrb.
  rewrite Hfree in Hlk. cbn in Hlk. specialize (Hr Hc). specialize (Hown Hc).
  set (n := count_if (on_token tok) (ts1 ++ ts2)) in *.
  assert (uwrap 64 (t_refcount t - 1) = Z.of_nat n) as Hn by (rewrite Hr, uwrap_small; unfold in_unsigned; lia).
  rewrite Hn. destruct (Z.of_nat n =? 0) eqn:E0.
  - eapply (flight_update (Leaves key tok false) [] ts1 ts2 t); try done; cbn.
    + rewrite alter_alter_eq. by apply alter_found.
    + lia.
    + intros th Hth. by apply elem_of_nil in Hth.
    + by right.
    + by right.
    + split; cbn; [done | intros _; right; fold n; lia | by rewrite Hfree].
    + intros th Hth. by apply elem_of_nil in Hth.
  - eapply (flight_update (Leaves key tok false) [] ts1 ts2 t); try done; cbn.
    + by apply alter_found.
    + lia.
    + intros th Hth. by apply elem_of_nil in Hth.
    + by left.
    + by left.
    + split; cbn; [intros _; by fold n | congruence | by rewrite Hfree].
    + intros th Hth. by apply elem_of_nil in Hth.
Qed.

(** Neither a call of [clear] nor a load function that returns null. *)
Definition plain (e : Event) : Prop :=
  match e with Cleared | Loaded _ None _ => False | _ => True end.

Lemma flight_step weight s e s' : Flight s -> step weight s e s' -> plain e -> Flight s'.
Proof.
  intros HF Hstep Hplain. destruct Hstep as
    [key res c' s Hg|key res c' s Hg|key v c' s Hw Hset|key s|f s|s|n c' s Hn Hset|n c' s Hn Hset|key v c' s He|key tok c' s Hmany He
    |key tok t v c' ts1 ts2 s Hts Ht Hfree Hl|key tok t c' ts1 ts2 s Hts Ht Hfree Hl|key tok b v r c' ts1 ts2 s Hts Hw Hst
    |key tok b ts1 ts2 s Hts|key tok ts1 ts2 s Hts|key tok t ts1 ts2 s Hts Ht Hfree].
  - unfold cache_get in Hg. destruct (get key _) as [[[v|] p]|]; [..|done]; injection Hg as <- <-; by apply flight_same.
  - unfold cache_getWithKey in Hg. destruct (getWithKey key _) as [[[v|] p]|]; [..|done]; injection Hg as <- <-; by apply flight_same.
  - unfold cache_set in Hset. destruct (set key v _); [|done]. injection Hset as <-. by apply flight_same.
  - by apply flight_same.
  - by apply flight_same.
  - done.
  - unfold cache_setMaxCount in Hset. destruct (setMaxCount n _); [|done]. injection Hset as <-. by apply flight_same.
  - unfold cache_setMaxSizeInBytes in Hset. destruct (setMaxSizeInBytes n _); [|done]. injection Hset as <-. by apply flight_same.
  - unfold getOrSet_enter in He. destruct (get key _) as [[[v'|] p]|]; [|by cbn in He; repeat case_match|done].
    injection He as <- <-. by apply flight_same.
  - by eapply enter_flight.
  - exact (lock_flight _ _ _ _ _ _ _ _ HF Hts Ht Hfree Hl).
  - exact (lock_flight _ _ _ _ _ _ _ _ HF Hts Ht Hfree Hl).
  - destruct v as [v|]; [|done]. by eapply store_flight.
  - by apply throw_flight.
  - destruct (flight_thread _ _ _ _ HF Hts) as (t & Ht & _ & (t1 & Ht1 & _ & Hc)). cbn in Ht, Ht1.
    eapply leave_clean_flight; [exact HF | exact Hts | exact Ht1 | by apply Hc].
  - by eapply leave_flight.
Qed.

Lemma runs_flight weight p tr s : runs weight p tr s -> Forall plain tr -> Flight s.
Proof.
  induction 1 as [|tr s e s' _ IH Hstep]; intros Hall.
  - split; cbn; try (intros *; by rewrite lookup_empty); [|lia]. intros th Hth. by apply elem_of_nil in Hth.
  - apply Forall_cons in Hall as [He Hall]. eapply flight_step; [by apply IH | exact Hstep | done].
Qed.

(** Threads that load the same key are one thread. *)
Lemma flight_single key s : Flight s -> (count_if (loading_key key) (threads s) <= 1)%nat.
Proof.
  intros HF. destruct (insert_tokens (cache s) !! key) as [tok|] eqn:Ek.
  - destruct (flight_map _ HF key tok Ek) as (t & Ht & _). destruct (flight_tokens _ HF tok t Ht) as [_ _ Hlk].
    assert (count_if (loading_key key) (threads s) <= count_if (loading tok) (threads s))%nat; [|destruct (t_locked t); lia].
    assert (forall th, th ∈ threads s -> loading_key key th = true -> loading tok th = true) as Himp.
    { intros th Hin Hl. destruct (flight_threads _ HF th Hin) as (t0 & _ & Hown & Hst). destruct th as [|k tk b|]; try done.
      cbn in *. apply bool_decide_eq_true in Hl as ->. destruct Hst as [Hc _]. rewrite (Hown Hc) in Ek. injection Ek as ->. apply Nat.eqb_refl. }
    clear -Himp. induction (threads s) as [|th ts IH]; [done|]. rewrite !count_if_cons.
    assert (count_if (loading_key key) ts <= count_if (loading tok) ts)%nat as Hle by (apply IH; intros th' Hin; apply Himp; by right).
    specialize (Himp th ltac:(left)). destruct (loading_key key th); [rewrite Himp by done|]; lia.
  - destruct (decide (count_if (loading_key key) (threads s) = 0%nat)) as [|Hne]; [lia|].
    assert (0 < count_if (loading_key key) (threads s))%nat as (th & Hin & Hl)%count_if_pos by lia.
    destruct (flight_threads _ HF th Hin) as (t0 & _ & Hown & Hst). destruct th as [|k tk b|]; try done.
    cbn in *. apply bool_decide_eq_true in Hl as ->. destruct Hst as [Hc _]. rewrite (Hown Hc) in Ek. done.
Qed.
End CacheBase.

(** * What the cache promises *)

(** C3: A cache of either policy is a map that only forgets: in any interleaving of its
    operations and of concurrent calls of [getOrSet], a value that [get] or [getWithKey]
    finds is the last one stored for the key and not removed since; a value that
    [getOrSet] returns without loading is such a value, or one that another call loaded
    for the key (which need not be in the cache any more, or at all after [clear]); the
    cached entries are among the stored ones, and the size and count it reports are
    those of the entries; no operation that a thread may do next reaches
    [std::terminate]: not [get], [getWithKey], [set], [setMaxCount],
    [setMaxSizeInBytes], nor the parts of [getOrSet] before and after the load. *)
Theorem cache_coherent {K V} `{Countable K} (weight : V -> Z) name max_size max_cnt ratio p tr s :
  let _ := Any (K := K) weight in
  0 <= max_size <= size_limit -> 0 <= max_cnt -> make_policy name max_size max_cnt ratio = Ok p ->
  runs weight p tr s ->
  (forall e s', step weight s e s' -> read_ok tr e) /\
  any_contents (cache_policy (cache s)) ⊆ written tr /\
  sizeInBytes (cache_policy (cache s)) = total (ptr_weight weight) (any_contents (cache_policy (cache s))) /\
  count (cache_policy (cache s)) = Z.of_nat (size (any_contents (cache_policy (cache s)))) /\
  (forall key, is_Some (cache_get key (cache s)) /\ is_Some (cache_getWithKey key (cache s)) /\ is_Some (getOrSet_enter key (cache s))) /\
  (forall key v, 0 <= ptr_weight weight v <= size_limit -> is_Some (cache_set key v (cache s))) /\
  (forall n, 0 <= n -> is_Some (cache_setMaxCount n (cache s))) /\
  (forall n, 0 <= n <= size_limit -> is_Some (cache_setMaxSizeInBytes n (cache s))) /\
  (forall key tok b v, Loads key tok b ∈ threads s -> 0 <= ptr_weight weight v <= size_limit -> is_Some (getOrSet_store key tok v (cache s))).
Proof.
  intros inst Hsize Hcnt Hmake Hruns. destruct (make_policy_inv weight _ _ _ _ _ Hsize Hcnt Hmake) as [Hinv Hempty].
  pose proof (runs_coherent weight (CachePolicyLaws0 := Any_laws weight) p tr s Hinv Hempty Hruns) as HC.
  pose proof HC as [Hp Hc _]. split_and!.
  - intros e s' Hstep. by apply (coherent_step weight (CachePolicyLaws0 := Any_laws weight) _ _ _ _ HC Hstep).
  - exact Hc.
  - exact (size_law (CachePolicyLaws := Any_laws weight) _ Hp).
  - exact (count_law (CachePolicyLaws := Any_laws weight) _ Hp).
  - apply (coherent_returns weight (CachePolicyLaws0 := Any_laws weight) _ _ HC).
  - apply (coherent_returns weight (CachePolicyLaws0 := Any_laws weight) _ _ HC).
  - apply (coherent_returns weight (CachePolicyLaws0 := Any_laws weight) _ _ HC).
  - apply (coherent_returns weight (CachePolicyLaws0 := Any_laws weight) _ _ HC).
  - apply (coherent_returns weight (CachePolicyLaws0 := Any_laws weight) _ _ HC).
Qed.

(** C19: Single flight: whatever the policy, as long as nobody calls [clear] and
    the load functions return values, at most one thread at a time is in the load
    function of [getOrSet] for a key, in any interleaving, also when load
    functions throw. *)
Theorem cache_single_flight {K V P} `{Countable K} `{!ICachePolicy K V P} (weight : V -> Z) p tr s key :
  runs weight p tr s -> Forall plain tr -> (count_if (loading_key key) (threads s) <= 1)%nat.
Proof. intros Hr Hall. apply flight_single. by eapply runs_flight. Qed.

(** ** A cache in use *)

Definition demo_policy : AnyPolicy Z Z := AnySLRU (slru_new 10 0 half).

Section Demo.
#[local] Abbreviation weight := (fun v : Z => v).
#[local] Instance demo : ICachePolicy Z Z (AnyPolicy Z Z) := Any weight.

(** The next state of a run, computed. *)
Ltac run_enter H key :=
  match type of H with
  | runs _ _ _ ?s =>
      let r := eval vm_compute in (getOrSet_enter key (cache s)) in
      match r with
      | Some (inr ?tok, ?c) =>
          eapply runs_step in H; [|eapply (step_enter weight key tok c); [done | vm_compute; reflexivity]]
      end
  end.
Ltac run_load H key tok ts1 ts2 :=
  match type of H with
  | runs _ _ _ ?s =>
      let t := eval vm_compute in (heap (cache s) !! tok) in
      match t with
      | Some ?t =>
          let r := eval vm_compute in (getOrSet_lock tok t (cache s)) in
          match r with
          | (_, ?c) => eapply runs_step in H; [|eapply (step_lock_load weight key tok t c ts1 ts2); vm_compute; reflexivity]
          end
      end
  end.
Ltac run_store H key tok loaded ts1 ts2 :=
  match type of H with
  | runs _ _ _ ?s =>
      let r := eval vm_compute in (getOrSet_store key tok (Some loaded) (cache s)) in
      match r with
      | Some (?result, ?c) =>
          eapply runs_step in H; [|eapply (step_store weight key tok false (Some loaded) result c ts1 ts2);
                                   [reflexivity | by vm_compute | vm_compute; reflexivity]]
      end
  end.
Ltac run_clear H :=
  match type of H with
  | runs _ _ _ ?s =>
      eapply runs_step in H; [|eapply (step_clear weight)];
      let c := eval vm_compute in (cache_clear (cache s)) in
      change (cache_clear (cache s)) with c in H
  end.

(** One thread loads the value of key 5, another one waits for it. *)
Lemma demo_run :
  exists s, runs weight demo_policy [Silent; Silent; Silent] s /\ threads s = [Waits 5 0; Loads 5 0 false].
Proof.
  pose proof (runs_init weight demo_policy) as H.
  run_enter H 5. run_load H 5 0%nat ([] : list (Thread (K := Z))) ([] : list (Thread (K := Z))). run_enter H 5.
  eexists. split; [exact H | reflexivity].
Qed.

Lemma cache_single_flight_witness :
  exists s : System (K := Z) (V := Z) (P := AnyPolicy Z Z),
    threads s = [Waits 5 0; Loads 5 0 false] /\ (count_if (loading_key 5%Z) (threads s) <= 1)%nat.
Proof.
  destruct demo_run as (s & Hr & Hts). exists s. split; [done|].
  apply (cache_single_flight weight demo_policy _ s 5 Hr). by repeat constructor.
Defined.

(** A value is stored and read back. *)
Lemma demo_read :
  exists s s', runs weight demo_policy [Set_ 5 (Some 3)] s /\ step weight s (Got 5 (Some 3)) s'.
Proof.
  pose proof (runs_init weight demo_policy) as H.
  eapply runs_step in H; [|eapply (step_set weight 5 (Some 3)); [by vm_compute | reflexivity]].
  do 2 eexists. split; [exact H|]. eapply step_get. vm_compute. reflexivity.
Qed.

Lemma cache_coherent_witness :
  exists s, runs weight demo_policy [Set_ 5 (Some 3)] s /\
    sizeInBytes (cache_policy (cache s)) = total (ptr_weight weight) (any_contents (cache_policy (cache s))).
Proof.
  destruct demo_read as (s & s' & Hr & Hs). exists s. split; [exact Hr|].
  destruct (cache_coherent weight "SLRU" 10 0 half demo_policy [Set_ 5 (Some 3)] s) as (_ & _ & Hsize & _);
    [by vm_compute | done | reflexivity | exact Hr | exact Hsize].
Defined.

(** One call of [clear] breaks single flight for calls of [getOrSet] that
    start after it.  A thread that loads a key when [clear] runs cleans its token up
    later, by [insert_tokens.erase( *key)], which erases the token of the next call
    for the key: from then on a third call loads the same key at the same time as
    the second one, and the value of the second one is not stored. *)
Theorem clear_breaks_single_flight :
  exists (tr : list (Event (K := Z) (V := Z))) s c',
    runs weight demo_policy (tr ++ [Cleared; Silent; Silent]) s /\ Forall plain tr /\
    threads s = [Loads 5 2 false; Loads 5 1 false] /\
    getOrSet_store 5 1 (Some 3) (cache s) = Some (false, c').
Proof.
  pose proof (runs_init weight demo_policy) as H.
  run_enter H 5. run_load H 5 0%nat ([] : list (Thread (K := Z))) ([] : list (Thread (K := Z))). run_clear H.
  run_enter H 5. run_load H 5 1%nat ([] : list (Thread (K := Z))) [Loads 5 0 false].
  run_store H 5 0%nat 7 [Loads 5 1 false] ([] : list (Thread (K := Z))).
  run_enter H 5. run_load H 5 2%nat ([] : list (Thread (K := Z))) [Loads 5 1 false].
  eexists [Silent; Silent; Loaded 5 (Some 7) false; Silent; Silent], _, _.
  split; [exact H|]. split; [by repeat constructor|]. split; [reflexivity | vm_compute; reflexivity].
Qed.
End Demo.
